(* ===== verification/_CoqProject ===== *)
-Q . S2P
Prelude.v
Text.v
Sweep.v
Net.v
Effects.v
Conc.v
Extern.v
Models.v
RateLimit.v
Capacity.v
Ledger.v
Cdk.v
Terms.v
LnPolicy.v
Payments.v
Minting.v
Payout.v
Wallets.v
Http.v
Flow.v
Config.v
State.v
LnProof.v
LnStore.v
Proxy.v
Admission.v
Upstream.v
Gateway.v
Complete.v
Paid.v
Retry.v
Certs.v
Orders.v
Issuance.v
Connections.v
Files.v
Dirs.v
Background.v
Watch.v
Chores.v
Acme.v
Logging.v
Client.v
Visit.v
Deadline.v
Start.v
Receiver.v
