(* ===== verification/Prelude.v ===== *)
(** * Geata, a paying reverse proxy: verification library

    Geata ([src/crates/geata/src]) terminates HTTP and HTTPS for the sites of a
    configuration file, forwards requests to backends, limits what each client
    gets for free, and sells further requests for Cashu tokens and Lightning
    payments (x402 and L402).  This library models the program's own logic and
    proves what its users rely on: a payment buys one request and is never lost
    to a refusal, nobody is served who is not entitled to be, free use is bounded,
    and the bookkeeping behind this survives failures, cancellation, restarts
    and reloads.

    ** The parts and where they are

    Foundations, no code of the program:
    - [Prelude], [Text], [Net], [Http]: results and the [?] operator, machine
      integers, Rust strings and [str::parse], IP addresses, header maps.
    - [Effects]: an asynchronous function on state under a lock, that can fail or
      be dropped at every [await]; a script of fates decides, theorems hold for
      all scripts.
    - [Conc]: handlers as tasks on shared storage under every schedule, with
      crashes; [Flow]: handlers as sequences of calls on a shared world.
    - [Extern]: third-party crates as classes of functions and of the laws that
      are relied on; [Models]: computable instances of them, for examples only.
    - [Sweep]: bounded passes over a table with a cursor.

    Components:
    - [RateLimit] (module [Rate]): [rate_limit.rs].  Shards of token buckets.
    - [Capacity] ([Cap]): [Capacity] of [config.rs].  Requests in flight.
    - [Ledger] ([Ledg]): [payments/ledger.rs].  The journal of a mint.
    - [Cdk]: the wallet library as a parameter and the slot behind a mint's lock.
    - [Terms], [Payments] ([Pay]), [Minting], [Payout]: [payments/mod.rs],
      [payments/minting.rs], [payments/payout.rs].  Each operation is a function
      of [Effects] on the slot.
    - [Wallets]: every history of those operations on a mint.
    - [LnPolicy] ([Ln]), [LnProof] ([Proofs]), [LnStore] ([Service]):
      [payments/lightning/mod.rs], [l402.rs], [cashu.rs], [maintenance.rs].  Policies
      and request hashes, proofs of payment, the service and its journal.
    - [Config] ([Conf]): the Geatafile parser of [config.rs].
    - [State]: [state.rs], reload.
    - [Proxy] ([Front]): [request_filter] of [proxy.rs], stage by stage; [Upstream]:
      the hooks after it and the rejection log.
    - [Admission]: theorems about one request; [Gateway]: theorems about many at
      once, over the class [Services] that [Wallets] implements; [Complete]: exactly
      which requests are let in; [Paid]: the gateway and the Lightning service
      as one concurrent system; [Visit]: these two and the client.
    - [Deadline]: the deadline [BoundedProxy] of [proxy.rs] puts on a request.
    - [Receiver]: [payments/lightning/receiver.rs], the request for an invoice.
    - [Client]: the client of [examples/lightning_client.rs].
    - [Issuance]: [payments/lightning/issuance.rs], the permits around the making
      of a challenge; [Connections]: [connections.rs], the permit of a connection.
    - [Retry] ([Wait]): [retry.rs] and the pauses of [acme_http.rs]; [Acme]: the
      request to the authority that keeps them.
    - [Certs]: [certificates.rs] and the certificate loop of [automation.rs];
      [Orders]: theorems about all its lives on one disk; [Background]: a job of
      it ([issue]) with its challenges.
    - [Watch]: [watch_config] and [manage_payouts] of [automation.rs]; [Chores]: these
      and the other loops of [Automation::start], at once.
    - [Files]: the files of [storage.rs] and the wallet seed ([prepare_storage] of
      [payments/mod.rs]) on a file system that can fail and crash; [Dirs]: the
      private directories around them.
    - [Logging]: the log filter ([logging.rs]) and the layer of [main.rs] it is in.
    - [Start]: the commands of [main.rs], as processes on one machine.

    A struct of the source is a record with its fields, an enum an inductive type,
    a function or method a definition with its name; a long function is split
    into definitions for its stages, in its order.  A shared [Arc] is a reference
    (an identity with its settings) into a table of the world.  Times are integers
    in the source's unit, and arithmetic that saturates or wraps in the source
    does so here.

    ** What is proved

    - Money: a Cashu token, and a Lightning payment, admits at most one request,
      over all interleavings, failures, crashes and both protocols ([Gateway], [Paid],
      [Wallets], [LnStore], [Ledger]); an admitted request was paid its price;
      a payout is not sent while another is unresolved; a request that paid is
      served: its backend gets it, or it gets its site's own answer ([Admission]).
    - Entitlement: a request reaches a site only as its own configuration allows,
      and no settlement is attempted before the verification limit and the
      capacity allowed it ([Admission]); the requests that are served are exactly
      those that meet conditions stated without the control flow of the filter
      ([Complete]; receipts are taken to be visible ASCII there and in [Admission],
      which [Visit] shows of those of the service).
    - Service: a client that pays what the proxy asks for is served, by either protocol
      ([Visit]).
    - Proofs of payment: what an accepted x402 header or L402 credential proves,
      and that a minted credential is accepted ([LnProof]); that the client makes of
      a challenge a credential or payment the proxy accepts ([Client]); a request
      hash determines the request ([LnPolicy]).
    - Limits: the swept and bounded table of buckets refines buckets that are kept
      for ever, the token-bucket bound, exact waits ([RateLimit]), the same bounds
      for the whole gateway ([Gateway]), permits in flight ([Capacity]), records of
      outstanding challenges ([LnStore]).
    - Configuration: parsing never yields a malformed site, locates its errors,
      and tokenizing inverts rendering ([Config]); reload keeps counters ([State]).
    - The backend: addresses tried, headers and body bytes seen ([Upstream]).
    - Certificates: orders are spaced, recorded before they are made and never
      duplicated, over restarts ([Orders]); what is presented to a client is valid and
      fits the name ([Orders]); the authority's pauses are kept, across
      restarts when they reached the disk ([Acme]); challenges are there when needed
      and removed afterwards ([Background]).
    - Disk: replacing a file is atomic in the face of crashes, a seed is never
      replaced nor made beside a wallet, directories are private ([Files], [Dirs]).
    - Running: the configuration in force is the last good one ([Watch]), payouts
      follow it and the loops of the background service never end, however they
      interleave ([Chores]); the table of weak references of [Issuance] is equivalent
      to a table that forgets nothing; open connections are bounded, and cut when they
      are slow to make their first request ([Connections]); a request is cut when the
      deadline in force has passed, an old one counting until the loop has seen the
      new one ([Deadline]); one process at a time works on a data directory ([Start]); an invoice is asked for once and with
      whole credentials ([Receiver]); no secrets of the libraries are logged
      ([Logging]).
    - Waiting: backoff, and progress of the bounded sweeps ([Retry], [Sweep]).

    ** Fuel and bounds

    The loops of the parser in [Config] take fuel: the number of characters for
    the tokenizer, the number of tokens for the others.  That this is enough is
    part of [parse_errors_located], whose errors have real line numbers, not the
    line 0 of exhausted fuel.  [hex_digits] of [Http] takes the number of digits, and
    [connect] of [Upstream] is given as many retries as there can be addresses.
    The loops of [Chores] are given for a number of rounds, which is any number in the
    theorems.  Everything else recurses on its data.  The scripts of [Effects] and the
    schedules of [Conc] and [Flow] are finite lists of any length: a theorem
    about all of them is a theorem about every prefix of an unbounded run.

    ** What is not modelled

    Third-party crates (the wallet library, cryptography, invoices, JSON, URLs,
    pingora, the certificate authority's client) are parameters.  Outside the model
    are sockets, TLS and pingora's own request handling, the order in which it calls
    the hooks, the parsing of the command line, and the wiring of the services in
    [main.rs] and [proxy.rs] ([service]), which hands configured objects to pingora. *)
From stdpp Require Export prelude gmap strings list numbers.
From Stdlib Require Export ZArith Lia.

#[local] Open Scope Z_scope.

(** ** Results

    [Result<A, E>] of the source.  The error type comes first so that
    [result E] is a monad in stdpp's sense and the [?] operator is the bind
    [x ← e; k]. *)

Inductive result (E A : Type) : Type :=
| Ok (a : A)
| Err (e : E).
Arguments Ok {E A} a.
Arguments Err {E A} e.

#[export] Instance result_ret E : MRet (result E) := λ A a, Ok a.
#[export] Instance result_bind E : MBind (result E) := λ A B k r,
  match r with Ok a => k a | Err e => Err e end.
#[export] Instance result_fmap E : FMap (result E) := λ A B f r,
  match r with Ok a => Ok (f a) | Err e => Err e end.
#[export] Instance result_eq_dec `{EqDecision E, EqDecision A} :
  EqDecision (result E A).
Proof. solve_decision. Defined.

(** [Result::ok], [Result::map_err], [Result::is_ok], [Option::ok_or],
    [anyhow::ensure!] and [Option::filter]. *)
Definition ok {E A} (r : result E A) : option A :=
  match r with Ok a => Some a | Err _ => None end.
Definition is_ok {E A} (r : result E A) : bool :=
  match r with Ok _ => true | Err _ => false end.
Definition map_err {E F A} (f : E → F) (r : result E A) : result F A :=
  match r with Ok a => Ok a | Err e => Err (f e) end.
Definition ok_or {E A} (e : E) (o : option A) : result E A :=
  match o with Some a => Ok a | None => Err e end.
Definition ensure {E} (b : bool) (e : E) : result E unit :=
  if b then Ok tt else Err e.
Definition opt_filter {A} (p : A → bool) (o : option A) : option A :=
  match o with Some a => if p a then Some a else None | None => None end.
Definition is_some {A} (o : option A) : bool :=
  match o with Some _ => true | None => false end.
Definition is_none {A} (o : option A) : bool := negb (is_some o).
(** [Option::is_some_and] *)
Definition is_some_and {A} (p : A → bool) (o : option A) : bool :=
  match o with Some a => p a | None => false end.
(** [Option::transpose] on [Option<Result<_>>]. *)
Definition transpose {E A} (o : option (result E A)) : result E (option A) :=
  match o with
  | None => Ok None
  | Some (Ok a) => Ok (Some a)
  | Some (Err e) => Err e
  end.

(** An [anyhow::Error] is what its [Display] prints: the outermost context. *)
Abbreviation anyhow := string (only parsing).

(** ** Fixed-width integers

    Integers are [Z]; the width is written out where an operation of the
    source depends on it. *)

Definition u8_max : Z := 255.
Definition u16_max : Z := 65535.
Definition u32_max : Z := 4294967295.
Definition u64_max : Z := 18446744073709551615.
Definition u128_max : Z := 340282366920938463463374607431768211455.
Definition i64_max : Z := 9223372036854775807.
Definition i64_min : Z := -9223372036854775808.

Definition u32 (x : Z) : Prop := 0 ≤ x ≤ u32_max.
Definition u64 (x : Z) : Prop := 0 ≤ x ≤ u64_max.
Definition u128 (x : Z) : Prop := 0 ≤ x ≤ u128_max.
Definition i64 (x : Z) : Prop := i64_min ≤ x ≤ i64_max.

(** [u64::saturating_add], [u64::checked_add], [u64::checked_mul]. *)
Definition u64_sat_add (a b : Z) : Z := Z.min u64_max (a + b).
Definition u64_checked_add (a b : Z) : option Z :=
  if a + b <=? u64_max then Some (a + b) else None.
Definition u64_checked_mul (a b : Z) : option Z :=
  if a * b <=? u64_max then Some (a * b) else None.
(** [i64::saturating_add], [i64::saturating_sub], [i64::checked_mul]. *)
Definition i64_clamp (x : Z) : Z := Z.max i64_min (Z.min i64_max x).
Definition i64_sat_add (a b : Z) : Z := i64_clamp (a + b).
Definition i64_sat_sub (a b : Z) : Z := i64_clamp (a - b).
Definition i64_checked_mul (a b : Z) : option Z :=
  if (i64_min <=? a * b) && (a * b <=? i64_max) then Some (a * b) else None.
(** Truncating casts [as u64] and [as i64]. *)
Definition as_u64 (x : Z) : Z := x mod 2 ^ 64.
Definition as_i64 (x : Z) : Z := (x + 2 ^ 63) mod 2 ^ 64 - 2 ^ 63.

(** ** Automation *)

Create HintDb geata.

Ltac invs H := inversion H; subst; clear H.

(** Unfold the width predicates and constants before [lia]. *)
Ltac widths :=
  unfold u32, u64, u128, i64, u64_sat_add, i64_sat_add, i64_sat_sub,
    i64_clamp, u8_max, u16_max, u32_max, u64_max, u128_max,
    i64_max, i64_min in *.
Ltac solve_width := widths; lia.

Lemma bind_Ok {E A B} (r : result E A) (k : A → result E B) b :
  (r ≫= k) = Ok b ↔ ∃ a, r = Ok a ∧ k a = Ok b.
Proof. destruct r; naive_solver. Qed.

Lemma ensure_Ok {E} b (e : E) u : ensure b e = Ok u ↔ b = true.
Proof. destruct b, u; naive_solver. Qed.

Lemma ok_or_Ok {E A} (e : E) (o : option A) a : ok_or e o = Ok a ↔ o = Some a.
Proof. destruct o; naive_solver. Qed.

Lemma map_err_Ok {E F A} (f : E → F) (r : result E A) a :
  map_err f r = Ok a ↔ r = Ok a.
Proof. destruct r; naive_solver. Qed.

Lemma opt_filter_Some {A} (p : A → bool) o a :
  opt_filter p o = Some a ↔ o = Some a ∧ p a = true.
Proof.
  destruct o as [x|]; simpl; [|by split; intros; destruct_and?].
  destruct (p x) eqn:Hp; split; intros; destruct_and?; simplify_eq; auto;
    congruence.
Qed.

Lemma transpose_Ok {E A} (o : option (result E A)) a :
  transpose o = Ok a ↔ match a with None => o = None | Some x => o = Some (Ok x) end.
Proof. destruct o as [[x|e]|], a; naive_solver. Qed.

Lemma is_some_and_true {A} (p : A → bool) o :
  is_some_and p o = true ↔ ∃ a, o = Some a ∧ p a = true.
Proof. destruct o; naive_solver. Qed.

(** Take a successful run of [result] code apart: every bind, guard and
    conversion on the path becomes a hypothesis. *)
Ltac inv_ok :=
  repeat match goal with
  | H : (?r ≫= ?k) = Ok _ |- _ =>
      apply bind_Ok in H; destruct H as (? & ? & H); cbn beta in H
  | H : ensure _ _ = Ok _ |- _ => apply ensure_Ok in H
  | H : ok_or _ _ = Ok _ |- _ => apply ok_or_Ok in H
  | H : map_err _ _ = Ok _ |- _ => apply map_err_Ok in H
  | H : opt_filter _ _ = Some _ |- _ => apply opt_filter_Some in H; destruct H
  | H : Ok _ = Ok _ |- _ => injection H as H
  | H : Err _ = Ok _ |- _ => discriminate H
  | H : mret _ = Ok _ |- _ => injection H as H
  | H : _ && _ = true |- _ => apply andb_true_iff in H; destruct H
  | H : negb _ = true |- _ => apply negb_true_iff in H
  end.

(** A list around one of its positions. *)
Lemma lookup_split {A} (l : list A) i x :
  l !! i = Some x → ∃ l1 l2, l = l1 ++ x :: l2 ∧ ∀ y, <[i := y]> l = l1 ++ y :: l2.
Proof.
  intros Hi. exists (take i l), (drop (S i) l). split; [by rewrite take_drop_middle|].
  intros y. by rewrite insert_take_drop by (by eapply lookup_lt_Some).
Qed.
