(* ===== verification/Text.v ===== *)
(** * Rust strings

    A Rust [str] is the sequence of its UTF-8 bytes, so Rocq's [string] (a list
    of 8-bit [ascii]) models it: [len] is [String.length], [as_bytes] the list
    of its characters.  This file defines the standard library's string
    operations the program uses, [str::parse] for integers, the Unicode white
    space test of [char], and the UTF-8 encoding of a [char]. *)
From Stdlib Require Export Ascii.
From stdpp Require Export pretty.
From S2P Require Import Prelude.
#[local] Open Scope Z_scope.

Abbreviation slen := String.length (only parsing).
#[global] Arguments String.append !_ _ /.

(** ** Bytes *)

Definition byte_val (c : ascii) : Z := Z.of_nat (Ascii.nat_of_ascii c).
Definition in_range (lo hi x : Z) : bool := (lo <=? x) && (x <=? hi).

(** [u8::is_ascii_digit], [is_ascii_alphanumeric], [to_ascii_lowercase]. *)
Definition is_ascii_digit (c : ascii) : bool := in_range 48 57 (byte_val c).
Definition is_ascii_lower (c : ascii) : bool := in_range 97 122 (byte_val c).
Definition is_ascii_upper (c : ascii) : bool := in_range 65 90 (byte_val c).
Definition is_ascii_alphanumeric (c : ascii) : bool :=
  is_ascii_digit c || is_ascii_lower c || is_ascii_upper c.
Definition ascii_lower (c : ascii) : ascii :=
  if is_ascii_upper c then Ascii.ascii_of_nat (Ascii.nat_of_ascii c + 32) else c.

Fixpoint bytes_all (p : ascii → bool) (s : string) : bool :=
  match s with
  | "" => true
  | String c s' => p c && bytes_all p s'
  end%string.

Fixpoint bytes (s : string) : list ascii :=
  match s with "" => [] | String c s' => c :: bytes s' end%string.
Fixpoint of_bytes (l : list ascii) : string :=
  match l with [] => "" | c :: l' => String c (of_bytes l') end%string.

Fixpoint to_ascii_lowercase (s : string) : string :=
  match s with
  | "" => ""
  | String c s' => String (ascii_lower c) (to_ascii_lowercase s')
  end%string.

(** [str::is_ascii] *)
Definition str_is_ascii (s : string) : bool := bytes_all (λ c, byte_val c <=? 127) s.

(** ** Searching and splitting *)

Definition starts_with (p s : string) : bool := String.prefix p s.

Fixpoint strip_prefix (p s : string) : option string :=
  match p, s with
  | ""%string, _ => Some s
  | String a p', String b s' => if bool_decide (a = b) then strip_prefix p' s' else None
  | _, _ => None
  end.

(** [str::strip_suffix]: the split point is [len - len suffix] from the left. *)
Definition strip_suffix (suf s : string) : option string :=
  let n := (slen s - slen suf)%nat in
  if bool_decide ((slen suf ≤ slen s)%nat ∧
                  String.substring n (slen suf) s = suf)
  then Some (String.substring 0 n s) else None.
Definition ends_with (suf s : string) : bool := is_some (strip_suffix suf s).

Fixpoint contains (sub s : string) : bool :=
  starts_with sub s ||
  match s with "" => false | String _ s' => contains sub s' end%string.

(** [str::split] on a one-byte separator; never empty. *)
Fixpoint split_on (sep : ascii) (s : string) : list string :=
  match s with
  | "" => [""]
  | String c s' =>
      if bool_decide (c = sep) then "" :: split_on sep s'
      else match split_on sep s' with
           | [] => [String c ""]
           | w :: ws => String c w :: ws
           end
  end%string.

(** [str::split_once] on a one-byte separator. *)
Fixpoint split_once (sep : ascii) (s : string) : option (string * string) :=
  match s with
  | "" => None
  | String c s' =>
      if bool_decide (c = sep) then Some ("", s')
      else match split_once sep s' with
           | Some (a, b) => Some (String c a, b)
           | None => None
           end
  end%string.

(** [str::split_once] on a string. *)
Fixpoint split_once_str (sep s : string) : option (string * string) :=
  match strip_prefix sep s with
  | Some rest => Some (""%string, rest)
  | None =>
      match s with
      | "" => None
      | String c s' =>
          match split_once_str sep s' with Some (a, b) => Some (String c a, b) | None => None end
      end%string
  end.

Fixpoint str_rev_append (s acc : string) : string :=
  match s with "" => acc | String c s' => str_rev_append s' (String c acc) end%string.
Definition str_rev (s : string) : string := str_rev_append s "".

Fixpoint trim_start_by (p : ascii → bool) (s : string) : string :=
  match s with
  | "" => ""
  | String c s' => if p c then trim_start_by p s' else s
  end%string.
Definition trim_end_by (p : ascii → bool) (s : string) : string :=
  str_rev (trim_start_by p (str_rev s)).
(** [str::trim_matches], [str::trim_end_matches] for a set of ASCII characters. *)
Definition trim_by (p : ascii → bool) (s : string) : string :=
  trim_end_by p (trim_start_by p s).
Definition is_bracket (c : ascii) : bool :=
  bool_decide (c = "["%char) || bool_decide (c = "]"%char).

(** [str::eq_ignore_ascii_case] *)
Definition eq_ignore_ascii_case (a b : string) : bool :=
  bool_decide (to_ascii_lowercase a = to_ascii_lowercase b).

(** ** [str::parse] for integers

    [core::num]'s parser: an optional sign ([-] only for signed types), at
    least one digit, an overflow check per digit, errors in that order. *)

Inductive ParseIntError := IntEmpty | InvalidDigit | PosOverflow | NegOverflow.
#[export] Instance ParseIntError_eq_dec : EqDecision ParseIntError.
Proof. solve_decision. Defined.

Definition ParseIntError_to_string (e : ParseIntError) : string :=
  match e with
  | IntEmpty => "cannot parse integer from empty string"
  | InvalidDigit => "invalid digit found in string"
  | PosOverflow => "number too large to fit in target type"
  | NegOverflow => "number too small to fit in target type"
  end.

Fixpoint parse_digits (lo hi : Z) (neg : bool) (acc : Z) (s : string) :
    result ParseIntError Z :=
  match s with
  | ""%string => Ok acc
  | String c s' =>
      if is_ascii_digit c then
        let d := byte_val c - 48 in
        let acc' := if neg then acc * 10 - d else acc * 10 + d in
        if acc' <? lo then Err NegOverflow
        else if hi <? acc' then Err PosOverflow
        else parse_digits lo hi neg acc' s'
      else Err InvalidDigit
  end.

Definition parse_int (signed : bool) (lo hi : Z) (s : string) : result ParseIntError Z :=
  match s with
  | ""%string => Err IntEmpty
  | String c rest =>
      if bool_decide (c = "+"%char) || (signed && bool_decide (c = "-"%char)) then
        match rest with
        | ""%string => Err InvalidDigit
        | _ => parse_digits lo hi (bool_decide (c = "-"%char)) 0 rest
        end
      else parse_digits lo hi false 0 s
  end.

Definition parse_u8 := parse_int false 0 u8_max.
Definition parse_u16 := parse_int false 0 u16_max.
Definition parse_u32 := parse_int false 0 u32_max.
Definition parse_u64 := parse_int false 0 u64_max.
Definition parse_i64 := parse_int true i64_min i64_max.

(** ** [char]

    A [char] is a Unicode scalar value, here its code point. *)

Abbreviation char := Z (only parsing).

(** [char::is_whitespace]: the Unicode property White_Space. *)
Definition is_whitespace (c : char) : bool :=
  in_range 9 13 c || (c =? 32) || (c =? 133) || (c =? 160) || (c =? 5760) ||
  in_range 8192 8202 c || (c =? 8232) || (c =? 8233) || (c =? 8239) ||
  (c =? 8287) || (c =? 12288).

(** [char::len_utf8] and the UTF-8 encoding of one character. *)
Definition len_utf8 (c : char) : nat :=
  if c <? 128 then 1 else if c <? 2048 then 2 else if c <? 65536 then 3 else 4.
Definition byte_of (x : Z) : ascii := Ascii.ascii_of_nat (Z.to_nat x).
Definition utf8_char (c : char) : string :=
  if c <? 128 then String (byte_of c) ""
  else if c <? 2048 then
    String (byte_of (192 + c / 64)) (String (byte_of (128 + c mod 64)) "")
  else if c <? 65536 then
    String (byte_of (224 + c / 4096))
      (String (byte_of (128 + (c / 64) mod 64)) (String (byte_of (128 + c mod 64)) ""))
  else
    String (byte_of (240 + c / 262144))
      (String (byte_of (128 + (c / 4096) mod 64))
        (String (byte_of (128 + (c / 64) mod 64)) (String (byte_of (128 + c mod 64)) ""))).
Fixpoint utf8 (l : list char) : string :=
  match l with [] => "" | c :: l' => utf8_char c +:+ utf8 l' end.
(** The characters of an ASCII literal. *)
Fixpoint chars (s : string) : list char :=
  match s with "" => [] | String c s' => byte_val c :: chars s' end%string.

(** [std::str::from_utf8]: the well-formed byte sequences of the Unicode
    standard (no overlong forms, no surrogates, nothing above U+10FFFF). *)
Definition utf8_cont (c : ascii) : bool := in_range 128 191 (byte_val c).
Definition utf8_second3 (a b : ascii) : bool :=
  if byte_val a =? 224 then in_range 160 191 (byte_val b)
  else if byte_val a =? 237 then in_range 128 159 (byte_val b) else utf8_cont b.
Definition utf8_second4 (a b : ascii) : bool :=
  if byte_val a =? 240 then in_range 144 191 (byte_val b)
  else if byte_val a =? 244 then in_range 128 143 (byte_val b) else utf8_cont b.
Fixpoint utf8_valid (s : string) : bool :=
  match s with
  | ""%string => true
  | String a s1 =>
      if byte_val a <? 128 then utf8_valid s1
      else match s1 with
      | ""%string => false
      | String b s2 =>
          if in_range 194 223 (byte_val a) then utf8_cont b && utf8_valid s2
          else match s2 with
          | ""%string => false
          | String c s3 =>
              if in_range 224 239 (byte_val a) then
                utf8_second3 a b && utf8_cont c && utf8_valid s3
              else match s3 with
              | ""%string => false
              | String d s4 =>
                  in_range 240 244 (byte_val a) && utf8_second4 a b && utf8_cont c
                  && utf8_cont d && utf8_valid s4
              end
          end
      end
  end.

(** The characters of a well-formed sequence. *)
Definition scalar2 (a b : ascii) : char := (byte_val a - 192) * 64 + (byte_val b - 128).
Definition scalar3 (a b c : ascii) : char :=
  (byte_val a - 224) * 4096 + (byte_val b - 128) * 64 + (byte_val c - 128).
Definition scalar4 (a b c d : ascii) : char :=
  (byte_val a - 240) * 262144 + (byte_val b - 128) * 4096 + (byte_val c - 128) * 64 + (byte_val d - 128).
Fixpoint utf8_decode (s : string) : option (list char) :=
  match s with
  | ""%string => Some []
  | String a s1 =>
      if byte_val a <? 128 then cons (byte_val a) <$> utf8_decode s1
      else match s1 with
      | ""%string => None
      | String b s2 =>
          if in_range 194 223 (byte_val a) then
            if utf8_cont b then cons (scalar2 a b) <$> utf8_decode s2 else None
          else match s2 with
          | ""%string => None
          | String c s3 =>
              if in_range 224 239 (byte_val a) then
                if utf8_second3 a b && utf8_cont c then cons (scalar3 a b c) <$> utf8_decode s3 else None
              else match s3 with
              | ""%string => None
              | String d s4 =>
                  if in_range 240 244 (byte_val a) && utf8_second4 a b && utf8_cont c && utf8_cont d
                  then cons (scalar4 a b c d) <$> utf8_decode s4 else None
              end
          end
      end
  end.
(** [str::trim] *)
Fixpoint trim_start (l : list char) : list char :=
  match l with [] => [] | c :: l' => if is_whitespace c then trim_start l' else l end.
Definition trim (l : list char) : list char := rev (trim_start (rev (trim_start l))).

(** ** Hexadecimal and decimal rendering *)

Definition hex_digit (x : Z) : ascii :=
  if x <? 10 then byte_of (48 + x) else byte_of (87 + x).
(** [format!("{byte:02x}")] *)
Definition hex_byte (b : ascii) : string :=
  String (hex_digit (byte_val b / 16)) (String (hex_digit (byte_val b mod 16)) "").
Fixpoint hex_bytes (l : list ascii) : string :=
  match l with [] => "" | b :: l' => hex_byte b +:+ hex_bytes l' end.
(** Decimal [Display] of an integer. *)
Definition show (n : Z) : string := pretty.pretty n.

(** ** Lemmas *)

Lemma byte_val_bound c : 0 ≤ byte_val c < 256.
Proof. unfold byte_val. pose proof (Ascii.nat_ascii_bounded c). lia. Qed.

Lemma slen_app a b : slen (a +:+ b) = (slen a + slen b)%nat.
Proof. induction a; simpl; congruence. Qed.

Lemma str_app_assoc (a b c : string) : a +:+ (b +:+ c) = (a +:+ b) +:+ c.
Proof. induction a; simpl; congruence. Qed.

Lemma str_app_nil_r (s : string) : s +:+ "" = s.
Proof. induction s; simpl; congruence. Qed.

Lemma slen_utf8_char c : slen (utf8_char c) = len_utf8 c.
Proof. unfold utf8_char, len_utf8. by repeat case_match. Qed.

Lemma strip_prefix_Some p s t : strip_prefix p s = Some t ↔ s = p +:+ t.
Proof.
  revert s. induction p as [|a p IH]; intros [|b s]; simpl; try naive_solver.
  case_bool_decide; subst; [rewrite IH|]; naive_solver.
Qed.

Lemma parse_digits_bound lo hi neg acc s n :
  lo ≤ acc ≤ hi → parse_digits lo hi neg acc s = Ok n → lo ≤ n ≤ hi.
Proof.
  revert acc. induction s as [|c s IH]; intros acc Ha H; simpl in H; [naive_solver|].
  repeat case_match; try discriminate.
  all: eapply IH; [|done]; rewrite ?Z.ltb_ge in *; lia.
Qed.

Lemma parse_int_bound signed lo hi s n :
  lo ≤ 0 ≤ hi → parse_int signed lo hi s = Ok n → lo ≤ n ≤ hi.
Proof.
  intros Hb H. unfold parse_int in H. repeat case_match; try discriminate;
    eauto using parse_digits_bound.
Qed.

(** ** Byte-wise order of strings ([Ord for str]) *)

Fixpoint str_ltb (a b : string) : bool :=
  match a, b with
  | _, ""%string => false
  | ""%string, _ => true
  | String x a', String y b' =>
      (byte_val x <? byte_val y) || ((byte_val x =? byte_val y) && str_ltb a' b')
  end.
Definition str_leb (a b : string) : bool := negb (str_ltb b a).

Lemma byte_val_inj x y : byte_val x = byte_val y → x = y.
Proof.
  unfold byte_val. intros H%Nat2Z.inj.
  by rewrite <- (Ascii.ascii_nat_embedding x), <- (Ascii.ascii_nat_embedding y), H.
Qed.

Lemma str_ltb_irrefl a : str_ltb a a = false.
Proof. induction a as [|x a IH]; simpl; [done|]. rewrite Z.ltb_irrefl, Z.eqb_refl. done. Qed.

Lemma str_ltb_trans a b c : str_ltb a b = true → str_ltb b c = true → str_ltb a c = true.
Proof.
  revert b c. induction a as [|x a IH]; intros [|y b] [|z c]; simpl; try done.
  rewrite !orb_true_iff, !andb_true_iff, !Z.ltb_lt, !Z.eqb_eq.
  intros [?|[? ?]] [?|[? ?]]; try (left; lia). right. split; [lia|eauto].
Qed.

Lemma str_ltb_total a b : str_ltb a b = false → str_ltb b a = false → a = b.
Proof.
  revert b. induction a as [|x a IH]; intros [|y b]; simpl; try done.
  rewrite !orb_false_iff, !andb_false_iff, !Z.ltb_ge, !Z.eqb_neq.
  intros [? H1] [? H2]. assert (byte_val x = byte_val y) as Hxy by lia.
  apply byte_val_inj in Hxy as ->.
  f_equal. apply IH; [destruct H1 as [?|?]|destruct H2 as [?|?]]; done || lia.
Qed.

(** ** Decimal round trip *)

Lemma pretty_digit x : (x < 10)%N →
  is_ascii_digit (pretty_N_char x) = true ∧ byte_val (pretty_N_char x) - 48 = Z.of_N x.
Proof.
  intros Hx. assert (x = 0 ∨ x = 1 ∨ x = 2 ∨ x = 3 ∨ x = 4 ∨ x = 5 ∨ x = 6 ∨ x = 7 ∨
    x = 8 ∨ x = 9)%N as Hc by lia.
  destruct_or! Hc; subst; done.
Qed.

Lemma parse_digits_pretty hi x s :
  Z.of_N x ≤ hi →
  parse_digits 0 hi false 0 (pretty_N_go x s) = parse_digits 0 hi false (Z.of_N x) s.
Proof.
  revert s. induction (N.lt_wf_0 x) as [x _ IH]; intros s Hx.
  destruct (decide (x = 0)%N) as [->|Hn]; [by rewrite pretty_N_go_0|].
  rewrite pretty_N_go_step by lia.
  assert (x `div` 10 < x)%N by (apply N.div_lt; lia).
  pose proof (N.div_mod x 10 ltac:(lia)) as Hdm.
  pose proof (N.mod_lt x 10 ltac:(lia)) as Hm.
  rewrite IH by lia. destruct (pretty_digit (x `mod` 10)%N) as [Hd Hv]; [done|].
  cbn [parse_digits]. rewrite Hd, Hv.
  replace (Z.of_N (x `div` 10) * 10 + Z.of_N (x `mod` 10)) with (Z.of_N x) by lia.
  rewrite (proj2 (Z.ltb_ge _ _)) by lia. by rewrite (proj2 (Z.ltb_ge _ _)) by lia.
Qed.

Lemma pretty_go_digits x s :
  bytes_all is_ascii_digit s = true →
  bytes_all is_ascii_digit (pretty_N_go x s) = true ∧ (slen s ≤ slen (pretty_N_go x s))%nat.
Proof.
  revert s. induction (N.lt_wf_0 x) as [x _ IH]; intros s Hs.
  destruct (decide (x = 0)%N) as [->|Hn]; [by rewrite pretty_N_go_0|].
  rewrite pretty_N_go_step by lia.
  destruct (IH (x `div` 10)%N) with (s := String (pretty_N_char (x `mod` 10)) s) as [Ha Hb].
  - apply N.div_lt; lia.
  - simpl. rewrite Hs. by destruct (pretty_digit (x `mod` 10)%N) as [-> _]; [apply N.mod_lt|].
  - simpl in Hb. split; [done|lia].
Qed.

(** A non-negative number prints as at least one digit and parses back. *)
Lemma show_digits n :
  0 ≤ n → ∃ c s, show n = String c s ∧ bytes_all is_ascii_digit (show n) = true.
Proof.
  intros Hn. destruct n as [|p|p]; [by do 2 eexists| |lia].
  change (show (Z.pos p)) with (pretty (N.pos p)).
  unfold pretty, pretty_N. rewrite decide_False by done. rewrite pretty_N_go_step by lia.
  destruct (pretty_go_digits (N.pos p `div` 10) (String (pretty_N_char (N.pos p `mod` 10)) ""))
    as [Ha Hb].
  { pose proof (N.mod_lt (N.pos p) 10 ltac:(lia)) as Hm.
    cbn [bytes_all]. by destruct (pretty_digit _ Hm) as [-> _]. }
  destruct (pretty_N_go (N.pos p `div` 10) _) as [|c s] eqn:Hp; [simpl in Hb; lia|].
  by exists c, s.
Qed.

Lemma parse_show hi n : 0 ≤ n ≤ hi → parse_int false 0 hi (show n) = Ok n.
Proof.
  intros Hn. destruct (show_digits n) as (c & s & Hs & Hd); [lia|].
  assert (parse_digits 0 hi false 0 (show n) = Ok n) as Hp.
  { destruct n as [|p|p]; [|clear Hs Hd|lia].
    - change (show 0) with "0"%string. cbn [parse_digits].
      change (is_ascii_digit "0") with true. cbv zeta iota.
      change (0 * 10 + (byte_val "0" - 48)) with 0. rewrite Z.ltb_irrefl.
      by rewrite (proj2 (Z.ltb_ge _ _)) by lia.
    - change (show (Z.pos p)) with (pretty (N.pos p)). unfold pretty, pretty_N.
      rewrite decide_False by done. rewrite parse_digits_pretty by (simpl; lia). done. }
  rewrite Hs in *. cbn [bytes_all] in Hd. apply andb_true_iff in Hd as [Hc _].
  unfold parse_int. case_bool_decide as Hplus; [subst c; discriminate Hc|]. done.
Qed.

(** ** ASCII *)

Lemma bytes_all_app p a b : bytes_all p (a +:+ b) = bytes_all p a && bytes_all p b.
Proof. induction a as [|c a IH]; simpl; [done|]. by rewrite IH, andb_assoc. Qed.

Lemma bytes_all_impl (p q : ascii → bool) s :
  (∀ c, p c = true → q c = true) → bytes_all p s = true → bytes_all q s = true.
Proof.
  intros Hpq. induction s as [|c s IH]; simpl; [done|].
  rewrite !andb_true_iff. intros [? ?]. auto.
Qed.

Lemma ascii_utf8_valid s : str_is_ascii s = true → utf8_valid s = true.
Proof.
  unfold str_is_ascii. induction s as [|c s IH]; cbn [bytes_all utf8_valid]; [done|].
  rewrite andb_true_iff, Z.leb_le. intros [Hc Hs].
  rewrite (proj2 (Z.ltb_lt _ _)) by lia. auto.
Qed.

Lemma digits_ascii s : bytes_all is_ascii_digit s = true → str_is_ascii s = true.
Proof.
  apply bytes_all_impl. intros c. unfold is_ascii_digit, in_range.
  rewrite andb_true_iff, !Z.leb_le. lia.
Qed.

Lemma to_ascii_lowercase_id s :
  bytes_all (λ c, negb (is_ascii_upper c)) s = true → to_ascii_lowercase s = s.
Proof.
  induction s as [|c s IH]; simpl; [done|]. rewrite andb_true_iff, negb_true_iff.
  intros [Hc Hs]. unfold ascii_lower. rewrite Hc. f_equal. auto.
Qed.

Lemma split_once_app sep a b :
  bytes_all (λ c, negb (bool_decide (c = sep))) a = true →
  split_once sep (a +:+ String sep b) = Some (a, b).
Proof.
  induction a as [|c a IH]; simpl.
  - intros _. by rewrite bool_decide_eq_true_2.
  - rewrite andb_true_iff, negb_true_iff. intros [-> Ha]. by rewrite IH.
Qed.

Lemma strip_prefix_app p s : strip_prefix p (p +:+ s) = Some s.
Proof. by apply strip_prefix_Some. Qed.

Lemma substring_all s : String.substring 0 (slen s) s = s.
Proof. induction s as [|c s IH]; simpl; congruence. Qed.

Lemma substring_skip a s n m :
  slen a = n → String.substring n m (a +:+ s) = String.substring 0 m s.
Proof. revert n. induction a as [|c a IH]; intros n <-; simpl; auto. Qed.

Lemma substring_prefix a s : String.substring 0 (slen a) (a +:+ s) = a.
Proof. induction a as [|c a IH]; simpl; [by destruct s|]. by f_equal. Qed.

Lemma slen_substring n m s : (n + m ≤ slen s)%nat → slen (String.substring n m s) = m.
Proof.
  revert n m. induction s as [|c s IH]; intros [|n] [|m] Hl; simpl in *; try lia.
  - rewrite IH; lia.
  - rewrite IH; lia.
  - rewrite IH; lia.
Qed.

Lemma split_once_str_app c sep a b :
  bytes_all (λ x, negb (bool_decide (x = c))) a = true →
  split_once_str (String c sep) (a +:+ String c sep +:+ b) = Some (a, b).
Proof.
  induction a as [|x a IH]; intros Ha.
  - pose proof (strip_prefix_app (String c sep) b) as Hp. cbn [String.append] in *.
    cbn [split_once_str]. by rewrite Hp.
  - cbn [bytes_all] in Ha. apply andb_true_iff in Ha as [Hx Ha]. apply negb_true_iff, bool_decide_eq_false in Hx.
    change (String x a +:+ ?r) with (String x (a +:+ r)).
    cbn [split_once_str strip_prefix]. rewrite bool_decide_eq_false_2 by congruence.
    by rewrite IH.
Qed.
Lemma strip_suffix_app suf s : strip_suffix suf (s +:+ suf) = Some s.
Proof.
  unfold strip_suffix. rewrite slen_app. replace (slen s + slen suf - slen suf)%nat with (slen s) by lia.
  rewrite bool_decide_eq_true_2; [by rewrite substring_prefix|].
  split; [lia|]. rewrite substring_skip by done. apply substring_all.
Qed.

(** ** UTF-8 *)

Lemma byte_of_eq x c : x = byte_val c → byte_of x = c.
Proof. intros ->. unfold byte_of, byte_val. rewrite Nat2Z.id. apply Ascii.ascii_nat_embedding. Qed.

(** Induction on the length. *)
Lemma string_len_ind (P : string → Prop) :
  (∀ s, (∀ s', (slen s' < slen s)%nat → P s') → P s) → ∀ s, P s.
Proof.
  intros IH s. remember (slen s) as n eqn:Hn. revert s Hn.
  induction n as [n IHn] using lt_wf_ind. intros s ->. apply IH. intros s' Hs. by eapply IHn.
Qed.

Ltac utf8_bounds :=
  unfold utf8_second3, utf8_second4, utf8_cont, in_range in *;
  repeat match goal with
  | Hb : (_ && _) = true |- _ => apply andb_true_iff in Hb as [? ?]
  | Hb : (_ <=? _) = true |- _ => apply Z.leb_le in Hb
  | Hb : (_ =? _) = true |- _ => apply Z.eqb_eq in Hb
  | Hb : (_ =? _) = false |- _ => apply Z.eqb_neq in Hb
  | Hb : (_ <? _) = false |- _ => apply Z.ltb_ge in Hb
  | Hb : (_ <? _) = true |- _ => apply Z.ltb_lt in Hb
  | Hb : (if ?b then _ else _) = true |- _ => destruct b eqn:?
  end.
Lemma byte_cons x c s s' : x = byte_val c → s = s' → String (byte_of x) s = String c s'.
Proof. by intros ->%byte_of_eq ->. Qed.
Ltac utf8_byte := apply byte_cons; [Z.to_euclidean_division_equations; lia|].

(** The decoder accepts the well-formed sequences, and inverts the encoding. *)
Lemma utf8_decode_valid s : is_some (utf8_decode s) = utf8_valid s.
Proof.
  induction s as [s IH] using string_len_ind.
  assert (∀ x s', (slen s' < slen s)%nat → is_some (cons x <$> utf8_decode s') = utf8_valid s') as Hc.
  { intros x s' Hs. rewrite <- IH by done. by destruct (utf8_decode s'). }
  destruct s as [|a s1]; [done|]. cbn [utf8_decode utf8_valid].
  destruct (_ <? 128); [apply Hc; simpl; lia|]. destruct s1 as [|b s2]; [done|].
  destruct (in_range 194 223 _); [destruct (utf8_cont b); [apply Hc; simpl; lia|done]|].
  destruct s2 as [|c s3]; [done|].
  destruct (in_range 224 239 _); [destruct (_ && _); [apply Hc; simpl; lia|done]|].
  destruct s3 as [|d s4]; [done|]. destruct (_ && _ && _ && _); [apply Hc; simpl; lia|done].
Qed.

Lemma utf8_char_scalar2 a b :
  in_range 194 223 (byte_val a) = true → utf8_cont b = true →
  utf8_char (scalar2 a b) = String a (String b "").
Proof.
  intros Ha Hb. unfold utf8_char, scalar2. utf8_bounds.
  rewrite (proj2 (Z.ltb_ge _ 128)), (proj2 (Z.ltb_lt _ 2048)) by lia.
  by do 2 utf8_byte.
Qed.
Lemma utf8_char_scalar3 a b c :
  in_range 224 239 (byte_val a) = true → utf8_second3 a b = true → utf8_cont c = true →
  utf8_char (scalar3 a b c) = String a (String b (String c "")).
Proof.
  intros Ha Hb Hc. unfold utf8_char, scalar3. utf8_bounds.
  all: rewrite (proj2 (Z.ltb_ge _ 128)), (proj2 (Z.ltb_ge _ 2048)), (proj2 (Z.ltb_lt _ 65536)) by lia.
  all: by do 3 utf8_byte.
Qed.
Lemma utf8_char_scalar4 a b c d :
  in_range 240 244 (byte_val a) = true → utf8_second4 a b = true → utf8_cont c = true → utf8_cont d = true →
  utf8_char (scalar4 a b c d) = String a (String b (String c (String d ""))).
Proof.
  intros Ha Hb Hc Hd. unfold utf8_char, scalar4. utf8_bounds.
  all: rewrite (proj2 (Z.ltb_ge _ 128)), (proj2 (Z.ltb_ge _ 2048)), (proj2 (Z.ltb_ge _ 65536)) by lia.
  all: by do 4 utf8_byte.
Qed.

Lemma utf8_decode_encode s l : utf8_decode s = Some l → utf8 l = s.
Proof.
  revert l. induction s as [s IH] using string_len_ind. intros l.
  assert (∀ x pre s', (slen s' < slen s)%nat → utf8_char x = pre →
            cons x <$> utf8_decode s' = Some l → utf8 l = pre +:+ s') as Hc.
  { intros x pre s' Hs <- (l' & Hl & ->)%fmap_Some. simpl. f_equal. by apply IH. }
  destruct s as [|a s1]; [by intros [= <-]|]. cbn [utf8_decode].
  destruct (_ <? 128) eqn:Ha.
  { apply (Hc (byte_val a) (String a "")); [simpl; lia|]. unfold utf8_char. rewrite Ha. f_equal. by apply byte_of_eq. }
  destruct s1 as [|b s2]; [done|].
  destruct (in_range 194 223 _) eqn:Ha2.
  { destruct (utf8_cont b) eqn:Hb; [|done].
    apply (Hc _ (String a (String b ""))); [simpl; lia|by apply utf8_char_scalar2]. }
  destruct s2 as [|c s3]; [done|]. destruct (in_range 224 239 _) eqn:Ha3.
  { destruct (_ && _) eqn:Hb; [|done]. apply andb_true_iff in Hb as [Hb Hd].
    apply (Hc _ (String a (String b (String c "")))); [simpl; lia|by apply utf8_char_scalar3]. }
  destruct s3 as [|d s4]; [done|]. destruct (_ && _ && _ && _) eqn:Hb; [|done].
  rewrite !andb_true_iff in Hb. destruct Hb as [[[Ha4 Hb] Hcc] Hd].
  apply (Hc _ (String a (String b (String c (String d ""))))); [simpl; lia|by apply utf8_char_scalar4].
Qed.
