(* ===== verification/Sweep.v ===== *)
(** * Bounded passes over a keyed table

    Two background jobs visit a table in passes of at most 32 rows and remember
    the last key they reached: the sweep of mint quotes
    ([recover_mint_deposits] of [payments/minting.rs]) and the cleanup of deposits
    ([prune_cashu_deposits] of [payments/lightning/cashu.rs]).  Both sort the rows by
    key, find the first key after the cursor with [partition_point] and rotate
    there.  This file has the order of strings as a relation, the order of a pass,
    and the proof that no row starves. *)
From stdpp Require Import sorting.
From S2P Require Import Prelude Text.
#[local] Open Scope string_scope.
#[local] Open Scope list_scope.
#[local] Open Scope Z_scope.

(** ** Sorting by a string key *)

Lemma str_ltb_asym a b : str_ltb a b = true → str_ltb b a = false.
Proof.
  intros Hab. destruct (str_ltb b a) eqn:Hba; [|done].
  pose proof (str_ltb_trans _ _ _ Hab Hba) as Hx. by rewrite str_ltb_irrefl in Hx.
Qed.
Lemma str_leb_antisym a b : str_leb a b = true → str_leb b a = true → a = b.
Proof. unfold str_leb. rewrite !negb_true_iff. intros. by apply str_ltb_total. Qed.

(** [sort_by(|a, b| a.key.cmp(&b.key))] *)
Definition key_le {A} (key : A → string) (a b : A) : Prop := str_leb (key a) (key b) = true.
#[export] Instance key_le_dec {A} (key : A → string) a b : Decision (key_le key a b).
Proof. unfold key_le. apply _. Defined.
Definition sort_by_key {A} (key : A → string) (l : list A) : list A := merge_sort (key_le key) l.

#[global] Instance key_le_total {A} (key : A → string) : Total (key_le key).
Proof.
  intros a b. unfold key_le, str_leb. destruct (str_ltb (key b) (key a)) eqn:E; [right|by left].
  by rewrite (str_ltb_asym _ _ E).
Qed.
#[global] Instance key_le_trans {A} (key : A → string) : Transitive (key_le key).
Proof.
  intros a b c. unfold key_le, str_leb. rewrite !negb_true_iff. intros Hab Hbc.
  destruct (str_ltb (key c) (key a)) eqn:E; [|done]. destruct (str_ltb (key a) (key b)) eqn:E2.
  - by rewrite (str_ltb_trans _ _ _ E E2) in Hbc.
  - by rewrite <- (str_ltb_total _ _ E2 Hab), E in Hbc.
Qed.

(** [Vec<String>::sort] *)
Abbreviation sort_strings := (sort_by_key (λ s : string, s)).
#[global] Instance str_le_antisym : AntiSymm (=) (key_le (λ s : string, s)).
Proof. intros a b. apply str_leb_antisym. Qed.

Lemma sort_by_key_perm {A} (key : A → string) l : sort_by_key key l ≡ₚ l.
Proof. apply merge_sort_Permutation. Qed.
Lemma sort_strings_canonical l l' : l ≡ₚ l' → sort_strings l = sort_strings l'.
Proof.
  intros Hp. apply (StronglySorted_unique (key_le (λ s : string, s)));
    try apply StronglySorted_merge_sort; try apply _.
  by rewrite !sort_by_key_perm.
Qed.

(** ** One pass *)

(** [partition_point] of a slice, with the predicate's prefix counted. *)
Fixpoint partition_point {A} (p : A → bool) (l : list A) : nat :=
  match l with [] => 0 | a :: l' => if p a then S (partition_point p l') else 0 end.

(** The order of a pass: from the row after the cursor, around. *)
Definition rotate_after {A} (key : A → string) (cursor : option string) (l : list A) : list A :=
  let start := match cursor with
               | None => 0%nat
               | Some c => partition_point (λ a, str_leb (key a) c) l
               end in
  rotate start l.

(** Passes over an unchanged table, the [i]-th one getting through [ms !! i] rows
    before it ends (at most 32, fewer when it is cut off): the rows visited, in
    order. *)
Fixpoint passes {A} (key : A → string) (l : list A) (cursor : option string) (ms : list nat) :
    list A :=
  match ms with
  | [] => []
  | m :: ms' =>
      let visited := take m (rotate_after key cursor l) in
      let cursor' := match last visited with Some a => Some (key a) | None => cursor end in
      visited ++ passes key l cursor' ms'
  end.

Section fairness.
Context {A : Type} (key : A → string).

(** Keys are distinct and in order, as those of a sorted table are. *)
Definition ordered (l : list A) : Prop :=
  ∀ i j a b, l !! i = Some a → l !! j = Some b → (i < j)%nat → str_ltb (key a) (key b) = true.

Lemma partition_point_at (l : list A) i a :
  ordered l → l !! i = Some a → partition_point (λ b, str_leb (key b) (key a)) l = S i.
Proof.
  revert i. induction l as [|b l IH]; intros i Ho Hi; [done|]. cbn [partition_point].
  assert (ordered l) as Ho'.
  { intros j k x y Hj Hk Hjk. apply (Ho (S j) (S k) x y Hj Hk). lia. }
  unfold str_leb at 1. destruct i as [|i]; simpl in Hi.
  - injection Hi as ->. rewrite str_ltb_irrefl. simpl. f_equal.
    destruct l as [|c l]; [done|]. cbn [partition_point]. unfold str_leb.
    by rewrite (Ho 0%nat 1%nat a c) by (done || lia).
  - rewrite (str_ltb_asym (key b) (key a)); simpl; [f_equal; by apply IH|].
    apply (Ho 0%nat (S i)); [done|done|lia].
Qed.

Definition start (cursor : option string) (l : list A) : nat :=
  match cursor with None => 0 | Some c => partition_point (λ a, str_leb (key a) c) l end.

Lemma rotate_lookup p j (l : list A) :
  (j < length l)%nat → rotate p l !! j = l !! ((p + j) mod length l)%nat.
Proof.
  intros Hj. rewrite lookup_rotate_r by done.
  unfold rotate_nat_add. by rewrite <- Nat2Z.inj_add, <- Nat2Z.inj_mod, Nat2Z.id.
Qed.

Lemma passes_cover l cursor ms j :
  ordered l → (j < length l)%nat → (j < sum_list ms)%nat →
  ∀ a, l !! ((start cursor l + j) mod length l)%nat = Some a → a ∈ passes key l cursor ms.
Proof.
  intros Ho. revert cursor j. induction ms as [|m ms IH]; intros cursor j Hn Hj a Ha;
    [simpl in Hj; lia|]. cbn [passes]. apply elem_of_app.
  change (rotate_after key cursor l) with (rotate (start cursor l) l).
  destruct (decide (j < m)%nat) as [Hjm|Hjm].
  { left. apply list_elem_of_lookup. exists j. by rewrite lookup_take_lt, rotate_lookup. }
  right. destruct m as [|m].
  { simpl. by apply (IH cursor j). }
  set (v := take (S m) (rotate (start cursor l) l)).
  assert (length v = S m) as Hv by (unfold v; rewrite length_take, length_rotate; lia).
  destruct (l !! ((start cursor l + m) mod length l)%nat) as [b|] eqn:Hb.
  2:{ apply lookup_ge_None in Hb. pose proof (Nat.mod_upper_bound (start cursor l + m) (length l)). lia. }
  assert (last v = Some b) as ->.
  { rewrite last_lookup, Hv. unfold v. rewrite lookup_take_lt, rotate_lookup by lia. done. }
  apply (IH _ (j - S m)%nat); [lia|simpl in Hj; lia|].
  cbn [start]. rewrite (partition_point_at _ _ _ Ho Hb), <- Ha. f_equal.
  replace (S ((start cursor l + m) mod length l) + (j - S m))%nat
    with ((start cursor l + m) mod length l + (j - m))%nat by lia.
  rewrite Nat.Div0.add_mod_idemp_l. f_equal. lia.
Qed.

Lemma passes_visit_all l cursor ms :
  ordered l → (length l ≤ sum_list ms)%nat → ∀ a, a ∈ l → a ∈ passes key l cursor ms.
Proof.
  intros Ho Hm a [i Hi]%list_elem_of_lookup. pose proof (lookup_lt_Some _ _ _ Hi) as Hl.
  set (n := length l) in *. set (p := (start cursor l mod n)%nat).
  assert (p < n)%nat by (apply Nat.mod_upper_bound; lia).
  apply (passes_cover l cursor ms (if decide (p ≤ i)%nat then i - p else i + n - p)%nat Ho);
    [case_decide; lia..|].
  rewrite <- Hi. f_equal. fold n. rewrite <- Nat.Div0.add_mod_idemp_l. fold p.
  case_decide.
  - rewrite Nat.mod_small; lia.
  - replace (p + (i + n - p))%nat with (i + 1 * n)%nat by lia.
    by rewrite Nat.Div0.mod_add, Nat.mod_small.
Qed.

Lemma StronglySorted_lookup (R : A → A → Prop) l i j a b :
  StronglySorted R l → l !! i = Some a → l !! j = Some b → (i < j)%nat → R a b.
Proof.
  intros Hs. revert i j. induction Hs as [|x l _ IH Hx]; intros [|i] [|j] Hi Hj Hij;
    simplify_eq/=; try lia.
  - by eapply Forall_lookup_1 in Hx.
  - eapply IH; [done..|lia].
Qed.

Lemma sorted_ordered l : NoDup (map key l) → ordered (sort_by_key key l).
Proof.
  intros Hd i j a b Ha Hb Hij.
  pose proof (StronglySorted_merge_sort (key_le key) l) as Hs.
  pose proof (StronglySorted_lookup _ _ i j a b Hs Ha Hb Hij) as Hle.
  destruct (str_ltb (key a) (key b)) eqn:E; [done|].
  unfold key_le, str_leb in Hle. rewrite negb_true_iff in Hle.
  pose proof (str_ltb_total _ _ E Hle) as Hk.
  rewrite <- (sort_by_key_perm key l) in Hd.
  assert (i = j); [|lia]. eapply (NoDup_lookup _ i j); [exact Hd|..].
  - rewrite list_lookup_fmap, Ha. reflexivity.
  - rewrite list_lookup_fmap, Hb, Hk. reflexivity.
Qed.

(** No row starves.  However the cursor stands and however few rows each pass
    gets through before it is cut off, once the passes have got through as many
    rows as the table has, each row of the table was visited; so with full passes
    of 32 rows, the passes needed are the number of rows divided by 32, rounded
    up. *)
Theorem no_row_starves rows cursor ms a :
  NoDup (map key rows) → (length rows ≤ sum_list ms)%nat → a ∈ rows →
  a ∈ passes key (sort_by_key key rows) cursor ms.
Proof.
  intros Hd Hm Ha. apply passes_visit_all.
  - by apply sorted_ordered.
  - by rewrite sort_by_key_perm.
  - by rewrite sort_by_key_perm.
Qed.
End fairness.

Lemma no_row_starves_witness :
  "b" ∈ passes (λ s : string, s) (sort_by_key (λ s, s) ["c"; "a"; "b"]) (Some "b") [2; 0; 1]%nat.
Proof.
  refine (no_row_starves _ ["c"; "a"; "b"] (Some "b") [2; 0; 1]%nat "b" _ _ _).
  - apply (bool_decide_unpack _). vm_compute. done.
  - simpl. lia.
  - set_solver.
Defined.
