(* ===== verification/Net.v ===== *)
(** * Network addresses of the standard library

    [std::net::IpAddr] with the operations the program uses: the canonical
    form of IPv4-mapped addresses, the loopback test, and [FromStr], a
    translation of the recursive-descent parser of [core::net::parser].  An
    address is the integer of its bits (32 or 128). *)
From S2P Require Import Prelude Text.
#[local] Open Scope Z_scope.

Inductive IpAddr :=
| V4 (bits : Z)
| V6 (bits : Z).
#[export] Instance IpAddr_eq_dec : EqDecision IpAddr.
Proof. solve_decision. Defined.
#[export] Instance IpAddr_countable : Countable IpAddr.
Proof.
  refine (inj_countable'
    (λ a, match a with V4 x => inl x | V6 x => inr x end)
    (λ s, match s with inl x => V4 x | inr x => V6 x end) _).
  by intros [].
Defined.

Definition ip_wf (a : IpAddr) : Prop :=
  match a with V4 x => 0 ≤ x < 2 ^ 32 | V6 x => 0 ≤ x < 2 ^ 128 end.

(** [IpAddr::to_canonical]: [::ffff:a.b.c.d] becomes [a.b.c.d]. *)
Definition to_canonical (a : IpAddr) : IpAddr :=
  match a with
  | V4 x => V4 x
  | V6 x => if Z.shiftr x 32 =? 65535 then V4 (x mod 2 ^ 32) else V6 x
  end.

(** [IpAddr::is_loopback]: [127.0.0.0/8], and [::1] alone for IPv6. *)
Definition is_loopback (a : IpAddr) : bool :=
  match a with V4 x => Z.shiftr x 24 =? 127 | V6 x => x =? 1 end.

(** ** [IpAddr::from_str] *)

Definition hex_value (c : ascii) : option Z :=
  let x := byte_val c in
  if in_range 48 57 x then Some (x - 48)
  else if in_range 97 102 x then Some (x - 87)
  else if in_range 65 70 x then Some (x - 55)
  else None.
(** [char::to_digit] for radix 10 and 16. *)
Definition to_digit (radix : Z) (c : ascii) : option Z :=
  opt_filter (λ d, d <? radix) (hex_value c).

(** The digit loop of [read_number]: value, number of digits, rest. *)
Fixpoint read_digits (radix acc : Z) (count : nat) (s : string) : Z * nat * string :=
  match s with
  | ""%string => (acc, count, s)
  | String c s' =>
      match to_digit radix c with
      | Some d => read_digits radix (acc * radix + d) (S count) s'
      | None => (acc, count, s)
      end
  end.

Definition read_number (radix : Z) (max_digits : nat) (hi : Z)
    (allow_zero_prefix : bool) (s : string) : option (Z * string) :=
  let leading_zero := starts_with "0" s in
  let '(v, n, rest) := read_digits radix 0 0 s in
  if (max_digits <? n)%nat || (n =? 0)%nat || (hi <? v)
     || (negb allow_zero_prefix && leading_zero && (1 <? n)%nat)
  then None else Some (v, rest).

Definition read_given_char (c : ascii) (s : string) : option string :=
  strip_prefix (String c "") s.

(** [read_separator]: the separator is required before every group but the first. *)
Definition read_separator {A} (sep : ascii) (index : nat)
    (inner : string → option (A * string)) (s : string) : option (A * string) :=
  match index with
  | O => inner s
  | _ => s' ← read_given_char sep s; inner s'
  end.

Definition read_octet (i : nat) (s : string) : option (Z * string) :=
  read_separator "." i (read_number 10 3 255 false) s.

Definition read_ipv4_addr (s : string) : option (Z * string) :=
  '(a, s) ← read_octet 0 s;
  '(b, s) ← read_octet 1 s;
  '(c, s) ← read_octet 2 s;
  '(d, s) ← read_octet 3 s;
  Some (((a * 256 + b) * 256 + c) * 256 + d, s).

(** [read_groups]: groups [i .. i + left - 1] of at most [limit]; returns the
    groups, whether they end in an embedded IPv4 address, and the rest. *)
Fixpoint read_groups (left i : nat) (s : string) : list Z * bool * string :=
  match left with
  | O => ([], false, s)
  | S left' =>
      match (if (0 <? left')%nat then read_separator ":" i read_ipv4_addr s else None) with
      | Some (v4, rest) => ([v4 / 65536; v4 mod 65536], true, rest)
      | None =>
          match read_separator ":" i (read_number 16 4 65535 true) s with
          | Some (g, rest) =>
              let '(gs, v4, rest') := read_groups left' (S i) rest in (g :: gs, v4, rest')
          | None => ([], false, s)
          end
      end
  end.

Definition join_groups (gs : list Z) : Z := foldl (λ acc g, acc * 65536 + g) 0 gs.

Definition read_ipv6_addr (s : string) : option (Z * string) :=
  let '(head, head_ipv4, s) := read_groups 8 0 s in
  if (length head =? 8)%nat then Some (join_groups head, s)
  else if head_ipv4 then None
  else
    s ← read_given_char ":" s;
    s ← read_given_char ":" s;
    let '(tail, _, s) := read_groups (8 - (length head + 1)) 0 s in
    Some (join_groups (head ++ replicate (8 - length head - length tail) 0 ++ tail), s).

Definition parse_ip (s : string) : option IpAddr :=
  let parsed :=
    match read_ipv4_addr s with
    | Some (v, rest) => Some (V4 v, rest)
    | None =>
        match read_ipv6_addr s with
        | Some (v, rest) => Some (V6 v, rest)
        | None => None
        end
    end in
  match parsed with
  | Some (a, ""%string) => Some a
  | _ => None
  end.

Example parse_ip_v4 : parse_ip "192.0.2.17" = Some (V4 3221226001).
Proof. reflexivity. Qed.
Example parse_ip_zero_prefix : parse_ip "192.0.02.17" = None.
Proof. reflexivity. Qed.
Example parse_ip_v6 : parse_ip "2001:db8::1" = Some (V6 42540766411282592856903984951653826561).
Proof. reflexivity. Qed.
Example parse_ip_mapped : parse_ip "::ffff:1.2.3.4" = Some (V6 281470698652420).
Proof. reflexivity. Qed.
Example parse_ip_domain : parse_ip "example.com" = None.
Proof. reflexivity. Qed.
Example parse_ip_double_gap : parse_ip "1::2::3" = None.
Proof. reflexivity. Qed.

Lemma to_canonical_idemp a : to_canonical (to_canonical a) = to_canonical a.
Proof.
  destruct a as [x|x]; unfold to_canonical; [done|].
  destruct (_ =? 65535) eqn:E; [done|by rewrite E].
Qed.
