(* ===== verification/Effects.v ===== *)
(** * Effects: state, errors, storage failures and cancellation

    The asynchronous functions of the program read and write state that outlives
    them, return errors, and can be dropped at any [await] (a timeout, a client
    that disconnects, a restart).  [M S E A] is the monad of such a function:
    it threads the state [S], which keeps its changes when the function fails
    or is dropped, and a script of fates that says what happens at each [await]
    on storage or on a remote party.  Theorems quantify over all scripts. *)
From S2P Require Import Prelude.
#[local] Open Scope Z_scope.

(** What happens at one [await].  A failed or dropped storage operation may or
    may not have reached the disk ([spawn_blocking] runs on after a drop). *)
Inductive Fate :=
| Proceed
| Fails (applied : bool)
| Dropped (applied : bool).

Inductive outcome (E A : Type) : Type :=
| Done (a : A)
| Fail (e : E)
| Gone.
Arguments Done {E A} a.
Arguments Fail {E A} e.
Arguments Gone {E A}.
#[export] Instance outcome_eq_dec `{EqDecision E, EqDecision A} :
  EqDecision (outcome E A).
Proof. solve_decision. Defined.

Definition M (S E A : Type) : Type := S → list Fate → outcome E A * S * list Fate.

#[export] Instance M_ret S E : MRet (M S E) := λ A a s fs, (Done a, s, fs).
#[export] Instance M_bind S E : MBind (M S E) := λ A B k m s fs,
  match m s fs with
  | (Done a, s', fs') => k a s' fs'
  | (Fail e, s', fs') => (Fail e, s', fs')
  | (Gone, s', fs') => (Gone, s', fs')
  end.

Section ops.
Context {S E : Type}.

Definition fail {A} (e : E) : M S E A := λ s fs, (Fail e, s, fs).
Definition get : M S E S := λ s fs, (Done s, s, fs).
Definition modify (f : S → S) : M S E unit := λ s fs, (Done tt, f s, fs).
(** The [?] operator on a plain result. *)
Definition lift {A} (r : result E A) : M S E A := λ s fs,
  match r with Ok a => (Done a, s, fs) | Err e => (Fail e, s, fs) end.
Definition check (b : bool) (e : E) : M S E unit := lift (ensure b e).

Definition next_fate (fs : list Fate) : Fate * list Fate :=
  match fs with [] => (Proceed, []) | f :: fs' => (f, fs') end.

(** A transaction on durable storage. *)
Definition durable {A} (err : E) (f : S → S * A) : M S E A := λ s fs,
  let '(fate, fs') := next_fate fs in
  match fate with
  | Proceed => (Done (f s).2, (f s).1, fs')
  | Fails applied => (Fail err, if applied then (f s).1 else s, fs')
  | Dropped applied => (Gone, if applied then (f s).1 else s, fs')
  end.

(** A call to a remote party that decides the answer itself; a call that is
    dropped, or whose answer is lost, leaves a state [interrupted] describes. *)
Definition remote {A} (err : E) (interrupted : bool → S → S) (f : S → S * result E A) :
    M S E A := λ s fs,
  let '(fate, fs') := next_fate fs in
  match fate with
  | Proceed =>
      match (f s).2 with
      | Ok a => (Done a, (f s).1, fs')
      | Err e => (Fail e, (f s).1, fs')
      end
  | Fails applied => (Fail err, interrupted applied s, fs')
  | Dropped applied => (Gone, interrupted applied s, fs')
  end.

(** [tokio::time::timeout]: the inner future is dropped and the caller sees
    an error. *)
Definition timeout {A} (err : E) (m : M S E A) : M S E A := λ s fs,
  match m s fs with
  | (Gone, s', fs') => (Fail err, s', fs')
  | r => r
  end.

(** Observe the error of [m] instead of propagating it. *)
Definition attempt {F A} (m : M S F A) : M S E (result F A) := λ s fs,
  match m s fs with
  | (Done a, s', fs') => (Done (Ok a), s', fs')
  | (Fail e, s', fs') => (Done (Err e), s', fs')
  | (Gone, s', fs') => (Gone, s', fs')
  end.
(** [map_err] *)
Definition mapping_err {F A} (g : F → E) (m : M S F A) : M S E A := λ s fs,
  match m s fs with
  | (Done a, s', fs') => (Done a, s', fs')
  | (Fail e, s', fs') => (Fail (g e), s', fs')
  | (Gone, s', fs') => (Gone, s', fs')
  end.
End ops.

(** ** Weakest preconditions, over every script *)

Definition wp {S E A} (m : M S E A) (Q : outcome E A → S → Prop) (s : S) : Prop :=
  ∀ fs, Q (m s fs).1.1 (m s fs).1.2.

Section wp.
Context {S E : Type}.
Implicit Types (s : S) (e : E).

Lemma wp_mono {A} (m : M S E A) (Q Q' : outcome E A → S → Prop) s :
  (∀ o s', Q o s' → Q' o s') → wp m Q s → wp m Q' s.
Proof. unfold wp. auto. Qed.

Lemma wp_ret {A} (a : A) Q s : Q (Done a) s → wp (mret a : M S E A) Q s.
Proof. by intros ? fs. Qed.

Lemma wp_fail {A} e Q s : Q (Fail e) s → wp (fail e : M S E A) Q s.
Proof. by intros ? fs. Qed.

Lemma wp_bind {A B} (m : M S E A) (k : A → M S E B) Q s :
  wp m (λ o s', match o with
                | Done a => wp (k a) Q s'
                | Fail e => Q (Fail e) s'
                | Gone => Q Gone s'
                end) s →
  wp (m ≫= k) Q s.
Proof.
  intros H fs. specialize (H fs). unfold mbind, M_bind.
  destruct (m s fs) as [[[a|e|] s'] fs']; simpl in *; auto.
Qed.

Lemma wp_get Q s : Q (Done s) s → wp (get : M S E S) Q s.
Proof. by intros ? fs. Qed.

Lemma wp_modify (f : S → S) Q s : Q (Done tt) (f s) → wp (modify f : M S E unit) Q s.
Proof. by intros ? fs. Qed.

Lemma wp_lift {A} (r : result E A) Q s :
  match r with Ok a => Q (Done a) s | Err e => Q (Fail e) s end → wp (lift r) Q s.
Proof. intros H fs. unfold lift. by destruct r. Qed.

Lemma wp_check (b : bool) e (Q : outcome E unit → S → Prop) s :
  (if b then Q (Done tt) s else Q (Fail e) s) → wp (check b e : M S E unit) Q s.
Proof. intros H fs. unfold check. by destruct b. Qed.

Lemma wp_durable {A} e (f : S → S * A) Q s :
  Q (Done (f s).2) (f s).1 →
  (∀ s', s' = s ∨ s' = (f s).1 → Q (Fail e) s' ∧ Q Gone s') →
  wp (durable e f) Q s.
Proof.
  intros H1 H2 fs. unfold durable. destruct (next_fate fs) as [[|[]|[]] fs']; simpl; auto.
  all: apply H2; auto.
Qed.

Lemma wp_remote {A} e i (f : S → S * result E A) Q s :
  match (f s).2 with Ok a => Q (Done a) (f s).1 | Err e' => Q (Fail e') (f s).1 end →
  (∀ b, Q (Fail e) (i b s) ∧ Q Gone (i b s)) →
  wp (remote e i f) Q s.
Proof.
  intros H1 H2 fs. unfold remote. destruct (next_fate fs) as [[|b|b] fs']; simpl.
  - by destruct (f s) as [s' [a|e']].
  - apply H2.
  - apply H2.
Qed.

Lemma wp_timeout {A} e (m : M S E A) Q s :
  wp m (λ o s', match o with Gone => Q (Fail e) s' | _ => Q o s' end) s →
  wp (timeout e m) Q s.
Proof.
  intros H fs. specialize (H fs). unfold timeout.
  by destruct (m s fs) as [[[a|e'|] s'] fs'].
Qed.

Lemma wp_attempt {F A} (m : M S F A) Q s :
  wp m (λ o s', match o with
                | Done a => Q (Done (Ok a)) s'
                | Fail e => Q (Done (Err e)) s'
                | Gone => Q Gone s'
                end) s →
  wp (attempt m : M S E _) Q s.
Proof.
  intros H fs. specialize (H fs). unfold attempt.
  by destruct (m s fs) as [[[a|e'|] s'] fs'].
Qed.

Lemma wp_mapping_err {F A} (g : F → E) (m : M S F A) Q s :
  wp m (λ o s', match o with
                | Done a => Q (Done a) s'
                | Fail e => Q (Fail (g e)) s'
                | Gone => Q Gone s'
                end) s →
  wp (mapping_err g m) Q s.
Proof.
  intros H fs. specialize (H fs). unfold mapping_err.
  by destruct (m s fs) as [[[a|e'|] s'] fs'].
Qed.
End wp.

(** One step of symbolic execution. *)
Ltac wp_step :=
  lazymatch goal with
  | |- wp (_ ≫= _) _ _ => apply wp_bind
  | |- wp (mret _) _ _ => apply wp_ret
  | |- wp (fail _) _ _ => apply wp_fail
  | |- wp get _ _ => apply wp_get
  | |- wp (modify _) _ _ => apply wp_modify
  | |- wp (lift _) _ _ => apply wp_lift
  | |- wp (check _ _) _ _ => apply wp_check
  | |- wp (durable _ _) _ _ => apply wp_durable
  | |- wp (remote _ _ _) _ _ => apply wp_remote
  | |- wp (timeout _ _) _ _ => apply wp_timeout
  | |- wp (attempt _) _ _ => apply wp_attempt
  | |- wp (mapping_err _ _) _ _ => apply wp_mapping_err
  | |- wp (match ?x with _ => _ end) _ _ => destruct x eqn:?
  | |- context [match ?x with _ => _ end] => destruct x eqn:?
  end; cbn beta iota.

(** ** Invariants

    [inv P m]: every outcome of [m] from a state in [P] is again in [P]. *)

Definition inv {S E A} (P : S → Prop) (m : M S E A) : Prop :=
  ∀ s, P s → wp m (λ _ s', P s') s.

Section inv.
Context {S : Type} (P : S → Prop).

Lemma inv_ret {E A} (a : A) : inv (E := E) P (mret a).
Proof. intros s Hs. by apply wp_ret. Qed.
Lemma inv_fail {E A} (e : E) : inv (A := A) P (fail e).
Proof. intros s Hs. by apply wp_fail. Qed.
Lemma inv_get {E} : inv (E := E) P get.
Proof. intros s Hs. by apply wp_get. Qed.
Lemma inv_lift {E A} (r : result E A) : inv P (lift r).
Proof. intros s Hs. apply wp_lift. by destruct r. Qed.
Lemma inv_check {E} (b : bool) (e : E) : inv P (check b e).
Proof. intros s Hs. apply wp_check. by destruct b. Qed.
Lemma inv_modify {E} (f : S → S) : (∀ s, P s → P (f s)) → inv (E := E) P (modify f).
Proof. intros Hf s Hs. apply wp_modify. auto. Qed.
Lemma inv_durable {E A} (e : E) (f : S → S * A) : (∀ s, P s → P (f s).1) → inv P (durable e f).
Proof. intros Hf s Hs. apply wp_durable; [auto|]. intros s' [->| ->]; auto. Qed.
Lemma inv_bind {E A B} (m : M S E A) (k : A → M S E B) :
  inv P m → (∀ a, inv P (k a)) → inv P (m ≫= k).
Proof.
  intros Hm Hk s Hs. apply wp_bind. eapply wp_mono; [|by apply Hm].
  intros [a|e|] s' Hs'; auto. by apply Hk.
Qed.
Lemma inv_timeout {E A} (e : E) (m : M S E A) : inv P m → inv P (timeout e m).
Proof.
  intros Hm s Hs. apply wp_timeout. eapply wp_mono; [|by apply Hm]. by intros [].
Qed.
Lemma inv_attempt {E F A} (m : M S F A) : inv P m → inv P (attempt (E := E) m).
Proof.
  intros Hm s Hs. apply wp_attempt. eapply wp_mono; [|by apply Hm]. by intros [].
Qed.
Lemma inv_mapping_err {E F A} (g : F → E) (m : M S F A) : inv P m → inv P (mapping_err g m).
Proof.
  intros Hm s Hs. apply wp_mapping_err. eapply wp_mono; [|by apply Hm]. by intros [].
Qed.
End inv.

(** Go through a program; goals about atomic steps remain. *)
Ltac inv_step :=
  lazymatch goal with
  | |- inv _ (_ ≫= _) => apply inv_bind; [|intros ?]
  | |- inv _ (mret _) => apply inv_ret
  | |- inv _ (fail _) => apply inv_fail
  | |- inv _ get => apply inv_get
  | |- inv _ (lift _) => apply inv_lift
  | |- inv _ (check _ _) => apply inv_check
  | |- inv _ (timeout _ _) => apply inv_timeout
  | |- inv _ (attempt _) => apply inv_attempt
  | |- inv _ (mapping_err _ _) => apply inv_mapping_err
  | |- inv _ (match ?x with _ => _ end) => destruct x
  end; cbn beta iota.
