(* ===== verification/Conc.v ===== *)
(** * Concurrent handlers

    A handler of the program is a task: it reads the clock, runs transactions on
    storage it shares with the other tasks, calls remote parties, and finishes
    with a result; between two of these the scheduler runs other tasks, and the
    task can be dropped (a client that goes away, a timeout, a restart).

    [prog] is the type of such handlers, [run] the scheduler: the theorems about
    it quantify over every schedule, clock and remote answer.  [safe] and
    [run_inv] are the proof rule: an invariant of the shared state that every
    step of every handler preserves holds after every schedule. *)
From S2P Require Import Prelude Effects.
#[local] Open Scope Z_scope.

Section prog.
(** [St] is the shared state, [Cmd X] a remote call answered by an [X]. *)
Context {St : Type} {Cmd : Type → Type}.

Inductive prog (R : Type) : Type :=
| Ret (r : R)
| Now (k : Z → prog R)
(** An update of state in memory, under its lock. *)
| Mem {B : Type} (body : St → St * B) (k : B → prog R)
(** A transaction at the time it runs; the task sees [None] when it fails. *)
| Tx {B : Type} (body : Z → St → St * B) (k : option B → prog R)
| Call {X : Type} (c : Cmd X) (k : X → prog R).
#[global] Arguments Ret {R} r.
#[global] Arguments Now {R} k.
#[global] Arguments Mem {R B} body k.
#[global] Arguments Tx {R B} body k.
#[global] Arguments Call {R X} c k.

Fixpoint prog_bind {A B} (p : prog A) (f : A → prog B) : prog B :=
  match p with
  | Ret a => f a
  | Now k => Now (λ t, prog_bind (k t) f)
  | Mem body k => Mem body (λ b, prog_bind (k b) f)
  | Tx body k => Tx body (λ b, prog_bind (k b) f)
  | Call c k => Call c (λ x, prog_bind (k x) f)
  end.
#[global] Instance prog_mret : MRet prog := λ A a, Ret a.
#[global] Instance prog_mbind : MBind prog := λ A B f p, prog_bind p f.
End prog.
#[global] Arguments prog : clear implicits.

(** Handlers with errors: [?] is [let?]. *)
Definition bind_ok {St Cmd E A B} (p : prog St Cmd (result E A)) (f : A → prog St Cmd (result E B)) :
    prog St Cmd (result E B) :=
  prog_bind p (λ r, match r with Ok a => f a | Err e => Ret (Err e) end).
Notation "'let?' x := p 'in' q" := (bind_ok p (λ x, q))
  (at level 10, x pattern, p at level 100, q at level 200).
Definition tx {St Cmd E B} (err : E) (body : Z → St → St * result E B) : prog St Cmd (result E B) :=
  Tx body (λ o, Ret (match o with Some r => r | None => Err err end)).
Definition mem {St Cmd B} (body : St → St * B) : prog St Cmd B := Mem body Ret.
Definition call {St Cmd X} (c : Cmd X) : prog St Cmd X := Call c Ret.
Definition now {St Cmd E} : prog St Cmd (result E Z) := Now (λ t, Ret (Ok t)).
Definition on_err {St Cmd E F A} (f : E → F) (p : prog St Cmd (result E A)) :
    prog St Cmd (result F A) := prog_bind p (λ r, Ret (map_err f r)).

(** [tokio::time::timeout] around part of a task: at any await the deadline may
    have passed, which drops the part and lets the task go on with [err]. *)
Fixpoint with_timeout {St : Type} {Cmd : Type → Type} {A : Type} (elapsed : Cmd bool) (err : A) (p : prog St Cmd A) : prog St Cmd A :=
  let guard q := Call elapsed (λ b : bool, if b then Ret err else q) in
  match p with
  | Ret a => guard (Ret a)
  | Now k => Now (λ t, with_timeout elapsed err (k t))
  | Mem body k => Mem body (λ b, with_timeout elapsed err (k b))
  | Tx body k => guard (Tx body (λ b, with_timeout elapsed err (k b)))
  | Call c k => guard (Call c (λ x, with_timeout elapsed err (k x)))
  end.

(** A task that runs by itself, without failures. *)
Fixpoint exec {St : Type} {Cmd : Type → Type} {R : Type} (env : ∀ X, Cmd X → X) (t : Z) (p : prog St Cmd R) (st : St) : St * R :=
  match p with
  | Ret r => (st, r)
  | Now k => exec env t (k t) st
  | Mem body k => let '(st, b) := body st in exec env t (k b) st
  | Tx body k => let '(st, b) := body t st in exec env t (k (Some b)) st
  | Call c k => exec env t (k (env _ c)) st
  end.
Lemma exec_bind {St : Type} {Cmd : Type → Type} {A B : Type} (env : ∀ X, Cmd X → X) t (p : prog St Cmd A) (f : A → prog St Cmd B) st :
  exec env t (prog_bind p f) st = let '(st, a) := exec env t p st in exec env t (f a) st.
Proof.
  revert st. induction p as [a|k IH|C body k IH|C body k IH|X c k IH]; intros st; simpl; auto.
  - by destruct (body st).
  - by destruct (body t st).
Qed.
(** A step that succeeds, and a run that did. *)
Lemma exec_ok {St : Type} {Cmd : Type → Type} {E A B : Type} (env : ∀ X, Cmd X → X) t (p : prog St Cmd (result E A))
    (f : A → prog St Cmd (result E B)) st st' a :
  exec env t p st = (st', Ok a) → exec env t (bind_ok p f) st = exec env t (f a) st'.
Proof. intros Hp. unfold bind_ok. by rewrite exec_bind, Hp. Qed.
Lemma exec_ok_inv {St : Type} {Cmd : Type → Type} {E A B : Type} (env : ∀ X, Cmd X → X) t (p : prog St Cmd (result E A))
    (f : A → prog St Cmd (result E B)) st st'' b :
  exec env t (bind_ok p f) st = (st'', Ok b) →
  ∃ st' a, exec env t p st = (st', Ok a) ∧ exec env t (f a) st' = (st'', Ok b).
Proof. unfold bind_ok. rewrite exec_bind. destruct (exec env t p st) as [st' [a|e]]; [eauto|done]. Qed.

(** ** Invariants of tasks

    [I] relates the shared state, the clock and the log of finished requests;
    [answers] is what the remote parties promise about an answer. *)

Section safe.
Context {St : Type} {Cmd : Type → Type} {Req R : Type}.
Context (I : St → Z → list (Req * R) → Prop) (answers : ∀ X, Cmd X → X → Prop).

(** [p] keeps [I], whatever the other tasks do in between. *)
Fixpoint safe (r : Req) (p : prog St Cmd R) : Prop :=
  match p with
  | Ret a => ∀ st t l, I st t l → I st t (l ++ [(r, a)])
  | Now k => ∀ t, safe r (k t)
  | Mem body k =>
      ∀ st t l, I st t l →
        let '(st', b) := body st in
        I st' t l ∧
        match k b with
        | Ret a => I st' t (l ++ [(r, a)])
        | _ => safe r (k b)
        end
  | Tx body k =>
      safe r (k None) ∧
      ∀ st t l, I st t l →
        let '(st', b) := body t st in
        I st' t l ∧
        match k (Some b) with
        | Ret a => I st' t (l ++ [(r, a)])
        | _ => safe r (k (Some b))
        end
  | Call c k => ∀ x, answers _ c x → safe r (k x)
  end.

(** The same for a part of a task that goes on with a result [a] such that
    [Φ a]; [Φ] is a fact, so other tasks cannot invalidate it. *)
Fixpoint keeps {A} (p : prog St Cmd A) (Φ : A → Prop) : Prop :=
  match p with
  | Ret a => Φ a
  | Now k => ∀ t, keeps (k t) Φ
  | Mem body k =>
      ∀ st t l, I st t l → let '(st', b) := body st in I st' t l ∧ keeps (k b) Φ
  | Tx body k =>
      keeps (k None) Φ ∧
      ∀ st t l, I st t l → let '(st', b) := body t st in I st' t l ∧ keeps (k (Some b)) Φ
  | Call c k => ∀ x, answers _ c x → keeps (k x) Φ
  end.

Lemma keeps_mono {A} (p : prog St Cmd A) (Φ Ψ : A → Prop) :
  (∀ a, Φ a → Ψ a) → keeps p Φ → keeps p Ψ.
Proof.
  intros HΦ. induction p as [a|k IH|B body k IH|B body k IH|X c k IH]; simpl; auto.
  - intros Hp st t l HI. specialize (Hp st t l HI). destruct (body st). naive_solver.
  - intros [Hn Hp]. split; [by apply IH|]. intros st t l HI. specialize (Hp st t l HI).
    destruct (body t st). naive_solver.
Qed.

Lemma keeps_bind {A B} (p : prog St Cmd A) (f : A → prog St Cmd B) Φ :
  keeps p (λ a, keeps (f a) Φ) → keeps (prog_bind p f) Φ.
Proof.
  induction p as [a|k IH|C body k IH|C body k IH|X c k IH]; simpl; auto.
  - intros Hp st t l HI. specialize (Hp st t l HI). destruct (body st). naive_solver.
  - intros [Hn Hp]. split; [by apply IH|]. intros st t l HI. specialize (Hp st t l HI).
    destruct (body t st). naive_solver.
Qed.

Lemma safe_Ret r (p : prog St Cmd R) st t l :
  safe r p → I st t l →
  match p with Ret a => I st t (l ++ [(r, a)]) | _ => safe r p end.
Proof. destruct p; simpl; auto. Qed.

Lemma safe_bind {A} r (p : prog St Cmd A) (f : A → prog St Cmd R) :
  keeps p (λ a, safe r (f a)) → safe r (prog_bind p f).
Proof.
  induction p as [a|k IH|C body k IH|C body k IH|X c k IH]; simpl; auto.
  - intros Hp st t l HI. specialize (Hp st t l HI). destruct (body st) as [st' b].
    destruct Hp as [HI' Hk]. split; [done|]. apply safe_Ret; auto.
  - intros [Hn Hp]. split; [by apply IH|]. intros st t l HI. specialize (Hp st t l HI).
    destruct (body t st) as [st' b]. destruct Hp as [HI' Hk]. split; [done|].
    apply safe_Ret; auto.
Qed.

Lemma safe_assoc {A B} r (p : prog St Cmd A) (f : A → prog St Cmd B) (g : B → prog St Cmd R) :
  safe r (prog_bind p (λ a, prog_bind (f a) g)) → safe r (prog_bind (prog_bind p f) g).
Proof.
  assert (∀ (q : prog St Cmd A) st t l,
    (safe r (prog_bind q (λ a, prog_bind (f a) g)) → safe r (prog_bind (prog_bind q f) g)) →
    match prog_bind q (λ a, prog_bind (f a) g) with
    | Ret a => I st t (l ++ [(r, a)]) | _ => safe r (prog_bind q (λ a, prog_bind (f a) g)) end →
    match prog_bind (prog_bind q f) g with
    | Ret a => I st t (l ++ [(r, a)]) | _ => safe r (prog_bind (prog_bind q f) g) end) as Hmatch.
  { intros [] st t l IH; auto. }
  induction p as [a|k IH|C body k IH|C body k IH|X c k IH]; simpl; auto.
  - intros Hp st t l HI. specialize (Hp st t l HI). destruct (body st) as [st' b].
    destruct Hp as [HI' Hk]. split; [done|]. by apply Hmatch; [apply IH|].
  - intros [Hn Hp]. split; [by apply IH|]. intros st t l HI. specialize (Hp st t l HI).
    destruct (body t st) as [st' b]. destruct Hp as [HI' Hk]. split; [done|]. by apply Hmatch; [apply IH|].
Qed.

Lemma keeps_bind_ok {E A B} (p : prog St Cmd (result E A)) (f : A → prog St Cmd (result E B)) Φ :
  keeps p (λ r, match r with Ok a => keeps (f a) Φ | Err e => Φ (Err e) end) →
  keeps (bind_ok p f) Φ.
Proof.
  intros Hp. apply keeps_bind. eapply keeps_mono; [|exact Hp]. by intros [a|e].
Qed.

(** A task that goes on with [f] or fails, and then ends with [g]. *)
Lemma safe_bind_ok {E A B} r (p : prog St Cmd (result E A)) (f : A → prog St Cmd (result E B))
    (g : result E B → prog St Cmd R) :
  keeps p (λ x, match x with Ok a => safe r (prog_bind (f a) g) | Err e => safe r (g (Err e)) end) →
  safe r (prog_bind (bind_ok p f) g).
Proof.
  intros Hp. apply safe_assoc, safe_bind. eapply keeps_mono; [|exact Hp]. by intros [a|e].
Qed.

Lemma keeps_on_err {E F A} (g : E → F) (p : prog St Cmd (result E A)) Φ :
  keeps p (λ r, Φ (map_err g r)) → keeps (on_err g p) Φ.
Proof. intros Hp. unfold on_err. by apply keeps_bind. Qed.

Lemma keeps_tx {E B} (err : E) (body : Z → St → St * result E B) Φ :
  Φ (Err err) →
  (∀ st t l, I st t l → I (body t st).1 t l ∧ Φ (body t st).2) →
  keeps (tx err body) Φ.
Proof.
  intros He Hb. split; [done|]. intros st t l HI. specialize (Hb st t l HI).
  by destruct (body t st).
Qed.

Lemma keeps_ret {A} (a : A) (Φ : A → Prop) : Φ a → keeps (Ret a) Φ.
Proof. done. Qed.

Lemma keeps_call {X} (c : Cmd X) (Φ : X → Prop) :
  (∀ x, answers _ c x → Φ x) → keeps (call c) Φ.
Proof. done. Qed.

Lemma keeps_Call {X A} (c : Cmd X) (k : X → prog St Cmd A) (Φ : A → Prop) :
  (∀ x, answers _ c x → keeps (k x) Φ) → keeps (Call c k) Φ.
Proof. done. Qed.

Lemma keeps_now {E} (Φ : result E Z → Prop) : (∀ t, Φ (Ok t)) → keeps now Φ.
Proof. done. Qed.

Lemma keeps_Mem {A B} (body : St → St * B) (k : B → prog St Cmd A) (Φ : A → Prop) :
  (∀ st t l, I st t l → I (body st).1 t l ∧ keeps (k (body st).2) Φ) → keeps (Mem body k) Φ.
Proof. intros Hb st t l HI. specialize (Hb st t l HI). by destruct (body st). Qed.

Lemma keeps_mem {B} (body : St → St * B) (Φ : B → Prop) :
  (∀ st t l, I st t l → I (body st).1 t l ∧ Φ (body st).2) → keeps (mem body) Φ.
Proof. intros Hb st t l HI. specialize (Hb st t l HI). by destruct (body st). Qed.

Lemma keeps_timeout {A} (elapsed : Cmd bool) err (p : prog St Cmd A) (Φ : A → Prop) :
  Φ err → keeps p Φ → keeps (with_timeout elapsed err p) Φ.
Proof.
  intros He. induction p as [a|k IH|C body k IH|C body k IH|X c k IH]; simpl.
  - intros Ha [] _; done.
  - auto.
  - intros Hp st t l HI. specialize (Hp st t l HI). destruct (body st). naive_solver.
  - intros [Hn Hp] [] _; [done|]. simpl. split; [by apply IH|].
    intros st t l HI. specialize (Hp st t l HI). destruct (body t st). naive_solver.
  - intros Hp [] _; [done|]. simpl. auto.
Qed.
End safe.

(** ** The scheduler *)

Section system.
Context {St : Type} {Cmd : Type → Type} {Req R : Type}.
(** The handler of a request, what a restart keeps of the shared state, and
    the answers of the remote parties to the [n]-th call. *)
Context (handler : Req → prog St Cmd R) (restart : St → St) (env : nat → ∀ X, Cmd X → X).

Record sys := {
  store : St;
  clock : Z;
  calls : nat;
  tasks : list (option (Req * prog St Cmd R));
  log : list (Req * R)
}.

Inductive action :=
| Spawn (r : Req)
| Step (task : nat) (fate : Fate)
| Tick (seconds : Z)
| Restart.

(** A task that has nothing left to wait for is finished. *)
Definition resume (s : sys) (st : St) (n : nat) (i : nat) (r : Req) (p : prog St Cmd R) : sys :=
  match p with
  | Ret a => {| store := st; clock := clock s; calls := n; tasks := <[i := None]> (tasks s);
                log := log s ++ [(r, a)] |}
  | _ => {| store := st; clock := clock s; calls := n; tasks := <[i := Some (r, p)]> (tasks s);
            log := log s |}
  end.
Definition forget (s : sys) (st : St) (i : nat) : sys :=
  {| store := st; clock := clock s; calls := calls s; tasks := <[i := None]> (tasks s);
     log := log s |}.

Definition step_task (s : sys) (i : nat) (r : Req) (p : prog St Cmd R) (fate : Fate) : sys :=
  match p, fate with
  | Ret a, _ => resume s (store s) (calls s) i r p
  | Mem body k, (Proceed | Fails _) =>
      let '(st, b) := body (store s) in resume s st (calls s) i r (k b)
  | Tx body k, Proceed =>
      let '(st, b) := body (clock s) (store s) in resume s st (calls s) i r (k (Some b))
  | Tx body k, Fails applied =>
      let '(st, _) := body (clock s) (store s) in
      resume s (if applied then st else store s) (calls s) i r (k None)
  | Tx body k, Dropped applied =>
      let '(st, _) := body (clock s) (store s) in
      forget s (if applied then st else store s) i
  | _, Dropped _ => forget s (store s) i
  | Now k, _ => resume s (store s) (calls s) i r (k (clock s))
  | Call c k, _ => resume s (store s) (S (calls s)) i r (k (env (calls s) _ c))
  end.

Definition step (s : sys) (a : action) : sys :=
  match a with
  | Spawn r =>
      resume {| store := store s; clock := clock s; calls := calls s;
                tasks := tasks s ++ [None]; log := log s |}
        (store s) (calls s) (length (tasks s)) r (handler r)
  | Step i fate =>
      match tasks s !! i with
      | Some (Some (r, p)) => step_task s i r p fate
      | _ => s
      end
  | Tick d => {| store := store s; clock := clock s + Z.max 0 d; calls := calls s;
                 tasks := tasks s; log := log s |}
  | Restart => {| store := restart (store s); clock := clock s; calls := calls s;
                  tasks := []; log := log s |}
  end.

Definition run (s : sys) (l : list action) : sys := fold_left step l s.
Definition start (st : St) (t : Z) : sys :=
  {| store := st; clock := t; calls := 0; tasks := []; log := [] |}.

(** What a step does to the log and to the tasks: task [i] finishes, and its request is
    logged with its result, or it goes on or is gone, and nothing is logged. *)
Definition moved (i : nat) (r : Req) (s s' : sys) : Prop :=
  (log s' = log s ∨ ∃ a, log s' = log s ++ [(r, a)]) ∧
  ∃ x, tasks s' = <[i := x]> (tasks s) ∧ ∀ r' p, x = Some (r', p) → r' = r.
Lemma resume_moved s st n i r p : moved i r s (resume s st n i r p).
Proof.
  unfold resume. destruct p; (split; [eauto|]); eexists; (split; [reflexivity|]); intros ?? [=]; by subst.
Qed.
Lemma forget_moved s st i r : moved i r s (forget s st i).
Proof. split; [eauto|]. exists None. by split. Qed.
Lemma step_task_moved s i r p fate : moved i r s (step_task s i r p fate).
Proof.
  destruct p, fate; cbn [step_task]; repeat case_match; first [apply resume_moved|apply forget_moved].
Qed.

(** ** Invariants of the system *)

Section inv.
Context (I : St → Z → list (Req * R) → Prop) (answers : ∀ X, Cmd X → X → Prop).
Abbreviation safe := (safe I answers).

(** The requests considered, and the hypotheses on handlers and world. *)
Context (req_ok : Req → Prop).
Hypothesis handler_safe : ∀ r, req_ok r → safe r (handler r).
Hypothesis restart_inv : ∀ st t l, I st t l → I (restart st) t l.
Hypothesis tick_inv : ∀ st t t' l, t ≤ t' → I st t l → I st t' l.
Hypothesis env_answers : ∀ n X c, answers X c (env n X c).

Definition sys_inv (s : sys) : Prop :=
  I (store s) (clock s) (log s) ∧
  ∀ i r p, tasks s !! i = Some (Some (r, p)) → safe r p.

Lemma tasks_insert_safe (ts : list (option (Req * prog St Cmd R))) i x :
  (∀ j r p, ts !! j = Some (Some (r, p)) → safe r p) →
  (∀ r p, x = Some (r, p) → safe r p) →
  ∀ j r p, <[i := x]> ts !! j = Some (Some (r, p)) → safe r p.
Proof.
  intros Hts Hx j r p Hj. apply list_lookup_insert_Some in Hj as [(_ & Hj & _)|(_ & Hj)]; eauto.
Qed.

Lemma resume_inv s st n i r p :
  (∀ j r p, tasks s !! j = Some (Some (r, p)) → safe r p) →
  I st (clock s) (log s) →
  match p with Ret a => I st (clock s) (log s ++ [(r, a)]) | _ => safe r p end →
  sys_inv (resume s st n i r p).
Proof.
  intros Hts HI Hp. unfold resume.
  destruct p; (split; simpl; [done|]);
    apply tasks_insert_safe; auto; intros ?? [=]; by subst.
Qed.

Lemma step_task_inv s i r p fate :
  sys_inv s → safe r p → sys_inv (step_task s i r p fate).
Proof.
  intros [HI Hts] Hp.
  assert (∀ st, I st (clock s) (log s) → sys_inv (forget s st i)) as Hforget.
  { intros st Hst. split; simpl; [done|]. apply tasks_insert_safe; auto. done. }
  destruct p as [a|k|B body k|B body k|X c k]; simpl in Hp.
  - apply resume_inv; auto.
  - destruct fate; simpl; auto; (apply resume_inv; [done|done|apply safe_Ret; by auto]).
  - specialize (Hp _ _ _ HI). simpl.
    destruct (body (store s)) as [st' b]. destruct Hp as [Hst Hk].
    destruct fate; auto; by apply resume_inv.
  - destruct Hp as [Hn Hb]. specialize (Hb _ _ _ HI). simpl.
    destruct (body (clock s) (store s)) as [st' b]. destruct Hb as [Hst Hk].
    destruct fate as [|[]|[]]; auto; (apply resume_inv; [done|done|]);
      try done; by apply safe_Ret.
  - destruct fate; simpl; auto; (apply resume_inv; [done|done|apply safe_Ret; by auto]).
Qed.

Definition action_ok (a : action) : Prop :=
  match a with Spawn r => req_ok r | _ => True end.

Lemma step_inv s a : action_ok a → sys_inv s → sys_inv (step s a).
Proof.
  intros Ha [HI Hts]. destruct a as [r|i fate|d|]; simpl.
  - apply resume_inv; simpl; [|done|apply safe_Ret; by auto]. intros j r' p Hj.
    apply lookup_app_Some in Hj as [?|[_ Hj]]; [eauto|].
    apply list_lookup_singleton_Some in Hj as [_ Hj]. done.
  - destruct (tasks s !! i) as [[[r p]|]|] eqn:Hi; [|by split..].
    apply step_task_inv; [by split|eauto].
  - split; simpl; auto. eapply tick_inv; [|done]. lia.
  - split; simpl; auto. intros i r p Hi. done.
Qed.

Lemma run_inv s l : Forall action_ok l → sys_inv s → sys_inv (run s l).
Proof. intros Hl. revert s. induction Hl; simpl; auto using step_inv. Qed.

Lemma start_inv st t : I st t [] → sys_inv (start st t).
Proof. intros HI. split; [done|]. intros i r p Hi. done. Qed.
End inv.
End system.
