(* ===== verification/Extern.v ===== *)
(** * Third-party code the program calls

    The crates used by the program are parameters of the model: a class per
    crate with the functions the program calls, and, where a theorem needs more
    than the existence of the function, a class of laws that states documented
    behaviour.  The types are what the calls return. *)
From S2P Require Import Prelude Text.
#[local] Open Scope Z_scope.

(** ** [url] *)

Record Url := {
  url_scheme : string;
  url_host_str : option string;
  url_username : string;
  url_password : option string;
  url_port : option Z;                    (** explicit, non-default port *)
  url_port_or_known_default : option Z;
  url_path : string;
  url_query : option string;
  url_fragment : option string;
  url_origin : string;                    (** [origin().ascii_serialization()] *)
  url_as_str : string
}.
Class UrlLib := url_parse : string → result anyhow Url.

(** ** [openssl] digests *)

Class Sha256 := sha256 : string → string.
Class HmacSha256 := hmac_sha256 : string → string → string.
(** A SHA-256 digest has 32 bytes. *)
Class Sha256Laws `{Sha256} := sha256_len : ∀ s, slen (sha256 s) = 32%nat.

(** ** [http] *)

Class HttpLib := {
  (** [HeaderValue::to_str] *)
  header_to_str : string → option string;
  (** [HeaderName::from_bytes(..).is_ok()] *)
  header_name_ok : string → bool;
  (** [Authority::from_str], with [as_str] and [host] of the result *)
  authority_parse : string → option (string * string)
}.
(** A value of visible ASCII characters (and tabs) is a string. *)
Definition visible (c : ascii) : bool := (byte_val c =? 9) || in_range 32 126 (byte_val c).
Class HttpVisible `{HttpLib} :=
  header_to_str_visible : ∀ v, bytes_all visible v = true → header_to_str v = Some v.
Class HttpLaws `{HttpLib} :=
  header_to_str_id : ∀ v s, header_to_str v = Some s → s = v.

(** ** [serde_json]: the values the program serializes itself *)

Class JsonLib := {
  json_strings : list string → string;
  (** the request binding object: domain, method, url, body hash, headers *)
  json_binding : string → string → string → string → list (string * string) → string
}.
Class JsonLaws `{JsonLib} := {
  json_strings_inj : ∀ a b, json_strings a = json_strings b → a = b;
  json_binding_inj : ∀ d m u b h d' m' u' b' h',
    json_binding d m u b h = json_binding d' m' u' b' h' →
    d = d' ∧ m = m' ∧ u = u' ∧ b = b' ∧ h = h'
}.

(** ** [lightning-invoice] *)

Inductive Currency := Bitcoin | BitcoinTestnet | OtherCurrency.
#[export] Instance Currency_eq_dec : EqDecision Currency.
Proof. solve_decision. Defined.

Inductive InvoiceDescription := DescriptionHash (bytes : string) | DescriptionDirect.

(** What the program reads of a parsed [Bolt11Invoice]. *)
Record Invoice := {
  inv_signature_ok : bool;
  inv_payee : string;               (** [recover_payee_pub_key().to_string()] *)
  inv_currency : Currency;
  inv_amount_msat : option Z;
  inv_description : InvoiceDescription;
  inv_created : Z;                  (** [duration_since_epoch().as_secs()] *)
  inv_expiry : Z;                   (** [expiry_time().as_secs()] *)
  inv_payment_hash : string         (** 32 bytes *)
}.
Class InvoiceLib := parse_invoice : string → option Invoice.
(** The widths of the fields. *)
Class InvoiceLaws `{InvoiceLib} := {
  inv_payment_hash_len : ∀ e inv, parse_invoice e = Some inv → slen (inv_payment_hash inv) = 32%nat;
  inv_created_u64 : ∀ e inv, parse_invoice e = Some inv → u64 (inv_created inv);
  inv_expiry_u64 : ∀ e inv, parse_invoice e = Some inv → u64 (inv_expiry inv)
}.

(** ** [base64] *)

Class Base64 := {
  std_encode : string → string;               (** [STANDARD] *)
  std_decode : string → result anyhow string;
  url_safe_encode : string → string;          (** [URL_SAFE] *)
  url_safe_decode : string → result anyhow string
}.
(** The alphabet of [STANDARD], with the padding. *)
Definition base64_char (c : ascii) : bool :=
  is_ascii_alphanumeric c || bool_decide (c = "+"%char) || bool_decide (c = "/"%char)
  || bool_decide (c = "="%char).
Class Base64Laws `{Base64} := {
  std_decode_encode : ∀ s, std_decode (std_encode s) = Ok s;
  std_encode_alphabet : ∀ s, bytes_all base64_char (std_encode s) = true
}.
Lemma std_encode_without `{Base64Laws} c s :
  base64_char c = false → bytes_all (λ x, negb (bool_decide (x = c))) (std_encode s) = true.
Proof.
  intros Hc. eapply bytes_all_impl; [|apply std_encode_alphabet]. intros x Hx.
  apply negb_true_iff, bool_decide_eq_false_2. congruence.
Qed.

(** ** [macaroon] *)

Inductive Caveat := FirstParty (predicate : string) | ThirdParty.
Record Macaroon := {
  mac_identifier : string;
  mac_caveats : list Caveat;
  mac_signature : string
}.
Definition is_third_party (c : Caveat) : bool :=
  match c with ThirdParty => true | FirstParty _ => false end.
Definition third_party_caveats (m : Macaroon) : list Caveat :=
  List.filter is_third_party (mac_caveats m).

Class MacaroonLib := {
  (** [Macaroon::deserialize_binary] *)
  mac_from_binary : string → result anyhow Macaroon;
  (** [Macaroon::deserialize] of the V2 JSON object with the given [i64], [c]
      and [s64] members *)
  mac_from_json : string → list string → string → result anyhow Macaroon;
  (** [Macaroon::serialize(Format::V2)]: URL-safe base64 of the binary form *)
  mac_serialize : Macaroon → result anyhow string;
  (** [Verifier::verify] with these exactly satisfied predicates and root key *)
  mac_verify : list string → string → Macaroon → result anyhow unit
}.

(** The HMAC chain that signs an identifier and first-party predicates. *)
Definition hmac_chain `{HmacSha256} (root id : string) (predicates : list string) : string :=
  fold_left hmac_sha256 predicates (hmac_sha256 root id).

(** The V2 formats round trip, a V2 binary starts with the byte 2, and the
    verifier accepts a correctly signed macaroon whose predicates are satisfied. *)
Class MacaroonLaws `{Base64, HmacSha256, MacaroonLib} := {
  mac_from_json_spec : ∀ id ps sig,
    mac_from_json (std_encode id) ps (url_safe_encode sig) =
    Ok {| mac_identifier := id; mac_caveats := map FirstParty ps; mac_signature := sig |};
  mac_serialize_spec : ∀ m, ∃ text bin,
    mac_serialize m = Ok text ∧ url_safe_decode text = Ok (String (Ascii.ascii_of_nat 2) bin) ∧
    mac_from_binary (String (Ascii.ascii_of_nat 2) bin) = Ok m;
  mac_verify_spec : ∀ ps root m,
    mac_caveats m = map FirstParty ps →
    mac_signature m = hmac_chain root (mac_identifier m) ps →
    mac_verify ps root m = Ok tt
}.

(** ** [bitcoin::secp256k1] *)
Class Secp := public_key_ok : string → bool.

(** ** [cdk::mint_url] *)
(** [MintUrl::from_str] normalizes; a [MintUrl] is its normalized text. *)
Class MintUrlLib := mint_url_from_str : string → result anyhow string.
