(* ===== verification/Models.v ===== *)
(** * Concrete stand-ins for third-party code

    Small computable instances of the classes of [Extern], with proofs of the
    laws.  They are used only to evaluate the model on concrete inputs: the
    theorems quantify over every instance. *)
From S2P Require Import Prelude Text Extern.
#[local] Open Scope string_scope.
#[local] Open Scope list_scope.
#[local] Open Scope Z_scope.

Module Toy.

(** An injective, self-delimiting encoding of a list of strings. *)
Fixpoint frame (s : string) (rest : string) : string :=
  match s with
  | "" => String "0" rest
  | String c s' => String "1" (String c (frame s' rest))
  end.
Fixpoint frames (l : list string) : string :=
  match l with [] => "" | s :: l' => frame s (frames l') end.

Lemma frame_inj s s' r r' : frame s r = frame s' r' → s = s' ∧ r = r'.
Proof.
  revert s'. induction s as [|c s IH]; intros [|c' s'] Ef; simpl in Ef; try discriminate.
  - by injection Ef.
  - injection Ef as -> Ef. by apply IH in Ef as [-> ->].
Qed.

Lemma frames_inj l l' : frames l = frames l' → l = l'.
Proof.
  revert l'. induction l as [|s l IH]; intros [|s' l'] E; [done| | |].
  - by destruct s'.
  - by destruct s.
  - simpl in E. apply frame_inj in E as [-> E]. f_equal. auto.
Qed.

Fixpoint pairs (h : list (string * string)) : list string :=
  match h with [] => [] | (a, b) :: h' => a :: b :: pairs h' end.

Lemma pairs_inj h h' : pairs h = pairs h' → h = h'.
Proof.
  revert h'. induction h as [|[a b] h IH]; intros [|[a' b'] h'] Ep; simpl in Ep; try discriminate; [done|].
  injection Ep as -> -> Ep. f_equal. auto.
Qed.

#[export] Instance json : JsonLib :=
  {| json_strings := frames;
     json_binding d m u b h := frames (d :: m :: u :: b :: pairs h) |}.
#[export] Instance json_laws : JsonLaws.
Proof.
  split; [apply frames_inj|].
  intros * Ef. apply frames_inj in Ef. injection Ef as -> -> -> -> Eh.
  apply pairs_inj in Eh as ->. done.
Qed.

(** The first 32 bytes, padded: enough to have the right length. *)
Fixpoint take_pad (n : nat) (s : string) : string :=
  match n, s with
  | O, _ => ""
  | S n', "" => String "." (take_pad n' "")
  | S n', String c s' => String c (take_pad n' s')
  end.
Lemma take_pad_len n s : slen (take_pad n s) = n.
Proof. revert s. induction n as [|n IH]; intros [|c s]; simpl; auto. Qed.
Definition sha (s : string) : string := take_pad 32 s.
#[export] Instance sha256_toy : Sha256 := sha.
#[export] Instance sha256_toy_laws : Sha256Laws.
Proof. intros s. apply take_pad_len. Qed.
(** Longer digests, without collisions on the strings of an example. *)
Definition sha256_id : Sha256 := λ s, s.
#[export] Instance hmac_toy : HmacSha256 := λ k m, sha (k +:+ m).

#[export] Instance http : HttpLib :=
  {| header_to_str v := if str_is_ascii v then Some v else None;
     header_name_ok s := negb (bool_decide (s = "")) && bytes_all (λ c, negb (bool_decide (c = " "%char))) s;
     authority_parse s := Some (s, s) |}.
#[export] Instance http_laws : HttpLaws.
Proof. intros v s. simpl. case_match; congruence. Qed.

End Toy.
