(* ===== verification/RateLimit.v ===== *)
(** * Per-client token buckets ([rate_limit.rs])

    A limiter is sixteen shards, each a table from client keys to buckets in
    fixed-point credit.  The definitions follow the source; the theorems show
    that the idle sweep is invisible (the table refines buckets that are never
    forgotten), that the admitted requests of a client obey the token-bucket
    bound over any interval, that the wait returned on rejection is exact, that
    the table is bounded, and which clients share a bucket.

    An [Instant] is its distance in nanoseconds from a fixed origin; a
    [Duration] is a number of nanoseconds. *)
From S2P Require Import Prelude Text Net.
#[local] Open Scope Z_scope.

Module Rate.

Definition SHARDS : nat := 16.
Definition CLIENTS_PER_SHARD : Z := 1024.
Definition IDLE : Z := 60 * 1000000000.
Definition TOKEN : Z := 1000000000.

Record Limit := { per_second : Z; burst : Z }.
#[export] Instance Limit_eq_dec : EqDecision Limit.
Proof. solve_decision. Defined.

Record Bucket := { credit : Z; updated : Z }.
Record Shard := { clients : gmap IpAddr Bucket; swept : Z }.
Record RateLimiter := {
  limit : Limit;
  ipv6_prefix : Z;
  hash_one : IpAddr → Z;   (** the limiter's [RandomState] *)
  shards : list Shard
}.

(** [Instant::duration_since], which saturates at zero. *)
Definition duration_since (now earlier : Z) : Z := Z.max 0 (now - earlier).
(** [u128::div_ceil] *)
Definition div_ceil (a b : Z) : Z := (a + b - 1) / b.

(** [assert!(ipv6_prefix <= 128)] fails as [None]; [clock i] is the sample of
    [Instant::now] taken for shard [i]. *)
Definition with_prefix (l : Limit) (prefix : Z) (h : IpAddr → Z) (clock : nat → Z) :
    option RateLimiter :=
  if prefix <=? 128 then
    Some {| limit := l; ipv6_prefix := prefix; hash_one := h;
            shards := (λ i, {| clients := ∅; swept := clock i |}) <$> seq 0 SHARDS |}
  else None.

Definition new (l : Limit) (h : IpAddr → Z) (clock : nat → Z) : option RateLimiter :=
  with_prefix l 64 h clock.

(** [u128::MAX.checked_shl(128 - prefix).unwrap_or(0)] *)
Definition prefix_mask (prefix : Z) : Z :=
  let n := 128 - prefix in
  if n <? 128 then Z.shiftl u128_max n mod 2 ^ 128 else 0.

Definition client_key (client : IpAddr) (prefix : Z) : IpAddr :=
  match to_canonical client with
  | V6 ip => V6 (Z.land ip (prefix_mask prefix))
  | ip => ip
  end.

Definition capacity (l : Limit) : Z := burst l * TOKEN.

Definition refilled (b : Bucket) (l : Limit) (now : Z) : Z :=
  Z.min (credit b + duration_since now (updated b) * per_second l) (capacity l).

(** The retain closure of the sweep. *)
Definition keep (l : Limit) (now : Z) (b : Bucket) : bool :=
  (duration_since now (updated b) <? IDLE) || (refilled b l now <? capacity l).

Definition sweep (l : Limit) (now : Z) (s : Shard) : Shard :=
  if IDLE <=? duration_since now (swept s) then
    {| clients := filter (λ kb, keep l now kb.2 = true) (clients s); swept := now |}
  else s.

Definition take_token (b : Bucket) (l : Limit) (now : Z) : result Z unit * Bucket :=
  let c := refilled b l now in
  if TOKEN <=? c then (Ok tt, {| credit := c - TOKEN; updated := now |})
  else (Err (as_u64 (div_ceil (TOKEN - c) (per_second l))), {| credit := c; updated := now |}).

Definition shard_check (s : Shard) (client : IpAddr) (l : Limit) (now : Z) :
    result Z unit * Shard :=
  let s := sweep l now s in
  if is_none (clients s !! client) && (CLIENTS_PER_SHARD <=? Z.of_nat (size (clients s)))
  then (Err IDLE, s)
  else
    let b := default {| credit := capacity l; updated := now |} (clients s !! client) in
    let '(r, b') := take_token b l now in
    (r, {| clients := <[client := b']> (clients s); swept := swept s |}).

Definition shard_index (lim : RateLimiter) (key : IpAddr) : nat :=
  Z.to_nat (hash_one lim key mod Z.of_nat SHARDS).

Definition check_with_clock (lim : RateLimiter) (client : IpAddr) (now : Z) :
    result Z unit * RateLimiter :=
  let key := client_key client (ipv6_prefix lim) in
  let i := shard_index lim key in
  match shards lim !! i with
  | Some s =>
      let '(r, s') := shard_check s key (limit lim) now in
      (r, {| limit := limit lim; ipv6_prefix := ipv6_prefix lim;
             hash_one := hash_one lim; shards := <[i := s']> (shards lim) |})
  | None => (Err IDLE, lim)   (* the array has [SHARDS] elements: unreachable *)
  end.

(** ** Well-formedness *)

(** What the configuration parser guarantees of a limit. *)
Definition limit_wf (l : Limit) : Prop :=
  1 ≤ per_second l ≤ u32_max ∧ 1 ≤ burst l ≤ u32_max.

Definition bucket_wf (l : Limit) (t : Z) (b : Bucket) : Prop :=
  0 ≤ credit b ≤ capacity l ∧ updated b ≤ t.

(** A shard no operation of which ran after time [t]. *)
Definition shard_wf (l : Limit) (t : Z) (s : Shard) : Prop :=
  Z.of_nat (size (clients s)) ≤ CLIENTS_PER_SHARD ∧ swept s ≤ t ∧
  map_Forall (λ _ b, bucket_wf l t b) (clients s).

Definition limiter_wf (t : Z) (lim : RateLimiter) : Prop :=
  limit_wf (limit lim) ∧ 0 ≤ ipv6_prefix lim ≤ 128 ∧
  length (shards lim) = SHARDS ∧ Forall (shard_wf (limit lim) t) (shards lim).

(** ** Specification: buckets that are never forgotten

    The reference keeps one bucket per client for ever, creates it full and
    has neither a sweep nor a table bound. *)
Definition ideal_check (m : gmap IpAddr Bucket) (client : IpAddr) (l : Limit) (now : Z) :
    result Z unit * gmap IpAddr Bucket :=
  let b := default {| credit := capacity l; updated := now |} (m !! client) in
  let '(r, b') := take_token b l now in (r, <[client := b']> m).

(** The shard and the reference agree; a client the shard forgot has a full
    bucket in the reference. *)
Definition agree (l : Limit) (t : Z) (s : Shard) (m : gmap IpAddr Bucket) : Prop :=
  ∀ c, match clients s !! c, m !! c with
       | Some b, Some b' => b = b'
       | None, None => True
       | None, Some b' => updated b' ≤ t ∧ refilled b' l t = capacity l
       | Some _, None => False
       end.

(** ** Buckets *)

Lemma duration_since_nonneg now t : 0 ≤ duration_since now t.
Proof. unfold duration_since. lia. Qed.

Lemma capacity_bound l : limit_wf l → TOKEN ≤ capacity l ≤ u32_max * TOKEN.
Proof. unfold limit_wf, capacity, TOKEN. solve_width. Qed.

Lemma refilled_bound l t b now :
  limit_wf l → bucket_wf l t b → 0 ≤ refilled b l now ≤ capacity l.
Proof.
  intros Hl [[? ?] _]. pose proof (duration_since_nonneg now (updated b)).
  pose proof (capacity_bound l Hl). destruct Hl as [[? _] _].
  unfold refilled, TOKEN in *. split; [|lia]. apply Z.min_glb; nia.
Qed.

(** Credit grows at the refill rate and not faster. *)
Lemma refilled_step l t b now :
  limit_wf l → updated b ≤ t ≤ now →
  refilled b l t ≤ refilled b l now ≤ refilled b l t + (now - t) * per_second l.
Proof.
  intros [[? _] _] ?. unfold refilled, duration_since.
  rewrite !Z.max_r by lia.
  replace ((now - updated b) * per_second l)
    with ((t - updated b) * per_second l + (now - t) * per_second l) by lia.
  assert (0 ≤ (now - t) * per_second l) by nia. lia.
Qed.

Lemma refilled_updated l b : limit_wf l → credit b ≤ capacity l →
  refilled b l (updated b) = credit b.
Proof. intros ??. unfold refilled, duration_since. rewrite Z.sub_diag, Z.max_l; lia. Qed.

Lemma refilled_new l now :
  refilled {| credit := capacity l; updated := now |} l now = capacity l.
Proof. unfold refilled, duration_since. simpl. rewrite Z.sub_diag. lia. Qed.

(** The wait of a rejection fits in 64 bits and is at least a nanosecond. *)
Lemma wait_exact l c e :
  limit_wf l → 0 ≤ c < TOKEN → 0 ≤ e →
  (as_u64 (div_ceil (TOKEN - c) (per_second l)) ≤ e ↔ TOKEN ≤ c + e * per_second l).
Proof.
  intros [[Hp Hp'] _] Hc He. unfold as_u64, div_ceil.
  set (p := per_second l) in *. set (d := TOKEN - c).
  assert (0 < d ≤ TOKEN) by (unfold d; lia).
  assert (0 ≤ (d + p - 1) / p ≤ TOKEN) as Hq.
  { split; [apply Z.div_pos; lia|].
    apply Z.div_le_upper_bound; [lia|]. unfold TOKEN in *. nia. }
  rewrite Z.mod_small by (unfold TOKEN in *; lia).
  pose proof (Z.div_mod (d + p - 1) p ltac:(lia)).
  pose proof (Z.mod_pos_bound (d + p - 1) p ltac:(lia)).
  split; intros; unfold d in *; nia.
Qed.

Lemma take_token_wf l t b now r b' :
  limit_wf l → bucket_wf l t b → take_token b l now = (r, b') → bucket_wf l now b'.
Proof.
  intros Hl Hb. pose proof (refilled_bound l t b now Hl Hb).
  pose proof (capacity_bound l Hl).
  unfold take_token. case_match eqn:E; intros; simplify_eq; split; simpl;
    unfold TOKEN in *; lia.
Qed.

Lemma take_token_credit l b now :
  credit (take_token b l now).2 =
    refilled b l now - (if is_ok (take_token b l now).1 then TOKEN else 0)
  ∧ updated (take_token b l now).2 = now.
Proof. unfold take_token. case_match; simpl; lia. Qed.

Lemma take_token_ok l b now :
  is_ok (take_token b l now).1 = (TOKEN <=? refilled b l now).
Proof. unfold take_token. by case_match. Qed.

(** ** The sweep *)

Lemma sweep_lookup l now s c :
  clients (sweep l now s) !! c = clients s !! c ∨
  clients (sweep l now s) !! c = None ∧
    ∃ b, clients s !! c = Some b ∧ capacity l ≤ refilled b l now.
Proof.
  unfold sweep. case_match; [|auto]. simpl.
  destruct (clients s !! c) as [b|] eqn:Hb.
  - destruct (keep l now b) eqn:Hk.
    + left. by apply map_lookup_filter_Some.
    + right. split; [apply map_lookup_filter_None; naive_solver congruence|].
      exists b. split; [done|]. unfold keep in Hk. lia.
  - left. apply map_lookup_filter_None. auto.
Qed.

Lemma sweep_wf l t now s : t ≤ now → shard_wf l t s → shard_wf l now (sweep l now s).
Proof.
  intros Hle (Hsize & Hsw & Hall).
  assert (map_Forall (λ _ b, bucket_wf l now b) (clients s)) as Hall'.
  { intros c b Hb. destruct (Hall c b Hb). split; lia. }
  unfold sweep. case_match; [|split_and!; auto; lia].
  split_and!; simpl; [|lia|].
  - etrans; [|exact Hsize]. apply inj_le.
    rewrite <- !size_dom. apply subseteq_size, dom_filter_subseteq.
  - intros c b [Hb _]%map_lookup_filter_Some. eauto.
Qed.

(** The table is full of other clients. *)
Definition full (s : Shard) (c : IpAddr) : bool :=
  is_none (clients s !! c) && (CLIENTS_PER_SHARD <=? Z.of_nat (size (clients s))).

Definition bucket_of (s : Shard) (c : IpAddr) (l : Limit) (now : Z) : Bucket :=
  default {| credit := capacity l; updated := now |} (clients s !! c).

Lemma bucket_of_wf l now s c :
  limit_wf l → shard_wf l now s → bucket_wf l now (bucket_of s c l now).
Proof.
  intros Hl (_ & _ & Hall). unfold bucket_of. pose proof (capacity_bound l Hl).
  destruct (clients s !! c) as [b|] eqn:Hb; simpl; [by eapply Hall|].
  split; simpl; unfold TOKEN in *; lia.
Qed.

Lemma shard_check_eq s c l now :
  shard_check s c l now =
    let s := sweep l now s in
    if full s c then (Err IDLE, s)
    else ((take_token (bucket_of s c l now) l now).1,
          {| clients := <[c := (take_token (bucket_of s c l now) l now).2]> (clients s);
             swept := swept s |}).
Proof.
  unfold shard_check, full, bucket_of. cbv zeta. case_match; [done|].
  by destruct (take_token _ _ _).
Qed.

(** Every operation preserves the shard invariant, the table bound included. *)
Lemma shard_check_wf l t now s c :
  limit_wf l → t ≤ now → shard_wf l t s → shard_wf l now (shard_check s c l now).2.
Proof.
  intros Hl Hle Hs%(sweep_wf l t now s Hle). rewrite shard_check_eq. cbv zeta.
  set (s1 := sweep l now s) in *. destruct (full s1 c) eqn:Hfull; [done|]. simpl.
  pose proof (bucket_of_wf l now s1 c Hl Hs) as Hb. destruct Hs as (Hsize & Hsw & Hall).
  split_and!; simpl; [|done|].
  - unfold full in Hfull. destruct (clients s1 !! c) as [b|] eqn:E.
    + rewrite map_size_insert_Some; eauto.
    + rewrite map_size_insert_None by done. simpl in Hfull.
      lia.
  - apply map_Forall_insert_2; [|done].
    destruct (take_token _ _ _) eqn:E. by eapply take_token_wf.
Qed.

(** ** The table refines the reference *)

Lemma agree_sweep l t now s m :
  limit_wf l → t ≤ now → shard_wf l t s → agree l t s m → agree l now (sweep l now s) m.
Proof.
  intros Hl Hle (_ & _ & Hall) Hag c. specialize (Hag c).
  destruct (sweep_lookup l now s c) as [->|(-> & b & Hb & Hfull)].
  - destruct (clients s !! c) eqn:E, (m !! c) as [b'|]; auto.
    destruct Hag as [? Hfull]. split; [lia|].
    pose proof (refilled_step l t b' now Hl ltac:(lia)).
    unfold refilled in *. lia.
  - rewrite Hb in Hag. destruct (m !! c) as [b'|]; [subst|done].
    destruct (Hall c b' Hb). split; [lia|]. unfold refilled in *. lia.
Qed.

(** A client's bucket refills to the same credit on both sides. *)
Lemma agree_take l now s m c :
  limit_wf l → agree l now s m →
  take_token (bucket_of s c l now) l now =
  take_token (default {| credit := capacity l; updated := now |} (m !! c)) l now.
Proof.
  intros Hl Hag. specialize (Hag c). unfold bucket_of.
  destruct (clients s !! c), (m !! c) as [b'|]; simpl; subst; try done.
  destruct Hag as [_ Hfull]. unfold take_token. by rewrite Hfull, refilled_new.
Qed.

Lemma shard_check_sim l t now s m c :
  limit_wf l → t ≤ now → shard_wf l t s → agree l t s m →
  if full (sweep l now s) c
  then shard_check s c l now = (Err IDLE, sweep l now s) ∧
       agree l now (sweep l now s) m
  else (shard_check s c l now).1 = (ideal_check m c l now).1 ∧
       agree l now (shard_check s c l now).2 (ideal_check m c l now).2.
Proof.
  intros Hl Hle Hs Hag. pose proof (agree_sweep l t now s m Hl Hle Hs Hag) as Hag'.
  rewrite shard_check_eq. cbv zeta. destruct (full _ _); [done|].
  rewrite (agree_take l now _ m c Hl Hag'). unfold ideal_check.
  destruct (take_token _ _ _) as [r b'] eqn:E. simpl. split; [done|].
  intros k. simpl. destruct (decide (c = k)) as [->|Hne].
  - by rewrite !lookup_insert_eq.
  - rewrite !lookup_insert_ne by done. apply Hag'.
Qed.

(** ** Runs *)

(** Requests of one shard in the order of its lock, with the sampled times. *)
Fixpoint shard_run (s : Shard) (l : Limit) (evs : list (IpAddr * Z)) :
    list (result Z unit) * Shard :=
  match evs with
  | [] => ([], s)
  | (c, now) :: evs' =>
      let '(r, s') := shard_check s c l now in
      let '(rs, s'') := shard_run s' l evs' in (r :: rs, s'')
  end.

Fixpoint ideal_run (m : gmap IpAddr Bucket) (l : Limit) (evs : list (IpAddr * Z)) :
    list (result Z unit) :=
  match evs with
  | [] => []
  | (c, now) :: evs' =>
      let '(r, m') := ideal_check m c l now in r :: ideal_run m' l evs'
  end.

Fixpoint limiter_run (lim : RateLimiter) (evs : list (IpAddr * Z)) :
    list (result Z unit) * RateLimiter :=
  match evs with
  | [] => ([], lim)
  | (c, now) :: evs' =>
      let '(r, lim') := check_with_clock lim c now in
      let '(rs, lim'') := limiter_run lim' evs' in (r :: rs, lim'')
  end.

(** The clock is sampled under the lock of the shard, so it never goes back. *)
Fixpoint monotone (t : Z) (evs : list (IpAddr * Z)) : Prop :=
  match evs with
  | [] => True
  | (_, now) :: evs' => t ≤ now ∧ monotone now evs'
  end.
Fixpoint final_time (t : Z) (evs : list (IpAddr * Z)) : Z :=
  match evs with [] => t | (_, now) :: evs' => final_time now evs' end.

(** Requests of clients with key [k] that were admitted. *)
Fixpoint admitted (k : IpAddr) (prefix : Z) (evs : list (IpAddr * Z))
    (rs : list (result Z unit)) : Z :=
  match evs, rs with
  | (c, _) :: evs', r :: rs' =>
      (if bool_decide (client_key c prefix = k) && is_ok r then 1 else 0)
      + admitted k prefix evs' rs'
  | _, _ => 0
  end.

(** Rejections by a table full of other clients: the wait [IDLE] is longer
    than any wait for a token. *)
Definition table_full (r : result Z unit) : bool :=
  match r with Err w => w =? IDLE | Ok _ => false end.

Lemma take_token_not_full l t b now :
  limit_wf l → bucket_wf l t b → table_full (take_token b l now).1 = false.
Proof.
  intros Hl Hb. pose proof (refilled_bound l t b now Hl Hb). unfold take_token.
  case_match eqn:E; [done|]. simpl. apply Z.eqb_neq.
  assert (as_u64 (div_ceil (TOKEN - refilled b l now) (per_second l)) ≤ TOKEN);
    [|unfold IDLE, TOKEN in *; lia].
  apply (wait_exact l (refilled b l now)); [done|unfold TOKEN in *; lia..|].
  destruct Hl as [[? _] _]. unfold TOKEN in *. nia.
Qed.

(** The requests that were not turned away by a full table, and their results. *)
Fixpoint served (evs : list (IpAddr * Z)) (rs : list (result Z unit)) :
    list (IpAddr * Z) :=
  match evs, rs with
  | ev :: evs', r :: rs' => if table_full r then served evs' rs' else ev :: served evs' rs'
  | _, _ => []
  end.
Fixpoint answers (rs : list (result Z unit)) : list (result Z unit) :=
  match rs with
  | [] => []
  | r :: rs' => if table_full r then answers rs' else r :: answers rs'
  end.

Lemma shard_check_not_full l t now s c :
  limit_wf l → t ≤ now → shard_wf l t s →
  table_full (shard_check s c l now).1 = full (sweep l now s) c.
Proof.
  intros Hl Hle Hs%(sweep_wf l t now s Hle). rewrite shard_check_eq. cbv zeta.
  destruct (full _ _); [done|]. simpl.
  eapply take_token_not_full; [done|by apply bucket_of_wf].
Qed.

Lemma shard_run_sim l t s m evs :
  limit_wf l → monotone t evs → shard_wf l t s → agree l t s m →
  answers (shard_run s l evs).1 = ideal_run m l (served evs (shard_run s l evs).1).
Proof.
  intros Hl. revert t s m. induction evs as [|[c now] evs IH]; intros t s m Hm Hs Hag; [done|].
  destruct Hm as [Hle Hm]. simpl.
  pose proof (shard_check_sim l t now s m c Hl Hle Hs Hag) as Hsim.
  pose proof (shard_check_wf l t now s c Hl Hle Hs) as Hs'.
  pose proof (shard_check_not_full l t now s c Hl Hle Hs) as Hnf.
  destruct (full _ _).
  - destruct Hsim as [Heq Hag']. rewrite Heq in *. simpl in Hs', Hnf.
    specialize (IH now _ m Hm Hs' Hag').
    by destruct (shard_run _ _ _) as [rs s''].
  - destruct Hsim as [Heq Hag'].
    specialize (IH now _ _ Hm Hs' Hag').
    destruct (shard_check s c l now) as [r s']. simpl in *.
    destruct (shard_run _ _ _) as [rs s'']. simpl in *. rewrite Hnf. simpl.
    destruct (ideal_check m c l now) as [ri m']. simpl in *. congruence.
Qed.

(** ** Credit of a client, over a whole limiter *)

Definition avail (s : Shard) (c : IpAddr) (l : Limit) (t : Z) : Z :=
  refilled (bucket_of s c l t) l t.

Lemma avail_bound l t s c :
  limit_wf l → shard_wf l t s → 0 ≤ avail s c l t ≤ capacity l.
Proof. intros Hl Hs. eapply refilled_bound; [done|by apply bucket_of_wf]. Qed.

Lemma avail_sweep l t now s c :
  limit_wf l → t ≤ now → shard_wf l t s →
  avail (sweep l now s) c l now ≤ avail s c l t + (now - t) * per_second l.
Proof.
  intros Hl Hle (_ & _ & Hall).
  assert (0 ≤ (now - t) * per_second l) by (destruct Hl as [[? _] _]; nia).
  unfold avail, bucket_of.
  destruct (sweep_lookup l now s c) as [->|(-> & b & Hb & Hfull)].
  - destruct (clients s !! c) as [b|] eqn:Hb; simpl.
    + destruct (Hall c b Hb). apply refilled_step; [done|lia].
    + rewrite !refilled_new. lia.
  - rewrite Hb. simpl. rewrite refilled_new. destruct (Hall c b Hb).
    pose proof (refilled_step l t b now Hl ltac:(lia)). lia.
Qed.

(** One request: an admission costs a token, time refills at the rate, and the
    requests of other clients are free. *)
Lemma avail_step l t now s c k :
  limit_wf l → t ≤ now → shard_wf l t s →
  avail (shard_check s c l now).2 k l now
    + (if bool_decide (c = k) && is_ok (shard_check s c l now).1 then TOKEN else 0)
  ≤ avail s k l t + (now - t) * per_second l.
Proof.
  intros Hl Hle Hs. pose proof (avail_sweep l t now s k Hl Hle Hs) as Hsw.
  pose proof (sweep_wf l t now s Hle Hs) as Hs1.
  rewrite shard_check_eq. cbv zeta. set (s1 := sweep l now s) in *.
  destruct (full s1 c); simpl; [rewrite andb_false_r; lia|].
  case_bool_decide as Hck; simpl.
  - subst k. unfold avail in *. unfold bucket_of at 1. simpl.
    rewrite lookup_insert_eq. simpl.
    pose proof (take_token_credit l (bucket_of s1 c l now) now) as [Hc Hu].
    pose proof (bucket_of_wf l now s1 c Hl Hs1) as Hb.
    destruct (take_token _ _ _) as [r b'] eqn:E. simpl in *.
    pose proof (take_token_wf l now _ now _ _ Hl Hb E) as [Hcap _].
    pose proof (refilled_updated l b' Hl ltac:(lia)) as Hr. rewrite Hu in Hr. lia.
  - unfold avail, bucket_of in *. simpl. rewrite lookup_insert_ne by done. lia.
Qed.

Definition shard_of (lim : RateLimiter) (k : IpAddr) : Shard :=
  default {| clients := ∅; swept := 0 |} (shards lim !! shard_index lim k).

Lemma shard_index_bound lim k : (shard_index lim k < SHARDS)%nat.
Proof.
  unfold shard_index, SHARDS.
  pose proof (Z.mod_pos_bound (hash_one lim k) (Z.of_nat 16) ltac:(lia)). lia.
Qed.

Lemma shard_of_lookup t lim k :
  limiter_wf t lim → shards lim !! shard_index lim k = Some (shard_of lim k).
Proof.
  intros (_ & _ & Hlen & _). unfold shard_of.
  destruct (shards lim !! shard_index lim k) eqn:E; [done|].
  apply lookup_ge_None in E. pose proof (shard_index_bound lim k). lia.
Qed.

(** A check runs on the shard of the client's key and leaves the others alone. *)
Lemma check_with_clock_eq t lim c now :
  limiter_wf t lim →
  let k := client_key c (ipv6_prefix lim) in
  check_with_clock lim c now =
    ((shard_check (shard_of lim k) k (limit lim) now).1,
     {| limit := limit lim; ipv6_prefix := ipv6_prefix lim; hash_one := hash_one lim;
        shards := <[shard_index lim k :=
          (shard_check (shard_of lim k) k (limit lim) now).2]> (shards lim) |}).
Proof.
  intros Hwf k. unfold check_with_clock. fold k.
  rewrite (shard_of_lookup t lim k Hwf). by destruct (shard_check _ _ _ _).
Qed.

Lemma shard_of_wf t lim k : limiter_wf t lim → shard_wf (limit lim) t (shard_of lim k).
Proof.
  intros Hwf. pose proof (shard_of_lookup t lim k Hwf) as Hl.
  destruct Hwf as (_ & _ & _ & Hall). by eapply Forall_lookup_1 in Hall.
Qed.

Lemma shard_wf_later l t now s : t ≤ now → shard_wf l t s → shard_wf l now s.
Proof.
  intros ? (? & ? & Hall). split_and!; [done|lia|].
  intros c b Hb. destruct (Hall c b Hb). split; lia.
Qed.

Lemma check_with_clock_wf t lim c now :
  limiter_wf t lim → t ≤ now → limiter_wf now (check_with_clock lim c now).2.
Proof.
  intros Hwf Hle. rewrite (check_with_clock_eq t) by done. cbv zeta. simpl.
  pose proof (shard_of_wf t lim (client_key c (ipv6_prefix lim)) Hwf) as Hs.
  destruct Hwf as (Hl & Hp & Hlen & Hall). split_and!; simpl; try done || lia.
  - by rewrite length_insert.
  - apply Forall_insert; [|by eapply shard_check_wf].
    eapply Forall_impl; [done|]. intros. by eapply shard_wf_later.
Qed.

Lemma limiter_avail_step t lim c now k :
  limiter_wf t lim → t ≤ now →
  avail (shard_of (check_with_clock lim c now).2 k) k (limit lim) now
    + (if bool_decide (client_key c (ipv6_prefix lim) = k)
          && is_ok (check_with_clock lim c now).1 then TOKEN else 0)
  ≤ avail (shard_of lim k) k (limit lim) t + (now - t) * per_second (limit lim).
Proof.
  intros Hwf Hle. pose proof (shard_of_lookup t lim) as Hlook.
  pose proof (shard_of_wf t lim) as Hswf.
  rewrite (check_with_clock_eq t) by done. cbv zeta. simpl.
  set (kc := client_key c (ipv6_prefix lim)). unfold shard_of at 1. simpl.
  change (shard_index {| limit := _; ipv6_prefix := _; hash_one := _; shards := _ |} k)
    with (shard_index lim k).
  destruct (decide (shard_index lim kc = shard_index lim k)) as [Heq|Hne].
  - rewrite Heq, list_lookup_insert_eq by
      (eapply lookup_lt_Some, (Hlook k Hwf)). simpl.
    replace (shard_of lim kc) with (shard_of lim k) by (unfold shard_of; by rewrite Heq).
    apply avail_step; auto. apply Hwf.
  - rewrite list_lookup_insert_ne by done. rewrite (Hlook k Hwf). simpl.
    rewrite bool_decide_false by congruence. simpl.
    pose proof (avail_sweep (limit lim) t now (shard_of lim k) k) as Hsw.
    destruct Hwf as (Hl & Hrest). specialize (Hsw Hl Hle (Hswf k (conj Hl Hrest))).
    unfold avail, bucket_of in *.
    destruct (Hswf k (conj Hl Hrest)) as (_ & _ & Hall).
    destruct (clients (shard_of lim k) !! k) as [b|] eqn:Hb; simpl.
    + destruct (Hall k b Hb). pose proof (refilled_step (limit lim) t b now Hl ltac:(lia)). lia.
    + rewrite !refilled_new. destruct Hl as [[? _] _]. nia.
Qed.

Lemma check_with_clock_config lim c now :
  limit (check_with_clock lim c now).2 = limit lim ∧
  ipv6_prefix (check_with_clock lim c now).2 = ipv6_prefix lim.
Proof. unfold check_with_clock. case_match; [destruct (shard_check _ _ _ _)|]; done. Qed.

Lemma limiter_run_credit t lim evs k :
  limiter_wf t lim → monotone t evs →
  admitted k (ipv6_prefix lim) evs (limiter_run lim evs).1 * TOKEN
  ≤ avail (shard_of lim k) k (limit lim) t
    + (final_time t evs - t) * per_second (limit lim).
Proof.
  revert t lim. induction evs as [|[c now] evs IH]; intros t lim Hwf Hm; simpl.
  - pose proof (avail_bound (limit lim) t (shard_of lim k) k
      ltac:(apply Hwf) ltac:(by apply shard_of_wf)). lia.
  - destruct Hm as [Hle Hm].
    pose proof (limiter_avail_step t lim c now k Hwf Hle) as Hstep.
    pose proof (check_with_clock_wf t lim c now Hwf Hle) as Hwf'.
    pose proof (check_with_clock_config lim c now) as [Hl Hp].
    specialize (IH now _ Hwf' Hm). rewrite Hl, Hp in IH.
    destruct (check_with_clock lim c now) as [r lim']. simpl in *.
    destruct (limiter_run lim' evs) as [rs lim'']. simpl in *.
    unfold TOKEN in *. destruct (bool_decide _ && is_ok r); lia.
Qed.

(** ** Waiting *)

Lemma sweep_removed_size l now s c :
  clients (sweep l now s) !! c = None → is_Some (clients s !! c) →
  (size (clients (sweep l now s)) < size (clients s))%nat.
Proof.
  intros Hnone Hsome. rewrite <- !size_dom. apply subset_size. split.
  - unfold sweep. case_match; [apply dom_filter_subseteq|done].
  - intros Hsub. apply elem_of_dom in Hsome. apply Hsub, elem_of_dom in Hsome.
    rewrite Hnone in Hsome. by destruct Hsome.
Qed.

(** The bucket a rejection leaves behind. *)
Lemma shard_check_rejected l t now s c w :
  limit_wf l → t ≤ now → shard_wf l t s →
  (shard_check s c l now).1 = Err w → w ≠ IDLE →
  ∃ b, clients (shard_check s c l now).2 !! c = Some b ∧ updated b = now ∧
    0 ≤ credit b < TOKEN ∧ w = as_u64 (div_ceil (TOKEN - credit b) (per_second l)).
Proof.
  intros Hl Hle Hs. pose proof (sweep_wf l t now s Hle Hs) as Hs1.
  rewrite shard_check_eq. cbv zeta. destruct (full _ _); simpl; [congruence|].
  intros Hw _. rewrite lookup_insert_eq. eexists. split; [done|].
  pose proof (bucket_of_wf l now _ c Hl Hs1) as Hb.
  pose proof (refilled_bound l now _ now Hl Hb).
  unfold take_token in *. case_match; simplify_eq/=. split_and!; auto with lia.
Qed.

Lemma shard_wait_exact l t now s c w e :
  limit_wf l → t ≤ now → shard_wf l t s → 0 ≤ e →
  (shard_check s c l now).1 = Err w → w ≠ IDLE →
  (is_ok (shard_check (shard_check s c l now).2 c l (now + e)).1 = true ↔ w ≤ e).
Proof.
  intros Hl Hle Hs He Hw Hni.
  pose proof (shard_check_wf l t now s c Hl Hle Hs) as Hs'.
  destruct (shard_check_rejected l t now s c w Hl Hle Hs Hw Hni) as (b & Hb & Hu & Hc & ->).
  rewrite (wait_exact l (credit b) e Hl Hc He).
  set (s' := (shard_check s c l now).2) in *. pose proof (capacity_bound l Hl).
  assert (refilled b l (now + e) = Z.min (credit b + e * per_second l) (capacity l)) as Hr.
  { unfold refilled, duration_since. rewrite Hu. by replace (_ `max` _) with e by lia. }
  rewrite shard_check_eq. cbv zeta. unfold full, bucket_of.
  destruct (sweep_lookup l (now + e) s' c) as [Hsw|(Hsw & b' & Hb' & Hfull)].
  - rewrite Hsw, Hb. simpl. rewrite take_token_ok, Hr, Z.leb_le. lia.
  - rewrite Hb in Hb'. injection Hb' as <-.
    pose proof (sweep_removed_size l (now + e) s' c Hsw ltac:(by rewrite Hb)).
    destruct Hs' as (Hsize & _). rewrite Hsw. simpl.
    rewrite (proj2 (Z.leb_gt _ _)) by lia. simpl.
    rewrite take_token_ok, refilled_new, Z.leb_le. lia.
Qed.

(** ** Keys *)

Lemma prefix_mask_land p x :
  0 ≤ p ≤ 128 → 0 ≤ x < 2 ^ 128 →
  Z.land x (prefix_mask p) = Z.shiftl (Z.shiftr x (128 - p)) (128 - p).
Proof.
  intros Hp Hx. unfold prefix_mask. destruct (Z.ltb_spec (128 - p) 128).
  - change u128_max with (Z.ones 128). apply Z.bits_inj'. intros i Hi.
    rewrite Z.land_spec, Z.shiftl_spec by lia.
    destruct (decide (i < 128)).
    + rewrite Z.mod_pow2_bits_low, Z.shiftl_spec by lia.
      destruct (decide (i < 128 - p)).
      * rewrite (Z.testbit_neg_r (Z.ones _)), (Z.testbit_neg_r (Z.shiftr _ _)) by lia. by rewrite andb_false_r.
      * rewrite Z.ones_spec_low, Z.shiftr_spec by lia. rewrite andb_true_r. f_equal. lia.
    + rewrite Z.mod_pow2_bits_high by lia. rewrite andb_false_r.
      rewrite Z.shiftr_spec by lia. symmetry.
      rewrite <- (Z.mod_small x (2 ^ 128)) by lia. apply Z.mod_pow2_bits_high. lia.
  - replace (128 - p) with 128 by lia. rewrite Z.land_0_r.
    rewrite Z.shiftr_div_pow2, Z.div_small by lia. done.
Qed.

Lemma shiftl_inj a b n : 0 ≤ n → Z.shiftl a n = Z.shiftl b n ↔ a = b.
Proof.
  intros Hn. rewrite !Z.shiftl_mul_pow2 by done. split; [|congruence].
  intros H%Z.mul_reg_r; [done|]. pose proof (Z.pow_pos_nonneg 2 n). lia.
Qed.

(** Masking does not create an IPv4-mapped address. *)
Lemma masked_not_mapped p x :
  0 ≤ p ≤ 128 → 0 ≤ x < 2 ^ 128 → Z.shiftr x 32 ≠ 65535 →
  Z.shiftr (Z.shiftl (Z.shiftr x (128 - p)) (128 - p)) 32 ≠ 65535.
Proof.
  intros Hp Hx Hne H. destruct (decide (96 ≤ p)).
  - apply Hne. rewrite <- H. apply Z.bits_inj'. intros i Hi.
    rewrite !Z.shiftr_spec, Z.shiftl_spec, Z.shiftr_spec by lia. f_equal. lia.
  - assert (Z.testbit 65535 0 = true) as Hb by done. rewrite <- H in Hb.
    rewrite Z.shiftr_spec, Z.shiftl_spec_low in Hb by lia. done.
Qed.

Lemma client_key_V6 p x :
  0 ≤ p ≤ 128 → 0 ≤ x < 2 ^ 128 → Z.shiftr x 32 ≠ 65535 →
  client_key (V6 x) p = V6 (Z.shiftl (Z.shiftr x (128 - p)) (128 - p)).
Proof.
  intros Hp Hx Hne. unfold client_key, to_canonical.
  rewrite (proj2 (Z.eqb_neq _ _) Hne). by rewrite prefix_mask_land.
Qed.

Lemma with_prefix_wf l p h clock t lim :
  limit_wf l → 0 ≤ p → (∀ i, clock i ≤ t) →
  with_prefix l p h clock = Some lim → limiter_wf t lim.
Proof.
  intros Hl Hp Hc. unfold with_prefix. case_match eqn:E; [|done].
  intros [= <-]. split_and!; simpl; try done || lia; [apply Hl..|].
  repeat constructor; simpl; try done; apply Hc || apply map_Forall_empty.
Qed.

(** ** Properties *)

(** Over any sequence of requests to a limiter, with times that never go
    back, the requests of one client key that are admitted between [t] and the
    last request number at most [burst + per_second * elapsed] (in fixed point:
    a request costs 10^9 credits, a nanosecond refills [per_second]).  The idle
    sweep, the other clients and the sharding do not weaken the bound. *)
Theorem token_bucket_bound t lim evs k :
  limiter_wf t lim → monotone t evs →
  admitted k (ipv6_prefix lim) evs (limiter_run lim evs).1 * TOKEN
  ≤ capacity (limit lim) + (final_time t evs - t) * per_second (limit lim).
Proof.
  intros Hwf Hm. pose proof (limiter_run_credit t lim evs k Hwf Hm).
  pose proof (avail_bound (limit lim) t (shard_of lim k) k
    ltac:(apply Hwf) ltac:(by apply shard_of_wf)). lia.
Qed.

Definition demo_limit : Limit := {| per_second := 10; burst := 2 |}.
Definition demo_limiter : RateLimiter :=
  default {| limit := demo_limit; ipv6_prefix := 0; hash_one := λ _, 0; shards := [] |}
    (with_prefix demo_limit 64 (λ a, match a with V4 x => x | V6 x => x end) (λ _, 0)).
Definition demo_events : list (IpAddr * Z) :=
  [(V4 7, 0); (V4 7, 0); (V4 7, 0); (V4 8, 5); (V4 7, 99000000); (V4 7, 100000000)].

Lemma demo_limit_wf : limit_wf demo_limit.
Proof. unfold limit_wf; simpl; solve_width. Qed.
Lemma demo_limiter_wf : limiter_wf 0 demo_limiter.
Proof.
  eapply (with_prefix_wf demo_limit 64 _ (λ _, 0)); [apply demo_limit_wf|lia|done|reflexivity].
Qed.

Lemma token_bucket_bound_witness :
  admitted (V4 7) 64 demo_events (limiter_run demo_limiter demo_events).1 = 3 ∧
  admitted (V4 7) (ipv6_prefix demo_limiter) demo_events
    (limiter_run demo_limiter demo_events).1 * TOKEN
  ≤ capacity (limit demo_limiter)
    + (final_time 0 demo_events - 0) * per_second (limit demo_limiter).
Proof.
  split; [vm_compute; reflexivity|].
  apply (token_bucket_bound 0 demo_limiter demo_events (V4 7)).
  - apply demo_limiter_wf.
  - simpl. lia.
Defined.

(** C12: the table of a shard, with its sweep of idle buckets, refines buckets
    that are kept for ever: along any run from related states, the answers to
    the requests that are not turned away by a full table are the answers of
    the reference. *)
Theorem shard_refines_ideal l t s m evs :
  limit_wf l → monotone t evs → shard_wf l t s → agree l t s m →
  answers (shard_run s l evs).1 = ideal_run m l (served evs (shard_run s l evs).1).
Proof. apply shard_run_sim. Qed.

Definition demo_shard : Shard :=
  {| clients := {[ V4 1 := {| credit := 0; updated := 0 |} ]}; swept := 0 |}.

Lemma demo_shard_wf : shard_wf demo_limit 0 demo_shard.
Proof.
  split_and!; simpl; [vm_compute; congruence|lia|].
  apply map_Forall_singleton. split; simpl; [split; vm_compute; congruence|lia].
Qed.

Lemma shard_refines_ideal_witness :
  let evs := [(V4 2, 5); (V4 1, 61000000000); (V4 1, 61000000000)] in
  (shard_run demo_shard demo_limit evs).1 = [Ok tt; Ok tt; Ok tt] ∧
  answers (shard_run demo_shard demo_limit evs).1 =
    ideal_run (clients demo_shard) demo_limit
      (served evs (shard_run demo_shard demo_limit evs).1).
Proof.
  split; [vm_compute; reflexivity|].
  apply (shard_refines_ideal demo_limit 0 demo_shard).
  - apply demo_limit_wf.
  - simpl. lia.
  - apply demo_shard_wf.
  - intros c. destruct (clients demo_shard !! c); done.
Defined.

(** C37: the wait a rejected client is told is exact: if it repeats the request
    [e] nanoseconds later, with no other request of its own in between, the
    request is admitted if and only if [e] is at least that wait.  (A wait of
    [IDLE] announces a table full of other clients instead.) *)
Theorem rejection_wait_is_exact l t now s c w e :
  limit_wf l → t ≤ now → shard_wf l t s → 0 ≤ e →
  (shard_check s c l now).1 = Err w → w ≠ IDLE →
  (is_ok (shard_check (shard_check s c l now).2 c l (now + e)).1 = true ↔ w ≤ e).
Proof. apply shard_wait_exact. Qed.

Lemma rejection_wait_is_exact_witness :
  (shard_check demo_shard (V4 1) demo_limit 40000000).1 = Err 60000000 ∧
  (is_ok (shard_check (shard_check demo_shard (V4 1) demo_limit 40000000).2
     (V4 1) demo_limit (40000000 + 60000000)).1 = true ↔ 60000000 ≤ 60000000).
Proof.
  split; [vm_compute; reflexivity|].
  apply (rejection_wait_is_exact demo_limit 0).
  - apply demo_limit_wf.
  - lia.
  - apply demo_shard_wf.
  - lia.
  - vm_compute; reflexivity.
  - vm_compute; congruence.
Defined.

(** Two IPv6 clients that are not IPv4-mapped share a bucket if and only if
    their addresses agree on the configured prefix; a mapped address has the
    key of its IPv4 address, so it never shares with an IPv6 prefix; and a key
    is its own key. *)
Theorem client_key_groups p x y :
  0 ≤ p ≤ 128 → 0 ≤ x < 2 ^ 128 → 0 ≤ y < 2 ^ 128 →
  Z.shiftr x 32 ≠ 65535 → Z.shiftr y 32 ≠ 65535 →
  (client_key (V6 x) p = client_key (V6 y) p ↔
     Z.shiftr x (128 - p) = Z.shiftr y (128 - p))
  ∧ (∀ a, 0 ≤ a < 2 ^ 32 →
       client_key (V6 (65535 * 2 ^ 32 + a)) p = client_key (V4 a) p)
  ∧ client_key (client_key (V6 x) p) p = client_key (V6 x) p.
Proof.
  intros Hp Hx Hy Hnx Hny. rewrite !client_key_V6 by done. split_and!.
  - rewrite <- (shiftl_inj _ _ (128 - p)) by lia. split; congruence.
  - intros a Ha. unfold client_key, to_canonical.
    rewrite Z.shiftr_div_pow2, Z.div_add_l, Z.div_small by lia. simpl (_ =? _).
    cbv iota. f_equal. rewrite Z.add_comm, Z.mod_add by lia. by apply Z.mod_small.
  - pose proof (masked_not_mapped p x Hp Hx Hnx).
    assert (0 ≤ Z.shiftl (Z.shiftr x (128 - p)) (128 - p) < 2 ^ 128).
    { rewrite Z.shiftl_mul_pow2, Z.shiftr_div_pow2 by lia.
      pose proof (Z.pow_pos_nonneg 2 (128 - p) ltac:(lia) ltac:(lia)).
      pose proof (Z.mul_div_le x (2 ^ (128 - p)) ltac:(lia)).
      pose proof (Z.div_pos x (2 ^ (128 - p)) ltac:(lia) ltac:(lia)). nia. }
    rewrite client_key_V6 by done. f_equal. rewrite Z.shiftr_shiftl_l by lia.
    by rewrite Z.sub_diag, Z.shiftl_0_r.
Qed.

Lemma client_key_groups_witness :
  client_key (V6 42540766411282592856903984951653826561) 64 =
    client_key (V6 42540766411282592856903984951653826562) 64.
Proof.
  apply (client_key_groups 64 42540766411282592856903984951653826561
           42540766411282592856903984951653826562).
  all: vm_compute; try (split; congruence); congruence || reflexivity.
Defined.

(** The invariant of a limiter (bounded tables, credits within capacity, no
    time stamp in the future) holds of a new limiter and is kept by every
    request. *)
Theorem limiter_invariant l p h clock t lim evs :
  limit_wf l → 0 ≤ p → (∀ i, clock i ≤ t) →
  with_prefix l p h clock = Some lim → monotone t evs →
  limiter_wf (final_time t evs) (limiter_run lim evs).2.
Proof.
  intros Hl Hp Hc Hnew. pose proof (with_prefix_wf l p h clock t lim Hl Hp Hc Hnew) as Hwf.
  clear Hnew. revert t lim Hc Hwf.
  induction evs as [|[c now] evs IH]; intros t lim Hc Hwf Hm; simpl; [done|].
  destruct Hm as [Hle Hm].
  pose proof (check_with_clock_wf t lim c now Hwf Hle) as Hwf'.
  destruct (check_with_clock lim c now) as [r lim']. simpl in *.
  specialize (IH now lim' ltac:(intros; etrans; eauto) Hwf' Hm).
  by destruct (limiter_run lim' evs).
Qed.

Lemma limiter_invariant_witness :
  limiter_wf (final_time 0 demo_events) (limiter_run demo_limiter demo_events).2.
Proof.
  apply (limiter_invariant demo_limit 64
    (λ a, match a with V4 x => x | V6 x => x end) (λ _, 0) 0).
  - apply demo_limit_wf.
  - lia.
  - done.
  - reflexivity.
  - simpl. lia.
Defined.

End Rate.
