(* ===== verification/Capacity.v ===== *)
(** * In-flight capacity ([Capacity] of [config.rs])

    A capacity bounds the requests in flight, in total through a semaphore and
    per client through a table of counters under a mutex.  [try_acquire] runs
    under the mutex; dropping a permit takes the mutex for the counter and then,
    as a second step, returns the slot to the semaphore, so the two steps of a
    drop interleave with other requests.  The theorems are about every
    interleaving of these steps. *)
From S2P Require Import Prelude Text Net RateLimit.
#[local] Open Scope Z_scope.

Module Cap.

(** The fields copied by [Clone], and the state behind the two [Arc]s. *)
Record Capacity := { max : Z; ipv6_prefix : Z; per_client : Z }.
Record Shared := { permits : Z; clients : gmap IpAddr Z }.

Definition new (max : Z) : Capacity * Shared :=
  ({| max := max; ipv6_prefix := 64; per_client := Z.max (max / 2) 1 |},
   {| permits := max; clients := ∅ |}).

(** [Semaphore::try_acquire_owned] *)
Definition semaphore_acquire (n : Z) : option Z := if 0 <? n then Some (n - 1) else None.

(** A permit is the client key it was counted under. *)
Definition try_acquire (cap : Capacity) (st : Shared) (client : IpAddr) :
    option IpAddr * Shared :=
  let client := Rate.client_key client (ipv6_prefix cap) in
  if per_client cap <=? default 0 (clients st !! client) then (None, st)
  else
    match semaphore_acquire (permits st) with
    | None => (None, st)
    | Some permits' =>
        (Some client,
         {| permits := permits';
            clients := <[client := default 0 (clients st !! client) + 1]> (clients st) |})
    end.

(** [Drop for CapacityPermit]: the counter, with the [u32] decrement. *)
Definition drop_counter (st : Shared) (client : IpAddr) : Shared :=
  match clients st !! client with
  | Some count =>
      let count' := (count - 1) mod 2 ^ 32 in
      {| permits := permits st;
         clients := if count' =? 0 then delete client (clients st)
                    else <[client := count']> (clients st) |}
  | None => st
  end.
(** ... then the field [_permit]. *)
Definition release_slot (st : Shared) : Shared :=
  {| permits := permits st + 1; clients := clients st |}.
Definition drop_permit (st : Shared) (client : IpAddr) : Shared :=
  release_slot (drop_counter st client).

(** ** The system: shared state, permits held, and drops between their steps *)

Record Sys := { shared : Shared; held : list IpAddr; dropping : nat }.

Inductive step (cap : Capacity) : Sys → Sys → Prop :=
| step_acquire st h d client key st' :
    try_acquire cap st client = (Some key, st') →
    step cap {| shared := st; held := h; dropping := d |}
             {| shared := st'; held := key :: h; dropping := d |}
| step_reject st h d client st' :
    try_acquire cap st client = (None, st') →
    step cap {| shared := st; held := h; dropping := d |}
             {| shared := st'; held := h; dropping := d |}
| step_drop st h h' d key :
    h ≡ₚ key :: h' →
    step cap {| shared := st; held := h; dropping := d |}
             {| shared := drop_counter st key; held := h'; dropping := S d |}
| step_release st h d :
    step cap {| shared := st; held := h; dropping := S d |}
             {| shared := release_slot st; held := h; dropping := d |}.

Definition initial (cap : Capacity) : Sys :=
  {| shared := {| permits := max cap; clients := ∅ |}; held := []; dropping := 0 |}.
Definition reachable (cap : Capacity) (s : Sys) : Prop := rtc (step cap) (initial cap) s.

(** Permits held by one client. *)
Definition holds (k : IpAddr) (h : list IpAddr) : Z := Z.of_nat (count_occ IpAddr_eq_dec h k).

(** What [Capacity::new] and the sites built from the configuration satisfy. *)
Definition cap_wf (cap : Capacity) : Prop :=
  1 ≤ max cap ≤ u32_max ∧ 1 ≤ per_client cap ≤ u32_max.

(** The counters are exactly the permits held, and no slot is lost. *)
Definition inv (cap : Capacity) (s : Sys) : Prop :=
  permits (shared s) + Z.of_nat (length (held s)) + Z.of_nat (dropping s) = max cap ∧
  0 ≤ permits (shared s) ∧
  (∀ k, default 0 (clients (shared s) !! k) = holds k (held s)) ∧
  (∀ k n, clients (shared s) !! k = Some n → 0 < n) ∧
  (∀ k, holds k (held s) ≤ per_client cap).

Lemma holds_cons k k' h :
  holds k (k' :: h) = holds k h + (if bool_decide (k' = k) then 1 else 0).
Proof.
  unfold holds. simpl. destruct (IpAddr_eq_dec k' k); case_bool_decide; try done; lia.
Qed.

Lemma holds_perm k h h' : h ≡ₚ h' → holds k h = holds k h'.
Proof.
  intros Hp. unfold holds. f_equal.
  by apply (proj1 (Permutation_count_occ IpAddr_eq_dec h h')).
Qed.

Lemma holds_nonneg k h : 0 ≤ holds k h.
Proof. unfold holds. lia. Qed.

Lemma holds_le_length k h : holds k h ≤ Z.of_nat (length h).
Proof.
  unfold holds. apply inj_le. induction h as [|x h IH]; simpl; [lia|].
  destruct (IpAddr_eq_dec x k); lia.
Qed.

(** The outcomes of an acquisition. *)
Lemma try_acquire_spec cap st client :
  let key := Rate.client_key client (ipv6_prefix cap) in
  try_acquire cap st client =
    if (default 0 (clients st !! key) <? per_client cap) && (0 <? permits st)
    then (Some key,
          {| permits := permits st - 1;
             clients := <[key := default 0 (clients st !! key) + 1]> (clients st) |})
    else (None, st).
Proof.
  intros key. unfold try_acquire, semaphore_acquire. fold key.
  rewrite (Z.ltb_antisym (per_client cap)).
  destruct (per_client cap <=? _); simpl; [done|]. by destruct (0 <? _).
Qed.

Lemma inv_acquire cap st h d client key st' :
  inv cap {| shared := st; held := h; dropping := d |} →
  try_acquire cap st client = (Some key, st') →
  inv cap {| shared := st'; held := key :: h; dropping := d |}.
Proof.
  intros (Hsum & Hpos & Hcnt & Hgt & Hper). rewrite try_acquire_spec. cbv zeta.
  set (k := Rate.client_key _ _). destruct (_ && _) eqn:E; [|done].
  intros [= <- <-]. apply andb_true_iff in E as [E1 E2]. simpl in *.
  pose proof (holds_nonneg k h). split_and!; simpl; [lia|lia|..].
  - intros k'. rewrite holds_cons, lookup_insert, <- (Hcnt k').
    case_decide; case_bool_decide; try congruence; subst; simpl; lia.
  - intros k' n. rewrite lookup_insert. case_decide; [|eauto].
    intros [= <-]. rewrite Hcnt. lia.
  - intros k'. rewrite holds_cons. specialize (Hper k'). specialize (Hcnt k).
    case_bool_decide; subst; lia.
Qed.

Lemma inv_drop cap st h h' d key :
  cap_wf cap → h ≡ₚ key :: h' →
  inv cap {| shared := st; held := h; dropping := d |} →
  inv cap {| shared := drop_counter st key; held := h'; dropping := S d |}.
Proof.
  intros [_ [_ Hpc]] Hp (Hsum & Hpos & Hcnt & Hgt & Hper). simpl in *.
  assert (∀ k, holds k h = holds k h' + (if bool_decide (key = k) then 1 else 0)) as Hh.
  { intros k. by rewrite (holds_perm k _ _ Hp), holds_cons. }
  assert (length h = S (length h')) by (by rewrite Hp).
  pose proof (Hcnt key) as Hck. rewrite Hh, bool_decide_true in Hck by done.
  pose proof (holds_nonneg key h'). pose proof (Hper key) as Hpk.
  unfold drop_counter. destruct (clients st !! key) as [n|] eqn:E; simpl in Hck; [|lia].
  rewrite Z.mod_small by (rewrite Hh, bool_decide_true in Hpk by done; solve_width).
  split_and!; simpl; [lia|lia|..].
  - intros k. specialize (Hcnt k). rewrite Hh in Hcnt.
    destruct (Z.eqb_spec (n - 1) 0).
    + rewrite lookup_delete. case_decide; case_bool_decide; subst; try done; simpl; lia.
    + rewrite lookup_insert. case_decide; case_bool_decide; subst; try done; simpl; lia.
  - intros k m. destruct (Z.eqb_spec (n - 1) 0).
    + rewrite lookup_delete. case_decide; [done|eauto].
    + rewrite lookup_insert. case_decide; [intros [= <-]; lia|eauto].
  - intros k. specialize (Hper k). rewrite Hh in Hper. case_bool_decide; lia.
Qed.

Lemma inv_step cap s s' : cap_wf cap → step cap s s' → inv cap s → inv cap s'.
Proof.
  intros Hwf [st h d c k st' Ha|st h d c st' Ha|st h h' d k Hp|st h d] Hi.
  - by eapply inv_acquire.
  - rewrite try_acquire_spec in Ha. cbv zeta in Ha. case_match; by simplify_eq.
  - by eapply inv_drop.
  - destruct Hi as (? & ? & ? & ? & ?). split_and!; simpl in *; auto; lia.
Qed.

Lemma inv_initial cap : cap_wf cap → inv cap (initial cap).
Proof.
  intros [? ?]. split_and!; simpl; try lia.
  - intros k. by rewrite lookup_empty.
  - intros k n. by rewrite lookup_empty.
  - intros k. unfold holds. simpl. lia.
Qed.

Lemma inv_reachable cap s : cap_wf cap → reachable cap s → inv cap s.
Proof.
  intros Hwf Hr. unfold reachable in Hr. revert Hr. generalize (initial cap), (inv_initial cap Hwf).
  intros s0 H0 Hr. induction Hr; eauto using inv_step.
Qed.

Lemma new_wf n cap st : 1 ≤ n ≤ u32_max → new n = (cap, st) → cap_wf cap.
Proof.
  intros Hn [= <- <-]. unfold cap_wf. simpl. split; [done|].
  pose proof (Z.div_le_upper_bound n 2 n ltac:(lia) ltac:(lia)). lia.
Qed.
#[export] Hint Resolve inv_step inv_initial inv_reachable new_wf : geata.

(** ** Permits held by threads

    When permits are held by the threads of a list, [f] says which permit a thread
    holds and [p] whether it is between the two steps of a drop. *)
Section threads.
Context {T : Type}.
Implicit Types (f : T → option IpAddr) (p : T → bool) (ts : list T).

Definition count (p : T → bool) (ts : list T) : nat := length (List.filter p ts).
Definition balanced (cap : Capacity) (c : Shared) (f : T → option IpAddr) (p : T → bool)
    (ts : list T) : Prop :=
  inv cap {| shared := c; held := omap f ts; dropping := count p ts |}.
Lemma inv_perm cap c h h' d :
  h ≡ₚ h' → inv cap {| shared := c; held := h; dropping := d |} →
  inv cap {| shared := c; held := h'; dropping := d |}.
Proof.
  intros Hp (H1 & H2 & H3 & H4 & H5). simpl in *. split_and!; simpl; [|done| |done|].
  - by rewrite <- Hp.
  - intros k. rewrite H3. by apply holds_perm.
  - intros k. rewrite <- (holds_perm k _ _ Hp). apply H5.
Qed.
Definition bit (b : bool) : nat := if b then 1 else 0.
Lemma balanced_split cap c f p l1 t l2 :
  balanced cap c f p (l1 ++ t :: l2) ↔
  inv cap {| shared := c; held := option_list (f t) ++ omap f (l1 ++ l2);
                 dropping := bit (p t) + count p (l1 ++ l2) |}.
Proof.
  assert (omap f (l1 ++ t :: l2) ≡ₚ option_list (f t) ++ omap f (l1 ++ l2)) as Hp.
  { rewrite !omap_app. simpl. destruct (f t); simpl; [|done]. by rewrite Permutation_middle. }
  assert (count p (l1 ++ t :: l2) = bit (p t) + count p (l1 ++ l2))%nat as Hc.
  { unfold count, bit. rewrite !List.filter_app, !length_app. simpl. destruct (p t); simpl; lia. }
  unfold balanced. rewrite Hc. split; apply inv_perm; by rewrite Hp.
Qed.
(** A thread that changes neither. *)
Lemma balanced_same cap c f p l1 t t' l2 :
  f t' = f t → p t' = p t → balanced cap c f p (l1 ++ t :: l2) → balanced cap c f p (l1 ++ t' :: l2).
Proof. rewrite !balanced_split. by intros -> ->. Qed.
Lemma balanced_acquire cap c c' f p l1 t t' l2 client k :
  f t = None → p t = false → f t' = Some k → p t' = false → try_acquire cap c client = (Some k, c') →
  balanced cap c f p (l1 ++ t :: l2) → balanced cap c' f p (l1 ++ t' :: l2).
Proof. rewrite !balanced_split. intros -> -> -> -> Ha Hi. by eapply inv_acquire. Qed.
Lemma balanced_drop cap c f p l1 t t' l2 k :
  cap_wf cap → f t = Some k → p t = false → f t' = None → p t' = true →
  balanced cap c f p (l1 ++ t :: l2) → balanced cap (drop_counter c k) f p (l1 ++ t' :: l2).
Proof. rewrite !balanced_split. intros Hwf -> -> -> -> Hi. by eapply inv_drop. Qed.
Lemma balanced_release cap c f p l1 t t' l2 :
  cap_wf cap → f t = None → p t = true → f t' = None → p t' = false →
  balanced cap c f p (l1 ++ t :: l2) → balanced cap (release_slot c) f p (l1 ++ t' :: l2).
Proof.
  rewrite !balanced_split. intros Hwf -> -> -> -> Hi. eapply inv_step; [done| |exact Hi].
  apply step_release.
Qed.
Lemma rejected cap c client c' : try_acquire cap c client = (None, c') → c' = c.
Proof. rewrite try_acquire_spec. cbv zeta. destruct (_ && _); by intros [= <-]. Qed.

Lemma balanced_snoc cap c f p ts t :
  f t = None → p t = false → balanced cap c f p ts → balanced cap c f p (ts ++ [t]).
Proof. intros Hf Hp Hb. rewrite balanced_split, Hf, Hp, app_nil_r. exact Hb. Qed.
Lemma count_none (p : T → bool) l : (∀ a, a ∈ l → p a = false) → count p l = 0%nat.
Proof.
  unfold count. induction l as [|a l IH]; simpl; [done|]. intros Hf. rewrite (Hf a) by constructor.
  apply IH. intros. apply Hf. by constructor.
Qed.
End threads.

(** ** Properties *)

(** C31: in every interleaving of acquisitions and drops, at most [max] permits
    are out (those whose drop has not yet returned its slot included), no
    client holds more than [per_client], and the table of counters has an entry
    for exactly the clients that hold a permit, with their number. *)
Theorem capacity_safe cap s :
  cap_wf cap → reachable cap s →
  Z.of_nat (length (held s)) + Z.of_nat (dropping s) ≤ max cap ∧
  ∀ k, holds k (held s) ≤ per_client cap ∧
       clients (shared s) !! k =
         if holds k (held s) =? 0 then None else Some (holds k (held s)).
Proof.
  intros Hwf Hr. destruct (inv_reachable cap s Hwf Hr) as (Hsum & Hpos & Hcnt & Hgt & Hper).
  split; [lia|]. intros k. split; [apply Hper|]. specialize (Hcnt k).
  destruct (clients (shared s) !! k) as [n|] eqn:E; simpl in Hcnt.
  - specialize (Hgt k n E). case_match; [lia|congruence].
  - by rewrite <- Hcnt.
Qed.

Definition demo_cap : Capacity := (new 4).1.
Lemma demo_cap_wf : cap_wf demo_cap.
Proof. repeat split; vm_compute; congruence. Qed.
Definition demo_sys : Sys :=
  {| shared := {| permits := 3; clients := {[ V4 1 := 1 ]} |}; held := [V4 1]; dropping := 0 |}.
Lemma demo_sys_reachable : reachable demo_cap demo_sys.
Proof. eapply rtc_once, (step_acquire demo_cap _ _ _ (V4 1)). reflexivity. Qed.

Lemma capacity_safe_witness :
  Z.of_nat (length (held demo_sys)) + Z.of_nat (dropping demo_sys) ≤ max demo_cap ∧
  ∀ k, holds k (held demo_sys) ≤ per_client demo_cap ∧
       clients (shared demo_sys) !! k =
         if holds k (held demo_sys) =? 0 then None else Some (holds k (held demo_sys)).
Proof. apply (capacity_safe demo_cap demo_sys demo_cap_wf demo_sys_reachable). Defined.

(** An acquisition succeeds if and only if the client is below its share
    and a slot is free; with no drop in progress, a slot is free if and only if
    fewer than [max] permits are held, so no slot is ever lost. *)
Theorem acquire_complete cap s client :
  cap_wf cap → reachable cap s → dropping s = 0%nat →
  let key := Rate.client_key client (ipv6_prefix cap) in
  is_some (try_acquire cap (shared s) client).1 = true ↔
    holds key (held s) < per_client cap ∧ Z.of_nat (length (held s)) < max cap.
Proof.
  intros Hwf Hr Hd key. destruct (inv_reachable cap s Hwf Hr) as (Hsum & Hpos & Hcnt & _).
  rewrite try_acquire_spec. cbv zeta. fold key. rewrite Hcnt.
  destruct (_ && _) eqn:E; simpl; [|rewrite andb_false_iff in E]; split; intros; try done; lia.
Qed.

Lemma acquire_complete_witness :
  is_some (try_acquire demo_cap (shared demo_sys) (V4 1)).1 = true ↔
    holds (V4 1) (held demo_sys) < per_client demo_cap ∧
    Z.of_nat (length (held demo_sys)) < max demo_cap.
Proof.
  apply (acquire_complete demo_cap demo_sys (V4 1) demo_cap_wf demo_sys_reachable).
  reflexivity.
Defined.

(** The share set by [Capacity::new] reserves at least half of a capacity
    above one for other clients: when every permit out belongs to one client, a
    client with another key is admitted. *)
Theorem half_is_reserved n cap st s k client :
  2 ≤ n ≤ u32_max → new n = (cap, st) → reachable cap s → dropping s = 0%nat →
  (∀ k', k' ∈ held s → k' = k) → Rate.client_key client (ipv6_prefix cap) ≠ k →
  is_some (try_acquire cap (shared s) client).1 = true.
Proof.
  intros Hn Hnew Hr Hd Hall Hne.
  assert (cap_wf cap) as Hwf by (eapply new_wf; [|done]; lia).
  destruct (inv_reachable cap s Hwf Hr) as (Hsum & _ & Hcnt & _ & Hper).
  rewrite try_acquire_spec. cbv zeta. set (key := Rate.client_key _ _) in *.
  assert (holds key (held s) = 0) as Hz.
  { unfold holds. rewrite (proj1 (count_occ_not_In IpAddr_eq_dec (held s) key)); [done|].
    intros Hin. apply Hne, Hall. by apply list_elem_of_In. }
  assert (Z.of_nat (length (held s)) = holds k (held s)) as Hlen.
  { unfold holds. f_equal. clear - Hall. induction (held s) as [|x h IH]; [done|].
    simpl. rewrite (Hall x) by set_solver. destruct (IpAddr_eq_dec k k); [|done].
    f_equal. apply IH. set_solver. }
  rewrite Hcnt, Hz. specialize (Hper k). injection Hnew as <- <-. simpl in *.
  assert (n / 2 < n) by (apply Z.div_lt; lia).
  replace (0 <? _) with true by lia. by replace (0 <? _) with true by lia.
Qed.

Lemma half_is_reserved_witness :
  is_some (try_acquire demo_cap (shared demo_sys) (V4 2)).1 = true.
Proof.
  apply (half_is_reserved 4 demo_cap (new 4).2 demo_sys (V4 1) (V4 2)).
  - solve_width.
  - reflexivity.
  - apply demo_sys_reachable.
  - reflexivity.
  - set_solver.
  - vm_compute. congruence.
Defined.

End Cap.
