(* ===== verification/Ledger.v ===== *)
(** * The admission journal of a mint ([payments/ledger.rs])

    The [redb] database of a mint: the payments table, the payout record and
    the version.  A write is one durable transaction: it can fail or be dropped,
    with or without having reached the disk, but never in part.  The theorems
    show that a payment is claimed at most once and that its terms never change,
    whatever fails and however the calls interleave. *)
From S2P Require Import Prelude Text Effects.
#[local] Open Scope string_scope.
#[local] Open Scope list_scope.
#[local] Open Scope Z_scope.

Module Ledg.

(** [payout::PayoutState] *)
Record PayoutState := {
  last_paid : Z;
  retry_at : Z;
  pending : option string
}.
#[export] Instance PayoutState_eq_dec : EqDecision PayoutState.
Proof. solve_decision. Defined.
Definition PayoutState_default : PayoutState :=
  {| last_paid := 0; retry_at := 0; pending := None |}.

Record Ledger := {
  payments : gmap string (string * Z * bool);   (** id to site, price, claimed *)
  payout_row : option PayoutState;
  version : option Z
}.

Inductive Reservation := New | Pending | Claimed | Mismatch.
#[export] Instance Reservation_eq_dec : EqDecision Reservation.
Proof. solve_decision. Defined.

Definition empty : Ledger := {| payments := ∅; payout_row := None; version := None |}.

(** The transaction of [Ledger::open]: an error aborts it. *)
Definition open (db : Ledger) : Ledger * result anyhow unit :=
  match version db with
  | Some v =>
      if v =? 1 then (db, Ok tt) else (db, Err "unsupported payment ledger version")
  | None =>
      if bool_decide (payments db = ∅)
      then ({| payments := payments db; payout_row := payout_row db; version := Some 1 |}, Ok tt)
      else (db, Err "unversioned payment ledger is not empty")
  end.

Definition payout (db : Ledger) : option PayoutState := payout_row db.

Definition save_payout (state : PayoutState) (db : Ledger) : Ledger * unit :=
  ({| payments := payments db; payout_row := Some state; version := version db |}, tt).

Definition set_payments (p : gmap string (string * Z * bool)) (db : Ledger) : Ledger :=
  {| payments := p; payout_row := payout_row db; version := version db |}.

Definition reserve (id site : string) (price : Z) (db : Ledger) : Ledger * Reservation :=
  match (payments db !! id : option (string * Z * bool)) with
  | Some (old_site, old_price, claimed) =>
      if negb (bool_decide (old_site = site)) || negb (old_price =? price)
      then (db, Mismatch)
      else if claimed then (db, Claimed) else (db, Pending)
  | None => (set_payments (<[id := (site, price, false)]> (payments db)) db, New)
  end.

Definition claim (id : string) (db : Ledger) : Ledger * bool :=
  match payments db !! id with
  | Some (site, price, false) =>
      (set_payments (<[id := (site, price, true)]> (payments db)) db, true)
  | _ => (db, false)
  end.

(** ** Histories

    The calls to one journal in the order of their transactions, with the fate
    of each; [Reopen] is a restart of the process. *)

Inductive Op :=
| Reserve (id site : string) (price : Z)
| Claim (id : string)
| SavePayout (state : PayoutState)
| Reopen.

Inductive Reply :=
| Reserved (r : Reservation)
| ClaimReply (b : bool)
| Unit.
#[export] Instance Reply_eq_dec : EqDecision Reply.
Proof. solve_decision. Defined.

Definition exec (op : Op) : M Ledger anyhow Reply :=
  match op with
  | Reserve id site price =>
      r ← durable "storage" (reserve id site price); mret (Reserved r)
  | Claim id => b ← durable "storage" (claim id); mret (ClaimReply b)
  | SavePayout st => _ ← durable "storage" (save_payout st); mret Unit
  | Reopen => r ← durable "storage" open; _ ← lift r; mret Unit
  end.

Fixpoint run (db : Ledger) (h : list (Op * Fate)) :
    list (Op * outcome anyhow Reply) * Ledger :=
  match h with
  | [] => ([], db)
  | (op, fate) :: h' =>
      let '(o, db', _) := exec op db [fate] in
      let '(tr, db'') := run db' h' in ((op, o) :: tr, db'')
  end.

(** ** Invariants *)

(** The lifetime of a payment: unknown, reserved, claimed. *)
Inductive leads : option (string * Z * bool) → option (string * Z * bool) → Prop :=
| leads_refl r : leads r r
| leads_reserve site price b : leads None (Some (site, price, b))
| leads_claim site price : leads (Some (site, price, false)) (Some (site, price, true)).

Lemma leads_trans r1 r2 r3 : leads r1 r2 → leads r2 r3 → leads r1 r3.
Proof. intros H1 H2. destruct H1; inversion H2; subst; constructor. Qed.

Definition grows (db db' : Ledger) : Prop :=
  ∀ id, leads (payments db !! id) (payments db' !! id).

Lemma grows_refl db : grows db db.
Proof. intros id. constructor. Qed.
Lemma grows_trans db1 db2 db3 : grows db1 db2 → grows db2 db3 → grows db1 db3.
Proof. intros H1 H2 id. eapply leads_trans; eauto. Qed.
#[global] Instance grows_preorder : PreOrder grows.
Proof. split; [exact grows_refl|exact grows_trans]. Qed.

Lemma reserve_grows id site price db : grows db (reserve id site price db).1.
Proof.
  unfold reserve. repeat case_match; subst; simpl; try apply grows_refl.
  intros k. simpl. rewrite lookup_insert. case_decide; subst.
  - rewrite H. constructor.
  - constructor.
Qed.

Lemma claim_grows id db : grows db (claim id db).1.
Proof.
  unfold claim. repeat case_match; subst; simpl; try apply grows_refl.
  intros k. simpl. rewrite lookup_insert. case_decide; subst.
  - rewrite H. constructor.
  - constructor.
Qed.

Lemma open_payments db : payments (open db).1 = payments db.
Proof. unfold open. by repeat case_match. Qed.

Lemma open_grows db : grows db (open db).1.
Proof. intros id. rewrite open_payments. constructor. Qed.

Lemma save_payout_grows st db : grows db (save_payout st db).1.
Proof. intros id. constructor. Qed.

Lemma exec_grows op db fs : grows db (exec op db fs).1.2.
Proof.
  revert fs. change (wp (exec op) (λ _ db', grows db db') db).
  destruct op; simpl; repeat wp_step; try intros s' [->| ->]; split_and?;
    auto using grows_refl, reserve_grows, claim_grows, save_payout_grows, open_grows.
Qed.

Lemma run_grows db h : grows db (run db h).2.
Proof.
  revert db. induction h as [|[op fate] h IH]; intros db; simpl; [apply grows_refl|].
  pose proof (exec_grows op db [fate]) as H1.
  destruct (exec op db [fate]) as [[o db'] fs]. simpl in H1.
  specialize (IH db'). destruct (run db' h). simpl in *. by etrans.
Qed.

Definition claimed_at (db : Ledger) (id : string) : bool :=
  match payments db !! id with Some (_, _, true) => true | _ => false end.

Lemma claimed_grows db db' id : grows db db' → claimed_at db id = true → claimed_at db' id = true.
Proof.
  intros Hg. specialize (Hg id). unfold claimed_at.
  destruct Hg as [r|s p b|s p]; done.
Qed.

(** A claim that succeeds found the payment reserved and leaves it claimed. *)
Lemma claim_true id db :
  (claim id db).2 = true → claimed_at db id = false ∧ claimed_at (claim id db).1 id = true.
Proof.
  unfold claim. destruct (payments db !! id) as [[[site price] []]|] eqn:E; simpl; try done.
  intros _. unfold claimed_at. rewrite E. simpl. by rewrite lookup_insert_eq.
Qed.
#[global] Hint Resolve grows_refl reserve_grows claim_grows save_payout_grows open_grows : geata.

(** Claims of [id] that were answered [Ok(true)]. *)
Definition won (id : string) (ev : Op * outcome anyhow Reply) : bool :=
  match ev with
  | (Claim id', Done (ClaimReply true)) => bool_decide (id' = id)
  | _ => false
  end.
#[global] Arguments won : simpl never.
Definition wins (id : string) (tr : list (Op * outcome anyhow Reply)) : nat :=
  length (List.filter (won id) tr).

Lemma exec_won id op db fs :
  won id (op, (exec op db fs).1.1) = true →
  claimed_at db id = false ∧ claimed_at (exec op db fs).1.2 id = true.
Proof.
  revert fs. change (wp (exec op) (λ o db', won id (op, o) = true →
    claimed_at db id = false ∧ claimed_at db' id = true) db).
  unfold won. destruct op as [id' site price|id'|st|]; simpl; repeat wp_step; try done.
  destruct (claim id' db).2 eqn:Hc; [|done].
  intros ->%bool_decide_eq_true. by apply claim_true.
Qed.

Lemma run_wins id db h :
  (wins id (run db h).1 ≤ if claimed_at db id then 0 else 1)%nat.
Proof.
  unfold wins. revert db. induction h as [|[op fate] h IH]; intros db; simpl; [lia|].
  pose proof (exec_won id op db [fate]) as Hw. pose proof (exec_grows op db [fate]) as Hg.
  destruct (exec op db [fate]) as [[o db'] fs]. simpl in *.
  specialize (IH db'). destruct (run db' h) as [tr db'']. simpl in *.
  destruct (won id (op, o)) eqn:E; simpl.
  - destruct (Hw eq_refl) as [-> H1]. rewrite H1 in IH. lia.
  - destruct (claimed_at db id) eqn:E1; [|case_match; lia].
    by rewrite (claimed_grows db db' id Hg E1) in IH.
Qed.

(** ** Properties *)

(** In every history of calls to the journal, with any of them failing or
    dropped before or after its commit and with restarts in between, at most
    one claim of a payment is answered [true]. *)
Theorem claimed_at_most_once db h id : (wins id (run db h).1 ≤ 1)%nat.
Proof. pose proof (run_wins id db h). case_match; lia. Qed.

(** Once a payment is in the journal, its site and price are fixed: after
    any further history a reservation with other terms is answered [Mismatch],
    with the same terms never [New], and with the same terms [Claimed] when the
    payment was claimed. *)
Theorem reservation_is_binding db h id site price b site' price' :
  payments db !! id = Some (site, price, b) →
  let r := (reserve id site' price' (run db h).2).2 in
  (r = Mismatch ↔ site' ≠ site ∨ price' ≠ price) ∧ r ≠ New ∧
  (b = true → site' = site → price' = price → r = Claimed).
Proof.
  intros Hid. pose proof (run_grows db h id) as Hl. rewrite Hid in Hl. cbv zeta.
  unfold reserve.
  assert (∃ b', payments (run db h).2 !! id = Some (site, price, b') ∧ (b = true → b' = true))
    as (b' & -> & Hb) by (inversion Hl; subst; eauto).
  destruct (decide (site = site')) as [<-|Hs], (decide (price = price')) as [<-|Hp].
  1: rewrite bool_decide_true, Z.eqb_refl by done; simpl; destruct b', b;
    try (specialize (Hb eq_refl); done).
  all: try rewrite (bool_decide_false (site = site')) by done; try rewrite (proj2 (Z.eqb_neq _ _) Hp);
    rewrite ?orb_true_r; simpl.
  all: split_and!; [split; [|intros [?|?]]|..]; intros; auto; congruence.
Qed.

Lemma reservation_is_binding_witness :
  let db := (reserve "token" "site" 2 empty).1 in
  let h := [(Claim "token", Dropped true); (Reopen, Proceed)] in
  let r := (reserve "token" "other" 2 (run db h).2).2 in
  (r = Mismatch ↔ "other" ≠ "site" ∨ 2 ≠ 2) ∧ r ≠ New ∧
  (false = true → "other" = "site" → 2 = 2 → r = Claimed).
Proof.
  apply (reservation_is_binding (reserve "token" "site" 2 empty).1 _ "token" "site" 2 false).
  reflexivity.
Defined.

End Ledg.
