(* ===== verification/Cdk.v ===== *)
(** * The wallet of a mint ([cdk], [payments/mod.rs])

    The Cashu wallet library is a parameter: the calls the program makes
    ([CdkCmd]) are answered by any implementation of [Cdk].  A call that is
    dropped, or whose answer is lost, leaves the wallet in a state of the
    implementation's choice.

    [Slot] is what one mint's lock protects: the wallet, the admission journal
    and the fields of [MintWallet]. *)
From S2P Require Import Prelude Text Effects Ledger.
#[local] Open Scope string_scope.
#[local] Open Scope list_scope.
#[local] Open Scope Z_scope.

Module Cdk.

(** ** Data of the library the program reads *)

Inductive Error :=
| TokenAlreadySpent | CouldNotVerifyDleq | DleqProofNotProvided | AmountKey | OtherError.
#[global] Instance Error_eq_dec : EqDecision Error.
Proof. solve_decision. Defined.

Inductive CurrencyUnit := Sat | OtherUnit.
#[global] Instance CurrencyUnit_eq_dec : EqDecision CurrencyUnit.
Proof. solve_decision. Defined.
Inductive PaymentMethod := BOLT11 | OtherMethod.
#[global] Instance PaymentMethod_eq_dec : EqDecision PaymentMethod.
Proof. solve_decision. Defined.
Inductive MintQuoteState := Unpaid | Paid | Issued.
#[global] Instance MintQuoteState_eq_dec : EqDecision MintQuoteState.
Proof. solve_decision. Defined.

(** A parsed [Token]; the accessors that can fail are results. *)
Record Token := {
  tok_unit : option CurrencyUnit;
  tok_mint_url : result unit string;
  tok_value : result unit Z;
  tok_spending_conditions : result unit (list string);
  tok_secrets : list string;
  tok_proofs : list string          (** what [proofs] selects from the keysets *)
}.

Record Transaction := {
  tx_memo : option string;
  tx_completed : bool;              (** [status == Completed] *)
  tx_amount : Z;
  tx_quote_id : option string;
  tx_payment_request : option string;
  tx_unit : CurrencyUnit
}.

Record MintQuote := {
  q_id : string;
  q_request : string;
  q_amount : option Z;
  q_unit : CurrencyUnit;
  q_state : MintQuoteState;
  q_amount_paid : Z;
  q_amount_issued : Z;
  q_used_by_operation : option string;
  q_payment_method : PaymentMethod;
  q_expiry : Z;
  q_updated_at : Z;
  q_amount_mintable : Z
}.
(** [MintQuoteResponse::Bolt11] *)
Record QuoteResponse := {
  r_quote : string; r_request : string; r_amount : option Z; r_unit : option CurrencyUnit;
  r_method : PaymentMethod; r_state : MintQuoteState; r_amount_paid : Z; r_amount_issued : Z;
  r_updated_at : Z; r_expiry : option Z
}.
Record RecoveryReport := { failed : Z; skipped : Z }.
(** A prepared payment: its operation and [total_amount]. *)
Record Prepared := { operation_id : string; total_amount : Z }.

Inductive TransportType := Nostr | HttpPost | OtherTransport.
#[global] Instance TransportType_eq_dec : EqDecision TransportType.
Proof. solve_decision. Defined.
Record Transport := { t_type : TransportType; t_target : string }.
Record PaymentRequest := {
  pr_unit : option CurrencyUnit;
  pr_amount : option Z;
  pr_single_use : option bool;
  pr_mints : list string;
  pr_mint_preferred : option bool;
  pr_supported_methods : list string;
  pr_transports : list Transport
}.

(** ** Calls *)

Inductive CdkCmd : Type → Type :=
| RecoverIncompleteSagas : CdkCmd RecoveryReport
| VerifyTokenDleq (token : Token) : CdkCmd unit
(** [get_mint_keysets], then [Token::proofs] on them *)
| TokenProofs (token : Token) : CdkCmd (result unit (list string))
| GetProofsFee (proofs : list string) : CdkCmd Z
| ListIncoming : CdkCmd (list Transaction)
| ReceiveProofs (proofs : list string) (memo encoded : string) : CdkCmd Z
| TotalBalance : CdkCmd Z
| PrepareSend (amount : Z) : CdkCmd string
| ConfirmSend (operation : string) : CdkCmd string
(** mint quotes *)
| GetMintQuotes : CdkCmd (list MintQuote)
| NewMintQuote (amount : Z) : CdkCmd MintQuote
| GetMintQuote (id : string) : CdkCmd (option MintQuote)
| CheckMintQuoteStatus (id : string) : CdkCmd MintQuote
| Mint (id : string) : CdkCmd unit
| RemoveMintQuote (id : string) : CdkCmd unit
| GetUnissuedMintQuotes : CdkCmd (list MintQuote)
| GetMintQuoteStatus (id : string) : CdkCmd (option QuoteResponse)
(** payouts *)
| PreparePayRequest (request : PaymentRequest) (amount : Z) : CdkCmd Prepared
| Cancel (operation : string) : CdkCmd unit
| Confirm (operation : string) : CdkCmd unit
| RevokeSend (operation : string) : CdkCmd unit
| GetSaga (operation : string) : CdkCmd bool
| GetPendingSends : CdkCmd (list string).

Class Lib (W : Type) := {
  wallet_call : ∀ X, CdkCmd X → W → W * result Error X;
  (** the wallet after a call that was cut off before or after it took effect *)
  wallet_cut : ∀ X, CdkCmd X → bool → W → W;
  (** [Token::from_str], [PaymentRequest::from_str] *)
  token_from_str : string → option Token;
  request_from_str : string → option PaymentRequest;
  (** the operation ID of a string, as [parse] accepts it *)
  operation_ok : string → bool
}.

(** ** What one mint's lock protects *)

(** A call that matters to the theorems, with its answer. *)
Inductive Event :=
| Received (memo : string) (amount : Z)
| SawTransaction (memo : string) (amount : Z)
| ConfirmSent (operation : string)
| ConfirmDone (operation : string)
| SagaGone (operation : string).

#[global] Instance Event_eq_dec : EqDecision Event.
Proof. solve_decision. Defined.

Record Slot (W : Type) := {
  is_open : bool;                     (** the guard holds [Some] *)
  needs_recovery : bool;
  deposit_cursor : option string;
  ledger : Ledg.Ledger;
  wallet : W;
  trace : list Event                  (** history of the calls above *)
}.
Arguments is_open {W} s. Arguments needs_recovery {W} s. Arguments deposit_cursor {W} s.
Arguments ledger {W} s. Arguments wallet {W} s. Arguments trace {W} s.

Section slot.
Context {W : Type} `{Lib W}.

Definition set_open (o : bool) (s : Slot W) : Slot W :=
  {| is_open := o; needs_recovery := needs_recovery s; deposit_cursor := deposit_cursor s;
     ledger := ledger s; wallet := wallet s; trace := trace s |}.
Definition set_needs_recovery (b : bool) (s : Slot W) : Slot W :=
  {| is_open := is_open s; needs_recovery := b; deposit_cursor := deposit_cursor s;
     ledger := ledger s; wallet := wallet s; trace := trace s |}.
Definition set_deposit_cursor (c : option string) (s : Slot W) : Slot W :=
  {| is_open := is_open s; needs_recovery := needs_recovery s; deposit_cursor := c;
     ledger := ledger s; wallet := wallet s; trace := trace s |}.
Definition set_ledger (l : Ledg.Ledger) (s : Slot W) : Slot W :=
  {| is_open := is_open s; needs_recovery := needs_recovery s; deposit_cursor := deposit_cursor s;
     ledger := l; wallet := wallet s; trace := trace s |}.
Definition set_wallet (w : W) (evs : list Event) (s : Slot W) : Slot W :=
  {| is_open := is_open s; needs_recovery := needs_recovery s; deposit_cursor := deposit_cursor s;
     ledger := ledger s; wallet := w; trace := trace s ++ evs |}.

(** The process ends: memory is lost, the files stay. *)
Definition restarted (s : Slot W) : Slot W :=
  {| is_open := false; needs_recovery := false; deposit_cursor := None;
     ledger := ledger s; wallet := wallet s; trace := trace s |}.

(** What a call adds to the history when it is made, and when it is answered. *)
Definition on_call {X} (c : CdkCmd X) : list Event :=
  match c with Confirm op => [ConfirmSent op] | _ => [] end.
Definition on_answer {X} (c : CdkCmd X) : X → list Event :=
  match c with
  | ReceiveProofs _ memo _ => λ amount, [Received memo amount]
  | ListIncoming => λ txs, omap (λ t, match tx_memo t, tx_completed t with
                                      | Some m, true => Some (SawTransaction m (tx_amount t))
                                      | _, _ => None end) txs
  | Confirm op => λ _, [ConfirmDone op]
  | GetSaga op => λ found, if found : bool then [] else [SagaGone op]
  | _ => λ _, []
  end.

(** A call to the wallet: it can also be cut off. *)
Definition cdk {X} (c : CdkCmd X) : M (Slot W) Error X :=
  remote OtherError
    (λ b s, set_wallet (wallet_cut X c b (wallet s)) (on_call c) s)
    (λ s, let '(w, r) := wallet_call X c (wallet s) in
          (set_wallet w (on_call c ++ match r with Ok x => on_answer c x | Err _ => [] end) s, r)).

(** A transaction on the journal. *)
Definition on_ledger {A} (f : Ledg.Ledger → Ledg.Ledger * A) : M (Slot W) anyhow A :=
  durable "storage" (λ s, let '(l, a) := f (ledger s) in (set_ledger l s, a)).
End slot.

End Cdk.
