(* ===== verification/Terms.v ===== *)
(** * Cashu payment terms ([payments/mod.rs], policy and mint address)

    [PaymentPolicy] and the address checks of a mint. *)
From S2P Require Import Prelude Text Net Extern.
#[local] Open Scope string_scope.
#[local] Open Scope list_scope.
#[local] Open Scope Z_scope.

Module Terms.

Section terms.
Context `{UrlLib, MintUrlLib}.

(** The closure [loopback] of [parse_mint] and [validate_http_target]. *)
Definition url_loopback (url : Url) : bool :=
  is_some_and (λ host,
    bool_decide (host = "localhost") ||
    is_some_and is_loopback (parse_ip (trim_by is_bracket host))) (url_host_str url).

Definition parse_mint (value : string) : result anyhow string :=
  url ← map_err (λ _, "invalid Cashu mint URL") (url_parse value);
  _ ← ensure (bool_decide (url_scheme url = "https") ||
              (bool_decide (url_scheme url = "http") && url_loopback url))
        "Cashu mint must use HTTPS (HTTP is allowed for loopback tests)";
  _ ← ensure (is_some (url_host_str url) && bool_decide (url_username url = "")
              && is_none (url_password url) && is_none (url_query url)
              && is_none (url_fragment url))
        "Cashu mint URL must not contain credentials, query, or fragment";
  mint_url_from_str (url_as_str url).

Record PaymentPolicy := { price : Z; mint : string }.

Definition PaymentPolicy_parse (price unit mint : string) : result anyhow PaymentPolicy :=
  price ← ok_or "payment price must be a positive integer"
    (opt_filter (λ n, 0 <? n) (ok (parse_u32 price)));
  _ ← ensure (bool_decide (unit = "sat")) "payments currently support sat only";
  mint ← parse_mint mint;
  mret {| price := price; mint := mint |}.

Lemma PaymentPolicy_parse_price p u m pol :
  PaymentPolicy_parse p u m = Ok pol → 1 ≤ price pol ≤ u32_max.
Proof.
  unfold PaymentPolicy_parse, parse_u32. intros Hp.
  destruct (parse_int _ _ _) as [n|] eqn:Hn; inv_ok; simpl in *; simplify_eq.
  apply parse_int_bound in Hn; simpl in *; solve_width.
Qed.
End terms.

End Terms.
