(* ===== verification/LnPolicy.v ===== *)
(** * Lightning policies and request binding ([payments/lightning/mod.rs])

    Receivers, protocols, the policy of a site with its validation, the payment
    requirements it advertises, and the hash that binds a payment to one HTTP
    request. *)
From S2P Require Import Prelude Text Net Extern Models Terms.
#[local] Open Scope string_scope.
#[local] Open Scope list_scope.
#[local] Open Scope Z_scope.

Module Ln.

Definition MAINNET : string := "lnbtc:000000000019d6689c085ae165831e93".
Definition TESTNET : string := "lnbtc:000000000933ea01ad0ee984209779ba".
Definition SKEW : Z := 60.
Definition QUOTE_PRUNE_GRACE : Z := SKEW + 3600.
Definition MAX_CHALLENGE_RECORDS : Z := 10000.
Definition MAX_PAYMENT_HEADER : nat := 24 * 1024.
Definition MAX_BODY : Z := 64 * 1024.

Record LdkReceiverConfig := {
  endpoint : string;
  macaroon_file : string;
  tls_cert_file : string;
  pay_to : string;
  ldk_network : string;
  expiry_seconds : Z
}.

Inductive ReceiverConfig :=
| Ldk (node : LdkReceiverConfig)
| Cashu (mint network : string).

Definition network (r : ReceiverConfig) : string :=
  match r with Ldk node => ldk_network node | Cashu _ network => network end.
Definition ldk (r : ReceiverConfig) : option LdkReceiverConfig :=
  match r with Ldk node => Some node | _ => None end.
Definition mint_of (r : ReceiverConfig) : option string :=
  match r with Cashu mint _ => Some mint | _ => None end.

Record Protocols := { x402 : bool; l402 : bool }.
Definition Protocols_default : Protocols := {| x402 := true; l402 := false |}.

Record Policy := {
  amount_msat : Z;
  receiver : ReceiverConfig;
  origin : string;
  headers : list string;
  protocols : Protocols
}.

(** ** Protocol selection *)

Fixpoint add_protocols (p : Protocols) (names : list string) : result anyhow Protocols :=
  match names with
  | [] => Ok p
  | name :: names' =>
      if bool_decide (name = "x402") then
        _ ← ensure (negb (x402 p)) ("duplicate Lightning protocol: " +:+ name);
        add_protocols {| x402 := true; l402 := l402 p |} names'
      else if bool_decide (name = "l402") then
        _ ← ensure (negb (l402 p)) ("duplicate Lightning protocol: " +:+ name);
        add_protocols {| x402 := x402 p; l402 := true |} names'
      else Err ("unknown Lightning protocol: " +:+ name)
  end.

Definition Protocols_parse (names : list string) : result anyhow Protocols :=
  _ ← ensure (negb (bool_decide (names = []))) "lightning_protocols requires x402, l402, or both";
  add_protocols {| x402 := false; l402 := false |} names.

(** ** Hexadecimal *)

Definition lowercase_hex (value : string) : bool :=
  bytes_all (λ b, is_ascii_digit b || in_range 97 102 (byte_val b)) value.

Definition hex (bytes : string) : string := hex_bytes (Text.bytes bytes).

(** The loop of [decode_hash]: [u8::from_str_radix] on each pair. *)
Fixpoint decode_pairs (s : string) : result anyhow string :=
  match s with
  | String a (String b s') =>
      match hex_value a, hex_value b with
      | Some x, Some y => rest ← decode_pairs s'; mret (String (byte_of (x * 16 + y)) rest)
      | _, _ => Err (ParseIntError_to_string InvalidDigit)
      end
  | _ => Ok ""
  end.

Definition decode_hash (value : string) : result anyhow string :=
  _ ← ensure ((slen value =? 64)%nat && lowercase_hex value) "invalid 32-byte lowercase hash";
  decode_pairs value.

(** *** Round trip *)

Lemma hex_app a b : hex (a +:+ b) = hex a +:+ hex b.
Proof. unfold hex. induction a as [|c a IH]; simpl; [done|]. by rewrite IH. Qed.

Lemma hex_byte_facts b :
  (∃ x y, hex_value (hex_digit (byte_val b / 16)) = Some x ∧
          hex_value (hex_digit (byte_val b mod 16)) = Some y ∧ byte_of (x * 16 + y) = b) ∧
  lowercase_hex (hex_byte b) = true.
Proof. destruct b as [[] [] [] [] [] [] [] []]; vm_compute; split; eauto. Qed.

Lemma decode_pairs_hex s : decode_pairs (hex s) = Ok s.
Proof.
  induction s as [|b s IH]; [done|]. change (hex (String b s)) with (hex_byte b +:+ hex s).
  destruct (hex_byte_facts b) as [(x & y & Hx & Hy & Hb) _].
  simpl. rewrite Hx, Hy, IH. simpl. by rewrite Hb.
Qed.

Lemma hex_inj a b : hex a = hex b → a = b.
Proof. intros E. pose proof (decode_pairs_hex a) as Ha. rewrite E, decode_pairs_hex in Ha. by injection Ha. Qed.

Lemma slen_hex s : slen (hex s) = (2 * slen s)%nat.
Proof. induction s as [|b s IH]; [done|]. simpl. unfold hex in IH. rewrite IH. lia. Qed.

Lemma lowercase_hex_hex s : lowercase_hex (hex s) = true.
Proof.
  induction s as [|b s IH]; [done|]. change (hex (String b s)) with (hex_byte b +:+ hex s).
  destruct (hex_byte_facts b) as [_ Hb]. unfold lowercase_hex in *. simpl in *.
  rewrite !andb_true_iff in *. intuition.
Qed.

(** [decode_hash] accepts exactly the encodings of 32-byte strings. *)
Lemma decode_hash_hex s : slen s = 32%nat → decode_hash (hex s) = Ok s.
Proof.
  intros Hs. unfold decode_hash. rewrite slen_hex, Hs, lowercase_hex_hex. apply decode_pairs_hex.
Qed.

Lemma hex_digit_value a x :
  lowercase_hex (String a "") = true → hex_value a = Some x → hex_digit x = a ∧ 0 ≤ x < 16.
Proof.
  destruct a as [[] [] [] [] [] [] [] []]; vm_compute; intros Ha Hx; try discriminate Ha;
    injection Hx as <-; repeat split; discriminate.
Qed.

Lemma byte_val_of x : 0 ≤ x < 256 → byte_val (byte_of x) = x.
Proof. intros. unfold byte_val, byte_of. rewrite Ascii.nat_ascii_embedding; lia. Qed.

Lemma hex_pair a b x y :
  lowercase_hex (String a (String b "")) = true → hex_value a = Some x → hex_value b = Some y →
  hex_byte (byte_of (x * 16 + y)) = String a (String b "").
Proof.
  intros Hl Ha Hb. unfold lowercase_hex in Hl. simpl in Hl. rewrite !andb_true_r in Hl.
  apply andb_true_iff in Hl as [La Lb].
  apply hex_digit_value in Ha as [<- Hx]; [|unfold lowercase_hex; simpl; by rewrite La].
  apply hex_digit_value in Hb as [<- Hy]; [|unfold lowercase_hex; simpl; by rewrite Lb].
  unfold hex_byte. rewrite byte_val_of by lia.
  replace ((x * 16 + y) / 16) with x by (Z.to_euclidean_division_equations; lia).
  by replace ((x * 16 + y) mod 16) with y by (Z.to_euclidean_division_equations; lia).
Qed.

Lemma hex_decode_pairs n s b :
  (slen s <= 2 * n)%nat → Nat.even (slen s) = true → lowercase_hex s = true →
  decode_pairs s = Ok b → hex b = s.
Proof.
  revert s b. induction n as [|n IH]; intros [|x [|y s]] b Hn He Hl Hd; simpl in Hn, He;
    try lia; try discriminate; simpl in Hd; inv_ok; subst; try done.
  destruct (hex_value x) as [vx|] eqn:Hx, (hex_value y) as [vy|] eqn:Hy; inv_ok; try done; subst.
  change (lowercase_hex (String x (String y s))) with
    (bytes_all (λ b, is_ascii_digit b || in_range 97 102 (byte_val b)) (String x (String y s))) in Hl.
  cbn [bytes_all] in Hl. rewrite !andb_true_iff in Hl. destruct Hl as (L1 & L2 & L3).
  change (hex (String ?c ?r)) with (hex_byte c +:+ hex r).
  rewrite (hex_pair x y) by (auto; unfold lowercase_hex; cbn [bytes_all]; by rewrite L1, L2).
  rewrite (IH s) by (auto; lia). done.
Qed.

(** What [decode_hash] accepts is the lower-case encoding of its result. *)
Lemma hex_decode_hash v b : decode_hash v = Ok b → hex b = v ∧ slen b = 32%nat.
Proof.
  unfold decode_hash. intros Hd. inv_ok.
  match goal with Hl : (slen v =? 64)%nat = true |- _ => apply Nat.eqb_eq in Hl as Hlen end.
  assert (hex b = v) as Hb by (eapply (hex_decode_pairs 32); eauto; rewrite Hlen; done || lia).
  split; [done|]. rewrite <- Hb, slen_hex in Hlen. lia.
Qed.

Definition is_network (s : string) : bool :=
  bool_decide (s = MAINNET) || bool_decide (s = TESTNET).

(** [Path::is_absolute] on Unix. *)
Definition is_absolute (path : string) : bool := starts_with "/" path.

Section policy.
Context `{UrlLib, MintUrlLib, Secp, HttpLib}.

Definition LdkReceiverConfig_validate (node : LdkReceiverConfig) : result anyhow unit :=
  url ← url_parse (endpoint node);
  _ ← ensure (bool_decide (url_scheme url = "https") && is_some (url_host_str url)
              && bool_decide (url_username url = "") && is_none (url_password url)
              && is_none (url_query url) && is_none (url_fragment url)
              && bool_decide (url_path url = "/"))
        "ldk-server endpoint must be an HTTPS origin";
  _ ← ensure (is_absolute (macaroon_file node) && is_absolute (tls_cert_file node))
        "receiver credential paths must be absolute";
  _ ← ensure (is_network (ldk_network node)) "x402 Lightning supports mainnet or testnet only";
  _ ← ensure ((slen (pay_to node) =? 66)%nat && lowercase_hex (pay_to node)
              && public_key_ok (pay_to node))
        "pay_to must be a compressed lowercase node public key";
  ensure ((0 <? expiry_seconds node) && (expiry_seconds node <=? 86400))
    "invoice expiry must be 1..86400 seconds".

Definition ReceiverConfig_validate (r : ReceiverConfig) : result anyhow unit :=
  match r with
  | Ldk node => LdkReceiverConfig_validate node
  | Cashu mint network =>
      _ ← Terms.parse_mint mint;
      ensure (is_network network) "unsupported mint network"
  end.

(** ** Receiver blocks of the configuration *)

Definition receiver_setting (k : string) : bool :=
  bool_decide (k ∈ ["mint"; "endpoint"; "macaroon_file"; "tls_cert_file"; "pay_to";
                    "network"; "expiry_seconds"]).

(** The loop over [chunks_exact(2)]; the caller checked that the length is even. *)
Fixpoint receiver_fields (fields : gmap string string) (args : list string) :
    result anyhow (gmap string string) :=
  match args with
  | k :: v :: args' =>
      _ ← ensure (receiver_setting k) ("unknown Lightning receiver setting: " +:+ k);
      _ ← ensure (is_none (fields !! k)) ("duplicate Lightning receiver setting: " +:+ k);
      receiver_fields (<[k := v]> fields) args'
  | _ => Ok fields
  end.

Definition required (fields : gmap string string) (key : string) : result anyhow string :=
  ok_or ("missing Lightning receiver setting: " +:+ key) (fields !! key).

Definition parse_network (name : string) : result anyhow string :=
  if bool_decide (name = "mainnet") then Ok MAINNET
  else if bool_decide (name = "testnet") then Ok TESTNET
  else Err "Lightning network must be mainnet or testnet".

Definition ReceiverConfig_parse (args : list string) : result anyhow ReceiverConfig :=
  _ ← ensure (Nat.even (length args)) "Lightning receiver settings need a name and value";
  fields ← receiver_fields ∅ args;
  name ← required fields "network";
  network ← parse_network name;
  match fields !! "mint" with
  | Some mint =>
      _ ← ensure (bool_decide (map_Forall (λ key _, key = "mint" ∨ key = "network") fields))
            "Cashu receivers accept only mint and network; do not mix LDK settings";
      mint ← Terms.parse_mint mint;
      mret (Cashu mint network)
  | None =>
      endpoint ← required fields "endpoint";
      macaroon_file ← required fields "macaroon_file";
      tls_cert_file ← required fields "tls_cert_file";
      pay_to ← required fields "pay_to";
      expiry ← match fields !! "expiry_seconds" with
               | None => Ok 300
               | Some value => map_err ParseIntError_to_string (parse_u32 value)
               end;
      let node := {| endpoint := endpoint; macaroon_file := macaroon_file;
                     tls_cert_file := tls_cert_file; pay_to := pay_to;
                     ldk_network := network; expiry_seconds := expiry |} in
      _ ← LdkReceiverConfig_validate node;
      mret (Ldk node)
  end.

(** ** The policy of a site *)

Definition binding_profile (p : Policy) : string :=
  if bool_decide (headers p = []) then "http:1" else "geata:http:2".

(** [windows(2).all(|p| p[0] < p[1])] *)
Fixpoint strictly_sorted (l : list string) : bool :=
  match l with
  | a :: ((b :: _) as l') => str_ltb a b && strictly_sorted l'
  | _ => true
  end.

Definition reserved_header (name : string) : bool :=
  bool_decide (name ∈ ["payment-signature"; "x-cashu"; "connection"; "transfer-encoding";
                       "trailer"]).

Definition validate_binding (p : Policy) : result anyhow unit :=
  _ ← ensure (is_none (mint_of (receiver p)) || (l402 (protocols p) && negb (x402 (protocols p))))
        "Cashu receivers require lightning_protocols l402; Lightning x402 requires LDK Server";
  _ ← ensure (negb (l402 (protocols p)) || negb (bool_decide ("authorization" ∈ headers p)))
        "L402 reserves Authorization for payment; remove authorization from lightning_headers and use a bound cookie or custom header for backend authentication";
  url ← url_parse (origin p);
  _ ← ensure ((bool_decide (url_scheme url = "http") || bool_decide (url_scheme url = "https"))
              && is_some (url_host_str url) && bool_decide (url_username url = "")
              && is_none (url_password url) && is_none (url_query url)
              && is_none (url_fragment url) && bool_decide (url_path url = "/")
              && bool_decide (origin p = url_origin url))
        "origin must be a canonical HTTP(S) origin without trailing slash";
  _ ← ensure (strictly_sorted (headers p)) "bound headers must be sorted and unique";
  ensure (forallb (λ name, bool_decide (name = to_ascii_lowercase name) && header_name_ok name
                           && negb (reserved_header name)) (headers p))
    "invalid bound header name".

Definition Policy_new (price unit : string) (receiver : ReceiverConfig) (origin : string)
    (headers : list string) (protocols : Protocols) : result anyhow Policy :=
  _ ← ensure (negb (bool_decide (price = "")) && bytes_all is_ascii_digit price)
        "Lightning price must be a positive integer";
  price ← map_err ParseIntError_to_string (parse_u64 price);
  _ ← ensure ((0 <? price) && bool_decide (unit = "sat"))
        "Lightning price must use positive whole sats";
  _ ← ReceiverConfig_validate receiver;
  amount ← ok_or "Lightning price overflow" (u64_checked_mul price 1000);
  let policy := {| amount_msat := amount; receiver := receiver; origin := origin;
                   headers := headers; protocols := protocols |} in
  _ ← validate_binding policy;
  mret policy.

Definition check_site (p : Policy) (domain : string) (https : bool) : result anyhow unit :=
  url ← url_parse (origin p);
  ensure (bool_decide (url_host_str url = Some domain)
          && Bool.eqb (bool_decide (url_scheme url = "https")) https)
    "Lightning origin must match its Geata site".
End policy.

(** ** Payment requirements *)

Record BindingParams := { bound_names : list string }.
#[export] Instance BindingParams_eq_dec : EqDecision BindingParams.
Proof. solve_decision. Defined.

Record Extra := {
  asset_transfer_method : option string;
  payment_flow : string;
  extra_request_hash : string;
  request_binding_profile : string;
  request_binding_params : BindingParams;
  invoice : string
}.
#[export] Instance Extra_eq_dec : EqDecision Extra.
Proof. solve_decision. Defined.

Record Requirements := {
  scheme : string;
  req_network : string;
  amount : string;
  asset : string;
  req_pay_to : string;
  max_timeout_seconds : Z;
  extra : Extra
}.
#[export] Instance Requirements_eq_dec : EqDecision Requirements.
Proof. solve_decision. Defined.

Definition requirements (p : Policy) (hash invoice : string) : Requirements :=
  {| scheme := "exact";
     req_network := network (receiver p);
     amount := show (amount_msat p);
     asset := "BTC";
     req_pay_to := default "" (pay_to <$> ldk (receiver p));
     max_timeout_seconds := default 0 (expiry_seconds <$> ldk (receiver p));
     extra := {| asset_transfer_method := Some "bolt11";
                 payment_flow := "upfront";
                 extra_request_hash := hash;
                 request_binding_profile := binding_profile p;
                 request_binding_params := {| bound_names := headers p |};
                 invoice := invoice |} |}.

(** ** Request binding *)

(** A [HeaderMap]: lower-case names with values, in order of insertion. *)
Abbreviation HeaderMap := (list (string * string)) (only parsing).
Definition get_all (name : string) (hs : HeaderMap) : list string :=
  map snd (List.filter (λ nv, bool_decide (nv.1 = name)) hs).

Section binding.
Context `{Sha256, HttpLib, JsonLib}.

Definition digest (bytes : string) : string := hex (sha256 bytes).

(** The values of one bound header. *)
Fixpoint bound_values (raw : list string) : result anyhow (list string) :=
  match raw with
  | [] => Ok []
  | v :: raw' =>
      value ← ok_or "failed to convert header to a str" (header_to_str v);
      _ ← ensure (bytes_all (λ b, (byte_val b =? 9) || in_range 32 126 (byte_val b)) value)
            "unsupported bound header value";
      rest ← bound_values raw';
      mret (value :: rest)
  end.

Fixpoint bound_headers (names : list string) (hs : HeaderMap) :
    result anyhow (list (string * string)) :=
  match names with
  | [] => Ok []
  | name :: names' =>
      values ← bound_values (get_all name hs);
      rest ← bound_headers names' hs;
      mret ((name, digest (json_strings values)) :: rest)
  end.

Definition request_hash (p : Policy) (method url : string) (hs : HeaderMap) (body : string) :
    result anyhow string :=
  _ ← ensure (str_is_ascii url && starts_with (origin p +:+ "/") url && negb (contains "#" url))
        "request origin mismatch";
  bound ← bound_headers (headers p) hs;
  mret (digest (json_binding ("x402:exact:lnbtc:bolt11:" +:+ binding_profile p) method url
                  (digest body) bound)).

(** *** What a request hash commits to *)

(** The strings [request_hash] gives to SHA-256. *)
Definition hashed_strings (p : Policy) (method url : string) (hs : HeaderMap) (body : string) :
    list string :=
  body :: map (λ name, json_strings (get_all name hs)) (headers p) ++
  match bound_headers (headers p) hs with
  | Ok bound => [json_binding ("x402:exact:lnbtc:bolt11:" +:+ binding_profile p) method url
                   (digest body) bound]
  | Err _ => []
  end.

(** SHA-256 has no collision among the strings of a list. *)
Definition collision_free (l : list string) : Prop :=
  ∀ a b, a ∈ l → b ∈ l → sha256 a = sha256 b → a = b.

Lemma collision_free_sub l l' : (∀ x, x ∈ l' → x ∈ l) → collision_free l → collision_free l'.
Proof. unfold collision_free. auto. Qed.

Lemma digest_inj l a b :
  collision_free l → a ∈ l → b ∈ l → digest a = digest b → a = b.
Proof. intros Hl Ha Hb E. apply Hl; auto. by apply hex_inj. Qed.

Context `{!HttpLaws, !JsonLaws}.

Lemma bound_values_id raw values : bound_values raw = Ok values → values = raw.
Proof.
  revert values. induction raw as [|v raw IH]; simpl; intros values Hb; inv_ok; [done|].
  subst. f_equal; [by eapply header_to_str_id|auto].
Qed.

Lemma bound_headers_spec names hs bound :
  bound_headers names hs = Ok bound →
  bound = map (λ name, (name, digest (json_strings (get_all name hs)))) names.
Proof.
  revert bound. induction names as [|n names IH]; simpl; intros bound Hb; inv_ok; [done|].
  subst. f_equal; [|by auto]. do 2 f_equal.
  eapply f_equal, bound_values_id. eassumption.
Qed.

Lemma bound_map_inj l names hs hs' names' :
  collision_free l →
  (∀ n, n ∈ names → json_strings (get_all n hs) ∈ l) →
  (∀ n, n ∈ names' → json_strings (get_all n hs') ∈ l) →
  map (λ n, (n, digest (json_strings (get_all n hs)))) names =
  map (λ n, (n, digest (json_strings (get_all n hs')))) names' →
  names = names' ∧ ∀ n, n ∈ names → get_all n hs = get_all n hs'.
Proof.
  intros Hl. revert names'.
  induction names as [|n names IH]; intros [|n' names'] Hi Hj E; simplify_eq/=.
  { split; [done|]. intros n Hn. set_solver. }
  destruct (IH names') as [-> Hall]; [set_solver|set_solver|done|].
  assert (get_all n' hs = get_all n' hs') as Hv.
  { apply json_strings_inj. eapply digest_inj; eauto; set_solver. }
  split; [done|]. intros m Hm. apply elem_of_cons in Hm as [->|Hm]; auto.
Qed.

(** C23: a request hash commits to the request.  When two requests, under any two
    policies, have the same hash, and SHA-256 does not collide on the strings they
    hash, then method, URL, body and the names of the bound headers agree, and
    every bound header has the same values in the same order. *)
Theorem request_hash_binds p method url hs body p' method' url' hs' body' h :
  request_hash p method url hs body = Ok h →
  request_hash p' method' url' hs' body' = Ok h →
  collision_free (hashed_strings p method url hs body ++ hashed_strings p' method' url' hs' body') →
  method = method' ∧ url = url' ∧ body = body' ∧ headers p = headers p' ∧
  ∀ name, name ∈ headers p → get_all name hs = get_all name hs'.
Proof.
  unfold request_hash, hashed_strings. intros R1 R2 Hc.
  apply bind_Ok in R1 as (? & _ & R1). apply bind_Ok in R2 as (? & _ & R2).
  apply bind_Ok in R1 as (b1 & E1 & R1). apply bind_Ok in R2 as (b2 & E2 & R2).
  rewrite E1, E2 in Hc. unfold mret, result_ret in R1, R2.
  injection R1 as <-. injection R2 as R2.
  eapply digest_inj in R2; [|exact Hc|set_solver|set_solver].
  apply json_binding_inj in R2 as (_ & Hm & Hu & Hbody & Hb).
  eapply digest_inj in Hbody; [|exact Hc|set_solver|set_solver].
  apply bound_headers_spec in E1. apply bound_headers_spec in E2. rewrite Hb, E1 in E2.
  eapply bound_map_inj in E2 as [Hn Hv]; [|exact Hc|..]; [by auto| |].
  all: intros n Hn; rewrite ?elem_of_app, ?elem_of_cons, ?elem_of_app, ?list_elem_of_fmap; eauto 10.
Qed.
End binding.

Import Toy.

(** A paid site with one bound header, for the examples. *)
Definition example_policy : Policy :=
  {| amount_msat := 21000;
     receiver := Ldk {| endpoint := "https://node:3536"; macaroon_file := "/m"; tls_cert_file := "/c";
                        pay_to := "02aa"; ldk_network := MAINNET; expiry_seconds := 300 |};
     origin := "https://api.example.com";
     headers := ["cookie"];
     protocols := {| x402 := true; l402 := true |} |}.

Lemma request_hash_binds_witness :
  let H := Toy.sha256_id in
  ∃ h, request_hash example_policy "GET" "https://api.example.com/a" [("cookie", "x"); ("b", "1")] "" = Ok h ∧
  request_hash example_policy "GET" "https://api.example.com/a" [("b", "2"); ("cookie", "x")] "" = Ok h ∧
  get_all "cookie" [("cookie", "x"); ("b", "1")] = get_all "cookie" [("b", "2"); ("cookie", "x")].
Proof.
  intros H. eexists. split; [vm_compute; reflexivity|]. split; [vm_compute; reflexivity|].
  eapply (request_hash_binds (H := H) example_policy "GET" "https://api.example.com/a"
           [("cookie", "x"); ("b", "1")] "" example_policy "GET" "https://api.example.com/a"
           [("b", "2"); ("cookie", "x")] "").
  - vm_compute. reflexivity.
  - vm_compute. reflexivity.
  - intros a b _ _ E. exact E.
  - left.
Defined.

End Ln.
