(* ===== verification/Payments.v ===== *)
(** * Cashu admission ([payments/mod.rs])

    The wallet of a mint behind its lock: opening, recovery, and the redemption
    of a token for one request.  A call runs under the lock of its mint, so the
    calls to one mint happen one after the other; each can fail at any step or be
    dropped there ([M] of [Effects]). *)
From S2P Require Import Prelude Text Sweep Net Effects Extern Models Ledger Cdk Terms LnPolicy.
#[local] Open Scope string_scope.
#[local] Open Scope list_scope.
#[local] Open Scope Z_scope.

Module Pay.
Import Cdk.

Definition MAX_TOKEN_BYTES : nat := 16 * 1024.

Inductive PaymentError := Invalid | Unavailable.
#[export] Instance PaymentError_eq_dec : EqDecision PaymentError.
Proof. solve_decision. Defined.

(** [From<anyhow::Error>] *)
Definition from_anyhow {A : Type} (_ : A) : PaymentError := Unavailable.

Definition classify_error (e : Error) : PaymentError :=
  match e with
  | TokenAlreadySpent | CouldNotVerifyDleq | DleqProofNotProvided | AmountKey => Invalid
  | OtherError => Unavailable
  end.

Definition invalid {A : Type} (_ : A) : PaymentError := Invalid.
Definition unavailable {A : Type} (_ : A) : PaymentError := Unavailable.

(** ** Token identity *)

(** [u64::to_be_bytes] *)
Fixpoint be_bytes (n : nat) (x : Z) : string :=
  match n with
  | O => ""
  | S n' => String (byte_of ((x / 2 ^ (8 * Z.of_nat n')) mod 256)) (be_bytes n' x)
  end.
Fixpoint prefixed (l : list string) : string :=
  match l with
  | [] => ""
  | s :: l' => be_bytes 8 (Z.of_nat (slen s)) +:+ s +:+ prefixed l'
  end.

(** *** The encoding identifies the multiset of secrets *)

Lemma str_app_inj_len a b c d : slen a = slen c → a +:+ b = c +:+ d → a = c ∧ b = d.
Proof.
  revert c. induction a as [|x a IH]; intros [|y c] Hl E; simpl in *; try discriminate; [done|].
  injection E as -> E. injection Hl as Hl. by destruct (IH c Hl E) as [-> ->].
Qed.

Lemma slen_be_bytes n x : slen (be_bytes n x) = n.
Proof. induction n; simpl; congruence. Qed.

Lemma be_bytes_mod n x y :
  be_bytes n x = be_bytes n y → x mod 2 ^ (8 * Z.of_nat n) = y mod 2 ^ (8 * Z.of_nat n).
Proof.
  induction n as [|n IH]; [by rewrite !Z.mod_1_r|]. cbn [be_bytes]. intros E. injection E as E1 E2.
  replace (8 * Z.of_nat (S n)) with (8 * Z.of_nat n + 8) by lia.
  rewrite Z.pow_add_r by lia. assert (2 ^ (8 * Z.of_nat n) ≠ 0) by (apply Z.pow_nonzero; lia).
  rewrite !Z.rem_mul_r by lia. rewrite (IH E2). do 2 f_equal.
  apply (f_equal byte_val) in E1. change (2 ^ 8) with 256.
  by rewrite !Ln.byte_val_of in E1 by (apply Z.mod_pos_bound; lia).
Qed.

Definition short (s : string) : Prop := Z.of_nat (slen s) < 2 ^ 64.

Lemma prefixed_inj l l' :
  Forall short l → Forall short l' → prefixed l = prefixed l' → l = l'.
Proof.
  intros Hl. revert l'. induction Hl as [|s l Hs Hl IH]; intros [|s' l'] Hl' E;
    [done|by cbn in E|by cbn in E|].
  apply Forall_cons in Hl' as [Hs' Hl']. cbn [prefixed] in E.
  apply str_app_inj_len in E as [E1 E]; [|by rewrite !slen_be_bytes].
  apply be_bytes_mod in E1. unfold short in *. rewrite !Z.mod_small in E1 by (simpl; lia).
  apply str_app_inj_len in E as [-> E]; [|lia]. f_equal. auto.
Qed.

Section pay.
Context `{Sha256} {W : Type} `{Lib W}.
Abbreviation op E A := (M (Slot W) E A) (only parsing).

Definition token_id (token : Token) : string :=
  Ln.digest (prefixed (sort_strings (tok_secrets token))).

(** Token identity.  Two tokens have the same identity exactly when they carry
    the same secrets, in any order and however encoded: permuting the proofs never
    changes the identity, and tokens with the same identity have the same multiset
    of secrets unless SHA-256 collides on the two encodings. *)
Theorem token_id_identifies t t' :
  (tok_secrets t ≡ₚ tok_secrets t' → token_id t = token_id t') ∧
  (Forall short (tok_secrets t) → Forall short (tok_secrets t') →
   Ln.collision_free [prefixed (sort_strings (tok_secrets t)); prefixed (sort_strings (tok_secrets t'))] →
   token_id t = token_id t' → tok_secrets t ≡ₚ tok_secrets t').
Proof.
  unfold token_id. split.
  - intros Hp. by rewrite (sort_strings_canonical _ _ Hp).
  - intros Hs Hs' Hc E. eapply Ln.digest_inj in E; [|exact Hc|set_solver|set_solver].
    apply prefixed_inj in E; [|by rewrite sort_by_key_perm..].
    by rewrite <- (sort_by_key_perm (λ s, s) (tok_secrets t)), E, sort_by_key_perm.
Qed.

Definition validate_token (policy : Terms.PaymentPolicy) (encoded : string) :
    result PaymentError Token :=
  _ ← ensure ((slen encoded <=? MAX_TOKEN_BYTES)%nat && starts_with "cashuB" encoded) Invalid;
  token ← ok_or Invalid (token_from_str encoded);
  _ ← ensure (bool_decide (tok_unit token = Some Sat)) Invalid;
  mint ← map_err invalid (tok_mint_url token);
  _ ← ensure (bool_decide (mint = Terms.mint policy)) Invalid;
  value ← map_err invalid (tok_value token);
  _ ← ensure (Terms.price policy <=? value) Invalid;
  conditions ← map_err invalid (tok_spending_conditions token);
  _ ← ensure (bool_decide (conditions = [])) Invalid;
  mret token.

(** ** The lock of a mint *)

(** [MintWallet::open]: the journal is opened, the wallet is built, and nothing
    is known about interrupted operations. *)
Definition open : op anyhow unit :=
  r ← on_ledger Ledg.open;
  _ ← lift r;
  modify (λ s, set_open true (set_needs_recovery true (set_deposit_cursor None s))).

(** [try_lock] and the first use of a mint; [busy] says whether another task
    holds the lock. *)
Definition lock (busy : bool) : op anyhow unit :=
  _ ← check (negb busy) "mint wallet busy";
  s ← get;
  if is_open s then mret tt else open.

Definition recover : op PaymentError unit :=
  s ← get;
  if needs_recovery s then
    report ← mapping_err classify_error (cdk RecoverIncompleteSagas);
    _ ← check ((failed report =? 0) && (skipped report =? 0)) Unavailable;
    modify (set_needs_recovery false)
  else mret tt.

(** [MintWallet::claim] *)
Definition claim (id : string) : op PaymentError unit :=
  claimed ← mapping_err from_anyhow (on_ledger (Ledg.claim id));
  check claimed Invalid.

(** ** Redemption *)

Definition memo (id : string) : string := "geata-payment:" +:+ id.

(** A completed redemption of an earlier request for this payment. *)
Definition redeemed (id : string) (price : Z) (tx : Transaction) : bool :=
  bool_decide (tx_memo tx = Some (memo id)) && tx_completed tx && (price <=? tx_amount tx).

(** The checks on the proofs: signatures, fees and net value. *)
Definition check_proofs (policy : Terms.PaymentPolicy) (token : Token) : op PaymentError (list string) :=
  _ ← mapping_err classify_error (cdk (VerifyTokenDleq token));
  keyed ← mapping_err unavailable (cdk (TokenProofs token));
  proofs ← lift (map_err invalid keyed);
  fees ← mapping_err classify_error (cdk (GetProofsFee proofs));
  value ← lift (map_err invalid (tok_value token));
  _ ← check (fees <=? value) Invalid;
  _ ← check (Terms.price policy <=? value - fees) Invalid;
  mret proofs.

(** [receive_proofs] and the claim; the flag stays set unless it succeeds. *)
Definition redeem (policy : Terms.PaymentPolicy) (id encoded : string) (proofs : list string) :
    op PaymentError unit :=
  _ ← modify (set_needs_recovery true);
  received ← mapping_err classify_error (cdk (ReceiveProofs proofs (memo id) encoded));
  _ ← check (Terms.price policy <=? received) Unavailable;
  _ ← modify (set_needs_recovery false);
  claim id.

Definition collect_inner (busy : bool) (site : string) (policy : Terms.PaymentPolicy)
    (encoded : string) : op PaymentError unit :=
  token ← lift (validate_token policy encoded);
  let id := token_id token in
  _ ← mapping_err from_anyhow (lock busy);
  _ ← recover;
  proofs ← check_proofs policy token;
  reservation ← mapping_err from_anyhow (on_ledger (Ledg.reserve id site (Terms.price policy)));
  match reservation with
  | Ledg.Claimed | Ledg.Mismatch => fail Invalid
  | Ledg.Pending =>
      transactions ← mapping_err classify_error (cdk ListIncoming);
      if existsb (redeemed id (Terms.price policy)) transactions then claim id
      else redeem policy id encoded proofs
  | Ledg.New => redeem policy id encoded proofs
  end.

Definition collect (busy : bool) (site : string) (policy : Terms.PaymentPolicy) (encoded : string) :
    op PaymentError unit :=
  timeout Unavailable (collect_inner busy site policy encoded).

(** ** The command line: [balance] and [export] open the mint themselves *)

Definition balance : op PaymentError Z :=
  _ ← mapping_err from_anyhow open;
  _ ← recover;
  mapping_err classify_error (cdk TotalBalance).

Definition export (amount : Z) : op PaymentError string :=
  _ ← mapping_err from_anyhow open;
  _ ← recover;
  send ← mapping_err classify_error (cdk (PrepareSend amount));
  mapping_err classify_error (cdk (ConfirmSend send)).
End pay.
End Pay.
