(* ===== verification/Minting.v ===== *)
(** * Mint deposits ([payments/minting.rs])

    Lightning payments received through a mint: requesting a quote, collecting a
    paid one, deciding that one can be forgotten, and the periodic sweep. *)
From S2P Require Import Prelude Text Sweep Net Effects Extern Ledger Cdk Terms LnPolicy Payments.
#[local] Open Scope string_scope.
#[local] Open Scope list_scope.
#[local] Open Scope Z_scope.

Module Minting.
Import Cdk Pay.

(** [PaymentError]'s [Display] and [cdk::Error]'s, as an [anyhow::Error]. *)
Definition payment_error (e : PaymentError) : anyhow :=
  match e with
  | Invalid => "Invalid, insufficient, or already used Cashu payment."
  | Unavailable => "Cashu payments are temporarily unavailable; retry the same token."
  end.
Definition cdk_error (_ : Error) : anyhow := "wallet".
Definition deadline : anyhow := "deadline has elapsed".

Definition past_quote_grace (expiry time : Z) : bool :=
  negb (expiry =? 0) &&
  is_some_and (λ end_, end_ <=? time) (u64_checked_add expiry Ln.QUOTE_PRUNE_GRACE).

Section minting.
Context `{Sha256, InvoiceLib} {W : Type} `{Lib W}.
Abbreviation op E A := (M (Slot W) E A) (only parsing).

(** The prologue of every function of this file. *)
Definition ready (busy : bool) : op anyhow unit :=
  _ ← lock busy;
  mapping_err payment_error recover.

Definition wallet_op {X} (c : CdkCmd X) : op anyhow X := mapping_err cdk_error (cdk c).

Definition mint_invoice (busy : bool) (amount : Z) : op anyhow MintQuote :=
  timeout deadline (
    _ ← ready busy;
    quotes ← wallet_op GetMintQuotes;
    _ ← check (Z.of_nat (length quotes) <? Ln.MAX_CHALLENGE_RECORDS) "mint quote capacity exhausted";
    wallet_op (NewMintQuote amount)).

Definition mint_transaction (id : string) (amount : Z) (invoice : string) (tx : Transaction) : bool :=
  bool_decide (tx_quote_id tx = Some id) && bool_decide (tx_payment_request tx = Some invoice)
  && tx_completed tx && bool_decide (tx_unit tx = Sat) && (amount <=? tx_amount tx).

Definition has_mint_transaction (id : string) (amount : Z) (invoice : string) : op anyhow bool :=
  txs ← wallet_op ListIncoming;
  mret (existsb (mint_transaction id amount invoice) txs).

Definition collect_mint_invoice (busy : bool) (id : string) (amount : Z) (invoice : string) :
    op anyhow unit :=
  timeout deadline (
    _ ← ready busy;
    done ← has_mint_transaction id amount invoice;
    if done : bool then mret tt else
    found ← wallet_op (GetMintQuote id);
    quote ← lift (ok_or "missing mint quote" found);
    _ ← check (bool_decide (q_request quote = invoice) && bool_decide (q_amount quote = Some amount)
               && bool_decide (q_unit quote = Sat)) "mint quote mismatch";
    _ ← modify (set_needs_recovery true);
    quote ← wallet_op (CheckMintQuoteStatus id);
    _ ← (if 0 <? q_amount_mintable quote then wallet_op (Mint id) else mret tt);
    received ← has_mint_transaction id amount invoice;
    _ ← check received "mint funds not yet received";
    modify (set_needs_recovery false)).

(** What the quote itself says. *)
Definition looks_unpaid (time : Z) (quote : MintQuote) : bool :=
  bool_decide (q_state quote = Unpaid) && (q_amount_paid quote =? 0) && (q_amount_issued quote =? 0)
  && is_none (q_used_by_operation quote) && bool_decide (q_payment_method quote = BOLT11)
  && bool_decide (q_unit quote = Sat) && past_quote_grace (q_expiry quote) time
  && match parse_invoice (q_request quote) with
     | None => false
     | Some inv => past_quote_grace (u64_sat_add (inv_created inv) (inv_expiry inv)) time
     end.
(** What the fresh answer of the mint says. *)
Definition response_unpaid (time : Z) (quote : MintQuote) (r : QuoteResponse) : bool :=
  bool_decide (r_quote r = q_id quote) && bool_decide (r_request r = q_request quote)
  && bool_decide (r_amount r = q_amount quote) && bool_decide (r_unit r = Some (q_unit quote))
  && bool_decide (r_method r = BOLT11) && bool_decide (r_state r = Unpaid)
  && (r_amount_paid r =? 0) && (r_amount_issued r =? 0) && (q_updated_at quote <=? r_updated_at r)
  && is_some_and (λ expiry, past_quote_grace expiry time) (r_expiry r).

Definition definitively_unpaid (time : Z) (quote : MintQuote) : op anyhow bool :=
  if looks_unpaid time quote then
    response ← wallet_op (GetMintQuoteStatus (q_id quote));
    match response with
    | None => mret false
    | Some r => mret (response_unpaid time quote r)
    end
  else mret false.

Definition can_prune_mint_deposit (busy : bool) (time : Z) (id : string) (amount : Z)
    (invoice : string) : op anyhow bool :=
  timeout deadline (
    _ ← ready busy;
    done ← has_mint_transaction id amount invoice;
    if done : bool then mret true else
    found ← wallet_op (GetMintQuote id);
    match found with
    | None => mret false
    | Some quote =>
        if negb (bool_decide (q_request quote = invoice))
           || negb (bool_decide (q_amount quote = Some amount))
        then mret false
        else definitively_unpaid time quote
    end).

Definition remove_retired_mint_quote (busy : bool) (id : string) : op anyhow unit :=
  timeout deadline (
    _ ← ready busy;
    wallet_op (RemoveMintQuote id)).

(** One quote of the sweep, the inner [async] block. *)
Definition sweep_quote (time : Z) (associated : gset string) (id : string) : op anyhow unit :=
  quote ← wallet_op (CheckMintQuoteStatus id);
  unpaid ← (if bool_decide (q_id quote ∈ associated) then mret false
            else definitively_unpaid time quote);
  if unpaid : bool then wallet_op (RemoveMintQuote (q_id quote))
  else if 0 <? q_amount_mintable quote then wallet_op (Mint (q_id quote))
  else mret tt.

Fixpoint sweep_quotes (time : Z) (associated : gset string) (quotes : list MintQuote) : op anyhow unit :=
  match quotes with
  | [] => mret tt
  | quote :: quotes' =>
      _ ← modify (set_deposit_cursor (Some (q_id quote)));
      _ ← modify (set_needs_recovery true);
      r ← attempt (sweep_quote time associated (q_id quote));
      _ ← match r with
          | Err _ => mapping_err payment_error recover
          | Ok _ => modify (set_needs_recovery false)
          end;
      sweep_quotes time associated quotes'
  end.

Definition recover_mint_deposits (busy : bool) (time : Z) (associated : gset string) : op anyhow unit :=
  timeout deadline (
    _ ← ready busy;
    quotes ← wallet_op GetUnissuedMintQuotes;
    s ← get;
    sweep_quotes time associated (take 32 (rotate_after q_id (deposit_cursor s) (sort_by_key q_id quotes)))).
End minting.
End Minting.
