(* ===== verification/Payout.v ===== *)
(** * Payouts ([payments/payout.rs])

    The policy of automatic payouts, the checks on a payment request, and the
    operations that send funds out of a mint's wallet. *)
From S2P Require Import Prelude Text Net Effects Extern Ledger Cdk Terms LnPolicy Payments Minting.
#[local] Open Scope string_scope.
#[local] Open Scope list_scope.
#[local] Open Scope Z_scope.

Module Payout.
Import Cdk Pay Minting.

Record PayoutPolicy := {
  po_mint : string;
  po_request : PaymentRequest;
  po_amount : Z;
  po_max_fee : Z;
  po_interval : option Z;
  po_threshold : option Z
}.

Definition due (p : PayoutPolicy) (state : Ledg.PayoutState) (now balance : Z) : bool :=
  is_none (Ledg.pending state) && (Ledg.retry_at state <=? now) && (po_amount p <=? balance)
  && (is_some_and (λ n, n <=? balance) (po_threshold p)
      || is_some_and (λ n, i64_sat_add (Ledg.last_paid state) n <=? now) (po_interval p)).

(** The multiplier of the suffix, and what precedes it. *)
Definition interval_suffix (value : string) : result anyhow (string * Z) :=
  match strip_suffix "s" value, strip_suffix "m" value, strip_suffix "h" value, strip_suffix "d" value with
  | Some digits, _, _, _ => Ok (digits, 1)
  | _, Some digits, _, _ => Ok (digits, 60)
  | _, _, Some digits, _ => Ok (digits, 3600)
  | _, _, _, Some digits => Ok (digits, 86400)
  | _, _, _, _ => Err "interval requires s, m, h, or d suffix"
  end.

Definition parse_interval (value : string) : result anyhow Z :=
  '(digits, multiplier) ← interval_suffix value;
  seconds ← ok_or "invalid interval"
    (n ← ok (parse_i64 digits); i64_checked_mul n multiplier);
  _ ← ensure ((1 <=? seconds) && (seconds <=? 31536000)) "interval must be between 1s and 365d";
  mret seconds.

Section requests.
Context `{UrlLib, MintUrlLib} {W : Type} `{Lib W}.

Definition validate_http_target (target : string) : result anyhow unit :=
  url ← map_err (λ _, "invalid payout transport URL") (url_parse target);
  ensure (is_some (url_host_str url)
          && (bool_decide (url_scheme url = "https")
              || (bool_decide (url_scheme url = "http") && Terms.url_loopback url))
          && bool_decide (url_username url = "") && is_none (url_password url)
          && is_none (url_fragment url))
    "payout transport requires a secure URL without credentials or fragment (loopback tests allowed)".

(** [requested.zip(amount).is_none_or(|(a, b)| a == b)] *)
Definition amounts_agree (a b : option Z) : bool :=
  match a, b with Some x, Some y => x =? y | _, _ => true end.

(** The transport CDK prefers. *)
Definition preferred_transport (ts : list Transport) : option Transport :=
  match find (λ t, bool_decide (t_type t = Nostr)) ts with
  | Some t => Some t
  | None => find (λ t, bool_decide (t_type t = HttpPost)) ts
  end.

Definition validate_request (encoded mint : string) (amount : option Z) :
    result anyhow (PaymentRequest * Z) :=
  _ ← ensure (Z.of_nat (slen encoded) <=? 64 * 1024) "payment request exceeds 64 KiB";
  request ← ok_or "invalid Cashu payment request" (request_from_str encoded);
  _ ← ensure (match pr_unit request with Some u => bool_decide (u = Sat) | None => true end)
        "payout requires sat unit";
  _ ← ensure (bool_decide (pr_mint_preferred request = Some true)
              || bool_decide (pr_mints request = []) || bool_decide (mint ∈ pr_mints request))
        "payment request does not accept this mint";
  _ ← ensure (is_some (pr_unit request)
              || (is_none (pr_amount request) && bool_decide (pr_supported_methods request = [])))
        "payment request amount or methods require a unit";
  let requested := pr_amount request in
  _ ← ensure (amounts_agree requested amount) "amount conflicts with payment request";
  amount ← ok_or "payment request requires a positive amount"
    (opt_filter (λ n, 0 <? n) (match requested with Some n => Some n | None => amount end));
  transport ← ok_or "payment request needs HTTP POST or Nostr transport"
    (preferred_transport (pr_transports request));
  _ ← (if bool_decide (t_type transport = HttpPost) then validate_http_target (t_target transport)
       else Ok tt);
  mret (request, amount).

(** ** The payout block of the configuration *)

Definition payout_setting (k : string) : bool :=
  bool_decide (k ∈ ["mint"; "request"; "amount"; "max_fee"; "interval"; "threshold"]).

Fixpoint payout_values (values : gmap string string) (args : list string) :
    result anyhow (gmap string string) :=
  match args with
  | k :: v :: args' =>
      _ ← ensure (payout_setting k) "unknown payout directive";
      _ ← ensure (is_none (values !! k)) "duplicate payout directive";
      payout_values (<[k := v]> values) args'
  | _ => Ok values
  end.

Definition parse_amount (e : anyhow) (v : option string) : result anyhow (option Z) :=
  map_err (λ _, e) (transpose (parse_u64 <$> v)).

Definition PayoutPolicy_parse (args : list string) : result anyhow PayoutPolicy :=
  _ ← ensure (Nat.even (length args)) "payout directives require a value";
  values ← payout_values ∅ args;
  mint ← ok_or "payout requires mint" (values !! "mint");
  mint ← Terms.parse_mint mint;
  amount ← parse_amount "invalid payout amount" (values !! "amount");
  request ← ok_or "payout requires request" (values !! "request");
  '(request, amount) ← validate_request request mint amount;
  _ ← ensure (negb (bool_decide (pr_single_use request = Some true)))
        "automatic payout requires a reusable payment request";
  max_fee ← ok_or "payout requires max_fee in sats" (values !! "max_fee");
  max_fee ← map_err (λ _, "invalid max_fee") (parse_u64 max_fee);
  _ ← ok_or "payout amount plus fee overflows" (u64_checked_add amount max_fee);
  interval ← transpose (parse_interval <$> (values !! "interval"));
  threshold ← parse_amount "invalid threshold" (values !! "threshold");
  _ ← ensure (negb (bool_decide (threshold = Some 0))) "threshold must be positive";
  _ ← ensure (is_some interval || is_some threshold) "payout requires interval or threshold";
  mret {| po_mint := mint; po_request := request; po_amount := amount; po_max_fee := max_fee;
          po_interval := interval; po_threshold := threshold |}.
End requests.

(** ** Sending *)

Section sending.
Context `{Sha256, UrlLib, MintUrlLib} {W : Type} `{Lib W}.
Abbreviation op E A := (M (Slot W) E A) (only parsing).

Definition with_pending (p : option string) (st : Ledg.PayoutState) : Ledg.PayoutState :=
  {| Ledg.last_paid := Ledg.last_paid st; Ledg.retry_at := Ledg.retry_at st; Ledg.pending := p |}.
Definition with_last_paid (t : Z) (st : Ledg.PayoutState) : Ledg.PayoutState :=
  {| Ledg.last_paid := t; Ledg.retry_at := Ledg.retry_at st; Ledg.pending := Ledg.pending st |}.
Definition with_retry_at (t : Z) (st : Ledg.PayoutState) : Ledg.PayoutState :=
  {| Ledg.last_paid := Ledg.last_paid st; Ledg.retry_at := t; Ledg.pending := Ledg.pending st |}.

Definition save (st : Ledg.PayoutState) : op anyhow unit := on_ledger (Ledg.save_payout st).
Definition saved : op anyhow (option Ledg.PayoutState) := on_ledger (λ l, (l, Ledg.payout l)).

(** [now] is the time after the payment was confirmed. *)
Definition send_request (now : Z) (request : PaymentRequest) (amount max_total : Z)
    (state : Ledg.PayoutState) : op anyhow unit :=
  _ ← modify (set_needs_recovery true);
  prepared ← mapping_err
    (λ _, "cannot prepare payout; balance, fees, or mint may be unavailable")
    (cdk (PreparePayRequest request amount));
  if max_total <? total_amount prepared then
    _ ← mapping_err (λ _, "payout fee cap exceeded; reservation recovery required")
          (cdk (Cancel (operation_id prepared)));
    _ ← modify (set_needs_recovery false);
    fail "payout fee cap exceeded; no payment delivered"
  else
    let id := operation_id prepared in
    let state := with_pending (Some id) state in
    r ← attempt (save state);
    match r with
    | Err error =>
        _ ← attempt (F := Error) (cdk (Cancel id));
        fail error
    | Ok _ =>
        _ ← mapping_err (λ _, "payout " +:+ id +:+
              " outcome uncertain; automatic payouts paused; inspect wallet pending")
              (cdk (Confirm id));
        let state := with_last_paid now (with_pending None state) in
        _ ← save state;
        modify (set_needs_recovery false)
    end.

Definition automatic_payout (busy : bool) (now later : Z) (policy : PayoutPolicy) : op anyhow unit :=
  if busy then mret tt else
  _ ← lock false;
  row ← saved;
  state ← match row with
          | Some state => mret state
          | None =>
              let state := with_last_paid now Ledg.PayoutState_default in
              _ ← save state; mret state
          end;
  if is_some (Ledg.pending state) || (now <? Ledg.retry_at state) then mret tt else
  _ ← mapping_err payment_error recover;
  balance ← wallet_op TotalBalance;
  if negb (due policy state now balance) then mret tt else
  let state := with_retry_at (i64_sat_add now 60) state in
  _ ← save state;
  send_request later (po_request policy) (po_amount policy) (po_amount policy + po_max_fee policy) state.

(** The command line opens the mint itself. *)
Definition pay (later : Z) (mint encoded : string) (amount : option Z) (max_total : Z) : op anyhow unit :=
  '(request, amount) ← lift (validate_request encoded mint amount);
  _ ← check (amount <=? max_total) "max-total is below the requested amount";
  _ ← open;
  _ ← mapping_err payment_error recover;
  row ← saved;
  let state := default Ledg.PayoutState_default row in
  _ ← check (is_none (Ledg.pending state))
        "resolve the pending payout first with wallet pending/reclaim";
  send_request later request amount max_total state.

Definition resolve (now : Z) (state : Ledg.PayoutState) : op anyhow Ledg.PayoutState :=
  match Ledg.pending state with
  | None => mret state
  | Some id =>
      _ ← check (operation_ok id) "invalid saved payout operation ID";
      found ← wallet_op (GetSaga id);
      if found : bool then mret state
      else
        let state := with_retry_at (i64_sat_add now 60) (with_last_paid now (with_pending None state)) in
        _ ← save state; mret state
  end.

Definition pending (now : Z) (reclaim : option string) : op anyhow (list string) :=
  _ ← open;
  _ ← mapping_err payment_error recover;
  _ ← match reclaim with
      | None => mret tt
      | Some id =>
          _ ← check (operation_ok id) "invalid operation ID";
          mapping_err (λ _, "could not reclaim payout; run wallet pending to check its state")
            (cdk (RevokeSend id))
      end;
  row ← saved;
  state ← resolve now (default Ledg.PayoutState_default row);
  sends ← wallet_op GetPendingSends;
  mret (match Ledg.pending state with
        | Some id => [id +:+ " payout unresolved; automatic payouts paused"]
        | None => []
        end ++ map (λ id, id +:+ " unclaimed send (reclaimable if still unspent)") sends).
End sending.
End Payout.
