(* ===== verification/Wallets.v ===== *)
(** * Histories of a mint's wallet

    Every call of [Payments], [Minting] and [Payout] on one mint, in the order of
    the lock, with failures and drops at every step and restarts in between.  The
    theorems: a token admits one request, an admitted request was paid, a wallet
    that is used has no interrupted operation, and payouts are not repeated. *)
From stdpp Require Import sorting.
From S2P Require Import Prelude Text Net Effects Extern Models Ledger Cdk Terms LnPolicy Payments Minting Payout.
#[local] Open Scope string_scope.
#[local] Open Scope list_scope.
#[local] Open Scope Z_scope.

Module Wallets.
Import Cdk Pay Minting Payout.

Section history.
Context `{Sha256, InvoiceLib, UrlLib, MintUrlLib} {W : Type} `{Lib W}.
Abbreviation slot := (Slot W) (only parsing).

(** ** Histories *)

Inductive Call_ :=
| Collect (site : string) (policy : Terms.PaymentPolicy) (encoded : string)
| MintInvoice (amount : Z)
| CollectMintInvoice (id : string) (amount : Z) (invoice : string)
| CanPruneMintDeposit (time : Z) (id : string) (amount : Z) (invoice : string)
| RemoveRetiredMintQuote (id : string)
| RecoverMintDeposits (time : Z) (associated : gset string)
| AutomaticPayout (now later : Z) (policy : PayoutPolicy)
(** the command line: a process of its own *)
| Balance
| Export (amount : Z)
| PayRequest (later : Z) (mint encoded : string) (amount : option Z) (max_total : Z)
| PendingPayouts (now : Z) (reclaim : option string)
| RestartServer.

Definition quiet {E A} (m : M (Slot W) E A) : M (Slot W) PaymentError unit :=
  mapping_err unavailable (m ≫= λ _, mret tt).
(** A process of its own starts without memory and leaves none. *)
Definition own_process {E A} (m : M (Slot W) E A) : M (Slot W) PaymentError unit :=
  _ ← modify restarted;
  _ ← attempt (timeout Unavailable (quiet m));
  modify restarted.

Definition exec (c : Call_) (busy : bool) : M (Slot W) PaymentError unit :=
  match c with
  | Collect site policy encoded => collect busy site policy encoded
  | MintInvoice amount => quiet (mint_invoice busy amount)
  | CollectMintInvoice id amount invoice => quiet (collect_mint_invoice busy id amount invoice)
  | CanPruneMintDeposit time id amount invoice =>
      quiet (can_prune_mint_deposit busy time id amount invoice)
  | RemoveRetiredMintQuote id => quiet (remove_retired_mint_quote busy id)
  | RecoverMintDeposits time associated => quiet (recover_mint_deposits busy time associated)
  | AutomaticPayout now later policy => quiet (automatic_payout busy now later policy)
  | Balance => own_process balance
  | Export amount => own_process (export amount)
  | PayRequest later mint encoded amount max_total =>
      own_process (pay later mint encoded amount max_total)
  | PendingPayouts now reclaim => own_process (pending now reclaim)
  | RestartServer => modify restarted
  end.

Fixpoint run (s : Slot W) (h : list (Call_ * bool * list Fate)) :
    list (Call_ * outcome PaymentError unit) * Slot W :=
  match h with
  | [] => ([], s)
  | (c, busy, fates) :: h' =>
      let '(o, s', _) := exec c busy s fates in
      let '(tr, s'') := run s' h' in ((c, o) :: tr, s'')
  end.

(** ** Rules *)

Lemma wp_cdk {X} (c : CdkCmd X) (Q : outcome Error X → Slot W → Prop) s :
  (∀ w x, wallet_call X c (wallet s) = (w, Ok x) →
     Q (Done x) (set_wallet w (on_call c ++ on_answer c x) s)) →
  (∀ w e, Q (Fail e) (set_wallet w (on_call c) s)) →
  (∀ w, Q Gone (set_wallet w (on_call c) s)) →
  wp (cdk c) Q s.
Proof.
  intros Hok Hfail Hgone. apply wp_remote.
  - destruct (wallet_call X c (wallet s)) as [w [x|e]] eqn:Hc; simpl; [by apply Hok|].
    rewrite app_nil_r. apply Hfail.
  - auto.
Qed.

Lemma inv_cdk (P : Slot W → Prop) {X} (c : CdkCmd X) :
  (∀ s w, P s → P (set_wallet w (on_call c) s)) →
  (∀ s w x, P s → P (set_wallet w (on_call c ++ on_answer c x) s)) →
  inv P (cdk c).
Proof. intros Hf Ha s Hs. apply wp_cdk; auto. Qed.

Lemma wp_on_ledger {A} (f : Ledg.Ledger → Ledg.Ledger * A) (Q : outcome anyhow A → Slot W → Prop) s :
  Q (Done (f (ledger s)).2) (set_ledger (f (ledger s)).1 s) →
  (∀ s', s' = s ∨ s' = set_ledger (f (ledger s)).1 s → Q (Fail "storage") s' ∧ Q Gone s') →
  wp (on_ledger f) Q s.
Proof.
  intros Hok Hbad. apply wp_durable.
  - by destruct (f (ledger s)).
  - destruct (f (ledger s)). exact Hbad.
Qed.

(** A step to the success of the whole call: failures are not of interest. *)
Ltac ok_step :=
  lazymatch goal with
  | |- wp (cdk _) _ _ => apply wp_cdk; [intros ? ? ?|by intros|by intros]
  | |- wp (on_ledger _) _ _ => apply wp_on_ledger; [|by intros]
  | |- wp _ _ _ => wp_step
  end; cbn beta iota.

Lemma inv_on_ledger (P : Slot W → Prop) {A} (f : Ledg.Ledger → Ledg.Ledger * A) :
  (∀ s, P s → P (set_ledger (f (ledger s)).1 s)) → inv P (on_ledger f).
Proof.
  intros Hf. apply inv_durable. intros s Hs. specialize (Hf s Hs). by destruct (f (ledger s)).
Qed.

(** Unfold a call to its atomic steps. *)
Ltac unfold_ops :=
  unfold exec, own_process, quiet, collect, collect_inner, balance, export, mint_invoice,
    collect_mint_invoice, can_prune_mint_deposit, remove_retired_mint_quote, recover_mint_deposits,
    automatic_payout, pay, pending, resolve, send_request, save, saved,
    sweep_quote, definitively_unpaid, has_mint_transaction, ready, wallet_op,
    check_proofs, redeem, claim, lock, recover, open in *.

(** *** The journal only grows *)

Definition ledger_after (l : Ledg.Ledger) (s : Slot W) : Prop := Ledg.grows l (ledger s).

Lemma inv_sweep (P : Slot W → Prop) time associated quotes :
  (∀ id, inv P (sweep_quote time associated id)) → inv P recover →
  (∀ s c, P s → P (set_deposit_cursor c s)) → (∀ s b, P s → P (set_needs_recovery b s)) →
  inv P (sweep_quotes time associated quotes).
Proof.
  intros Hq Hr Hc Hn. induction quotes as [|q quotes IH]; simpl; [inv_step|].
  repeat inv_step; auto; apply inv_modify; auto.
Qed.

Lemma wallet_exec_grows l c busy : inv (ledger_after l) (exec c busy).
Proof.
  assert (∀ X (c : CdkCmd X), inv (ledger_after l) (cdk c)) as Hcdk by (intros; by apply inv_cdk).
  assert (∀ A (f : Ledg.Ledger → Ledg.Ledger * A), (∀ l, Ledg.grows l (f l).1) →
    inv (ledger_after l) (on_ledger f)) as Hledger.
  { intros A f Hf. apply inv_on_ledger. intros s Hs. unfold ledger_after in *. simpl.
    etrans; [exact Hs|apply Hf]. }
  destruct c; unfold_ops; repeat inv_step;
    try (apply Hcdk); try (apply Hledger; intros; auto with geata); try (by apply inv_modify).
  apply inv_sweep; [intros id| |done|done]; unfold_ops; repeat inv_step; try apply Hcdk;
    by apply inv_modify.
Qed.

(** *** A successful redemption *)

Definition claimed_at (s : Slot W) (id : string) : bool := Ledg.claimed_at (ledger s) id.

(** The payment is recorded, and the wallet reported that it was received. *)
Definition paid (id site : string) (price : Z) (s : Slot W) : Prop :=
  Ledg.payments (ledger s) !! id = Some (site, price, true) ∧
  ∃ amount, price ≤ amount ∧
    (Received (memo id) amount ∈ trace s ∨ SawTransaction (memo id) amount ∈ trace s).

Lemma reserve_new id site price db :
  (Ledg.reserve id site price db).2 = Ledg.New ∨ (Ledg.reserve id site price db).2 = Ledg.Pending →
  Ledg.payments (Ledg.reserve id site price db).1 !! id = Some (site, price, false) ∧
  Ledg.claimed_at db id = false.
Proof.
  unfold Ledg.reserve, Ledg.claimed_at.
  destruct (Ledg.payments db !! id) as [[[s' p'] b]|] eqn:Hid; simpl.
  - case_bool_decide as Hs; simpl; [|by intros []]. destruct (Z.eqb_spec p' price) as [->|]; simpl;
      [|by intros []]. subst. destruct b; simpl; by intros [].
  - intros _. by rewrite lookup_insert_eq.
Qed.

Lemma wp_claim (id site : string) price (s : Slot W) :
  Ledg.payments (ledger s) !! id = Some (site, price, false) →
  wp (claim id) (λ o s', o = Done tt → trace s' = trace s ∧
    Ledg.payments (ledger s') !! id = Some (site, price, true)) s.
Proof.
  intros Hid. unfold claim. do 3 ok_step. unfold Ledg.claim. rewrite Hid. simpl.
  ok_step. simpl. by rewrite lookup_insert_eq.
Qed.

Lemma wp_redeem policy id encoded proofs site (s : Slot W) :
  Ledg.payments (ledger s) !! id = Some (site, Terms.price policy, false) →
  wp (redeem policy id encoded proofs) (λ o s', o = Done tt → paid id site (Terms.price policy) s') s.
Proof.
  intros Hid. unfold redeem. do 7 ok_step.
  destruct (Terms.price policy <=? x) eqn:Hle; [|done]. do 2 ok_step. eapply wp_mono; [|by eapply (wp_claim id site)].
  intros o s' Ho ->. destruct Ho as [Ht Hp]; [done|]. split; [done|].
  exists x. apply Z.leb_le in Hle. split; [done|]. left. rewrite Ht. simpl. set_solver.
Qed.

(** The steps before the reservation leave the journal's payments alone. *)
Lemma prologue_payments l busy policy token :
  let P := λ s : Slot W, Ledg.payments (ledger s) = l in
  inv P (lock busy) ∧ inv P recover ∧ inv P (check_proofs policy token).
Proof.
  split_and!; unfold_ops; repeat inv_step; try (by apply inv_cdk); try (by apply inv_modify).
  apply inv_on_ledger. intros s <-. simpl. apply Ledg.open_payments.
Qed.

Lemma wp_bind_inv {E A B} (P : Slot W → Prop) (m : M (Slot W) E A) (k : A → M (Slot W) E B)
    (Q : outcome E B → Slot W → Prop) s :
  inv P m → P s → (∀ a s', P s' → wp (k a) Q s') →
  (∀ e s', Q (Fail e) s') → (∀ s', Q Gone s') → wp (m ≫= k) Q s.
Proof.
  intros Hm Hs Hk Hf Hg. apply wp_bind. eapply wp_mono; [|by apply Hm]. intros [a|e|] s' Hs'; auto.
Qed.

Lemma collect_spec busy site policy encoded (s : Slot W) :
  wp (collect busy site policy encoded) (λ o s', o = Done tt →
    ∃ token, validate_token policy encoded = Ok token ∧
      claimed_at s (token_id token) = false ∧
      paid (token_id token) site (Terms.price policy) s') s.
Proof.
  unfold collect. wp_step. eapply wp_mono with (Q := λ o s', o = Done tt →
    ∃ token, validate_token policy encoded = Ok token ∧
      claimed_at s (token_id token) = false ∧
      paid (token_id token) site (Terms.price policy) s'); [by intros [[]|e|]|].
  unfold collect_inner. do 2 wp_step. destruct (validate_token policy encoded) as [token|e] eqn:Hv; [|done].
  set (id := token_id token).
  eapply wp_mono with (Q := λ o s', o = Done tt → Ledg.claimed_at (ledger s) id = false ∧
    paid id site (Terms.price policy) s'); [intros o s' Ho Hd; exists token; by destruct (Ho Hd)|].
  destruct (prologue_payments (Ledg.payments (ledger s)) busy policy token) as (Hl & Hr & Hc).
  eapply wp_bind_inv; [by apply inv_mapping_err, Hl|done| |done|done]. intros _ s1 Hs1.
  eapply wp_bind_inv; [by apply Hr|done| |done|done]. intros _ s2 Hs2.
  eapply wp_bind_inv; [by apply Hc|done| |done|done]. intros proofs s3 Hs3.
  clear Hl Hr Hc Hs1 Hs2. do 3 ok_step. 
  assert (∀ b, Ledg.claimed_at (ledger s3) id = b → Ledg.claimed_at (ledger s) id = b) as Hb.
  { unfold Ledg.claimed_at. by rewrite Hs3. }
  destruct (Ledg.reserve id site (Terms.price policy) (ledger s3)).2 eqn:Hres; try by ok_step.
  - destruct (reserve_new id site (Terms.price policy) (ledger s3)) as [Hnew Hcl]; [by left|].
    eapply wp_mono; [|by eapply (wp_redeem policy id)]. intros o s' Ho Hd. auto.
  - destruct (reserve_new id site (Terms.price policy) (ledger s3)) as [Hnew Hcl]; [by right|].
    do 3 ok_step. destruct (existsb _ x) eqn:Hex.
    + eapply wp_mono; [|by eapply (wp_claim id site)]. intros o s' Ho Hd.
      destruct (Ho Hd) as [Ht Hp]. split; [by apply Hb|]. split; [done|].
      apply existsb_exists in Hex as (tx & Hin & Htx). unfold redeemed in Htx.
      rewrite !andb_true_iff, bool_decide_eq_true, Z.leb_le in Htx. destruct Htx as [[Hm Hcomp] Hle].
      exists (tx_amount tx). split; [done|]. right. rewrite Ht. simpl.
      apply elem_of_app. right. apply list_elem_of_omap. exists tx.
      split; [by apply list_elem_of_In|]. by rewrite Hm, Hcomp.
    + eapply wp_mono; [|by eapply (wp_redeem policy id)]. intros o s' Ho Hd. auto.
Qed.

(** ** One token, one request *)

Definition admits (id : string) (ev : Call_ * outcome PaymentError unit) : bool :=
  match ev with
  | (Collect _ policy encoded, Done _) =>
      match validate_token policy encoded with
      | Ok token => bool_decide (token_id token = id)
      | Err _ => false
      end
  | _ => false
  end.
#[global] Arguments admits : simpl never.
Definition admissions (id : string) (tr : list (Call_ * outcome PaymentError unit)) : nat :=
  length (List.filter (admits id) tr).

Lemma exec_admits id c busy s fates :
  admits id (c, (exec c busy s fates).1.1) = true →
  claimed_at s id = false ∧ claimed_at (exec c busy s fates).1.2 id = true.
Proof.
  unfold admits. destruct c as [site policy encoded| | | | | | | | | | |]; try done.
  pose proof (collect_spec busy site policy encoded s fates) as Hc. simpl in *.
  destruct (collect busy site policy encoded s fates) as [[[u|e|] s'] fs]; simpl in *; try done. destruct u.
  destruct (Hc eq_refl) as (token & -> & Hcl & Hp & _). intros <-%bool_decide_eq_true.
  split; [done|]. unfold claimed_at, Ledg.claimed_at. by rewrite Hp.
Qed.

Lemma run_admissions id s h :
  (admissions id (run s h).1 ≤ if claimed_at s id then 0 else 1)%nat.
Proof.
  unfold admissions. revert s. induction h as [|[[c busy] fates] h IH]; intros s; simpl; [lia|].
  pose proof (exec_admits id c busy s fates) as Hw.
  assert (Ledg.grows (ledger s) (ledger (exec c busy s fates).1.2)) as Hg
    by (apply (wallet_exec_grows (ledger s) c busy s (Ledg.grows_refl _))).
  destruct (exec c busy s fates) as [[o s'] fs]. simpl in *.
  specialize (IH s'). destruct (run s' h) as [tr s'']. simpl in *.
  destruct (admits id (c, o)) eqn:E; simpl.
  - destruct (Hw eq_refl) as [-> Hc]. rewrite Hc in IH. lia.
  - destruct (claimed_at s id) eqn:E1; [|case_match; lia].
    unfold claimed_at in *. by rewrite (Ledg.claimed_grows _ _ id Hg E1) in IH.
Qed.

(** C8: a Cashu token admits one request.  In every history of calls on a mint,
    redemptions, deposits, payouts, command-line use and restarts, where each call
    may fail or be dropped at each step with or without the step's effect, at most
    one redemption is answered [Ok] for tokens with the same identity. *)
Theorem token_admitted_once s h id : (admissions id (run s h).1 ≤ 1)%nat.
Proof. pose proof (run_admissions id s h). case_match; lia. Qed.

(** C13: an admitted request was paid.  When [collect] answers [Ok], the token
    passes [validate_token] for the policy, its payment was not claimed before, the
    journal now has it claimed for this site and price, and the wallet reported at
    least the price: received now, or by a completed transaction with the memo of
    this payment. *)
Theorem collect_ok_is_paid busy site policy encoded (s : Slot W) fates :
  (collect busy site policy encoded s fates).1.1 = Done tt →
  ∃ token, validate_token policy encoded = Ok token ∧
    claimed_at s (token_id token) = false ∧
    paid (token_id token) site (Terms.price policy) (collect busy site policy encoded s fates).1.2.
Proof. apply collect_spec. Qed.

Lemma history_inv (P : Slot W → Prop) s h :
  (∀ c busy, inv P (exec c busy)) → P s → P (run s h).2.
Proof.
  intros Hexec. revert s. induction h as [|[[c busy] fates] h IH]; intros s Hs; simpl; [done|].
  pose proof (Hexec c busy s Hs fates) as Hs'. simpl in Hs'.
  destruct (exec c busy s fates) as [[o s'] fs]. specialize (IH s' Hs').
  by destruct (run s' h).
Qed.

(** ** Recovery *)

(** Calls that start no operation of their own, even when cut off. *)
Definition benign {X} (c : CdkCmd X) : bool :=
  match c with
  | VerifyTokenDleq _ | TokenProofs _ | GetProofsFee _ | ListIncoming | TotalBalance
  | GetMintQuotes | NewMintQuote _ | GetMintQuote _ | RemoveMintQuote _ | GetUnissuedMintQuotes
  | GetMintQuoteStatus _ | GetSaga _ | GetPendingSends => true
  | _ => false
  end.
(** The operation a successful call leaves open. *)
Definition started {X} (c : CdkCmd X) : X → gset string :=
  match c with
  | PreparePayRequest _ _ => λ p, {[operation_id p]}
  | PrepareSend _ => λ op, {[op]}
  | _ => λ _, ∅
  end.

(** What the wallet documents about its sagas, the operations a crash or a lost
    answer leaves incomplete. *)
Class Sagas := {
  sagas : W → gset string;
  sagas_benign : ∀ X (c : CdkCmd X) b w, benign c = true →
    sagas (wallet_call X c w).1 ⊆ sagas w ∧ sagas (wallet_cut X c b w) ⊆ sagas w;
  sagas_done : ∀ X (c : CdkCmd X) w w' x,
    wallet_call X c w = (w', Ok x) → sagas w' ⊆ sagas w ∪ started c x;
  sagas_recovered : ∀ w w' r,
    wallet_call _ RecoverIncompleteSagas w = (w', Ok r) → failed r = 0 → skipped r = 0 → sagas w' = ∅;
  sagas_ended : ∀ op w w', (wallet_call _ (Confirm op) w = (w', Ok tt) ∨
    wallet_call _ (Cancel op) w = (w', Ok tt)) → sagas w' ⊆ sagas w ∖ {[op]}
}.

Section recovery.
Context `{!Sagas}.

Definition clean (s : Slot W) : Prop := is_open s = true ∧ sagas (wallet s) = ∅.
Definition flagged (s : Slot W) : Prop := is_open s = true ∧ needs_recovery s = true.
(** An open wallet has no interrupted operation unless the flag says so. *)
Definition recovery_inv (s : Slot W) : Prop :=
  is_open s = true → needs_recovery s = false → clean s.

Lemma clean_inv s : clean s → recovery_inv s.
Proof. by intros ? ? ?. Qed.
Lemma flagged_inv s : flagged s → recovery_inv s.
Proof. intros [_ Hf] _ Hn. congruence. Qed.
#[local] Hint Resolve clean_inv flagged_inv : geata.

Lemma wp_benign {X} (c : CdkCmd X) (Q : outcome Error X → Slot W → Prop) s :
  benign c = true → clean s →
  (∀ o s', clean s' → needs_recovery s' = needs_recovery s → Q o s') → wp (cdk c) Q s.
Proof.
  intros Hb Hs HQ. apply wp_remote.
  - destruct (sagas_benign X c true (wallet s) Hb) as [Hc _].
    destruct Hs as [Ho Hs]. destruct (wallet_call X c (wallet s)) as [w r]. simpl in *.
    destruct r; apply HQ; try done; (split; [done|simpl; set_solver]).
  - intros b. destruct (sagas_benign X c b (wallet s) Hb) as [_ Hc].
    destruct Hs as [Ho Hs]. split; apply HQ; try done; (split; [done|simpl; set_solver]).
Qed.

Lemma inv_benign {X} (c : CdkCmd X) : benign c = true → inv clean (cdk c).
Proof. intros Hb s Hs. apply wp_benign; auto. Qed.

Lemma wp_flagged {X} (c : CdkCmd X) (Q : outcome Error X → Slot W → Prop) s :
  flagged s → clean s →
  (∀ x s', flagged s' → sagas (wallet s') ⊆ started c x → Q (Done x) s') →
  (∀ e s', flagged s' → Q (Fail e) s') → (∀ s', flagged s' → Q Gone s') → wp (cdk c) Q s.
Proof.
  intros Hf Hs Hok Hfail Hgone. apply wp_cdk; [|auto..]. intros w x Hc. apply Hok; [done|].
  simpl. apply sagas_done in Hc. destruct Hs as [_ Hs]. set_solver.
Qed.

Lemma inv_flagged_cdk {X} (c : CdkCmd X) : inv flagged (cdk c).
Proof. by apply inv_cdk. Qed.
Lemma inv_flagged_ledger {A} (f : Ledg.Ledger → Ledg.Ledger * A) : inv flagged (on_ledger f).
Proof. by apply inv_on_ledger. Qed.
Lemma inv_clean_ledger {A} (f : Ledg.Ledger → Ledg.Ledger * A) : inv clean (on_ledger f).
Proof. by apply inv_on_ledger. Qed.

(** After the prologue of a call the wallet is clean. *)
Definition prepared (o : bool) (s : Slot W) : Prop := if o then clean s else recovery_inv s.
Definition is_done {E A} (o : outcome E A) : bool := match o with Done _ => true | _ => false end.

Lemma open_flagged s : recovery_inv s →
  wp open (λ o s', recovery_inv s' ∧ (is_done o = true → is_open s' = true)) s.
Proof.
  intros Hs. unfold open. apply wp_bind, wp_on_ledger.
  - apply wp_bind, wp_lift. destruct (_.2); [|done]. wp_step. by split.
  - intros s' [->| ->]; done.
Qed.

Lemma lock_open busy s : recovery_inv s →
  wp (lock busy) (λ o s', recovery_inv s' ∧ (is_done o = true → is_open s' = true)) s.
Proof.
  intros Hs. unfold lock. do 2 wp_step. destruct busy; simpl; [done|]. do 2 wp_step.
  destruct (is_open s) eqn:Ho; [by wp_step|by apply open_flagged].
Qed.

Lemma recover_clean s : recovery_inv s → is_open s = true →
  wp recover (λ o s', prepared (is_done o) s') s.
Proof.
  intros Hs Ho. unfold recover. do 2 wp_step.
  destruct (needs_recovery s) eqn:Hn; [|wp_step; by apply Hs].
  do 2 wp_step. apply wp_cdk; [|intros; by apply flagged_inv..]. intros w r Hc. do 2 wp_step.
  destruct ((failed r =? 0) && (skipped r =? 0)) eqn:Hr; [|by apply flagged_inv].
  wp_step. apply andb_true_iff in Hr as [Hf%Z.eqb_eq Hk%Z.eqb_eq].
  split; [done|]. by eapply sagas_recovered.
Qed.

Lemma ready_clean busy s : recovery_inv s → wp (ready busy) (λ o s', prepared (is_done o) s') s.
Proof.
  intros Hs. unfold ready. wp_step. eapply wp_mono; [|by apply lock_open].
  intros [[]|e|] s' [Hi Ho]; [|done..]. wp_step. specialize (Ho eq_refl).
  eapply wp_mono; [|by apply recover_clean]. by intros [].
Qed.

(** A call that runs clean after its prologue. *)
Lemma ready_then busy {A} (k : M (Slot W) anyhow A) s :
  (∀ s', clean s' → wp k (λ _ s'', recovery_inv s'') s') →
  recovery_inv s → wp (_ ← ready busy; k) (λ _ s', recovery_inv s') s.
Proof.
  intros Hk Hs. wp_step. eapply wp_mono; [|by apply ready_clean].
  intros [[]|e|] s' Hp; [by apply Hk|done..].
Qed.

Lemma inv_clean_then {E A} (m : M (Slot W) E A) s :
  inv clean m → clean s → wp m (λ _ s', recovery_inv s') s.
Proof. intros Hm Hs. eapply wp_mono; [|by apply Hm]. intros; by apply clean_inv. Qed.
Lemma inv_flagged_then {E A} (m : M (Slot W) E A) s :
  inv flagged m → flagged s → wp m (λ _ s', recovery_inv s') s.
Proof. intros Hm Hs. eapply wp_mono; [|by apply Hm]. intros; by apply flagged_inv. Qed.

Ltac benign_ops := unfold_ops; repeat inv_step; try (by apply inv_benign);
  try apply inv_clean_ledger; try (by apply inv_modify).

Lemma started_none {X} (c : CdkCmd X) x s :
  started c x = ∅ → flagged s → sagas (wallet s) ⊆ started c x → clean s.
Proof. intros E [Ho _] Hs. split; [done|]. set_solver. Qed.

Lemma redeem_recovery policy id encoded proofs s :
  clean s → wp (redeem policy id encoded proofs) (λ _ s', recovery_inv s') s.
Proof.
  intros Hs. unfold redeem. do 4 wp_step.
  apply wp_flagged; [split; [apply Hs|done]|by destruct Hs|intros x s1 Hf1 Hs1|intros; by apply flagged_inv..].
  do 2 wp_step. destruct (_ <=? x); [|by apply flagged_inv]. do 2 wp_step.
  apply inv_clean_then; [benign_ops|]. change (clean s1). by eapply started_none; [|exact Hf1|exact Hs1].
Qed.

Lemma collect_recovery busy site policy encoded : inv recovery_inv (collect busy site policy encoded).
Proof.
  apply inv_timeout. intros s Hs. unfold collect_inner. do 2 wp_step.
  destruct (validate_token policy encoded) as [token|]; [|done].
  do 2 wp_step. eapply wp_mono; [|by apply lock_open]. intros [[]|e|] s1 [Hi Ho]; [|done..].
  wp_step. eapply wp_mono; [|by apply recover_clean; auto]. intros [[]|e|] s2 Hc; [|done..].
  wp_step. assert (inv clean (check_proofs policy token)) as Hp by benign_ops.
  eapply wp_mono; [|by apply Hp]. intros [proofs|e|] s3 Hs3; [|by apply clean_inv..].
  do 2 wp_step. eapply wp_mono; [|by apply inv_clean_ledger].
  intros [r|e|] s4 Hs4; [|by apply clean_inv..]. destruct r.
  - by apply redeem_recovery.
  - do 2 wp_step. apply wp_benign; [done..|]. intros [txs|e|] s5 Hs5 _; [|by apply clean_inv..].
    destruct (existsb _ txs); [|by apply redeem_recovery]. apply inv_clean_then; [benign_ops|exact Hs5].
  - wp_step. by apply clean_inv.
  - wp_step. by apply clean_inv.
Qed.

Lemma mint_invoice_recovery busy amount : inv recovery_inv (mint_invoice busy amount).
Proof.
  apply inv_timeout. intros s. apply ready_then. intros s' Hs'.
  apply inv_clean_then; [benign_ops|done].
Qed.

Lemma wallet_op_flagged {X} (c : CdkCmd X) (Q : outcome anyhow X → Slot W → Prop) s :
  flagged s → clean s → (∀ x, started c x = ∅) →
  (∀ x s', flagged s' → clean s' → Q (Done x) s') →
  (∀ e s', flagged s' → Q (Fail e) s') → (∀ s', flagged s' → Q Gone s') → wp (wallet_op c) Q s.
Proof.
  intros Hf Hs Hst Hok Hfail Hgone. unfold wallet_op. wp_step. apply wp_flagged; auto.
  intros x s' Hf' Hs'. apply Hok; [done|]. eapply started_none; eauto.
Qed.

Lemma wallet_op_both {X} (c : CdkCmd X) (Q : outcome anyhow X → Slot W → Prop) s :
  benign c = true → flagged s → clean s →
  (∀ o s', flagged s' → clean s' → Q o s') → wp (wallet_op c) Q s.
Proof.
  intros Hb Hf Hs HQ. unfold wallet_op. wp_step. apply wp_benign; [done..|].
  intros o s' Hs' Hn. assert (flagged s') by (split; [apply Hs'|by rewrite Hn; apply Hf]).
  destruct o; auto.
Qed.

Lemma collect_mint_invoice_recovery busy id amount invoice :
  inv recovery_inv (collect_mint_invoice busy id amount invoice).
Proof.
  apply inv_timeout. intros s. apply ready_then. intros s0 Hs0.
  assert (inv clean (has_mint_transaction id amount invoice)) as Htx by benign_ops.
  wp_step. eapply wp_mono; [|by apply Htx]. intros [b|e|] s1 Hs1; [|by apply clean_inv..].
  destruct b; [wp_step; by apply clean_inv|].
  wp_step. assert (inv clean (wallet_op (GetMintQuote id))) as Hq by benign_ops.
  eapply wp_mono; [|by apply Hq]. intros [found|e|] s2 Hs2; [|by apply clean_inv..].
  do 2 wp_step. destruct found as [quote|]; simpl; [|by apply clean_inv].
  do 2 wp_step. destruct (_ && _); [|by apply clean_inv]. do 2 wp_step.
  assert (flagged (set_needs_recovery true s2)) as Hf by (split; [apply Hs2|done]).
  assert (clean (set_needs_recovery true s2)) as Hc by exact Hs2.
  revert Hf Hc. generalize (set_needs_recovery true s2). clear. intros s Hf Hs.
  wp_step. apply wallet_op_flagged; [done|done|done| |intros; by apply flagged_inv|intros; by apply flagged_inv].
  intros q s1 Hf1 Hs1. wp_step.
  eapply wp_mono with (Q := λ o s', flagged s' ∧ (is_done o = true → clean s')).
  2: { destruct (0 <? q_amount_mintable q); [|by wp_step].
       apply wallet_op_flagged; try done. }
  intros [[]|e|] s2 [Hf2 Hs2]; [|by apply flagged_inv..]. specialize (Hs2 eq_refl).
  wp_step. unfold has_mint_transaction. wp_step. apply wallet_op_both; [done..|].
  intros [txs|e|] s3 Hf3 Hs3; [|by apply flagged_inv..]. do 3 wp_step.
  destruct (existsb _ txs); [|by apply flagged_inv]. wp_step. by apply clean_inv.
Qed.

Lemma can_prune_recovery busy time id amount invoice :
  inv recovery_inv (can_prune_mint_deposit busy time id amount invoice).
Proof.
  apply inv_timeout. intros s. apply ready_then. intros s' Hs'.
  apply inv_clean_then; [benign_ops|done].
Qed.

Lemma remove_retired_recovery busy id : inv recovery_inv (remove_retired_mint_quote busy id).
Proof.
  apply inv_timeout. intros s. apply ready_then. intros s' Hs'.
  apply inv_clean_then; [benign_ops|done].
Qed.

(** A sweep step leaves the flag set, and the wallet clean when it succeeds. *)
Lemma sweep_quote_flagged time associated id s :
  flagged s → clean s →
  wp (sweep_quote time associated id)
    (λ o s', flagged s' ∧ (is_done o = true → clean s')) s.
Proof.
  intros Hf Hs. unfold sweep_quote. wp_step. apply wallet_op_flagged; try done.
  intros quote s1 Hf1 Hs1. wp_step.
  eapply wp_mono with (Q := λ _ s', flagged s' ∧ clean s').
  2: { case_bool_decide; [by wp_step|]. unfold definitively_unpaid.
       destruct (looks_unpaid time quote); [|by wp_step]. wp_step.
       apply wallet_op_both; [done..|]. intros [[r|]|e|] s2 Hf2 Hs2; try done; by wp_step. }
  intros [b|e|] s2 [Hf2 Hs2]; [|done..]. destruct b.
  - apply wallet_op_both; [done..|]. intros [[]|e|] s3 Hf3 Hs3; done.
  - destruct (0 <? q_amount_mintable quote); [|by wp_step].
    apply wallet_op_flagged; try done.
Qed.

Lemma sweep_quotes_recovery time associated quotes s :
  clean s → wp (sweep_quotes time associated quotes) (λ _ s', recovery_inv s') s.
Proof.
  revert s. induction quotes as [|q quotes IH]; intros s Hs; simpl; [wp_step; by apply clean_inv|].
  do 4 wp_step. wp_step. wp_step.
  eapply wp_mono; [|apply sweep_quote_flagged; [split; [apply Hs|done]|exact Hs]].
  intros [[]|e|] s1 [Hf1 Hs1].
  - do 2 wp_step. apply IH. exact (Hs1 eq_refl).
  - do 2 wp_step. eapply wp_mono; [|apply recover_clean; [by apply flagged_inv|apply Hf1]].
    intros [[]|e'|] s2 Hs2; [by apply IH|done..].
  - by apply flagged_inv.
Qed.

Lemma recover_deposits_recovery busy time associated :
  inv recovery_inv (recover_mint_deposits busy time associated).
Proof.
  apply inv_timeout. intros s. apply ready_then. intros s0 Hs0. wp_step.
  assert (inv clean (wallet_op GetUnissuedMintQuotes)) as Hq by benign_ops.
  eapply wp_mono; [|by apply Hq]. intros [quotes|e|] s1 Hs1; [|by apply clean_inv..].
  do 2 wp_step. by apply sweep_quotes_recovery.
Qed.

Lemma send_request_recovery now request amount max_total state s :
  clean s → wp (send_request now request amount max_total state) (λ _ s', recovery_inv s') s.
Proof.
  intros Hs. unfold send_request. do 4 wp_step.
  apply wp_flagged; [split; [apply Hs|done]|exact Hs| |intros; by apply flagged_inv|intros; by apply flagged_inv].
  intros p s1 Hf1 Hs1.
  destruct (max_total <? total_amount p).
  - do 2 wp_step. apply wp_cdk; [|intros; by apply flagged_inv..]. intros w [] Hc.
    do 2 wp_step. wp_step. apply clean_inv. split; [apply Hf1|]. simpl.
    assert (sagas w ⊆ sagas (wallet s1) ∖ {[operation_id p]}) by (eapply sagas_ended; eauto).
    simpl in Hs1. set_solver.
  - do 2 wp_step. apply wp_on_ledger.
    2: { intros s' [->| ->]; (split; [|by apply flagged_inv]); do 2 wp_step;
         (eapply wp_mono; [|by apply inv_flagged_cdk]); intros [?|?|] s2 Hf2;
         try (wp_step); by apply flagged_inv. }
    do 2 wp_step. apply wp_cdk; [|intros; by apply flagged_inv..]. intros w [] Hc.
    set (s2 := set_wallet w _ _). assert (clean s2) as Hs2.
    { split; [apply Hf1|]. simpl.
      assert (sagas w ⊆ sagas (wallet s1) ∖ {[operation_id p]}) by (eapply sagas_ended; eauto).
      simpl in Hs1. set_solver. }
    apply inv_clean_then; [|exact Hs2]. benign_ops.
Qed.

Lemma automatic_payout_recovery busy now later policy :
  inv recovery_inv (automatic_payout busy now later policy).
Proof.
  intros s Hs. unfold automatic_payout. destruct busy; [by wp_step|].
  wp_step. eapply wp_mono; [|by apply lock_open]. intros [[]|e|] s1 [Hi Ho]; [|done..].
  specialize (Ho eq_refl).
  set (P := λ s : Slot W, recovery_inv s ∧ is_open s = true).
  assert (∀ A (f : Ledg.Ledger → Ledg.Ledger * A), inv P (on_ledger f)) as Hl.
  { intros A f. by apply inv_on_ledger. }
  wp_step. eapply wp_mono; [|apply Hl; by split]. intros [row|e|] s2 Hs2; [|apply Hs2..].
  wp_step. eapply wp_mono with (Q := λ _ s', P s').
  2: { lazymatch goal with |- wp ?m _ _ =>
         assert (inv P m) as Hm by (destruct row; repeat inv_step; apply Hl) end.
       by apply Hm. }
  intros [state|e|] s3 Hs3; [|apply Hs3..].
  destruct (_ || _); [wp_step; apply Hs3|].
  do 2 wp_step. eapply wp_mono; [|apply recover_clean; apply Hs3].
  intros [[]|e|] s4 Hs4; [|done..].
  wp_step. assert (inv clean (wallet_op TotalBalance)) as Hq by benign_ops.
  eapply wp_mono; [|by apply Hq]. intros [bal|e|] s5 Hs5; [|by apply clean_inv..].
  destruct (negb _); [wp_step; by apply clean_inv|].
  wp_step. eapply wp_mono; [|by apply inv_clean_ledger]. intros [[]|e|] s6 Hs6; [|by apply clean_inv..].
  by apply send_request_recovery.
Qed.

Lemma inv_quiet (P : Slot W → Prop) {E A} (m : M (Slot W) E A) : inv P m → inv P (quiet m).
Proof. intros Hm. unfold quiet. by repeat inv_step. Qed.

Lemma own_process_recovery {E A} (m : M (Slot W) E A) : inv recovery_inv (own_process m).
Proof.
  intros s _. unfold own_process. do 4 wp_step.
  apply wp_timeout. intros fs.
  by destruct ((quiet m (restarted s) fs).1.1); wp_step.
Qed.

Lemma exec_recovery c busy : inv recovery_inv (exec c busy).
Proof.
  destruct c; simpl; try apply own_process_recovery; try apply inv_quiet;
    auto using collect_recovery, mint_invoice_recovery, collect_mint_invoice_recovery,
      can_prune_recovery, remove_retired_recovery, recover_deposits_recovery,
      automatic_payout_recovery.
  by apply inv_modify.
Qed.

(** C25: the recovery flag is sound.  In every history of calls on a mint, with any
    call failing or dropped at any step, an open wallet whose [needs_recovery] flag
    is clear has no incomplete operation: a redemption, deposit or payout that was
    cut off is always recovered before the wallet is used again. *)
Theorem recovery_flag_sound s h : recovery_inv s → recovery_inv (run s h).2.
Proof. apply history_inv, exec_recovery. Qed.
End recovery.

(** ** Payouts *)

(** Follow the confirmations: [Some (Some op)] when the outcome of [op] is
    uncertain, [None] when a payment was confirmed while another was uncertain. *)
Fixpoint scan (cur : option string) (tr : list Event) : option (option string) :=
  match tr with
  | [] => Some cur
  | ConfirmSent op :: tr' => match cur with None => scan (Some op) tr' | Some _ => None end
  | (ConfirmDone op | SagaGone op) :: tr' =>
      scan (if bool_decide (cur = Some op) then None else cur) tr'
  | _ :: tr' => scan cur tr'
  end.

(** An uncertain payment is guarded by the journal. *)
Definition payout_inv (s : Slot W) : Prop :=
  ∃ cur, scan None (trace s) = Some cur ∧
    ∀ op, cur = Some op → ∃ st, Ledg.payout_row (ledger s) = Some st ∧ Ledg.pending st = Some op.
(** No payment is uncertain. *)
Definition idle (s : Slot W) : Prop := scan None (trace s) = Some None.

Lemma idle_inv s : idle s → payout_inv s.
Proof. intros Hs. exists None. done. Qed.

Lemma scan_app cur a b : scan cur (a ++ b) = scan cur a ≫= λ c, scan c b.
Proof. revert cur. induction a as [|[] a IH]; intros cur; simpl; auto. by destruct cur. Qed.

Definition is_confirm {X} (c : CdkCmd X) : bool := match c with Confirm _ => true | _ => false end.

Lemma scan_answer {X} (c : CdkCmd X) x cur :
  is_confirm c = false →
  scan cur (on_call c) = Some cur ∧
  ∃ cur', scan cur (on_call c ++ on_answer c x) = Some cur' ∧ (cur' = cur ∨ cur' = None).
Proof.
  intros Hc. destruct c; try discriminate Hc; simpl; split; try done; try (by exists cur; auto).
  - exists cur. split; [|by left]. induction x as [|tx x IH]; simpl; [done|].
    by destruct (tx_memo tx), (tx_completed tx).
  - destruct x; simpl; [by exists cur; auto|]. case_bool_decide; eauto.
Qed.

Lemma inv_payout_cdk {X} (c : CdkCmd X) : is_confirm c = false → inv payout_inv (cdk c).
Proof.
  intros Hc. apply inv_cdk.
  - intros s w (cur & Hs & Hr). destruct c; try discriminate Hc; exists cur; simpl;
      by rewrite app_nil_r.
  - intros s w x (cur & Hs & Hr). destruct (scan_answer c x cur Hc) as [_ (cur' & Hs' & Hcur)].
    exists cur'. simpl. rewrite scan_app, Hs. simpl. split; [done|].
    destruct Hcur as [->| ->]; [done|]. intros op [=].
Qed.

Lemma inv_idle_cdk {X} (c : CdkCmd X) : is_confirm c = false → inv idle (cdk c).
Proof.
  intros Hc. apply inv_cdk.
  - intros s w Hs. destruct c; try discriminate Hc; unfold idle; simpl; by rewrite app_nil_r.
  - intros s w x Hs. destruct (scan_answer c x None Hc) as [_ (cur' & Hs' & Hcur)].
    unfold idle in *. simpl. rewrite scan_app, Hs. simpl. by destruct Hcur as [->| ->].
Qed.

Lemma inv_idle_ledger {A} (f : Ledg.Ledger → Ledg.Ledger * A) : inv idle (on_ledger f).
Proof. by apply inv_on_ledger. Qed.

Lemma inv_payout_ledger {A} (f : Ledg.Ledger → Ledg.Ledger * A) :
  (∀ l, Ledg.payout_row (f l).1 = Ledg.payout_row l) → inv payout_inv (on_ledger f).
Proof.
  intros Hf. apply inv_on_ledger. intros s (cur & Hs & Hr). exists cur. split; [done|].
  intros op Hop. simpl. rewrite Hf. auto.
Qed.

(** When the saved state has no pending payment, none is uncertain. *)
Lemma saved_idle s :
  payout_inv s → Ledg.pending (default Ledg.PayoutState_default (Ledg.payout_row (ledger s))) = None →
  idle s.
Proof.
  intros (cur & Hs & Hr) Hp. unfold idle. rewrite Hs. destruct cur as [op|]; [|done].
  destruct (Hr op eq_refl) as (st & Hst & Hop). rewrite Hst in Hp. simpl in Hp. congruence.
Qed.

Lemma send_request_payout now request amount max_total state s :
  idle s → wp (send_request now request amount max_total state) (λ _ s', payout_inv s') s.
Proof.
  intros Hs. unfold send_request. do 4 wp_step.
  eapply wp_mono; [|by apply inv_idle_cdk]. intros [p|e|] s1 Hs1; [|by apply idle_inv..].
  destruct (max_total <? total_amount p).
  { do 2 wp_step. eapply wp_mono; [|by apply inv_idle_cdk].
    intros [[]|e|] s2 Hs2; [|by apply idle_inv..]. do 3 wp_step. by apply idle_inv. }
  do 2 wp_step. apply wp_on_ledger.
  2: { intros s' [->| ->]; (split; [|by apply idle_inv]); do 2 wp_step;
       (eapply wp_mono; [|by apply inv_idle_cdk]); intros [?|?|] s2 Hs2; try wp_step;
       by apply idle_inv. }
  set (s2 := set_ledger _ _). assert (idle s2) as Hs2 by exact Hs1.
  assert (∀ w, payout_inv (set_wallet w (on_call (Confirm (operation_id p))) s2)) as Hsent.
  { intros w. exists (Some (operation_id p)). simpl. unfold idle in Hs2. simpl in Hs2.
    rewrite scan_app, Hs2. split; [done|]. intros op [= <-]. by eexists. }
  do 2 wp_step. apply wp_cdk; [|auto..]. intros w x _. 
  set (s3 := set_wallet _ _ _). assert (idle s3) as Hs3.
  { unfold idle in *. simpl in *. rewrite scan_app, Hs2. simpl. by rewrite bool_decide_eq_true_2. }
  do 1 wp_step. eapply wp_mono; [|by apply inv_idle_ledger].
  intros [[]|e|] s4 Hs4; [|by apply idle_inv..]. wp_step. by apply idle_inv.
Qed.

Ltac payout_ops := unfold_ops; repeat inv_step; try (by apply inv_payout_cdk);
  try (apply inv_payout_ledger; intros l; unfold Ledg.open, Ledg.reserve, Ledg.claim; by repeat case_match);
  try (by apply inv_modify).

(** Reading the saved state. *)
Lemma wp_saved (Q : outcome anyhow (option Ledg.PayoutState) → Slot W → Prop) s :
  payout_inv s →
  (∀ s', payout_inv s' → Q (Done (Ledg.payout_row (ledger s'))) s') →
  (∀ s', payout_inv s' → Q (Fail "storage") s' ∧ Q Gone s') → wp saved Q s.
Proof.
  intros Hs Hok Hbad. apply wp_on_ledger; simpl.
  - by apply (Hok (set_ledger (ledger s) s)).
  - intros s' [->| ->]; by apply Hbad.
Qed.

Lemma automatic_payout_payout busy now later policy :
  inv payout_inv (automatic_payout busy now later policy).
Proof.
  intros s Hs. unfold automatic_payout. destruct busy; [by wp_step|].
  assert (inv payout_inv (lock false)) as Hl by payout_ops.
  assert (inv payout_inv recover) as Hr by payout_ops.
  wp_step. eapply wp_mono; [|by apply Hl]. intros [[]|e|] s1 Hs1; [|done..].
  wp_step. apply wp_saved; [done| |done]. intros s2 Hs2. wp_step.
  eapply wp_mono with (Q := λ o s', payout_inv s' ∧
    ∀ st, o = Done st → Ledg.pending st = None → idle s').
  2: { destruct (Ledg.payout_row (ledger s2)) as [st|] eqn:Hrow.
       - wp_step. split; [done|]. intros st' [= <-] Hp. apply saved_idle; [done|]. by rewrite Hrow.
       - assert (idle s2) as Hi by (apply saved_idle; [done|]; by rewrite Hrow).
         wp_step. eapply wp_mono; [|by apply inv_idle_ledger].
         intros [[]|e|] s3 Hs3; [wp_step|..]; (split; [by apply idle_inv|done]). }
  intros [state|e|] s3 [Hs3 Hi]; [|done..].
  destruct (is_some (Ledg.pending state)) eqn:Hp; simpl; [by wp_step|].
  destruct (Ledg.pending state) eqn:Hpend; [done|]. specialize (Hi state eq_refl Hpend).
  destruct (now <? _); [by wp_step|].
  assert (inv idle recover) as Hri.
  { unfold_ops. repeat inv_step; try (by apply inv_idle_cdk); by apply inv_modify. }
  do 2 wp_step. eapply wp_mono; [|by apply Hri]. intros [[]|e|] s4 Hs4; [|by apply idle_inv..].
  unfold wallet_op. do 2 wp_step. eapply wp_mono; [|by apply inv_idle_cdk].
  intros [bal|e|] s5 Hs5; [|by apply idle_inv..].
  destruct (negb _); [wp_step; by apply idle_inv|].
  wp_step. eapply wp_mono; [|by apply inv_idle_ledger].
  intros [[]|e|] s6 Hs6; [|by apply idle_inv..]. by apply send_request_payout.
Qed.

Lemma pay_payout later mint encoded amount max_total :
  inv payout_inv (pay later mint encoded amount max_total).
Proof.
  intros s Hs. unfold pay. assert (inv payout_inv open) as Ho by payout_ops.
  assert (inv payout_inv recover) as Hr by payout_ops.
  do 2 wp_step. destruct (validate_request encoded mint amount) as [[request n]|e]; [|done].
  do 2 wp_step. destruct (n <=? max_total); [|done].
  wp_step. eapply wp_mono; [|by apply Ho]. intros [[]|e|] s1 Hs1; [|done..].
  do 2 wp_step. eapply wp_mono; [|by apply Hr]. intros [[]|e|] s2 Hs2; [|done..].
  wp_step. apply wp_saved; [done| |done]. intros s3 Hs3. do 2 wp_step.
  destruct (is_none _) eqn:Hp; [|done]. apply send_request_payout, saved_idle; [done|].
  by destruct (Ledg.pending _).
Qed.

Lemma resolve_payout now s :
  payout_inv s →
  wp (resolve now (default Ledg.PayoutState_default (Ledg.payout_row (ledger s)))) (λ _ s', payout_inv s') s.
Proof.
  intros Hs. unfold resolve. destruct (Ledg.pending _) as [id|] eqn:Hp; [|by wp_step].
  do 2 wp_step. destruct (operation_ok id); [|done].
  wp_step. unfold wallet_op. wp_step. apply wp_cdk.
  - intros w x _. destruct x.
    + wp_step. destruct Hs as (cur & Hs & Hr). exists cur. simpl. by rewrite app_nil_r.
    + set (s1 := set_wallet _ _ _). assert (idle s1) as Hs1.
      { destruct Hs as (cur & Hs & Hr). unfold idle. simpl. rewrite scan_app, Hs. simpl.
        case_bool_decide as Hc; [done|]. destruct cur as [op|]; [|done].
        destruct (Hr op eq_refl) as (st & Hst & Hop). rewrite Hst in Hp. simpl in Hp. congruence. }
      wp_step. eapply wp_mono; [|by apply inv_idle_ledger].
      intros [[]|e|] s2 Hs2; [wp_step|..]; by apply idle_inv.
  - intros w e. destruct Hs as (cur & Hs & Hr). exists cur. simpl. by rewrite app_nil_r.
  - intros w. destruct Hs as (cur & Hs & Hr). exists cur. simpl. by rewrite app_nil_r.
Qed.

Lemma pending_payout now reclaim : inv payout_inv (pending now reclaim).
Proof.
  intros s Hs. unfold pending. assert (inv payout_inv open) as Ho by payout_ops.
  assert (inv payout_inv recover) as Hr by payout_ops.
  wp_step. eapply wp_mono; [|by apply Ho]. intros [[]|e|] s1 Hs1; [|done..].
  do 2 wp_step. eapply wp_mono; [|by apply Hr]. intros [[]|e|] s2 Hs2; [|done..].
  wp_step. eapply wp_mono with (Q := λ _ s', payout_inv s').
  2: { lazymatch goal with |- wp ?m _ _ => assert (inv payout_inv m) as Hm
         by (destruct reclaim; repeat inv_step; by apply inv_payout_cdk) end. by apply Hm. }
  intros [[]|e|] s3 Hs3; [|done..].
  wp_step. apply wp_saved; [done| |done]. intros s4 Hs4.
  wp_step. eapply wp_mono; [|by apply resolve_payout]. intros [st|e|] s5 Hs5; [|done..].
  assert (inv payout_inv (wallet_op GetPendingSends)) as Hq by payout_ops.
  wp_step. eapply wp_mono; [|by apply Hq]. intros [sends|e|] s6 Hs6; [|done..]. by wp_step.
Qed.

Lemma exec_payout c busy : inv payout_inv (exec c busy).
Proof.
  assert (∀ {E A} (m : M (Slot W) E A), inv payout_inv m → inv payout_inv (own_process m)) as Hown.
  { intros E A m Hm. unfold own_process, quiet. repeat inv_step; try done; by apply inv_modify. }
  destruct c; simpl; try apply Hown; try apply inv_quiet; try (by apply inv_modify);
    auto using automatic_payout_payout, pay_payout, pending_payout; try (by payout_ops).
  unfold recover_mint_deposits. repeat inv_step; try (by payout_ops).
  apply inv_sweep; [intros id| |done|done]; payout_ops.
Qed.

(** C24: payouts are not repeated.  In every history of calls on a mint, a payment
    is confirmed only when no earlier payment is uncertain: between sending a
    confirmation whose outcome is unknown and the next confirmation, the wallet
    reported success, or that the operation is gone.  And while a payment is
    uncertain the journal holds it as pending, across failures and restarts. *)
Theorem payouts_not_repeated s h : payout_inv s → payout_inv (run s h).2.
Proof. apply history_inv, exec_payout. Qed.
End history.

(** ** A concrete wallet *)

Module Examples.
Import Toy.

#[local] Instance no_urls : UrlLib := λ _, Err "url".
#[local] Instance no_mints : MintUrlLib := λ _, Err "mint".
#[local] Instance no_invoices : InvoiceLib := λ _, None.

Definition example_token : Token :=
  {| tok_unit := Some Sat; tok_mint_url := Ok "https://mint"; tok_value := Ok 5;
     tok_spending_conditions := Ok []; tok_secrets := ["b"; "a"]; tok_proofs := ["p"] |}.

(** The state is the set of incomplete operations. *)
Definition answer (X : Type) (c : CdkCmd X) : gset string → gset string * result Error X :=
  match c with
  | RecoverIncompleteSagas => λ w, (∅, Ok {| failed := 0; skipped := 0 |})
  | VerifyTokenDleq _ => λ w, (w, Ok tt)
  | TokenProofs t => λ w, (w, Ok (Ok (tok_proofs t)))
  | GetProofsFee _ => λ w, (w, Ok 1)
  | ListIncoming => λ w, (w, Ok [])
  | ReceiveProofs _ _ _ => λ w, (w, Ok 4)
  | TotalBalance => λ w, (w, Ok 100)
  | PrepareSend _ => λ w, ({["send"]} ∪ w, Ok "send")
  | ConfirmSend op => λ w, (w ∖ {[op]}, Ok "token")
  | GetMintQuotes => λ w, (w, Ok [])
  | NewMintQuote _ => λ w, (w, Err OtherError)
  | GetMintQuote _ => λ w, (w, Ok None)
  | CheckMintQuoteStatus _ => λ w, (w, Err OtherError)
  | Mint _ => λ w, (w, Ok tt)
  | RemoveMintQuote _ => λ w, (w, Ok tt)
  | GetUnissuedMintQuotes => λ w, (w, Ok [])
  | GetMintQuoteStatus _ => λ w, (w, Ok None)
  | PreparePayRequest _ n => λ w, ({["op"]} ∪ w, Ok {| operation_id := "op"; total_amount := n |})
  | Cancel op => λ w, (w ∖ {[op]}, Ok tt)
  | Confirm op => λ w, (w ∖ {[op]}, Ok tt)
  | RevokeSend op => λ w, (w ∖ {[op]}, Ok tt)
  | GetSaga op => λ w, (w, Ok (bool_decide (op ∈ w)))
  | GetPendingSends => λ w, (w, Ok [])
  end.
#[local] Instance toy_lib : Lib (gset string) :=
  {| wallet_call := answer;
     wallet_cut X c b w :=
       match c with
       | ReceiveProofs _ _ _ => if b then {["receive"]} ∪ w else w
       | PreparePayRequest _ _ => if b then {["op"]} ∪ w else w
       | _ => w
       end;
     token_from_str s := if bool_decide (s = "cashuBx") then Some example_token else None;
     request_from_str _ := None;
     operation_ok _ := true |}.
#[local] Instance toy_sagas : Sagas.
Proof.
  refine {| sagas := λ w : gset string, w |}.
  - intros X [] b w Hb; try discriminate Hb; simpl; done.
  - intros X [] w w' x; simpl; intros [= <- ?]; subst; set_solver.
  - intros w w' r [= <- _] _ _. done.
  - intros op w w' [[= <-]|[= <-]]; set_solver.
Defined.

Definition fresh_slot : Slot (gset string) :=
  {| is_open := false; needs_recovery := false; deposit_cursor := None; ledger := Ledg.empty;
     wallet := ∅; trace := [] |}.
Definition example_terms : Terms.PaymentPolicy := {| Terms.price := 4; Terms.mint := "https://mint" |}.
Definition example_payout : PayoutPolicy :=
  {| po_mint := "https://mint";
     po_request := {| pr_unit := Some Sat; pr_amount := None; pr_single_use := None; pr_mints := [];
                      pr_mint_preferred := None; pr_supported_methods := []; pr_transports := [] |};
     po_amount := 10; po_max_fee := 1; po_interval := None; po_threshold := Some 50 |}.

Lemma collect_ok_is_paid_witness :
  (collect false "site" example_terms "cashuBx" fresh_slot []).1.1 = Done tt ∧
  ∃ token, validate_token example_terms "cashuBx" = Ok token ∧
    paid (token_id token) "site" 4 (collect false "site" example_terms "cashuBx" fresh_slot []).1.2.
Proof.
  assert ((collect false "site" example_terms "cashuBx" fresh_slot []).1.1 = Done tt) as Hd
    by (vm_compute; reflexivity).
  split; [exact Hd|].
  destruct (collect_ok_is_paid false "site" example_terms "cashuBx" fresh_slot [] Hd)
    as (token & Hv & _ & Hp). exists token. split; [exact Hv|exact Hp].
Defined.

(** A redemption dropped in the middle, then the same token again. *)
Definition example_history : list (Call_ * bool * list Fate) :=
  [(Collect "site" example_terms "cashuBx", false,
      [Proceed; Proceed; Proceed; Proceed; Proceed; Proceed; Dropped true]);
   (Collect "site" example_terms "cashuBx", false, []);
   (Collect "site" example_terms "cashuBx", false, []);
   (AutomaticPayout 0 0 example_payout, false, []);
   (AutomaticPayout 70 71 example_payout, false, repeat Proceed 5 ++ [Fails true]);
   (RestartServer, false, []);
   (AutomaticPayout 500 500 example_payout, false, [])].

Lemma recovery_flag_sound_witness :
  map snd (run fresh_slot example_history).1 =
    [Fail Unavailable; Done tt; Fail Invalid; Done tt; Fail Unavailable; Done tt; Done tt] ∧
  recovery_inv (run fresh_slot example_history).2.
Proof.
  split; [vm_compute; reflexivity|].
  apply (recovery_flag_sound fresh_slot example_history). intros Ho _. discriminate Ho.
Defined.

Lemma payouts_not_repeated_witness :
  filter (λ e, e = ConfirmSent "op") (trace (run fresh_slot example_history).2) =
    [ConfirmSent "op"; ConfirmSent "op"] ∧
  Ledg.pending <$> Ledg.payout_row (ledger (run fresh_slot example_history).2) = Some (Some "op") ∧
  payout_inv (run fresh_slot example_history).2.
Proof.
  split; [vm_compute; reflexivity|]. split; [vm_compute; reflexivity|].
  apply (payouts_not_repeated fresh_slot example_history). exists None. split; [reflexivity|].
  intros op Hop. discriminate Hop.
Defined.
End Examples.
End Wallets.
