(* ===== verification/Http.v ===== *)
(** * Header maps and addresses as text

    The operations of [http::HeaderMap] and of pingora's header types that the
    proxy uses, and [Display] for [IpAddr].  A header map is a list of values with
    lower-case names ([HeaderMap] of [LnPolicy]); looking up a name ignores case,
    so the names in lookups are written in lower case. *)
From S2P Require Import Prelude Text Net Extern LnPolicy.
#[local] Open Scope string_scope.
#[local] Open Scope list_scope.
#[local] Open Scope Z_scope.

Module Http.
Export Ln (get_all, HeaderMap).

(** A value is accepted as a header value ([HeaderValue::try_from]). *)
Class HeaderValues := header_value_ok : string → bool.
(** Text of visible ASCII characters is. *)
Class HeaderValueLaws `{HeaderValues} : Prop :=
  header_value_visible : ∀ v, bytes_all visible v = true → header_value_ok v = true.

Definition named (name : string) (nv : string * string) : bool := bool_decide (nv.1 = name).
Definition contains_key (name : string) (hs : HeaderMap) : bool := existsb (named name) hs.
(** [HeaderMap::get]: the first value *)
Definition get (name : string) (hs : HeaderMap) : option string := head (get_all name hs).
(** [remove_header]: every value *)
Definition remove_header (name : string) (hs : HeaderMap) : HeaderMap :=
  List.filter (λ nv, negb (named (to_ascii_lowercase name) nv)) hs.
(** [insert_header]: replaces the values there are *)
Definition insert_header `{HeaderValues} (name value : string) (hs : HeaderMap) :
    result anyhow HeaderMap :=
  _ ← ensure (header_value_ok value) "InvalidHeader";
  mret (remove_header name hs ++ [(to_ascii_lowercase name, value)]).

Lemma get_all_app name a b : get_all name (a ++ b) = get_all name a ++ get_all name b.
Proof. unfold get_all. by rewrite List.filter_app, map_app. Qed.

Lemma get_all_filter name p hs :
  (∀ v, p (name, v) = true) → get_all name (List.filter p hs) = get_all name hs.
Proof.
  intros Hp. induction hs as [|[n v] hs IH]; [done|]. unfold get_all in *. cbn [List.filter].
  destruct (bool_decide_reflect (n = name)) as [->|Hn].
  - rewrite Hp. cbn [List.filter map fst snd]. rewrite bool_decide_eq_true_2 by done.
    cbn [map]. by rewrite IH.
  - cbn [fst]. rewrite (bool_decide_eq_false_2 (n = name)) by done.
    destruct (p (n, v)); cbn [List.filter fst]; [|exact IH].
    rewrite bool_decide_eq_false_2 by done. exact IH.
Qed.

Lemma get_all_remove name hs : get_all (to_ascii_lowercase name) (remove_header name hs) = [].
Proof.
  unfold get_all, remove_header, named. induction hs as [|[n v] hs IH]; [done|].
  cbn [List.filter fst]. destruct (bool_decide_reflect (n = to_ascii_lowercase name)) as [->|Hn];
    [done|]. cbn [negb List.filter fst]. by rewrite bool_decide_eq_false_2.
Qed.

Lemma get_all_remove_ne name other hs :
  other ≠ to_ascii_lowercase name → get_all other (remove_header name hs) = get_all other hs.
Proof.
  intros Hn. apply get_all_filter. intros v. unfold named. simpl.
  by rewrite bool_decide_eq_false_2.
Qed.

Lemma get_all_insert `{HeaderValues} name value hs hs' :
  insert_header name value hs = Ok hs' → get_all (to_ascii_lowercase name) hs' = [value].
Proof.
  intros Hi. unfold insert_header in Hi. inv_ok. subst. rewrite get_all_app, get_all_remove.
  unfold get_all. cbn [app List.filter fst]. by rewrite bool_decide_eq_true_2.
Qed.

Lemma get_all_insert_ne `{HeaderValues} name other value hs hs' :
  other ≠ to_ascii_lowercase name → insert_header name value hs = Ok hs' →
  get_all other hs' = get_all other hs.
Proof.
  intros Hn Hi. unfold insert_header in Hi. inv_ok. subst.
  rewrite get_all_app, get_all_remove_ne by done.
  unfold get_all at 2. cbn [List.filter fst]. rewrite bool_decide_eq_false_2 by done.
  by rewrite app_nil_r.
Qed.

Lemma insert_header_visible `{HeaderValueLaws} name value hs :
  bytes_all visible value = true → ∃ hs', insert_header name value hs = Ok hs'.
Proof. intros Hv. unfold insert_header. rewrite header_value_visible by done. by eexists. Qed.

Lemma contains_key_get_all name hs : contains_key name hs = negb (bool_decide (get_all name hs = [])).
Proof.
  induction hs as [|[n v] hs IH]; [done|]. unfold contains_key, get_all, named in *.
  cbn [existsb List.filter fst]. destruct (bool_decide_reflect (n = name)); [done|]. exact IH.
Qed.

(** ** [Display for IpAddr] *)

Fixpoint hex_digits (fuel : nat) (n : Z) (acc : string) : string :=
  match fuel with
  | O => acc
  | S fuel => let acc := String (hex_digit (n mod 16)) acc in
              if n / 16 =? 0 then acc else hex_digits fuel (n / 16) acc
  end.
(** [{:x}] of a [u16] *)
Definition show_hex (n : Z) : string := hex_digits 4 n "".
Fixpoint join (sep : string) (l : list string) : string :=
  match l with [] => "" | [s] => s | s :: l' => s +:+ sep +:+ join sep l' end.
Definition show_v4 (x : Z) : string :=
  join "." (map show [x / 2 ^ 24; x / 2 ^ 16 mod 256; x / 2 ^ 8 mod 256; x mod 256]).
Definition segments (x : Z) : list Z :=
  map (λ i, x / 2 ^ (16 * (7 - Z.of_nat i)) mod 65536) (seq 0 8).
(** The longest run of zero segments, the first of equals: start and length. *)
Fixpoint zero_span (i : nat) (l : list Z) (current longest : nat * nat) : nat * nat :=
  match l with
  | [] => longest
  | s :: l' =>
      if s =? 0 then
        let current := if (current.2 =? 0)%nat then (i, 1%nat) else (current.1, S current.2) in
        zero_span (S i) l' current (if (longest.2 <? current.2)%nat then current else longest)
      else zero_span (S i) l' (0%nat, 0%nat) longest
  end.
Definition show_v6 (x : Z) : string :=
  if Z.shiftr x 32 =? 65535 then "::ffff:" +:+ show_v4 (x mod 2 ^ 32)
  else
    let ss := segments x in
    let '(start, len) := zero_span 0 ss (0%nat, 0%nat) (0%nat, 0%nat) in
    if (1 <? len)%nat then
      join ":" (map show_hex (take start ss)) +:+ "::" +:+ join ":" (map show_hex (drop (start + len) ss))
    else join ":" (map show_hex ss).
Definition show_ip (a : IpAddr) : string := match a with V4 x => show_v4 x | V6 x => show_v6 x end.

Example show_ip_v4 : show_ip (V4 3221226001) = "192.0.2.17".
Proof. reflexivity. Qed.
Example show_ip_v6 : show_ip (V6 42540766411282592856903984951653826561) = "2001:db8::1".
Proof. vm_compute. reflexivity. Qed.
Example show_ip_loopback : show_ip (V6 1) = "::1" ∧ show_ip (V6 0) = "::".
Proof. vm_compute. done. Qed.
End Http.
