(* ===== verification/Flow.v ===== *)
(** * Request handlers as sequences of calls

    A request handler of the proxy is a [proc]: it makes calls that touch shared
    objects or other services, goes on with their answers, and finishes.  [post]
    proves facts about every completed run from the calls it made, whatever
    they answered; [system] runs many handlers at once on one world, a call at a
    time in any order, and keeps the history of calls. *)
From S2P Require Import Prelude.
#[local] Open Scope Z_scope.

Section proc.
Context {Cmd : Type → Type}.

Inductive proc (R : Type) : Type :=
| Done (r : R)
| Do {X : Type} (c : Cmd X) (k : X → proc R).
#[global] Arguments Done {R} r.
#[global] Arguments Do {R X} c k.

Fixpoint proc_bind {A B} (p : proc A) (f : A → proc B) : proc B :=
  match p with
  | Done a => f a
  | Do c k => Do c (λ x, proc_bind (k x) f)
  end.
#[global] Instance proc_mret : MRet proc := λ A a, Done a.
#[global] Instance proc_mbind : MBind proc := λ A B f p, proc_bind p f.

(** A call with its answer. *)
Inductive event :=
| Ev {X : Type} (c : Cmd X) (x : X).

(** [steps p tr q]: [p] makes the calls [tr] and has [q] left to do. *)
Inductive steps {R} : proc R → list event → proc R → Prop :=
| steps_nil p : steps p [] p
| steps_cons {X} (c : Cmd X) (x : X) k tr q :
    steps (k x) tr q → steps (Do c k) (Ev c x :: tr) q.

Lemma steps_do_inv {R X} (c : Cmd X) (k : X → proc R) e tr q :
  steps (Do c k) (e :: tr) q → ∃ x, e = Ev c x ∧ steps (k x) tr q.
Proof.
  intros Hs. assert (∀ p, steps p (e :: tr) q → match p with
    | Done _ => False | Do c k => ∃ x, e = Ev c x ∧ steps (k x) tr q end) as H.
  { clear. inversion 1. subst. eauto. }
  exact (H _ Hs).
Qed.
Lemma steps_snoc {R} (p : proc R) tr {X} (c : Cmd X) k x :
  steps p tr (Do c k) → steps p (tr ++ [Ev c x]) (k x).
Proof.
  remember (Do c k) as q eqn:Eq. intros H. revert Eq.
  induction H as [q|Y d y k' tr q H IH]; intros ->; simpl.
  - repeat constructor.
  - constructor. auto.
Qed.

(** The run in which each call [c] is answered by [answer c]. *)
Fixpoint follow {R} (answer : ∀ X, Cmd X → X) (p : proc R) : list event * R :=
  match p with
  | Done r => ([], r)
  | Do c k => let x := answer _ c in
              let '(tr, r) := follow answer (k x) in (Ev c x :: tr, r)
  end.
Lemma follow_do {R X} (answer : ∀ X, Cmd X → X) (c : Cmd X) (k : X → proc R) :
  (follow answer (Do c k)).2 = (follow answer (k (answer _ c))).2.
Proof. simpl. by destruct (follow answer (k (answer X c))). Qed.
(** Every answer in the trace is the one given to that call. *)
Lemma follow_answers {R} (answer : ∀ X, Cmd X → X) (p : proc R) X (c : Cmd X) (x : X) :
  Ev c x ∈ (follow answer p).1 → x = answer X c.
Proof.
  intros Hin. assert (Forall (λ e, match e with Ev c x => x = answer _ c end) (follow answer p).1) as Hall.
  { clear. induction p as [r|X c k IH]; simpl; [constructor|]. specialize (IH (answer X c)).
    destruct (follow answer (k (answer X c))). by constructor. }
  rewrite Forall_forall in Hall. apply (Hall (Ev c x)). by apply list_elem_of_In.
Qed.
Lemma follow_steps {R} (answer : ∀ X, Cmd X → X) (p : proc R) :
  steps p (follow answer p).1 (Done (follow answer p).2).
Proof.
  induction p as [r|X c k IH]; simpl; [constructor|]. specialize (IH (answer X c)).
  destruct (follow answer (k (answer X c))). by constructor.
Qed.

(** The run on a state of the environment. *)
Fixpoint run_on {R S} (answer : ∀ X, Cmd X → S → S * X) (p : proc R) (s : S) : list event * R * S :=
  match p with
  | Done r => ([], r, s)
  | Do c k => let '(s, x) := answer _ c s in
              let '(tr, r, s) := run_on answer (k x) s in (Ev c x :: tr, r, s)
  end.
Lemma run_on_steps {R S} (answer : ∀ X, Cmd X → S → S * X) (p : proc R) s :
  steps p (run_on answer p s).1.1 (Done (run_on answer p s).1.2).
Proof.
  revert s. induction p as [r|X c k IH]; intros s; simpl; [constructor|].
  destruct (answer X c s) as [s' x]. specialize (IH x s').
  destruct (run_on answer (k x) s') as [[tr r] s'']. by constructor.
Qed.

(** [post G p tr Φ]: after the calls [tr], whatever the answers, each further call
    is made with [G] true of the calls before it, and [Φ] holds at the end. *)
Fixpoint post {R} (G : list event → ∀ X, Cmd X → Prop) (p : proc R) (tr : list event)
    (Φ : list event → R → Prop) : Prop :=
  match p with
  | Done r => Φ tr r
  | Do c k => G tr _ c ∧ ∀ x, post G (k x) (tr ++ [Ev c x]) Φ
  end.

Lemma post_mono {R} G (p : proc R) tr (Φ Ψ : list event → R → Prop) :
  (∀ tr r, Φ tr r → Ψ tr r) → post G p tr Φ → post G p tr Ψ.
Proof. intros HΦ. revert tr. induction p as [r|X c k IH]; simpl; [auto|]. intros tr []; auto. Qed.

Lemma post_bind {A B} G (p : proc A) (f : A → proc B) tr Φ :
  post G p tr (λ tr a, post G (f a) tr Φ) → post G (proc_bind p f) tr Φ.
Proof. revert tr. induction p as [r|X c k IH]; simpl; [auto|]. intros tr []; auto. Qed.

Lemma post_steps {R} G (p : proc R) tr0 tr r Φ :
  post G p tr0 Φ → steps p tr (Done r) → Φ (tr0 ++ tr) r.
Proof.
  intros Hp H. revert tr0 Hp. remember (Done r) as q eqn:Eq.
  induction H as [q|X c x k tr q H IH]; intros tr0 Hp; subst; simpl in *.
  - by rewrite app_nil_r.
  - destruct Hp as [_ Hp]. specialize (IH eq_refl _ (Hp x)). by rewrite <- app_assoc in IH.
Qed.

Lemma post_calls {R} G (p q : proc R) tr0 tr Φ :
  post G p tr0 Φ → steps p tr q →
  ∀ tr1 e tr2, tr = tr1 ++ e :: tr2 → match e with Ev c _ => G (tr0 ++ tr1) _ c end.
Proof.
  intros Hp H. revert tr0 Hp. induction H as [q|Y d y k tr q H IH]; intros tr0 Hp [|e' tr1] e tr2 E;
    try discriminate E; injection E as E1 E2; destruct Hp as [Hg Hp].
  - rewrite app_nil_r. by destruct E1.
  - subst. specialize (IH _ (Hp y) tr1 e tr2 eq_refl). by rewrite <- app_assoc in IH.
Qed.
Lemma post_next {R X} G (p : proc R) (c : Cmd X) k tr0 tr Φ :
  post G p tr0 Φ → steps p tr (Do c k) → G (tr0 ++ tr) _ c.
Proof.
  remember (Do c k) as q eqn:Eq. intros Hp H. revert tr0 Hp. induction H as [q|Y d y k' tr q H IH];
    intros tr0 Hp; subst.
  - rewrite app_nil_r. by destruct Hp.
  - destruct Hp as [_ Hp]. specialize (IH eq_refl _ (Hp y)). by rewrite <- app_assoc in IH.
Qed.
End proc.
#[global] Arguments proc : clear implicits.
#[global] Arguments event : clear implicits.

(** Handlers with early returns: the error type is what is returned. *)
Definition then_ok {Cmd E A B} (p : proc Cmd (result E A)) (f : A → proc Cmd (result E B)) :
    proc Cmd (result E B) :=
  proc_bind p (λ r, match r with Ok a => f a | Err e => Done (Err e) end).
Notation "'let!' x := p 'in' q" := (then_ok p (λ x, q))
  (at level 10, x pattern, p at level 100, q at level 200).
Definition perform {Cmd X} {E} (c : Cmd X) : proc Cmd (result E X) := Do c (λ x, Done (Ok x)).
Definition return_ {Cmd E A} (e : E) : proc Cmd (result E A) := Done (Err e).

(** [c.await?] *)
Definition try_ {Cmd : Type → Type} {E A} (c : Cmd (result E A)) : proc Cmd (result E A) :=
  let! r := perform c in match r with Ok a => Done (Ok a) | Err e => return_ e end.

Lemma post_then {Cmd E A B} G (p : proc Cmd (result E A)) (f : A → proc Cmd (result E B)) tr Φ :
  post G p tr (λ tr r, match r with Ok a => post G (f a) tr Φ | Err e => Φ tr (Err e) end) →
  post G (then_ok p f) tr Φ.
Proof. intros H. apply post_bind. eapply post_mono; [|exact H]. by intros tr' [a|e]. Qed.

Lemma post_perform {Cmd X E} G (c : Cmd X) tr (Φ : list (event Cmd) → result E X → Prop) :
  G tr X c → (∀ x, Φ (tr ++ [Ev c x]) (Ok x)) → post G (perform c) tr Φ.
Proof. done. Qed.

Lemma post_lift {Cmd : Type → Type} {E A B} (G : list (event Cmd) → ∀ X, Cmd X → Prop)
    (r : result E A) (f : A → proc Cmd (result E B)) (tr : list (event Cmd)) Φ :
  (∀ a, r = Ok a → post G (f a) tr Φ) → (∀ e, r = Err e → Φ tr (Err e)) →
  post G (then_ok (Done r) f) tr Φ.
Proof. intros Hf He. destruct r; [by apply Hf|by apply He]. Qed.

Lemma post_try {Cmd : Type → Type} {E A B} (G : list (event Cmd) → ∀ X, Cmd X → Prop)
    (c : Cmd (result E A)) (f : A → proc Cmd (result E B)) (tr : list (event Cmd)) Φ :
  G tr _ c →
  (∀ r, match r with
        | Ok a => post G (f a) (tr ++ [Ev c (Ok a)]) Φ
        | Err e => Φ (tr ++ [Ev c (Err e)]) (Err e)
        end) →
  post G (let! a := try_ c in f a) tr Φ.
Proof.
  intros Hg Hf. apply post_then. unfold try_. apply post_then, post_perform; [done|].
  intros r. specialize (Hf r). by destruct r.
Qed.

(** The event is in the run with these answers. *)
Definition calls {Cmd : Type → Type} {R} (answer : ∀ X, Cmd X → X) (p : proc Cmd R) (e : event Cmd) : Prop :=
  e ∈ (follow answer p).1.
Lemma calls_do {Cmd : Type → Type} {R X} (answer : ∀ X, Cmd X → X) (c : Cmd X) (k : X → proc Cmd R) (e : event Cmd) :
  calls answer (Do c k) e ↔ e = Ev c (answer _ c) ∨ calls answer (k (answer _ c)) e.
Proof.
  unfold calls. simpl. destruct (follow answer (k (answer X c))). simpl. by rewrite elem_of_cons.
Qed.
Lemma calls_perform {Cmd : Type → Type} {E X B} (answer : ∀ X, Cmd X → X) (c : Cmd X) (f : X → proc Cmd (result E B)) (e : event Cmd) :
  calls answer (let! x := perform c in f x) e ↔ e = Ev c (answer _ c) ∨ calls answer (f (answer _ c)) e.
Proof. apply calls_do. Qed.
Lemma calls_try {Cmd : Type → Type} {E A B} (answer : ∀ X, Cmd X → X) (c : Cmd (result E A)) (f : A → proc Cmd (result E B)) a (e : event Cmd) :
  answer _ c = Ok a →
  calls answer (let! x := try_ c in f x) e ↔ e = Ev c (Ok a) ∨ calls answer (f a) e.
Proof. intros Ha. unfold try_, then_ok. simpl. rewrite calls_do, Ha. done. Qed.
Lemma follow_bind {Cmd : Type → Type} {A B} (answer : ∀ X, Cmd X → X) (p : proc Cmd A) (f : A → proc Cmd B) :
  follow answer (proc_bind p f) =
  ((follow answer p).1 ++ (follow answer (f (follow answer p).2)).1, (follow answer (f (follow answer p).2)).2).
Proof.
  induction p as [r|X c k IH]; simpl; [by destruct (follow answer (f r))|].
  rewrite IH. by destruct (follow answer (k (answer X c))).
Qed.
Lemma calls_then {Cmd : Type → Type} {E A B} (answer : ∀ X, Cmd X → X) (p : proc Cmd (result E A))
    (f : A → proc Cmd (result E B)) a (e : event Cmd) :
  (follow answer p).2 = Ok a → calls answer (f a) e → calls answer (then_ok p f) e.
Proof.
  intros Hp He. unfold calls, then_ok. rewrite follow_bind, Hp. simpl. apply elem_of_app. by right.
Qed.
Lemma calls_try_first {Cmd : Type → Type} {E A B} (answer : ∀ X, Cmd X → X) (c : Cmd (result E A))
    (f : A → proc Cmd (result E B)) : calls answer (let! x := try_ c in f x) (Ev c (answer _ c)).
Proof. unfold try_, then_ok. simpl. apply calls_do. by left. Qed.

(** ** Many handlers on one world *)

Section system.
Context {Cmd : Type → Type} {World Req R : Type}.
Context (handler : Req → proc Cmd R) (answer : ∀ X, Cmd X → World → World * X) (time : World → Z).

Record task := { t_req : Req; t_past : list (event Cmd); t_rest : proc Cmd R }.
Record system := {
  world : World;
  tasks : list task;
  (** when, by which task, what *)
  history : list (Z * nat * event Cmd)
}.

(** A request arrives; a task makes its next call; the world changes by itself. *)
Inductive action := Arrive (r : Req) | Advance (i : nat) | Elapse (f : World → World).

Definition advance (s : system) (i : nat) (t : task) : system :=
  match t_rest t with
  | Done _ => s
  | Do c k =>
      let '(w, x) := answer _ c (world s) in
      {| world := w;
         tasks := <[i := {| t_req := t_req t; t_past := t_past t ++ [Ev c x]; t_rest := k x |}]> (tasks s);
         history := history s ++ [(time (world s), i, Ev c x)] |}
  end.
Definition act (s : system) (a : action) : system :=
  match a with
  | Arrive r => {| world := world s;
                   tasks := tasks s ++ [{| t_req := r; t_past := []; t_rest := handler r |}];
                   history := history s |}
  | Advance i => match tasks s !! i with Some t => advance s i t | None => s end
  | Elapse f => {| world := f (world s); tasks := tasks s; history := history s |}
  end.
Definition play (s : system) (l : list action) : system := fold_left act l s.
Definition begin (w : World) : system := {| world := w; tasks := []; history := [] |}.

(** Counting the calls of a kind. *)
Definition tally (p : event Cmd → bool) (l : list (event Cmd)) : nat := length (List.filter p l).
Definition tally_tasks (p : event Cmd → bool) (ts : list task) : nat :=
  sum_list (map (λ t, tally p (t_past t)) ts).

Lemma tally_app p l l' : tally p (l ++ l') = (tally p l + tally p l')%nat.
Proof. unfold tally. by rewrite List.filter_app, length_app. Qed.
Lemma tally_snoc p l e : tally p (l ++ [e]) = (tally p l + if p e then 1 else 0)%nat.
Proof. rewrite tally_app. unfold tally at 2. cbn [List.filter]. by destruct (p e). Qed.
Lemma tally_tasks_app p ts ts' : tally_tasks p (ts ++ ts') = (tally_tasks p ts + tally_tasks p ts')%nat.
Proof. unfold tally_tasks. by rewrite map_app, sum_list_with_app. Qed.
Lemma tally_elem p e l : e ∈ l → p e = true → (1 ≤ tally p l)%nat.
Proof.
  intros [l1 [l2 ->]]%list_elem_of_split Hp. rewrite tally_app. unfold tally at 2.
  cbn [List.filter]. rewrite Hp. simpl. lia.
Qed.

(** Each task has made its calls in the order of its handler, and the history has
    the calls of the tasks and no others. *)
Definition coherent (s : system) : Prop :=
  Forall (λ t, steps (handler (t_req t)) (t_past t) (t_rest t)) (tasks s) ∧
  ∀ p, tally p (map snd (history s)) = tally_tasks p (tasks s).

Lemma coherent_advance s i t : coherent s → tasks s !! i = Some t → coherent (advance s i t).
Proof.
  intros [Hc Hn] Hi. unfold advance. destruct (t_rest t) as [r|X c k] eqn:Et; [done|].
  destruct (answer X c (world s)) as [w x]. split; simpl.
  - apply Forall_insert; [done|]. simpl. apply steps_snoc. rewrite <- Et.
    by apply (Forall_lookup_1 _ _ _ _ Hc Hi).
  - intros p. rewrite map_app, tally_app, Hn. simpl.
    rewrite insert_take_drop by (by eapply lookup_lt_Some).
    rewrite <- (take_drop_middle _ _ _ Hi) at 1. rewrite !tally_tasks_app.
    unfold tally_tasks. simpl. rewrite tally_app. lia.
Qed.

Lemma coherent_act s a : coherent s → coherent (act s a).
Proof.
  intros Hs. destruct a as [r|i|f]; simpl.
  - destruct Hs as [Hc Hn]. split; simpl.
    + apply Forall_app. split; [done|]. repeat constructor.
    + intros p. rewrite tally_tasks_app, Hn. unfold tally_tasks. simpl. lia.
  - destruct (tasks s !! i) eqn:Hi; [by eapply coherent_advance|done].
  - done.
Qed.

Lemma coherent_play s l : coherent s → coherent (play s l).
Proof. revert s. induction l; simpl; auto using coherent_act. Qed.
Lemma coherent_begin w : coherent (begin w).
Proof. split; [constructor|done]. Qed.

(** Tasks that needed a call of a kind are no more than the calls of that kind. *)
Lemma tasks_need_tally (ts : list task) (p : event Cmd → bool) (q : task → bool) :
  (∀ t, t ∈ ts → q t = true → ∃ e, e ∈ t_past t ∧ p e = true) →
  (length (List.filter q ts) ≤ tally_tasks p ts)%nat.
Proof.
  intros Hq. induction ts as [|t ts IH]; [done|].
  unfold tally_tasks in *. cbn [List.filter map sum_list_with].
  assert (length (List.filter q ts) ≤ sum_list (map (λ t, tally p (t_past t)) ts))%nat as Hts
    by (apply IH; intros; apply Hq; [by constructor|done]).
  destruct (q t) eqn:Et; simpl; [|lia].
  destruct (Hq t ltac:(constructor) Et) as (e & He & Hp). pose proof (tally_elem p e _ He Hp). lia.
Qed.
Lemma tasks_need_calls s (p : event Cmd → bool) (q : task → bool) :
  coherent s →
  (∀ t, t ∈ tasks s → q t = true → ∃ e, e ∈ t_past t ∧ p e = true) →
  (length (List.filter q (tasks s)) ≤ tally p (map snd (history s)))%nat.
Proof. intros [_ Hn] Hq. rewrite Hn. by apply tasks_need_tally. Qed.
Lemma tally_pasts p (ts : list task) : tally p (concat (map t_past ts)) = tally_tasks p ts.
Proof. unfold tally_tasks. induction ts as [|t ts IH]; [done|]. simpl. by rewrite tally_app, IH. Qed.

(** The calls of one task in the history, in their order. *)
Definition own (i : nat) (e : Z * nat * event Cmd) : option (event Cmd) :=
  if decide (e.1.2 = i) then Some e.2 else None.
Definition recorded (s : system) : Prop :=
  (∀ i t, tasks s !! i = Some t → omap (own i) (history s) = t_past t) ∧
  Forall (λ e : Z * nat * event Cmd, e.1.2 < length (tasks s))%nat (history s).
Lemma own_none i h : Forall (λ e : Z * nat * event Cmd, e.1.2 ≠ i) h ↔ omap (own i) h = [].
Proof.
  induction h as [|e h IH]; [by split|]. cbn. unfold own at 1.
  destruct (decide (e.1.2 = i)) as [He|He]; (split; [inversion 1; subst|intros Hn]); try done; [by apply IH|].
  constructor; [done|]. by apply IH.
Qed.
Lemma recorded_act s a : recorded s → recorded (act s a).
Proof.
  intros [Hr Hb]. destruct a as [r|i|f]; simpl; [| |done].
  - split; simpl.
    + intros j t Hj. apply lookup_app_Some in Hj as [Hj|[Hj Ht]]; [by apply Hr|].
      apply list_lookup_singleton_Some in Ht as [_ <-]. simpl. apply own_none.
      eapply Forall_impl; [|exact Hb]. simpl. intros e He. lia.
    + eapply Forall_impl; [|exact Hb]. simpl. intros e He. rewrite length_app. lia.
  - destruct (tasks s !! i) as [t|] eqn:Hi; [|done]. unfold advance. destruct (t_rest t) as [|X c k]; [done|].
    destruct (answer X c (world s)) as [w x]. split; simpl.
    + intros j t' Hj. rewrite omap_app. unfold own at 2. cbn.
      apply list_lookup_insert_Some in Hj as [(-> & <- & _)|[Hne Hj]].
      * rewrite decide_True by done. by rewrite (Hr _ _ Hi).
      * rewrite decide_False, app_nil_r by done. by apply Hr.
    + rewrite length_insert. apply Forall_app. split; [done|]. apply Forall_singleton. simpl.
      by eapply lookup_lt_Some.
Qed.
Lemma recorded_play s l : recorded s → recorded (play s l).
Proof. revert s. induction l; simpl; auto using recorded_act. Qed.
Lemma recorded_begin w : recorded (begin w).
Proof. by split. Qed.
(** An event of the history is one of a task, after the task's own events before it. *)
Lemma recorded_event s h1 t i e h2 :
  recorded s → history s = h1 ++ (t, i, e) :: h2 →
  ∃ task, tasks s !! i = Some task ∧ ∃ rest, t_past task = omap (own i) h1 ++ e :: rest.
Proof.
  intros [Hr Hb] Hh. rewrite Hh in Hb. apply Forall_app in Hb as [_ Hb]. inversion Hb as [|? ? Hlt _]; subst. simpl in Hlt.
  destruct (lookup_lt_is_Some_2 _ _ Hlt) as [task Ht]. exists task. split; [done|].
  exists (omap (own i) h2). rewrite <- (Hr _ _ Ht), Hh, omap_app. cbn. unfold own at 2. by rewrite decide_True.
Qed.
End system.

Lemma omap_snoc_inv {A B} (f : A → option B) l l' b :
  omap f l = l' ++ [b] → ∃ l1 a l2, l = l1 ++ a :: l2 ∧ f a = Some b ∧ omap f l2 = [].
Proof.
  revert l'. induction l as [|a l IH] using rev_ind; intros l' E; [by destruct l'|].
  rewrite omap_app in E. cbn in E. destruct (f a) as [b'|] eqn:Ea.
  - apply app_inj_tail in E as [_ ->]. exists l, a, []. by split_and!.
  - rewrite app_nil_r in E. destruct (IH _ E) as (l1 & a' & l2 & -> & Hf & Hn).
    exists l1, a', (l2 ++ [a]). rewrite <- app_assoc. split_and!; [done..|]. by rewrite omap_app, Hn; cbn; rewrite Ea.
Qed.
Lemma snoc_split {A} (l : list A) a l1 b l2 :
  l ++ [a] = l1 ++ b :: l2 → (l2 = [] ∧ a = b ∧ l = l1) ∨ ∃ l2', l2 = l2' ++ [a] ∧ l = l1 ++ b :: l2'.
Proof.
  destruct l2 as [|x l2' _] using rev_ind; intros E.
  - apply app_inj_tail in E as [-> ->]. by left.
  - rewrite app_comm_cons, app_assoc in E. apply app_inj_tail in E as [-> ->]. right. by exists l2'.
Qed.

(** ** Monitored runs

    A monitor observes the calls of a run with their answers.  [expect] says which
    answers the environment can give, [allow] which calls may be made in which
    state of the monitor.  [watched p g Φ]: started with the monitor in state [g],
    [p] makes only calls that are allowed, and ends with [Φ]. *)
Section watch.
Context {Cmd : Type → Type} {G : Type}.
Context (observe : G → event Cmd → G) (expect : G → event Cmd → Prop) (allow : G → ∀ X, Cmd X → Prop).

Fixpoint watched {R} (p : proc Cmd R) (g : G) (Φ : G → R → Prop) : Prop :=
  match p with
  | Done r => Φ g r
  | Do c k => allow g _ c ∧ ∀ x, expect g (Ev c x) → watched (k x) (observe g (Ev c x)) Φ
  end.
Fixpoint expected (g : G) (tr : list (event Cmd)) : Prop :=
  match tr with [] => True | e :: tr' => expect g e ∧ expected (observe g e) tr' end.
Definition monitor (g : G) (tr : list (event Cmd)) : G := fold_left observe tr g.

Lemma expected_app g tr tr' : expected g (tr ++ tr') ↔ expected g tr ∧ expected (monitor g tr) tr'.
Proof. clear allow. revert g. induction tr as [|e tr IH]; intros g; simpl; [tauto|]. rewrite IH. tauto. Qed.
Lemma monitor_app g tr tr' : monitor g (tr ++ tr') = monitor (monitor g tr) tr'.
Proof. apply fold_left_app. Qed.

Lemma watched_mono {R} (p : proc Cmd R) g (Φ Ψ : G → R → Prop) :
  (∀ g r, Φ g r → Ψ g r) → watched p g Φ → watched p g Ψ.
Proof.
  intros HΦ. revert g. induction p as [r|X c k IH]; simpl; [auto|]. intros g []. split; auto.
Qed.
Lemma watched_bind {A B} (p : proc Cmd A) (f : A → proc Cmd B) g Φ :
  watched p g (λ g a, watched (f a) g Φ) → watched (proc_bind p f) g Φ.
Proof. revert g. induction p as [r|X c k IH]; simpl; [auto|]. intros g []. split; auto. Qed.

(** Of early returns: [Φ] when the stage goes on, [E] when it returns. *)
Definition ends {E A} (Ε : G → E → Prop) (Φ : G → A → Prop) (g : G) (r : result E A) : Prop :=
  match r with Ok a => Φ g a | Err e => Ε g e end.
Lemma watched_then {E A B} (p : proc Cmd (result E A)) (f : A → proc Cmd (result E B)) g Ε Φ :
  watched p g (ends Ε (λ g a, watched (f a) g (ends Ε Φ))) → watched (then_ok p f) g (ends Ε Φ).
Proof. intros Hp. apply watched_bind. eapply watched_mono; [|exact Hp]. by intros g' [a|e]. Qed.
Lemma watched_perform {E X} (c : Cmd X) g (Ε : G → E → Prop) (Φ : G → X → Prop) :
  allow g X c → (∀ x, expect g (Ev c x) → Φ (observe g (Ev c x)) x) →
  watched (perform c) g (ends Ε Φ).
Proof. done. Qed.

(** What [watched] says of runs: of a finished one, and of the calls of any. *)
Lemma watched_done {R} (p : proc Cmd R) g tr r Φ :
  watched p g Φ → steps p tr (Done r) → expected g tr → Φ (monitor g tr) r.
Proof.
  intros Hp Hs. revert g Hp. remember (Done r) as q eqn:Eq.
  induction Hs as [q|X c x k tr q Hs IH]; intros g Hp He; subst; simpl in *; [done|].
  destruct Hp as [_ Hp], He as [He1 He2]. auto.
Qed.
Lemma watched_calls {R} (p q : proc Cmd R) g tr Φ :
  watched p g Φ → steps p tr q → expected g tr →
  ∀ tr1 e tr2, tr = tr1 ++ e :: tr2 → match e with Ev c _ => allow (monitor g tr1) _ c end.
Proof.
  intros Hp Hs. revert g Hp. induction Hs as [q|Y d y k tr q Hs IH]; intros g Hp He tr1 e tr2 E.
  - by destruct tr1.
  - destruct Hp as [Hg Hp], He as [He1 He2]. destruct tr1 as [|e' tr1]; injection E as <- E; [done|].
    by apply (IH _ (Hp y He1) He2 tr1 e tr2).
Qed.
(** An invariant of the monitor that every call keeps. *)
Lemma monitor_inv (I : G → Prop) {R} (p q : proc Cmd R) g tr Φ :
  (∀ g X (c : Cmd X) x, I g → allow g X c → expect g (Ev c x) → I (observe g (Ev c x))) →
  watched p g Φ → steps p tr q → expected g tr → I g → I (monitor g tr).
Proof.
  intros HI Hp Hs. revert g Hp. induction Hs as [q|Y d y k tr q Hs IH]; intros g Hp He Hg; [done|].
  destruct Hp as [Ha Hp], He as [He1 He2]. simpl. eapply IH; eauto.
Qed.
End watch.
