(* ===== verification/Config.v ===== *)
(** * The Geatafile ([config.rs])

    The tokenizer, the blocks and directives of a configuration, and the sites it
    describes.  The input is the list of its characters.  [Arc]s that requests and
    reloads share are references: an identity with the settings of the object. *)
From S2P Require Import Prelude Text Net Effects Extern Models RateLimit Capacity Ledger Cdk Terms LnPolicy Payout.
#[local] Open Scope string_scope.
#[local] Open Scope list_scope.
#[local] Open Scope Z_scope.

Module Conf.

Record ConfigError := { err_line : Z; message : string }.
Definition error {A} (line : Z) (m : string) : result ConfigError A :=
  Err {| err_line := line; message := m |}.
(** [ok_or_else(|| error(line, m))?] and [map_err(|e| error(line, &e.to_string()))?] *)
Definition need {A} (line : Z) (m : string) (o : option A) : result ConfigError A :=
  ok_or {| err_line := line; message := m |} o.
Definition at_line {A} (line : Z) (r : result anyhow A) : result ConfigError A :=
  map_err (λ e, {| err_line := line; message := e |}) r.
(** [if !b { return Err(error(line, m)) }] *)
Definition require (b : bool) (line : Z) (m : string) : result ConfigError unit :=
  ensure b {| err_line := line; message := m |}.

(** ** Tokens *)

Inductive TokenKind := Text (s : string) | Open | Close.
#[global] Instance TokenKind_eq_dec : EqDecision TokenKind.
Proof. solve_decision. Defined.
Record Token := { tk_line : Z; kind : TokenKind; quoted : bool }.
#[global] Instance Token_eq_dec : EqDecision Token.
Proof. solve_decision. Defined.
Definition text (t : Token) : option string :=
  match kind t with Text s => Some s | _ => None end.

(** [matches!(c, '{' | '}' | '#')] *)
Definition is_delim (c : char) : bool := (c =? 123) || (c =? 125) || (c =? 35).

(** The rest after a comment, and the newlines passed. *)
Fixpoint skip_comment (l : list char) : list char * Z :=
  match l with
  | [] => ([], 0)
  | c :: l' => if c =? 10 then (l', 1) else skip_comment l'
  end.

(** From behind an opening quote to behind the closing one. *)
Fixpoint scan_quote (escaped : bool) (l : list char) : option (list char * list char * Z) :=
  match l with
  | [] => None
  | c :: l' =>
      let nl := if c =? 10 then 1 else 0 in
      if negb escaped && (c =? 34) then Some ([c], l', nl)
      else match scan_quote (negb escaped && (c =? 92)) l' with
           | Some (w, r, n) => Some (c :: w, r, nl + n)
           | None => None
           end
  end.

(** The rest of an unquoted word; [None] at a quote. *)
Fixpoint scan_word (l : list char) : option (list char * list char) :=
  match l with
  | [] => Some ([], [])
  | c :: l' =>
      if is_whitespace c || is_delim c then Some ([], l)
      else if c =? 34 then None
      else match scan_word l' with
           | Some (w, r) => Some (c :: w, r)
           | None => None
           end
  end.

(** [serde_json::from_str::<String>] on a quoted literal. *)
Class JsonString := json_string : list char → result anyhow string.

Section tokens.
Context `{JsonString}.

(** A quoted argument after its opening quote: value, rest and newlines. *)
Definition quoted_token (line : Z) (l : list char) : result ConfigError (string * list char * Z) :=
  '(w, rest, n) ← need line "unterminated quoted string" (scan_quote false l);
  value ← at_line line (map_err (λ e, "invalid quoted string: " +:+ e) (json_string (34 :: w)));
  _ ← require (match rest with
               | c :: _ => is_whitespace c || is_delim c
               | [] => true
               end) (line + n) "expected whitespace after a quoted string";
  mret (value, rest, n).

Definition push (t : Token) (r : result ConfigError (list Token)) : result ConfigError (list Token) :=
  ts ← r; mret (t :: ts).

(** The loop of [tokenize]; every turn consumes a character, so the length of the
    input is enough fuel. *)
Fixpoint tokenize_loop (fuel : nat) (line : Z) (l : list char) : result ConfigError (list Token) :=
  match fuel, l with
  | _, [] => Ok []
  | O, _ => error 0 "out of fuel"
  | S fuel, c :: l' =>
      if is_whitespace c then tokenize_loop fuel (if c =? 10 then line + 1 else line) l'
      else if c =? 35 then
        let '(rest, n) := skip_comment l' in tokenize_loop fuel (line + n) rest
      else if c =? 123 then
        push {| tk_line := line; kind := Open; quoted := false |} (tokenize_loop fuel line l')
      else if c =? 125 then
        push {| tk_line := line; kind := Close; quoted := false |} (tokenize_loop fuel line l')
      else if c =? 34 then
        '(value, rest, n) ← quoted_token line l';
        push {| tk_line := line; kind := Text value; quoted := true |}
          (tokenize_loop fuel (line + n) rest)
      else
        '(w, rest) ← need line "quoted strings must start at the beginning of an argument" (scan_word l');
        push {| tk_line := line; kind := Text (utf8 (c :: w)); quoted := false |}
          (tokenize_loop fuel line rest)
  end.

Definition tokenize (input : list char) : result ConfigError (list Token) :=
  tokenize_loop (length input) 1 input.

(** *** Round trip *)

(** Arguments as a writer of the file has them: braces, bare words, and quoted
    literals (the characters after the opening quote) with their value. *)
Inductive Item :=
| IOpen
| IClose
| IWord (w : list char)
| IQuoted (lit : list char) (value : string).

Definition word_char (c : char) : bool :=
  negb (is_whitespace c) && negb (is_delim c) && negb (c =? 34).
(** The literal ends with its first unescaped quote. *)
Fixpoint closed (escaped : bool) (lit : list char) : bool :=
  match lit with
  | [] => false
  | c :: lit' =>
      if negb escaped && (c =? 34) then bool_decide (lit' = [])
      else closed (negb escaped && (c =? 92)) lit'
  end.
Definition item_ok (i : Item) : Prop :=
  match i with
  | IOpen | IClose => True
  | IWord w => w ≠ [] ∧ forallb word_char w = true
  | IQuoted lit value => closed false lit = true ∧ json_string (34 :: lit) = Ok value
  end.

Definition newlines (l : list char) : Z := Z.of_nat (length (List.filter (λ c, c =? 10) l)).

(** One item per line. *)
Definition render_item (i : Item) : list char :=
  match i with
  | IOpen => [123]
  | IClose => [125]
  | IWord w => w
  | IQuoted lit _ => 34 :: lit
  end.
Fixpoint render (items : list Item) : list char :=
  match items with [] => [] | i :: items' => render_item i ++ 10 :: render items' end.

Definition item_token (line : Z) (i : Item) : Token :=
  match i with
  | IOpen => {| tk_line := line; kind := Open; quoted := false |}
  | IClose => {| tk_line := line; kind := Close; quoted := false |}
  | IWord w => {| tk_line := line; kind := Text (utf8 w); quoted := false |}
  | IQuoted _ value => {| tk_line := line; kind := Text value; quoted := true |}
  end.
Definition item_lines (i : Item) : Z :=
  match i with IQuoted lit _ => 1 + newlines lit | _ => 1 end.
Fixpoint item_tokens (line : Z) (items : list Item) : list Token :=
  match items with
  | [] => []
  | i :: items' => item_token line i :: item_tokens (line + item_lines i) items'
  end.

Lemma scan_word_app w rest :
  forallb word_char w = true → scan_word (w ++ 10 :: rest) = Some (w, 10 :: rest).
Proof.
  induction w as [|c w IH]; simpl; [done|]. unfold word_char at 1.
  rewrite !andb_true_iff, !negb_true_iff. intros [[[Hw Hd] Hq] Hrest].
  by rewrite Hw, Hd, Hq, IH.
Qed.

Lemma scan_quote_app esc lit rest :
  closed esc lit = true → scan_quote esc (lit ++ rest) = Some (lit, rest, newlines lit).
Proof.
  revert esc. induction lit as [|c lit IH]; intros esc Hc; simpl in *; [done|].
  unfold newlines in *. simpl. destruct (negb esc && (c =? 34)) eqn:Hq.
  - apply bool_decide_eq_true in Hc as ->. simpl. destruct (c =? 10); done.
  - rewrite IH by done. destruct (c =? 10); simpl; do 2 f_equal; lia.
Qed.

Lemma word_char_first c : word_char c = true →
  is_whitespace c = false ∧ (c =? 35) = false ∧ (c =? 123) = false ∧ (c =? 125) = false ∧ (c =? 34) = false.
Proof.
  unfold word_char, is_delim. rewrite !andb_true_iff, !negb_true_iff, !orb_false_iff. tauto.
Qed.

Lemma tokenize_loop_newline fuel line l :
  tokenize_loop (S fuel) line (10 :: l) = tokenize_loop fuel (line + 1) l.
Proof. done. Qed.

Lemma tokenize_render fuel line items :
  Forall item_ok items → (length (render items) ≤ fuel)%nat →
  tokenize_loop fuel line (render items) = Ok (item_tokens line items).
Proof.
  intros Hok. revert fuel line. induction Hok as [|i items Hi Hok IH]; intros fuel line Hf;
    [by destruct fuel|].
  cbn [render item_tokens] in *. rewrite length_app in Hf. cbn [length] in Hf.
  destruct fuel as [|fuel]; [lia|].
  assert (∀ n, (length (render items) < n)%nat → ∀ line t,
    push t (tokenize_loop n line (10 :: render items)) = Ok (t :: item_tokens (line + 1) items)) as Hrest.
  { intros n Hn line' t. destruct n as [|n]; [lia|]. rewrite tokenize_loop_newline, IH by lia. done. }
  destruct i as [| |[|c w]|lit value]; simpl in Hi, Hf |- *.
  - apply Hrest. lia.
  - apply Hrest. lia.
  - by destruct Hi.
  - destruct Hi as [_ [Hc Hw]%andb_true_iff]. apply word_char_first in Hc as (-> & -> & -> & -> & ->).
    rewrite scan_word_app by done. cbn [need ok_or mbind result_bind]. apply Hrest. lia.
  - destruct Hi as [Hc Hv]. unfold quoted_token. rewrite scan_quote_app by done.
    cbn [need ok_or mbind result_bind]. rewrite Hv. simpl.
    replace (line + (1 + newlines lit)) with (line + newlines lit + 1) by lia.
    apply Hrest. lia.
Qed.

(** C35: tokenizing inverts writing.  For any sequence of braces, bare words and
    quoted literals, written one per line, [tokenize] returns exactly these tokens:
    bare words with their UTF-8 text, quoted literals with the string they denote,
    each with the line it starts on, also behind literals that span lines. *)
Theorem tokenize_roundtrip items :
  Forall item_ok items → tokenize (render items) = Ok (item_tokens 1 items).
Proof. intros Hok. by apply tokenize_render. Qed.
End tokens.

(** ** Sites *)

Record Upstream := { host : string; port : Z; tls : bool; authority : string }.
Inductive Handler := Proxy (u : Upstream) | Respond (body : string) (status : Z).

Record RequestControls := {
  max_body_bytes : option Z;
  request_timeout : option Z;
  ipv6_prefix : Z;
  payment_limit : Rate.Limit
}.
Definition RequestControls_default : RequestControls :=
  {| max_body_bytes := Some (10 * 1024 * 1024); request_timeout := Some 60; ipv6_prefix := 64;
     payment_limit := {| Rate.per_second := 2; Rate.burst := 8 |} |}.

(** [Arc<RateLimiter>], and [Capacity], whose clones share their counters. *)
Record LimiterRef := { lr_id : nat; lr_limit : Rate.Limit; lr_prefix : Z }.
Record CapacityRef := { cr_id : nat; cr_settings : Cap.Capacity }.

Record Site := {
  domain : string;
  https : bool;
  handler : Handler;
  rate_limit : option LimiterRef;
  payment : option Terms.PaymentPolicy;
  lightning : option Ln.Policy;
  capacity : option CapacityRef;
  controls : RequestControls;
  payment_verification : LimiterRef
}.
Record Config := { sites : gmap string Site; payouts : list Payout.PayoutPolicy }.

Definition https_domains (c : Config) : list string :=
  map domain (List.filter https (map snd (map_to_list (sites c)))).

Definition site_directive (value : option string) : bool :=
  match value with
  | Some v => bool_decide (v ∈ ["reverse_proxy"; "respond"; "rate_limit"; "pay"; "lightning_pay";
      "lightning_headers"; "lightning_protocols"; "lightning_origin"; "max_body_bytes";
      "request_timeout"; "ipv6_prefix"; "payment_verify_limit"; "max_inflight"])
  | None => false
  end.

Definition parse_response (args : list Token) (line : Z) : result ConfigError Handler :=
  _ ← require (negb (bool_decide (args = [])) && (length args <=? 2)%nat) line
        ("expected respond " +:+ String "034" "body" +:+ String "034" " [status] or respond <status>");
  let first := default "" (head args ≫= text) in
  let status_only := (length args =? 1)%nat && negb (is_some_and quoted (head args))
                     && (slen first =? 3)%nat && bytes_all is_ascii_digit first in
  let '(body, status) := if status_only then ("", Some first)
                         else (first, args !! 1%nat ≫= text) in
  status ← match status with
           | Some t => need line "respond status must be a final HTTP status from 200 to 599"
                         (opt_filter (λ code, (slen t =? 3)%nat && in_range 200 599 code) (ok (parse_u16 t)))
           | None => Ok 200
           end;
  _ ← require (negb (((status =? 204) || (status =? 205) || (status =? 304))
                     && negb (bool_decide (body = "")))) line
        "status 204, 205, or 304 cannot have a response body";
  mret (Respond body status).

Definition valid_label (label : string) : bool :=
  negb (bool_decide (label = "")) && (slen label <=? 63)%nat && negb (starts_with "-" label)
  && negb (ends_with "-" label)
  && bytes_all (λ c, is_ascii_alphanumeric c || (byte_val c =? 45)) label.

Definition valid_domain (domain : string) (https : bool) : bool :=
  if is_some (parse_ip domain) then negb https
  else if (253 <? Z.of_nat (slen domain)) || bool_decide (domain = "") then false
  else if https && (negb (contains "." domain)
                    || existsb (λ s, ends_with s domain)
                         [".localhost"; ".local"; ".internal"; ".home.arpa"]) then false
  else forallb valid_label (split_on "." domain).

Section parsing.
Context `{UrlLib, MintUrlLib, Secp, HttpLib, JsonString} {W : Type} `{Cdk.Lib W}.

Definition parse_upstream (value : string) : result anyhow Upstream :=
  let value := if contains "://" value then value else "http://" +:+ value in
  url ← map_err (λ e, "invalid backend address: " +:+ e) (url_parse value);
  _ ← ensure ((bool_decide (url_scheme url = "http") || bool_decide (url_scheme url = "https"))
              && bool_decide (url_username url = "") && is_none (url_password url)
              && bool_decide (url_path url = "/") && is_none (url_query url)
              && is_none (url_fragment url))
        "backend must be an HTTP(S) host and port without credentials, path, query, or fragment";
  host ← ok_or "backend has no host" (url_host_str url);
  port ← ok_or "backend has no port" (url_port_or_known_default url);
  _ ← ensure (negb (port =? 0)) "backend port must be nonzero";
  mret {| host := trim_by is_bracket host; port := port;
          tls := bool_decide (url_scheme url = "https");
          authority := match url_port url with
                       | Some p => host +:+ ":" +:+ show p
                       | None => host
                       end |}.

Definition is_dot (c : ascii) : bool := bool_decide (c = "."%char).
Definition request_domain (authority : string) : option string :=
  '(whole, host) ← authority_parse authority;
  if contains "@" whole then None
  else Some (to_ascii_lowercase (trim_end_by is_dot (trim_by is_bracket host))).

(** ** Directives *)

(** The locals of [parse_directives]. *)
Record Directives := {
  d_handler : option Handler;
  d_rate_limit : option Rate.Limit;
  d_payment : option Terms.PaymentPolicy;
  d_lightning : option (string * string * string * Z);
  d_headers : option (list string);
  d_origin : option string;
  d_protocols : option Ln.Protocols;
  d_max_inflight : option Z;
  d_controls : RequestControls;
  d_seen : list string
}.
Definition no_directives : Directives :=
  {| d_handler := None; d_rate_limit := None; d_payment := None; d_lightning := None;
     d_headers := None; d_origin := None; d_protocols := None; d_max_inflight := None;
     d_controls := RequestControls_default; d_seen := [] |}.

Definition set_handler h d := {| d_handler := h; d_rate_limit := d_rate_limit d; d_payment := d_payment d;
  d_lightning := d_lightning d; d_headers := d_headers d; d_origin := d_origin d;
  d_protocols := d_protocols d; d_max_inflight := d_max_inflight d; d_controls := d_controls d;
  d_seen := d_seen d |}.
Definition set_rate_limit r d := {| d_handler := d_handler d; d_rate_limit := r; d_payment := d_payment d;
  d_lightning := d_lightning d; d_headers := d_headers d; d_origin := d_origin d;
  d_protocols := d_protocols d; d_max_inflight := d_max_inflight d; d_controls := d_controls d;
  d_seen := d_seen d |}.
Definition set_payment p d := {| d_handler := d_handler d; d_rate_limit := d_rate_limit d; d_payment := p;
  d_lightning := d_lightning d; d_headers := d_headers d; d_origin := d_origin d;
  d_protocols := d_protocols d; d_max_inflight := d_max_inflight d; d_controls := d_controls d;
  d_seen := d_seen d |}.
Definition set_lightning l d := {| d_handler := d_handler d; d_rate_limit := d_rate_limit d;
  d_payment := d_payment d; d_lightning := l; d_headers := d_headers d; d_origin := d_origin d;
  d_protocols := d_protocols d; d_max_inflight := d_max_inflight d; d_controls := d_controls d;
  d_seen := d_seen d |}.
Definition set_headers h d := {| d_handler := d_handler d; d_rate_limit := d_rate_limit d;
  d_payment := d_payment d; d_lightning := d_lightning d; d_headers := h; d_origin := d_origin d;
  d_protocols := d_protocols d; d_max_inflight := d_max_inflight d; d_controls := d_controls d;
  d_seen := d_seen d |}.
Definition set_origin o d := {| d_handler := d_handler d; d_rate_limit := d_rate_limit d;
  d_payment := d_payment d; d_lightning := d_lightning d; d_headers := d_headers d; d_origin := o;
  d_protocols := d_protocols d; d_max_inflight := d_max_inflight d; d_controls := d_controls d;
  d_seen := d_seen d |}.
Definition set_protocols p d := {| d_handler := d_handler d; d_rate_limit := d_rate_limit d;
  d_payment := d_payment d; d_lightning := d_lightning d; d_headers := d_headers d;
  d_origin := d_origin d; d_protocols := p; d_max_inflight := d_max_inflight d;
  d_controls := d_controls d; d_seen := d_seen d |}.
Definition set_max_inflight m d := {| d_handler := d_handler d; d_rate_limit := d_rate_limit d;
  d_payment := d_payment d; d_lightning := d_lightning d; d_headers := d_headers d;
  d_origin := d_origin d; d_protocols := d_protocols d; d_max_inflight := m;
  d_controls := d_controls d; d_seen := d_seen d |}.
Definition set_controls c seen d := {| d_handler := d_handler d; d_rate_limit := d_rate_limit d;
  d_payment := d_payment d; d_lightning := d_lightning d; d_headers := d_headers d;
  d_origin := d_origin d; d_protocols := d_protocols d; d_max_inflight := d_max_inflight d;
  d_controls := c; d_seen := seen |}.

(** [args[i].text().unwrap_or_default()] *)
Definition arg (args : list Token) (i : nat) : string := default "" (args !! i ≫= text).
Definition texts (args : list Token) : list string := omap text args.

(** One arm of the [match] each. *)
Definition dir_lightning_pay (args : list Token) (line : Z) (d : Directives) :
    result ConfigError Directives :=
  _ ← require (is_none (d_lightning d)) line "duplicate lightning_pay directive";
  _ ← require (length args =? 4)%nat line "expected lightning_pay <price> sat <receiver name>";
  mret (set_lightning (Some (arg args 1, arg args 2, arg args 3, line)) d).

Definition dir_lightning_protocols (args : list Token) (line : Z) (d : Directives) :
    result ConfigError Directives :=
  _ ← require (is_none (d_protocols d)) line "duplicate lightning_protocols directive";
  p ← at_line line (Ln.Protocols_parse (texts (drop 1 args)));
  mret (set_protocols (Some p) d).

Definition dir_lightning_headers (args : list Token) (line : Z) (d : Directives) :
    result ConfigError Directives :=
  _ ← require (is_none (d_headers d)) line "duplicate lightning_headers directive";
  _ ← require (2 <=? length args)%nat line
        "expected lightning_headers <names...> or lightning_headers none";
  _ ← require (negb (negb (length args =? 2)%nat
                     && existsb (λ t, bool_decide (text t = Some "none")) (drop 1 args))) line
        "lightning_headers none cannot be combined with header names";
  let headers := if (length args =? 2)%nat && bool_decide (args !! 1%nat ≫= text = Some "none")
                 then [] else texts (drop 1 args) in
  mret (set_headers (Some headers) d).

Definition dir_lightning_origin (args : list Token) (line : Z) (d : Directives) :
    result ConfigError Directives :=
  _ ← require (is_none (d_origin d)) line "duplicate lightning_origin directive";
  _ ← require (length args =? 2)%nat line "expected lightning_origin <public HTTP(S) origin>";
  mret (set_origin (Some (arg args 1)) d).

Definition dir_pay (args : list Token) (line : Z) (d : Directives) : result ConfigError Directives :=
  _ ← require (is_none (d_payment d)) line "duplicate pay directive";
  _ ← require (length args =? 4)%nat line "expected pay <price> sat <mint URL>";
  p ← at_line line (Terms.PaymentPolicy_parse (arg args 1) (arg args 2) (arg args 3));
  mret (set_payment (Some p) d).

Definition dir_max_inflight (args : list Token) (line : Z) (d : Directives) :
    result ConfigError Directives :=
  _ ← require (is_none (d_max_inflight d)) line "duplicate max_inflight directive";
  max ← need line "max_inflight must be off or between 1 and 1000000"
    (opt_filter (λ max, max <=? 1000000)
      (t ← args !! 1%nat ≫= text;
       if bool_decide (t = "off") then Some 0 else opt_filter (λ n, 0 <? n) (ok (parse_u32 t))));
  mret (set_max_inflight (Some max) d).

(** [max_body_bytes], [request_timeout] and [ipv6_prefix] *)
Definition dir_control (name : string) (args : list Token) (line : Z) (d : Directives) :
    result ConfigError Directives :=
  _ ← require (negb (bool_decide (name ∈ d_seen d))) line "duplicate request control";
  value ← need line "missing request control value" (args !! 1%nat ≫= text);
  let c := d_controls d in
  let seen := name :: d_seen d in
  if bool_decide (name = "ipv6_prefix") then
    n ← need line "ipv6_prefix must be 0 through 128"
          (opt_filter (λ n, n <=? 128) (ok (parse_u8 value)));
    mret (set_controls {| max_body_bytes := max_body_bytes c; request_timeout := request_timeout c;
                          ipv6_prefix := n; payment_limit := payment_limit c |} seen d)
  else
    v ← (if bool_decide (value = "off") then Ok None
         else n ← need line "request control must be off or a positive integer up to 4294967295"
                    (opt_filter (λ n, (0 <? n) && (n <=? u32_max)) (ok (parse_u64 value)));
              mret (Some n));
    mret (set_controls
      (if bool_decide (name = "max_body_bytes") then
         {| max_body_bytes := v; request_timeout := request_timeout c; ipv6_prefix := ipv6_prefix c;
            payment_limit := payment_limit c |}
       else
         {| max_body_bytes := max_body_bytes c; request_timeout := v; ipv6_prefix := ipv6_prefix c;
            payment_limit := payment_limit c |}) seen d).

Definition positive (t : string) : option Z :=
  opt_filter (λ n, (0 <? n) && bytes_all is_ascii_digit t) (ok (parse_u32 t)).

(** [rate_limit] and [payment_verify_limit] *)
Definition dir_limit (name : string) (args : list Token) (line : Z) (d : Directives) :
    result ConfigError Directives :=
  _ ← require (negb (bool_decide (name ∈ d_seen d))) line ("duplicate " +:+ name +:+ " directive");
  let syntax := "expected rate limit <positive integer>/s burst <positive integer>" in
  _ ← require ((length args =? 4)%nat && bool_decide (args !! 2%nat ≫= text = Some "burst")) line syntax;
  per_second ← need line syntax (t ← args !! 1%nat ≫= text; n ← strip_suffix "/s" t; positive n);
  burst ← need line syntax (t ← args !! 3%nat ≫= text; positive t);
  let limit := {| Rate.per_second := per_second; Rate.burst := burst |} in
  let c := d_controls d in
  let seen := name :: d_seen d in
  mret (if bool_decide (name = "rate_limit") then set_rate_limit (Some limit) (set_controls c seen d)
        else set_controls {| max_body_bytes := max_body_bytes c; request_timeout := request_timeout c;
                             ipv6_prefix := ipv6_prefix c; payment_limit := limit |} seen d).

Definition dir_handler (name : string) (args : list Token) (line : Z) (d : Directives) :
    result ConfigError Directives :=
  _ ← require (is_none (d_handler d)) line
        "expected exactly one reverse_proxy or respond directive per site";
  h ← (if bool_decide (name = "reverse_proxy") && (length args =? 2)%nat then
         u ← at_line line (parse_upstream (arg args 1)); mret (Proxy u)
       else if bool_decide (name = "respond") then parse_response (drop 1 args) line
       else error line "expected reverse_proxy <backend>");
  mret (set_handler (Some h) d).

Definition directive (args : list Token) (line : Z) (d : Directives) : result ConfigError Directives :=
  let name := default "" (head args ≫= text) in
  if bool_decide (name = "lightning_pay") then dir_lightning_pay args line d
  else if bool_decide (name = "lightning_protocols") then dir_lightning_protocols args line d
  else if bool_decide (name = "lightning_headers") then dir_lightning_headers args line d
  else if bool_decide (name = "lightning_origin") then dir_lightning_origin args line d
  else if bool_decide (name = "pay") then dir_pay args line d
  else if bool_decide (name = "max_inflight") then dir_max_inflight args line d
  else if bool_decide (name ∈ ["max_body_bytes"; "request_timeout"; "ipv6_prefix"])
    then dir_control name args line d
  else if bool_decide (name ∈ ["rate_limit"; "payment_verify_limit"]) then dir_limit name args line d
  else if bool_decide (name ∈ ["reverse_proxy"; "respond"]) then dir_handler name args line d
  else error line "unknown directive; expected reverse_proxy, respond, rate_limit, pay, lightning_pay, lightning_headers, lightning_origin, lightning_protocols, max_inflight, max_body_bytes, request_timeout, ipv6_prefix, or payment_verify_limit".

(** A token that a directive with a variable number of arguments still takes. *)
Definition continues (t : Token) : bool := quoted t || negb (site_directive (text t)).
Fixpoint take_while {A} (p : A → bool) (l : list A) : list A :=
  match l with [] => [] | a :: l' => if p a then a :: take_while p l' else [] end.

(** How many tokens the directive starting at the first one takes. *)
Definition count (tokens : list Token) : nat :=
  let name := default "" (head tokens ≫= text) in
  if bool_decide (name = "reverse_proxy") then 2
  else if bool_decide (name ∈ ["rate_limit"; "payment_verify_limit"; "pay"; "lightning_pay"]) then 4
  else if bool_decide (name ∈ ["max_inflight"; "max_body_bytes"; "request_timeout"; "ipv6_prefix";
                               "lightning_origin"]) then 2
  else if bool_decide (name ∈ ["lightning_headers"; "lightning_protocols"])
    then S (length (take_while continues (drop 1 tokens)))
  else if bool_decide (name = "respond") then (if is_some_and continues (tokens !! 2%nat) then 3 else 2)
  else 1.

(** The loop; a directive takes at least its name. *)
Fixpoint directives (fuel : nat) (tokens : list Token) (d : Directives) : result ConfigError Directives :=
  match fuel, tokens with
  | _, [] => Ok d
  | O, _ => error 0 "out of fuel"
  | S fuel, t :: _ =>
      let n := count tokens in
      d ← directive (take n tokens) (tk_line t) d;
      directives fuel (drop n tokens) d
  end.

(** The Lightning policy from the four directives. *)
Definition lightning_policy (line : Z) (receivers : gmap string Ln.ReceiverConfig) (domain : string)
    (https : bool) (d : Directives) : result ConfigError (option Ln.Policy) :=
  match d_lightning d with
  | Some (price, unit, name, directive_line) =>
      receiver ← need directive_line ("unknown Lightning receiver: " +:+ name) (receivers !! name);
      headers ← need directive_line "lightning_pay requires lightning_headers; use none only when no headers affect the request" (d_headers d);
      let origin := default ((if https then "https" else "http") +:+ "://" +:+ domain) (d_origin d) in
      p ← at_line directive_line
            (Ln.Policy_new price unit receiver origin headers (default Ln.Protocols_default (d_protocols d)));
      mret (Some p)
  | None =>
      _ ← require (is_none (d_headers d) && is_none (d_origin d) && is_none (d_protocols d)) line
            "lightning_headers, lightning_origin, and lightning_protocols require lightning_pay";
      mret None
  end.

Definition parse_directives (tokens : list Token) (line : Z) (receivers : gmap string Ln.ReceiverConfig)
    (domain : string) (https : bool) :
    result ConfigError (Handler * option Rate.Limit * option Terms.PaymentPolicy * option Ln.Policy *
                        option Z * RequestControls) :=
  d ← directives (length tokens) tokens no_directives;
  handler ← need line "expected exactly one reverse_proxy or respond directive per site" (d_handler d);
  lightning ← lightning_policy line receivers domain https d;
  mret (handler, d_rate_limit d, d_payment d, lightning, d_max_inflight d, d_controls d).

(** ** Blocks *)

Record Block := { b_address : string; b_body : list Token; b_line : Z }.

Definition receiver_name (name : string) : bool :=
  negb (bool_decide (name = ""))
  && bytes_all (λ b, is_ascii_alphanumeric b || (byte_val b =? 95) || (byte_val b =? 45)) name.

(** The name of a lightning block, and the tokens after it. *)
Definition block_name (line : Z) (address : string) (rest : list Token) :
    result ConfigError (option string * list Token) :=
  if bool_decide (address = "lightning") then
    name ← need line "expected lightning <name> { ... }" (head rest ≫= text);
    _ ← require (receiver_name name) line "Lightning receiver name must use letters, digits, '_' or '-'";
    mret (Some name, drop 1 rest)
  else mret (None, rest).

Definition is_text (t : Token) : bool := is_some (text t).
Definition is_open (t : Token) : bool := match kind t with Open => true | _ => false end.
Definition is_close (t : Token) : bool := match kind t with Close => true | _ => false end.

(** The first loop of [parse]: the receivers and the other blocks in order. *)
Fixpoint parse_blocks (fuel : nat) (receivers : gmap string Ln.ReceiverConfig) (tokens : list Token) :
    result ConfigError (gmap string Ln.ReceiverConfig * list Block) :=
  match fuel, tokens with
  | _, [] => Ok (receivers, [])
  | O, _ => error 0 "out of fuel"
  | S fuel, t :: rest =>
      let line := tk_line t in
      address ← need line "expected a site address or lightning block" (text t);
      '(name, rest) ← block_name line address rest;
      _ ← require (is_some_and is_open (head rest)) line "expected '{' after block name";
      let body := take_while is_text (drop 1 rest) in
      let rest := drop (length body) (drop 1 rest) in
      _ ← require (is_some_and is_close (head rest)) line "expected '}' after block directives";
      match name with
      | Some name =>
          receiver ← at_line line (Ln.ReceiverConfig_parse (texts body));
          _ ← require (is_none (receivers !! name)) line "duplicate Lightning receiver name";
          parse_blocks fuel (<[name := receiver]> receivers) (drop 1 rest)
      | None =>
          '(rs, blocks) ← parse_blocks fuel receivers (drop 1 rest);
          mret (rs, {| b_address := address; b_body := body; b_line := line |} :: blocks)
      end
  end.

Definition add_payout (payouts : list Payout.PayoutPolicy) (body : list Token) (line : Z) :
    result ConfigError (list Payout.PayoutPolicy) :=
  payout ← at_line line (Payout.PayoutPolicy_parse (texts body));
  _ ← require (negb (existsb (λ p, bool_decide (Payout.po_mint p = Payout.po_mint payout)) payouts)) line
        "duplicate payout mint";
  _ ← require (length payouts <? 16)%nat line "at most 16 payout mints are supported";
  mret (payouts ++ [payout]).

Definition site_domain (address : string) : string :=
  to_ascii_lowercase
    (default address (match strip_prefix "http://" address with
                      | Some d => Some d
                      | None => strip_prefix "https://" address
                      end)).

(** The fields of a site; [id] numbers the objects it allocates. *)
Definition make_site (id : nat) (domain : string) (https : bool) (handler : Handler)
    (rate_limit : option Rate.Limit) (payment : option Terms.PaymentPolicy)
    (lightning : option Ln.Policy) (max_inflight : option Z) (controls : RequestControls) : Site :=
  {| domain := domain; https := https; handler := handler;
     rate_limit := (λ l, {| lr_id := 3 * id; lr_limit := l; lr_prefix := ipv6_prefix controls |}) <$> rate_limit;
     payment := payment; lightning := lightning;
     capacity := (λ max, {| cr_id := 3 * id + 1;
                            cr_settings := {| Cap.max := max; Cap.ipv6_prefix := ipv6_prefix controls;
                                              Cap.per_client := Cap.per_client (Cap.new max).1 |} |})
                 <$> opt_filter (λ max, negb (max =? 0)) (Some (default 128 max_inflight));
     controls := controls;
     payment_verification := {| lr_id := 3 * id + 2; lr_limit := payment_limit controls;
                                lr_prefix := ipv6_prefix controls |} |}.

Definition parse_site (id : nat) (receivers : gmap string Ln.ReceiverConfig) (domain : string)
    (https : bool) (body : list Token) (line : Z) : result ConfigError Site :=
  '(handler, rate_limit, payment, lightning, max_inflight, controls) ←
    parse_directives body line receivers domain https;
  _ ← match lightning with
      | Some policy => at_line line (Ln.check_site policy domain https)
      | None => Ok tt
      end;
  mret (make_site id domain https handler rate_limit payment lightning max_inflight controls).

(** The second loop of [parse]. *)
Fixpoint parse_sites (id : nat) (receivers : gmap string Ln.ReceiverConfig) (c : Config)
    (blocks : list Block) : result ConfigError Config :=
  match blocks with
  | [] => Ok c
  | b :: blocks' =>
      let address := b_address b in
      let line := b_line b in
      let https := negb (starts_with "http://" address) in
      let domain := site_domain address in
      _ ← require (bool_decide (address = "cashu_payout") || valid_domain domain https) line
            "expected a domain (e.g. example.com); use http://localhost for local HTTP. Wildcards, local HTTPS, and site ports are not supported yet";
      if bool_decide (address = "cashu_payout") then
        ps ← add_payout (payouts c) (b_body b) line;
        parse_sites id receivers {| sites := sites c; payouts := ps |} blocks'
      else
        site ← parse_site id receivers domain https (b_body b) line;
        _ ← require (is_none (sites c !! domain)) line ("duplicate site " +:+ domain);
        parse_sites (S id) receivers {| sites := <[domain := site]> (sites c); payouts := payouts c |} blocks'
  end.

Definition input_len (input : list char) : Z := foldr (λ c n, Z.of_nat (len_utf8 c) + n) 0 input.

(** [id] is the number of objects allocated by earlier loads. *)
Definition Config_parse (id : nat) (input : list char) : result ConfigError Config :=
  _ ← require (input_len input <=? 1024 * 1024) 1 "configuration exceeds 1 MiB";
  tokens ← tokenize input;
  '(receivers, blocks) ← parse_blocks (length tokens) ∅ tokens;
  c ← parse_sites id receivers {| sites := ∅; payouts := [] |} blocks;
  _ ← require (negb (bool_decide (sites c = ∅))) 1
        "add at least one site: example.com { reverse_proxy localhost:3000 }";
  mret c.

(** ** Error positions and fuel *)

(** Every error points to a line in [lo .. hi]; running out of fuel is line 0. *)
Definition errors_in {A} (lo hi : Z) (r : result ConfigError A) : Prop :=
  match r with Ok _ => True | Err e => lo ≤ err_line e ≤ hi end.
Definition tokens_in (lo hi : Z) (ts : list Token) : Prop :=
  Forall (λ t, lo ≤ tk_line t ≤ hi) ts.

Lemma newlines_cons c l : newlines (c :: l) = (if c =? 10 then 1 else 0) + newlines l.
Proof. unfold newlines. simpl. case_match; simpl; lia. Qed.
Lemma newlines_nonneg l : 0 ≤ newlines l.
Proof. unfold newlines. lia. Qed.

Lemma skip_comment_spec l :
  (length (skip_comment l).1 ≤ length l)%nat ∧
  0 ≤ (skip_comment l).2 ∧ (skip_comment l).2 + newlines (skip_comment l).1 ≤ newlines l.
Proof.
  induction l as [|c l IH]; simpl; [done|]. rewrite newlines_cons.
  destruct (c =? 10); simpl; lia.
Qed.

Lemma scan_quote_spec l esc w r n :
  scan_quote esc l = Some (w, r, n) →
  (length r < length l)%nat ∧ 0 ≤ n ∧ n + newlines r ≤ newlines l.
Proof.
  revert esc w r n. induction l as [|c l IH]; intros esc w r n; simpl; [done|].
  rewrite newlines_cons. destruct (negb esc && (c =? 34)).
  - intros [= <- <- <-]. destruct (c =? 10); lia.
  - destruct (scan_quote _ l) as [[[w' r'] n']|] eqn:Hq; [|done]. intros [= <- <- <-].
    apply IH in Hq. destruct (c =? 10); lia.
Qed.

Lemma scan_word_spec l w r :
  scan_word l = Some (w, r) → (length r ≤ length l)%nat ∧ newlines r ≤ newlines l.
Proof.
  revert w r. induction l as [|c l IH]; intros w r; simpl; [by intros [= <- <-]|].
  destruct (is_whitespace c || is_delim c); [by intros [= <- <-]|].
  destruct (c =? 34); [done|]. destruct (scan_word l) as [[w' r']|] eqn:Hw; [|done].
  intros [= <- <-]. specialize (IH _ _ eq_refl). rewrite newlines_cons. destruct (c =? 10); lia.
Qed.

Lemma quoted_token_spec line l :
  errors_in line (line + newlines l) (quoted_token line l) ∧
  ∀ v r n, quoted_token line l = Ok (v, r, n) →
    (length r < length l)%nat ∧ 0 ≤ n ∧ n + newlines r ≤ newlines l.
Proof.
  pose proof (newlines_nonneg l). unfold quoted_token.
  destruct (scan_quote false l) as [[[w r] n]|] eqn:Hq; simpl; [|by split; [lia|]].
  apply scan_quote_spec in Hq as (? & ? & ?). pose proof (newlines_nonneg r).
  destruct (json_string _); simpl; [|by split; [lia|]].
  destruct (require _ _ _) as [[]|e] eqn:Hr; simpl.
  - split; [done|]. intros v r' n' [= <- <- <-]. done.
  - split; [|done]. unfold require, ensure in Hr. destruct r as [|c r]; [done|].
    destruct (is_whitespace c || is_delim c); [done|]. injection Hr as <-. simpl. lia.
Qed.

Lemma errors_in_bind {A B} lo hi (r : result ConfigError A) (k : A → result ConfigError B) :
  errors_in lo hi r → (∀ a, r = Ok a → errors_in lo hi (k a)) → errors_in lo hi (r ≫= k).
Proof. destruct r; simpl; auto. Qed.
Lemma errors_in_mono {A} lo hi lo' hi' (r : result ConfigError A) :
  lo' ≤ lo → hi ≤ hi' → errors_in lo hi r → errors_in lo' hi' r.
Proof. destruct r; simpl; [done|]. lia. Qed.
Lemma errors_in_need {A} lo hi line m (o : option A) :
  lo ≤ line ≤ hi → errors_in lo hi (need line m o).
Proof. by destruct o. Qed.
Lemma errors_in_at {A} lo hi line (r : result anyhow A) :
  lo ≤ line ≤ hi → errors_in lo hi (at_line line r).
Proof. by destruct r. Qed.
Lemma errors_in_require lo hi b line m :
  lo ≤ line ≤ hi → errors_in lo hi (require b line m).
Proof. by destruct b. Qed.

(** The tokenizer: enough fuel, and every line is within the input. *)
Definition lines_in (line : Z) (l : list char) (r : result ConfigError (list Token)) : Prop :=
  errors_in line (line + newlines l) r ∧ ∀ ts, r = Ok ts → tokens_in line (line + newlines l) ts.

Lemma lines_in_weaken line l line' l' r :
  line ≤ line' → line' + newlines l' ≤ line + newlines l → lines_in line' l' r → lines_in line l r.
Proof.
  intros Hl Hn [He Ht]. split; [by eapply errors_in_mono|]. intros ts Hts.
  eapply Forall_impl; [by apply Ht|]. simpl. lia.
Qed.

Lemma lines_in_push line l line' l' k q r :
  line ≤ line' → line' + newlines l' ≤ line + newlines l → lines_in line' l' r →
  lines_in line l (push {| tk_line := line; kind := k; quoted := q |} r).
Proof.
  intros Hl Hn Hr. eapply lines_in_weaken in Hr as [He Ht]; [|exact Hl|exact Hn].
  destruct r as [ts|e]; simpl; [|by split]. split; [done|]. intros ts' [= <-].
  constructor; [|by apply Ht]. pose proof (newlines_nonneg l). simpl. lia.
Qed.

Lemma tokenize_loop_lines fuel line l :
  (length l ≤ fuel)%nat → lines_in line l (tokenize_loop fuel line l).
Proof.
  revert line l. induction fuel as [|fuel IH]; intros line [|c l] Hlen; simpl in Hlen;
    try (by split; [|intros ts [= <-]; constructor]); [lia|].
  pose proof (newlines_cons c l) as Hc. pose proof (newlines_nonneg l). cbn [tokenize_loop].
  destruct (is_whitespace c).
  { eapply lines_in_weaken; [| |apply IH; lia]; destruct (c =? 10); lia. }
  destruct (c =? 35).
  { pose proof (skip_comment_spec l) as (? & ? & ?). destruct (skip_comment l) as [r n]. simpl in *.
    eapply lines_in_weaken; [| |apply IH; lia]; destruct (c =? 10); lia. }
  destruct (c =? 123); [eapply lines_in_push; [| |apply IH; lia]; destruct (c =? 10); lia|].
  destruct (c =? 125); [eapply lines_in_push; [| |apply IH; lia]; destruct (c =? 10); lia|].
  destruct (c =? 34).
  { destruct (quoted_token_spec line l) as [He Hq].
    destruct (quoted_token line l) as [[[v r] n]|e]; simpl in *.
    - destruct (Hq v r n eq_refl) as (? & ? & ?).
      eapply lines_in_push; [| |apply IH; lia]; destruct (c =? 10); lia.
    - split; [|done]. destruct (c =? 10); simpl; lia. }
  destruct (scan_word l) as [[w r]|] eqn:Hw; simpl.
  - apply scan_word_spec in Hw as [? ?].
    eapply lines_in_push; [| |apply IH; lia]; destruct (c =? 10); lia.
  - split; [|done]. destruct (c =? 10); simpl; lia.
Qed.

(** The directives. *)
Ltac errors_step :=
  lazymatch goal with
  | |- errors_in _ _ (_ ≫= _) => apply errors_in_bind; [|intros ? ?]
  | |- errors_in _ _ (need _ _ _) => apply errors_in_need; lia
  | |- errors_in _ _ (at_line _ _) => apply errors_in_at; lia
  | |- errors_in _ _ (require _ _ _) => apply errors_in_require; lia
  | |- errors_in _ _ (error _ _) => simpl; lia
  | |- errors_in _ _ (mret _) => exact I
  | |- errors_in _ _ (Ok _) => exact I
  | |- errors_in _ _ (match ?x with _ => _ end) => destruct x eqn:?
  end.

Lemma directive_errors args line d lo hi : lo ≤ line ≤ hi → errors_in lo hi (directive args line d).
Proof.
  intros Hl. unfold directive, dir_lightning_pay, dir_lightning_protocols, dir_lightning_headers,
    dir_lightning_origin, dir_pay, dir_max_inflight, dir_control, dir_limit, dir_handler,
    parse_response.
  repeat errors_step.
Qed.

Lemma count_pos tokens : (1 ≤ count tokens)%nat.
Proof. unfold count. repeat case_match; lia. Qed.

Lemma directives_errors fuel tokens d lo hi :
  (length tokens ≤ fuel)%nat → tokens_in lo hi tokens → errors_in lo hi (directives fuel tokens d).
Proof.
  revert tokens d. induction fuel as [|fuel IH]; intros [|t tokens] d Hlen Hts; simpl in Hlen;
    try exact I; [lia|].
  cbn [directives]. apply Forall_cons in Hts as Hts'. destruct Hts' as [Ht _].
  pose proof (count_pos (t :: tokens)). apply errors_in_bind; [by apply directive_errors|].
  intros d' _. apply IH; [rewrite length_drop; simpl; lia|]. by apply Forall_drop.
Qed.

(** ** Well-formed configurations *)

Definition handler_wf (h : Handler) : Prop :=
  match h with
  | Proxy u => port u ≠ 0
  | Respond body status =>
      200 ≤ status ≤ 599 ∧ (status = 204 ∨ status = 205 ∨ status = 304 → body = "")
  end.
Definition control_wf (o : option Z) : Prop := ∀ n, o = Some n → 1 ≤ n ≤ u32_max.
Definition controls_wf (c : RequestControls) : Prop :=
  control_wf (max_body_bytes c) ∧ control_wf (request_timeout c) ∧ 0 ≤ ipv6_prefix c ≤ 128 ∧
  Rate.limit_wf (payment_limit c).

Record directives_wf (lo hi : Z) (d : Directives) : Prop := {
  wf_line : ∀ x, d_lightning d = Some x → lo ≤ x.2 ≤ hi;
  wf_handler : ∀ h, d_handler d = Some h → handler_wf h;
  wf_rate_limit : ∀ l, d_rate_limit d = Some l → Rate.limit_wf l;
  wf_payment : ∀ p, d_payment d = Some p → 1 ≤ Terms.price p ≤ u32_max;
  wf_max_inflight : ∀ m, d_max_inflight d = Some m → 0 ≤ m ≤ 1000000;
  wf_controls : controls_wf (d_controls d)
}.

Lemma no_directives_wf lo hi : directives_wf lo hi no_directives.
Proof.
  split; simpl; try done. unfold controls_wf, control_wf, Rate.limit_wf. simpl.
  split; [intros n [= <-]; solve_width|]. split; [intros n [= <-]; solve_width|].
  split; [lia|solve_width].
Qed.

Lemma parse_bound_ok (f : string → result ParseIntError Z) lo hi s n :
  (∀ s n, f s = Ok n → lo ≤ n ≤ hi) → ok (f s) = Some n → lo ≤ n ≤ hi.
Proof. intros Hf. destruct (f s) eqn:E; simpl; [|done]. intros [= ->]. eauto. Qed.
Lemma parse_u16_bound s n : parse_u16 s = Ok n → 0 ≤ n ≤ u16_max.
Proof. apply parse_int_bound. solve_width. Qed.
Lemma parse_u8_bound s n : parse_u8 s = Ok n → 0 ≤ n ≤ u8_max.
Proof. apply parse_int_bound. solve_width. Qed.
Lemma parse_u32_bound s n : parse_u32 s = Ok n → 0 ≤ n ≤ u32_max.
Proof. apply parse_int_bound. solve_width. Qed.

Lemma parse_response_wf args line h : parse_response args line = Ok h → handler_wf h.
Proof.
  unfold parse_response, require, need. intros Hp. inv_ok. case_match. inv_ok. subst h. simpl.
  match goal with Hb : _ && negb (bool_decide (?b = "")) = false |- _ =>
    apply andb_false_iff in Hb; rewrite negb_false_iff, bool_decide_eq_true, !orb_false_iff,
      !Z.eqb_neq in Hb; split; [|intuition lia] end.
  case_match; [|by simplify_eq]. inv_ok. unfold in_range in *. lia.
Qed.

Lemma positive_bound s n : positive s = Some n → 1 ≤ n ≤ u32_max.
Proof.
  unfold positive. intros Hp. inv_ok.
  match goal with Hn : ok _ = Some _ |- _ => apply (parse_bound_ok _ _ _ _ _ parse_u32_bound) in Hn end.
  lia.
Qed.

Lemma dir_control_wf lo hi name args line d d' :
  directives_wf lo hi d → dir_control name args line d = Ok d' → directives_wf lo hi d'.
Proof.
  intros [] Hd. unfold dir_control, need, require in Hd. inv_ok.
  destruct wf_controls0 as (Hb & Ht & Hp & Hl).
  case_bool_decide; inv_ok; subst d'; split; simpl; try done.
  - match goal with Hn : ok _ = Some _ |- _ => apply (parse_bound_ok _ _ _ _ _ parse_u8_bound) in Hn end.
    split; [done|]. split; [done|]. split; [simpl; lia|done].
  - match goal with Hv : (if _ then _ else _) = Ok ?v |- _ => assert (control_wf v) as Hv' end.
    { intros n ->. case_bool_decide; [done|]. inv_ok. simplify_eq. lia. }
    destruct (bool_decide (name = "max_body_bytes")); (split; [|split; [|split]]); done.
Qed.

Lemma dir_limit_wf lo hi name args line d d' :
  directives_wf lo hi d → dir_limit name args line d = Ok d' → directives_wf lo hi d'.
Proof.
  intros [] Hd. unfold dir_limit, need, require in Hd. inv_ok.
  destruct wf_controls0 as (Hb & Ht & Hp & Hl).
  repeat match goal with Hx : _ ≫= _ = Some _ |- _ => apply bind_Some in Hx as (? & ? & Hx) end.
  repeat match goal with Hx : positive _ = Some _ |- _ => apply positive_bound in Hx end.
  case_bool_decide; subst d'; split; simpl; try done.
  - by intros l [= <-].
Qed.

Lemma dir_handler_wf lo hi name args line d d' :
  directives_wf lo hi d → dir_handler name args line d = Ok d' → directives_wf lo hi d'.
Proof.
  intros [] Hd. unfold dir_handler, at_line, require in Hd. inv_ok.
  destruct (_ && _).
  - inv_ok. subst. split; simpl; try done. intros h [= <-]. unfold parse_upstream in *. inv_ok.
    subst. simpl. by apply Z.eqb_neq.
  - case_bool_decide; [|done]. subst d'. split; simpl; try done.
    intros h [= <-]. by eapply parse_response_wf.
Qed.

Lemma directive_wf lo hi args line d d' :
  lo ≤ line ≤ hi → directives_wf lo hi d → directive args line d = Ok d' → directives_wf lo hi d'.
Proof.
  intros Hline Hwf. unfold directive.
  repeat (case_bool_decide; [|]); [..|done].
  all: eauto using dir_control_wf, dir_limit_wf, dir_handler_wf.
  all: unfold dir_lightning_pay, dir_lightning_protocols, dir_lightning_headers,
    dir_lightning_origin, dir_pay, dir_max_inflight, at_line, require, need; intros Hd; inv_ok;
    subst d'; destruct Hwf; split; simpl; try done.
  - by intros y [= <-].
  - intros p [= <-]. by eapply Terms.PaymentPolicy_parse_price.
  - intros m [= <-].
    match goal with Hx : _ ≫= _ = Some _ |- _ => apply bind_Some in Hx as (t & ? & Hx) end.
    case_bool_decide; simplify_eq; [lia|]. inv_ok. lia.
Qed.

Lemma directives_loop_wf lo hi fuel tokens d d' :
  tokens_in lo hi tokens → directives_wf lo hi d →
  directives fuel tokens d = Ok d' → directives_wf lo hi d'.
Proof.
  revert tokens d. induction fuel as [|fuel IH]; intros [|t tokens] d Hts Hd; simpl;
    [by intros [= <-]|done|by intros [= <-]|].
  apply Forall_cons in Hts as Hts'. destruct Hts' as [Ht _]. intros Hr. inv_ok.
  eapply IH; [| |exact Hr]; [by apply Forall_drop|]. by eapply directive_wf.
Qed.

Lemma tokens_in_drop lo hi n ts : tokens_in lo hi ts → tokens_in lo hi (drop n ts).
Proof. apply Forall_drop. Qed.
Lemma tokens_in_take_while lo hi p ts : tokens_in lo hi ts → tokens_in lo hi (take_while p ts).
Proof.
  intros Hts. induction Hts as [|t ts Ht Hts IH]; simpl; [constructor|].
  destruct (p t); constructor; auto.
Qed.

Definition block_in (lo hi : Z) (b : Block) : Prop :=
  lo ≤ b_line b ≤ hi ∧ tokens_in lo hi (b_body b).

Lemma block_name_in line address rest lo hi :
  lo ≤ line ≤ hi → tokens_in lo hi rest →
  errors_in lo hi (block_name line address rest) ∧
  ∀ n r, block_name line address rest = Ok (n, r) → tokens_in lo hi r ∧ (length r ≤ length rest)%nat.
Proof.
  intros Hl Hr. unfold block_name. split; [repeat errors_step|].
  intros n r Hb. unfold need, require in Hb. case_bool_decide; inv_ok; simplify_eq; [|done].
  split; [by apply tokens_in_drop|]. rewrite length_drop. lia.
Qed.

Lemma parse_blocks_in fuel receivers tokens lo hi :
  (length tokens ≤ fuel)%nat → tokens_in lo hi tokens →
  errors_in lo hi (parse_blocks fuel receivers tokens) ∧
  ∀ rs bs, parse_blocks fuel receivers tokens = Ok (rs, bs) → Forall (block_in lo hi) bs.
Proof.
  revert receivers tokens. induction fuel as [|fuel IH]; intros receivers [|t rest] Hlen Hts;
    simpl in Hlen; try (by split; [|intros rs bs [= <- <-]]); [lia|].
  apply Forall_cons in Hts as [Ht Hrest]. cbn [parse_blocks].
  destruct (text t) as [address|]; simpl; [|by split].
  destruct (block_name_in (tk_line t) address rest lo hi Ht Hrest) as [He Hn].
  destruct (block_name (tk_line t) address rest) as [[name r]|e]; simpl in *; [|by split].
  destruct (Hn name r eq_refl) as [Hr Hlr].
  unfold require. destruct (is_some_and is_open (head r)); simpl; [|by split].
  destruct (is_some_and is_close _); simpl; [|by split].
  set (body := take_while is_text (drop 1 r)) in *.
  set (rest' := drop 1 (drop (length body) (drop 1 r))).
  assert (tokens_in lo hi rest') as Hr' by (by repeat apply tokens_in_drop).
  assert (length rest' ≤ fuel)%nat as Hf by (unfold rest'; rewrite !length_drop; lia).
  destruct name as [name|].
  - destruct (Ln.ReceiverConfig_parse _); simpl; [|by split].
    destruct (is_none (receivers !! name)); simpl; [by apply IH|by split].
  - destruct (IH receivers rest' Hf Hr') as [He' Hb].
    destruct (parse_blocks fuel receivers rest') as [[rs bs]|e]; simpl in *; [|by split].
    split; [done|]. intros rs' bs' [= <- <-]. constructor; [|by eapply Hb].
    split; [done|]. by apply tokens_in_take_while, tokens_in_drop.
Qed.

Lemma lightning_policy_errors line receivers domain https d lo hi :
  lo ≤ line ≤ hi → directives_wf lo hi d →
  errors_in lo hi (lightning_policy line receivers domain https d).
Proof.
  intros Hl Hwf. unfold lightning_policy.
  destruct (d_lightning d) as [[[[price unit] name] dl]|] eqn:Hd; [|repeat errors_step].
  apply (wf_line _ _ _ Hwf) in Hd. simpl in Hd. repeat errors_step.
Qed.

Lemma parse_directives_in tokens line receivers domain https lo hi :
  lo ≤ line ≤ hi → tokens_in lo hi tokens →
  errors_in lo hi (parse_directives tokens line receivers domain https).
Proof.
  intros Hl Hts. unfold parse_directives. apply errors_in_bind; [by apply directives_errors|].
  intros d Hd. apply directives_loop_wf with (lo := lo) (hi := hi) in Hd; [|done|apply no_directives_wf].
  errors_step; [errors_step|]. errors_step; [by apply lightning_policy_errors|]. errors_step.
Qed.

Lemma parse_sites_in id receivers c blocks lo hi :
  Forall (block_in lo hi) blocks → errors_in lo hi (parse_sites id receivers c blocks).
Proof.
  intros Hb. revert id c. induction Hb as [|b blocks [Hl Hts] Hb IH]; intros id c; [done|].
  cbn [parse_sites]. errors_step; [errors_step|]. errors_step.
  - unfold add_payout. repeat errors_step. by apply IH.
  - unfold parse_site. errors_step.
    + errors_step; [by apply parse_directives_in|]. repeat errors_step.
    + errors_step; [errors_step|]. apply IH.
Qed.

(** C36: the parser stops and its errors point into the file.  [parse] never runs
    out of the fuel it is given, which is the number of characters for the tokenizer
    and the number of tokens for the other loops, and every error it reports carries
    a line number between 1 and the number of lines of the input. *)
Theorem parse_errors_located id input e :
  Config_parse id input = Err e → 1 ≤ err_line e ≤ 1 + newlines input.
Proof.
  intros He. cut (errors_in 1 (1 + newlines input) (Config_parse id input)); [by rewrite He|].
  pose proof (newlines_nonneg input). unfold Config_parse. errors_step; [errors_step|].
  destruct (tokenize_loop_lines (length input) 1 input) as [Ht Hts]; [done|].
  apply errors_in_bind; [exact Ht|]. intros ts Hok. apply Hts in Hok.
  destruct (parse_blocks_in (length ts) ∅ ts 1 (1 + newlines input)) as [Hp Hbs]; [done..|].
  apply errors_in_bind; [exact Hp|]. intros [rs bs] Hb. apply Hbs in Hb.
  errors_step; [by apply parse_sites_in|]. repeat errors_step.
Qed.

(** *** What a parsed site satisfies *)

Definition lightning_wf (domain : string) (https : bool) (p : Ln.Policy) : Prop :=
  1000 ≤ Ln.amount_msat p ≤ u64_max ∧ Ln.amount_msat p mod 1000 = 0 ∧
  Ln.ReceiverConfig_validate (Ln.receiver p) = Ok tt ∧
  Ln.validate_binding p = Ok tt ∧ Ln.check_site p domain https = Ok tt.

Record site_wf (key : string) (s : Site) : Prop := {
  swf_domain : domain s = key;
  swf_valid : valid_domain key (https s) = true;
  swf_handler : handler_wf (handler s);
  swf_controls : controls_wf (controls s);
  swf_rate_limit : ∀ r, rate_limit s = Some r →
    Rate.limit_wf (lr_limit r) ∧ lr_prefix r = ipv6_prefix (controls s);
  swf_verification : lr_limit (payment_verification s) = payment_limit (controls s) ∧
    lr_prefix (payment_verification s) = ipv6_prefix (controls s);
  swf_payment : ∀ p, payment s = Some p → 1 ≤ Terms.price p ≤ u32_max;
  swf_lightning : ∀ p, lightning s = Some p → lightning_wf key (https s) p;
  swf_capacity : ∀ c, capacity s = Some c →
    1 ≤ Cap.max (cr_settings c) ≤ 1000000 ∧
    Cap.per_client (cr_settings c) = Z.max (Cap.max (cr_settings c) / 2) 1 ∧
    Cap.ipv6_prefix (cr_settings c) = ipv6_prefix (controls s)
}.

Lemma tokens_bounded ts : ∃ lo hi, tokens_in lo hi ts.
Proof.
  induction ts as [|t ts (lo & hi & IH)]; [exists 0, 0; constructor|].
  exists (Z.min lo (tk_line t)), (Z.max hi (tk_line t)). constructor; [lia|].
  eapply Forall_impl; [exact IH|]. simpl. lia.
Qed.

Lemma Policy_new_wf price unit receiver origin headers protocols p :
  Ln.Policy_new price unit receiver origin headers protocols = Ok p →
  1000 ≤ Ln.amount_msat p ≤ u64_max ∧ Ln.amount_msat p mod 1000 = 0 ∧
  Ln.ReceiverConfig_validate (Ln.receiver p) = Ok tt ∧ Ln.validate_binding p = Ok tt.
Proof.
  unfold Ln.Policy_new. intros Hp. inv_ok. subst p. simpl.
  match goal with Hm : u64_checked_mul _ _ = Some ?a |- _ =>
    unfold u64_checked_mul in Hm; destruct (_ <=? u64_max) eqn:Hle; [|done]; injection Hm as <- end.
  rewrite Z.leb_le in Hle. rewrite Z.ltb_lt in *. rewrite Z.mod_mul by lia.
  split; [lia|]. split; [done|].
  repeat match goal with u : () |- _ => destruct u end. done.
Qed.

Lemma parse_site_wf id receivers domain https body line site :
  valid_domain domain https = true →
  parse_site id receivers domain https body line = Ok site → site_wf domain site.
Proof.
  intros Hv Hp. unfold parse_site in Hp. apply bind_Ok in Hp as (q & Hd & Hp).
  destruct q as [[[[[h rl] pay] ln] mi] ctl]. apply bind_Ok in Hp as (u & Hln & Hp). inv_ok. subst site.
  unfold parse_directives, need in Hd. inv_ok. simplify_eq.
  destruct (tokens_bounded body) as (lo & hi & Hts).
  match goal with Hl : directives _ _ _ = Ok ?d |- _ =>
    eapply directives_loop_wf in Hl as Hwf; [|exact Hts|apply no_directives_wf] end.
  destruct Hwf. split; simpl; try done; eauto.
  - intros r Hr. apply fmap_Some in Hr as (l & Hl & ->). simpl. eauto.
  - intros p ->. unfold lightning_policy, need, at_line, require in *.
    destruct (d_lightning _) as [[[[pr un] nm] dl]|]; inv_ok; [|done]. simplify_eq.
    match goal with Hn : Ln.Policy_new _ _ _ _ _ _ = Ok _ |- _ =>
      apply Policy_new_wf in Hn as (? & ? & ? & ?) end.
    destruct u. done.
  - intros c Hc. apply fmap_Some in Hc as (m & Hm & ->). simpl in *.
    destruct (negb _) eqn:Hz; [|done]. injection Hm as <-. apply negb_true_iff, Z.eqb_neq in Hz.
    split; [|done]. destruct (d_max_inflight _) as [m|]; simpl in *; [|lia].
    specialize (wf_max_inflight0 m eq_refl). lia.
Qed.

Definition payouts_wf (ps : list Payout.PayoutPolicy) : Prop :=
  NoDup (map Payout.po_mint ps) ∧ (length ps ≤ 16)%nat.

Lemma parse_sites_wf id receivers c blocks c' :
  map_Forall site_wf (sites c) → payouts_wf (payouts c) →
  parse_sites id receivers c blocks = Ok c' →
  map_Forall site_wf (sites c') ∧ payouts_wf (payouts c').
Proof.
  revert id c. induction blocks as [|b blocks IH]; intros id c Hs Hp Hr; simpl in Hr;
    [by injection Hr as <-|].
  apply bind_Ok in Hr as (u & Hv & Hr). apply ensure_Ok in Hv.
  destruct (bool_decide (b_address b = "cashu_payout")) eqn:Ha; simpl in Hv.
  - apply bind_Ok in Hr as (ps & Hadd & Hr). eapply IH; [| |exact Hr]; [done|]. simpl.
    unfold add_payout, require, at_line in Hadd. inv_ok. subst ps. destruct Hp as [Hnd Hlen].
    rewrite Nat.ltb_lt in *. split; [|rewrite length_app; simpl; lia].
    rewrite map_app. apply NoDup_app. split; [done|]. split; [|apply NoDup_singleton].
    intros m Hm Hm'. apply list_elem_of_singleton in Hm' as ->.
    apply list_elem_of_fmap in Hm as (q & Hq & Hin).
    match goal with He : existsb _ _ = false |- _ => apply Bool.not_true_iff_false in He; apply He end.
    apply existsb_exists. exists q. split; [by apply list_elem_of_In|]. by apply bool_decide_eq_true.
  - apply bind_Ok in Hr as (site & Hsite & Hr). apply bind_Ok in Hr as (u' & Hd & Hr).
    eapply IH; [| |exact Hr]; [|done]. simpl. apply map_Forall_insert_2; [|done].
    by eapply parse_site_wf.
Qed.

Lemma Config_parse_wf id input c :
  Config_parse id input = Ok c →
  sites c ≠ ∅ ∧ map_Forall site_wf (sites c) ∧ payouts_wf (payouts c).
Proof.
  intros Hp. unfold Config_parse, require in Hp. apply bind_Ok in Hp as (? & _ & Hp).
  apply bind_Ok in Hp as (ts & _ & Hp). apply bind_Ok in Hp as ([rs bs] & _ & Hp).
  apply bind_Ok in Hp as (c' & Hs & Hp). inv_ok. subst c'.
  apply parse_sites_wf in Hs; [|apply map_Forall_empty|split; [constructor|simpl; lia]].
  split; [|done]. by eapply bool_decide_eq_false_1.
Qed.

(** C34: an accepted configuration is well formed.  [parse] yields at least one
    site; each is stored under its own valid domain, has a backend with a nonzero
    port or a final status whose body is allowed, limits, body sizes, timeouts and
    prefixes within their ranges, a positive price, a Lightning policy whose origin
    and receiver were validated for this site, and a capacity between 1 and 1000000
    of which one client gets half; payout mints are distinct and at most 16. *)
Theorem parse_well_formed id input c :
  Config_parse id input = Ok c →
  sites c ≠ ∅ ∧ map_Forall site_wf (sites c) ∧ payouts_wf (payouts c).
Proof. apply Config_parse_wf. Qed.
End parsing.

(** ** Concrete instances *)

Module Examples.
Import Toy.

(** Literals without escapes. *)
#[export] Instance plain_json : JsonString := λ lit,
  match lit with
  | 34 :: l => match rev l with 34 :: l' => Ok (utf8 (rev l')) | _ => Err "string" end
  | _ => Err "string"
  end.
#[export] Instance example_urls : UrlLib := λ s,
  if bool_decide (s = "http://localhost:3000") then
    Ok {| url_scheme := "http"; url_host_str := Some "localhost"; url_username := "";
          url_password := None; url_port := Some 3000; url_port_or_known_default := Some 3000;
          url_path := "/"; url_query := None; url_fragment := None;
          url_origin := "http://localhost:3000"; url_as_str := s |}
  else Err "url".
#[export] Instance no_mints : MintUrlLib := λ _, Err "mint".
#[export] Instance no_keys : Secp := λ _, false.
#[export] Instance no_wallet : Cdk.Lib unit :=
  {| Cdk.wallet_call X c w := (w, Err Cdk.OtherError); Cdk.wallet_cut X c b w := w;
     Cdk.token_from_str _ := None; Cdk.request_from_str _ := None; Cdk.operation_ok _ := false |}.

Definition nl : string := String "010" "".
Definition example_file : list char :=
  chars ("example.com {" +:+ nl +:+ "reverse_proxy localhost:3000 # backend" +:+ nl +:+
         "rate_limit 10/s burst 20" +:+ nl +:+ "max_inflight 8" +:+ nl +:+ "}" +:+ nl).

Lemma parse_well_formed_witness :
  ∃ c, Config_parse 0 example_file = Ok c ∧ sites c ≠ ∅ ∧ map_Forall site_wf (sites c) ∧
    payouts_wf (payouts c).
Proof.
  destruct (Config_parse 0 example_file) as [c|e] eqn:Hc; [|vm_compute in Hc; discriminate Hc].
  exists c. split; [reflexivity|]. exact (parse_well_formed 0 example_file c Hc).
Defined.

Definition bad_file : list char := chars ("example.com {" +:+ nl +:+ "burst 20" +:+ nl +:+ "}").
Lemma parse_errors_located_witness :
  ∃ e, Config_parse 0 bad_file = Err e ∧ err_line e = 2 ∧ 1 ≤ err_line e ≤ 1 + newlines bad_file.
Proof.
  destruct (Config_parse 0 bad_file) as [c|e] eqn:Hc; [vm_compute in Hc; discriminate Hc|].
  exists e. split; [reflexivity|].
  split; [vm_compute in Hc; injection Hc as <-; reflexivity|].
  exact (parse_errors_located 0 bad_file e Hc).
Defined.

Definition example_items : list Item :=
  [IWord (chars "respond"); IQuoted (chars "a b" ++ [10; 34]) ("a b" +:+ nl); IClose].
Lemma tokenize_roundtrip_witness :
  tokenize (render example_items) = Ok (item_tokens 1 example_items) ∧
  map tk_line (item_tokens 1 example_items) = [1; 2; 4].
Proof.
  split; [|reflexivity]. apply (tokenize_roundtrip example_items).
  repeat constructor; try done.
Defined.
End Examples.
End Conf.
