(* ===== verification/State.v ===== *)
(** * Shared state and reload ([state.rs])

    A new configuration replaces the old one while requests are served.  Its sites
    come with fresh limiters and a fresh capacity; [replace_config] puts the
    objects of the running site back where their settings are unchanged, so
    that a reload does not hand out new allowances. *)
From S2P Require Import Prelude Text Net RateLimit Capacity Ledger Cdk Terms LnPolicy Payout Config.
#[local] Open Scope string_scope.
#[local] Open Scope list_scope.
#[local] Open Scope Z_scope.

Module State.
Import Conf.
#[local] Existing Instance Rate.Limit_eq_dec.

Definition same_limiter (next old : LimiterRef) : bool :=
  bool_decide (lr_limit next = lr_limit old) && (lr_prefix next =? lr_prefix old).
Definition same_capacity (next old : CapacityRef) : bool :=
  (Cap.max (cr_settings next) =? Cap.max (cr_settings old))
  && (Cap.ipv6_prefix (cr_settings next) =? Cap.ipv6_prefix (cr_settings old)).

(** The three conditional assignments of the loop body. *)
Definition keep_verification (old site : Site) : LimiterRef :=
  if same_limiter (payment_verification site) (payment_verification old)
  then payment_verification old else payment_verification site.
Definition keep_capacity (old site : Site) : option CapacityRef :=
  match capacity site, capacity old with
  | Some next, Some o => if same_capacity next o then Some o else capacity site
  | _, _ => capacity site
  end.
Definition keep_rate_limit (old site : Site) : option LimiterRef :=
  match rate_limit site, rate_limit old with
  | Some next, Some o => if same_limiter next o then Some o else rate_limit site
  | _, _ => rate_limit site
  end.
Definition inherit (old site : Site) : Site :=
  {| domain := domain site; https := https site; handler := handler site;
     rate_limit := keep_rate_limit old site; payment := payment site; lightning := lightning site;
     capacity := keep_capacity old site; controls := controls site;
     payment_verification := keep_verification old site |}.

Definition replace_config (previous config : Config) : Config :=
  {| sites := map_imap (λ domain site,
                Some match sites previous !! domain with
                     | Some old => inherit old site
                     | None => site
                     end) (sites config);
     payouts := payouts config |}.

(** A sequence of reloads. *)
Definition reloads (c : Config) (l : list Config) : Config := fold_left replace_config l c.

(** ** What a reload keeps *)

Lemma replace_config_lookup previous config d :
  sites (replace_config previous config) !! d =
  (λ site, match sites previous !! d with Some old => inherit old site | None => site end)
    <$> sites config !! d.
Proof. unfold replace_config. simpl. rewrite map_lookup_imap. by destruct (sites config !! d). Qed.

(** The settings without the identity of the objects. *)
Definition limiter_settings (r : LimiterRef) : Rate.Limit * Z := (lr_limit r, lr_prefix r).
Definition capacity_settings (r : CapacityRef) : Z * Z :=
  (Cap.max (cr_settings r), Cap.ipv6_prefix (cr_settings r)).
Definition settings (s : Site) :=
  (domain s, https s, handler s, limiter_settings <$> rate_limit s, payment s, lightning s,
   capacity_settings <$> capacity s, controls s, limiter_settings (payment_verification s)).

Lemma same_limiter_settings next old :
  same_limiter next old = true ↔ limiter_settings next = limiter_settings old.
Proof.
  unfold same_limiter, limiter_settings. rewrite andb_true_iff, bool_decide_eq_true, Z.eqb_eq.
  split; [by intros [-> ->]|by intros [= -> ->]].
Qed.
Lemma same_capacity_settings next old :
  same_capacity next old = true ↔ capacity_settings next = capacity_settings old.
Proof.
  unfold same_capacity, capacity_settings. rewrite andb_true_iff, !Z.eqb_eq.
  split; [by intros [-> ->]|by intros [= -> ->]].
Qed.

(** How an object of a site is chosen: [get] reads it, [view] its settings. *)
Definition kept {A B} (get : Site → A) (view : A → B) : Prop :=
  ∀ old site, (view (get site) = view (get old) → get (inherit old site) = get old) ∧
              (view (get site) ≠ view (get old) → get (inherit old site) = get site).

Lemma rate_limit_kept : kept rate_limit (fmap limiter_settings).
Proof.
  intros old site. unfold inherit, keep_rate_limit. cbn [rate_limit].
  destruct (rate_limit site) as [r|], (rate_limit old) as [ro|]; [|by split..].
  destruct (same_limiter r ro) eqn:E; split; intros H; try done.
  - apply same_limiter_settings in E. cbn in H. congruence.
  - assert (same_limiter r ro = true) as E' by (apply same_limiter_settings; cbn in H; unfold limiter_settings in *; congruence).
    congruence.
Qed.
Lemma capacity_kept : kept capacity (fmap capacity_settings).
Proof.
  intros old site. unfold inherit, keep_capacity. cbn [capacity].
  destruct (capacity site) as [r|], (capacity old) as [ro|]; [|by split..].
  destruct (same_capacity r ro) eqn:E; split; intros H; try done.
  - apply same_capacity_settings in E. cbn in H. congruence.
  - assert (same_capacity r ro = true) as E' by (apply same_capacity_settings; cbn in H; unfold capacity_settings in *; congruence).
    congruence.
Qed.
Lemma verification_kept : kept payment_verification limiter_settings.
Proof.
  intros old site. unfold inherit, keep_verification. cbn [payment_verification].
  destruct (same_limiter _ _) eqn:E; split; intros H; try done.
  - apply same_limiter_settings in E. congruence.
  - apply same_limiter_settings in H. congruence.
Qed.

Lemma kept_view {A B} `{EqDecision B} (get : Site → A) (view : A → B) old site :
  kept get view → view (get (inherit old site)) = view (get site).
Proof.
  intros Hk. destruct (Hk old site) as [Hs Hn].
  destruct (decide (view (get site) = view (get old))) as [E|E]; [by rewrite Hs|by rewrite Hn].
Qed.
Lemma inherit_settings old site : settings (inherit old site) = settings site.
Proof.
  unfold settings.
  rewrite (kept_view _ _ old site rate_limit_kept), (kept_view _ _ old site capacity_kept),
    (kept_view _ _ old site verification_kept).
  reflexivity.
Qed.

Lemma kept_reloads {A B} (get : Site → A) (view : A → B) c l d s :
  kept get view → sites c !! d = Some s →
  Forall (λ c', ∃ s', sites c' !! d = Some s' ∧ view (get s') = view (get s)) l →
  ∃ s', sites (reloads c l) !! d = Some s' ∧ get s' = get s.
Proof.
  intros Hk. revert c s. induction l as [|c' l IH]; intros c s Hs Hl; [by exists s|].
  apply Forall_cons in Hl as [(s' & Hs' & Hv) Hl]. simpl.
  destruct (Hk s s') as [Hsame _]. specialize (Hsame Hv). rewrite <- Hsame.
  apply (IH (replace_config c c') (inherit s s')); [by rewrite replace_config_lookup, Hs', Hs|].
  by rewrite Hsame.
Qed.

Lemma reloads_snoc c l c' : reloads c (l ++ [c']) = replace_config (reloads c l) c'.
Proof. unfold reloads. by rewrite fold_left_app. Qed.

(** The same object after any number of reloads that leave its settings alone, the
    new object after one that changes them. *)
Definition persistent {A B} (get : Site → A) (view : A → B) : Prop := ∀ c l d s,
  sites c !! d = Some s →
  (Forall (λ c', ∃ s', sites c' !! d = Some s' ∧ view (get s') = view (get s)) l →
   ∃ s', sites (reloads c l) !! d = Some s' ∧ get s' = get s) ∧
  (∀ c' new, sites c' !! d = Some new → view (get new) ≠ view (get s) →
   ∃ s', sites (replace_config c c') !! d = Some s' ∧ get s' = get new).

Lemma kept_persistent {A B} (get : Site → A) (view : A → B) : kept get view → persistent get view.
Proof.
  intros Hk c l d s Hs. split; [by apply kept_reloads|].
  intros c' new Hnew Hv. exists (inherit s new). rewrite replace_config_lookup, Hnew, Hs.
  split; [done|]. by apply Hk.
Qed.

(** C33: a reload applies the new configuration and keeps the counters of what did
    not change.  After any sequence of reloads the sites and every setting are those
    of the last configuration; a site's rate limiter, verification limiter and
    capacity are the same objects, with their counters, as long as their settings
    stay the same, and are replaced by the new ones when they change. *)
Theorem reload_keeps_counters :
  (∀ c l c' d, settings <$> sites (reloads c (l ++ [c'])) !! d = settings <$> sites c' !! d) ∧
  (∀ c l c', payouts (reloads c (l ++ [c'])) = payouts c') ∧
  persistent rate_limit (fmap limiter_settings) ∧
  persistent payment_verification limiter_settings ∧
  persistent capacity (fmap capacity_settings).
Proof.
  split_and!;
    [| |auto using kept_persistent, rate_limit_kept, verification_kept, capacity_kept..].
  - intros c l c' d. rewrite reloads_snoc, replace_config_lookup.
    destruct (sites c' !! d) as [site|], (sites (reloads c l) !! d) as [old|]; simpl; try done.
    by rewrite inherit_settings.
  - intros c l c'. by rewrite reloads_snoc.
Qed.
End State.
