(* ===== verification/LnProof.v ===== *)
(** * Payment proofs ([payments/lightning/mod.rs], [lightning/l402.rs])

    The pure part of settlement: the checks on an invoice, on an x402 payment
    header and on an L402 credential, and the minting of L402 credentials.  The
    theorems say what an accepted proof proves, and that a credential minted for
    a request is accepted for it until it expires. *)
From S2P Require Import Prelude Text Net Extern Models Terms LnPolicy.
#[local] Open Scope string_scope.
#[local] Open Scope list_scope.
#[local] Open Scope Z_scope.

Module Proofs.
Import Ln.

Record Proof_ := { preimage : string }.
Record Payment := { x402_version : Z; accepted : Requirements; payload : Proof_ }.

(** [serde_json] on the derived (de)serializers of the structures above. *)
Class LnJson := {
  json_payment : string → result anyhow Payment;
  json_requirements : Requirements → string;
  json_terms_mint : Requirements → string → string
}.

Section proof.
Context `{Sha256, HmacSha256, InvoiceLib, LnJson, Base64, MacaroonLib}.

(** ** Invoices *)

Definition invoice_currency (p : Policy) : Currency :=
  if bool_decide (network (receiver p) = MAINNET) then Bitcoin else BitcoinTestnet.

(** The two groups of checks [validate_invoice] makes for an LDK receiver. *)
Definition check_payee (p : Policy) (inv : Invoice) : result anyhow unit :=
  match ldk (receiver p) with
  | Some node => ensure (bool_decide (inv_payee inv = pay_to node)) "invoice receiver mismatch"
  | None => Ok tt
  end.
Definition check_description (p : Policy) (hash : string) (inv : Invoice) : result anyhow unit :=
  match ldk (receiver p) with
  | Some node =>
      _ ← match inv_description inv with
          | DescriptionHash h =>
              expected ← decode_hash hash;
              ensure (bool_decide (h = expected)) "invoice request mismatch"
          | DescriptionDirect => Err "invoice needs a description hash"
          end;
      ensure (inv_expiry inv =? expiry_seconds node) "invoice expiry mismatch"
  | None => Ok tt
  end.

Definition validate_invoice (p : Policy) (hash encoded : string) (time grace : Z) :
    result anyhow Invoice :=
  inv ← ok_or "invalid BOLT11 invoice" (parse_invoice encoded);
  _ ← ensure (inv_signature_ok inv) "invalid invoice signature";
  _ ← check_payee p inv;
  _ ← ensure (bool_decide (inv_currency inv = invoice_currency p)) "invoice network mismatch";
  _ ← ensure (bool_decide (inv_amount_msat inv = Some (amount_msat p))) "invoice amount mismatch";
  _ ← check_description p hash inv;
  _ ← ensure (inv_created inv <=? u64_sat_add time SKEW) "invoice created in the future";
  end_ ← ok_or "invoice expiry overflow" (u64_checked_add (inv_created inv) (inv_expiry inv));
  _ ← ensure ((time <? end_) || ((0 <? grace) && (time <=? u64_sat_add end_ grace)))
        "invoice expired";
  mret inv.

(** ** x402 *)

(** The key both protocols consume. *)
Definition spent_key (p : Policy) (payment_hash : string) : string :=
  network (receiver p) +:+ ":" +:+ hex payment_hash.

Definition with_default_method (r : Requirements) : Requirements :=
  if is_none (asset_transfer_method (extra r)) then
    {| scheme := scheme r; req_network := req_network r; amount := amount r; asset := asset r;
       req_pay_to := req_pay_to r; max_timeout_seconds := max_timeout_seconds r;
       extra := {| asset_transfer_method := Some "bolt11";
                   payment_flow := payment_flow (extra r);
                   extra_request_hash := extra_request_hash (extra r);
                   request_binding_profile := request_binding_profile (extra r);
                   request_binding_params := request_binding_params (extra r);
                   invoice := invoice (extra r) |} |}
  else r.

Definition retention (inv : Invoice) : Z :=
  u64_sat_add (u64_sat_add (inv_created inv) (inv_expiry inv)) (SKEW + 3600).

Definition x402_verify (p : Policy) (hash encoded : string) (time : Z) :
    result anyhow (string * string * Z) :=
  _ ← ensure (is_some (ldk (receiver p))) "Lightning x402 requires LDK Server";
  _ ← ensure (slen encoded <=? MAX_PAYMENT_HEADER)%nat "payment too large";
  bytes ← std_decode encoded;
  payment ← json_payment bytes;
  _ ← ensure (x402_version payment =? 2) "unsupported x402 version";
  _ ← ensure (bool_decide (with_default_method (accepted payment) =
                           requirements p hash (invoice (extra (accepted payment)))))
        "payment terms or request mismatch";
  inv ← validate_invoice p hash (invoice (extra (accepted payment))) time SKEW;
  proof ← decode_hash (preimage (payload payment));
  _ ← ensure (bool_decide (sha256 proof = inv_payment_hash inv)) "invalid payment proof";
  mret (spent_key p (inv_payment_hash inv), hex (inv_payment_hash inv), retention inv).

(** ** L402 *)

Definition terms (p : Policy) (hash : string) : string :=
  let r := requirements p hash "" in
  digest (match mint_of (receiver p) with
          | Some mint => json_terms_mint r mint
          | None => json_requirements r
          end).

(** Bytes [2..34] and [..2] of an identifier. *)
Definition id_payment_hash (id : string) : string := String.substring 2 32 id.
Definition id_version (id : string) : string := String.substring 0 2 id.
Definition two_zeros : string := String "000" (String "000" "").

Definition parse_credential (encoded : string) : result anyhow (Macaroon * string) :=
  _ ← ensure (slen encoded <=? MAX_PAYMENT_HEADER)%nat "L402 credential too large";
  '(token, preimage) ← ok_or "missing L402 proof" (split_once ":" encoded);
  bytes ← std_decode token;
  _ ← ensure (match bytes with String c _ => byte_val c =? 2 | "" => false end)
        "L402 requires a V2 macaroon";
  macaroon ← mac_from_binary bytes;
  _ ← ensure ((length (mac_caveats macaroon) <=? 32)%nat
              && bool_decide (third_party_caveats macaroon = []))
        "unsupported macaroon caveats";
  let id := mac_identifier macaroon in
  _ ← ensure ((slen id =? 66)%nat && bool_decide (id_version id = two_zeros))
        "invalid L402 identifier";
  preimage ← decode_hash (to_ascii_lowercase preimage);
  _ ← ensure (bool_decide (sha256 preimage = id_payment_hash id)) "invalid payment proof";
  mret (macaroon, preimage).

(** The locals of the loop in [verify]. *)
Record Loop := {
  services : bool; request : bool; term : bool; valid_until : bool;
  expiry : Z;
  signature : string;
  satisfied : list string
}.

(** What one caveat does to [found] and [expiry]; [None] is an error. *)
Definition caveat_effect (p : Policy) (hash preimage : string) (time : Z) (st : Loop)
    (text : string) : result anyhow Loop :=
  let set a b c d e := {| services := a; request := b; term := c; valid_until := d; expiry := e;
                          signature := signature st; satisfied := satisfied st |} in
  if bool_decide (text = "services=geata:0") then
    Ok (set true (request st) (term st) (valid_until st) (expiry st))
  else if bool_decide (text = "geata_request=" +:+ hash) then
    Ok (set (services st) true (term st) (valid_until st) (expiry st))
  else if bool_decide (text = "geata_terms=" +:+ terms p hash) then
    Ok (set (services st) (request st) true (valid_until st) (expiry st))
  else match strip_prefix "geata_valid_until=" text with
  | Some value =>
      _ ← ensure (negb (bool_decide (value = "")) && bytes_all is_ascii_digit value)
            "invalid expiration";
      next ← map_err ParseIntError_to_string (parse_u64 value);
      _ ← ensure ((next <=? expiry st) && (time <? next)) "expiration must restrict access";
      Ok (set (services st) (request st) (term st) true next)
  | None =>
      match strip_prefix "preimage=" text with
      | Some value =>
          bytes ← decode_hash (to_ascii_lowercase value);
          _ ← ensure (bool_decide (bytes = preimage)) "preimage caveat mismatch";
          Ok st
      | None => Err "unsupported or unsatisfied caveat"
      end
  end.

Fixpoint check_caveats (p : Policy) (hash preimage : string) (time : Z) (st : Loop)
    (caveats : list Caveat) : result anyhow Loop :=
  match caveats with
  | [] => Ok st
  | ThirdParty :: _ => Err "third-party caveats unsupported"
  | FirstParty predicate :: caveats' =>
      let signature' := hmac_sha256 (signature st) predicate in
      _ ← ensure (utf8_valid predicate) "invalid utf-8";
      st' ← caveat_effect p hash preimage time st predicate;
      check_caveats p hash preimage time
        {| services := services st'; request := request st'; term := term st';
           valid_until := valid_until st'; expiry := expiry st';
           signature := signature'; satisfied := satisfied st' ++ [predicate] |} caveats'
  end.

Definition l402_verify (p : Policy) (hash : string) (macaroon : Macaroon) (preimage root : string)
    (valid_before time : Z) : result anyhow unit :=
  _ ← ensure (time <? valid_before) "expired credential";
  st ← check_caveats p hash preimage time
         {| services := false; request := false; term := false; valid_until := false;
            expiry := valid_before;
            signature := hmac_sha256 root (mac_identifier macaroon); satisfied := [] |}
         (mac_caveats macaroon);
  _ ← ensure (services st && request st && term st && valid_until st)
        "missing required restriction";
  _ ← ensure (bool_decide (signature st = mac_signature macaroon)) "invalid signature";
  mac_verify (satisfied st) root macaroon.

(** The pure part of [mint_l402]: the record for the journal and the encoded
    macaroon; [root] and [nonce] are the random bytes. *)
Definition valid_before_of (inv : Invoice) : result anyhow Z :=
  ok_or "expiration overflow"
    (end_ ← u64_checked_add (inv_created inv) (inv_expiry inv);
     u64_checked_add end_ (SKEW + 1)).
Definition l402_identifier (inv : Invoice) (nonce : string) : string :=
  two_zeros +:+ inv_payment_hash inv +:+ nonce.
Definition l402_predicates (p : Policy) (hash : string) (valid_before : Z) : list string :=
  ["services=geata:0"; "geata_request=" +:+ hash; "geata_terms=" +:+ terms p hash;
   "geata_valid_until=" +:+ show valid_before].

Definition l402_mint (p : Policy) (hash : string) (inv : Invoice) (root nonce : string) :
    result anyhow (string * Z * string) :=
  let identifier := l402_identifier inv nonce in
  valid_before ← valid_before_of inv;
  let predicates := l402_predicates p hash valid_before in
  let signature := fold_left hmac_sha256 predicates (hmac_sha256 root identifier) in
  macaroon ← mac_from_json (std_encode identifier) predicates (url_safe_encode signature);
  text ← mac_serialize macaroon;
  binary ← url_safe_decode text;
  mret (digest identifier, valid_before, std_encode binary).

(** ** What the checks establish *)

(** An invoice that pays the price of [p] for the request [hash], usable at
    [time] with [grace] seconds after its expiry. *)
Record good_invoice (p : Policy) (hash : string) (time grace : Z) (inv : Invoice) : Prop := {
  good_signature : inv_signature_ok inv = true;
  good_amount : inv_amount_msat inv = Some (amount_msat p);
  good_currency : inv_currency inv = invoice_currency p;
  good_node : ∀ node, ldk (receiver p) = Some node →
    inv_payee inv = pay_to node ∧ inv_expiry inv = expiry_seconds node ∧
    ∃ h, inv_description inv = DescriptionHash h ∧ hex h = hash;
  good_created : inv_created inv ≤ time + SKEW;
  good_end : time ≤ inv_created inv + inv_expiry inv + Z.max 0 grace;
  good_strict : grace ≤ 0 → time < inv_created inv + inv_expiry inv;
  good_u64 : inv_created inv + inv_expiry inv ≤ u64_max
}.

Lemma u64_checked_add_Some a b n : u64_checked_add a b = Some n ↔ n = a + b ∧ a + b ≤ u64_max.
Proof.
  unfold u64_checked_add. destruct (Z.leb_spec (a + b) u64_max); split; intros E;
    [by injection E|by destruct E as [-> _]|done|lia].
Qed.

Lemma validate_invoice_good p hash e time grace inv :
  validate_invoice p hash e time grace = Ok inv →
  parse_invoice e = Some inv ∧ good_invoice p hash time grace inv.
Proof.
  unfold validate_invoice, check_payee, check_description. intros Hv. inv_ok. subst.
  split; [done|].
  match goal with Hc : u64_checked_add _ _ = Some _ |- _ => apply u64_checked_add_Some in Hc as [-> ?] end.
  match goal with Ht : _ || _ = true |- _ => apply orb_true_iff in Ht;
    rewrite andb_true_iff, Z.ltb_lt, Z.ltb_lt, Z.leb_le in Ht end.
  rewrite ?bool_decide_eq_true, ?Z.leb_le in *. split; auto; try solve_width.
  intros node Hnode. rewrite Hnode in *. inv_ok.
  rewrite ?bool_decide_eq_true, ?Z.eqb_eq in *.
  destruct (inv_description inv) as [h|]; inv_ok. rewrite bool_decide_eq_true in *.
  split; [done|]. split; [done|]. eexists. split; [done|]. subst.
  eapply hex_decode_hash. eassumption.
Qed.

(** The terms on which a site with an LDK receiver sells a request, field by field. *)
Record agreed_terms (p : Policy) (node : LdkReceiverConfig) (hash : string) (r : Requirements) : Prop := {
  at_scheme : scheme r = "exact";
  at_network : req_network r = network (receiver p);
  at_amount : amount r = show (amount_msat p);
  at_asset : asset r = "BTC";
  at_pay_to : req_pay_to r = pay_to node;
  at_timeout : max_timeout_seconds r = expiry_seconds node;
  at_method : default "bolt11" (asset_transfer_method (extra r)) = "bolt11";
  at_flow : payment_flow (extra r) = "upfront";
  at_hash : extra_request_hash (extra r) = hash;
  at_profile : request_binding_profile (extra r) = binding_profile p;
  at_headers : bound_names (request_binding_params (extra r)) = headers p
}.

Lemma requirements_agreed p node hash r :
  ldk (receiver p) = Some node → with_default_method r = requirements p hash (invoice (extra r)) →
  agreed_terms p node hash r.
Proof.
  intros Hn. unfold with_default_method, requirements. rewrite Hn. cbn [default fmap option_fmap option_map].
  destruct r as [rs rn ra rb rp rm [[m|] ef eh eb ep ei]]; cbn; intros [=]; by split; cbn; subst.
Qed.

(** C21: an accepted x402 payment is a payment on these terms.  When [verify] accepts
    a header, the site has an LDK receiver, the header is short enough and decodes to
    a version 2 payment; the terms in it are, field by field, those of the policy for
    the hash of this request; the invoice in it is one that this node signed for
    exactly the price and network of the policy, whose description commits to the
    same hash, that was not created in the future and expired at most [SKEW] seconds
    ago; and the preimage in it is that of the invoice's payment hash.  The key,
    receipt and retention are those of the invoice, and the record is kept for
    another 3600 seconds beyond the last moment it can be presented. *)
Theorem x402_verify_sound p hash encoded time key receipt retain :
  x402_verify p hash encoded time = Ok (key, receipt, retain) →
  ∃ node bytes payment inv pre,
    ldk (receiver p) = Some node ∧
    (slen encoded ≤ MAX_PAYMENT_HEADER)%nat ∧ std_decode encoded = Ok bytes ∧
    json_payment bytes = Ok payment ∧ x402_version payment = 2 ∧
    agreed_terms p node hash (accepted payment) ∧
    parse_invoice (invoice (extra (accepted payment))) = Some inv ∧
    good_invoice p hash time SKEW inv ∧
    inv_payee inv = pay_to node ∧
    (∃ h, inv_description inv = DescriptionHash h ∧ hex h = hash) ∧
    decode_hash (preimage (payload payment)) = Ok pre ∧
    slen pre = 32%nat ∧ sha256 pre = inv_payment_hash inv ∧
    key = spent_key p (inv_payment_hash inv) ∧ receipt = hex (inv_payment_hash inv) ∧
    retain = retention inv ∧ (time + 3600 ≤ u64_max → time + 3600 ≤ retain).
Proof.
  unfold x402_verify. intros Hv. inv_ok.
  match goal with Hi : validate_invoice _ _ _ _ _ = Ok _ |- _ =>
    apply validate_invoice_good in Hi as [He Hg] end.
  match goal with Hl : is_some ?o = true |- _ => destruct o as [node|] eqn:Hnode; [|done] end.
  match goal with Hd : decode_hash _ = Ok _ |- _ => pose proof Hd as [_ Hpre]%hex_decode_hash end.
  destruct (good_node _ _ _ _ _ Hg node Hnode) as (Hp & _ & Hd).
  rewrite Nat.leb_le, Z.eqb_eq, bool_decide_eq_true in *. simplify_eq.
  do 5 eexists. do 5 (split; [done|]). split; [by apply requirements_agreed|]. repeat (split; [done|]).
  intros Ht. pose proof (good_end _ _ _ _ _ Hg). pose proof (good_u64 _ _ _ _ _ Hg).
  unfold retention, SKEW in *. solve_width.
Qed.

(** *** L402 *)

Definition first_party (ps : list string) : list Caveat := map FirstParty ps.

(** A predicate the loop accepts, and what it then means. *)
Definition caveat_holds (p : Policy) (hash preimage : string) (time expiry : Z) (text : string) : Prop :=
  text = "services=geata:0" ∨ text = "geata_request=" +:+ hash ∨
  text = "geata_terms=" +:+ terms p hash ∨
  (∃ v n, text = "geata_valid_until=" +:+ v ∧ parse_u64 v = Ok n ∧ time < n ≤ expiry) ∨
  (∃ v, text = "preimage=" +:+ v ∧ decode_hash (to_ascii_lowercase v) = Ok preimage).

Ltac loop_simpl :=
  cbn [services request term valid_until expiry signature satisfied] in *.

Lemma caveat_effect_spec p hash pre time st text st' :
  caveat_effect p hash pre time st text = Ok st' →
  caveat_holds p hash pre time (expiry st) text ∧
  signature st' = signature st ∧ satisfied st' = satisfied st ∧ expiry st' ≤ expiry st ∧
  (services st' = true → services st = true ∨ text = "services=geata:0") ∧
  (request st' = true → request st = true ∨ text = "geata_request=" +:+ hash) ∧
  (term st' = true → term st = true ∨ text = "geata_terms=" +:+ terms p hash) ∧
  (valid_until st' = true → valid_until st = true ∨ ∃ v, text = "geata_valid_until=" +:+ v).
Proof.
  unfold caveat_effect, caveat_holds. intros Hc.
  repeat case_bool_decide; simplify_eq; loop_simpl;
    try (split; [by auto|]; split_and!; by auto || lia).
  destruct (strip_prefix "geata_valid_until=" text) as [v|] eqn:Hv.
  - apply strip_prefix_Some in Hv. inv_ok. subst st'. loop_simpl. rewrite Z.leb_le, Z.ltb_lt in *.
    split; [|split_and!; try lia; eauto]. do 3 right. left. eauto 10.
  - destruct (strip_prefix "preimage=" text) as [v|] eqn:Hp; [|done].
    apply strip_prefix_Some in Hp. inv_ok. rewrite bool_decide_eq_true in *. subst.
    split; [|split_and!; try lia; eauto]. do 4 right. eauto.
Qed.

Lemma caveat_holds_mono p hash pre time e e' text :
  e ≤ e' → caveat_holds p hash pre time e text → caveat_holds p hash pre time e' text.
Proof.
  unfold caveat_holds. intros He [?|[?|[?|[(v & n & ? & ? & ?)|?]]]]; auto.
  do 3 right. left. exists v, n. split; [done|]. split; [done|lia].
Qed.

Lemma check_caveats_spec p hash pre time cs st st' :
  check_caveats p hash pre time st cs = Ok st' →
  ∃ ps, cs = first_party ps ∧ Forall (caveat_holds p hash pre time (expiry st)) ps ∧
    signature st' = fold_left hmac_sha256 ps (signature st) ∧
    satisfied st' = satisfied st ++ ps ∧
    (services st' = true → services st = true ∨ "services=geata:0" ∈ ps) ∧
    (request st' = true → request st = true ∨ "geata_request=" +:+ hash ∈ ps) ∧
    (term st' = true → term st = true ∨ "geata_terms=" +:+ terms p hash ∈ ps) ∧
    (valid_until st' = true → valid_until st = true ∨ ∃ v, "geata_valid_until=" +:+ v ∈ ps).
Proof.
  revert st. induction cs as [|[text|] cs IH]; intros st Hc; cbn [check_caveats] in Hc;
    [|inv_ok|done].
  - simplify_eq. exists []. rewrite app_nil_r. repeat split; auto.
  - match goal with He : caveat_effect _ _ _ _ _ _ = Ok ?s1 |- _ =>
      apply caveat_effect_spec in He as (Hh & Hs & Hsat & Hexp & H1' & H2' & H3' & H4') end.
    apply IH in Hc as (ps & -> & Hall & Hsig & Hsa & I1 & I2 & I3 & I4).
    exists (text :: ps). loop_simpl. rewrite Hsat in Hsa. split; [done|]. split.
    { constructor; [done|]. eapply Forall_impl; [done|]. intros. eapply caveat_holds_mono; eauto. }
    split; [done|]. split; [by rewrite Hsa, <- app_assoc|]. split_and!; intros Hf.
    + destruct (I1 Hf) as [Hx|]; [|set_solver]. destruct (H1' Hx); set_solver.
    + destruct (I2 Hf) as [Hx|]; [|set_solver]. destruct (H2' Hx); set_solver.
    + destruct (I3 Hf) as [Hx|]; [|set_solver]. destruct (H3' Hx); set_solver.
    + destruct (I4 Hf) as [Hx|[v Hv]]; [|right; exists v; set_solver].
      destruct (H4' Hx) as [|[v Hv]]; [by left|right; exists v; set_solver].
Qed.

(** C22: an accepted L402 credential is restricted to this request.  When [verify]
    accepts a macaroon, its signature is the HMAC chain from the stored root key
    over its identifier and caveats; the caveats are all first-party and all
    understood; they name this service, this request and these terms, and give an
    expiry; and every expiry they give is still in the future and no later than
    that of the journal.  So a holder can add restrictions but lift none. *)
Theorem l402_verify_sound p hash macaroon pre root valid_before time :
  l402_verify p hash macaroon pre root valid_before time = Ok tt →
  time < valid_before ∧
  ∃ ps, mac_caveats macaroon = first_party ps ∧
    mac_signature macaroon = hmac_chain root (mac_identifier macaroon) ps ∧
    "services=geata:0" ∈ ps ∧ "geata_request=" +:+ hash ∈ ps ∧
    "geata_terms=" +:+ terms p hash ∈ ps ∧ (∃ v, "geata_valid_until=" +:+ v ∈ ps) ∧
    Forall (caveat_holds p hash pre time valid_before) ps.
Proof.
  unfold l402_verify. intros Hv. inv_ok.
  match goal with Hc : check_caveats _ _ _ _ _ _ = Ok _ |- _ =>
    apply check_caveats_spec in Hc as (ps & Hm & Hall & Hsig & _ & I1 & I2 & I3 & I4) end.
  rewrite Z.ltb_lt, bool_decide_eq_true in *. loop_simpl. split; [done|].
  exists ps. split; [done|]. split; [unfold hmac_chain; congruence|].
  destruct I1 as [?|?]; [done..|]. destruct I2 as [?|?]; [done..|].
  destruct I3 as [?|?]; [done..|]. destruct I4 as [?|?]; [done..|]. auto.
Qed.

(** *** Round trip *)

Lemma terms_ascii p hash : str_is_ascii (terms p hash) = true.
Proof.
  unfold terms, digest, str_is_ascii. eapply bytes_all_impl; [|apply lowercase_hex_hex].
  intros c. unfold is_ascii_digit, in_range. rewrite orb_true_iff, !andb_true_iff, !Z.leb_le. lia.
Qed.

Lemma lowercase_hex_no_upper s :
  lowercase_hex s = true → to_ascii_lowercase s = s.
Proof.
  intros Hs. apply to_ascii_lowercase_id. eapply bytes_all_impl; [|exact Hs].
  intros c. unfold is_ascii_digit, is_ascii_upper, in_range.
  rewrite orb_true_iff, negb_true_iff, andb_false_iff, !andb_true_iff, !Z.leb_gt, !Z.leb_le. lia.
Qed.

Lemma valid_before_of_spec inv vb :
  valid_before_of inv = Ok vb →
  vb = inv_created inv + inv_expiry inv + SKEW + 1 ∧ vb ≤ u64_max.
Proof.
  unfold valid_before_of. intros Hv. apply ok_or_Ok, bind_Some in Hv as (e & He & Hv).
  apply u64_checked_add_Some in He as [-> _]. apply u64_checked_add_Some in Hv as [-> ?].
  unfold SKEW in *. lia.
Qed.

Ltac caveat_neq := intros Hneq; simpl in Hneq; discriminate Hneq.

Lemma effect_services p hash pre time st :
  caveat_effect p hash pre time st "services=geata:0" =
  Ok {| services := true; request := request st; term := term st; valid_until := valid_until st;
        expiry := expiry st; signature := signature st; satisfied := satisfied st |}.
Proof. done. Qed.

Lemma effect_request p hash pre time st :
  caveat_effect p hash pre time st ("geata_request=" +:+ hash) =
  Ok {| services := services st; request := true; term := term st; valid_until := valid_until st;
        expiry := expiry st; signature := signature st; satisfied := satisfied st |}.
Proof.
  unfold caveat_effect. rewrite bool_decide_eq_false_2 by caveat_neq.
  by rewrite bool_decide_eq_true_2.
Qed.

Lemma effect_terms p hash pre time st :
  caveat_effect p hash pre time st ("geata_terms=" +:+ terms p hash) =
  Ok {| services := services st; request := request st; term := true; valid_until := valid_until st;
        expiry := expiry st; signature := signature st; satisfied := satisfied st |}.
Proof.
  unfold caveat_effect. rewrite !bool_decide_eq_false_2 by caveat_neq.
  by rewrite bool_decide_eq_true_2.
Qed.

Lemma effect_valid_until p hash pre time st n :
  0 ≤ n ≤ u64_max → n ≤ expiry st → time < n →
  caveat_effect p hash pre time st ("geata_valid_until=" +:+ show n) =
  Ok {| services := services st; request := request st; term := term st; valid_until := true;
        expiry := n; signature := signature st; satisfied := satisfied st |}.
Proof.
  intros Hn He Ht. unfold caveat_effect. rewrite !bool_decide_eq_false_2 by caveat_neq.
  rewrite strip_prefix_app. destruct (show_digits n) as (c & s & Hs & Hd); [lia|].
  rewrite Hd, bool_decide_eq_false_2 by (rewrite Hs; caveat_neq).
  unfold parse_u64. rewrite parse_show by lia. cbn.
  by rewrite (proj2 (Z.leb_le _ _) He), (proj2 (Z.ltb_lt _ _) Ht).
Qed.

Lemma check_minted p hash pre time root id vb :
  str_is_ascii hash = true → 0 ≤ vb ≤ u64_max → time < vb →
  let ps := l402_predicates p hash vb in
  check_caveats p hash pre time
    {| services := false; request := false; term := false; valid_until := false; expiry := vb;
       signature := hmac_sha256 root id; satisfied := [] |} (first_party ps) =
  Ok {| services := true; request := true; term := true; valid_until := true; expiry := vb;
        signature := hmac_chain root id ps; satisfied := ps |}.
Proof.
  intros Hh Hvb Ht ps.
  assert (∀ x, str_is_ascii x = true → ∀ pref, str_is_ascii pref = true →
    utf8_valid (pref +:+ x) = true) as Hutf.
  { intros x Hx pref Hp. apply ascii_utf8_valid.
    unfold str_is_ascii in *. by rewrite bytes_all_app, Hp, Hx. }
  destruct (show_digits vb) as (c & s & _ & Hd); [lia|].
  unfold ps, l402_predicates, first_party. cbn [map check_caveats].
  rewrite !Hutf by (done || apply terms_ascii || by apply digits_ascii).
  rewrite effect_services. cbn [mbind result_bind ensure utf8_valid]. loop_simpl.
  rewrite effect_request. cbn [mbind result_bind]. loop_simpl.
  rewrite effect_terms. cbn [mbind result_bind]. loop_simpl.
  by rewrite effect_valid_until.
Qed.

Context `{!Sha256Laws, !Base64Laws, !MacaroonLaws}.

Lemma l402_identifier_spec inv nonce :
  slen (inv_payment_hash inv) = 32%nat → slen nonce = 32%nat →
  slen (l402_identifier inv nonce) = 66%nat ∧
  id_version (l402_identifier inv nonce) = two_zeros ∧
  id_payment_hash (l402_identifier inv nonce) = inv_payment_hash inv.
Proof.
  intros Hp Hn. unfold l402_identifier, id_version, id_payment_hash.
  rewrite !slen_app, Hp, Hn. split; [done|]. split; [apply (substring_prefix two_zeros)|].
  rewrite (substring_skip two_zeros) by done. rewrite <- Hp. apply substring_prefix.
Qed.

(** Parsing inverts the encoding of a V2 macaroon with a proof. *)
Lemma parse_credential_encode bin macaroon ps pre :
  mac_from_binary (String (Ascii.ascii_of_nat 2) bin) = Ok macaroon →
  mac_caveats macaroon = first_party ps → (length ps ≤ 32)%nat →
  slen (mac_identifier macaroon) = 66%nat → id_version (mac_identifier macaroon) = two_zeros →
  slen pre = 32%nat → sha256 pre = id_payment_hash (mac_identifier macaroon) →
  let encoded := std_encode (String (Ascii.ascii_of_nat 2) bin) in
  (slen encoded + 65 ≤ MAX_PAYMENT_HEADER)%nat →
  parse_credential (encoded +:+ ":" +:+ hex pre) = Ok (macaroon, pre).
Proof.
  intros Hbin Hps Hlen Hid Hv Hpre Hsha encoded Hmax. unfold parse_credential.
  rewrite !slen_app, slen_hex, Hpre. cbn [slen String.length].
  rewrite (proj2 (Nat.leb_le _ _)) by lia. cbn [mbind result_bind ensure].
  change (":" +:+ hex pre) with (String ":" (hex pre)). unfold encoded.
  rewrite split_once_app by by apply std_encode_without. cbn [ok_or mbind result_bind].
  rewrite std_decode_encode. cbn [mbind result_bind]. rewrite Hbin. cbn [mbind result_bind].
  assert (third_party_caveats macaroon = []) as ->.
  { unfold third_party_caveats. rewrite Hps. by clear; induction ps. }
  rewrite Hps. unfold first_party. rewrite length_map, (proj2 (Nat.leb_le _ _)) by lia.
  rewrite Hid, Hv, lowercase_hex_no_upper by apply lowercase_hex_hex.
  rewrite decode_hash_hex by done. cbn. by rewrite bool_decide_eq_true_2 by done.
Qed.

(** Minted credentials work.  The credential [mint_l402] advertises for a
    request, presented with the preimage of the invoice's payment hash under the
    same policy and for the same request before it expires, is parsed and verified
    against the root key of its journal record. *)
Theorem l402_mint_verify p hash inv root nonce key vb encoded pre time :
  l402_mint p hash inv root nonce = Ok (key, vb, encoded) →
  u64 (inv_created inv) → u64 (inv_expiry inv) →
  slen nonce = 32%nat → slen pre = 32%nat → sha256 pre = inv_payment_hash inv →
  str_is_ascii hash = true → (slen encoded + 65 ≤ MAX_PAYMENT_HEADER)%nat → time < vb →
  ∃ macaroon, parse_credential (encoded +:+ ":" +:+ hex pre) = Ok (macaroon, pre) ∧
    digest (mac_identifier macaroon) = key ∧
    id_payment_hash (mac_identifier macaroon) = inv_payment_hash inv ∧
    l402_verify p hash macaroon pre root vb time = Ok tt.
Proof.
  intros Hm Hc He Hnonce Hpre Hsha Hh Hlen Ht. unfold l402_mint in Hm.
  apply bind_Ok in Hm as (vb' & Hvb & Hm). apply valid_before_of_spec in Hvb as [Hvb Hmax].
  rewrite mac_from_json_spec in Hm. cbn [mbind result_bind] in Hm.
  set (mac := {| mac_identifier := _ |}) in Hm.
  destruct (mac_serialize_spec mac) as (text & bin & Hser & Hdec & Hbin).
  rewrite Hser in Hm. cbn [mbind result_bind] in Hm. rewrite Hdec in Hm.
  cbn [mbind result_bind] in Hm. injection Hm as <- <- <-.
  destruct (l402_identifier_spec inv nonce) as (Hi & Hv & Hp);
    [rewrite <- Hsha; apply sha256_len|done|].
  exists mac. split; [|split; [done|split; [done|]]].
  { eapply parse_credential_encode with (ps := l402_predicates p hash vb'); try done.
    - simpl. lia.
    - simpl mac_identifier. by rewrite Hp. }
  unfold l402_verify. rewrite (proj2 (Z.ltb_lt _ _)) by done.
  cbn [mbind result_bind ensure]. simpl (mac_caveats mac).
  change (map FirstParty ?l) with (first_party l).
  rewrite check_minted by (done || unfold SKEW in *; solve_width).
  cbn [mbind result_bind ensure services request term valid_until signature satisfied andb].
  rewrite bool_decide_eq_true_2 by done. by apply mac_verify_spec.
Qed.
End proof.

(** ** Concrete instances *)

Module Examples.
Import Toy.

#[export] Instance base64 : Base64 :=
  {| std_encode := hex; std_decode := decode_pairs;
     url_safe_encode := hex; url_safe_decode := decode_pairs |}.
#[export] Instance base64_laws : Base64Laws.
Proof.
  split; [apply decode_pairs_hex|]. intros s.
  eapply bytes_all_impl; [|apply lowercase_hex_hex]. intros c Hc.
  unfold base64_char, is_ascii_alphanumeric, is_ascii_digit, is_ascii_lower, in_range in *.
  rewrite !orb_true_iff, !andb_true_iff, !Z.leb_le in *. lia.
Qed.

Fixpoint unframes (s : string) : option (list string) :=
  match s with
  | "" => Some []
  | String "0" s' => l ← unframes s'; Some ("" :: l)
  | String "1" (String c s') =>
      l ← unframes s';
      match l with w :: l' => Some (String c w :: l') | [] => None end
  | _ => None
  end.
Lemma unframes_frame s rest l :
  unframes rest = Some l → unframes (frame s rest) = Some (s :: l).
Proof. intros Hr. induction s as [|c s IH]; simpl; [by rewrite Hr|]. by rewrite IH. Qed.
Lemma unframes_frames l : unframes (frames l) = Some l.
Proof. induction l as [|s l IH]; simpl; [done|]. by apply unframes_frame. Qed.

Definition caveat_text (c : Caveat) : string :=
  match c with FirstParty p => String "f" p | ThirdParty => "t" end.
Definition text_caveat (s : string) : Caveat :=
  match s with String "f" p => FirstParty p | _ => ThirdParty end.

#[export] Instance macaroon : MacaroonLib :=
  {| mac_from_binary b :=
       match b with
       | String _ b' =>
           match unframes b' with
           | Some (id :: sig :: cs) =>
               Ok {| mac_identifier := id; mac_caveats := map text_caveat cs; mac_signature := sig |}
           | _ => Err "macaroon"
           end
       | "" => Err "macaroon"
       end;
     mac_from_json i c s :=
       i ← decode_pairs i; s ← decode_pairs s;
       Ok {| mac_identifier := i; mac_caveats := map FirstParty c; mac_signature := s |};
     mac_serialize m :=
       Ok (hex (String (Ascii.ascii_of_nat 2)
                 (frames (mac_identifier m :: mac_signature m :: map caveat_text (mac_caveats m)))));
     mac_verify ps root m :=
       ensure (bool_decide (mac_signature m = hmac_chain root (mac_identifier m) ps)) "signature" |}.
#[export] Instance macaroon_laws : MacaroonLaws.
Proof.
  split.
  - intros id ps sig. simpl. by rewrite !decode_pairs_hex.
  - intros [id cs sig]. do 2 eexists. split; [done|]. split; [apply decode_pairs_hex|].
    cbn [mac_from_binary macaroon]. rewrite unframes_frames. cbn. do 2 f_equal.
    rewrite map_map. induction cs as [|[|] cs IH]; simpl; congruence.
  - intros ps root m _ E. simpl. by rewrite E, bool_decide_eq_true_2.
Qed.

Definition example_hash : string := hex (sha "request").
Definition example_preimage : string := sha "preimage".
Definition example_invoice : Invoice :=
  {| inv_signature_ok := true; inv_payee := "02aa"; inv_currency := Bitcoin;
     inv_amount_msat := Some 21000; inv_description := DescriptionHash (sha "request");
     inv_created := 1000; inv_expiry := 300; inv_payment_hash := sha example_preimage |}.
#[export] Instance invoices : InvoiceLib := λ s,
  if bool_decide (s = "lnbc1") then Some example_invoice else None.
#[export] Instance lnjson : LnJson :=
  {| json_payment s :=
       if bool_decide (s = "pay") then
         Ok {| x402_version := 2; accepted := requirements example_policy example_hash "lnbc1";
               payload := {| preimage := hex example_preimage |} |}
       else Err "json";
     json_requirements r := frames [scheme r; amount r; extra_request_hash (extra r)];
     json_terms_mint r m := frames [m; scheme r; amount r; extra_request_hash (extra r)] |}.

Lemma x402_verify_sound_witness :
  ∃ key receipt retain,
    x402_verify example_policy example_hash (hex "pay") 1200 = Ok (key, receipt, retain) ∧
    ∃ node payment inv, agreed_terms example_policy node example_hash (accepted payment) ∧
      invoice (extra (accepted payment)) = "lnbc1" ∧ retain = retention inv ∧
      sha256 example_preimage = inv_payment_hash inv.
Proof.
  do 3 eexists. split; [vm_compute; reflexivity|].
  edestruct (x402_verify_sound example_policy example_hash (hex "pay") 1200)
    as (node & bytes & payment & inv & pre & _ & _ & Hb & Hp & _ & Ha & _ & _ & _ & _ & _ & _ & Hs & Hk & Hr & Ht & _);
    [vm_compute; reflexivity|].
  exists node, payment, inv. split; [exact Ha|].
  assert (std_decode (hex "pay") = Ok "pay") as Hd by (vm_compute; reflexivity).
  rewrite Hd in Hb. injection Hb as <-. injection Hp as <-. split; [reflexivity|].
  split; [exact Ht|]. apply hex_inj. rewrite <- Hr. vm_compute. reflexivity.
Defined.

Definition example_macaroon (ps : list string) : Macaroon :=
  {| mac_identifier := l402_identifier example_invoice (sha "nonce");
     mac_caveats := first_party ps;
     mac_signature := hmac_chain "root" (l402_identifier example_invoice (sha "nonce")) ps |}.

(** A credential its holder narrowed to an earlier expiry. *)
Lemma l402_verify_sound_witness :
  ∃ ps, "geata_valid_until=1250" ∈ ps ∧
    mac_caveats (example_macaroon (l402_predicates example_policy example_hash 1361
                                   ++ ["geata_valid_until=1250"])) = first_party ps.
Proof.
  destruct (l402_verify_sound example_policy example_hash
    (example_macaroon (l402_predicates example_policy example_hash 1361
                       ++ ["geata_valid_until=1250"])) example_preimage "root" 1361 1200)
    as [_ (ps & Hps & _)]; [vm_compute; reflexivity|].
  exists ps. split; [|exact Hps].
  apply (f_equal (map caveat_text)) in Hps. unfold first_party in Hps.
  assert (String "f" "geata_valid_until=1250" ∈ map caveat_text (map FirstParty ps)) as Hin.
  { rewrite <- Hps. unfold example_macaroon, first_party, l402_predicates. simpl. set_solver. }
  rewrite map_map in Hin. apply list_elem_of_fmap in Hin as (x & Hx & Hin).
  simpl in Hx. injection Hx as <-. exact Hin.
Defined.

Lemma l402_mint_verify_witness :
  ∃ key vb encoded m, l402_mint example_policy example_hash example_invoice "root" (sha "nonce") =
    Ok (key, vb, encoded) ∧ vb = 1361 ∧
  l402_verify example_policy example_hash m example_preimage "root" vb 1360 = Ok tt.
Proof.
  destruct (l402_mint example_policy example_hash example_invoice "root" (sha "nonce"))
    as [[[key vb] encoded]|e] eqn:Hm; [|vm_compute in Hm; discriminate Hm].
  assert (vb = 1361 ∧ slen encoded = slen encoded ∧ (slen encoded + 65 <= 2000)%nat) as (Hvb & _ & Hl).
  { vm_compute in Hm. injection Hm as <- <- <-. vm_compute. repeat split. lia. }
  edestruct (l402_mint_verify example_policy example_hash example_invoice "root" (sha "nonce")
    key vb encoded example_preimage 1360) as (m & _ & _ & _ & Hv);
    [exact Hm|vm_compute; split; discriminate|vm_compute; split; discriminate|reflexivity|
     reflexivity|reflexivity|reflexivity| |subst; reflexivity|].
  { etransitivity; [exact Hl|]. apply Nat.leb_le. vm_compute. reflexivity. }
  exists key, vb, encoded, m. auto.
Defined.
End Examples.
End Proofs.
