(* ===== verification/LnStore.v ===== *)
(** * The Lightning service ([payments/lightning]: [mod.rs], [l402.rs], [cashu.rs], [maintenance.rs])

    The journal of spent payment hashes, L402 root keys and mint quotes, and the
    handlers that use it: issuing challenges, settling x402 and L402 payments,
    and cleanup.  Every handler is a task of [Conc]: the theorems hold for every
    interleaving, failure, cancellation and restart.  The wallet side of a mint
    and the node are remote parties here ([LnCmd]). *)
From stdpp Require Import sorting.
From S2P Require Import Prelude Text Sweep Net Effects Conc Extern Models Ledger Cdk Terms LnPolicy LnProof.
#[local] Open Scope string_scope.
#[local] Open Scope list_scope.
#[local] Open Scope Z_scope.

Module Service.
Import Ln Proofs.

(** ** Data *)

Record Deposit := {
  dep_mint : string;
  dep_quote : string;
  dep_amount : Z;
  dep_invoice : string;
  retired : bool
}.

(** The database with its four tables, and the state of the process: whether the
    file exists and is open, and the cursor of the cleanup. *)
Record Store := {
  file_exists : bool;
  opened : bool;
  roots : gmap string (string * Z);
  spent : gmap string Z;
  quotes : gmap string Deposit;
  mints : gset string;
  cursor : option string
}.
Definition empty : Store :=
  {| file_exists := false; opened := false; roots := ∅; spent := ∅; quotes := ∅; mints := ∅;
     cursor := None |}.
(** A restart of the process keeps the file. *)
Definition restart (st : Store) : Store :=
  {| file_exists := file_exists st; opened := false; roots := roots st; spent := spent st;
     quotes := quotes st; mints := mints st; cursor := None |}.

Definition set_roots r (st : Store) : Store :=
  {| file_exists := file_exists st; opened := opened st; roots := r; spent := spent st;
     quotes := quotes st; mints := mints st; cursor := cursor st |}.
Definition set_spent s (st : Store) : Store :=
  {| file_exists := file_exists st; opened := opened st; roots := roots st; spent := s;
     quotes := quotes st; mints := mints st; cursor := cursor st |}.
Definition set_quotes q (st : Store) : Store :=
  {| file_exists := file_exists st; opened := opened st; roots := roots st; spent := spent st;
     quotes := q; mints := mints st; cursor := cursor st |}.
Definition set_mints m (st : Store) : Store :=
  {| file_exists := file_exists st; opened := opened st; roots := roots st; spent := spent st;
     quotes := quotes st; mints := m; cursor := cursor st |}.
Definition set_cursor c (st : Store) : Store :=
  {| file_exists := file_exists st; opened := opened st; roots := roots st; spent := spent st;
     quotes := quotes st; mints := mints st; cursor := c |}.
Definition set_open e o (st : Store) : Store :=
  {| file_exists := e; opened := o; roots := roots st; spent := spent st;
     quotes := quotes st; mints := mints st; cursor := cursor st |}.

(** ** Transactions *)

Definition prune (time : Z) (st : Store) : Store :=
  set_spent (filter (λ kv, time < kv.2) (spent st))
    (set_roots (filter (λ kv, time < kv.2.2) (roots st)) st).

Definition check_capacity (st : Store) (needed : Z) : result anyhow unit :=
  let count := u64_sat_add (Z.of_nat (size (roots st))) (Z.of_nat (size (quotes st))) in
  ensure (u64_sat_add count needed <=? MAX_CHALLENGE_RECORDS)
    "outstanding challenge capacity exhausted".

(** The transaction of [claim]. *)
Definition claim_tx (key : string) (retain_until : Z) (time : Z) (st : Store) :
    Store * result anyhow bool :=
  if time <? retain_until then
    match spent st !! key with
    | Some _ => (st, Ok false)
    | None => (set_spent (<[key := retain_until]> (spent st)) st, Ok true)
    end
  else (st, Err "settlement retention already expired").

(** The transaction of [mint_l402]. *)
Definition root_tx (key root : string) (valid_before : Z) (st : Store) :
    Store * result anyhow unit :=
  match check_capacity st 1 with
  | Err e => (st, Err e)
  | Ok _ =>
      if is_some (roots st !! key) then (st, Err "duplicate credential identifier")
      else (set_roots (<[key := (root, valid_before)]> (roots st)) st, Ok tt)
  end.

(** The second transaction of [cashu_invoice]. *)
Definition quote_tx (key : string) (deposit : Deposit) (st : Store) :
    Store * result anyhow unit :=
  match check_capacity st 1 with
  | Err e => (st, Err e)
  | Ok _ =>
      if is_some (quotes st !! key) then (st, Err "mint reused an invoice payment hash")
      else (set_quotes (<[key := deposit]> (quotes st)) st, Ok tt)
  end.

(** ** Remote parties *)

Inductive LnCmd : Type → Type :=
(** the issuance rate limit and the permits of [issuance.rs] *)
| Admit (receiver : ReceiverConfig) (client : IpAddr) : LnCmd (result anyhow unit)
(** [rand_bytes] *)
| Random (n : nat) : LnCmd (result anyhow string)
(** [receiver::invoice] *)
| NodeInvoice (node : LdkReceiverConfig) (amount : Z) (hash : string) : LnCmd (result anyhow string)
(** the wallet of a mint, [Payments] *)
| MintInvoice (mint : string) (amount : Z) : LnCmd (result anyhow Cdk.MintQuote)
| CollectMintInvoice (mint quote : string) (amount : Z) (invoice : string) : LnCmd (result anyhow unit)
| CanPruneMintDeposit (mint quote : string) (amount : Z) (invoice : string) : LnCmd (result anyhow bool)
| RemoveRetiredMintQuote (mint quote : string) : LnCmd (result anyhow unit)
| RecoverMintDeposits (mint : string) (associated : gset string) : LnCmd (result anyhow unit)
(** [try_lock] of the cleanup cursor, and the deadline of a [timeout] *)
| CleanupLock : LnCmd bool
| Elapsed : LnCmd bool.

Inductive Error := Invalid | Unavailable.
#[export] Instance Error_eq_dec : EqDecision Error.
Proof. solve_decision. Defined.
Record Challenge := { ch_x402 : option string; ch_l402 : option string }.

Class StoreJson := {
  json_receipt : string → string → string;
  json_challenge : string → Requirements → string
}.

Abbreviation task A := (prog Store LnCmd A) (only parsing).
(** The [?] operator on a plain result. *)
Definition lift {E A} (r : result E A) : task (result E A) := Ret r.

(** ** Handlers *)

Section handlers.
Context `{UrlLib, MintUrlLib, Sha256, HmacSha256, InvoiceLib, LnJson, StoreJson, Base64, MacaroonLib}.

(** [database]: the first use opens the file, which prunes it. *)
Definition database : task (result anyhow unit) :=
  Mem (λ st, (st, opened st)) (λ is_open : bool,
    if is_open then Ret (Ok tt)
    else
      let? _ := tx "storage" (λ t st, (set_open true (opened st) (prune t st), Ok tt)) in
      Mem (λ st, (set_open (file_exists st) true st, tt)) (λ _, Ret (Ok tt))).

Definition claim (key : string) (retain_until : Z) : task (result Error unit) :=
  let? _ := on_err (λ _, Unavailable) database in
  let? claimed := on_err (λ _, Unavailable) (tx "storage" (claim_tx key retain_until)) in
  Ret (if claimed : bool then Ok tt else Err Invalid).

Definition settle (p : Policy) (hash encoded : string) : task (result Error string) :=
  let? time := now in
  let? v := lift (map_err (λ _, Invalid) (x402_verify p hash encoded time)) in
  let '(key, payment_hash, retain_until) := v in
  let? _ := claim key retain_until in
  Ret (Ok (std_encode (json_receipt payment_hash (network (receiver p))))).

(** ** Mint deposits *)

Definition cashu_invoice (p : Policy) (mint hash : string) : task (result anyhow string) :=
  let? _ := database in
  let? _ := tx "storage" (λ _ st, (set_mints ({[mint]} ∪ mints st) st, Ok tt)) in
  let amount := amount_msat p / 1000 in
  let? quote := call (MintInvoice mint amount) in
  let? time := now in
  let? inv := lift (validate_invoice p hash (Cdk.q_request quote) time 0) in
  let? _ := lift (ensure (bool_decide (Cdk.q_amount quote = Some amount) && bool_decide (Cdk.q_unit quote = Cdk.Sat))
                    "mint quote terms mismatch") in
  let? time := now in
  let? end_ := lift (ok_or "invoice expiration overflow"
                       (u64_checked_add (inv_created inv) (inv_expiry inv))) in
  let? _ := lift (ensure ((end_ <=? Cdk.q_expiry quote) && (end_ <=? u64_sat_add time 86400))
                    "mint invoice expiry must fit the quote and be within 24 hours") in
  let key := spent_key p (inv_payment_hash inv) in
  let deposit := {| dep_mint := mint; dep_quote := Cdk.q_id quote; dep_amount := amount;
                    dep_invoice := Cdk.q_request quote; retired := false |} in
  let? _ := database in
  let? _ := tx "storage" (λ _, quote_tx key deposit) in
  Ret (Ok (Cdk.q_request quote)).

Definition collect_cashu_invoice (p : Policy) (mint key : string) : task (result Error unit) :=
  let? _ := on_err (λ _, Unavailable) database in
  let? deposit := on_err (λ _, Unavailable)
    (tx "storage" (λ _ st, (st, ok_or "missing mint deposit" (quotes st !! key)))) in
  if negb (bool_decide (dep_mint deposit = mint)) || negb (dep_amount deposit =? amount_msat p / 1000)
  then Ret (Err Invalid)
  else on_err (λ _, Unavailable)
         (call (CollectMintInvoice mint (dep_quote deposit) (dep_amount deposit) (dep_invoice deposit))).

(** ** L402 *)

Definition quote_char : string := String "034" "".
Definition l402_header (encoded invoice : string) : string :=
  "L402 macaroon=" +:+ quote_char +:+ encoded +:+ quote_char +:+ ", invoice=" +:+ quote_char
  +:+ invoice +:+ quote_char.

Definition mint_l402 (p : Policy) (hash invoice : string) (parsed : Invoice) :
    task (result anyhow string) :=
  let? root := call (Random 32) in
  let? nonce := call (Random 32) in
  let? m := lift (l402_mint p hash parsed root nonce) in
  let '(key, valid_before, encoded) := m in
  let? _ := database in
  let? _ := tx "storage" (λ _, root_tx key root valid_before) in
  Ret (Ok (l402_header encoded invoice)).

(** The read transaction of [settle_l402]; a stored key must have 32 bytes. *)
Definition read_root (id : string) (st : Store) : result anyhow (option (string * Z)) :=
  match roots st !! id with
  | None => Ok None
  | Some (key, expiry) =>
      _ ← ensure (slen key =? 32)%nat "invalid root key"; Ok (Some (key, expiry))
  end.

Definition settle_l402 (p : Policy) (hash encoded : string) : task (result Error unit) :=
  let? c := lift (map_err (λ _, Invalid) (parse_credential encoded)) in
  let '(macaroon, preimage) := c in
  let identifier := mac_identifier macaroon in
  let? _ := on_err (λ _, Unavailable) database in
  let? record := on_err (λ _, Unavailable)
    (tx "storage" (λ _ st, (st, read_root (digest identifier) st))) in
  let? r := lift (ok_or Invalid record) in
  let '(root, valid_before) := r in
  let? time := now in
  let? _ := lift (map_err (λ _, Invalid)
                    (l402_verify p hash macaroon preimage root valid_before time)) in
  let key := spent_key p (id_payment_hash identifier) in
  let? _ := match mint_of (receiver p) with
            | Some mint => collect_cashu_invoice p mint key
            | None => Ret (Ok tt)
            end in
  claim key (u64_sat_add valid_before 3599).

(** ** Challenges *)

Definition check_challenge_capacity (needed : Z) : task (result anyhow unit) :=
  let? _ := database in
  tx "storage" (λ _ st, (st, check_capacity st needed)).

Definition b2z (b : bool) : Z := if b then 1 else 0.

Definition challenge (p : Policy) (url hash : string) (client : IpAddr) :
    task (result anyhow Challenge) :=
  let? _ := call (Admit (receiver p) client) in
  let? _ := check_challenge_capacity (b2z (l402 (protocols p)) + b2z (is_some (mint_of (receiver p)))) in
  let? invoice := match receiver p with
                  | Ldk node => call (NodeInvoice node (amount_msat p) hash)
                  | Cashu mint _ => cashu_invoice p mint hash
                  end in
  let? time := now in
  let? parsed := lift (validate_invoice p hash invoice time 0) in
  let? l402 := if l402 (protocols p)
               then let? text := mint_l402 p hash invoice parsed in Ret (Ok (Some text))
               else Ret (Ok None) in
  let x402 := if x402 (protocols p)
              then Some (std_encode (json_challenge url (requirements p hash invoice))) else None in
  Ret (Ok {| ch_x402 := x402; ch_l402 := l402 |}).

(** ** Cleanup *)

Definition prune_expired : task (result anyhow unit) :=
  Mem (λ st, (st, file_exists st)) (λ e : bool,
    if e then
      let? _ := database in
      tx "storage" (λ t st, (prune t st, Ok tt))
    else Ret (Ok tt)).

(** A table read from start to end: in the order of its keys. *)
Definition quote_rows (st : Store) : list (string * Deposit) :=
  sort_by_key fst (map_to_list (quotes st)).

Definition set_retired (d : Deposit) : Deposit :=
  {| dep_mint := dep_mint d; dep_quote := dep_quote d; dep_amount := dep_amount d;
     dep_invoice := dep_invoice d; retired := true |}.

Definition remove_deposit (key : string) (d : Deposit) : task (result anyhow unit) :=
  Call (RemoveRetiredMintQuote (dep_mint d) (dep_quote d)) (λ r : result anyhow unit,
    if is_ok r then tx "storage" (λ _ st, (set_quotes (delete key (quotes st)) st, Ok tt))
    else Ret (Ok tt)).

(** The body of the loop of [prune_cashu_deposits]. *)
Definition prune_deposit (time : Z) (key : string) (d : Deposit) : task (result anyhow unit) :=
  Mem (λ st, (set_cursor (Some key) st, tt)) (λ _,
    let? inv := lift (ok_or "invalid invoice" (parse_invoice (dep_invoice d))) in
    if time <? retention inv then Ret (Ok tt)
    else if retired d then remove_deposit key d
    else Call (CanPruneMintDeposit (dep_mint d) (dep_quote d) (dep_amount d) (dep_invoice d))
      (λ r : result anyhow bool,
         match r with
         | Ok true =>
             let? _ := tx "storage"
               (λ _ st, (set_quotes (<[key := set_retired d]> (quotes st)) st, Ok tt)) in
             remove_deposit key (set_retired d)
         | _ => Ret (Ok tt)
         end)).

Fixpoint prune_deposits (time : Z) (rows : list (string * Deposit)) : task (result anyhow unit) :=
  match rows with
  | [] => Ret (Ok tt)
  | (key, d) :: rows' => let? _ := prune_deposit time key d in prune_deposits time rows'
  end.

Definition prune_cashu_deposits : task (result anyhow unit) :=
  let? _ := prog_bind (call CleanupLock) (λ b : bool, Ret (ensure b "cleanup busy")) in
  let? _ := database in
  let? rows := tx "storage" (λ _ st, (st, Ok (rotate_after fst (cursor st) (quote_rows st)))) in
  let? time := now in
  prune_deposits time (take 32 rows).

(** The quotes of the journal, per mint of the journal. *)
Definition associated (st : Store) (mint : string) : gset string :=
  list_to_set (map (λ kd : string * Deposit, dep_quote kd.2)
    (List.filter (λ kd, bool_decide (dep_mint kd.2 = mint)) (map_to_list (quotes st)))).
Fixpoint parse_mints (urls : list string) : result anyhow (list string) :=
  match urls with
  | [] => Ok []
  | u :: urls' => m ← Terms.parse_mint u; rest ← parse_mints urls'; mret (m :: rest)
  end.
(** [associated.remove(&mint).unwrap_or_default()]: a mint gets its quotes once. *)
Fixpoint assign (st : Store) (seen ms : list string) : list (string * gset string) :=
  match ms with
  | [] => []
  | m :: ms' => (m, if bool_decide (m ∈ seen) then ∅ else associated st m) :: assign st (m :: seen) ms'
  end.
Definition read_mints (st : Store) : result anyhow (list (string * gset string)) :=
  ms ← parse_mints (sort_strings (elements (mints st)));
  mret (assign st [] ms).

Fixpoint recover_all (l : list (string * gset string)) : task (result anyhow unit) :=
  match l with
  | [] => Ret (Ok tt)
  | (m, a) :: l' => Call (RecoverMintDeposits m a) (λ _ : result anyhow unit, recover_all l')
  end.

Definition recover_cashu_deposits : task (result anyhow unit) :=
  Mem (λ st, (st, file_exists st)) (λ e : bool,
    if e then
      let? _ := database in
      let? l := tx "storage" (λ _ st, (st, read_mints st)) in
      let? _ := recover_all l in
      with_timeout Elapsed (Err "deadline has elapsed") prune_cashu_deposits
    else Ret (Ok tt)).

(** ** The service *)

Inductive Req :=
| ReqChallenge (p : Policy) (url hash : string) (client : IpAddr)
| ReqSettle (p : Policy) (hash encoded : string)
| ReqSettleL402 (p : Policy) (hash encoded : string)
| ReqPrune
| ReqRecover.
Inductive Resp :=
| RChallenge (r : result anyhow Challenge)
| RSettle (r : result Error string)
| RSettleL402 (r : result Error unit)
| RUnit (r : result anyhow unit).

Definition handler (r : Req) : task Resp :=
  match r with
  | ReqChallenge p url hash client => prog_bind (challenge p url hash client) (λ a, Ret (RChallenge a))
  | ReqSettle p hash encoded => prog_bind (settle p hash encoded) (λ a, Ret (RSettle a))
  | ReqSettleL402 p hash encoded => prog_bind (settle_l402 p hash encoded) (λ a, Ret (RSettleL402 a))
  | ReqPrune => prog_bind prune_expired (λ a, Ret (RUnit a))
  | ReqRecover => prog_bind recover_cashu_deposits (λ a, Ret (RUnit a))
  end.

(** ** Proof rules for the handlers

    For an invariant [I] of the journal that the bookkeeping steps preserve. *)

Section rules.
Context (I : Store → Z → list (Req * Resp) → Prop) (answers : ∀ X, LnCmd X → X → Prop).
Abbreviation keeps := (keeps I answers).

(** What an admissible root record is. *)
Context (root_ok : string → Z → Prop).

Record bookkeeping : Prop := {
  bk_open : ∀ st t l e o, I st t l → I (set_open e o st) t l;
  bk_cursor : ∀ st t l c, I st t l → I (set_cursor c st) t l;
  bk_mints : ∀ st t l m, I st t l → I (set_mints m st) t l;
  bk_prune : ∀ st t l, I st t l → I (prune t st) t l;
  bk_root : ∀ st t l key root vb, root_ok key vb → I st t l → I (root_tx key root vb st).1 t l;
  bk_quote : ∀ st t l key d, I st t l → I (quote_tx key d st).1 t l
}.
Context (BK : bookkeeping).


(** One step through a handler. *)
Ltac kstep :=
  cbn [fst snd map_err ensure];
  lazymatch goal with
  | |- Conc.keeps _ _ (bind_ok _ _) _ => apply keeps_bind_ok
  | |- Conc.keeps _ _ (on_err _ _) _ => apply keeps_on_err
  | |- Conc.keeps _ _ (call _) _ => apply keeps_call
  | |- Conc.keeps _ _ (Call _ _) _ => apply keeps_Call
  | |- Conc.keeps _ _ now _ => apply keeps_now
  | |- Conc.keeps _ _ (Ret _) _ => apply keeps_ret
  | |- Conc.keeps _ _ (lift _) _ => apply keeps_ret
  | |- Conc.keeps _ _ (Mem _ _) _ => apply keeps_Mem
  end; cbn beta iota.

Lemma keeps_database (Φ : result anyhow unit → Prop) :
  Φ (Ok tt) → (∀ e, Φ (Err e)) → keeps database Φ.
Proof.
  intros Hok Herr. unfold database. kstep. intros st t l HI. split; [done|].
  cbn [snd]. destruct (opened st); [done|].
  kstep. apply keeps_tx; [by auto|]. intros st' t' l' HI'. split.
  { apply BK, BK, HI'. }
  cbn [snd]. kstep. intros st2 t2 l2 HI2. split; [by apply BK|done].
Qed.

Lemma keeps_read {B} (f : Store → result anyhow B) (Φ : result anyhow B → Prop) :
  (∀ e, Φ (Err e)) → (∀ st t l, I st t l → Φ (f st)) →
  keeps (tx "storage" (λ _ st, (st, f st))) Φ.
Proof. intros He Hf. apply keeps_tx; [auto|]. intros st t l HI. simpl. eauto. Qed.

Lemma keeps_mint_l402 p hash invoice parsed :
  (∀ root nonce key vb encoded,
     answers _ (Random 32) (Ok nonce) →
     l402_mint p hash parsed root nonce = Ok (key, vb, encoded) → root_ok key vb) →
  keeps (mint_l402 p hash invoice parsed) (λ _, True).
Proof.
  intros Hroot. unfold mint_l402. do 2 kstep. intros [root|e] _; [|done].
  do 2 kstep. intros [nonce|e] Hn; [|done].
  do 2 kstep. destruct (l402_mint p hash parsed root nonce) as [[[key vb] enc]|e] eqn:Hm; [|done].
  kstep. apply keeps_database; [|done].
  kstep. apply keeps_tx; [done|]. intros st t l HI. split.
  - eapply BK; eauto.
  - by destruct (root_tx key root vb st) as [? [?|?]].
Qed.

Lemma keeps_cashu_invoice p mint hash :
  keeps (cashu_invoice p mint hash) (λ r, ∀ text, r = Ok text →
    ∃ q, answers _ (MintInvoice mint (amount_msat p / 1000)) (Ok q) ∧ Cdk.q_request q = text).
Proof.
  unfold cashu_invoice. kstep. apply keeps_database; [|done].
  kstep. apply keeps_tx; [done|]. intros st t l HI. split; [by apply BK|]. cbn [snd].
  do 2 kstep. intros [q|e] Hq; [|done]. do 2 kstep. intros time.
  do 2 kstep. destruct (validate_invoice p hash (Cdk.q_request q) time 0) as [inv|e]; [|done].
  do 2 kstep. destruct (ensure _ _); [|done]. do 2 kstep. intros time'.
  do 2 kstep. destruct (ok_or _ _); [|done]. do 2 kstep. destruct (ensure _ _); [|done].
  kstep. apply keeps_database; [|done].
  kstep. apply keeps_tx; [done|]. intros st' t' l' HI'. split; [by apply BK|].
  destruct (quote_tx _ _ st') as [? [?|?]]; cbn [snd]; [|done]. kstep. intros text [= <-]. eauto.
Qed.

Lemma keeps_collect_cashu_invoice p mint key (Φ : result Error unit → Prop) :
  (∀ r, Φ r) → keeps (collect_cashu_invoice p mint key) Φ.
Proof.
  intros HΦ. unfold collect_cashu_invoice. do 2 kstep. apply keeps_database; [|intros; apply HΦ].
  do 2 kstep. apply keeps_read; [intros; apply HΦ|]. intros st t l HI.
  destruct (quotes st !! key) as [d|]; [|apply HΦ]. cbn [ok_or map_err].
  destruct (_ || _); [by kstep|]. do 2 kstep. intros [] _; apply HΦ.
Qed.

(** Where the invoice of a challenge comes from. *)
Definition from_receiver (p : Policy) (invoice : string) : Prop :=
  is_some (ldk (receiver p)) = true ∨
  ∃ mint q, mint_of (receiver p) = Some mint ∧
    answers _ (MintInvoice mint (amount_msat p / 1000)) (Ok q) ∧ Cdk.q_request q = invoice.

Lemma keeps_receiver_invoice p hash :
  keeps (match receiver p with
         | Ldk node => call (NodeInvoice node (amount_msat p) hash)
         | Cashu mint _ => cashu_invoice p mint hash
         end) (λ r, ∀ invoice, r = Ok invoice → from_receiver p invoice).
Proof.
  unfold from_receiver. destruct (receiver p) as [node|mint net].
  - kstep. intros x _ invoice _. by left.
  - eapply keeps_mono; [|apply keeps_cashu_invoice]. intros r Hr invoice Hi.
    destruct (Hr _ Hi) as (q & ? & ?). right. eauto.
Qed.

Lemma keeps_challenge p url hash client :
  (∀ invoice time parsed root nonce key vb encoded,
     from_receiver p invoice → validate_invoice p hash invoice time 0 = Ok parsed →
     answers _ (Random 32) (Ok nonce) →
     l402_mint p hash parsed root nonce = Ok (key, vb, encoded) → root_ok key vb) →
  keeps (challenge p url hash client) (λ _, True).
Proof.
  intros Hroot. unfold challenge, check_challenge_capacity. do 2 kstep. intros [[]|e] _; [|done].
  do 2 kstep. apply keeps_database; [|done].
  apply keeps_read; [done|]. intros st t l HI. destruct (check_capacity _ _) as [[]|e]; [|done].
  kstep. eapply keeps_mono; [|apply keeps_receiver_invoice].
  intros [invoice|e] Hinv; [|done]. specialize (Hinv invoice eq_refl).
  do 2 kstep. intros time. do 2 kstep.
  destruct (validate_invoice p hash invoice time 0) as [parsed|e] eqn:Hv; [|done].
  kstep. destruct (l402 (protocols p)); [|done].
  kstep. eapply keeps_mono; [|apply keeps_mint_l402; eauto]. by intros [].
Qed.

Lemma keeps_prune_expired : keeps prune_expired (λ _, True).
Proof.
  unfold prune_expired. kstep. intros st t l HI. split; [done|]. cbn [snd].
  destruct (file_exists st); [|done].
  kstep. apply keeps_database; [|done]. apply keeps_tx; [done|].
  intros st' t' l' HI'. split; [by apply BK|done].
Qed.

(** *** Cleanup of mint deposits, which retires and removes them *)
Context (quotes_retire : ∀ st t l key d,
  I st t l → I (set_quotes (<[key := set_retired d]> (quotes st)) st) t l).
Context (quotes_remove : ∀ st t l key, I st t l → I (set_quotes (delete key (quotes st)) st) t l).

Lemma keeps_remove_deposit key d (Φ : result anyhow unit → Prop) :
  (∀ r, Φ r) → keeps (remove_deposit key d) Φ.
Proof.
  intros HΦ. unfold remove_deposit. kstep. intros r _. destruct (is_ok r); [|by kstep].
  apply keeps_tx; [done|]. intros st t l HI. split; [by apply quotes_remove|apply HΦ].
Qed.

Lemma keeps_prune_deposit time key d (Φ : result anyhow unit → Prop) :
  (∀ r, Φ r) → keeps (prune_deposit time key d) Φ.
Proof.
  intros HΦ. unfold prune_deposit. kstep. intros st t l HI. split; [by apply BK|]. cbn [snd].
  do 2 kstep. destruct (ok_or _ _) as [inv|e]; [|done].
  destruct (time <? retention inv); [by kstep|].
  destruct (retired d); [by apply keeps_remove_deposit|].
  kstep. intros [[]|e] _; [|by kstep..].
  kstep. apply keeps_tx; [done|]. intros st' t' l' HI'. split; [by apply quotes_retire|].
  by apply keeps_remove_deposit.
Qed.

Lemma keeps_recover : keeps recover_cashu_deposits (λ _, True).
Proof.
  unfold recover_cashu_deposits. kstep. intros st t l HI. split; [done|]. cbn [snd].
  destruct (file_exists st); [|done]. kstep. apply keeps_database; [|done].
  kstep. apply keeps_read; [done|]. intros st' t' l' HI'.
  destruct (read_mints st') as [ms|e]; [|done].
  assert (∀ ms Φ, Φ (Ok tt) → keeps (recover_all ms) Φ) as Hrec.
  { clear. induction ms as [|[m a] ms IH]; simpl; auto. }
  kstep. apply Hrec, keeps_timeout; [done|].
  unfold prune_cashu_deposits. kstep. apply keeps_bind. kstep. intros [] _; [|done]. kstep.
  kstep. apply keeps_database; [|done].
  kstep. apply keeps_tx; [done|]. intros st2 t2 l2 HI2. split; [done|]. cbn [snd].
  do 2 kstep. intros time. generalize (take 32 (rotate_after fst (cursor st2) (quote_rows st2))) as rows.
  induction rows as [|[key d] rows IH]; [done|].
  cbn [prune_deposits]. kstep. apply keeps_prune_deposit. by intros [].
Qed.

(** The claim at the end of a settlement: the transaction and the answer that
    reports it are one step. *)
Lemma safe_claim r key retain (g : result Error unit → task Resp) :
  (∀ e, safe I answers r (g (Err e))) →
  (∀ st t l, I st t l → t < retain → spent st !! key = None →
     let st' := set_spent (<[key := retain]> (spent st)) st in
     I st' t l ∧
     match g (Ok tt) with Ret a => I st' t (l ++ [(r, a)]) | _ => safe I answers r (g (Ok tt)) end) →
  safe I answers r (prog_bind (claim key retain) g).
Proof.
  intros Herr Hok. unfold claim. apply safe_assoc, safe_bind, keeps_on_err, keeps_database;
    [|intros e; apply Herr].
  cbn. split; [by auto|]. intros st t l HI. unfold claim_tx.
  destruct (Z.ltb_spec t retain) as [Ht|_]; [|split; [done|]; by apply safe_Ret; [apply Herr|]].
  destruct (spent st !! key) eqn:Hk; [split; [done|]; by apply safe_Ret; [apply Herr|]|]. auto.
Qed.
End rules.

(** ** Outstanding challenges *)

(** Root keys and those mint deposits that [keep] says. *)
Definition records_of (keep : Deposit → bool) (st : Store) : Z :=
  Z.of_nat (size (roots st)) + Z.of_nat (size (filter (λ kd : string * Deposit, keep kd.2 = true) (quotes st))).
(** All of them, and those that still stand for an invoice: a deposit is retired when
    its invoice is over, until it is removed. *)
Definition records (st : Store) : Z := Z.of_nat (size (roots st)) + Z.of_nat (size (quotes st)).
Definition outstanding (st : Store) : Z := records_of (λ d, negb (retired d)) st.

Lemma check_capacity_room st n u :
  0 ≤ n → check_capacity st n = Ok u → 
  Z.of_nat (size (roots st)) + Z.of_nat (size (quotes st)) + n ≤ MAX_CHALLENGE_RECORDS.
Proof.
  unfold check_capacity, MAX_CHALLENGE_RECORDS. intros Hn Hc. apply ensure_Ok, Z.leb_le in Hc. solve_width.
Qed.

Lemma size_insert_le {A} (m : gmap string A) k x : (size (<[k := x]> m) ≤ S (size m))%nat.
Proof. rewrite map_size_insert. case_match; simpl; lia. Qed.

Lemma size_filter_le {A} (P : string * A → Prop) `{∀ x, Decision (P x)} (m : gmap string A) :
  (size (filter P m) ≤ size m)%nat.
Proof. apply map_subseteq_size, map_filter_subseteq. Qed.

Section capacity.
Context (keep : Deposit → bool).
Abbreviation kept := (filter (λ kd : string * Deposit, keep kd.2 = true)).
Definition capacity_inv (st : Store) (_ : Z) (_ : list (Req * Resp)) : Prop :=
  records_of keep st ≤ MAX_CHALLENGE_RECORDS.

Lemma kept_insert_le (m : gmap string Deposit) k d :
  (size (kept (<[k := d]> m)) ≤ if keep d then S (size (kept m)) else size (kept m))%nat.
Proof.
  destruct (keep d) eqn:Hk.
  - rewrite map_filter_insert_True by done. apply size_insert_le.
  - rewrite map_filter_insert_False by (simpl; congruence). apply map_subseteq_size, map_filter_subseteq_mono.
    apply delete_subseteq.
Qed.
Lemma kept_delete_le (m : gmap string Deposit) k : (size (kept (delete k m)) ≤ size (kept m))%nat.
Proof. apply map_subseteq_size, map_filter_subseteq_mono, delete_subseteq. Qed.

Lemma capacity_bookkeeping : bookkeeping capacity_inv (λ _ _, True).
Proof.
  split; unfold capacity_inv, records_of; auto.
  - intros st t _ Hst. simpl.
    pose proof (size_filter_le (λ kv : string * (string * Z), t < kv.2.2) (roots st)). lia.
  - intros st t _ key root vb _ Hst. unfold root_tx. destruct (check_capacity st 1) eqn:Hc; [|done].
    apply check_capacity_room in Hc; [|lia]. destruct (is_some _); [done|].
    pose proof (size_insert_le (roots st) key (root, vb)).
    pose proof (size_filter_le (λ kd : string * Deposit, keep kd.2 = true) (quotes st)). simpl. lia.
  - intros st t _ key d Hst. unfold quote_tx. destruct (check_capacity st 1) eqn:Hc; [|done].
    apply check_capacity_room in Hc; [|lia]. destruct (is_some _); [done|].
    pose proof (kept_insert_le (quotes st) key d).
    pose proof (size_filter_le (λ kd : string * Deposit, keep kd.2 = true) (quotes st)). simpl.
    destruct (keep d); lia.
Qed.

Definition any_answer (X : Type) (c : LnCmd X) (x : X) : Prop := True.

Lemma keeps_claim key retain : keeps capacity_inv any_answer (claim key retain) (λ _, True).
Proof.
  unfold claim. apply keeps_bind_ok, keeps_on_err, (keeps_database _ _ _ capacity_bookkeeping); [|done].
  cbn [map_err]. apply keeps_bind_ok, keeps_on_err, keeps_tx; [done|]. intros st t l HI.
  unfold claim_tx. by repeat case_match.
Qed.

Lemma keeps_settlements p hash encoded :
  keeps capacity_inv any_answer (settle p hash encoded) (λ _, True) ∧
  keeps capacity_inv any_answer (settle_l402 p hash encoded) (λ _, True).
Proof.
  split.
  - unfold settle. apply keeps_bind_ok, keeps_now. intros time. apply keeps_bind_ok, keeps_ret.
    destruct (x402_verify _ _ _ _) as [[[k rc] r]|e]; [|done]. apply keeps_bind_ok.
    eapply keeps_mono; [|apply keeps_claim]. by intros [].
  - unfold settle_l402. apply keeps_bind_ok, keeps_ret.
    destruct (parse_credential encoded) as [[m pre]|e]; [|done]. cbn [map_err].
    apply keeps_bind_ok, keeps_on_err, (keeps_database _ _ _ capacity_bookkeeping); [|done].
    cbn [map_err]. apply keeps_bind_ok, keeps_on_err, keeps_read; [done|]. intros st t l _.
    destruct (read_root _ st) as [[[root vb]|]|e]; [|done..]. cbn [map_err].
    apply keeps_bind_ok, keeps_ret. cbn [ok_or]. apply keeps_bind_ok, keeps_now. intros time.
    apply keeps_bind_ok, keeps_ret. destruct (l402_verify _ _ _ _ _ _ _); [|done]. cbn [map_err].
    apply keeps_bind_ok. eapply keeps_mono with (Φ := λ _, True); [intros [[]|] _; [apply keeps_claim|done]|].
    destruct (mint_of (receiver p)); [|done].
    by apply (keeps_collect_cashu_invoice _ _ _ capacity_bookkeeping).
Qed.

(** Every handler but the cleanup of deposits. *)
Lemma capacity_safe_handler r : r ≠ ReqRecover → safe capacity_inv any_answer r (handler r).
Proof.
  intros Hr. destruct r as [p url hash client|p hash encoded|p hash encoded| |]; [..|done]; cbn [handler];
    apply safe_bind; (eapply keeps_mono with (Φ := λ _, True); [intros a _ st t l HI; exact HI|]).
  - by apply (keeps_challenge _ _ _ capacity_bookkeeping).
  - apply keeps_settlements.
  - apply keeps_settlements.
  - apply (keeps_prune_expired _ _ _ capacity_bookkeeping).
Qed.
(** And that too, when a retired deposit does not count. *)
Lemma capacity_safe_recover :
  (∀ d, keep (set_retired d) = false) → safe capacity_inv any_answer ReqRecover (handler ReqRecover).
Proof.
  intros Hk. cbn [handler]. apply safe_bind.
  eapply keeps_mono with (Φ := λ _, True); [intros a _ st t l HI; exact HI|].
  apply (keeps_recover _ _ _ capacity_bookkeeping); unfold capacity_inv, records_of; simpl.
  - intros st _ _ key d Hst. pose proof (kept_insert_le (quotes st) key (set_retired d)) as Hi.
    rewrite Hk in Hi. lia.
  - intros st _ _ key Hst. pose proof (kept_delete_le (quotes st) key). lia.
Qed.
Lemma capacity_run env t0 schedule req_ok :
  (∀ r, req_ok r → safe capacity_inv any_answer r (handler r)) → Forall (action_ok req_ok) schedule →
  records_of keep (store (run handler restart env (start empty t0) schedule)) ≤ MAX_CHALLENGE_RECORDS.
Proof.
  intros Hsafe Hok. apply (run_inv handler restart env capacity_inv any_answer req_ok); done.
Qed.
End capacity.

Lemma records_all st : records_of (λ _, true) st = records st.
Proof. unfold records_of, records. by rewrite map_filter_id. Qed.

(** C32: outstanding challenges are bounded.  Under any schedule of challenges,
    settlements, expiry-based pruning and recovery of mint deposits, with failures,
    cancellations, restarts and any answers of the receivers, the journal never holds
    more than [MAX_CHALLENGE_RECORDS] root keys and outstanding mint deposits
    together, although the check before an invoice is requested and the insertion are
    separate steps.  Deposits that the recovery has retired, because their invoice is
    over, do not stand for a challenge any more but take up room until they are
    removed: a record is added only while all records, these included, leave room for
    it; and without the recovery, which writes them back as it retires them, all
    records together stay within the bound. *)
Theorem challenge_records_bounded env t0 schedule :
  let st := store (run handler restart env (start empty t0) schedule) in
  outstanding st ≤ MAX_CHALLENGE_RECORDS ∧
  (∀ key root vb st1 st2, root_tx key root vb st1 = (st2, Ok tt) → records st2 ≤ MAX_CHALLENGE_RECORDS) ∧
  (∀ key d st1 st2, quote_tx key d st1 = (st2, Ok tt) → records st2 ≤ MAX_CHALLENGE_RECORDS) ∧
  (Forall (action_ok (λ r, r ≠ ReqRecover)) schedule → records st ≤ MAX_CHALLENGE_RECORDS).
Proof.
  split_and!.
  - apply (capacity_run _ env t0 schedule (λ _, True)); [|by apply Forall_forall; intros []].
    intros [] _; [by apply capacity_safe_handler..|by apply capacity_safe_recover].
  - intros key root vb st1 st2. unfold root_tx. destruct (check_capacity st1 1) eqn:Hc; [|done].
    apply check_capacity_room in Hc; [|lia]. destruct (is_some _); [done|]. intros [= <-].
    pose proof (size_insert_le (roots st1) key (root, vb)). unfold records. simpl. lia.
  - intros key d st1 st2. unfold quote_tx. destruct (check_capacity st1 1) eqn:Hc; [|done].
    apply check_capacity_room in Hc; [|lia]. destruct (is_some _); [done|]. intros [= <-].
    pose proof (size_insert_le (quotes st1) key d). unfold records. simpl. lia.
  - intros Hok. rewrite <- records_all. apply (capacity_run _ env t0 schedule _ (capacity_safe_handler _) Hok).
Qed.

(** ** Single use *)

Section single_use.
Context `{!InvoiceLaws}.

(** The payment hash a request presents, and the key it consumed if admitted. *)
Definition x402_payment_hash (encoded : string) : option string :=
  bytes ← ok (std_decode encoded);
  payment ← ok (json_payment bytes);
  inv ← parse_invoice (invoice (extra (accepted payment)));
  Some (inv_payment_hash inv).
Definition l402_payment_hash (encoded : string) : option string :=
  (λ c : Macaroon * string, id_payment_hash (mac_identifier c.1)) <$> ok (parse_credential encoded).
Definition admitted (e : Req * Resp) : option string :=
  match e with
  | (ReqSettle p _ encoded, RSettle (Ok _)) => spent_key p <$> x402_payment_hash encoded
  | (ReqSettleL402 p _ encoded, RSettleL402 (Ok _)) => spent_key p <$> l402_payment_hash encoded
  | _ => None
  end.

(** Assumptions on the outside world: [expires] gives the expiry of the one
    invoice with a payment hash, [fresh] the nonces drawn by this service. *)
Context (expires : string → Z) (fresh : string → Prop).

(** The node signs no two invoices with one payment hash and different expiry. *)
Definition node_expiry : Prop := ∀ p hash e t g inv,
  is_some (ldk (receiver p)) = true → validate_invoice p hash e t g = Ok inv →
  inv_created inv + inv_expiry inv = expires (inv_payment_hash inv).

(** Neither does a mint, and random bytes are fresh. *)
Definition ln_answers (X : Type) (c : LnCmd X) : X → Prop :=
  match c with
  | MintInvoice _ _ => λ r, ∀ q inv, r = Ok q → parse_invoice (Cdk.q_request q) = Some inv →
      inv_created inv + inv_expiry inv = expires (inv_payment_hash inv)
  | Random n => λ r, ∀ s, r = Ok s → fresh s ∧ slen s = n
  | _ => λ _, True
  end.

(** A presented identifier is not a second preimage of the digest of one minted
    by this service. *)
Definition req_ok (r : Req) : Prop :=
  match r with
  | ReqSettleL402 _ _ encoded => ∀ m pre inv nonce,
      parse_credential encoded = Ok (m, pre) → fresh nonce → slen nonce = 32%nat →
      slen (inv_payment_hash inv) = 32%nat →
      digest (l402_identifier inv nonce) = digest (mac_identifier m) →
      l402_identifier inv nonce = mac_identifier m
  | _ => True
  end.

Definition until (h : string) : Z := Z.min u64_max (expires h + SKEW + 3600).

Definition root_ok (key : string) (vb : Z) : Prop :=
  ∃ inv nonce, key = digest (l402_identifier inv nonce) ∧ fresh nonce ∧ slen nonce = 32%nat ∧
    slen (inv_payment_hash inv) = 32%nat ∧ vb = expires (inv_payment_hash inv) + SKEW + 1.

(** A spent key is in the journal until no proof for it can be accepted. *)
Definition barred (st : Store) (t : Z) (key : string) : Prop :=
  ∃ p h, key = spent_key p h ∧ slen h = 32%nat ∧
    (spent st !! key = Some (until h) ∨ until h ≤ t).

Definition single_use_inv (st : Store) (t : Z) (l : list (Req * Resp)) : Prop :=
  map_Forall (λ key r, root_ok key r.2) (roots st) ∧
  NoDup (omap admitted l) ∧ Forall (barred st t) (omap admitted l).

Lemma str_app_inj_tail a b c d : slen b = slen d → a +:+ b = c +:+ d → a = c ∧ b = d.
Proof.
  revert c. induction a as [|x a IH]; intros [|y c] Hl E; simpl in *; [done| | |].
  - subst b. simpl in Hl. rewrite slen_app in Hl. lia.
  - subst d. simpl in Hl. rewrite slen_app in Hl. lia.
  - injection E as -> E. by apply IH in E as [-> ->].
Qed.

Lemma spent_key_inj p h p' h' :
  slen h = 32%nat → slen h' = 32%nat → spent_key p h = spent_key p' h' → h = h'.
Proof.
  intros Hl Hl' E. unfold spent_key in E. rewrite !str_app_assoc in E.
  apply str_app_inj_tail in E as [_ E]; [by apply hex_inj|]. by rewrite !slen_hex, Hl, Hl'.
Qed.

Lemma barred_mono st st' t t' key :
  t ≤ t' → (∀ r, spent st !! key = Some r → spent st' !! key = Some r ∨ r ≤ t') →
  barred st t key → barred st' t' key.
Proof.
  intros Ht Hs (p & h & -> & Hl & Hb). exists p, h. split; [done|]. split; [done|].
  destruct Hb as [Hb|Hb]; [by apply Hs|right; lia].
Qed.

Lemma single_use_mono st st' t t' l :
  t ≤ t' → map_Forall (λ key r, root_ok key r.2) (roots st') →
  (∀ key r, spent st !! key = Some r → spent st' !! key = Some r ∨ r ≤ t') →
  single_use_inv st t l → single_use_inv st' t' l.
Proof.
  intros Ht Hr Hs (_ & Hnd & Hb). split; [done|]. split; [done|].
  eapply Forall_impl; [exact Hb|]. intros key. apply barred_mono; auto.
Qed.

Lemma single_use_bookkeeping : bookkeeping single_use_inv root_ok.
Proof.
  split; intros * HI; try (eapply single_use_mono; [| | |exact HI]; [done|apply HI|by auto]).
  - eapply single_use_mono; [| | |exact HI]; [done| |].
    + intros key r Hk. apply map_lookup_filter_Some in Hk as [Hk _]. by apply HI in Hk.
    + intros key r Hk. simpl. destruct (decide (t < r)) as [Hlt|Hge]; [|right; lia].
      left. by apply map_lookup_filter_Some.
  - intros Hinv. eapply single_use_mono; [| | |exact Hinv]; [done| |].
    + unfold root_tx. destruct (check_capacity st 1); [|apply Hinv].
      destruct (is_some (roots st !! key)); [apply Hinv|]. simpl.
      apply map_Forall_insert_2; [done|apply Hinv].
    + intros key' r Hk. left. unfold root_tx. by repeat case_match.
  - eapply single_use_mono; [| | |exact HI]; [done| |].
    + unfold quote_tx. repeat case_match; apply HI.
    + intros key' r Hk. left. unfold quote_tx. by repeat case_match.
Qed.

Lemma single_use_quotes st t l q : single_use_inv st t l → single_use_inv (set_quotes q st) t l.
Proof. intros HI. eapply single_use_mono; [| | |exact HI]; [done|apply HI|by auto]. Qed.

(** An answer that admits nothing keeps the invariant. *)
Lemma single_use_log st t l e :
  admitted e = None → single_use_inv st t l → single_use_inv st t (l ++ [e]).
Proof.
  intros He (Hr & Hnd & Hb). unfold single_use_inv. rewrite omap_app. simpl. rewrite He.
  by rewrite app_nil_r.
Qed.

(** The claim of a key with the retention of its payment hash. *)
Lemma single_use_claim st t l p h e :
  slen h = 32%nat → admitted e = Some (spent_key p h) →
  single_use_inv st t l → t < until h → spent st !! spent_key p h = None →
  let st' := set_spent (<[spent_key p h := until h]> (spent st)) st in
  single_use_inv st' t l ∧ single_use_inv st' t (l ++ [e]).
Proof.
  intros Hl He HI Ht Hk st'.
  assert (single_use_inv st' t l) as (Hr & Hnd & Hb).
  { eapply single_use_mono; [| | |exact HI]; [done|apply HI|]. intros key r Hkey. left. simpl.
    rewrite lookup_insert_ne; [done|]. congruence. }
  split; [done|]. unfold single_use_inv. rewrite omap_app. simpl. rewrite He. split; [done|]. split.
  - apply NoDup_app. split; [done|]. split; [|apply NoDup_singleton].
    intros key Hin Hkey%list_elem_of_singleton. subst key.
    destruct HI as (_ & _ & Hb0). eapply Forall_forall in Hb0 as (p' & h' & E & Hl' & Hs); [|done].
    apply spent_key_inj in E as <-; [|done..]. destruct Hs as [Hs|Hs]; [congruence|lia].
  - apply Forall_app. split; [done|]. apply Forall_singleton. exists p, h.
    split; [done|]. split; [done|]. left. simpl. apply lookup_insert_eq.
Qed.

(** *** The handlers keep it *)

Lemma x402_verify_payment p hash encoded time key receipt retain :
  x402_verify p hash encoded time = Ok (key, receipt, retain) →
  ∃ e inv, x402_payment_hash encoded = Some (inv_payment_hash inv) ∧
    is_some (ldk (receiver p)) = true ∧ validate_invoice p hash e time SKEW = Ok inv ∧
    key = spent_key p (inv_payment_hash inv) ∧ retain = retention inv.
Proof.
  unfold x402_verify, x402_payment_hash. intros Hv. inv_ok.
  match goal with Hi : validate_invoice _ _ _ _ _ = Ok ?i |- _ =>
    destruct (validate_invoice_good _ _ _ _ _ _ Hi) as [Hp _]; do 2 eexists; split; [|eauto] end.
  repeat match goal with Hd : _ = Ok _ |- _ => rewrite Hd; clear Hd; simpl end. by rewrite Hp.
Qed.

Lemma retention_until p hash e time inv :
  node_expiry → is_some (ldk (receiver p)) = true →
  validate_invoice p hash e time SKEW = Ok inv → retention inv = until (inv_payment_hash inv).
Proof.
  intros Hn Hl Hv. apply Hn in Hv as Hexp; [|done].
  apply validate_invoice_good in Hv as [_ Hg]. pose proof (good_u64 _ _ _ _ _ Hg).
  unfold retention, until, SKEW. rewrite <- Hexp. solve_width.
Qed.

Abbreviation safe := (safe single_use_inv ln_answers).

Lemma nothing_admitted r a :
  admitted (r, a) = None → safe r (Ret a).
Proof. intros Ha st t l. by apply single_use_log. Qed.

Lemma settle_safe p hash encoded :
  node_expiry → safe (ReqSettle p hash encoded) (handler (ReqSettle p hash encoded)).
Proof.
  intros Hnode. cbn [handler]. unfold settle. apply safe_bind_ok, keeps_now. intros time.
  apply safe_bind_ok, keeps_ret.
  destruct (x402_verify p hash encoded time) as [[[key receipt] retain]|e] eqn:Hv;
    cbn [map_err]; [|by apply nothing_admitted].
  apply x402_verify_payment in Hv as (e & inv & Hh & Hl & Hv & -> & ->).
  erewrite retention_until by eauto. apply validate_invoice_good in Hv as [Hparse _].
  apply inv_payment_hash_len in Hparse. apply safe_assoc.
  eapply (safe_claim _ _ _ single_use_bookkeeping).
  - intros e'. by apply nothing_admitted.
  - intros st t l HI Ht Hs. eapply single_use_claim; eauto. simpl. by rewrite Hh.
Qed.

Lemma root_until key root vb st t l :
  single_use_inv st t l → roots st !! key = Some (root, vb) → root_ok key vb.
Proof. intros (Hr & _) Hk. by apply Hr in Hk. Qed.

Lemma parse_credential_len encoded m pre :
  parse_credential encoded = Ok (m, pre) → slen (id_payment_hash (mac_identifier m)) = 32%nat.
Proof.
  unfold parse_credential. intros Hp. inv_ok.
  match goal with x : (string * string)%type |- _ => destruct x end. inv_ok.
  rewrite Nat.eqb_eq in *. simplify_eq. apply slen_substring. lia.
Qed.

Lemma settle_l402_safe p hash encoded :
  req_ok (ReqSettleL402 p hash encoded) →
  safe (ReqSettleL402 p hash encoded) (handler (ReqSettleL402 p hash encoded)).
Proof.
  intros Hreq. cbn [handler]. unfold settle_l402. apply safe_bind_ok, keeps_ret.
  destruct (parse_credential encoded) as [[m pre]|e] eqn:Hp; cbn [map_err];
    [|by apply nothing_admitted].
  apply safe_bind_ok, keeps_on_err, (keeps_database _ _ _ single_use_bookkeeping);
    [|intros e; by apply nothing_admitted].
  cbn [map_err]. apply safe_bind_ok, keeps_on_err, keeps_read; [intros e; by apply nothing_admitted|].
  intros st t l HI. unfold read_root.
  destruct (roots st !! digest (mac_identifier m)) as [[root vb]|] eqn:Hroot; cbn [map_err].
  2: { apply safe_bind_ok, keeps_ret. by apply nothing_admitted. }
  eapply root_until in Hroot as (inv & nonce & Hdig & Hf & Hn & Hlen & Hvb); [|done].
  destruct (slen root =? 32)%nat; cbn [ensure mbind result_bind map_err]; [|by apply nothing_admitted].
  apply safe_bind_ok, keeps_ret. cbn [ok_or]. apply safe_bind_ok, keeps_now. intros time.
  apply safe_bind_ok, keeps_ret. destruct (l402_verify p hash m pre root vb time); cbn [map_err];
    [|by apply nothing_admitted].
  assert (l402_identifier inv nonce = mac_identifier m) as Hid by (eapply Hreq; eauto).
  destruct (l402_identifier_spec inv nonce) as (_ & _ & Hh); [done..|]. rewrite Hid in Hh.
  assert (u64_sat_add vb 3599 = until (id_payment_hash (mac_identifier m))) as ->.
  { rewrite Hh, Hvb. unfold until, SKEW. solve_width. }
  apply safe_bind_ok. eapply keeps_mono with (Φ := λ _, True); [intros [[]|e] _|].
  - eapply (safe_claim _ _ _ single_use_bookkeeping); [intros e; by apply nothing_admitted|].
    intros st' t' l' HI' Ht Hs. eapply single_use_claim; eauto using parse_credential_len.
    simpl. unfold l402_payment_hash. by rewrite Hp.
  - by apply nothing_admitted.
  - destruct (mint_of (receiver p)) as [mint|]; [|done].
    by apply (keeps_collect_cashu_invoice _ _ _ single_use_bookkeeping).
Qed.

Lemma handler_safe r : node_expiry → req_ok r → safe r (handler r).
Proof.
  intros Hnode Hr. destruct r as [p url hash client|p hash encoded|p hash encoded| |];
    [|by apply settle_safe|by apply settle_l402_safe|..]; cbn [handler]; apply safe_bind.
  - eapply keeps_mono with (Φ := λ _, True); [intros; by apply nothing_admitted|].
    eapply (keeps_challenge _ _ _ single_use_bookkeeping).
    intros inv time parsed root nonce key vb encoded Hsrc Hv Hn Hm.
    destruct (Hn nonce eq_refl) as [Hf Hnl].
    destruct (validate_invoice_good _ _ _ _ _ _ Hv) as [Hparse _].
    unfold l402_mint in Hm. inv_ok. simplify_eq.
    match goal with Hb : valid_before_of _ = Ok _ |- _ => apply valid_before_of_spec in Hb as [-> _] end.
    exists parsed, nonce. split; [done|]. split; [done|]. split; [done|].
    split; [by eapply inv_payment_hash_len|].
    cut (inv_created parsed + inv_expiry parsed = expires (inv_payment_hash parsed)); [lia|].
    destruct Hsrc as [Hl|(mint & q & _ & Hq & <-)]; [by eapply Hnode|by eapply Hq].
  - eapply keeps_mono with (Φ := λ _, True); [intros; by apply nothing_admitted|].
    eapply (keeps_prune_expired _ _ _ single_use_bookkeeping).
  - eapply keeps_mono with (Φ := λ _, True); [intros; by apply nothing_admitted|].
    apply (keeps_recover _ _ _ single_use_bookkeeping); intros; by apply single_use_quotes.
Qed.

(** The keys of the admitted requests of a run are distinct. *)
Lemma admitted_keys_distinct env t0 schedule :
  node_expiry → (∀ n X c, ln_answers X c (env n X c)) → Forall (action_ok req_ok) schedule →
  NoDup (omap admitted (log (run handler restart env (start empty t0) schedule))).
Proof.
  intros Hnode Henv Hok.
  apply (run_inv handler restart env single_use_inv ln_answers req_ok).
  - intros r Hr. by apply handler_safe.
  - intros st t l HI. eapply single_use_mono; [| | |exact HI]; [done|apply HI|by auto].
  - intros st t t' l Ht HI. eapply single_use_mono; [| | |exact HI]; [done|apply HI|by auto].
  - exact Henv.
  - exact Hok.
  - apply start_inv. split; [by apply map_Forall_empty|]. split; constructor.
Qed.

(** C4: one payment, one request.  Take any schedule of challenges, x402 and L402
    settlements and cleanups, with any interleaving of their transactions, storage
    failures, cancelled requests and restarts, from an empty journal, under a clock
    that does not run backwards.  If the receivers do not issue two invoices with
    the same payment hash and different expiry, and nobody presents a second
    preimage of the digest of a minted identifier, then no two admitted requests
    consumed the same network and payment hash, whichever protocol they used. *)
Theorem payment_admitted_once env t0 schedule :
  node_expiry → (∀ n X c, ln_answers X c (env n X c)) → Forall (action_ok req_ok) schedule →
  NoDup (omap admitted (log (run handler restart env (start empty t0) schedule))).
Proof. apply admitted_keys_distinct. Qed.
End single_use.
End handlers.

(** ** Concrete runs *)

Module Examples.
Import Toy Proofs.Examples.

Definition sha_id : Sha256 := sha256_id.
#[export] Instance invoice_laws : InvoiceLaws.
Proof.
  split; intros e inv; unfold parse_invoice, invoices; case_bool_decide; intros [= <-];
    by vm_compute.
Qed.
#[export] Instance store_json : StoreJson :=
  {| json_receipt h n := frames [h; n]; json_challenge u r := frames [u; scheme r] |}.
#[export] Instance no_urls : UrlLib := λ _, Err "url".
#[export] Instance no_mints : MintUrlLib := λ _, Err "mint".

Definition example_env (n : nat) (X : Type) (c : LnCmd X) : X :=
  match c with
  | Admit _ _ => Ok tt
  | Random n => Ok (take_pad n "nonce")
  | NodeInvoice _ _ _ => Ok "lnbc1"
  | MintInvoice _ _ => Err "mint"
  | CollectMintInvoice _ _ _ _ => Err "mint"
  | CanPruneMintDeposit _ _ _ _ => Err "mint"
  | RemoveRetiredMintQuote _ _ => Err "mint"
  | RecoverMintDeposits _ _ => Err "mint"
  | CleanupLock => true
  | Elapsed => false
  end.

Definition example_credential : string :=
  match l402_mint (H := sha_id) example_policy example_hash example_invoice (sha "nonce") (sha "nonce") with
  | Ok (_, _, encoded) => encoded +:+ ":" +:+ hex example_preimage
  | Err _ => ""
  end.

Definition steps (task n : nat) : list (action (Req := Req)) := repeat (Step task Proceed) n.
(** A challenge; then an L402 and an x402 settlement of its payment race. *)
Definition example_schedule : list (action (Req := Req)) :=
  Spawn (ReqChallenge example_policy "https://api.example.com/" example_hash (V4 1)) :: steps 0 14 ++
  Tick 50 :: Spawn (ReqSettleL402 example_policy example_hash example_credential) ::
  Spawn (ReqSettle example_policy example_hash (hex "pay")) ::
  steps 1 3 ++ steps 2 3 ++ [Spawn ReqPrune] ++ steps 3 4 ++ steps 1 9 ++ steps 2 9.

Definition example_run :=
  run (handler (H1 := sha_id)) restart example_env (start empty 1100) example_schedule.

Lemma payment_admitted_once_witness :
  map (λ e : Req * Resp, match e.2 with
                         | RSettle r => is_ok r | RSettleL402 r => is_ok r
                         | RChallenge r => is_ok r | RUnit r => is_ok r end) (log example_run) =
    [true; true; true; false] ∧
  NoDup (omap (admitted (H1 := sha_id)) (log example_run)).
Proof.
  split; [vm_compute; reflexivity|].
  unfold example_run.
  refine (payment_admitted_once (H1 := sha_id) (λ _, 1300) (λ _, True) example_env 1100 example_schedule
    _ _ _).
  - intros p hash e t g inv _ Hv. apply validate_invoice_good in Hv as [Hp _].
    unfold parse_invoice, invoices in Hp. case_bool_decide; [|done].
    injection Hp as <-. vm_compute. reflexivity.
  - intros n X []; simpl; try done. intros s [= <-]. split; [done|apply take_pad_len].
  - assert (∀ i n, Forall (action_ok (req_ok (H1 := sha_id) (λ _, True))) (steps i n)) as Hs.
    { intros i n. apply Forall_forall. intros a Ha. apply list_elem_of_In, repeat_spec in Ha. by subst. }
    unfold example_schedule. repeat (rewrite Forall_app || rewrite Forall_cons).
    split_and!; try apply Hs; try exact I; try apply Forall_nil_2.
    intros m pre inv nonce _ _ _ _ E. exact (hex_inj _ _ E).
Defined.

(** The cleanup comes last. *)
Definition recovering : list action := example_schedule ++ [Spawn ReqRecover] ++ steps 4 40.
Lemma challenge_records_bounded_witness :
  size (roots (store example_run)) = 1%nat ∧ records (store example_run) ≤ MAX_CHALLENGE_RECORDS ∧
  outstanding (store (run (handler (H1 := sha_id)) restart example_env (start empty 1100) recovering))
    ≤ MAX_CHALLENGE_RECORDS.
Proof.
  split; [vm_compute; reflexivity|]. split.
  - unfold example_run. refine (proj2 (proj2 (proj2 (challenge_records_bounded (H1 := sha_id) example_env 1100 example_schedule))) _).
    assert (∀ i n, Forall (action_ok (λ r : Req, r ≠ ReqRecover)) (steps i n)) as Hs.
    { intros i n. apply Forall_forall. intros a Ha. apply list_elem_of_In, repeat_spec in Ha. by subst. }
    unfold example_schedule. repeat (rewrite Forall_app || rewrite Forall_cons).
    split_and!; try apply Hs; try exact I; try apply Forall_nil_2; discriminate.
  - exact (proj1 (challenge_records_bounded (H1 := sha_id) example_env 1100 recovering)).
Defined.
End Examples.
End Service.
