(* ===== verification/Proxy.v ===== *)
(** * The request path ([proxy.rs])

    [request_filter] decides what happens to a request: it finds the site, answers
    certificate challenges and redirects, applies the site's controls, settles a
    payment or takes the free allowance, and lets the request through or answers
    it.  Its stages are definitions in the order of the source; each either goes
    on or returns early with the final answer.  The calls it makes (limiters,
    capacity, payment services) are the commands of [Cmd].

    The hooks that run after it are functions on the request context:
    [upstream_peer], [fail_to_connect], [upstream_request_filter],
    [request_body_filter] and [response_filter]. *)
From S2P Require Import Prelude Text Net Effects Extern Flow RateLimit Capacity Cdk Terms LnPolicy Http Payments Payout Config LnProof LnStore.
#[local] Open Scope string_scope.
#[local] Open Scope list_scope.
#[local] Open Scope Z_scope.

Module Front.
Import Conf Http.
Abbreviation LnError := Service.Error (only parsing).
Abbreviation Challenge := Service.Challenge (only parsing).

(** [line s] is [s] with the newline that ends the fixed answers. *)
Definition line (s : string) : string := s +:+ String "010" "".

(** ** Requests and answers *)

(** What reading the body gives, one chunk at a time; the end of the list is the
    end of the body, [Stalled] a read that does not return in time. *)
Inductive BodyRead := Chunk (b : string) | ReadError | Stalled.

Record Request := {
  method : string;
  uri_scheme : option string;
  uri_authority : option string;
  uri_path : string;
  path_and_query : option string;
  req_headers : HeaderMap;
  client_ip : option IpAddr;            (** [client_addr().as_inet().ip()] *)
  body : list BodyRead;
  retry_buffer_truncated : bool
}.

(** [resp_body = None]: the answer ends with its header. *)
Record Response := { status : Z; resp_headers : HeaderMap; resp_body : option string }.

Record SocketAddr := { sa_ip : IpAddr; sa_port : Z }.
Record RequestContext := {
  ctx_site : option Site;
  ctx_host : string;
  started : Z;                          (** nanoseconds *)
  addresses : list SocketAddr;
  address_index : nat;
  ctx_capacity : option (CapacityRef * IpAddr);
  lightning_receipt : option string;
  body_bytes : Z
}.
Definition new_ctx (now : Z) : RequestContext :=
  {| ctx_site := None; ctx_host := ""; started := now; addresses := []; address_index := 0;
     ctx_capacity := None; lightning_receipt := None; body_bytes := 0 |}.
Definition with_host h (c : RequestContext) : RequestContext :=
  {| ctx_site := ctx_site c; ctx_host := h; started := started c; addresses := addresses c;
     address_index := address_index c; ctx_capacity := ctx_capacity c;
     lightning_receipt := lightning_receipt c; body_bytes := body_bytes c |}.
Definition with_site s (c : RequestContext) : RequestContext :=
  {| ctx_site := Some s; ctx_host := ctx_host c; started := started c; addresses := addresses c;
     address_index := address_index c; ctx_capacity := ctx_capacity c;
     lightning_receipt := lightning_receipt c; body_bytes := body_bytes c |}.
Definition with_addresses l i (c : RequestContext) : RequestContext :=
  {| ctx_site := ctx_site c; ctx_host := ctx_host c; started := started c; addresses := l;
     address_index := i; ctx_capacity := ctx_capacity c;
     lightning_receipt := lightning_receipt c; body_bytes := body_bytes c |}.
Definition with_permit p (c : RequestContext) : RequestContext :=
  {| ctx_site := ctx_site c; ctx_host := ctx_host c; started := started c; addresses := addresses c;
     address_index := address_index c; ctx_capacity := Some p;
     lightning_receipt := lightning_receipt c; body_bytes := body_bytes c |}.
Definition with_receipt r (c : RequestContext) : RequestContext :=
  {| ctx_site := ctx_site c; ctx_host := ctx_host c; started := started c; addresses := addresses c;
     address_index := address_index c; ctx_capacity := ctx_capacity c;
     lightning_receipt := r; body_bytes := body_bytes c |}.
Definition with_body_bytes n (c : RequestContext) : RequestContext :=
  {| ctx_site := ctx_site c; ctx_host := ctx_host c; started := started c; addresses := addresses c;
     address_index := address_index c; ctx_capacity := ctx_capacity c;
     lightning_receipt := lightning_receipt c; body_bytes := n |}.

(** How [request_filter] ends: [Ok(false)], [Ok(true)] after an answer was written,
    or an error.  [Answer] says whether the gate wrote it or it is the static
    response the site is configured with. *)
Inductive Source := Gate | SiteHandler.
Inductive Outcome :=
| Forward (headers : HeaderMap)
| Answer (by_ : Source) (r : Response)
| Failed (e : anyhow).
Abbreviation Exit := (RequestContext * Outcome)%type.

(** ** The calls *)

Inductive Cmd : Type → Type :=
| LoadConfig : Cmd Config
| ReadChallenge (domain token : string) : Cmd (option string)
| CheckRedirect (ip : IpAddr) : Cmd (result Z unit)
| SetDeadline (deadline : option Z) : Cmd unit
| CheckLimiter (r : LimiterRef) (ip : IpAddr) : Cmd (result Z unit)
| TryAcquire (c : CapacityRef) (ip : IpAddr) : Cmd (option IpAddr)
| Settle (p : Ln.Policy) (hash encoded : string) : Cmd (result LnError string)
| SettleL402 (p : Ln.Policy) (hash encoded : string) : Cmd (result LnError unit)
| Collect (site : string) (p : Terms.PaymentPolicy) (encoded : string) :
    Cmd (result Pay.PaymentError unit)
| MakeChallenge (p : Ln.Policy) (url hash : string) (client : IpAddr) :
    Cmd (result anyhow Challenge).

(** [Proxy]: the listener, and which payment services the state has. *)
Record Server := {
  srv_tls : bool;
  https_port : Z;
  has_payments : bool;
  has_lightning : bool
}.

(** [PaymentRequest::to_string] of a request for an amount in sat at one mint with
    a description. *)
Class PaymentRequests := payment_request : Z → string → string → string.

Section proxy.
Context `{HeaderValues, HttpLib, Sha256, JsonLib, PaymentRequests}.

(** ** Answers *)

Fixpoint insert_headers (hs : list (string * string)) (acc : HeaderMap) : result anyhow HeaderMap :=
  match hs with
  | [] => Ok acc
  | (name, value) :: hs' => acc ← insert_header name value acc; insert_headers hs' acc
  end.
Definition respond_with_headers (req : Request) (status : Z) (body : string)
    (headers : list (string * string)) : result anyhow Response :=
  h ← insert_header "Content-Type" "text/plain; charset=utf-8" [];
  let no_body := (status =? 204) || (status =? 205) || (status =? 304) in
  h ← (if (status =? 204) || (status =? 304) then Ok h
       else insert_header "Content-Length" (show (Z.of_nat (slen body))) h);
  h ← insert_headers headers h;
  let end_ := bool_decide (method req = "HEAD") || no_body || bool_decide (body = "") in
  mret {| status := status; resp_headers := h; resp_body := if end_ then None else Some body |}.

Definition answer (by_ : Source) (req : Request) (ctx : RequestContext) (status : Z) (body : string)
    (headers : list (string * string)) : Exit :=
  (ctx, match respond_with_headers req status body headers with
        | Ok r => Answer by_ r
        | Err e => Failed e
        end).
(** [return respond(..)] and [return respond_with_headers(..)] of the gate *)
Definition refuse {A} (req : Request) (ctx : RequestContext) (status : Z) (body : string)
    (headers : list (string * string)) : proc Cmd (result Exit A) :=
  return_ (answer Gate req ctx status (line body) headers).
Definition no_store : string * string := ("Cache-Control", "no-store").
(** [wait.as_secs() + u64::from(wait.subsec_nanos() != 0)] *)
Definition whole_seconds (wait : Z) : Z :=
  u64_sat_add (wait / 1000000000) (if wait mod 1000000000 =? 0 then 0 else 1).
(** [client.ok_or_else(..)?] *)
Definition need_client {A} (req : Request) (ctx : RequestContext) (k : IpAddr → proc Cmd (result Exit A)) :
    proc Cmd (result Exit A) :=
  match client_ip req with
  | Some ip => k ip
  | None => return_ (ctx, Failed "request has no client IP")
  end.

(** ** Routing *)

Definition authority_of (req : Request) : option string :=
  match get "host" (req_headers req) ≫= header_to_str with
  | Some a => Some a
  | None => uri_authority req
  end.

Definition route (req : Request) (ctx : RequestContext) :
    proc Cmd (result Exit (RequestContext * string * Site)) :=
  match authority_of req ≫= request_domain with
  | None => refuse req ctx 400 "A valid Host header is required." []
  | Some domain =>
      let ctx := with_host (default "" (authority_of req)) ctx in
      let! config := perform LoadConfig in
      match sites config !! domain with
      | None => refuse req ctx 404 "No site is configured for this hostname." []
      | Some site => Done (Ok (ctx, domain, site))
      end
  end.

Definition redirect (srv : Server) (req : Request) (ctx : RequestContext) (domain : string) :
    proc Cmd (result Exit unit) :=
  let! allowed := match client_ip req with
                  | None => Done (Ok (Err 1000000000))
                  | Some ip => perform (CheckRedirect ip)
                  end in
  match allowed with
  | Err wait =>
      refuse req ctx 429 "Too many redirects."
        [("Retry-After", show (whole_seconds wait)); no_store]
  | Ok _ =>
      let port := if https_port srv =? 443 then "" else ":" +:+ show (https_port srv) in
      let path := default "/" (path_and_query req) in
      refuse req ctx 308 "Redirecting to HTTPS."
        [("Location", "https://" +:+ domain +:+ port +:+ path)]
  end.

Definition acme_answer (req : Request) (ctx : RequestContext) (domain token : string) :
    proc Cmd (result Exit unit) :=
  let! response := perform (ReadChallenge domain token) in
  match response, bool_decide (method req = "GET") with
  | Some r, true => return_ (answer Gate req ctx 200 r [])
  | _, _ => refuse req ctx 404 "No active certificate challenge." []
  end.

(** The scheme of the listener against that of the site. *)
Definition check_scheme (srv : Server) (req : Request) (ctx : RequestContext) (domain : string)
    (site : Site) : proc Cmd (result Exit unit) :=
  if negb (srv_tls srv) then
    match strip_prefix "/.well-known/acme-challenge/" (uri_path req) with
    | Some token => acme_answer req ctx domain token
    | None => if https site then redirect srv req ctx domain else Done (Ok tt)
    end
  else if negb (https site) then refuse req ctx 404 "This site is configured for HTTP only." []
  else Done (Ok tt).

(** ** Controls *)

Definition content_length (req : Request) : option Z :=
  match get "content-length" (req_headers req) ≫= header_to_str with
  | Some v => ok (parse_u64 v)
  | None => None
  end.
Definition l402_enabled (site : Site) : bool :=
  is_some_and (λ p, Ln.l402 (Ln.protocols p)) (lightning site).
Definition payment_attempt (req : Request) (site : Site) : bool :=
  let hs := req_headers req in
  (is_some (payment site) && contains_key "x-cashu" hs)
  || (is_some (lightning site)
      && (contains_key "payment-signature" hs
          || (l402_enabled site && contains_key "authorization" hs))).

Definition check_verification (req : Request) (ctx : RequestContext) (site : Site) :
    proc Cmd (result Exit unit) :=
  if payment_attempt req site then
    need_client req ctx (λ ip,
      let! allowed := perform (CheckLimiter (payment_verification site) ip) in
      match allowed with
      | Err wait =>
          refuse req ctx 429 "Too many payment verification attempts."
            [("Retry-After", show (whole_seconds wait)); no_store]
      | Ok _ => Done (Ok tt)
      end)
  else Done (Ok tt).

Definition acquire (req : Request) (ctx : RequestContext) (site : Site) :
    proc Cmd (result Exit RequestContext) :=
  match capacity site with
  | None => Done (Ok ctx)
  | Some c =>
      need_client req ctx (λ ip,
        let! permit := perform (TryAcquire c ip) in
        match permit with
        | Some key => Done (Ok (with_permit (c, key) ctx))
        | None => refuse req ctx 503 "Site is at capacity." [("Retry-After", "1"); no_store]
        end)
  end.

Definition controlled (req : Request) (ctx : RequestContext) (site : Site) :
    proc Cmd (result Exit RequestContext) :=
  let deadline := (λ seconds, started ctx + seconds * 1000000000) <$> request_timeout (controls site) in
  let! _ := perform (SetDeadline deadline) in
  let ctx := with_site site ctx in
  if match max_body_bytes (controls site), content_length req with
     | Some max, Some length => max <? length
     | _, _ => false
     end
  then refuse req ctx 413 "Request body too large." []
  else
    let! _ := check_verification req ctx site in
    acquire req ctx site.

(** ** Payment headers *)

(** The credential of an [Authorization: L402 ..] header. *)
Definition l402_credential (value : string) : option string :=
  v ← header_to_str value;
  '(scheme, credential) ← split_once " " v;
  if eq_ignore_ascii_case scheme "L402" && negb (bool_decide (credential = ""))
     && (slen credential <=? Ln.MAX_PAYMENT_HEADER)%nat
  then Some credential else None.

Definition l402_header (req : Request) (ctx : RequestContext) (site : Site) :
    proc Cmd (result Exit (option string)) :=
  if l402_enabled site then
    match get_all "authorization" (req_headers req) with
    | [] => Done (Ok None)
    | value :: rest =>
        match rest, l402_credential value with
        | [], Some credential => Done (Ok (Some credential))
        | _, _ => refuse req ctx 401 "This site requires an L402 Authorization credential."
                    [no_store; ("WWW-Authenticate", "L402")]
        end
    end
  else Done (Ok None).

Definition check_methods (req : Request) (ctx : RequestContext) (site : Site) (l402 : option string) :
    proc Cmd (result Exit unit) :=
  let hs := req_headers req in
  if is_some l402 && (contains_key "payment-signature" hs || contains_key "x-cashu" hs)
  then refuse req ctx 400 "Select exactly one payment method." []
  else if is_some_and (λ p, negb (Ln.x402 (Ln.protocols p))) (lightning site)
          && contains_key "payment-signature" hs
  then refuse req ctx 400 "Lightning x402 is disabled." []
  else Done (Ok tt).

Definition lightning_header (req : Request) (ctx : RequestContext) (site : Site) :
    proc Cmd (result Exit (option string)) :=
  match lightning site with
  | None => Done (Ok None)
  | Some _ =>
      match get_all "payment-signature" (req_headers req) with
      | [] => Done (Ok None)
      | value :: rest =>
          if negb (bool_decide (rest = [])) || contains_key "x-cashu" (req_headers req)
          then refuse req ctx 400 "Select exactly one payment method." []
          else match opt_filter (λ v, (slen v <=? Ln.MAX_PAYMENT_HEADER)%nat) (header_to_str value) with
               | Some v => Done (Ok (Some v))
               | None => refuse req ctx 400 "Invalid Lightning payment header." []
               end
      end
  end.

(** ** The request binding *)

Fixpoint read_body (limit : Z) (reads : list BodyRead) (acc : string) : result anyhow string :=
  match reads with
  | [] => Ok acc
  | Chunk b :: reads' =>
      _ ← ensure (Z.of_nat (slen acc + slen b) <=? limit) "Lightning body exceeds 64 KiB";
      read_body limit reads' (acc +:+ b)
  | ReadError :: _ => Err "read failed"
  | Stalled :: _ => Err "deadline has elapsed"
  end.

Definition scheme_of (tls : bool) : string := if tls then "https" else "http".
Definition lightning_binding (req : Request) (policy : Ln.Policy) (tls : bool)
    (max_body_bytes : option Z) : result anyhow (string * string) :=
  let hs := req_headers req in
  _ ← ensure (negb (contains_key "trailer" hs) && negb (contains_key "upgrade" hs))
        "trailers and upgrades are unsupported for Lightning";
  authority ← ok_or "missing host" (authority_of req);
  let origin := scheme_of tls +:+ "://" +:+ authority in
  _ ← ensure (bool_decide (origin = Ln.origin policy)) "public origin mismatch";
  _ ← match uri_scheme req with
      | Some scheme => ensure (bool_decide (scheme = scheme_of tls)) "request scheme mismatch"
      | None => Ok tt
      end;
  _ ← match uri_authority req with
      | Some a => ensure (bool_decide (a = authority)) "request authority mismatch"
      | None => Ok tt
      end;
  let path := default "/" (path_and_query req) in
  _ ← ensure (starts_with "/" path) "unsupported request target";
  let url := origin +:+ path in
  content ← read_body (Z.min (default u64_max max_body_bytes) Ln.MAX_BODY) (body req) "";
  _ ← ensure (negb (retry_buffer_truncated req)) "request body could not be buffered";
  hash ← Ln.request_hash policy (method req) url hs content;
  mret (url, hash).

(** ** Admission *)

(** Payments are accepted over TLS, or from this host. *)
Definition secure (srv : Server) (req : Request) : bool :=
  srv_tls srv || is_some_and is_loopback (client_ip req).

Definition LnError_message (e : LnError) : string :=
  match e with
  | Service.Invalid => "Invalid, expired, or already used Lightning payment."
  | Service.Unavailable => "Lightning payments temporarily unavailable."
  end.
Definition settlement_refused (req : Request) (ctx : RequestContext) (l402 : bool) (e : LnError) :
    proc Cmd (result Exit RequestContext) :=
  let code := match e with
              | Service.Invalid => if l402 then 401 else 400
              | Service.Unavailable => 503
              end in
  refuse req ctx code (LnError_message e)
    (no_store :: if code =? 401 then [("WWW-Authenticate", "L402")] else []).

Definition pay_lightning (srv : Server) (req : Request) (ctx : RequestContext) (site : Site)
    (policy : Ln.Policy) (l402 : bool) (encoded : string) : proc Cmd (result Exit RequestContext) :=
  if negb (secure srv req) then refuse req ctx 400 "Use HTTPS to send payments." []
  else if negb (has_lightning srv) then refuse req ctx 503 "Lightning unavailable." []
  else
    match lightning_binding req policy (srv_tls srv) (max_body_bytes (controls site)) with
    | Err _ => refuse req ctx 400 "Unsupported Lightning request binding or body size." []
    | Ok (_, hash) =>
        let! settlement :=
          (if l402 then
             let! r := perform (SettleL402 policy hash encoded) in
             Done (Ok (match r with Ok _ => Ok None | Err e => Err e end))
           else
             let! r := perform (Settle policy hash encoded) in
             Done (Ok (match r with Ok receipt => Ok (Some receipt) | Err e => Err e end))) in
        match settlement with
        | Ok receipt => Done (Ok (with_receipt receipt ctx))
        | Err e => settlement_refused req ctx l402 e
        end
    end.

Definition pay_cashu (srv : Server) (req : Request) (ctx : RequestContext) (domain : string)
    (policy : Terms.PaymentPolicy) (value : string) : proc Cmd (result Exit RequestContext) :=
  if negb (length (get_all "x-cashu" (req_headers req)) =? 1)%nat
  then refuse req ctx 400 "Provide exactly one X-Cashu token." []
  else if negb (secure srv req) then refuse req ctx 400 "Use HTTPS to send payment tokens." []
  else
    match header_to_str value with
    | None => refuse req ctx 400 "Invalid Cashu token." []
    | Some encoded =>
        if negb (has_payments srv) then refuse req ctx 503 "Payments are unavailable." []
        else
          let! r := perform (Collect domain policy encoded) in
          match r with
          | Ok _ => Done (Ok ctx)
          | Err Pay.Invalid =>
              refuse req ctx 400 "Invalid, insufficient, or already used Cashu payment." [no_store]
          | Err Pay.Unavailable =>
              refuse req ctx 503 "Payments temporarily unavailable; retry the same token."
                [("Retry-After", "1"); no_store]
          end
    end.

(** [PaymentPolicy::challenge] *)
Definition PaymentPolicy_challenge (p : Terms.PaymentPolicy) : string :=
  payment_request (Terms.price p) (Terms.mint p) "One Geata request attempt".

(** The Lightning part of a 402, when it can be made. *)
Definition lightning_challenge (srv : Server) (req : Request) (site : Site) (ip : IpAddr) :
    proc Cmd (result Exit (option Challenge)) :=
  match lightning site, has_lightning srv with
  | Some policy, true =>
      match lightning_binding req policy (srv_tls srv) (max_body_bytes (controls site)) with
      | Ok (url, hash) =>
          let! r := perform (MakeChallenge policy url hash ip) in Done (Ok (ok r))
      | Err _ => Done (Ok None)
      end
  | _, _ => Done (Ok None)
  end.

Definition opt_header (name : string) (o : option string) : list (string * string) :=
  match o with Some v => [(name, v)] | None => [] end.

Definition payment_required (srv : Server) (req : Request) (ctx : RequestContext) (site : Site)
    (ip : IpAddr) (retry_after : option string) : proc Cmd (result Exit RequestContext) :=
  let cashu := PaymentPolicy_challenge <$> payment site in
  let! required := lightning_challenge srv req site ip in
  if is_none cashu && is_none required
  then refuse req ctx 503 "Lightning challenge unavailable." [("Retry-After", "1"); no_store]
  else
    refuse req ctx 402
      (if is_some retry_after then "Payment required, or wait for the free allowance."
       else "Payment required.")
      (no_store :: opt_header "Retry-After" retry_after ++ opt_header "X-Cashu" cashu
       ++ opt_header "PAYMENT-REQUIRED" (required ≫= Service.ch_x402)
       ++ opt_header "WWW-Authenticate" (required ≫= Service.ch_l402)).

Definition free_allowance (srv : Server) (req : Request) (ctx : RequestContext) (site : Site) :
    proc Cmd (result Exit RequestContext) :=
  if is_none (rate_limit site) && is_none (payment site) && is_none (lightning site)
  then Done (Ok ctx)
  else
    need_client req ctx (λ ip,
      let! wait := match rate_limit site with
                   | Some limiter =>
                       let! r := perform (CheckLimiter limiter ip) in
                       Done (Ok (match r with Ok _ => None | Err w => Some w end))
                   | None => Done (Ok None)
                   end in
      if is_some wait || is_none (rate_limit site) then
        let retry_after := (λ w, show (Z.max (whole_seconds w) 1)) <$> wait in
        if is_some (payment site) || is_some (lightning site)
        then payment_required srv req ctx site ip retry_after
        else refuse req ctx 429 "Too many requests."
               [("Retry-After", default "1" retry_after); no_store]
      else Done (Ok ctx)).

(** The three ways in: a Lightning payment, a Cashu token, or no payment. *)
Definition let_in (srv : Server) (req : Request) (ctx : RequestContext) (domain : string) (site : Site)
    (l402 ln : option string) : proc Cmd (result Exit RequestContext) :=
  match (match l402 with Some e => Some e | None => ln end), lightning site with
  | Some encoded, Some policy => pay_lightning srv req ctx site policy (is_some l402) encoded
  | Some _, None => return_ (ctx, Failed "Lightning policy checked")
  | None, _ =>
      match payment site, head (get_all "x-cashu" (req_headers req)) with
      | Some policy, Some value => pay_cashu srv req ctx domain policy value
      | _, _ => free_allowance srv req ctx site
      end
  end.

(** ** The end of the filter *)

Definition pays (site : Site) : bool := is_some (payment site) || is_some (lightning site).
(** Credentials are not for the backend. *)
Definition strip_credentials (site : Site) (hs : HeaderMap) : HeaderMap :=
  let hs := if l402_enabled site then remove_header "authorization" hs else hs in
  if pays site then remove_header "payment-signature" (remove_header "X-Cashu" hs) else hs.

Definition finish (req : Request) (ctx : RequestContext) (site : Site) : Exit :=
  match handler site with
  | Respond body code =>
      answer SiteHandler req ctx code body
        ((if pays site then [no_store] else [])
         ++ opt_header "PAYMENT-RESPONSE" (lightning_receipt ctx))
  | Proxy _ => (with_site site ctx, Forward (strip_credentials site (req_headers req)))
  end.

Definition filter_stages (srv : Server) (req : Request) (ctx : RequestContext) :
    proc Cmd (result Exit Exit) :=
  let! (ctx, domain, site) := route req ctx in
  let! _ := check_scheme srv req ctx domain site in
  let! ctx := controlled req ctx site in
  let! l402 := l402_header req ctx site in
  let! _ := check_methods req ctx site l402 in
  let! ln := lightning_header req ctx site in
  let! ctx := let_in srv req ctx domain site l402 ln in
  Done (Ok (finish req ctx site)).

Definition request_filter (srv : Server) (req : Request) (ctx : RequestContext) : proc Cmd Exit :=
  proc_bind (filter_stages srv req ctx) (λ r, Done (match r with Ok e => e | Err e => e end)).
End proxy.
End Front.
