(* ===== verification/Admission.v ===== *)
(** * Who is let through

    The theorems about [request_filter]: a request reaches the site only over the
    site's own scheme, with its capacity permit, and because the site is free, the
    client was within its allowance, or the payment service accepted the payment
    in the request's own headers, for Lightning one bound to this very request;
    every settlement attempt was let through by the verification limiter and the
    capacity first; and a request whose payment was taken is always served. *)
From S2P Require Import Prelude Text Net Effects Extern Flow RateLimit Capacity Cdk Terms LnPolicy Http Payments Payout Config LnProof LnStore Proxy Models.
#[local] Open Scope string_scope.
#[local] Open Scope list_scope.
#[local] Open Scope Z_scope.

Module Admission.
Import Conf Http Front.

Section admission.
Context `{HeaderValues, HttpLib, Sha256, JsonLib, PaymentRequests}.
Abbreviation trace := (list (event Cmd)).

(** The site's handler got the request. *)
Definition served (o : Outcome) : bool :=
  match o with Forward _ | Answer SiteHandler _ => true | _ => false end.

(** A call that settles a payment, and one that succeeded. *)
Definition attempt {X} (c : Cmd X) : bool :=
  match c with Settle _ _ _ | SettleL402 _ _ _ | Collect _ _ _ => true | _ => false end.
Definition paid_event (e : event Cmd) : bool :=
  match e with
  | Ev c x =>
      match c in Cmd X return X → bool with
      | Settle _ _ _ => λ r, is_ok r
      | SettleL402 _ _ _ => λ r, is_ok r
      | Collect _ _ _ => λ r, is_ok r
      | _ => λ _, false
      end x
  end.
Definition unpaid (tr : trace) : Prop := Forall (λ e, paid_event e = false) tr.

Definition attempt_event (e : event Cmd) : bool := match e with Ev c _ => attempt c end.
Definition untried (tr : trace) : Prop := Forall (λ e, attempt_event e = false) tr.

(** ** What the calls of a run show *)

(** The first call loads the configuration, once. *)
Definition routed (req : Request) (tr : trace) (domain : string) (site : Site) : Prop :=
  ∃ config, head tr = Some (Ev LoadConfig config) ∧ authority_of req ≫= request_domain = Some domain ∧
    sites config !! domain = Some site.
Definition verified (req : Request) (tr : trace) (site : Site) : Prop :=
  ∃ ip, client_ip req = Some ip ∧ Ev (CheckLimiter (payment_verification site) ip) (Ok tt) ∈ tr.
Definition acquired (req : Request) (tr : trace) (site : Site) (permit : option (CapacityRef * IpAddr)) :
    Prop :=
  ∀ c, capacity site = Some c → ∃ ip key, client_ip req = Some ip ∧
    Ev (TryAcquire c ip) (Some key) ∈ tr ∧ permit = Some (c, key).
(** The receipt of the context comes from a settlement of this run, of the payment
    in the request, or was there before. *)
Definition receipted (srv : Server) (req : Request) (site : Site) (before : option string) (tr : trace)
    (receipt : option string) : Prop :=
  ∀ v, receipt = Some v → before = Some v ∨ ∃ p url h e,
    lightning site = Some p ∧ get_all "payment-signature" (req_headers req) ≠ [] ∧
    lightning_binding req p (srv_tls srv) (max_body_bytes (controls site)) = Ok (url, h) ∧
    Ev (Settle p h e) (Ok v) ∈ tr.
Definition carries (srv : Server) (req : Request) (site : Site) (ctx : RequestContext) (tr : trace)
    (ctx' : RequestContext) : Prop :=
  ctx_capacity ctx' = ctx_capacity ctx ∧
  receipted srv req site (lightning_receipt ctx) tr (lightning_receipt ctx').
Definition fits (req : Request) (site : Site) : Prop :=
  ∀ max length, max_body_bytes (controls site) = Some max → content_length req = Some length →
    length ≤ max.

(** No Lightning payment in a header that the site takes it from. *)
Definition no_l402 (req : Request) (site : Site) : Prop :=
  l402_enabled site = true → get_all "authorization" (req_headers req) = [].
Definition no_x402 (req : Request) (site : Site) : Prop :=
  is_some (lightning site) = true → get_all "payment-signature" (req_headers req) = [].

(** The grounds on which a request is let through. *)
Inductive entitled (srv : Server) (req : Request) (domain : string) (site : Site) (tr : trace) : Prop :=
| ent_open :
    rate_limit site = None → payment site = None → lightning site = None →
    entitled srv req domain site tr
| ent_free limiter ip :
    rate_limit site = Some limiter → client_ip req = Some ip →
    (payment site = None ∨ get_all "x-cashu" (req_headers req) = []) →
    no_l402 req site → no_x402 req site →
    Ev (CheckLimiter limiter ip) (Ok tt) ∈ tr → entitled srv req domain site tr
| ent_cashu policy value encoded :
    payment site = Some policy → get_all "x-cashu" (req_headers req) = [value] →
    no_l402 req site → no_x402 req site →
    header_to_str value = Some encoded → secure srv req = true →
    Ev (Collect domain policy encoded) (Ok tt) ∈ tr → entitled srv req domain site tr
| ent_x402 policy value encoded url hash receipt :
    lightning site = Some policy → Ln.x402 (Ln.protocols policy) = true →
    get_all "payment-signature" (req_headers req) = [value] → get_all "x-cashu" (req_headers req) = [] →
    no_l402 req site →
    header_to_str value = Some encoded → secure srv req = true →
    lightning_binding req policy (srv_tls srv) (max_body_bytes (controls site)) = Ok (url, hash) →
    Ev (Settle policy hash encoded) (Ok receipt) ∈ tr → entitled srv req domain site tr
| ent_l402 policy value credential url hash :
    lightning site = Some policy → Ln.l402 (Ln.protocols policy) = true →
    get_all "authorization" (req_headers req) = [value] → get_all "x-cashu" (req_headers req) = [] →
    no_x402 req site →
    l402_credential value = Some credential → secure srv req = true →
    lightning_binding req policy (srv_tls srv) (max_body_bytes (controls site)) = Ok (url, hash) →
    Ev (SettleL402 policy hash credential) (Ok tt) ∈ tr → entitled srv req domain site tr.

(** Before a settlement attempt. *)
Definition guarded (req : Request) (tr : trace) (X : Type) (c : Cmd X) : Prop :=
  attempt c = true → untried tr ∧ ∃ domain site permit,
    routed req tr domain site ∧ verified req tr site ∧ acquired req tr site permit.

(** ** Stage by stage *)

Section stages.
Context (srv : Server) (req : Request).
Abbreviation post := (Flow.post (guarded req)).

(** A stage that goes on keeps what the calls showed so far; one that returns early
    does not serve the request and has taken no payment. *)
Definition stage {A} (tr : trace) (good : trace → A → Prop) (tr' : trace) (r : result Exit A) : Prop :=
  match r with
  | Ok a => good tr' a ∧ tr `prefix_of` tr'
  | Err e => served e.2 = false ∧ unpaid tr'
  end.

Lemma untried_unpaid tr : untried tr → unpaid tr.
Proof. intros Ht. eapply Forall_impl; [exact Ht|]. intros [X c x]. by destruct c. Qed.
Lemma untried_snoc tr e : untried tr → attempt_event e = false → untried (tr ++ [e]).
Proof. intros. apply Forall_app. split; [done|]. by constructor. Qed.
Lemma early_snoc tr e : untried tr → paid_event e = false → unpaid (tr ++ [e]).
Proof. intros. apply Forall_app. split; [by apply untried_unpaid|]. by constructor. Qed.
Ltac grow := first [done | by eexists].
Ltac snoc := first [by apply untried_snoc | by apply early_snoc].

Lemma gate_not_served ctx code content hs : served (answer Gate req ctx code content hs).2 = false.
Proof. unfold answer. by destruct (respond_with_headers _ _ _ _). Qed.

Lemma post_refuse {A} ctx code content hs tr (good : trace → A → Prop) :
  untried tr → post (refuse req ctx code content hs) tr (stage tr good).
Proof. intros Hu. split; [apply gate_not_served|by apply untried_unpaid]. Qed.
Lemma post_refuse' {A} ctx code content hs tr0 tr (good : trace → A → Prop) :
  untried tr → post (refuse req ctx code content hs) tr (stage tr0 good).
Proof. intros Hu. split; [apply gate_not_served|by apply untried_unpaid]. Qed.

Lemma post_stage {A B} (p : proc Cmd (result Exit A)) (f : A → proc Cmd (result Exit B)) tr
    (good : trace → A → Prop) (good' : trace → B → Prop) :
  post p tr (stage tr good) →
  (∀ tr' a, good tr' a → tr `prefix_of` tr' → post (f a) tr' (stage tr' good')) →
  post (then_ok p f) tr (stage tr good').
Proof.
  intros Hp Hf. apply post_then. eapply post_mono; [|exact Hp].
  intros tr' [a|e]; simpl; [|done]. intros [Hg Hs].
  eapply post_mono; [|by apply Hf]. intros tr'' [b|e]; simpl; [|done].
  intros [? ?]. split; [done|]. by etrans.
Qed.


Lemma routed_mono tr tr' domain site :
  tr `prefix_of` tr' → routed req tr domain site → routed req tr' domain site.
Proof. intros [l ->] (config & Hin & ?). exists config. split; [by destruct tr|done]. Qed.
Lemma verified_mono tr tr' site :
  tr `prefix_of` tr' → verified req tr site → verified req tr' site.
Proof. intros [l ->] (ip & ? & Hin). exists ip. split; [done|set_solver]. Qed.
Lemma acquired_mono tr tr' site p :
  tr `prefix_of` tr' → acquired req tr site p → acquired req tr' site p.
Proof.
  intros [l ->] Ha c Hc. destruct (Ha c Hc) as (ip & key & ? & Hin & ?). exists ip, key.
  split_and!; [done|set_solver|done].
Qed.

Lemma carries_self site ctx tr : carries srv req site ctx tr ctx.
Proof. split; [done|]. by left. Qed.
#[local] Hint Resolve carries_self : core.

Lemma route_stage ctx :
  post (route req ctx) [] (stage [] (λ tr '(ctx', domain, site),
    untried tr ∧ routed req tr domain site ∧ lightning_receipt ctx' = lightning_receipt ctx)).
Proof.
  unfold route. destruct (authority_of req ≫= request_domain) as [domain|] eqn:Hd;
    [|apply post_refuse; constructor].
  apply post_then, post_perform; [done|]. intros config.
  assert (untried [Ev LoadConfig config]) by (by repeat constructor).
  destruct (sites config !! domain) as [site|] eqn:Hs; [|by apply post_refuse'].
  split; [|grow]. split; [done|]. split; [|done]. by exists config.
Qed.

Lemma acme_stage ctx domain token tr (good : trace → unit → Prop) :
  untried tr → post (acme_answer req ctx domain token) tr (stage tr good).
Proof.
  intros Hu. unfold acme_answer. apply post_then, post_perform; [done|]. intros r.
  destruct r as [r|], (bool_decide (method req = "GET")); (split; [apply gate_not_served|snoc]).
Qed.

Lemma redirect_stage ctx domain tr (good : trace → unit → Prop) :
  untried tr → post (redirect srv req ctx domain) tr (stage tr good).
Proof.
  intros Hu. unfold redirect. apply post_then. destruct (client_ip req) as [ip|].
  - apply post_perform; [done|].
    intros [|w]; (split; [apply gate_not_served|snoc]).
  - split; [apply gate_not_served|by apply untried_unpaid].
Qed.

Lemma check_scheme_stage ctx domain site tr :
  untried tr →
  post (check_scheme srv req ctx domain site) tr
    (stage tr (λ tr _, untried tr ∧ srv_tls srv = https site)).
Proof.
  intros Hu. unfold check_scheme.
  destruct (srv_tls srv), (https site) eqn:Hh; cbn [negb]; try by apply post_refuse.
  - done.
  - destruct (strip_prefix _ _) as [token|]; [by apply acme_stage|by apply redirect_stage].
  - destruct (strip_prefix _ _) as [token|]; [by apply acme_stage|done].
Qed.

Lemma verification_stage ctx site tr :
  untried tr →
  post (check_verification req ctx site) tr
    (stage tr (λ tr _, untried tr ∧ (payment_attempt req site = true → verified req tr site))).
Proof.
  intros Hu. unfold check_verification, need_client.
  destruct (payment_attempt req site) eqn:Hp; [|by split; [split|]].
  destruct (client_ip req) as [ip|] eqn:Hip; [|by split; [|apply untried_unpaid]].
  apply post_then, post_perform; [done|]. intros [[]|w].
  - split; [|grow]. split; [snoc|]. intros _. exists ip. set_solver.
  - split; [apply gate_not_served|snoc].
Qed.

Lemma acquire_stage ctx site tr :
  untried tr →
  post (acquire req ctx site) tr
    (stage tr (λ tr ctx', untried tr ∧ acquired req tr site (ctx_capacity ctx') ∧
       lightning_receipt ctx' = lightning_receipt ctx)).
Proof.
  intros Hu. unfold acquire, need_client. destruct (capacity site) as [c|] eqn:Hc.
  2:{ split; [|grow]. split; [done|]. split; [|done]. by intros c Hc'; rewrite Hc in Hc'. }
  destruct (client_ip req) as [ip|] eqn:Hip; [|by split; [|apply untried_unpaid]].
  apply post_then, post_perform; [done|]. intros [key|].
  - split; [|grow]. split; [snoc|]. split; [|done]. intros c' Hc'. simplify_eq.
    exists ip, key. set_solver.
  - split; [apply gate_not_served|snoc].
Qed.

Lemma controlled_stage ctx site tr :
  untried tr →
  post (controlled req ctx site) tr
    (stage tr (λ tr ctx', untried tr ∧ fits req site ∧
       (payment_attempt req site = true → verified req tr site) ∧
       acquired req tr site (ctx_capacity ctx') ∧ lightning_receipt ctx' = lightning_receipt ctx)).
Proof.
  intros Hu. unfold controlled. eapply (post_stage _ _ _ (λ tr _, untried tr)).
  { split; [done|]. intros []. split; [snoc|grow]. }
  intros tr1 [] Hu1 Hs1.
  destruct (match max_body_bytes (controls site) with Some _ => _ | None => _ end) eqn:Hf;
    [by apply post_refuse|].
  assert (fits req site) as Hfit.
  { intros max length Hm Hl. rewrite Hm, Hl in Hf. lia. }
  eapply post_stage; [by apply verification_stage|]. intros tr2 [] [Hu2 Hv2] Hs2.
  eapply post_mono; [|by apply acquire_stage]. intros tr3 [ctx'|e]; simpl; [|done].
  intros [(Hu3 & Ha3 & Hr3) Hs3]. split_and!; try done. intros Hp. eapply verified_mono; [done|auto].
Qed.
(** The payment headers that were found. *)
Definition found_l402 (site : Site) (o : option string) : Prop :=
  match o with
  | Some credential => l402_enabled site = true ∧
      ∃ value, get_all "authorization" (req_headers req) = [value] ∧ l402_credential value = Some credential
  | None => no_l402 req site
  end.
Definition found_x402 (site : Site) (o : option string) : Prop :=
  match o with
  | Some encoded => is_some (lightning site) = true ∧ get_all "x-cashu" (req_headers req) = [] ∧
      ∃ value, get_all "payment-signature" (req_headers req) = [value] ∧ header_to_str value = Some encoded
  | None => no_x402 req site
  end.

Lemma l402_header_stage ctx site tr :
  untried tr →
  post (l402_header req ctx site) tr (stage tr (λ tr' o, tr' = tr ∧ found_l402 site o)).
Proof.
  intros Hu. unfold l402_header.
  destruct (l402_enabled site) eqn:Hl; [|by split; [split; [|intros ?; congruence]|]].
  destruct (get_all "authorization" (req_headers req)) as [|value rest] eqn:Hg;
    [by split; [split; [|intros ?]|]|].
  destruct rest as [|v rest]; [|by apply post_refuse].
  destruct (l402_credential value) as [cr|] eqn:Hc; [|by apply post_refuse].
  split; [|done]. split; [done|]. simpl. eauto.
Qed.

(** No second payment method beside the one that was found. *)
Definition alone (site : Site) (l402 : option string) : Prop :=
  (contains_key "payment-signature" (req_headers req) = true →
   l402 = None ∧ ∀ p, lightning site = Some p → Ln.x402 (Ln.protocols p) = true) ∧
  (is_some l402 = true → get_all "x-cashu" (req_headers req) = []).

Lemma not_contained name : contains_key name (req_headers req) = false → get_all name (req_headers req) = [].
Proof. rewrite contains_key_get_all. by destruct (get_all _ _). Qed.

Lemma check_methods_stage ctx site l402 tr :
  untried tr →
  post (check_methods req ctx site l402) tr (stage tr (λ tr' _, tr' = tr ∧ alone site l402)).
Proof.
  intros Hu. unfold check_methods.
  destruct (is_some l402 && _) eqn:Hc1; [by apply post_refuse|].
  destruct (is_some_and _ _ && _) eqn:Hc2; [by apply post_refuse|].
  split; [|done]. split; [done|]. split.
  - intros Hp. rewrite Hp in Hc1, Hc2. split; [by destruct l402|].
    intros p Hl. rewrite Hl in Hc2. simpl in Hc2. by destruct (Ln.x402 (Ln.protocols p)).
  - intros Hl. rewrite Hl in Hc1. apply orb_false_iff in Hc1 as [_ Hc1]. by apply not_contained.
Qed.

Lemma lightning_header_stage ctx site tr :
  untried tr →
  post (lightning_header req ctx site) tr (stage tr (λ tr' o, tr' = tr ∧ found_x402 site o)).
Proof.
  intros Hu. unfold lightning_header.
  destruct (lightning site) as [p|] eqn:Hl; [|by split; [split; [done|unfold found_x402, no_x402; rewrite Hl]|]].
  destruct (get_all "payment-signature" (req_headers req)) as [|value rest] eqn:Hg;
    [by split; [split; [|intros ?]|]|].
  destruct (bool_decide_reflect (rest = [])) as [->|Hr]; [|by apply post_refuse]. cbn [negb orb].
  destruct (contains_key _ _) eqn:Hk; [by apply post_refuse|]. apply not_contained in Hk.
  destruct (opt_filter _ _) as [v|] eqn:Hf; [|by apply post_refuse].
  apply opt_filter_Some in Hf as [Hf _].
  split; [|done]. split; [done|]. simpl. rewrite Hl. eauto.
Qed.

(** After admission; [good] is what [Ok] promises, given that a refusal can only
    come before a payment was taken. *)
Lemma pay_lightning_stage ctx domain site policy l402 ln encoded tr :
  untried tr → routed req tr domain site → verified req tr site →
  acquired req tr site (ctx_capacity ctx) →
  lightning site = Some policy → found_l402 site l402 → found_x402 site ln →
  alone site l402 →
  match l402 with Some e => Some e | None => ln end = Some encoded →
  post (pay_lightning srv req ctx site policy (is_some l402) encoded) tr
    (stage tr (λ tr' ctx', entitled srv req domain site tr' ∧ carries srv req site ctx tr' ctx')).
Proof.
  intros Hu Hr Hv Ha Hl Hl402 Hx402 [Hm Hn] He. unfold pay_lightning.
  destruct (secure srv req) eqn:Hsec; [|by apply post_refuse].
  destruct (has_lightning srv); [|by apply post_refuse]. cbn [negb].
  destruct (lightning_binding _ _ _ _) as [[url hash]|e] eqn:Hb; [|by apply post_refuse].
  assert (∀ X (c : Cmd X), guarded req tr X c) as Hg by (intros X c _; split; [done|]; by exists domain, site, (ctx_capacity ctx)).
  apply post_then. destruct l402 as [cr|]; cbn [is_some].
  - injection He as ->. destruct Hl402 as [Hen (value & Hget & Hcr)].
    assert (no_x402 req site) as Hno.
    { intros _. apply not_contained. destruct (contains_key _ _); [by destruct Hm|done]. }
    unfold l402_enabled in Hen. rewrite Hl in Hen. simpl in Hen.
    apply post_then, post_perform; [done|]. intros [[]|e].
    + split; [|grow]. split; [eapply ent_l402; try done; [by apply Hn|set_solver]|].
      by split.
    + unfold settlement_refused. split; [apply gate_not_served|snoc].
  - subst ln. destruct Hx402 as [_ (Hnone & value & Hget & Hcr)].
    destruct Hm as [_ Hx]; [by rewrite contains_key_get_all, Hget|]. specialize (Hx policy Hl).
    apply post_then, post_perform; [done|]. intros [receipt|e].
    + split; [|grow]. split.
      * apply (ent_x402 _ _ _ _ _ policy value encoded url hash receipt); try done. set_solver.
      * split; [done|]. intros v [= <-]. right. exists policy, url, hash, encoded.
        split_and!; [done|by rewrite Hget|done|set_solver].
    + unfold settlement_refused. split; [apply gate_not_served|snoc].
Qed.

Lemma pay_cashu_stage ctx domain site policy value tr :
  untried tr → routed req tr domain site → verified req tr site →
  acquired req tr site (ctx_capacity ctx) →
  no_l402 req site → no_x402 req site →
  payment site = Some policy → head (get_all "x-cashu" (req_headers req)) = Some value →
  post (pay_cashu srv req ctx domain policy value) tr
    (stage tr (λ tr' ctx', entitled srv req domain site tr' ∧ carries srv req site ctx tr' ctx')).
Proof.
  intros Hu Hr Hv Ha Hn1 Hn2 Hp Hval. unfold pay_cashu.
  destruct (_ =? 1)%nat eqn:Hone; [|by apply post_refuse].
  destruct (secure srv req) eqn:Hsec; [|by apply post_refuse]. cbn [negb].
  destruct (header_to_str value) as [encoded|] eqn:He; [|by apply post_refuse].
  destruct (has_payments srv); [|by apply post_refuse]. cbn [negb].
  apply post_then, post_perform; [intros _; split; [done|]; by exists domain, site, (ctx_capacity ctx)|].
  intros [[]|[]].
  - split; [|grow]. split; [|done]. apply Nat.eqb_eq in Hone.
    destruct (get_all "x-cashu" (req_headers req)) as [|v [|]] eqn:Hg; try discriminate Hone.
    injection Hval as ->. eapply ent_cashu; try done. set_solver.
  - split; [apply gate_not_served|snoc].
  - split; [apply gate_not_served|snoc].
Qed.

Lemma payment_required_stage ctx site ip retry tr0 tr (good : trace → RequestContext → Prop) :
  untried tr → post (payment_required srv req ctx site ip retry) tr (stage tr0 good).
Proof.
  intros Hu. unfold payment_required, lightning_challenge. apply post_then.
  assert (∀ o tr', untried tr' → Flow.post (guarded req)
    (if is_none (PaymentPolicy_challenge <$> payment site) && is_none o
     then refuse req ctx 503 "Lightning challenge unavailable." [("Retry-After", "1"); no_store]
     else refuse req ctx 402
       (if is_some retry then "Payment required, or wait for the free allowance."
        else "Payment required.")
       (no_store :: opt_header "Retry-After" retry
        ++ opt_header "X-Cashu" (PaymentPolicy_challenge <$> payment site)
        ++ opt_header "PAYMENT-REQUIRED" (o ≫= Service.ch_x402)
        ++ opt_header "WWW-Authenticate" (o ≫= Service.ch_l402))) tr' (stage tr0 good)) as Hend.
  { intros o tr' Hu'. destruct (is_none _ && is_none o); by apply post_refuse'. }
  destruct (lightning site) as [policy|]; [|by apply Hend].
  destruct (has_lightning srv); [|by apply Hend].
  destruct (lightning_binding _ _ _ _) as [[url hash]|e]; [|by apply Hend].
  apply post_then, post_perform; [done|]. intros r. apply Hend; snoc.
Qed.

Lemma free_stage ctx domain site tr :
  untried tr → (payment site = None ∨ get_all "x-cashu" (req_headers req) = []) →
  no_l402 req site → no_x402 req site →
  post (free_allowance srv req ctx site) tr
    (stage tr (λ tr' ctx', entitled srv req domain site tr' ∧ carries srv req site ctx tr' ctx')).
Proof.
  intros Hu Hnone Hn1 Hn2. unfold free_allowance.
  destruct (rate_limit site) as [limiter|] eqn:Hrl; cbn [is_none is_some negb andb orb].
  - unfold need_client. destruct (client_ip req) as [ip|] eqn:Hip; [|by split; [|apply untried_unpaid]].
    apply post_then, post_then, post_perform; [done|]. intros [[]|w]; cbn [is_some orb].
    + split; [|grow]. split; [|done]. eapply ent_free; try done. set_solver.
    + assert (untried (tr ++ [Ev (CheckLimiter limiter ip) (Err w)])) by snoc.
      destruct (is_some (payment site) || is_some (lightning site)); [|by apply post_refuse'].
      by apply payment_required_stage.
  - destruct (is_some (payment site) || is_some (lightning site)) eqn:Hpl.
    + destruct (is_none (payment site) && is_none (lightning site)) eqn:Hn.
      { by destruct (payment site), (lightning site). }
      unfold need_client. destruct (client_ip req) as [ip|] eqn:Hip; [|by split; [|apply untried_unpaid]].
      apply post_then. cbn [is_some orb]. by apply payment_required_stage.
    + apply orb_false_iff in Hpl as [Hp Hl]. unfold is_none. rewrite Hp, Hl. cbn [negb andb].
      split; [|done]. split; [|done].
      by destruct (payment site) eqn:?, (lightning site) eqn:?; [..|apply ent_open].
Qed.

Lemma let_in_stage ctx domain site l402 ln tr :
  untried tr → routed req tr domain site →
  (payment_attempt req site = true → verified req tr site) →
  acquired req tr site (ctx_capacity ctx) → found_l402 site l402 → found_x402 site ln →
  alone site l402 →
  post (let_in srv req ctx domain site l402 ln) tr
    (stage tr (λ tr' ctx', entitled srv req domain site tr' ∧ carries srv req site ctx tr' ctx')).
Proof.
  intros Hu Hr Hv Ha Hl402 Hx402 Hm. unfold let_in.
  destruct (match l402 with Some e => Some e | None => ln end) as [encoded|] eqn:He.
  - destruct (lightning site) as [policy|] eqn:Hl; [|by split; [|apply untried_unpaid]].
    apply (pay_lightning_stage ctx domain site policy l402 ln); try done.
    + apply Hv. unfold payment_attempt. rewrite Hl. apply orb_true_iff. right. simpl.
      destruct l402 as [cr|].
      * destruct Hl402 as [-> (v & Hg & _)]. simpl.
        rewrite (contains_key_get_all "authorization"), Hg. by rewrite orb_true_r.
      * subst ln. destruct Hx402 as [_ (_ & v & Hg & _)].
        by rewrite (contains_key_get_all "payment-signature"), Hg.
  - destruct l402; [done|]. subst ln.
    destruct (payment site) as [policy|] eqn:Hp; [|apply free_stage; auto].
    destruct (head _) as [value|] eqn:Hh; [|apply free_stage; try done; right; by destruct (get_all _ _)].
    apply (pay_cashu_stage ctx domain site policy); try done. apply Hv.
    unfold payment_attempt. rewrite Hp. simpl.
    rewrite contains_key_get_all. by destruct (get_all "x-cashu" (req_headers req)).
Qed.
Lemma filter_post ctx :
  post (filter_stages srv req ctx) [] (stage [] (λ tr e, ∃ domain site c,
    e = finish req c site ∧ routed req tr domain site ∧ srv_tls srv = https site ∧ fits req site ∧
    (acquired req tr site (ctx_capacity c) ∧
     receipted srv req site (lightning_receipt ctx) tr (lightning_receipt c)) ∧ entitled srv req domain site tr)).
Proof.
  unfold filter_stages. eapply post_stage; [apply route_stage|].
  intros tr1 [[ctx1 domain] site] (Hu1 & Hr1 & Hc1) _.
  eapply post_stage; [by apply check_scheme_stage|]. intros tr2 [] (Hu2 & Htls) Hs2.
  eapply post_stage; [by apply controlled_stage|].
  intros tr3 ctx3 (Hu3 & Hfit & Hv3 & Ha3 & Hc3) Hs3.
  eapply post_stage; [by apply l402_header_stage|]. intros tr4 l402 (-> & Hl402) _.
  eapply post_stage; [by apply check_methods_stage|]. intros tr5 [] (-> & Hm) _.
  eapply post_stage; [by apply lightning_header_stage|]. intros tr6 ln (-> & Hx402) _.
  assert (routed req tr3 domain site) as Hr3 by (eapply routed_mono; [|exact Hr1]; by etrans).
  eapply post_stage; [by apply (let_in_stage ctx3 domain site l402 ln)|].
  intros tr7 ctx7 (Hent & Hcap & Hrec) Hs7. split; [|done].
  exists domain, site, ctx7. split_and!; try done.
  - by eapply routed_mono.
  - rewrite Hcap. by eapply acquired_mono.
  - by rewrite <- Hc1, <- Hc3.
Qed.

Lemma request_filter_post ctx :
  Flow.post (guarded req) (request_filter srv req ctx) [] (λ tr e,
    (served e.2 = false ∧ unpaid tr) ∨
    ∃ domain site c, e = finish req c site ∧ routed req tr domain site ∧
      srv_tls srv = https site ∧ fits req site ∧
      (acquired req tr site (ctx_capacity c) ∧
       receipted srv req site (lightning_receipt ctx) tr (lightning_receipt c)) ∧ entitled srv req domain site tr).
Proof.
  unfold request_filter. apply post_bind. eapply post_mono; [|apply filter_post].
  intros tr [e|e]; simpl; [intros [? _]; by right|by left].
Qed.
End stages.

Lemma finish_capacity req c site : ctx_capacity (finish req c site).1 = ctx_capacity c.
Proof. unfold finish, answer. by destruct (handler site). Qed.

(** ** Handed to the site *)

(** What it is for a site to serve a request, said without the code: its backend
    gets the request, each header as it was sent except the three that can carry
    payments, or the client gets the site's own status and text, the text left out
    only where HTTP has none. *)
Inductive handed (req : Request) (site : Site) : Exit → Prop :=
| handed_backend ctx u hs :
    handler site = Proxy u → ctx_site ctx = Some site →
    (∀ name, name ∉ ["authorization"; "payment-signature"; "x-cashu"] →
       get_all name hs = get_all name (req_headers req)) →
    handed req site (ctx, Forward hs)
| handed_static ctx text code r :
    handler site = Respond text code → status r = code →
    (resp_body r = Some text ∨
     resp_body r = None ∧ (method req = "HEAD" ∨ code ∈ [204; 205; 304] ∨ text = "")) →
    handed req site (ctx, Answer SiteHandler r).

Lemma handed_served req site e : handed req site e → served e.2 = true.
Proof. by intros [| ]. Qed.

Lemma strip_credentials_keeps site hs name :
  name ∉ ["authorization"; "payment-signature"; "x-cashu"] →
  get_all name (strip_credentials site hs) = get_all name hs.
Proof.
  intros Hn. unfold strip_credentials.
  assert (∀ h n, to_ascii_lowercase n ∈ ["authorization"; "payment-signature"; "x-cashu"] →
    get_all name (remove_header n h) = get_all name h) as Hr.
  { intros h n Hin. apply get_all_remove_ne. by intros ->. }
  destruct (l402_enabled site), (pays site); rewrite ?Hr; try done; set_solver.
Qed.

Lemma insert_headers_visible `{!HeaderValueLaws} hs acc :
  Forall (λ h, bytes_all visible h.2 = true) hs → ∃ acc', insert_headers hs acc = Ok acc'.
Proof.
  revert acc. induction hs as [|[n v] hs IH]; intros acc; [by eexists|].
  intros [Hv Hhs]%Forall_cons. simpl in *. destruct (insert_header_visible n v acc Hv) as [acc' ->].
  by apply IH.
Qed.
Lemma show_visible n : 0 ≤ n → bytes_all visible (show n) = true.
Proof.
  intros Hn. destruct (show_digits n Hn) as (_ & _ & _ & Hd). eapply bytes_all_impl; [|exact Hd].
  intros c. unfold visible, is_ascii_digit, in_range. rewrite orb_true_iff, !andb_true_iff, !Z.leb_le. lia.
Qed.
Lemma answer_static `{!HeaderValueLaws} req ctx code text hs :
  Forall (λ h, bytes_all visible h.2 = true) hs →
  ∃ r, answer SiteHandler req ctx code text hs = (ctx, Answer SiteHandler r) ∧ status r = code ∧
    (resp_body r = Some text ∨
     resp_body r = None ∧ (method req = "HEAD" ∨ code ∈ [204; 205; 304] ∨ text = "")).
Proof.
  intros Hv. unfold answer, respond_with_headers.
  destruct (insert_header_visible "Content-Type" "text/plain; charset=utf-8" []) as [h1 ->]; [done|]. simpl.
  destruct (insert_header_visible "Content-Length" (show (Z.of_nat (slen text))) h1) as [h2 Hlen];
    [apply show_visible; lia|].
  assert (∃ h, (if (code =? 204) || (code =? 304) then Ok h1
    else insert_header "Content-Length" (show (Z.of_nat (slen text))) h1) = Ok h) as [h ->]
    by (destruct (_ || _); eauto).
  simpl. destruct (insert_headers_visible hs h Hv) as [h' ->]. simpl. eexists. split; [done|]. split; [done|].
  simpl. destruct (_ || bool_decide (text = "")) eqn:E; [right|by left]. split; [done|].
  rewrite !orb_true_iff, !bool_decide_eq_true, !Z.eqb_eq in E. set_solver.
Qed.

(** A request that is let in is handed to its site, if its receipt can be a header. *)
Lemma finish_handed `{!HeaderValueLaws} req c site :
  (∀ v, lightning_receipt c = Some v → bytes_all visible v = true) → handed req site (finish req c site).
Proof.
  intros Hr. unfold finish. destruct (handler site) as [u|text code] eqn:Hh.
  - eapply handed_backend; [done|done|]. apply strip_credentials_keeps.
  - edestruct (answer_static req c code text) as (r & -> & Hs & Hb); [|by eapply handed_static].
    apply Forall_app. split; [by destruct (pays site); repeat constructor|].
    destruct (lightning_receipt c); repeat constructor. by apply Hr.
Qed.

(** The receipts of a run can be headers. *)
Definition receipts_visible (tr : trace) : Prop :=
  ∀ p h e v, Ev (Settle p h e) (Ok v) ∈ tr → bytes_all visible v = true.

(** C2: no request reaches a site without being entitled to.  Whenever
    [request_filter] lets a request through to the backend or gives it the site's
    static response, whatever the services answered: the site is the one the
    configuration in force has for the request's host, the listener's scheme is
    the site's, the declared body length is within its limit, the capacity permit
    was obtained and is held by the request, and the site is free of charge, or the
    client was within its allowance and sent no payment, or the one payment in the
    headers, with no payment of another method beside it, was accepted for this
    site, over a secure connection, and for Lightning under the hash of this very
    request. *)
Theorem served_is_entitled srv req ctx tr ctx' o :
  steps (request_filter srv req ctx) tr (Done (ctx', o)) → served o = true →
  ∃ domain site,
    routed req tr domain site ∧ srv_tls srv = https site ∧ fits req site ∧
    acquired req tr site (ctx_capacity ctx') ∧ entitled srv req domain site tr.
Proof.
  intros Hs Ho. pose proof (post_steps _ _ [] _ _ _ (request_filter_post srv req ctx) Hs)
    as [[Hn _]|(domain & site & c & He & Hr & Ht & Hf & [Ha _] & Hent)]; simpl in *; [congruence|].
  exists domain, site. pose proof (finish_capacity req c site) as Hc. rewrite <- He in Hc. simpl in Hc.
  rewrite Hc. done.
Qed.

(** C14: a payment that was taken buys the request.  If any of the payment services
    reported a settlement during the filter of a new request, the request is
    served: it is forwarded to the backend of the site its host names, each header as
    it was sent except the payment ones, or answered with that site's own status and
    text; it is never refused, and the filter never fails, after paying.  The receipt of
    an x402 settlement is taken to be visible ASCII, which header values may be. *)
Theorem paid_is_served `{!HeaderValueLaws} srv req now tr e :
  steps (request_filter srv req (new_ctx now)) tr (Done e) →
  (∃ ev, ev ∈ tr ∧ paid_event ev = true) → receipts_visible tr →
  served e.2 = true ∧ ∃ domain site, routed req tr domain site ∧ handed req site e.
Proof.
  intros Hs (ev & Hin & Hp) Hv. pose proof (post_steps _ _ [] _ _ _ (request_filter_post srv req _) Hs)
    as [[_ Hu]|(domain & site & c & -> & Hr & _ & _ & [_ Hrec] & _)]; simpl in *.
  - eapply Forall_forall in Hu; [|exact Hin]. congruence.
  - assert (handed req site (finish req c site)) as Hh.
    { apply finish_handed. intros v E. destruct (Hrec v E) as [|(p & url & h & e & _ & _ & _ & Hset)]; [done|].
      by eapply Hv. }
    split; [by eapply handed_served|]. by exists domain, site.
Qed.

(** C15: settlement attempts are gated and single.  At every point of every run,
    finished or not, a payment service is asked to settle only after the site's
    verification limiter admitted the client and its capacity permit was obtained,
    and a request asks at most once. *)
Theorem attempts_are_gated srv req ctx tr q :
  steps (request_filter srv req ctx) tr q →
  ∀ tr1 e tr2, tr = tr1 ++ e :: tr2 → attempt_event e = true →
    untried tr1 ∧ untried tr2 ∧
    ∃ domain site permit,
      routed req tr1 domain site ∧ verified req tr1 site ∧ acquired req tr1 site permit.
Proof.
  intros Hs tr1 e tr2 -> Ha.
  pose proof (post_calls _ _ _ [] _ _ (request_filter_post srv req ctx) Hs) as Hc.
  assert (match e with Ev c _ => guarded req tr1 _ c end) as Hg by (by apply (Hc tr1 e tr2)).
  destruct e as [X c x]. destruct (Hg Ha) as [Hu Hrest]. split_and!; [done| |done].
  apply Forall_forall. intros e' [tr3 [tr4 ->]]%list_elem_of_split.
  destruct (attempt_event e') eqn:Ha'; [|done].
  assert (match e' with Ev c' _ => guarded req (tr1 ++ Ev c x :: tr3) _ c' end) as Hg'.
  { apply (Hc (tr1 ++ Ev c x :: tr3) e' tr4). by rewrite <- app_assoc. }
  destruct e' as [X' c' x']. destruct (Hg' Ha') as [Hu' _].
  apply Forall_app in Hu' as [_ Hu']. apply Forall_cons in Hu' as [Hu' _]. simpl in *. congruence.
Qed.
End admission.

(** ** A paid request *)

Module Examples.
Import Toy.
#[export] Instance all_values : HeaderValues := λ _, true.
#[export] Instance all_values_laws : HeaderValueLaws.
Proof. done. Qed.
#[export] Instance plain_requests : PaymentRequests := λ amount mint _, mint +:+ show amount.

Definition example_limiter (id : nat) : LimiterRef :=
  {| lr_id := id; lr_limit := {| Rate.per_second := 2; Rate.burst := 8 |}; lr_prefix := 64 |}.
Definition example_upstream : Upstream :=
  {| host := "127.0.0.1"; port := 3000; tls := false; authority := "127.0.0.1:3000" |}.
Definition example_site : Site :=
  {| domain := "shop.example"; https := true; handler := Proxy example_upstream;
     rate_limit := Some (example_limiter 0);
     payment := Some {| Terms.price := 4; Terms.mint := "https://mint.example" |};
     lightning := None;
     capacity := Some {| cr_id := 1; cr_settings := {| Cap.max := 128; Cap.ipv6_prefix := 64; Cap.per_client := 64 |} |};
     controls := RequestControls_default; payment_verification := example_limiter 2 |}.
Definition example_config : Config := {| sites := {["shop.example" := example_site]}; payouts := [] |}.
Definition example_server : Server :=
  {| srv_tls := true; https_port := 443; has_payments := true; has_lightning := true |}.
Definition example_request : Request :=
  {| method := "GET"; uri_scheme := None; uri_authority := None; uri_path := "/report";
     path_and_query := Some "/report";
     req_headers := [("host", "Shop.Example"); ("x-cashu", "cashuBtoken"); ("accept", "*/*")];
     client_ip := Some (V4 3221226001); body := []; retry_buffer_truncated := false |}.

(** Services that accept everything. *)
Definition generous (X : Type) (c : Cmd X) : X :=
  match c in Cmd X return X with
  | LoadConfig => example_config
  | ReadChallenge _ _ => None
  | CheckRedirect _ => Ok tt
  | SetDeadline _ => tt
  | CheckLimiter _ _ => Ok tt
  | TryAcquire _ ip => Some ip
  | Settle _ _ _ => Ok "receipt"
  | SettleL402 _ _ _ => Ok tt
  | Collect _ _ _ => Ok tt
  | MakeChallenge _ _ _ _ => Err "none"
  end.
Definition example_filter : proc Cmd Exit := request_filter example_server example_request (new_ctx 0).
Definition example_trace : list (event Cmd) := (follow generous example_filter).1.
Definition example_exit : Exit := (follow generous example_filter).2.

Lemma example_steps : steps example_filter example_trace (Done (example_exit.1, example_exit.2)).
Proof. rewrite <- surjective_pairing. apply follow_steps. Qed.

Lemma served_is_entitled_witness :
  example_exit.2 = Forward [("host", "Shop.Example"); ("accept", "*/*")] ∧
  ∃ domain site,
    routed example_request example_trace domain site ∧ srv_tls example_server = https site ∧
    fits example_request site ∧
    acquired example_request example_trace site (ctx_capacity example_exit.1) ∧
    entitled example_server example_request domain site example_trace.
Proof.
  split; [vm_compute; reflexivity|].
  refine (served_is_entitled example_server example_request (new_ctx 0) example_trace _ _ example_steps _).
  vm_compute. reflexivity.
Defined.

Lemma paid_is_served_witness :
  served example_exit.2 = true ∧
  ∃ domain site, routed example_request example_trace domain site ∧ handed example_request site example_exit.
Proof.
  refine (paid_is_served example_server example_request 0 example_trace _ (follow_steps _ _) _ _).
  - exists (Ev (Collect "shop.example" {| Terms.price := 4; Terms.mint := "https://mint.example" |} "cashuBtoken") (Ok tt)).
    split; [|reflexivity]. vm_compute. repeat (constructor || apply list_elem_of_further).
  - intros p h e v Hin. apply list_elem_of_In in Hin. vm_compute in Hin.
    repeat (destruct Hin as [Hin|Hin]; [discriminate Hin|]). destruct Hin.
Defined.

Lemma attempts_are_gated_witness :
  ∃ tr1 e tr2, example_trace = tr1 ++ e :: tr2 ∧ length tr1 = 4%nat ∧
    untried tr1 ∧ untried tr2 ∧
    ∃ domain site permit, routed example_request tr1 domain site ∧
      verified example_request tr1 site ∧ acquired example_request tr1 site permit.
Proof.
  eexists (take 4 example_trace), (Ev (Collect "shop.example"
    {| Terms.price := 4; Terms.mint := "https://mint.example" |} "cashuBtoken") (Ok tt)), [].
  assert (example_trace = take 4 example_trace ++ [Ev (Collect "shop.example"
    {| Terms.price := 4; Terms.mint := "https://mint.example" |} "cashuBtoken") (Ok tt)]) as E
    by (vm_compute; reflexivity).
  split; [exact E|]. split; [vm_compute; reflexivity|].
  refine (attempts_are_gated example_server example_request (new_ctx 0) example_trace _ example_steps
    _ _ _ E _). reflexivity.
Defined.
End Examples.
End Admission.
