(* ===== verification/Upstream.v ===== *)
(** * After the filter ([proxy.rs])

    The hooks pingora calls for a request that was let through: the backend
    address and its retries, the headers the backend sees, the bytes of the body,
    the headers the client sees, and the accounting of what was not served. *)
From S2P Require Import Prelude Text Net Effects Extern Flow RateLimit Capacity Cdk Terms LnPolicy Http Payments Payout Config LnProof LnStore Proxy Admission Models.
#[local] Open Scope string_scope.
#[local] Open Scope list_scope.
#[local] Open Scope Z_scope.

Module Upstream.
Import Conf Http Front.

(** ** Backend addresses *)

Record Peer := { p_address : SocketAddr; p_tls : bool; p_sni : string }.
(** What the lookup of the backend's name gives, within its five seconds. *)
Inductive Lookup := Resolved (l : list SocketAddr) | LookupFailed | LookupTimedOut.

Definition resolve (lookup : Lookup) (ctx : RequestContext) : result anyhow RequestContext :=
  if bool_decide (length (addresses ctx) = 0%nat) then
    match lookup with
    | Resolved l => Ok (with_addresses (take 8 l) (address_index ctx) ctx)
    | LookupFailed => Err "backend DNS lookup failed"
    | LookupTimedOut => Err "backend DNS lookup timed out"
    end
  else Ok ctx.

Definition upstream_peer (lookup : Lookup) (ctx : RequestContext) :
    RequestContext * result anyhow Peer :=
  match ctx_site ctx with
  | None => (ctx, Err "request has no route")
  | Some site =>
      match handler site with
      | Respond _ _ => (ctx, Err "static response has no upstream")
      | Proxy upstream =>
          match resolve lookup ctx with
          | Err e => (ctx, Err e)
          | Ok ctx =>
              (ctx, match addresses ctx !! address_index ctx with
                    | None => Err "backend has no addresses"
                    | Some a => Ok {| p_address := a; p_tls := tls upstream; p_sni := host upstream |}
                    end)
          end
      end
  end.

(** The flag is [error.set_retry(..)]. *)
Definition fail_to_connect (ctx : RequestContext) : RequestContext * bool :=
  let ctx := with_addresses (addresses ctx) (S (address_index ctx)) ctx in
  (ctx, (address_index ctx <? length (addresses ctx))%nat).

(** A backend that refuses every connection: the addresses tried, the [i]-th lookup
    being [lookup i], for at most [fuel] retries. *)
Fixpoint connect (lookup : nat → Lookup) (i fuel : nat) (ctx : RequestContext) : list SocketAddr :=
  let '(ctx, r) := upstream_peer (lookup i) ctx in
  match r with
  | Err _ => []
  | Ok peer =>
      let '(ctx, retry) := fail_to_connect ctx in
      p_address peer ::
      match fuel with
      | O => []
      | S fuel => if retry then connect lookup (S i) fuel ctx else []
      end
  end.

Lemma connect_from lookup i fuel ctx site u :
  ctx_site ctx = Some site → handler site = Proxy u →
  (address_index ctx < length (addresses ctx))%nat →
  (length (addresses ctx) ≤ address_index ctx + S fuel)%nat →
  connect lookup i fuel ctx = drop (address_index ctx) (addresses ctx).
Proof.
  intros Hs Hh. revert i ctx Hs. induction fuel as [|fuel IH]; intros i ctx Hs Hi Hf;
    cbn [connect]; unfold upstream_peer, resolve; rewrite Hs, Hh;
    rewrite bool_decide_eq_false_2 by lia;
    (destruct (addresses ctx !! address_index ctx) as [a|] eqn:Ha;
      [|apply lookup_ge_None in Ha; lia]); cbn [fst snd fail_to_connect p_address];
    rewrite (drop_S _ _ _ Ha); f_equal.
  - rewrite drop_ge by lia. done.
  - cbn [addresses address_index with_addresses].
    destruct (S (address_index ctx) <? length (addresses ctx))%nat eqn:E.
    + rewrite Nat.ltb_lt in E. rewrite (IH (S i)); simpl; [done|done|done|lia].
    + rewrite Nat.ltb_ge in E. by rewrite drop_ge.
Qed.

(** C40: a backend that refuses connections is tried at each of its first eight
    addresses once, in the order of the lookup, and then the request fails: the
    retries end, the name is resolved once, and an address is never tried twice. *)
Theorem each_address_tried_once lookup ctx site u l fuel :
  ctx_site ctx = Some site → handler site = Proxy u → addresses ctx = [] →
  address_index ctx = 0%nat → lookup 0%nat = Resolved l → (8 ≤ fuel)%nat →
  connect lookup 0 fuel ctx = take 8 l.
Proof.
  intros Hs Hh Ha Hi Hl Hf.
  destruct (decide (take 8 l = [])) as [Hn|Hn].
  - destruct fuel; cbn [connect]; unfold upstream_peer, resolve;
      rewrite Hs, Hh, Ha, Hl, bool_decide_eq_true_2, Hi by done;
      cbn [addresses address_index with_addresses]; by rewrite Hn.
  - transitivity (connect lookup 0 fuel (with_addresses (take 8 l) 0 ctx)).
    + destruct fuel; cbn [connect]; unfold upstream_peer, resolve;
        cbn [ctx_site with_addresses addresses address_index];
        rewrite Hs, Hh, Ha, Hl, bool_decide_eq_true_2, Hi by done;
        (rewrite bool_decide_eq_false_2; [done|by destruct (take 8 l)]).
    + rewrite (connect_from _ _ _ _ site u); try done; cbn [addresses address_index with_addresses].
      * destruct (take 8 l); [done|simpl; lia].
      * rewrite length_take. lia.
Qed.

Section hooks.
Context `{HeaderValues}.

(** ** The headers the backend sees *)

Definition forwarding_headers : list string :=
  ["forwarded"; "x-forwarded-for"; "x-forwarded-host"; "x-forwarded-proto"; "x-forwarded-port";
   "x-real-ip"].
Definition remove_all (names : list string) (hs : HeaderMap) : HeaderMap :=
  fold_left (λ hs name, remove_header name hs) names hs.
Definition ctx_pays (ctx : RequestContext) : bool := is_some_and pays (ctx_site ctx).
Definition ctx_l402 (ctx : RequestContext) : bool := is_some_and l402_enabled (ctx_site ctx).

Definition upstream_request_filter (srv : Server) (client : option IpAddr) (ctx : RequestContext)
    (request : HeaderMap) : result anyhow HeaderMap :=
  let hs := if ctx_pays ctx then remove_header "payment-signature" (remove_header "X-Cashu" request)
            else request in
  let hs := if ctx_l402 ctx then remove_header "authorization" hs else hs in
  let hs := remove_all forwarding_headers hs in
  hs ← match client with
       | Some ip => hs ← insert_header "X-Forwarded-For" (show_ip ip) hs;
                    insert_header "X-Real-IP" (show_ip ip) hs
       | None => Ok hs
       end;
  hs ← insert_header "X-Forwarded-Proto" (scheme_of (srv_tls srv)) hs;
  hs ← insert_header "X-Forwarded-Host" (ctx_host ctx) hs;
  match handler <$> ctx_site ctx with
  | Some (Proxy upstream) =>
      insert_header "Host" (if tls upstream then authority upstream else ctx_host ctx) hs
  | _ => Ok hs
  end.

(** ** The body *)

(** [upgraded]: the answer of the backend was a 101. *)
Definition request_body_filter (upgraded : bool) (chunk : option string) (ctx : RequestContext) :
    RequestContext * result anyhow unit :=
  if upgraded then (ctx, Ok tt)
  else
    let ctx := with_body_bytes
      (u64_sat_add (body_bytes ctx) (match chunk with Some b => Z.of_nat (slen b) | None => 0 end)) ctx in
    (ctx, if is_some_and (λ max, max <? body_bytes ctx)
               (ctx_site ctx ≫= λ site, max_body_bytes (controls site))
          then Err "request body too large" else Ok tt).

(** The chunks of a body until one is refused: those that pass, and the verdict. *)
Fixpoint body_run (chunks : list (option string)) (ctx : RequestContext) :
    list (option string) * result anyhow unit :=
  match chunks with
  | [] => ([], Ok tt)
  | chunk :: chunks' =>
      let '(ctx, r) := request_body_filter false chunk ctx in
      match r with
      | Err e => ([], Err e)
      | Ok _ => let '(passed, verdict) := body_run chunks' ctx in (chunk :: passed, verdict)
      end
  end.
Definition chunk_len (c : option string) : Z :=
  match c with Some b => Z.of_nat (slen b) | None => 0 end.
Definition total (chunks : list (option string)) : Z := foldr (λ c n, chunk_len c + n) 0 chunks.

(** ** The headers the client sees *)

Definition response_filter (ctx : RequestContext) (response : HeaderMap) : result anyhow HeaderMap :=
  if ctx_pays ctx then
    hs ← insert_header "Cache-Control" "no-store" response;
    let hs := remove_header "payment-response" hs in
    match lightning_receipt ctx with
    | Some receipt => insert_header "PAYMENT-RESPONSE" receipt hs
    | None => Ok hs
    end
  else Ok response.

(** ** Theorems *)

Lemma get_all_remove_all name names hs :
  Forall (λ n, to_ascii_lowercase n = n) names →
  get_all name (remove_all names hs) = if bool_decide (name ∈ names) then [] else get_all name hs.
Proof.
  intros Hn. unfold remove_all. revert hs. induction Hn as [|n names Hlow Hn IH]; intros hs;
    [by rewrite bool_decide_eq_false_2 by apply not_elem_of_nil|].
  cbn [fold_left]. rewrite IH. destruct (bool_decide_reflect (name ∈ names)) as [Hin|Hin].
  - rewrite bool_decide_eq_true_2 by set_solver. done.
  - destruct (decide (name = n)) as [->|Hne].
    + rewrite bool_decide_eq_true_2 by set_solver. rewrite <- Hlow at 1. apply get_all_remove.
    + rewrite bool_decide_eq_false_2 by set_solver. apply get_all_remove_ne. congruence.
Qed.

(** The names a client must not be able to set for the backend: the forwarding
    headers, listed here by themselves; on a site that takes payments the payment
    headers; on one that takes L402 the credentials. *)
Definition dropped (ctx : RequestContext) (name : string) : bool :=
  bool_decide (name ∈ ["forwarded"; "x-forwarded-for"; "x-forwarded-host"; "x-forwarded-proto";
                       "x-forwarded-port"; "x-real-ip"])
  || match ctx_site ctx with
     | Some site =>
         (is_some (payment site) || is_some (lightning site))
           && bool_decide (name ∈ ["x-cashu"; "payment-signature"])
         || match lightning site with
            | Some policy => Ln.l402 (Ln.protocols policy) && bool_decide (name = "authorization")
            | None => false
            end
     | None => false
     end.

Lemma dropped_spec ctx name :
  dropped ctx name = bool_decide (name ∈ forwarding_headers)
    || (ctx_pays ctx && bool_decide (name ∈ ["x-cashu"; "payment-signature"]))
    || (ctx_l402 ctx && bool_decide (name = "authorization")).
Proof.
  unfold dropped, ctx_pays, ctx_l402, pays, l402_enabled. rewrite <- orb_assoc.
  destruct (ctx_site ctx) as [site|]; [|done]. cbn [is_some_and]. by destruct (lightning site).
Qed.

Lemma get_all_cleaned ctx request name :
  get_all name (remove_all forwarding_headers
    (let hs := if ctx_pays ctx then remove_header "payment-signature" (remove_header "X-Cashu" request)
               else request in
     if ctx_l402 ctx then remove_header "authorization" hs else hs)) =
  if dropped ctx name then [] else get_all name request.
Proof.
  rewrite get_all_remove_all by (repeat constructor). rewrite dropped_spec.
  destruct (bool_decide (name ∈ forwarding_headers)); [done|]. cbn [orb]. cbv zeta.
  assert (∀ n hs, get_all name (remove_header n hs) =
    if bool_decide (name = to_ascii_lowercase n) then [] else get_all name hs) as Hr.
  { intros n hs. case_bool_decide as E; [subst; apply get_all_remove|by apply get_all_remove_ne]. }
  assert (bool_decide (name ∈ ["x-cashu"; "payment-signature"]) =
    bool_decide (name = "payment-signature") || bool_decide (name = "x-cashu")) as ->.
  { repeat case_bool_decide; set_solver. }
  change "authorization" with (to_ascii_lowercase "authorization") at 2.
  change "payment-signature" with (to_ascii_lowercase "payment-signature") at 3.
  change "x-cashu" with (to_ascii_lowercase "X-Cashu").
  destruct (ctx_l402 ctx), (ctx_pays ctx); rewrite ?Hr; cbn [andb orb];
    repeat case_bool_decide; done.
Qed.

(** What the proxy itself says about the client and the host. *)
Definition own_headers (srv : Server) (client : option IpAddr) (ctx : RequestContext) :
    list (string * list string) :=
  (match client with
   | Some ip => [("x-forwarded-for", [show_ip ip]); ("x-real-ip", [show_ip ip])]
   | None => [("x-forwarded-for", []); ("x-real-ip", [])]
   end)
  ++ [("x-forwarded-proto", [if srv_tls srv then "https" else "http"]); ("x-forwarded-host", [ctx_host ctx])]
  ++ match handler <$> ctx_site ctx with
     | Some (Proxy u) => [("host", [if tls u then authority u else ctx_host ctx])]
     | _ => []
     end.

Definition insert_get (name value other : string) (old : list string) : list string :=
  if bool_decide (other = to_ascii_lowercase name) then [value] else old.
Lemma get_all_inserted name value hs hs' other :
  insert_header name value hs = Ok hs' →
  get_all other hs' = insert_get name value other (get_all other hs).
Proof.
  intros Hi. unfold insert_get. case_bool_decide as E.
  - subst. by eapply get_all_insert.
  - by eapply get_all_insert_ne.
Qed.

(** C38: the backend sees no credentials and no forged forwarding chain.  In the
    request sent to the backend each name has: the values the proxy sets itself
    for the client address, scheme and host, exactly once each; nothing at all for
    payment tokens of a site that takes payments, for L402 credentials, and for the
    forwarding headers sent by the client ([Forwarded], [X-Forwarded-For], [-Host],
    [-Proto] and [-Port], [X-Real-IP]); and the client's own values, in order, for
    every other name. *)
Theorem forwarded_headers srv client ctx request sent :
  upstream_request_filter srv client ctx request = Ok sent →
  ∀ name, get_all name sent =
    match list_find (λ e, e.1 = name) (own_headers srv client ctx) with
    | Some (_, e) => e.2
    | None => if dropped ctx name then [] else get_all name request
    end.
Proof.
  intros Hf name. unfold upstream_request_filter in Hf. cbv zeta in Hf.
  pose proof (get_all_cleaned ctx request name) as Hc. cbv zeta in Hc.
  remember (remove_all forwarding_headers _) as cleaned eqn:Ec. clear Ec.
  apply bind_Ok in Hf as (h1 & H1 & Hf). apply bind_Ok in Hf as (h2 & H2 & Hf).
  apply bind_Ok in Hf as (h3 & H3 & Hf).
  assert (get_all name h1 = match client with
    | Some ip => insert_get "X-Real-IP" (show_ip ip) name
                   (insert_get "X-Forwarded-For" (show_ip ip) name (get_all name cleaned))
    | None => get_all name cleaned end) as E1.
  { destruct client; [|by injection H1 as <-]. apply bind_Ok in H1 as (h0 & H0 & H1).
    by rewrite (get_all_inserted _ _ _ _ _ H1), (get_all_inserted _ _ _ _ _ H0). }
  pose proof (get_all_inserted _ _ _ _ name H2) as E2.
  pose proof (get_all_inserted _ _ _ _ name H3) as E3.
  assert (get_all name sent = match handler <$> ctx_site ctx with
    | Some (Proxy u) => insert_get "Host" (if tls u then authority u else ctx_host ctx) name (get_all name h3)
    | _ => get_all name h3 end) as ->.
  { destruct (handler <$> ctx_site ctx) as [[u|]|]; [|by injection Hf as <-..].
    by rewrite (get_all_inserted _ _ _ _ _ Hf). }
  rewrite E3, E2, E1, Hc. clear.
  assert (∀ n, n ∈ forwarding_headers → name = n → dropped ctx name = true) as Hd.
  { intros n Hn ->. rewrite dropped_spec. by rewrite bool_decide_eq_true_2. }
  unfold own_headers, insert_get.
  change (to_ascii_lowercase "Host") with "host".
  change (to_ascii_lowercase "X-Forwarded-Host") with "x-forwarded-host".
  change (to_ascii_lowercase "X-Forwarded-Proto") with "x-forwarded-proto".
  change (to_ascii_lowercase "X-Real-IP") with "x-real-ip".
  change (to_ascii_lowercase "X-Forwarded-For") with "x-forwarded-for".
  destruct client as [ip|], (handler <$> ctx_site ctx) as [[u|]|]; cbn [app list_find fst snd];
    repeat (case_decide || case_bool_decide); subst; try done; cbn [fmap option_fmap option_map prod_map snd];
    try (by rewrite (Hd _ ltac:(set_solver) eq_refl)).
Qed.

(** Receipts come from the proxy.  A site that takes payments answers with
    [Cache-Control: no-store], and with the receipt of this request's own Lightning
    settlement or none at all, whatever the backend sent; the other headers of the
    backend and the answers of other sites are untouched. *)
Theorem receipts_are_ours ctx response sent :
  response_filter ctx response = Ok sent →
  (ctx_pays ctx = true →
     get_all "cache-control" sent = ["no-store"] ∧
     get_all "payment-response" sent = match lightning_receipt ctx with Some r => [r] | None => [] end ∧
     ∀ name, name ≠ "cache-control" → name ≠ "payment-response" →
       get_all name sent = get_all name response) ∧
  (ctx_pays ctx = false → sent = response).
Proof.
  unfold response_filter. destruct (ctx_pays ctx); intros Hr; split; try done;
    [intros _|intros _; by injection Hr].
  apply bind_Ok in Hr as (h & Hh & Hr). pose proof (λ n, get_all_inserted _ _ _ _ n Hh) as E.
  assert (∀ n, get_all n sent = if bool_decide (n = "payment-response")
    then match lightning_receipt ctx with Some r => [r] | None => [] end else get_all n h) as Es.
  { intros n. destruct (lightning_receipt ctx) as [r|].
    - rewrite (get_all_inserted _ _ _ _ _ Hr). unfold insert_get.
      change (to_ascii_lowercase "PAYMENT-RESPONSE") with "payment-response".
      case_bool_decide; [done|]. by apply (get_all_remove_ne "payment-response").
    - injection Hr as <-. case_bool_decide as En; [subst; apply (get_all_remove "payment-response")|].
      by apply (get_all_remove_ne "payment-response"). }
  unfold insert_get in E. change (to_ascii_lowercase "Cache-Control") with "cache-control" in E.
  split_and!; [by rewrite Es, E|by rewrite Es|]. intros n Hn1 Hn2.
  rewrite Es, bool_decide_eq_false_2 by done. by rewrite E, bool_decide_eq_false_2.
Qed.

Lemma total_nonneg chunks : 0 ≤ total chunks.
Proof. induction chunks as [|[b|] chunks IH]; simpl; [done| |]; unfold chunk_len; lia. Qed.

Lemma body_run_limit chunks ctx site max :
  ctx_site ctx = Some site → max_body_bytes (controls site) = Some max → max < u64_max →
  0 ≤ body_bytes ctx ≤ max →
  let '(passed, verdict) := body_run chunks ctx in
  body_bytes ctx + total passed ≤ max ∧
  (is_ok verdict = true ↔ body_bytes ctx + total chunks ≤ max) ∧
  (is_ok verdict = true → passed = chunks).
Proof.
  intros Hs Hm Hu. revert ctx Hs. induction chunks as [|c chunks IH]; intros ctx Hs Hb.
  { simpl. split_and!; [lia| |done]. split; [lia|done]. }
  cbn [body_run request_body_filter]. fold (chunk_len c).
  assert (0 ≤ chunk_len c) as Hc by (destruct c; simpl; lia).
  pose proof (total_nonneg chunks) as Ht.
  set (ctx' := with_body_bytes (u64_sat_add (body_bytes ctx) (chunk_len c)) ctx).
  replace (ctx_site ctx') with (Some site) by (by rewrite <- Hs).
  cbn [mbind option_bind]. rewrite Hm. cbn [is_some_and].
  assert (body_bytes ctx' = Z.min u64_max (body_bytes ctx + chunk_len c)) as Eb.
  { unfold ctx'. cbn. unfold u64_sat_add. lia. }
  destruct (max <? body_bytes ctx') eqn:E.
  - apply Z.ltb_lt in E. simpl. split_and!; [lia| |done]. split; [done|]. lia.
  - apply Z.ltb_ge in E. specialize (IH ctx' ltac:(done) ltac:(lia)).
    destruct (body_run chunks ctx') as [passed verdict]. destruct IH as (IH1 & IH2 & IH3).
    assert (body_bytes ctx' = body_bytes ctx + chunk_len c) as Eb' by lia.
    cbn [total foldr]. fold (total passed) (total chunks). rewrite Eb' in *.
    split_and!; [lia|rewrite IH2; lia|]. intros Hv. f_equal. auto.
Qed.

(** C39: the body limit is exact.  Of the chunks of a request body, those that
    reach the backend never add up to more than the site's limit, and the whole
    body passes exactly when its length is within the limit, however it is cut
    into chunks. *)
Theorem body_limit_exact chunks ctx site max :
  ctx_site ctx = Some site → max_body_bytes (controls site) = Some max →
  0 ≤ max ≤ u32_max → body_bytes ctx = 0 →
  let '(passed, verdict) := body_run chunks ctx in
  total passed ≤ max ∧
  (is_ok verdict = true ↔ total chunks ≤ max) ∧ (is_ok verdict = true → passed = chunks).
Proof.
  intros Hs Hm Hx Hb. pose proof (body_run_limit chunks ctx site max Hs Hm) as Hr. rewrite Hb in Hr.
  destruct (body_run chunks ctx). apply Hr; widths; lia.
Qed.
End hooks.

(** ** Accounting of rejections *)

(** An [Instant] in nanoseconds. *)
Record RejectionLogs := { last : Z; counts : list Z }.
Definition new_logs (now : Z) : RejectionLogs := {| last := now; counts := replicate 600 0 |}.

Definition nonzero (counts : list Z) : list (nat * Z) :=
  List.filter (λ sc, negb (sc.2 =? 0)) (zip (seq 0 (length counts)) counts).
Definition record (status now : Z) (logs : RejectionLogs) : RejectionLogs * option (list (nat * Z)) :=
  let index := Nat.min (Z.to_nat status) 599 in
  let counts := alter (λ n, u64_sat_add n 1) index (counts logs) in
  if Rate.duration_since now (last logs) <? 10 * 1000000000
  then ({| last := last logs; counts := counts |}, None)
  else ({| last := now; counts := replicate (length counts) 0 |}, Some (nonzero counts)).

(** [logging]: the status that is counted, if the request is not logged itself. *)
Definition logging (written : option Z) (error : bool) : option Z :=
  let status := default 0 written in
  if (400 <=? status) || (status =? 308) || (status =? 0) || error then Some status else None.

(** A history of rejections: the summaries written, with their times. *)
Fixpoint record_run (logs : RejectionLogs) (events : list (Z * Z)) :
    RejectionLogs * list (Z * list (nat * Z)) :=
  match events with
  | [] => (logs, [])
  | (status, now) :: events' =>
      let '(logs, summary) := record status now logs in
      let '(logs, rest) := record_run logs events' in
      (logs, match summary with Some s => (now, s) :: rest | None => rest end)
  end.

(** Events of a status, and what summaries and counters say of it. *)
Definition slot (status : Z) : nat := Nat.min (Z.to_nat status) 599.
Definition events_of (i : nat) (events : list (Z * Z)) : Z :=
  Z.of_nat (length (List.filter (λ e : Z * Z, (slot e.1 =? i)%nat) events)).
Definition reported (i : nat) (s : list (nat * Z)) : Z :=
  foldr (λ e n, (if (e.1 =? i)%nat then e.2 else 0) + n) 0 s.
Definition all_reported (i : nat) (l : list (Z * list (nat * Z))) : Z :=
  foldr (λ s n, reported i s.2 + n) 0 l.

Lemma reported_zip i counts k :
  (k ≤ i)%nat →
  reported i (List.filter (λ sc : nat * Z, negb (sc.2 =? 0)) (zip (seq k (length counts)) counts))
  = default 0 (counts !! (i - k)%nat).
Proof.
  revert k. induction counts as [|c counts IH]; intros k Hk; [done|]. cbn [length seq zip zip_with List.filter snd].
  destruct (decide (k = i)) as [->|Hne].
  - rewrite Nat.sub_diag. simpl.
    assert (∀ k', (i < k')%nat → reported i
      (List.filter (λ sc : nat * Z, negb (sc.2 =? 0)) (zip (seq k' (length counts)) counts)) = 0) as Hz.
    { clear. induction counts as [|c counts IH]; intros k' Hk'; [done|].
      cbn [length seq zip zip_with List.filter snd].
      destruct (negb (c =? 0)); [|apply IH; lia]. cbn [reported foldr fst snd].
      rewrite (proj2 (Nat.eqb_neq k' i)) by lia. apply (IH (S k')). lia. }
    destruct (c =? 0) eqn:E; cbn [negb]; [rewrite Hz by lia; lia|].
    cbn [reported foldr fst snd]. rewrite Nat.eqb_refl. fold (reported i). unfold reported in Hz.
    rewrite Hz by lia. lia.
  - replace (i - k)%nat with (S (i - S k)) by lia.
    change (default 0 ((c :: counts) !! S (i - S k)%nat)) with (default 0 (counts !! (i - S k)%nat)).
    rewrite <- (IH (S k)) by lia. destruct (negb (c =? 0)); [|done].
    cbn [reported foldr fst snd]. by rewrite (proj2 (Nat.eqb_neq k i)).
Qed.

Lemma reported_nonzero i counts : reported i (nonzero counts) = default 0 (counts !! i).
Proof. unfold nonzero. rewrite reported_zip by lia. by rewrite Nat.sub_0_r. Qed.

Definition count (i : nat) (logs : RejectionLogs) : Z := default 0 (counts logs !! i).
Definition logs_ok (logs : RejectionLogs) : Prop :=
  length (counts logs) = 600%nat ∧ ∀ i, 0 ≤ count i logs.

Lemma record_spec status now logs :
  logs_ok logs → (∀ i, count i logs < u64_max) →
  let '(logs', summary) := record status now logs in
  logs_ok logs' ∧ (∀ i, count i logs' ≤ count i logs + 1) ∧
  (∀ i, count i logs' + match summary with Some s => reported i s | None => 0 end
        = count i logs + (if (slot status =? i)%nat then 1 else 0)) ∧
  match summary with
  | Some _ => last logs + 10000000000 ≤ now ∧ last logs' = now
  | None => last logs' = last logs
  end.
Proof.
  intros [Hlen Hpos] Hmax. unfold record, count in *.
  set (cs := alter _ _ (counts logs)).
  assert (length cs = 600%nat) as Hcs by (unfold cs; by rewrite length_alter).
  assert (∀ i, default 0 (cs !! i) = default 0 (counts logs !! i) + (if (slot status =? i)%nat then 1 else 0)) as Hval.
  { intros i. unfold cs, slot. destruct (Nat.eqb_spec (Nat.min (Z.to_nat status) 599) i) as [<-|Hne].
    - rewrite list_lookup_alter_eq.
      destruct (counts logs !! Nat.min (Z.to_nat status) 599) as [n|] eqn:En.
      + simpl. specialize (Hmax (Nat.min (Z.to_nat status) 599)). rewrite En in Hmax. simpl in Hmax.
        unfold u64_sat_add. lia.
      + apply lookup_ge_None in En. lia.
    - rewrite list_lookup_alter_ne by done. lia. }
  destruct (_ <? _) eqn:E; cbn [last counts].
  - split_and!; [split; [done|]; intros i; unfold count; cbn [counts]; rewrite Hval; specialize (Hpos i); case_match; lia| | |done];
      intros i; rewrite Hval; [case_match|]; lia.
  - apply Z.ltb_ge in E. unfold Rate.duration_since in E.
    assert (∀ i, default 0 (replicate (length cs) 0 !! i) = 0) as Hz.
    { intros i. destruct (replicate (length cs) 0 !! i) as [n|] eqn:En; [|done].
      by apply lookup_replicate in En as [-> _]. }
    split_and!; [split; [cbn [counts]; by rewrite length_replicate|]; intros i; unfold count; cbn [counts]; by rewrite Hz| | |lia|done];
      intros i; rewrite Hz; [specialize (Hpos i); unfold count in Hpos; lia|].
    rewrite reported_nonzero, Hval. lia.
Qed.

(** Summaries at least ten seconds apart, from a time on. *)
Fixpoint spaced (from : Z) (l : list (Z * list (nat * Z))) : Prop :=
  match l with
  | [] => True
  | (t, _) :: l' => from + 10000000000 ≤ t ∧ spaced t l'
  end.

Lemma record_run_spec events logs :
  logs_ok logs → (∀ i, count i logs + Z.of_nat (length events) ≤ u64_max) →
  let '(logs', summaries) := record_run logs events in
  (∀ i, count i logs' + all_reported i summaries = count i logs + events_of i events) ∧
  spaced (last logs) summaries.
Proof.
  revert logs. induction events as [|[status now] events IH]; intros logs Hok Hmax.
  { simpl. split; [|done]. intros i. unfold events_of. simpl. lia. }
  cbn [record_run].
  pose proof (record_spec status now logs Hok) as Hr.
  destruct (record status now logs) as [logs1 summary].
  destruct Hr as (Hok1 & Hle & Hcount & Hlast).
  { intros i. specialize (Hmax i). cbn [length] in Hmax. lia. }
  specialize (IH logs1 Hok1 ltac:(intros i; specialize (Hmax i); specialize (Hle i);
    cbn [length] in Hmax; lia)).
  destruct (record_run logs1 events) as [logs2 rest]. destruct IH as [IH1 IH2].
  assert (∀ i, events_of i ((status, now) :: events) =
    (if (slot status =? i)%nat then 1 else 0) + events_of i events) as He.
  { intros i. unfold events_of. cbn [List.filter fst]. destruct (_ =? i)%nat; cbn [length]; lia. }
  split.
  - intros i. specialize (IH1 i). specialize (Hcount i). rewrite He.
    destruct summary; cbn [all_reported foldr snd]; fold (all_reported i rest); lia.
  - destruct summary; [|by rewrite <- Hlast]. destruct Hlast as [Hl Hl'].
    split; [done|]. by rewrite <- Hl'.
Qed.

(** The rejection summaries are exact and bounded.  Over any history of fewer
    than 2^64 rejections, each one is counted once: for every status the
    summaries written plus the counters still pending are the events with that
    status (599 standing for the larger ones), and summaries are at least ten
    seconds apart. *)
Theorem rejections_accounted start events :
  Z.of_nat (length events) ≤ u64_max →
  let '(logs, summaries) := record_run (new_logs start) events in
  (∀ i, all_reported i summaries + count i logs = events_of i events) ∧ spaced start summaries.
Proof.
  intros Hn. assert (∀ i, count i (new_logs start) = 0) as Hz.
  { intros i. unfold count. destruct (counts (new_logs start) !! i) as [n|] eqn:En; [|done].
    by apply lookup_replicate in En as [-> _]. }
  pose proof (record_run_spec events (new_logs start)) as Hr.
  destruct (record_run (new_logs start) events) as [logs summaries].
  destruct Hr as [Hr Hs]; [split; [done|]; intros i; by rewrite Hz|intros i; rewrite Hz; lia|].
  split; [|done]. intros i. specialize (Hr i). rewrite Hz in Hr. lia.
Qed.

(** ** Concrete instances *)

Module Examples.
Import Toy Admission.Examples.
Definition address (n : Z) : SocketAddr := {| sa_ip := V4 n; sa_port := 3000 |}.
Definition example_ctx : RequestContext := with_host "Shop.Example" (with_site example_site (new_ctx 0)).

Lemma each_address_tried_once_witness :
  connect (λ _, Resolved (map address [1; 2; 3; 4; 5; 6; 7; 8; 9; 10])) 0 16 example_ctx =
  map address [1; 2; 3; 4; 5; 6; 7; 8].
Proof.
  refine (each_address_tried_once _ example_ctx example_site example_upstream
    (map address [1; 2; 3; 4; 5; 6; 7; 8; 9; 10]) 16 _ _ _ _ _ _); try reflexivity. lia.
Defined.

Definition example_headers : HeaderMap :=
  [("host", "Shop.Example"); ("x-cashu", "cashuBtoken"); ("x-forwarded-for", "10.0.0.1");
   ("forwarded", "for=10.0.0.1"); ("x-forwarded-port", "80"); ("accept", "*/*")].
Definition example_sent : HeaderMap :=
  match upstream_request_filter example_server (Some (V4 3221226001)) example_ctx example_headers with
  | Ok hs => hs | Err _ => []
  end.
Lemma forwarded_headers_witness :
  get_all "x-forwarded-for" example_sent = ["192.0.2.17"] ∧ get_all "x-cashu" example_sent = [] ∧
  get_all "forwarded" example_sent = [] ∧ get_all "x-forwarded-port" example_sent = [] ∧
  get_all "accept" example_sent = ["*/*"].
Proof.
  assert (upstream_request_filter example_server (Some (V4 3221226001)) example_ctx example_headers
    = Ok example_sent) as E by (vm_compute; reflexivity).
  split_and!; rewrite (forwarded_headers _ _ _ _ _ E); vm_compute; reflexivity.
Defined.

Lemma receipts_are_ours_witness :
  get_all "payment-response" [("x", "1"); ("cache-control", "no-store")] = [].
Proof.
  pose proof (receipts_are_ours example_ctx [("payment-response", "forged"); ("x", "1"); ("cache-control", "public")]
    [("x", "1"); ("cache-control", "no-store")]) as Hr.
  destruct Hr as [Hr _]; [vm_compute; reflexivity|]. destruct Hr as (_ & Hr & _); [vm_compute; reflexivity|].
  exact Hr.
Defined.

Lemma body_limit_exact_witness :
  total (body_run [Some "abc"; None; Some "de"] example_ctx).1 ≤ 10485760.
Proof.
  pose proof (body_limit_exact [Some "abc"; None; Some "de"] example_ctx example_site 10485760) as Hb.
  destruct (body_run [Some "abc"; None; Some "de"] example_ctx) as [passed verdict].
  destruct Hb as [Hb _]; [reflexivity|reflexivity|widths; lia|reflexivity|]. exact Hb.
Defined.

Lemma rejections_accounted_witness :
  let '(logs, summaries) := record_run (new_logs 0) [(429, 1); (700, 2); (429, 10000000000); (404, 10000000001)] in
  summaries = [(10000000000, [(429%nat, 2); (599%nat, 1)])] ∧
  (∀ i, all_reported i summaries + count i logs =
        events_of i [(429, 1); (700, 2); (429, 10000000000); (404, 10000000001)]) ∧
  spaced 0 summaries.
Proof.
  pose proof (rejections_accounted 0 [(429, 1); (700, 2); (429, 10000000000); (404, 10000000001)]
    ltac:(vm_compute; discriminate)) as Hr.
  destruct (record_run _ _) as [logs summaries] eqn:E. split; [|exact Hr].
  vm_compute in E. injection E as _ <-. reflexivity.
Defined.
End Examples.
End Upstream.
