(* ===== verification/Gateway.v ===== *)
(** * The gateway as a whole

    Many requests run through [request_filter] at once, a call at a time in any
    order, on shared limiters, capacities and payment services, while time passes,
    configurations are reloaded and other work goes on.  The theorems are about
    every such schedule: what a client gets for free, how often it may have
    payments verified, and that a token buys one request.

    [Services] is what the filter needs of the payment services: the operations
    and the promise that a payment is accepted once.  The wallets of [Wallets]
    implement it ([Farm]). *)
From S2P Require Import Prelude Text Net Effects Extern Flow RateLimit Capacity Ledger Cdk Terms LnPolicy Http Payments Minting Payout Wallets Config State LnProof LnStore Proxy Admission Models.
#[local] Open Scope string_scope.
#[local] Open Scope list_scope.
#[local] Open Scope Z_scope.

Module Gateway.
Import Conf Http Front Admission.

(** A payment: its mint and its identity there. *)
Abbreviation PaymentId := (string * string)%type.

Class Services (B : Type) := {
  sv_collect : string → Terms.PaymentPolicy → string → B → B * result Pay.PaymentError unit;
  sv_settle : Ln.Policy → string → string → B → B * result LnError string;
  sv_settle_l402 : Ln.Policy → string → string → B → B * result LnError unit;
  sv_challenge : Ln.Policy → string → string → IpAddr → B → B * result anyhow Challenge;
  (** the payment in a token, and whether it was accepted before *)
  payment_of : Terms.PaymentPolicy → string → option PaymentId;
  spent : B → PaymentId → bool;
  sv_collect_once : ∀ site p e b b', sv_collect site p e b = (b', Ok tt) →
    ∃ id, payment_of p e = Some id ∧ spent b id = false ∧ spent b' id = true;
  sv_collect_spent : ∀ site p e b id, spent b id = true → spent (sv_collect site p e b).1 id = true;
  sv_settle_spent : ∀ p h e b id, spent b id = true → spent (sv_settle p h e b).1 id = true;
  sv_l402_spent : ∀ p h e b id, spent b id = true → spent (sv_settle_l402 p h e b).1 id = true;
  sv_challenge_spent : ∀ p u h c b id, spent b id = true → spent (sv_challenge p u h c b).1 id = true
}.

(** ** The shared world *)

Record World (B : Type) := {
  clock : Z;                                  (** nanoseconds *)
  current : Config;
  challenges : gmap (string * string) string;
  redirects : Rate.RateLimiter;
  limiters : gmap nat Rate.RateLimiter;       (** behind the [Arc]s of the sites *)
  rooms : gmap nat Cap.Shared;
  services : B
}.
Arguments clock {B} w. Arguments current {B} w. Arguments challenges {B} w.
Arguments redirects {B} w. Arguments limiters {B} w. Arguments rooms {B} w. Arguments services {B} w.

Section gateway.
Context `{HeaderValues, HttpLib, Sha256, JsonLib, PaymentRequests} {B : Type} `{Services B}.

Definition set_redirects r (w : World B) : World B :=
  {| clock := clock w; current := current w; challenges := challenges w; redirects := r;
     limiters := limiters w; rooms := rooms w; services := services w |}.
Definition set_limiters l (w : World B) : World B :=
  {| clock := clock w; current := current w; challenges := challenges w; redirects := redirects w;
     limiters := l; rooms := rooms w; services := services w |}.
Definition set_rooms r (w : World B) : World B :=
  {| clock := clock w; current := current w; challenges := challenges w; redirects := redirects w;
     limiters := limiters w; rooms := r; services := services w |}.
Definition set_services s (w : World B) : World B :=
  {| clock := clock w; current := current w; challenges := challenges w; redirects := redirects w;
     limiters := limiters w; rooms := rooms w; services := s |}.

Definition check_limiter (r : LimiterRef) (ip : IpAddr) (w : World B) : World B * result Z unit :=
  match limiters w !! lr_id r with
  | Some lim =>
      let '(res, lim') := Rate.check_with_clock lim ip (clock w) in
      (set_limiters (<[lr_id r := lim']> (limiters w)) w, res)
  | None => (w, Err Rate.IDLE)          (* a reference always has its limiter *)
  end.
Definition try_acquire (c : CapacityRef) (ip : IpAddr) (w : World B) : World B * option IpAddr :=
  match rooms w !! cr_id c with
  | Some room =>
      let '(permit, room') := Cap.try_acquire (cr_settings c) room ip in
      (set_rooms (<[cr_id c := room']> (rooms w)) w, permit)
  | None => (w, None)
  end.
Definition on_services {X} (f : B → B * X) (w : World B) : World B * X :=
  let '(s, x) := f (services w) in (set_services s w, x).

Definition perform_call (X : Type) (c : Cmd X) : World B → World B * X :=
  match c in Cmd X return World B → World B * X with
  | LoadConfig => λ w, (w, current w)
  | ReadChallenge d t => λ w, (w, challenges w !! (d, t))
  | CheckRedirect ip => λ w,
      let '(res, r) := Rate.check_with_clock (redirects w) ip (clock w) in (set_redirects r w, res)
  | SetDeadline _ => λ w, (w, tt)
  | CheckLimiter r ip => check_limiter r ip
  | TryAcquire c ip => try_acquire c ip
  | Settle p h e => on_services (sv_settle p h e)
  | SettleL402 p h e => on_services (sv_settle_l402 p h e)
  | Collect site p e => on_services (sv_collect site p e)
  | MakeChallenge p u h ip => on_services (sv_challenge p u h ip)
  end.

(** ** Schedules *)

(** A request on a listener, with the time it arrived. *)
Record Arrival := { a_server : Server; a_request : Request; a_time : Z }.
Definition handle (a : Arrival) : proc Cmd Exit :=
  request_filter (a_server a) (a_request a) (new_ctx (a_time a)).
Definition play_from (w : World B) (l : list (@action (World B) Arrival)) :
    @system Cmd (World B) Arrival Exit :=
  play handle perform_call clock (begin w) l.

(** Changes of the world between calls: time does not go back, limiter [L] is only
    used through [check], and accepted payments stay accepted. *)
Definition harmless (L : nat) (a : @action (World B) Arrival) : Prop :=
  match a with
  | Elapse f => ∀ w, clock w ≤ clock (f w) ∧ limiters (f w) !! L = limiters w !! L
  | _ => True
  end.
Definition honest (a : @action (World B) Arrival) : Prop :=
  match a with
  | Elapse f => ∀ w id, spent (services w) id = true → spent (services (f w)) id = true
  | _ => True
  end.

(** ** The checks of one limiter *)

(** [CheckLimiter] on limiter [L] admitted a client with key [k]. *)
Definition admits (L : nat) (prefix : Z) (k : IpAddr) (e : event Cmd) : bool :=
  match e with
  | Ev c x =>
      match c in Cmd X return X → bool with
      | CheckLimiter r ip => λ res,
          (lr_id r =? L)%nat && bool_decide (Rate.client_key ip prefix = k) && is_ok res
      | _ => λ _, false
      end x
  end.

Lemma limiter_call X (c : Cmd X) w L lim k :
  limiters w !! L = Some lim →
  clock (perform_call X c w).1 = clock w ∧
  (limiters (perform_call X c w).1 !! L = Some lim ∧
   admits L (Rate.ipv6_prefix lim) k (Ev c (perform_call X c w).2) = false ∨
   ∃ ip, limiters (perform_call X c w).1 !! L = Some (Rate.check_with_clock lim ip (clock w)).2 ∧
     admits L (Rate.ipv6_prefix lim) k (Ev c (perform_call X c w).2) =
     bool_decide (Rate.client_key ip (Rate.ipv6_prefix lim) = k) &&
     is_ok (Rate.check_with_clock lim ip (clock w)).1).
Proof.
  intros Hl.
  destruct c as [|d t|ip|dl|r ip|cap ip|p h e|p h e|site p e|p u h ip];
    try (by split; [|left]); cbn [perform_call].
  - destruct (Rate.check_with_clock _ _ _). by split; [|left].
  - unfold check_limiter. destruct (decide (lr_id r = L)) as [<-|Hne].
    + rewrite Hl. destruct (Rate.check_with_clock lim ip (clock w)) as [res lim'] eqn:E.
      split; [done|]. right. exists ip. rewrite E. simpl. rewrite lookup_insert_eq, Nat.eqb_refl. done.
    + destruct (limiters w !! lr_id r) as [lim2|] eqn:E2.
      * destruct (Rate.check_with_clock lim2 ip (clock w)). split; [done|]. left. simpl.
        rewrite lookup_insert_ne by done. split; [done|]. by rewrite (proj2 (Nat.eqb_neq _ _)).
      * split; [done|]. left. split; [done|]. simpl. by rewrite andb_false_r.
  - unfold try_acquire. destruct (rooms w !! cr_id cap) as [room|]; [|by split; [|left]].
    destruct (Cap.try_acquire _ _ _). by split; [|left].
  - unfold on_services. destruct (sv_settle _ _ _ _). by split; [|left].
  - unfold on_services. destruct (sv_settle_l402 _ _ _ _). by split; [|left].
  - unfold on_services. destruct (sv_collect _ _ _ _). by split; [|left].
  - unfold on_services. destruct (sv_challenge _ _ _ _ _). by split; [|left].
Qed.

(** Admissions so far are covered by the credit spent and the time that passed. *)
Definition covered (L : nat) (k : IpAddr) (lim0 : Rate.RateLimiter) (t0 : Z)
    (s : @system Cmd (World B) Arrival Exit) : Prop :=
  ∃ lim t, limiters (world s) !! L = Some lim ∧ t0 ≤ t ≤ clock (world s) ∧
    Rate.limiter_wf t lim ∧ Rate.limit lim = Rate.limit lim0 ∧
    Rate.ipv6_prefix lim = Rate.ipv6_prefix lim0 ∧
    Z.of_nat (tally (admits L (Rate.ipv6_prefix lim0) k) (map snd (history s))) * Rate.TOKEN
      + Rate.avail (Rate.shard_of lim k) k (Rate.limit lim0) t
    ≤ Rate.capacity (Rate.limit lim0) + (t - t0) * Rate.per_second (Rate.limit lim0).

Lemma covered_act L k lim0 t0 s a :
  harmless L a → covered L k lim0 t0 s → covered L k lim0 t0 (act handle perform_call clock s a).
Proof.
  intros Ha Hs. destruct a as [r|i|f]; simpl; [done| |].
  - destruct (tasks s !! i) as [t|]; [|done]. unfold advance.
    destruct (t_rest t) as [r|X c q]; [done|].
    destruct Hs as (lim & tl & Hlim & Ht & Hwf & Hlimit & Hprefix & Hle).
    pose proof (limiter_call X c (world s) L lim k Hlim) as [Hclock Hcall].
    destruct (perform_call X c (world s)) as [w x]. cbn [fst snd] in *.
    destruct Hcall as [[Hl Hno]|(ip & Hl & Hyes)].
    + exists lim, tl. cbn [world history]. rewrite map_app. cbn [map snd].
      rewrite tally_snoc, <- Hprefix, Hno, Hprefix, Nat.add_0_r, Hclock. done.
    + pose proof (Rate.limiter_avail_step tl lim ip (clock (world s)) k Hwf ltac:(lia)) as Hstep.
      pose proof (Rate.check_with_clock_config lim ip (clock (world s))) as [Hcl Hcp].
      pose proof (Rate.check_with_clock_wf tl lim ip (clock (world s)) Hwf ltac:(lia)) as Hwf'.
      exists (Rate.check_with_clock lim ip (clock (world s))).2, (clock (world s)).
      cbn [world history]. rewrite map_app. cbn [map snd]. rewrite tally_snoc, <- Hprefix, Hyes, Hprefix.
      rewrite Hprefix in Hstep.
      split_and!; [done|lia|lia|done|congruence|congruence|].
      rewrite Hlimit in Hstep.
      rewrite Nat2Z.inj_add, Z.mul_add_distr_r. unfold Rate.TOKEN in *.
      destruct (is_ok _); rewrite ?andb_true_r, ?andb_false_r in *;
        repeat case_bool_decide; try done; lia.
  - destruct (Ha (world s)) as [Hc Hl]. destruct Hs as (lim & t & Hlim & Ht & Hrest).
    exists lim, t. simpl. rewrite Hl. split; [done|]. split; [lia|done].
Qed.

Lemma covered_play L k lim0 t0 s l :
  Forall (harmless L) l → covered L k lim0 t0 s →
  covered L k lim0 t0 (play handle perform_call clock s l).
Proof. intros Hl. revert s. induction Hl; simpl; auto using covered_act. Qed.

Lemma checks_bounded w l L lim k :
  limiters w !! L = Some lim → Rate.limiter_wf (clock w) lim → Forall (harmless L) l →
  Z.of_nat (tally (admits L (Rate.ipv6_prefix lim) k) (map snd (history (play_from w l)))) * Rate.TOKEN
  ≤ Rate.capacity (Rate.limit lim)
    + (clock (world (play_from w l)) - clock w) * Rate.per_second (Rate.limit lim).
Proof.
  intros Hlim Hwf Hl.
  pose proof (Rate.avail_bound (Rate.limit lim) (clock w) (Rate.shard_of lim k) k
    ltac:(apply Hwf) ltac:(by apply Rate.shard_of_wf)) as Hb.
  assert (covered L k lim (clock w) (play_from w l)) as (lim' & t & Hlim' & Ht & Hwf' & Hlimit & _ & Hle).
  { apply covered_play; [done|]. exists lim, (clock w). simpl. split_and!; try done; [lia..|].
    unfold tally. simpl. lia. }
  pose proof (Rate.avail_bound (Rate.limit lim') t (Rate.shard_of lim' k) k
    ltac:(apply Hwf') ltac:(by apply Rate.shard_of_wf)) as Hb'.
  rewrite Hlimit in Hb'. assert (0 ≤ Rate.per_second (Rate.limit lim)) by (destruct Hwf as ((? & _) & _); lia).
  nia.
Qed.

(** ** Tasks *)

Definition config_event (e : event Cmd) : option Config :=
  match e with
  | Ev c x => match c in Cmd X return X → option Config with
              | LoadConfig => λ config, Some config
              | _ => λ _, None
              end x
  end.
(** The site a task is for. *)
Definition site_of (t : @task Cmd Arrival Exit) : option Site :=
  config ← head (t_past t) ≫= config_event;
  domain ← authority_of (a_request (t_req t)) ≫= request_domain;
  sites config !! domain.
Definition client_of (t : @task Cmd Arrival Exit) : option IpAddr := client_ip (a_request (t_req t)).
Definition was_served (t : @task Cmd Arrival Exit) : bool :=
  match t_rest t with Done (_, o) => served o | Do _ _ => false end.
Definition from_client (prefix : Z) (k : IpAddr) (t : @task Cmd Arrival Exit) : bool :=
  is_some_and (λ ip, bool_decide (Rate.client_key ip prefix = k)) (client_of t).

(** A request served by a site with this rate limiter without any payment. *)
Definition served_free (L : nat) (prefix : Z) (k : IpAddr) (t : @task Cmd Arrival Exit) : bool :=
  was_served t && from_client prefix k t
  && is_some_and (λ site, is_some_and (λ r, (lr_id r =? L)%nat) (rate_limit site)) (site_of t)
  && negb (existsb paid_event (t_past t)).
(** A request of a site with this verification limiter that had a payment verified. *)
Definition tried_payment (L : nat) (prefix : Z) (k : IpAddr) (t : @task Cmd Arrival Exit) : bool :=
  from_client prefix k t
  && is_some_and (λ site, (lr_id (payment_verification site) =? L)%nat) (site_of t)
  && existsb attempt_event (t_past t).

Lemma routed_site t domain site :
  routed (a_request (t_req t)) (t_past t) domain site → site_of t = Some site.
Proof. intros (config & Hh & Hd & Hs). unfold site_of. rewrite Hh. simpl. by rewrite Hd. Qed.

Lemma existsb_false {A} (p : A → bool) l : existsb p l = false → Forall (λ a, p a = false) l.
Proof.
  intros Hf. apply Forall_forall. intros a Ha. destruct (p a) eqn:E; [|done].
  assert (existsb p l = true) as Ht by (apply existsb_exists; exists a; by rewrite <- list_elem_of_In).
  congruence.
Qed.

Lemma served_free_checked L prefix k t :
  steps (handle (t_req t)) (t_past t) (t_rest t) → served_free L prefix k t = true →
  ∃ e, e ∈ t_past t ∧ admits L prefix k e = true.
Proof.
  intros Hs Hq. unfold served_free, was_served, from_client, client_of in Hq.
  rewrite !andb_true_iff, negb_true_iff in Hq. destruct Hq as [[[Hserved Hk] Hsite] Hunpaid].
  destruct (t_rest t) as [[ctx' o]|] eqn:Et; [|done].
  pose proof (post_steps _ _ [] _ _ _ (request_filter_post _ _ _) Hs)
    as [[Hn _]|(domain & site & c & _ & Hr & _ & _ & _ & Hent)]; simpl in *; [congruence|].
  apply routed_site in Hr. rewrite Hr in Hsite. simpl in Hsite.
  apply existsb_false in Hunpaid. rewrite Forall_forall in Hunpaid.
  destruct Hent as [Hrl _ _|r ip Hrl Hip _ _ _ Hin|policy v enc _ _ _ _ _ _ Hin
    |policy v enc url hash rc _ _ _ _ _ _ _ _ Hin|policy v enc url hash _ _ _ _ _ _ _ _ Hin];
    [|exists (Ev (CheckLimiter r ip) (Ok tt))|by specialize (Hunpaid _ Hin)..].
  - by rewrite Hrl in Hsite.
  - split; [done|]. rewrite Hrl in Hsite. simpl in *. rewrite Hip in Hk. simpl in Hk.
    by rewrite Hsite, Hk.
Qed.

Lemma tried_payment_checked L prefix k t :
  steps (handle (t_req t)) (t_past t) (t_rest t) → tried_payment L prefix k t = true →
  ∃ e, e ∈ t_past t ∧ admits L prefix k e = true.
Proof.
  intros Hs Hq. unfold tried_payment, from_client, client_of in Hq.
  rewrite !andb_true_iff in Hq. destruct Hq as [[Hk Hsite] Ha].
  apply existsb_exists in Ha as (e & Hin & Ha). apply list_elem_of_In in Hin.
  apply list_elem_of_split in Hin as (tr1 & tr2 & Etr).
  pose proof (post_calls _ _ _ [] _ _ (request_filter_post _ _ _) Hs tr1 e tr2 Etr) as Hg.
  destruct e as [X c x]. destruct (Hg Ha) as (_ & domain & site & permit & Hr & Hv & _). simpl in *.
  assert (routed (a_request (t_req t)) (t_past t) domain site) as Hr'.
  { rewrite Etr. eapply routed_mono; [|exact Hr]. by eexists. }
  apply routed_site in Hr'. rewrite Hr' in Hsite. simpl in Hsite.
  destruct Hv as (ip & Hip & Hin). rewrite Hip in Hk. simpl in Hk.
  exists (Ev (CheckLimiter (payment_verification site) ip) (Ok tt)).
  split; [rewrite Etr; set_solver|]. simpl. by rewrite Hsite, Hk.
Qed.

Lemma tasks_bounded w l L lim k (q : @task Cmd Arrival Exit → bool) :
  limiters w !! L = Some lim → Rate.limiter_wf (clock w) lim → Forall (harmless L) l →
  (∀ t, steps (handle (t_req t)) (t_past t) (t_rest t) → q t = true →
     ∃ e, e ∈ t_past t ∧ admits L (Rate.ipv6_prefix lim) k e = true) →
  Z.of_nat (length (List.filter q (tasks (play_from w l)))) * Rate.TOKEN
  ≤ Rate.capacity (Rate.limit lim)
    + (clock (world (play_from w l)) - clock w) * Rate.per_second (Rate.limit lim).
Proof.
  intros Hlim Hwf Hl Hq. pose proof (checks_bounded w l L lim k Hlim Hwf Hl) as Hb.
  assert (coherent handle (play_from w l)) as Hc by apply coherent_play, coherent_begin.
  assert (length (List.filter q (tasks (play_from w l))) ≤
    tally (admits L (Rate.ipv6_prefix lim) k) (map snd (history (play_from w l))))%nat as Hle.
  { eapply tasks_need_calls; [exact Hc|]. intros t Ht. apply Hq.
    destruct Hc as [Hc _]. by apply (proj1 (Forall_forall _ _) Hc). }
  unfold Rate.TOKEN in *. lia.
Qed.

(** C9: what a client gets for free is bounded.  Whatever requests arrive and
    however their handlers, reloads and other work interleave, the requests of one
    client (one address, or one IPv6 prefix) that a site with a given rate limiter
    served without payment are at most the burst plus the rate times the time that
    passed. *)
Theorem free_requests_bounded w l L lim k :
  limiters w !! L = Some lim → Rate.limiter_wf (clock w) lim → Forall (harmless L) l →
  Z.of_nat (length (List.filter (served_free L (Rate.ipv6_prefix lim) k) (tasks (play_from w l))))
    * Rate.TOKEN
  ≤ Rate.burst (Rate.limit lim) * Rate.TOKEN
    + (clock (world (play_from w l)) - clock w) * Rate.per_second (Rate.limit lim).
Proof. intros Hlim Hwf Hl. apply (tasks_bounded w l L lim k); try done. apply served_free_checked. Qed.

(** C20: guessing payments is slow.  Likewise, the requests of one client for which a
    payment service was asked to settle anything are bounded by the site's
    verification limit, also those still in progress or cut off. *)
Theorem payment_attempts_bounded w l L lim k :
  limiters w !! L = Some lim → Rate.limiter_wf (clock w) lim → Forall (harmless L) l →
  Z.of_nat (length (List.filter (tried_payment L (Rate.ipv6_prefix lim) k) (tasks (play_from w l))))
    * Rate.TOKEN
  ≤ Rate.burst (Rate.limit lim) * Rate.TOKEN
    + (clock (world (play_from w l)) - clock w) * Rate.per_second (Rate.limit lim).
Proof. intros Hlim Hwf Hl. apply (tasks_bounded w l L lim k); try done. apply tried_payment_checked. Qed.

(** ** One token, one request *)

Definition collected (id : PaymentId) (e : event Cmd) : bool :=
  match e with
  | Ev c x =>
      match c in Cmd X return X → bool with
      | Collect _ p encoded => λ res, is_ok res && bool_decide (payment_of p encoded = Some id)
      | _ => λ _, false
      end x
  end.

Lemma services_call X (c : Cmd X) w id :
  (spent (services w) id = true → spent (services (perform_call X c w).1) id = true) ∧
  (collected id (Ev c (perform_call X c w).2) = true →
   spent (services w) id = false ∧ spent (services (perform_call X c w).1) id = true).
Proof.
  destruct c as [|d t|ip|dl|r ip|cap ip|p h e|p h e|site p e|p u h ip]; cbn [perform_call];
    try (by split).
  - destruct (Rate.check_with_clock _ _ _). by split.
  - unfold check_limiter. case_match; [destruct (Rate.check_with_clock _ _ _)|]; by split.
  - unfold try_acquire. case_match; [destruct (Cap.try_acquire _ _ _)|]; by split.
  - unfold on_services. pose proof (sv_settle_spent p h e (services w) id) as Hm.
    destruct (sv_settle _ _ _ _). by split.
  - unfold on_services. pose proof (sv_l402_spent p h e (services w) id) as Hm.
    destruct (sv_settle_l402 _ _ _ _). by split.
  - unfold on_services. pose proof (sv_collect_spent site p e (services w) id) as Hm.
    destruct (sv_collect site p e (services w)) as [b res] eqn:E. split; [done|]. simpl.
    rewrite andb_true_iff, bool_decide_eq_true. intros [Hok Hid]. destruct res as [[]|]; [|done].
    apply sv_collect_once in E as (id' & Hid' & Hf & Ht). assert (id' = id) as -> by congruence. done.
  - unfold on_services. pose proof (sv_challenge_spent p u h ip (services w) id) as Hm.
    destruct (sv_challenge _ _ _ _ _). by split.
Qed.

Lemma collected_once_act id s a :
  honest a →
  (tally (collected id) (map snd (history s)) ≤ if spent (services (world s)) id then 1 else 0)%nat →
  (tally (collected id) (map snd (history (act handle perform_call clock s a)))
   ≤ if spent (services (world (act handle perform_call clock s a))) id then 1 else 0)%nat.
Proof.
  intros Ha Hs. destruct a as [r|i|f]; simpl; [done| |].
  - destruct (tasks s !! i) as [t|]; [|done]. unfold advance. destruct (t_rest t) as [r|X c q]; [done|].
    destruct (services_call X c (world s) id) as [Hm Hc].
    destruct (perform_call X c (world s)) as [w x]. cbn [fst snd] in *. cbn [world history].
    rewrite map_app. cbn [map snd]. rewrite tally_snoc.
    destruct (collected id (Ev c x)).
    + destruct Hc as [Hf ->]; [done|]. rewrite Hf in Hs. lia.
    + destruct (spent (services (world s)) id); [rewrite Hm by done; lia|case_match; lia].
  - specialize (Ha (world s) id). destruct (spent (services (world s)) id); [by rewrite Ha|].
    case_match; lia.
Qed.

Lemma collected_once_play id s l :
  Forall honest l →
  (tally (collected id) (map snd (history s)) ≤ if spent (services (world s)) id then 1 else 0)%nat →
  (tally (collected id) (map snd (history (play handle perform_call clock s l)))
   ≤ if spent (services (world (play handle perform_call clock s l))) id then 1 else 0)%nat.
Proof. intros Hl. revert s. induction Hl; simpl; auto using collected_once_act. Qed.

(** The request was served, by a site that sells for Cashu, with this payment in a
    header. *)
Definition served_with (id : PaymentId) (t : @task Cmd Arrival Exit) : bool :=
  was_served t
  && is_some_and (λ site, is_some_and (λ policy,
       existsb (λ value, is_some_and (λ encoded, bool_decide (payment_of policy encoded = Some id))
                           (header_to_str value))
         (get_all "x-cashu" (req_headers (a_request (t_req t)))))
       (payment site)) (site_of t).

Lemma served_with_collected id t :
  steps (handle (t_req t)) (t_past t) (t_rest t) → served_with id t = true →
  ∃ e, e ∈ t_past t ∧ collected id e = true.
Proof.
  intros Hs Hq. unfold served_with, was_served in Hq. rewrite !andb_true_iff in Hq.
  destruct Hq as [Hserved Hsite]. destruct (t_rest t) as [[ctx' o]|] eqn:Et; [|done].
  pose proof (post_steps _ _ [] _ _ _ (request_filter_post _ _ _) Hs)
    as [[Hn _]|(domain & site & c & _ & Hr & _ & _ & _ & Hent)]; simpl in *; [congruence|].
  apply routed_site in Hr. rewrite Hr in Hsite. simpl in Hsite.
  destruct (payment site) as [policy|] eqn:Hp; [|done]. simpl in Hsite.
  destruct Hent as [_ Hp' _|r ip _ _ [Hp'|Hx] _ _ _|policy' v enc Hp' Hg _ _ He _ Hin
    |policy' v enc url hash rc _ _ _ Hx _ _ _ _ _|policy' v enc url hash _ _ _ Hx _ _ _ _ _];
    try congruence; try (by rewrite Hx in Hsite).
  assert (policy' = policy) as -> by congruence. rewrite Hg in Hsite. simpl in Hsite. rewrite He in Hsite.
  simpl in Hsite. rewrite orb_false_r in Hsite.
  exists (Ev (Collect domain policy enc) (Ok tt)). split; [done|]. done.
Qed.

(** C1: a Cashu token buys one request.  In every schedule of requests on the
    gateway, over payment services that accept a payment once, of all requests that
    sites selling for Cashu receive with one and the same payment in a header, at
    most one is served. *)
Theorem token_buys_one_request w l id :
  spent (services w) id = false → Forall honest l →
  (length (List.filter (served_with id) (tasks (play_from w l))) ≤ 1)%nat.
Proof.
  intros Hf Hl.
  assert (coherent handle (play_from w l)) as Hc by apply coherent_play, coherent_begin.
  assert (tally (collected id) (map snd (history (play_from w l)))
    ≤ if spent (services (world (play_from w l))) id then 1 else 0)%nat as Ht.
  { apply collected_once_play; [done|]. cbn. lia. }
  etrans; [eapply (tasks_need_calls handle _ (collected id)); [exact Hc|]|].
  - intros t Hin. apply served_with_collected. destruct Hc as [Hc _].
    by apply (proj1 (Forall_forall _ _) Hc).
  - etrans; [exact Ht|]. case_match; lia.
Qed.
End gateway.

(** ** The wallets implement the services *)

(** The Lightning service as the wallets see it: it answers from its own state and
    makes calls on them. *)
Class LnOps (L : Type) := {
  lo_settle : Ln.Policy → string → string → L → L * list (string * Wallets.Call_) * result LnError string;
  lo_settle_l402 : Ln.Policy → string → string → L → L * list (string * Wallets.Call_) * result LnError unit;
  lo_challenge : Ln.Policy → string → string → IpAddr → L →
    L * list (string * Wallets.Call_) * result anyhow Challenge
}.

(** The slot of each mint, and what happens to the [n]-th call: whether the lock is
    taken, and the fates of its steps. *)
Record Farm (W L : Type) := {
  slots : string → Cdk.Slot W;
  luck : nat → bool * list Fate;
  n_calls : nat;
  ln_state : L
}.
Arguments slots {W L} f. Arguments luck {W L} f. Arguments n_calls {W L} f. Arguments ln_state {W L} f.

Section farm.
Context `{Sha256, InvoiceLib, UrlLib, MintUrlLib} {W L : Type} `{Cdk.Lib W, LnOps L}.

Definition farm_call (mint : string) (c : Wallets.Call_) (f : Farm W L) :
    Farm W L * outcome Pay.PaymentError unit :=
  let '(busy, fates) := luck f (n_calls f) in
  let '(o, s, _) := Wallets.exec c busy (slots f mint) fates in
  ({| slots := λ m, if bool_decide (m = mint) then s else slots f m;
      luck := luck f; n_calls := S (n_calls f); ln_state := ln_state f |}, o).
Definition farm_calls (l : list (string * Wallets.Call_)) (f : Farm W L) : Farm W L :=
  fold_left (λ f mc, (farm_call mc.1 mc.2 f).1) l f.

Definition farm_collect (site : string) (p : Terms.PaymentPolicy) (encoded : string) (f : Farm W L) :
    Farm W L * result Pay.PaymentError unit :=
  let '(f, o) := farm_call (Terms.mint p) (Wallets.Collect site p encoded) f in
  (f, match o with Effects.Done _ => Ok tt | Fail e => Err e | Gone => Err Pay.Unavailable end).
Definition farm_ln {A} (op : L → L * list (string * Wallets.Call_) * A) (f : Farm W L) : Farm W L * A :=
  let '(l, calls, a) := op (ln_state f) in
  (farm_calls calls {| slots := slots f; luck := luck f; n_calls := n_calls f; ln_state := l |}, a).

Definition farm_payment_of (p : Terms.PaymentPolicy) (encoded : string) : option PaymentId :=
  match Pay.validate_token p encoded with
  | Ok token => Some (Terms.mint p, Pay.token_id token)
  | Err _ => None
  end.
Definition farm_spent (f : Farm W L) (id : PaymentId) : bool := Wallets.claimed_at (slots f id.1) id.2.

Lemma farm_call_spent mint c f id :
  farm_spent f id = true → farm_spent (farm_call mint c f).1 id = true.
Proof.
  unfold farm_spent, farm_call. destruct (luck f (n_calls f)) as [busy fates]. intros Hs.
  pose proof (Wallets.wallet_exec_grows (Cdk.ledger (slots f mint)) c busy (slots f mint)
    (Ledg.grows_refl _) fates) as Hg.
  destruct (Wallets.exec c busy (slots f mint) fates) as [[o s] rest]. simpl in *.
  case_bool_decide as E; [|done]. rewrite E in *. by eapply Ledg.claimed_grows.
Qed.
Lemma farm_calls_spent l f id : farm_spent f id = true → farm_spent (farm_calls l f) id = true.
Proof. revert f. induction l as [|[m c] l IH]; simpl; [done|]. intros f Hf. by apply IH, farm_call_spent. Qed.
Lemma farm_ln_spent {A} (op : L → L * list (string * Wallets.Call_) * A) f id :
  farm_spent f id = true → farm_spent (farm_ln op f).1 id = true.
Proof.
  unfold farm_ln. destruct (op (ln_state f)) as [[l calls] a]. intros Hs. by apply farm_calls_spent.
Qed.

Lemma farm_collect_once site p e f f' :
  farm_collect site p e f = (f', Ok tt) →
  ∃ id, farm_payment_of p e = Some id ∧ farm_spent f id = false ∧ farm_spent f' id = true.
Proof.
  unfold farm_collect, farm_call. destruct (luck f (n_calls f)) as [busy fates].
  pose proof (Wallets.collect_spec busy site p e (slots f (Terms.mint p)) fates) as Hc. simpl in Hc.
  cbn [Wallets.exec].
  destruct (Pay.collect busy site p e (slots f (Terms.mint p)) fates) as [[o s] rest]. simpl in *.
  destruct o as [[]|er|]; try discriminate. destruct (Hc eq_refl) as (token & Hv & Hcl & Hp & _).
  intros [= <-]. exists (Terms.mint p, Pay.token_id token). unfold farm_payment_of, farm_spent.
  rewrite Hv. split; [done|]. split; [done|]. simpl. rewrite bool_decide_eq_true_2 by done.
  unfold Wallets.claimed_at, Ledg.claimed_at. by rewrite Hp.
Qed.

#[export] Program Instance farm_services : Services (Farm W L) :=
  {| sv_collect := farm_collect;
     sv_settle p h e := farm_ln (lo_settle p h e);
     sv_settle_l402 p h e := farm_ln (lo_settle_l402 p h e);
     sv_challenge p u h c := farm_ln (lo_challenge p u h c);
     payment_of := farm_payment_of; spent := farm_spent |}.
Next Obligation. intros. by eapply farm_collect_once. Qed.
Next Obligation.
  intros site p e f id Hs. unfold farm_collect.
  pose proof (farm_call_spent (Terms.mint p) (Wallets.Collect site p e) f id Hs) as Hc.
  by destruct (farm_call _ _ _).
Qed.
Next Obligation. intros. by apply farm_ln_spent. Qed.
Next Obligation. intros. by apply farm_ln_spent. Qed.
Next Obligation. intros. by apply farm_ln_spent. Qed.
End farm.

(** ** Two requests with one token *)

Module Examples.
Import Toy Admission.Examples.
#[local] Existing Instances Wallets.Examples.no_urls Wallets.Examples.no_mints
  Wallets.Examples.no_invoices Wallets.Examples.toy_lib.
#[export] Instance no_lightning : LnOps unit :=
  {| lo_settle _ _ _ l := (l, [], Err Service.Unavailable);
     lo_settle_l402 _ _ _ l := (l, [], Err Service.Unavailable);
     lo_challenge _ _ _ _ l := (l, [], Err "none") |}.

Definition shop : Site :=
  {| domain := "shop.example"; https := true; handler := Proxy example_upstream;
     rate_limit := Some (example_limiter 0); payment := Some Wallets.Examples.example_terms;
     lightning := None; capacity := None; controls := RequestControls_default;
     payment_verification := example_limiter 2 |}.
Definition limiter : Rate.RateLimiter :=
  default {| Rate.limit := lr_limit (example_limiter 0); Rate.ipv6_prefix := 0;
             Rate.hash_one := λ _, 0; Rate.shards := [] |}
    (Rate.with_prefix (lr_limit (example_limiter 0)) 64 (λ a, match a with V4 x => x | V6 x => x end) (λ _, 0)).
Definition first_world : World (Farm (gset string) unit) :=
  {| clock := 0; current := {| sites := {["shop.example" := shop]}; payouts := [] |};
     challenges := ∅; redirects := limiter; limiters := {[0%nat := limiter; 2%nat := limiter]};
     rooms := ∅;
     services := {| slots := λ _, Wallets.Examples.fresh_slot; luck := λ _, (false, []);
                    n_calls := 0; ln_state := tt |} |}.
Definition paying : Arrival :=
  {| a_server := example_server;
     a_request := {| method := "GET"; uri_scheme := None; uri_authority := None; uri_path := "/";
                     path_and_query := Some "/";
                     req_headers := [("host", "shop.example"); ("x-cashu", "cashuBx")];
                     client_ip := Some (V4 3221226001); body := []; retry_buffer_truncated := false |};
     a_time := 0 |}.
Definition browsing : Arrival :=
  {| a_server := example_server;
     a_request := {| method := "GET"; uri_scheme := None; uri_authority := None; uri_path := "/";
                     path_and_query := Some "/"; req_headers := [("host", "shop.example")];
                     client_ip := Some (V4 3221226001); body := []; retry_buffer_truncated := false |};
     a_time := 0 |}.
Definition schedule : list (@action (World (Farm (gset string) unit)) Arrival) :=
  [Arrive paying; Arrive paying; Arrive browsing] ++
  concat (repeat [Advance 0; Advance 1; Advance 2] 6).

Lemma token_buys_one_request_witness :
  map was_served (tasks (play_from first_world schedule)) = [true; false; true] ∧
  (length (List.filter (served_with ("https://mint", Pay.token_id Wallets.Examples.example_token))
    (tasks (play_from first_world schedule))) ≤ 1)%nat.
Proof.
  split; [vm_compute; reflexivity|].
  refine (token_buys_one_request first_world schedule _ _ _); [vm_compute; reflexivity|].
  repeat constructor.
Defined.

Lemma limiter_ok : Rate.limiter_wf 0 limiter.
Proof.
  eapply (Rate.with_prefix_wf (lr_limit (example_limiter 0)) 64 _ (λ _, 0)); [| | |reflexivity].
  - unfold Rate.limit_wf. simpl. solve_width.
  - lia.
  - intros. lia.
Qed.

Lemma free_requests_bounded_witness :
  Z.of_nat (length (List.filter (served_free 0 64 (V4 3221226001)) (tasks (play_from first_world schedule))))
    * Rate.TOKEN ≤ 8 * Rate.TOKEN + 0 * 2.
Proof.
  refine (free_requests_bounded first_world schedule 0 limiter (V4 3221226001) _ _ _);
    [reflexivity|apply limiter_ok|repeat constructor].
Defined.

Lemma payment_attempts_bounded_witness :
  Z.of_nat (length (List.filter (tried_payment 2 64 (V4 3221226001)) (tasks (play_from first_world schedule))))
    * Rate.TOKEN ≤ 8 * Rate.TOKEN + 0 * 2.
Proof.
  refine (payment_attempts_bounded first_world schedule 2 limiter (V4 3221226001) _ _ _);
    [reflexivity|apply limiter_ok|repeat constructor].
Defined.
End Examples.
End Gateway.
