(* ===== verification/Complete.v ===== *)
(** * Exactly who is let through

    [Admission] shows that a request is served only on one of the grounds the program
    recognises.  Here is the converse: a request that meets the conditions is served.
    Together they characterise [request_filter] by conditions on the request, the
    site and the answers of the services, without its control flow. *)
From S2P Require Import Prelude Text Net Effects Extern Flow RateLimit Capacity Cdk Terms LnPolicy Http Payments Payout Config LnProof LnStore Proxy Admission Models.
#[local] Open Scope string_scope.
#[local] Open Scope list_scope.
#[local] Open Scope Z_scope.

Module Complete.
Import Conf Http Front Admission.

Section complete.
Context `{HeaderValues, HttpLib, Sha256, JsonLib, PaymentRequests}.
Context (answer : ∀ X, Cmd X → X) (srv : Server) (req : Request).
Abbreviation field name := (get_all name (req_headers req)).

(** The ways in, with what the services answer. *)
Inductive grounds (domain : string) (site : Site) : Prop :=
| gr_open :
    rate_limit site = None → payment site = None → lightning site = None → grounds domain site
| gr_free limiter ip :
    rate_limit site = Some limiter → client_ip req = Some ip →
    (payment site = None ∨ field "x-cashu" = []) → no_l402 req site → no_x402 req site →
    answer _ (CheckLimiter limiter ip) = Ok tt → grounds domain site
| gr_cashu policy value encoded :
    payment site = Some policy → field "x-cashu" = [value] → no_l402 req site → no_x402 req site →
    header_to_str value = Some encoded → secure srv req = true → has_payments srv = true →
    answer _ (Collect domain policy encoded) = Ok tt → grounds domain site
| gr_x402 policy value encoded url hash receipt :
    lightning site = Some policy → Ln.x402 (Ln.protocols policy) = true →
    field "payment-signature" = [value] → field "x-cashu" = [] → no_l402 req site →
    header_to_str value = Some encoded → (slen encoded ≤ Ln.MAX_PAYMENT_HEADER)%nat →
    secure srv req = true → has_lightning srv = true →
    lightning_binding req policy (srv_tls srv) (max_body_bytes (controls site)) = Ok (url, hash) →
    answer _ (Settle policy hash encoded) = Ok receipt → grounds domain site
| gr_l402 policy value credential url hash :
    lightning site = Some policy → Ln.l402 (Ln.protocols policy) = true →
    field "authorization" = [value] → field "x-cashu" = [] → no_x402 req site →
    l402_credential value = Some credential → secure srv req = true → has_lightning srv = true →
    lightning_binding req policy (srv_tls srv) (max_body_bytes (controls site)) = Ok (url, hash) →
    answer _ (SettleL402 policy hash credential) = Ok tt → grounds domain site.

Record allowed (domain : string) (site : Site) : Prop := {
  al_domain : authority_of req ≫= request_domain = Some domain;
  al_site : sites (answer _ LoadConfig) !! domain = Some site;
  al_scheme : srv_tls srv = https site;
  al_acme : srv_tls srv = false → strip_prefix "/.well-known/acme-challenge/" (uri_path req) = None;
  al_fits : fits req site;
  al_verified : payment_attempt req site = true → ∃ ip, client_ip req = Some ip ∧
    answer _ (CheckLimiter (payment_verification site) ip) = Ok tt;
  al_room : ∀ c, capacity site = Some c → ∃ ip key, client_ip req = Some ip ∧
    answer _ (TryAcquire c ip) = Some key;
  al_grounds : grounds domain site
}.

(** ** Stage by stage *)

(** The stage goes on. *)
Definition goes_on {E A} (p : proc Cmd (result E A)) : Prop := is_ok (follow answer p).2 = true.

Lemma goes_on_then {E A B} (p : proc Cmd (result E A)) (f : A → proc Cmd (result E B)) :
  goes_on (then_ok p f) ↔ ∃ a, (follow answer p).2 = Ok a ∧ goes_on (f a).
Proof.
  unfold goes_on, then_ok. rewrite follow_bind. simpl. destruct (follow answer p).2 as [a|e]; simpl.
  - split; [eauto|]. by intros (? & [= <-] & ?).
  - split; [done|]. by intros (? & ? & ?).
Qed.
Lemma goes_on_seq {E A B} (p : proc Cmd (result E A)) (q : proc Cmd (result E B)) :
  goes_on (let! _ := p in q) ↔ goes_on p ∧ goes_on q.
Proof.
  rewrite goes_on_then. unfold goes_on at 2. destruct (follow answer p).2 as [a|e]; simpl.
  - split; [by intros (_ & _ & ?)|intros [_ ?]; eauto].
  - split; [by intros (? & ? & _)|by intros []].
Qed.
Lemma goes_on_perform {E X B} (c : Cmd X) (f : X → proc Cmd (result E B)) :
  goes_on (let! x := perform c in f x) ↔ goes_on (f (answer _ c)).
Proof. rewrite goes_on_then. cbn. split; [by intros (? & [= <-] & ?)|eauto]. Qed.
Lemma goes_on_refuse {A} ctx code content hs : ¬ goes_on (@refuse _ A req ctx code content hs).
Proof. by unfold goes_on. Qed.
Lemma goes_on_Ok {E A} (a : A) : goes_on (E := E) (Done (Ok a)).
Proof. done. Qed.
Lemma goes_on_client {A} ctx (k : IpAddr → proc Cmd (result Exit A)) :
  goes_on (need_client req ctx k) ↔ ∃ ip, client_ip req = Some ip ∧ goes_on (k ip).
Proof.
  unfold need_client. destruct (client_ip req) as [ip|].
  - split; [eauto|by intros (? & [= <-] & ?)].
  - split; [done|by intros (? & ? & _)].
Qed.

Lemma route_exact ctx ctx' domain site :
  (follow answer (route req ctx)).2 = Ok (ctx', domain, site) →
  authority_of req ≫= request_domain = Some domain ∧ sites (answer _ LoadConfig) !! domain = Some site.
Proof.
  unfold route. destruct (authority_of req ≫= request_domain) as [d|]; [|done]. cbn.
  destruct (sites (answer _ LoadConfig) !! d) as [s|] eqn:Hs; [|done]. cbn. by intros [= _ <- <-].
Qed.
Lemma route_found ctx domain site :
  authority_of req ≫= request_domain = Some domain → sites (answer _ LoadConfig) !! domain = Some site →
  ∃ ctx', (follow answer (route req ctx)).2 = Ok (ctx', domain, site).
Proof. intros Hd Hs. unfold route. rewrite Hd. cbn. rewrite Hs. cbn. eauto. Qed.

Lemma acme_ends ctx domain token : ¬ goes_on (acme_answer req ctx domain token).
Proof.
  unfold acme_answer. rewrite goes_on_perform.
  by destruct (answer _ (ReadChallenge domain token)), (bool_decide (method req = "GET")).
Qed.
Lemma redirect_ends ctx domain : ¬ goes_on (redirect srv req ctx domain).
Proof. unfold redirect. rewrite goes_on_then. by intros ([] & _ & Hg). Qed.
Lemma scheme_exact ctx domain site :
  goes_on (check_scheme srv req ctx domain site) ↔
  srv_tls srv = https site ∧
  (srv_tls srv = false → strip_prefix "/.well-known/acme-challenge/" (uri_path req) = None).
Proof.
  unfold check_scheme. destruct (srv_tls srv), (https site); cbn [negb]; try (by split; [|intros []]).
  - destruct (strip_prefix _ _) as [token|].
    + split; [by intros ?%acme_ends|by intros []].
    + split; [by intros ?%redirect_ends|by intros []].
  - destruct (strip_prefix _ _) as [token|]; [|by split].
    split; [by intros ?%acme_ends|]. intros [_ Hn]. by specialize (Hn eq_refl).
Qed.

Lemma verification_exact ctx site :
  goes_on (check_verification req ctx site) ↔
  (payment_attempt req site = true → ∃ ip, client_ip req = Some ip ∧
     answer _ (CheckLimiter (payment_verification site) ip) = Ok tt).
Proof.
  unfold check_verification. destruct (payment_attempt req site); [|done].
  rewrite goes_on_client. split.
  - intros (ip & Hip & Hg) _. exists ip. split; [done|]. rewrite goes_on_perform in Hg.
    by destruct (answer _ _) as [[]|].
  - intros Hv. destruct (Hv eq_refl) as (ip & Hip & Ha). exists ip. split; [done|].
    rewrite goes_on_perform. by rewrite Ha.
Qed.
Lemma acquire_exact ctx site :
  goes_on (acquire req ctx site) ↔
  (∀ c, capacity site = Some c → ∃ ip key, client_ip req = Some ip ∧ answer _ (TryAcquire c ip) = Some key).
Proof.
  unfold acquire. destruct (capacity site) as [c|]; [|done]. rewrite goes_on_client. split.
  - intros (ip & Hip & Hg) ? [= <-]. exists ip. rewrite goes_on_perform in Hg.
    destruct (answer _ _) as [key|]; [by exists key|done].
  - intros Hc. destruct (Hc c eq_refl) as (ip & key & Hip & Ha). exists ip. split; [done|].
    rewrite goes_on_perform. by rewrite Ha.
Qed.
Lemma controlled_exact ctx site :
  goes_on (controlled req ctx site) ↔
  fits req site ∧
  (payment_attempt req site = true → ∃ ip, client_ip req = Some ip ∧
     answer _ (CheckLimiter (payment_verification site) ip) = Ok tt) ∧
  (∀ c, capacity site = Some c → ∃ ip key, client_ip req = Some ip ∧ answer _ (TryAcquire c ip) = Some key).
Proof.
  unfold controlled. rewrite goes_on_perform, <- (verification_exact (with_site site ctx)),
    <- (acquire_exact (with_site site ctx)). unfold fits.
  destruct (max_body_bytes (controls site)) as [max|], (content_length req) as [len|];
    [destruct (Z.ltb_spec max len)|..]; rewrite ?goes_on_seq.
  - split; [done|]. intros [Hf _]. specialize (Hf _ _ eq_refl eq_refl). lia.
  - split; [|tauto]. intros Hg. split; [|done]. intros ? ? [= <-] [= <-]. lia.
  - split; [|tauto]. intros Hg. by split.
  - split; [|tauto]. intros Hg. by split.
  - split; [|tauto]. intros Hg. by split.
Qed.

(** ** The payment *)

Lemma l402_header_exact ctx site o :
  (follow answer (l402_header req ctx site)).2 = Ok o ↔ found_l402 req site o.
Proof.
  unfold l402_header, found_l402, no_l402. destruct (l402_enabled site).
  2: { destruct o; cbn; split; try done; by intros []. }
  destruct (field "authorization") as [|value [|v rest]].
  - destruct o; cbn; split; try done. by intros (_ & ? & ? & _).
  - destruct (l402_credential value) as [c|] eqn:Hc, o as [c'|]; cbn; split; try done.
    + intros [= <-]. eauto.
    + intros (_ & ? & [= <-] & Hc'). congruence.
    + intros Hn. by specialize (Hn eq_refl).
    + intros (_ & ? & [= <-] & Hc'). congruence.
    + intros Hn. by specialize (Hn eq_refl).
  - destruct o; cbn; split; try done.
    + by intros (_ & ? & ? & _).
    + intros Hn. by specialize (Hn eq_refl).
Qed.

Lemma field_absent name : contains_key name (req_headers req) = false ↔ field name = [].
Proof. rewrite contains_key_get_all. by destruct (field name). Qed.

Lemma methods_exact ctx site l402 :
  goes_on (check_methods req ctx site l402) ↔
  (is_some l402 = true → field "payment-signature" = [] ∧ field "x-cashu" = []) ∧
  (is_some_and (λ p, negb (Ln.x402 (Ln.protocols p))) (lightning site) = true →
   field "payment-signature" = []).
Proof.
  unfold goes_on, check_methods. rewrite <- !field_absent.
  destruct (contains_key "payment-signature" (req_headers req)),
    (contains_key "x-cashu" (req_headers req)), (is_some l402), (is_some_and _ (lightning site));
    cbn; split; intuition done.
Qed.

(** An x402 payment in the request. *)
Definition found_short (site : Site) (o : option string) : Prop :=
  match o with
  | Some encoded => is_some (lightning site) = true ∧ field "x-cashu" = [] ∧
      ∃ value, field "payment-signature" = [value] ∧ header_to_str value = Some encoded ∧
        (slen encoded ≤ Ln.MAX_PAYMENT_HEADER)%nat
  | None => no_x402 req site
  end.
Lemma lightning_header_exact ctx site o :
  (follow answer (lightning_header req ctx site)).2 = Ok o ↔ found_short site o.
Proof.
  unfold lightning_header, found_short, no_x402. destruct (lightning site) as [p|]; cbn [is_some].
  2: { destruct o; cbn; split; try done; by intros []. }
  destruct (field "payment-signature") as [|value rest].
  { destruct o; cbn; split; try done. by intros (_ & _ & ? & ? & _). }
  destruct (bool_decide_reflect (rest = [])) as [->|Hr]; cbn [negb orb].
  2: { destruct o; cbn; split; try done.
       - intros (_ & _ & ? & [= -> ->] & _). done.
       - intros Hn. by specialize (Hn eq_refl). }
  pose proof (field_absent "x-cashu") as [Hx1 Hx2]. destruct (contains_key _ _).
  { destruct o; cbn; split; try done; [by intros (_ & ?%Hx2 & _)|intros Hn; by specialize (Hn eq_refl)]. }
  destruct (opt_filter _ _) as [v|] eqn:Hf.
  - apply opt_filter_Some in Hf as [Hf Hl%Nat.leb_le]. destruct o as [e|]; cbn; split; try done.
    + intros [= <-]. eauto 10.
    + intros (_ & _ & ? & [= <-] & He & _). congruence.
    + intros Hn. by specialize (Hn eq_refl).
  - destruct o as [e|]; cbn; split; try done; [|intros Hn; by specialize (Hn eq_refl)].
    intros (_ & _ & ? & [= <-] & He & Hl). rewrite He in Hf. cbn in Hf.
    by rewrite (proj2 (Nat.leb_le _ _) Hl) in Hf.
Qed.

Lemma pay_lightning_exact ctx site policy l402 encoded :
  goes_on (pay_lightning srv req ctx site policy l402 encoded) ↔
  secure srv req = true ∧ has_lightning srv = true ∧
  ∃ url hash, lightning_binding req policy (srv_tls srv) (max_body_bytes (controls site)) = Ok (url, hash) ∧
    if l402 : bool then answer _ (SettleL402 policy hash encoded) = Ok tt
    else ∃ receipt, answer _ (Settle policy hash encoded) = Ok receipt.
Proof.
  unfold pay_lightning. destruct (secure srv req); cbn [negb]; [|by split; [|intros []]].
  destruct (has_lightning srv); cbn [negb]; [|by split; [|intros (_ & ? & _)]].
  destruct (lightning_binding _ _ _ _) as [[url hash]|e]; [|by split; [|intros (_ & _ & ? & ? & ? & _)]].
  assert (∀ P : string → Prop, (∃ u h, Ok (E := anyhow) (url, hash) = Ok (u, h) ∧ P h) ↔ P hash) as Hex.
  { intros P. split; [by intros (? & ? & [= <- <-] & ?)|eauto]. }
  rewrite (Hex (λ h, if l402 : bool then answer _ (SettleL402 policy h encoded) = Ok tt
                     else ∃ receipt, answer _ (Settle policy h encoded) = Ok receipt)).
  rewrite goes_on_then. destruct l402; cbn.
  - destruct (answer _ (SettleL402 policy hash encoded)) as [[]|e]; cbn.
    + split; [done|]. intros _. by eexists.
    + split; [|by intros (_ & _ & ?)]. by intros (? & [= <-] & ?).
  - destruct (answer _ (Settle policy hash encoded)) as [receipt|e]; cbn.
    + split; [eauto|]. intros _. by eexists.
    + split; [|by intros (_ & _ & ? & ?)]. by intros (? & [= <-] & ?).
Qed.

Lemma pay_cashu_exact ctx domain policy value :
  goes_on (pay_cashu srv req ctx domain policy value) ↔
  length (field "x-cashu") = 1%nat ∧ secure srv req = true ∧ has_payments srv = true ∧
  ∃ encoded, header_to_str value = Some encoded ∧ answer _ (Collect domain policy encoded) = Ok tt.
Proof.
  unfold pay_cashu. destruct (Nat.eqb_spec (length (field "x-cashu")) 1); cbn [negb]; [|by split; [|intros []]].
  destruct (secure srv req); cbn [negb]; [|by split; [|intros (_ & ? & _)]].
  destruct (header_to_str value) as [encoded|]; [|by split; [|intros (_ & _ & _ & ? & ? & _)]].
  destruct (has_payments srv); cbn [negb]; [|by split; [|intros (_ & _ & ? & _)]].
  rewrite goes_on_perform. destruct (answer _ (Collect domain policy encoded)) as [[]|er] eqn:Ha.
  - split; [eauto 10|done].
  - split; [by destruct er|]. intros (_ & _ & _ & ? & [= <-] & Ha'). congruence.
Qed.

Lemma payment_required_ends ctx site ip retry : ¬ goes_on (payment_required srv req ctx site ip retry).
Proof.
  unfold payment_required. rewrite goes_on_then. intros (o & _ & Hg). by destruct (is_none _ && is_none o).
Qed.
Lemma free_exact ctx site :
  goes_on (free_allowance srv req ctx site) ↔
  (rate_limit site = None ∧ payment site = None ∧ lightning site = None) ∨
  ∃ limiter ip, rate_limit site = Some limiter ∧ client_ip req = Some ip ∧
    answer _ (CheckLimiter limiter ip) = Ok tt.
Proof.
  unfold free_allowance. destruct (rate_limit site) as [limiter|]; cbn [is_none is_some negb andb orb].
  - rewrite goes_on_client. split.
    + intros (ip & Hip & Hg). right. exists limiter, ip. split; [done|]. split; [done|].
      rewrite goes_on_then in Hg. destruct Hg as (wait & Hw & Hg). cbn in Hw.
      destruct (answer _ (CheckLimiter limiter ip)) as [[]|w]; [done|]. injection Hw as <-.
      cbn [is_some orb] in Hg. destruct (_ || _); [by apply payment_required_ends in Hg|done].
    + intros [(? & _)|(? & ip & [= <-] & Hip & Ha)]; [done|]. exists ip. split; [done|].
      rewrite goes_on_then. exists None. cbn. by rewrite Ha.
  - destruct (is_none (payment site) && is_none (lightning site)) eqn:Hn.
    { split; [|done]. intros _. left. by destruct (payment site), (lightning site). }
    rewrite goes_on_client. split.
    + intros (ip & Hip & Hg). rewrite goes_on_then in Hg. destruct Hg as (wait & _ & Hg).
      rewrite orb_true_r in Hg. destruct (_ || _); [by apply payment_required_ends in Hg|done].
    + intros [(_ & Hp & Hl)|(? & ? & ? & _)]; [|done]. by rewrite Hp, Hl in Hn.
Qed.

(** From the headers to the decision. *)
Definition pay_stages (ctx : RequestContext) (domain : string) (site : Site) :
    proc Cmd (result Exit RequestContext) :=
  let! l402 := l402_header req ctx site in
  let! _ := check_methods req ctx site l402 in
  let! ln := lightning_header req ctx site in
  let_in srv req ctx domain site l402 ln.

Lemma pay_stages_grounds ctx domain site : goes_on (pay_stages ctx domain site) → grounds domain site.
Proof.
  unfold pay_stages. rewrite goes_on_then. intros (l402 & Hl402%l402_header_exact & Hg).
  rewrite goes_on_seq in Hg. destruct Hg as [[Hm Hx]%methods_exact Hg].
  rewrite goes_on_then in Hg. destruct Hg as (ln & Hln%lightning_header_exact & Hg).
  unfold let_in in Hg. destruct l402 as [cr|].
  - destruct (Hm eq_refl) as [Hps Hxc]. destruct Hl402 as (Hen & value & Hv & Hc).
    unfold l402_enabled in Hen. destruct (lightning site) as [p|] eqn:Hp; [|done].
    apply pay_lightning_exact in Hg as (Hs & Hl & url & hash & Hb & Ha).
    eapply gr_l402; eauto. by intros _.
  - destruct ln as [e|].
    + destruct Hln as (_ & Hxc & value & Hv & He & Hlen). destruct (lightning site) as [p|] eqn:Hp; [|done].
      apply pay_lightning_exact in Hg as (Hs & Hl & url & hash & Hb & receipt & Ha).
      eapply gr_x402; eauto. cbn in Hx. destruct (Ln.x402 (Ln.protocols p)); [done|].
      specialize (Hx eq_refl). congruence.
    + assert (goes_on (free_allowance srv req ctx site) → (payment site = None ∨ field "x-cashu" = []) →
              grounds domain site) as Hfree.
      { intros [(? & ? & ?)|(limiter & ip & ? & ? & ?)]%free_exact Hxc; [by apply gr_open|by eapply gr_free]. }
      destruct (payment site) as [policy|] eqn:Hp; [|by apply Hfree; auto].
      destruct (field "x-cashu") as [|value rest] eqn:Hxc; [by apply Hfree; auto|]. cbn [head] in Hg.
      apply pay_cashu_exact in Hg as (Hone & Hs & Hpay & encoded & He & Ha). rewrite Hxc in Hone.
      destruct rest; [|done]. by eapply gr_cashu.
Qed.

Lemma pay_stages_let_in ctx domain site l402 ln :
  found_l402 req site l402 → found_short site ln →
  (is_some l402 = true → field "payment-signature" = [] ∧ field "x-cashu" = []) →
  (is_some_and (λ p, negb (Ln.x402 (Ln.protocols p))) (lightning site) = true → field "payment-signature" = []) →
  goes_on (let_in srv req ctx domain site l402 ln) → goes_on (pay_stages ctx domain site).
Proof.
  intros Hl Hx Hm1 Hm2 Hg. unfold pay_stages. rewrite goes_on_then. exists l402.
  split; [by apply l402_header_exact|]. rewrite goes_on_seq. split; [by apply methods_exact|].
  rewrite goes_on_then. exists ln. by split; [apply lightning_header_exact|].
Qed.

Lemma grounds_pay_stages ctx domain site : grounds domain site → goes_on (pay_stages ctx domain site).
Proof.
  intros [Hr Hp Hl|limiter ip Hr Hip Hxc Hn1 Hn2 Ha|policy value encoded Hp Hxc Hn1 Hn2 He Hs Hpay Ha
    |policy value encoded url hash receipt Hl Hx Hps Hxc Hn1 He Hlen Hs Hln Hb Ha
    |policy value credential url hash Hl Hen Hau Hxc Hn2 Hc Hs Hln Hb Ha].
  - apply (pay_stages_let_in _ _ _ None None); unfold found_l402, found_short, no_l402, no_x402, l402_enabled;
      rewrite ?Hl; try done. unfold let_in. rewrite Hp. apply free_exact. by left.
  - apply (pay_stages_let_in _ _ _ None None); try done.
    + intros Hd. apply Hn2. by destruct (lightning site).
    + assert (goes_on (free_allowance srv req ctx site)) as Hf by (apply free_exact; right; eauto).
      unfold let_in. destruct Hxc as [->| ->]; [done|]. by destruct (payment site).
  - apply (pay_stages_let_in _ _ _ None None); try done.
    + intros Hd. apply Hn2. by destruct (lightning site).
    + unfold let_in. rewrite Hp, Hxc. cbn [head]. apply pay_cashu_exact. rewrite Hxc.
      split; [done|]. split; [done|]. split; [done|]. by exists encoded.
  - apply (pay_stages_let_in _ _ _ None (Some encoded)); try done.
    + split; [by rewrite Hl|]. eauto.
    + rewrite Hl. cbn. by rewrite Hx.
    + unfold let_in. rewrite Hl. apply pay_lightning_exact.
      split; [done|]. split; [done|]. exists url, hash. split; [done|]. by exists receipt.
  - assert (field "payment-signature" = []) as Hps by (apply Hn2; by rewrite Hl).
    apply (pay_stages_let_in _ _ _ (Some credential) None); try done.
    + split; [unfold l402_enabled; by rewrite Hl|eauto].
    + unfold let_in. rewrite Hl. apply pay_lightning_exact.
      split; [done|]. split; [done|]. by exists url, hash.
Qed.

(** ** The whole filter *)

Lemma filter_stages_split ctx :
  goes_on (filter_stages srv req ctx) ↔
  ∃ ctx1 domain site, (follow answer (route req ctx)).2 = Ok (ctx1, domain, site) ∧
    goes_on (check_scheme srv req ctx1 domain site) ∧
    ∃ ctx2, (follow answer (controlled req ctx1 site)).2 = Ok ctx2 ∧ goes_on (pay_stages ctx2 domain site).
Proof.
  unfold filter_stages. rewrite goes_on_then. split.
  - intros ([[ctx1 domain] site] & Hr & [Hc Hg]%goes_on_seq). exists ctx1, domain, site. split; [done|].
    split; [done|]. apply goes_on_then in Hg as (ctx2 & Hc2 & Hg). exists ctx2. split; [done|].
    apply goes_on_then in Hg as (l402 & Hl & [Hm Hg]%goes_on_seq).
    apply goes_on_then in Hg as (ln & Hn & (ctx3 & Hc3 & _)%goes_on_then).
    apply goes_on_then. exists l402. split; [done|]. apply goes_on_seq. split; [done|].
    apply goes_on_then. exists ln. split; [done|]. unfold goes_on. by rewrite Hc3.
  - intros (ctx1 & domain & site & Hr & Hc & ctx2 & Hc2 & Hg). eexists. split; [exact Hr|].
    apply goes_on_seq. split; [done|]. apply goes_on_then. exists ctx2. split; [done|].
    apply goes_on_then in Hg as (l402 & Hl & [Hm Hg]%goes_on_seq). apply goes_on_then in Hg as (ln & Hn & Hg).
    apply goes_on_then. exists l402. split; [done|]. apply goes_on_seq. split; [done|].
    apply goes_on_then. exists ln. split; [done|]. apply goes_on_then.
    unfold goes_on in Hg. destruct (follow answer (let_in _ _ _ _ _ _ _)).2 as [ctx3|]; [|done].
    exists ctx3. by split.
Qed.

Lemma filter_exact ctx : goes_on (filter_stages srv req ctx) ↔ ∃ domain site, allowed domain site.
Proof.
  rewrite filter_stages_split. split.
  - intros (ctx1 & domain & site & [Hd Hs]%route_exact & [Ht Hac]%scheme_exact & ctx2 & Hc2 & Hg).
    exists domain, site.
    assert (goes_on (controlled req ctx1 site)) as (Hf & Hv & Hc)%controlled_exact by (unfold goes_on; by rewrite Hc2).
    split; try done. by eapply pay_stages_grounds.
  - intros (domain & site & [Hd Hs Ht Hac Hf Hv Hc Hg]).
    destruct (route_found ctx domain site Hd Hs) as [ctx1 Hr]. exists ctx1, domain, site. split; [done|].
    split; [by apply scheme_exact|].
    assert (goes_on (controlled req ctx1 site)) as Hgo by (by apply controlled_exact).
    unfold goes_on in Hgo. destruct (follow answer (controlled req ctx1 site)).2 as [ctx2|]; [|done].
    exists ctx2. split; [done|]. by apply grounds_pay_stages.
Qed.

Lemma request_filter_result ctx :
  (follow answer (request_filter srv req ctx)).2 =
  match (follow answer (filter_stages srv req ctx)).2 with Ok e => e | Err e => e end.
Proof. unfold request_filter. by rewrite follow_bind. Qed.

(** Whoever is allowed is handed to the site, if the receipt of its own settlement
    can be a header. *)
Lemma allowed_handed `{!HeaderValueLaws} now domain site :
  allowed domain site →
  (∀ p url h e v, lightning site = Some p → field "payment-signature" ≠ [] →
     lightning_binding req p (srv_tls srv) (max_body_bytes (controls site)) = Ok (url, h) →
     answer _ (Settle p h e) = Ok v → bytes_all visible v = true) →
  handed req site (follow answer (request_filter srv req (new_ctx now))).2.
Proof.
  intros Ha Hv. assert (goes_on (filter_stages srv req (new_ctx now))) as Hg by (apply filter_exact; eauto).
  pose proof (post_steps _ _ [] _ _ _ (filter_post srv req (new_ctx now))
    (follow_steps answer (filter_stages srv req (new_ctx now)))) as Hp.
  unfold goes_on in Hg. rewrite request_filter_result.
  pose proof (λ X (c : Cmd X) x, follow_answers answer (filter_stages srv req (new_ctx now)) X c x) as Hans.
  destruct (follow answer (filter_stages srv req (new_ctx now))) as [tr [e'|]]; [|done]. simpl in *.
  destruct Hp as [(d & s & c & -> & (config & Hhead & Hd & Hs) & _ & _ & [_ Hrec] & _) _].
  assert (Ev LoadConfig config ∈ tr) as Hc%Hans by (by destruct tr; [|injection Hhead as ->; left]). subst config.
  destruct Ha as [Hd' Hs' _ _ _ _ _ _]. simplify_eq. apply finish_handed. intros v E.
  destruct (Hrec v E) as [|(p & url & h & en & Hl & Hx & Hb & Hset%Hans)]; [done|]. by eapply Hv.
Qed.

(** C3: [request_filter] lets in exactly those it should.  Whatever the services
    answer, a new request is served if and only if it meets the conditions for a
    site (the site is configured for its host and scheme, its declared body fits, the
    payment limiter let a payment attempt pass, there was room, and it is free,
    within the allowance, or paid in exactly one way that was accepted); and then it
    is that site which serves it: its backend gets the request, each header as it was
    sent except the payment ones, or the client gets the site's own status and text.
    The receipts of the Lightning service are taken to be visible ASCII, which header
    values may be. *)
Theorem admission_exact `{!HeaderValueLaws} now :
  (∀ p h e v, answer _ (Settle p h e) = Ok v → bytes_all visible v = true) →
  let e := (follow answer (request_filter srv req (new_ctx now))).2 in
  (served e.2 = true ↔ ∃ domain site, allowed domain site) ∧
  (∀ domain site, allowed domain site → handed req site e).
Proof.
  intros Hv e. assert (∀ domain site, allowed domain site → handed req site e) as Hh.
  { intros domain site Ha. apply (allowed_handed now domain site Ha). eauto. }
  split; [|done]. split; [|intros (domain & site & Ha); by eapply handed_served, Hh].
  intros Hs. apply (filter_exact (new_ctx now)). unfold goes_on.
  pose proof (post_steps _ _ [] _ _ _ (filter_post srv req (new_ctx now))
    (follow_steps answer (filter_stages srv req (new_ctx now)))) as Hp.
  unfold e in Hs. rewrite request_filter_result in Hs.
  destruct (follow answer (filter_stages srv req (new_ctx now))).2; [done|]. destruct Hp as [Hn _]. congruence.
Qed.
End complete.

(** ** A request that pays with a token *)

Module Examples.
Import Toy Admission.Examples.

Lemma example_allowed :
  allowed generous example_server example_request "shop.example" example_site.
Proof.
  split; try reflexivity; try done.
  - eexists. split; reflexivity.
  - intros c [= <-]. do 2 eexists. split; reflexivity.
  - eapply gr_cashu; try reflexivity; by intros ?.
Qed.
Lemma admission_exact_witness :
  (∃ domain site, allowed generous example_server example_request domain site) ∧
  served (follow generous example_filter).2.2 = true ∧
  handed example_request example_site (follow generous example_filter).2.
Proof.
  destruct (admission_exact generous example_server example_request 0) as [Hiff Hh].
  - intros p h e v [= <-]. reflexivity.
  - split; [eauto using example_allowed|]. split; [apply Hiff; eauto using example_allowed|].
    by apply (Hh _ _ example_allowed).
Defined.
End Examples.
End Complete.
