(* ===== verification/Paid.v ===== *)
(** * Lightning payments at the gateway

    The request handlers of the gateway and the Lightning service as one concurrent
    system: a handler that settles a payment or asks for a challenge waits for a task
    of the service, which runs a step at a time among the other tasks on the journal;
    handlers are dropped with what they wait for, and the process restarts.  The
    service's part of such a run is a run of [LnStore]; what the handlers were
    answered is in its log.  So a Lightning payment buys one request, over both
    protocols, all handlers and all restarts. *)
From S2P Require Import Prelude Text Net Effects Conc Extern Flow RateLimit Capacity Ledger Cdk Terms LnPolicy Http Payments Minting Payout Wallets Config State LnProof LnStore Proxy Admission Gateway Models.
#[local] Open Scope string_scope.
#[local] Open Scope list_scope.
#[local] Open Scope Z_scope.

(** ** Counting *)

Lemma submseteq_NoDup {A} (l l' : list A) : l ⊆+ l' → NoDup l' → NoDup l.
Proof. intros [k ->]%submseteq_Permutation. rewrite NoDup_app. by intros [? _]. Qed.
Lemma omap_submseteq {A B} (f : A → option B) (l l' : list A) : l ⊆+ l' → omap f l ⊆+ omap f l'.
Proof. intros [k ->]%submseteq_Permutation. rewrite omap_app. by apply submseteq_inserts_r. Qed.
Lemma omap_compose {A B C} (f : A → option B) (g : B → option C) (l : list A) :
  omap g (omap f l) = omap (λ a, f a ≫= g) l.
Proof. induction l as [|a l IH]; [done|]. simpl. destruct (f a) as [b|]; [|exact IH]. simpl. destruct (g b); [by f_equal|exact IH]. Qed.
(** Calls with distinct keys: one for each key. *)
Lemma tally_distinct {Cmd : Type → Type} {K} `{EqDecision K} (f : event Cmd → option K) (k : K) l :
  NoDup (omap f l) → (tally (λ e, bool_decide (f e = Some k)) l ≤ 1)%nat.
Proof.
  unfold tally. induction l as [|e l IH]; simpl; [lia|]. destruct (f e) as [k'|] eqn:E; [|done].
  intros [Hk Hnd]%NoDup_cons. case_bool_decide as Hek; [|auto]. injection Hek as ->. simpl.
  assert (List.filter (λ e0, bool_decide (f e0 = Some k)) l = []) as ->; [|simpl; lia].
  clear IH Hnd E. induction l as [|e' l IH]; [done|]. simpl in *.
  destruct (f e') as [k'|] eqn:E'; [|by rewrite IH].
  rewrite not_elem_of_cons in Hk. destruct Hk as [Hne Hk].
  rewrite bool_decide_eq_false_2 by congruence. auto.
Qed.

Module Paid.
Import Conf Http Front Admission Gateway.

Section paid.
Context `{UrlLib, MintUrlLib, Sha256, HmacSha256, InvoiceLib, Proofs.LnJson, Service.StoreJson, Base64, MacaroonLib}.
Context `{HeaderValues, HttpLib, JsonLib, PaymentRequests}.

(** ** The requests the gateway makes of the service *)

Definition settlement (e : event Cmd) : option (Service.Req * Service.Resp) :=
  match e with
  | Ev c x =>
      match c in Cmd X return X → option (Service.Req * Service.Resp) with
      | Settle p hash encoded => λ r, Some (Service.ReqSettle p hash encoded, Service.RSettle r)
      | SettleL402 p hash encoded => λ r, Some (Service.ReqSettleL402 p hash encoded, Service.RSettleL402 r)
      | _ => λ _, None
      end x
  end.
(** The payment that a settlement consumed. *)
Definition consumed (e : event Cmd) : option string := settlement e ≫= Service.admitted.

Lemma consumed_distinct events log :
  omap settlement events ⊆+ log → NoDup (omap Service.admitted log) → NoDup (omap consumed events).
Proof.
  intros Hs. unfold consumed. rewrite <- (omap_compose settlement).
  by apply submseteq_NoDup, omap_submseteq.
Qed.

(** ** The payments in the headers of a request *)

(** The keys under which the journal of the service would spend what a request with
    these headers presents to a site with this policy. *)
Definition presents (key : string) (p : Ln.Policy) (hs : HeaderMap) : bool :=
  existsb (λ value, bool_decide
      (header_to_str value ≫= (λ e, Proofs.spent_key p <$> Service.x402_payment_hash e) = Some key))
    (get_all "payment-signature" hs)
  || Ln.l402 (Ln.protocols p)
     && existsb (λ value, bool_decide
          (l402_credential value ≫= (λ c, Proofs.spent_key p <$> Service.l402_payment_hash c) = Some key))
        (get_all "authorization" hs).
(** The request was served, by a site that sells for Lightning, with this payment
    in a header. *)
Definition served_for (key : string) (t : @task Cmd Arrival Exit) : bool :=
  was_served t
  && is_some_and (λ site, is_some_and (λ p, presents key p (req_headers (a_request (t_req t))))
       (lightning site)) (site_of t).

Lemma presents_nothing key p req site :
  lightning site = Some p → no_l402 req site → no_x402 req site → presents key p (req_headers req) = false.
Proof.
  unfold no_l402, no_x402, l402_enabled, presents. intros ->. simpl. intros Hl ->; [|done]. simpl.
  destruct (Ln.l402 (Ln.protocols p)); [by rewrite Hl|done].
Qed.

Lemma served_for_consumed key t :
  steps (handle (t_req t)) (t_past t) (t_rest t) → served_for key t = true →
  ∃ e, e ∈ t_past t ∧ bool_decide (consumed e = Some key) = true.
Proof.
  intros Hs Hq. unfold served_for, was_served in Hq. rewrite !andb_true_iff in Hq.
  destruct Hq as [Hserved Hsite]. destruct (t_rest t) as [[ctx' o]|] eqn:Et; [|done].
  pose proof (post_steps _ _ [] _ _ _ (request_filter_post _ _ _) Hs)
    as [[Hn _]|(domain & site & c & _ & Hr & _ & _ & _ & Hent)]; simpl in *; [congruence|].
  apply routed_site in Hr. rewrite Hr in Hsite. simpl in Hsite.
  destruct (lightning site) as [p|] eqn:Hp; [|done]. simpl in Hsite.
  destruct Hent as [_ _ Hp'|r ip _ _ _ Hl Hx _|policy v enc _ _ Hl Hx _ _ _
    |policy v enc url hash rc Hp' _ Hg _ Hl He _ _ Hin|policy v cr url hash Hp' Hen Hg _ Hx He _ _ Hin];
    try congruence; try (by rewrite (presents_nothing key p _ site Hp Hl Hx) in Hsite).
  - assert (policy = p) as -> by congruence. unfold presents in Hsite. rewrite Hg in Hsite. simpl in Hsite.
    rewrite He in Hsite. simpl in Hsite. unfold no_l402, l402_enabled in Hl. rewrite Hp in Hl. simpl in Hl.
    exists (Ev (Settle p hash enc) (Ok rc)). split; [done|]. unfold consumed. simpl.
    destruct (Ln.l402 (Ln.protocols p)); [rewrite Hl in Hsite by done|]; simpl in Hsite;
      by rewrite !orb_false_r in Hsite.
  - assert (policy = p) as -> by congruence. unfold presents, no_x402 in *. rewrite Hx in Hsite by (by rewrite Hp).
    rewrite Hen, Hg in Hsite. simpl in Hsite. rewrite He, orb_false_r in Hsite. simpl in Hsite.
    by exists (Ev (SettleL402 p hash cr) (Ok tt)).
Qed.

(** ** Handlers and service together *)

(** What a call asks of the service, and the part of an answer it is for. *)
Definition ask {X} (c : Cmd X) : option Service.Req :=
  match c with
  | Settle p hash encoded => Some (Service.ReqSettle p hash encoded)
  | SettleL402 p hash encoded => Some (Service.ReqSettleL402 p hash encoded)
  | MakeChallenge p url hash ip => Some (Service.ReqChallenge p url hash ip)
  | _ => None
  end.
Definition reply {X} (c : Cmd X) : Service.Resp → option X :=
  match c in Cmd X return Service.Resp → option X with
  | Settle _ _ _ => λ a, match a with Service.RSettle r => Some r | _ => None end
  | SettleL402 _ _ _ => λ a, match a with Service.RSettleL402 r => Some r | _ => None end
  | MakeChallenge _ _ _ _ => λ a, match a with Service.RChallenge r => Some r | _ => None end
  | _ => λ _, None
  end.

(** A request with the task of the service it waits for; a handler that was dropped
    makes no more calls. *)
Record visitor := { v_task : @task Cmd Arrival Exit; v_waits : option nat; v_alive : bool }.
Abbreviation Service_sys := (@sys Service.Store Service.LnCmd Service.Req Service.Resp).
Record joint := {
  visitors : list visitor;
  service : Service_sys;
  past : list (@Conc.action Service.Req)       (** what the service has done *)
}.

Inductive jaction :=
| Enter (a : Arrival)
(** handler [i] makes its next call; one that is not for the service is answered so *)
| Advance (i : nat) (answer : ∀ X, Cmd X → X)
(** task [j] of the service takes a step, which can fail *)
| Work (j : nat) (fails : option bool)
(** handler [i] is dropped, and what it waits for *)
| Leave (i : nat) (applied : bool)
| Maintain (recover : bool)
| Elapse (seconds : Z)
| Reboot.

Section system.
Context (env : nat → ∀ X, Service.LnCmd X → X).
Abbreviation step := (Conc.step Service.handler Service.restart env).

Definition answered {X} (v : visitor) (c : Cmd X) (k : X → proc Cmd Exit) (x : X) : visitor :=
  {| v_task := {| t_req := t_req (v_task v); t_past := t_past (v_task v) ++ [Ev c x]; t_rest := k x |};
     v_waits := None; v_alive := v_alive v |}.
Definition waiting (j : nat) (v : visitor) : visitor :=
  {| v_task := v_task v; v_waits := Some j; v_alive := v_alive v |}.
Definition gone (v : visitor) : visitor :=
  {| v_task := v_task v; v_waits := None; v_alive := false |}.

(** The answer of a task to the handler that waits for it. *)
Definition receive (a : Service.Resp) (v : visitor) : visitor :=
  match t_rest (v_task v) with
  | Do c k => match reply c a with Some x => answered v c k x | None => v end
  | Done _ => v
  end.
Definition deliver (j : nat) (before after : Service_sys) (vs : list visitor) : list visitor :=
  match drop (length (log before)) (log after), list_find (λ v, v_waits v = Some j) vs with
  | [(_, a)], Some (i, v) => <[i := receive a v]> vs
  | _, _ => vs
  end.
(** An action of the service that concerns task [j]. *)
Definition serve (j : nat) (a : Conc.action) (vs : list visitor) (s : joint) : joint :=
  {| visitors := deliver j (service s) (step (service s) a) vs; service := step (service s) a;
     past := past s ++ [a] |}.

Definition advance (s : joint) (i : nat) (v : visitor) (answer : ∀ X, Cmd X → X) : joint :=
  match v_alive v, v_waits v, t_rest (v_task v) with
  | true, None, Do c k =>
      match ask c with
      | Some r =>
          let j := length (Conc.tasks (service s)) in
          serve j (Spawn r) (<[i := waiting j v]> (visitors s)) s
      | None => {| visitors := <[i := answered v c k (answer _ c)]> (visitors s); service := service s;
                   past := past s |}
      end
  | _, _, _ => s
  end.
Definition jact (s : joint) (a : jaction) : joint :=
  match a with
  | Enter a =>
      {| visitors := visitors s ++ [{| v_task := {| t_req := a; t_past := []; t_rest := handle a |};
                                       v_waits := None; v_alive := true |}];
         service := service s; past := past s |}
  | Advance i answer => match visitors s !! i with Some v => advance s i v answer | None => s end
  | Work j fails =>
      serve j (Step j (match fails with None => Proceed | Some applied => Fails applied end)) (visitors s) s
  | Leave i applied =>
      match visitors s !! i with
      | Some v =>
          let vs := <[i := gone v]> (visitors s) in
          match v_waits v with
          | Some j => {| visitors := vs; service := step (service s) (Step j (Dropped applied));
                         past := past s ++ [Step j (Dropped applied)] |}
          | None => {| visitors := vs; service := service s; past := past s |}
          end
      | None => s
      end
  | Maintain recover =>
      let a := Spawn (if recover : bool then Service.ReqRecover else Service.ReqPrune) in
      {| visitors := visitors s; service := step (service s) a; past := past s ++ [a] |}
  | Elapse d => {| visitors := visitors s; service := step (service s) (Tick d); past := past s ++ [Tick d] |}
  | Reboot => {| visitors := map gone (visitors s); service := step (service s) Restart; past := past s ++ [Restart] |}
  end.
Definition jplay (t0 : Z) (l : list jaction) : joint :=
  fold_left jact l {| visitors := []; service := start Service.empty t0; past := [] |}.

(** ** What the handlers were answered is in the service's log *)

Definition settled (vs : list visitor) : list (Service.Req * Service.Resp) :=
  omap settlement (concat (map (t_past ∘ v_task) vs)).
Definition asks (v : visitor) : option Service.Req :=
  match t_rest (v_task v) with Do c _ => ask c | Done _ => None end.
(** The task a handler waits for, if it still runs, has the handler's question. *)
Definition waits_ok (s : Service_sys) (v : visitor) : Prop :=
  ∀ j, v_waits v = Some j → (j < length (Conc.tasks s))%nat ∧
    ∀ r p, Conc.tasks s !! j = Some (Some (r, p)) → asks v = Some r.
Definition follows (v : visitor) : Prop :=
  steps (handle (t_req (v_task v))) (t_past (v_task v)) (t_rest (v_task v)).
Definition joint_ok (vs : list visitor) (s : Service_sys) : Prop :=
  Forall follows vs ∧ Forall (waits_ok s) vs ∧ settled vs ⊆+ log s.

Lemma settled_insert vs i v v' more :
  vs !! i = Some v →
  omap settlement (t_past (v_task v')) ⊆+ omap settlement (t_past (v_task v)) ++ more →
  settled (<[i := v']> vs) ⊆+ settled vs ++ more.
Proof.
  intros Hi Hv. assert (i < length vs)%nat by by apply lookup_lt_Some in Hi.
  unfold settled. rewrite insert_take_drop by done. rewrite <- (take_drop_middle vs i v Hi) at 3.
  rewrite !map_app, !concat_app. cbn [map concat]. rewrite !omap_app.
  rewrite <- !(assoc_L (++)). apply submseteq_app; [done|]. rewrite (comm (++) _ more), (assoc_L (++)).
  by apply submseteq_app.
Qed.

Lemma receive_waits a v : v_waits (receive a v) = v_waits v ∧ receive a v = v ∨ v_waits (receive a v) = None.
Proof. unfold receive. destruct (t_rest (v_task v)); [auto|]. destruct (reply c a); auto. Qed.
Lemma receive_follows a v : follows v → follows (receive a v).
Proof.
  unfold receive, follows. intros Hs. destruct (t_rest (v_task v)) as [?|X c k] eqn:E; [by rewrite E|].
  destruct (reply c a); [|by rewrite E]. simpl. by eapply steps_snoc.
Qed.
Lemma receive_settled a r v :
  asks v = Some r →
  omap settlement (t_past (v_task (receive a v))) ⊆+ omap settlement (t_past (v_task v)) ++ [(r, a)].
Proof.
  unfold asks, receive. destruct (t_rest (v_task v)) as [?|X c k]; [done|]. intros Hr.
  destruct (reply c a) as [x|] eqn:Ex; [|by apply submseteq_inserts_r]. simpl.
  rewrite omap_app. apply submseteq_app; [done|].
  destruct c; try discriminate; simpl in *; injection Hr as <-; destruct a; simplify_eq; simpl;
    first [done|apply submseteq_nil_l].
Qed.

Lemma waits_ok_moved j r s s' v :
  moved j r s s' → (v_waits v = Some j → asks v = Some r) → waits_ok s v → waits_ok s' v.
Proof.
  intros [_ (x & Ht & Hx)] Hr Hv i Hi. destruct (Hv i Hi) as [Hlt Hq]. rewrite Ht. split; [by rewrite length_insert|].
  intros r' p [(<- & -> & _)|[_ Hp]]%list_lookup_insert_Some; [|by eauto].
  rewrite (Hx _ _ eq_refl). auto.
Qed.
(** A step of task [j], whose answer goes to the handler that waits for it. *)
Lemma deliver_ok j r s s' vs :
  moved j r s s' → (∀ v, v ∈ vs → v_waits v = Some j → asks v = Some r) →
  joint_ok vs s → joint_ok (deliver j s s' vs) s'.
Proof.
  intros Hm Hr (Hf & Hw & Hs).
  assert (Forall (waits_ok s') vs) as Hw'.
  { apply Forall_forall. intros v Hv. eapply waits_ok_moved; [done|by apply Hr|]. by eapply Forall_forall in Hw. }
  destruct (Hm) as [[Hl|[a Hl]] _]; unfold deliver; rewrite Hl.
  { rewrite drop_all. split_and!; auto. by rewrite Hl. }
  rewrite drop_app_length. destruct (list_find _ vs) as [[i v]|] eqn:Hfind.
  - apply list_find_Some in Hfind as (Hi & Hj & _). pose proof (list_elem_of_lookup_2 _ _ _ Hi) as Hin.
    split_and!.
    + apply Forall_insert; [done|]. apply receive_follows. by eapply Forall_forall in Hf.
    + apply Forall_insert; [done|]. destruct (receive_waits a v) as [[_ ->]|Hn]; [by eapply Forall_forall in Hw'|].
      intros i' Hi'. congruence.
    + rewrite Hl. etrans; [by eapply settled_insert, receive_settled; eauto|]. by apply submseteq_app.
  - split_and!; auto. rewrite Hl. by apply submseteq_inserts_r.
Qed.
(** A change of one handler that makes no settlement. *)
Lemma joint_ok_insert vs s i v v' :
  vs !! i = Some v → joint_ok vs s → follows v' → waits_ok s v' →
  omap settlement (t_past (v_task v')) = omap settlement (t_past (v_task v)) → joint_ok (<[i := v']> vs) s.
Proof.
  intros Hi (Hf & Hw & Hs) Hf' Hw' He. split_and!; [by apply Forall_insert|by apply Forall_insert|].
  etrans; [|exact Hs]. etrans; [by apply (settled_insert vs i v v' []); [|rewrite He, app_nil_r]|].
  by rewrite app_nil_r.
Qed.
(** A change of the service that leaves its tasks, or ends them. *)
Lemma joint_ok_service vs s s' :
  (∀ v, v ∈ vs → waits_ok s v → waits_ok s' v) → log s ⊆+ log s' → joint_ok vs s → joint_ok vs s'.
Proof.
  intros Ht Hl (Hf & Hw & Hs). split_and!; [done| |by etrans].
  apply Forall_forall. intros v Hv. apply Ht; [done|]. by eapply Forall_forall in Hw.
Qed.
Lemma gone_ok s v : waits_ok s (gone v).
Proof. by intros j. Qed.

(** The service with room for the task it is about to start. *)
Definition room (s : Service_sys) : Service_sys :=
  {| store := store s; Conc.clock := Conc.clock s; Conc.calls := Conc.calls s; Conc.tasks := Conc.tasks s ++ [None]; log := log s |}.
Lemma room_ok s v : waits_ok s v → waits_ok (room s) v.
Proof.
  intros Hv j Hj. destruct (Hv j Hj) as [Hlt Hq]. simpl. rewrite length_app. split; [simpl; lia|].
  intros r p. by rewrite lookup_app_l; eauto.
Qed.
Lemma spawn_moved r s : moved (length (Conc.tasks s)) r (room s) (step s (Spawn r)).
Proof. apply resume_moved. Qed.
Lemma moved_log j r (s s' : Service_sys) : moved j r s s' → log s ⊆+ log s'.
Proof. intros [[->|[a ->]] _]; [done|]. by apply submseteq_inserts_r. Qed.

Lemma step_joint_ok vs s a : a ≠ Restart → joint_ok vs s → joint_ok vs (step s a).
Proof.
  intros Ha Hok. destruct a as [r|j fate|d|]; [| | |done].
  - apply (joint_ok_service vs s); [|by eapply (moved_log _ r (room s)), spawn_moved|done]. intros v _ Hv.
    eapply waits_ok_moved; [apply spawn_moved| |by apply room_ok].
    intros Hj. apply Hv in Hj as [Hj _]. lia.
  - simpl. destruct (Conc.tasks s !! j) as [[[r p]|]|] eqn:Hj; try done.
    pose proof (step_task_moved env s j r p fate) as Hm.
    apply (joint_ok_service vs s); [|by eapply moved_log|done]. intros v _ Hv.
    eapply waits_ok_moved; [exact Hm| |done]. intros Hw. destruct (Hv j Hw) as [_ Hq]. eauto.
  - by apply (joint_ok_service vs s).
Qed.

Lemma joint_advance_ok s i v answer :
  visitors s !! i = Some v → joint_ok (visitors s) (service s) →
  joint_ok (visitors (advance s i v answer)) (service (advance s i v answer)).
Proof.
  intros Hi Hok. unfold advance. destruct (v_alive v); [|done]. destruct (v_waits v); [done|].
  destruct (t_rest (v_task v)) as [?|X c k] eqn:Et; [done|].
  assert (follows v) as Hf by (destruct Hok as [Hf _]; eapply Forall_lookup in Hf; eauto).
  destruct (ask c) as [r|] eqn:Er; simpl.
  - apply (deliver_ok _ r (room (service s))); [apply spawn_moved| |].
    + intros v' Hv Hw. apply list_elem_of_lookup in Hv as [i' Hv].
      apply list_lookup_insert_Some in Hv as [(_ & <- & _)|[_ Hv]]; [unfold asks; simpl; by rewrite Et|].
      destruct Hok as (_ & Hwait & _). eapply Forall_lookup in Hwait; [|done]. apply Hwait in Hw as [Hlt _]. lia.
    + eapply joint_ok_insert; [done| |exact Hf| |done].
      * apply (joint_ok_service _ (service s)); [|reflexivity|done]. intros ? _. apply room_ok.
      * intros j [= <-]. simpl. rewrite length_app. split; [simpl; lia|].
        intros r' p. by rewrite list_lookup_middle by done.
  - eapply joint_ok_insert; [done|done| |by intros ?|].
    + unfold follows in *. rewrite Et in Hf. exact (steps_snoc _ _ c k (answer _ c) Hf).
    + simpl. rewrite omap_app. destruct c; try discriminate; apply app_nil_r.
Qed.

Lemma jact_ok s a :
  joint_ok (visitors s) (service s) → joint_ok (visitors (jact s a)) (service (jact s a)).
Proof.
  intros Hok. destruct a as [a|i answer|j fails|i applied|recover|d|]; cbn [jact].
  - destruct Hok as (Hf & Hw & Hs). unfold joint_ok, settled. cbn [visitors service].
    rewrite map_app, concat_app, app_nil_r, !Forall_app.
    split_and!; try done; apply Forall_singleton; [constructor|by intros ?].
  - destruct (visitors s !! i) as [v|] eqn:Hi; [|done]. by apply joint_advance_ok.
  - unfold serve. cbn [visitors service]. generalize (match fails with Some applied => Fails applied | None => Proceed end). intros fate. cbn [Conc.step].
    destruct (Conc.tasks (service s) !! j) as [[[r p]|]|] eqn:Hj;
      try (unfold deliver; by rewrite drop_all).
    apply (deliver_ok j r); [apply step_task_moved| |done]. intros v Hv Hw.
    destruct Hok as (_ & Hwait & _). eapply Forall_forall in Hwait; [|done]. apply Hwait in Hw as [_ Hq]. eauto.
  - destruct (visitors s !! i) as [v|] eqn:Hi; [|done].
    assert (joint_ok (<[i := gone v]> (visitors s)) (service s)) as Hg.
    { eapply joint_ok_insert; [done|done| |apply gone_ok|done].
      destruct Hok as [Hf _]. eapply Forall_lookup in Hf; [|done]. exact Hf. }
    destruct (v_waits v); [|done]. by apply step_joint_ok.
  - by apply step_joint_ok.
  - by apply step_joint_ok.
  - destruct Hok as (Hf & _ & Hs). unfold joint_ok, settled. cbn [visitors service]. rewrite map_map.
    split_and!; [by apply Forall_map| |done]. apply Forall_map, Forall_true. intros v. apply gone_ok.
Qed.

(** Invariants of the joint system. *)
Lemma jplay_ind (P : joint → Prop) t0 l :
  P {| visitors := []; service := start Service.empty t0; past := [] |} → (∀ s a, P s → P (jact s a)) →
  P (jplay t0 l).
Proof. intros Hinit Hact. unfold jplay. revert Hinit. generalize (Build_joint [] (start Service.empty t0) []). induction l; simpl; auto. Qed.
Lemma jplay_ok t0 l : joint_ok (visitors (jplay t0 l)) (service (jplay t0 l)).
Proof. apply jplay_ind; [by split_and!|apply jact_ok]. Qed.
(** The service's part of a run is a run of the service. *)
Lemma jplay_service t0 l :
  service (jplay t0 l) = run Service.handler Service.restart env (start Service.empty t0) (past (jplay t0 l)).
Proof.
  apply jplay_ind; [done|]. unfold run. intros s a Hs.
  assert (∀ b, step (service s) b = fold_left step (past s ++ [b]) (start Service.empty t0)) as Hstep
    by (intros b; by rewrite fold_left_app, <- Hs).
  destruct a; cbn [jact]; unfold serve, advance; repeat case_match; first [exact Hs|apply Hstep].
Qed.
End system.

Context `{!InvoiceLaws} (expires : string → Z) (fresh : string → Prop).

(** C5: a Lightning payment buys one request.  Take any interleaving of the requests
    on the gateway, a call at a time, with the tasks of the Lightning service that
    settle their payments and make their challenges, a step at a time, with cleanups,
    with failures, dropped requests and restarts anywhere, and with any answers to
    the calls that are not for the service.  Under the assumptions on receivers and
    on digests of the service's own theorem, of all requests that sites selling for
    Lightning receive with one and the same payment in a header, as an x402 payment
    or as an L402 credential, at most one is served. *)
Theorem lightning_buys_one_request env t0 l key :
  Service.node_expiry expires → (∀ n X c, Service.ln_answers expires fresh X c (env n X c)) →
  Forall (action_ok (Service.req_ok fresh)) (past (jplay env t0 l)) →
  (length (List.filter (served_for key) (map v_task (visitors (jplay env t0 l)))) ≤ 1)%nat.
Proof.
  intros Hnode Henv Hok. destruct (jplay_ok env t0 l) as (Hf & _ & Hs).
  etrans; [apply (tasks_need_tally _ (λ e, bool_decide (consumed e = Some key)))|].
  - intros t [v [-> Hv]]%list_elem_of_fmap. apply served_for_consumed.
    eapply Forall_forall in Hf; [exact Hf|done].
  - rewrite <- tally_pasts. apply tally_distinct. eapply consumed_distinct.
    + rewrite map_map. exact Hs.
    + rewrite jplay_service. by eapply Service.admitted_keys_distinct.
Qed.
End paid.

(** ** A credential and a payment for one invoice *)

Module Examples.
Import Toy Proofs.Examples Service.Examples Admission.Examples.

(** What the request of the example gives to SHA-256, and a digest for it. *)
Definition bound_text : string :=
  json_binding ("x402:exact:lnbtc:bolt11:" +:+ Ln.binding_profile Ln.example_policy) "GET" "https://api.example.com/"
    (Ln.digest (H := sha_id) "") (default [] (ok (Ln.bound_headers (H := sha_id) (Ln.headers Ln.example_policy) []))).
Definition paid_sha : Sha256 := λ s, if bool_decide (s = bound_text) then sha "request" else s.

Definition vendor : Site :=
  {| domain := "api.example.com"; https := true; handler := Proxy example_upstream; rate_limit := None;
     payment := None; lightning := Some Ln.example_policy; capacity := None;
     controls := RequestControls_default; payment_verification := example_limiter 0 |}.
(** The calls that are not for the service: nothing refuses the request. *)
Definition open_door (X : Type) (c : Cmd X) : X :=
  match c in Cmd X return X with
  | LoadConfig => {| sites := {["api.example.com" := vendor]}; payouts := [] |}
  | c => generous _ c
  end.
Definition buyer (headers : HeaderMap) : Arrival :=
  {| a_server := example_server;
     a_request := {| method := "GET"; uri_scheme := None; uri_authority := None; uri_path := "/";
                     path_and_query := Some "/"; req_headers := ("host", "api.example.com") :: headers;
                     client_ip := Some (V4 3221226001); body := []; retry_buffer_truncated := false |};
     a_time := 0 |}.
(** A client is quoted a price; then its payment comes twice at once, as an x402
    payment and as an L402 credential. *)
Definition vendor_schedule : list jaction :=
  Enter (buyer []) :: repeat (Advance 0 open_door) 6 ++ repeat (Work 0 None) 20 ++
  Elapse 50 :: Enter (buyer [("payment-signature", Ln.hex "pay")]) ::
  Enter (buyer [("authorization", "L402 " +:+ example_credential)]) ::
  concat (repeat [Advance 1 open_door; Advance 2 open_door] 6) ++
  concat (repeat [Work 1 None; Work 2 None] 20).
Definition vendor_run : joint := jplay (H1 := paid_sha) example_env 1100 vendor_schedule.
Definition invoice_key : string := Proofs.spent_key Ln.example_policy (inv_payment_hash example_invoice).

Lemma identifier_digest inv nonce id :
  Ln.digest (H := paid_sha) (Proofs.l402_identifier inv nonce) = Ln.digest (H := paid_sha) id →
  Proofs.l402_identifier inv nonce = id.
Proof.
  intros E%Ln.hex_inj. unfold sha256, paid_sha in E.
  rewrite (bool_decide_eq_false_2 (Proofs.l402_identifier inv nonce = bound_text)) in E by (by vm_compute).
  case_bool_decide; [|done]. discriminate E.
Qed.
Lemma actions_ok l : Forall (action_ok (Service.req_ok (H1 := paid_sha) (λ _, True))) l.
Proof.
  apply Forall_true. intros [[]| | |]; try exact I. intros m pre inv nonce _ _ _ _. apply identifier_digest.
Qed.

Lemma lightning_buys_one_request_witness :
  map (was_served ∘ v_task) (visitors vendor_run) = [false; true; false] ∧
  map (λ v, presents (H1 := paid_sha) invoice_key Ln.example_policy (req_headers (a_request (t_req (v_task v)))))
    (visitors vendor_run) = [false; true; true] ∧
  (length (List.filter (served_for (H1 := paid_sha) invoice_key) (map v_task (visitors vendor_run))) ≤ 1)%nat.
Proof.
  split; [vm_compute; reflexivity|]. split; [vm_compute; reflexivity|].
  refine (lightning_buys_one_request (H1 := paid_sha) (λ _, 1300) (λ _, True) example_env 1100
    vendor_schedule invoice_key _ _ _).
  - intros p hash e t g inv _ Hv. apply Proofs.validate_invoice_good in Hv as [Hp _].
    unfold parse_invoice, invoices in Hp. case_bool_decide; [|done]. injection Hp as <-. vm_compute. reflexivity.
  - intros n X []; simpl; try done. intros s [= <-]. split; [done|apply take_pad_len].
  - apply actions_ok.
Defined.
End Examples.
End Paid.
