(* ===== verification/Retry.v ===== *)
(** * Waiting ([retry.rs], [acme_http.rs])

    The times the certificate automation waits for: the backoff of a failed
    request and the pause a certificate authority asks for.  Times are Unix seconds in an [i64], with the saturating
    arithmetic of the source. *)
From S2P Require Import Prelude Text Net Extern LnPolicy Http.
#[local] Open Scope string_scope.
#[local] Open Scope list_scope.
#[local] Open Scope Z_scope.

Module Wait.
Import Http.

(** ** Backoff *)

Record Retry := { failures : Z; next : Z }.
Definition Retry_default : Retry := {| failures := 0; next := 0 |}.

Definition ready (r : Retry) (now : Z) : bool := next r <=? now.

(** The base of the wait after that many failures. *)
Definition backoff (failures : Z) : Z := Z.min (30 * 2 ^ Z.min (Z.max (failures - 1) 0) 12) 86400.
Definition clamp (lo hi x : Z) : Z := Z.min hi (Z.max lo x).
Definition cap (now : Z) (expiry : option Z) : Z :=
  match expiry with
  | None => 86400
  | Some end_ => clamp 5 86400 (Z.quot (i64_sat_sub end_ now) 3)
  end.
(** [random] is the 16-bit number drawn. *)
Definition failed (now : Z) (expiry : option Z) (random : Z) (r : Retry) : Retry :=
  let base := backoff (failures r) in
  let jitter := Z.rem random (Z.quot base 5 + 1) in
  {| failures := failures r; next := i64_sat_add now (Z.min (base + jitter) (cap now expiry)) |}.
Definition begin (now : Z) (expiry : option Z) (timeout random : Z) (r : Retry) : Retry :=
  let r := {| failures := Z.min u32_max (failures r + 1); next := next r |} in
  let r := failed now expiry random r in
  {| failures := failures r; next := Z.max (next r) (i64_sat_add now timeout) |}.

(** ** The authority's own pauses *)

Definition trim (s : string) : string := trim_by (λ c, is_whitespace (byte_val c)) s.
(** [httpdate::parse_http_date], in seconds since the epoch *)
Class HttpDate := parse_http_date : string → option Z.

Section deadline.
Context `{HttpLib, HttpDate}.
Definition retry_deadline (status : Z) (headers : HeaderMap) (now : Z) : option Z :=
  if negb (in_range 400 499 status) && negb (in_range 500 599 status) then None
  else
    let header := trim <$> (get "retry-after" headers ≫= header_to_str) in
    let parsed :=
      match header with
      | None => None
      | Some v =>
          match ok (parse_u64 v) with
          | Some seconds => Some (i64_sat_add now (Z.min seconds i64_max))
          | None =>
              match parse_http_date v with
              | Some t => if 0 <=? t then Some (Z.min t i64_max) else None
              | None => None
              end
          end
      end in
    match parsed with
    | Some deadline => Some (Z.max deadline (i64_sat_add now 1))
    | None => if status =? 429 then Some (i64_sat_add now 60) else None
    end.
End deadline.

(** [Cooldown]: the barrier in memory and the one on disk; [written] says whether
    the write succeeded. *)
Record Cooldown := { until : Z; stored : Z }.
Definition cooldown_ready (c : Cooldown) (now : Z) : bool := until c <=? now.
Definition defer (deadline : Z) (written : bool) (c : Cooldown) : Cooldown :=
  let u := Z.max (until c) deadline in
  {| until := u; stored := if written then u else stored c |}.
Definition persist (written : bool) (c : Cooldown) : Cooldown :=
  {| until := until c; stored := if written then until c else stored c |}.
Definition load (c : Cooldown) : Cooldown := {| until := stored c; stored := stored c |}.

(** ** Theorems *)

Lemma backoff_bounds f : 30 ≤ backoff f ≤ 86400.
Proof.
  unfold backoff. assert (1 ≤ 2 ^ Z.min (Z.max (f - 1) 0) 12); [|lia].
  apply (Z.pow_le_mono_r 2 0); lia.
Qed.
Lemma backoff_mono f g : f ≤ g → backoff f ≤ backoff g.
Proof.
  intros Hfg. unfold backoff.
  assert (2 ^ Z.min (Z.max (f - 1) 0) 12 ≤ 2 ^ Z.min (Z.max (g - 1) 0) 12) by (apply Z.pow_le_mono_r; lia).
  lia.
Qed.

Definition sane (now : Z) : Prop := 0 ≤ now ≤ 2 ^ 62.

Lemma failed_next now expiry random r :
  sane now → 0 ≤ random →
  let base := backoff (failures r) in
  now + Z.min base (cap now expiry) ≤ next (failed now expiry random r)
    ≤ now + Z.min (base + Z.quot base 5) (cap now expiry) ∧
  5 ≤ cap now expiry ≤ 86400.
Proof.
  intros Hn Hr. unfold sane in Hn. cbv zeta. pose proof (backoff_bounds (failures r)) as Hb.
  assert (5 ≤ cap now expiry ≤ 86400) as Hc.
  { unfold cap, clamp. destruct expiry; lia. }
  split; [|done]. unfold failed. cbn [next]. set (base := backoff _) in *.
  assert (0 ≤ Z.rem random (Z.quot base 5 + 1) ≤ Z.quot base 5) as Hj.
  { pose proof (Z.quot_pos base 5 ltac:(lia) ltac:(lia)).
    pose proof (Z.rem_bound_pos random (Z.quot base 5 + 1) Hr ltac:(lia)). lia. }
  widths. lia.
Qed.

Lemma failed_waits now expiry random r :
  sane now → 0 ≤ random → now + 5 ≤ next (failed now expiry random r).
Proof.
  intros Hn Hr. destruct (failed_next now expiry random r Hn Hr) as [Hnext Hc].
  pose proof (backoff_bounds (failures r)). clear Hn. lia.
Qed.
Lemma begin_waits now expiry timeout random r :
  sane now → 0 ≤ random → 0 ≤ timeout ≤ 86400 → now + timeout ≤ next (begin now expiry timeout random r).
Proof. intros Hn _ Ht. unfold begin, sane in *. cbn [next failures]. widths. lia. Qed.

(** The wait before a certificate is requested again.  After an attempt begins,
    the next one is at least the request's own timeout away, so that not even a
    crash makes it immediate; failures wait between five seconds and a day, with a
    base that doubles from thirty seconds and never shrinks as failures repeat and
    at most a fifth more of jitter; and while a certificate is still valid for
    fifteen seconds or more, the next attempt comes before it expires. *)
Theorem retry_waits now expiry timeout random r :
  sane now → 0 ≤ random → 0 ≤ timeout ≤ 86400 → 0 ≤ failures r ≤ u32_max →
  (∀ e, expiry = Some e → i64 e) →
  let b := begin now expiry timeout random r in
  let f := failed now expiry random r in
  now + timeout ≤ next b ∧ (0 < timeout → ready b now = false) ∧
  failures b = Z.min u32_max (failures r + 1) ∧
  backoff (failures r) ≤ backoff (failures b) ∧
  now + 5 ≤ next f ≤ now + 86400 ∧
  (expiry = None → now + backoff (failures r) ≤ next f ≤ now + Z.quot (backoff (failures r) * 6) 5) ∧
  (∀ e, expiry = Some e → now + 15 ≤ e → next f < e).
Proof.
  intros Hn Hr Ht Hf He. cbv zeta.
  destruct (failed_next now expiry random r Hn Hr) as [Hnext Hcap].
  pose proof (backoff_bounds (failures r)) as Hb. unfold sane in Hn.
  assert (now + timeout ≤ next (begin now expiry timeout random r)) as Hbegin by (by apply begin_waits).
  split_and!; try lia.
  - intros Ht0. unfold ready. lia.
  - unfold begin. cbn [failures failed]. done.
  - unfold begin. cbn [failures failed]. apply backoff_mono. unfold u32_max in *. lia.
  - intros ->. unfold cap in Hnext. rewrite (Z.quot_div_nonneg (backoff (failures r)) 5) in Hnext by lia.
    rewrite (Z.quot_div_nonneg (backoff (failures r) * 6) 5) by lia.
    replace (backoff (failures r) * 6) with (backoff (failures r) + backoff (failures r) * 5) by ring.
    rewrite Z.div_add by done. clear -Hnext Hb. lia.
  - intros e -> Hl. assert (cap now (Some e) < e - now) as Hc; [clear Hnext Hbegin|clear -Hnext Hc; lia].
    assert (i64_sat_sub e now = e - now) as Es by (specialize (He e eq_refl); widths; lia).
    unfold cap, clamp. rewrite Es, Z.quot_div_nonneg by lia.
    assert ((e - now) / 3 < e - now) by (apply Z.div_lt; lia). lia.
Qed.

Lemma retry_waits_witness :
  let r := {| failures := 2; next := 0 |} in
  1000 + 180 ≤ next (begin 1000 (Some 4000) 180 65535 r) ∧ next (failed 1000 (Some 4000) 65535 r) < 4000.
Proof.
  pose proof (retry_waits 1000 (Some 4000) 180 65535 {| failures := 2; next := 0 |}) as Hr.
  cbv zeta in Hr. destruct Hr as (H1 & _ & _ & _ & _ & _ & H7); unfold sane; simpl; try (widths; lia).
  - intros e [= <-]. widths. lia.
  - split; [exact H1|]. apply (H7 4000); [reflexivity|lia].
Defined.
End Wait.
