(* ===== verification/Certs.v ===== *)
(** * Certificates ([certificates.rs], [automation.rs], [storage.rs])

    The background task that obtains a certificate for every HTTPS site, renews it
    and survives failures of the certificate authority, of the disk and of the
    process.  One pass of [certificate_loop] is a [proc]: its calls are the clock,
    the disk, the authority and the job set; [passes_of] is any number of passes,
    so that a theorem about all of them is one about every prefix of the unending
    loop.

    What the disk holds follows from the calls: a write that reports success is
    durable (the file is synced and renamed), one that reports failure may or may
    not have replaced the file.  A process can end at any call. *)
From stdpp Require Import sorting.
From S2P Require Import Prelude Text Sweep Net Extern Flow RateLimit Capacity Ledger Cdk Terms LnPolicy Payout Config Retry.
#[local] Open Scope string_scope.
#[local] Open Scope list_scope.
#[local] Open Scope Z_scope.

Module Certs.
Import Wait.

(** ** Certificates *)

(** [openssl]: parsing, the fields of a certificate, and keys. *)
Class TlsLib := {
  X509 : Type;
  PKey : Type;
  stack_from_pem : string → result anyhow (list X509);
  private_key_from_pem : string → result anyhow PKey;
  (** [leaf.public_key()?.public_eq(&key)] *)
  public_matches : X509 → PKey → result anyhow bool;
  (** the DNS names among the alternative names *)
  subject_alt_names : X509 → option (list (option string));
  x_not_before : X509 → result anyhow Z;
  x_not_after : X509 → result anyhow Z
}.

Record CertificatePem := { pem_chain : string; pem_private_key : string }.

Section certificate.
Context `{TlsLib}.
Record Certificate := { c_chain : list X509; c_key : PKey; not_before : Z; not_after : Z }.

Definition eq_ignore_ascii_case (a b : string) : bool :=
  bool_decide (to_ascii_lowercase a = to_ascii_lowercase b).
Definition covers (domain : string) (leaf : X509) : bool :=
  is_some_and (existsb (is_some_and (λ name, eq_ignore_ascii_case name domain))) (subject_alt_names leaf).
Definition Certificate_parse (domain : string) (pem : CertificatePem) : result anyhow Certificate :=
  chain ← stack_from_pem (pem_chain pem);
  leaf ← ok_or "certificate chain is empty" (head chain);
  key ← private_key_from_pem (pem_private_key pem);
  matches ← public_matches leaf key;
  _ ← ensure matches "certificate and private key do not match";
  _ ← ensure (covers domain leaf) ("certificate does not cover " +:+ domain);
  before ← x_not_before leaf;
  after ← x_not_after leaf;
  _ ← ensure (before <? after) "invalid certificate validity period";
  mret {| c_chain := chain; c_key := key; not_before := before; not_after := after |}.
Definition valid_at (c : Certificate) (now : Z) : bool := (not_before c <=? now) && (now <? not_after c).
Definition needs_renewal (c : Certificate) (now : Z) : bool :=
  negb (valid_at c now) || (not_before c + Z.quot ((not_after c - not_before c) * 2) 3 <=? now).
Definition expires_at (c : Certificate) : Z := not_after c.

(** [DynamicTls::certificate_callback]: the certificate presented, if any. *)
Definition certificate_callback (config : Conf.Config) (certificates : gmap string Certificate)
    (servername : option string) (now : Z) : option Certificate :=
  domain ← to_ascii_lowercase <$> servername;
  if is_some_and Conf.https (Conf.sites config !! domain) then
    opt_filter (λ c, valid_at c now) (certificates !! domain)
  else None.

Record PendingCertificate := { pem : CertificatePem; certificate : Certificate }.
Definition PendingCertificate_parse (domain : string) (p : CertificatePem) (now : Z) :
    result anyhow PendingCertificate :=
  c ← Certificate_parse domain p;
  _ ← ensure (valid_at c now) "CA returned a certificate that is not currently valid";
  mret {| pem := p; certificate := c |}.
End certificate.

(** ** The certificate loop *)

Record Retries := { r_account : Retry; r_domains : gmap string Retry }.
Definition Retries_default : Retries := {| r_account := Retry_default; r_domains := ∅ |}.

(** A write of a file: [Storage::write] returns an error for the last two. *)
Inductive Written := Saved | NotSaved | SavedWithError.
Definition saved (w : Written) : bool := match w with Saved => true | _ => false end.

Section loop.
Context `{TlsLib} {Account Credentials : Type}.

(** What a worker came to: the result of its task, or that it was stopped. *)
Inductive JobResult := Finished (r : result anyhow PendingCertificate) | Stopped.
Inductive Wake := Tick | Joined (id : nat) (r : JobResult).

(** The calls of the loop. *)
Inductive Cmd : Type → Type :=
| Now : Cmd Z
| Random : Cmd Z                                    (** two random bytes *)
| LoadCooldown : Cmd (result anyhow unit)
| ReadRetries : Cmd (result anyhow (option Retries))
| WriteRetries (r : Retries) : Cmd Written
| Select (jobs : gset nat) : Cmd Wake
| LoadConfig : Cmd Conf.Config
| AbortJob (id : nat) : Cmd unit
| ReadCertificate (domain : string) : Cmd (result anyhow (option CertificatePem))
| WriteCertificate (domain : string) (p : CertificatePem) : Cmd Written
| WriteAccount (c : Credentials) : Cmd Written
| CooldownReady : Cmd bool
| PersistCooldown : Cmd Written
| Connect : Cmd (result anyhow unit)                (** [AcmeHttp::new] *)
| ReadAccount : Cmd (result anyhow (option Credentials))
(** requests to the authority; a timeout is an error *)
| FromCredentials (c : Credentials) : Cmd (result anyhow Account)
| CreateAccount : Cmd (result anyhow (Account * Credentials))
| SpawnJob (a : Account) (domain : string) : Cmd nat.

Record Loop := {
  retries : Retries;
  account : option Account;
  credentials : option Credentials;
  loaded : gset string;
  jobs : gset nat;                  (** the join set, stopped tasks included *)
  active : gmap string nat;
  pending : gmap string PendingCertificate;
  save_at : Z;
  certificates : gmap string Certificate   (** [State::certificates] *)
}.
Definition set_retries r s := {| retries := r; account := account s; credentials := credentials s;
  loaded := loaded s; jobs := jobs s; active := active s; pending := pending s; save_at := save_at s;
  certificates := certificates s |}.
Definition set_account a c s := {| retries := retries s; account := a; credentials := c;
  loaded := loaded s; jobs := jobs s; active := active s; pending := pending s; save_at := save_at s;
  certificates := certificates s |}.
Definition set_loaded l s := {| retries := retries s; account := account s; credentials := credentials s;
  loaded := l; jobs := jobs s; active := active s; pending := pending s; save_at := save_at s;
  certificates := certificates s |}.
Definition set_workers j a s := {| retries := retries s; account := account s; credentials := credentials s;
  loaded := loaded s; jobs := j; active := a; pending := pending s; save_at := save_at s;
  certificates := certificates s |}.
Definition set_pending p s := {| retries := retries s; account := account s; credentials := credentials s;
  loaded := loaded s; jobs := jobs s; active := active s; pending := p; save_at := save_at s;
  certificates := certificates s |}.
Definition set_save_at t s := {| retries := retries s; account := account s; credentials := credentials s;
  loaded := loaded s; jobs := jobs s; active := active s; pending := pending s; save_at := t;
  certificates := certificates s |}.
Definition set_certificates c s := {| retries := retries s; account := account s; credentials := credentials s;
  loaded := loaded s; jobs := jobs s; active := active s; pending := pending s; save_at := save_at s;
  certificates := c |}.

Definition expiry (s : Loop) (domain : string) : option Z := expires_at <$> certificates s !! domain.

(** A step of the loop body: [Err s] is [continue] with the state [s]. *)
Abbreviation step A := (proc Cmd (result Loop A)).
Definition next_pass {A} (s : Loop) : step A := return_ s.

Fixpoint for_each {A} (l : list A) (body : A → Loop → step Loop) (s : Loop) : step Loop :=
  match l with
  | [] => Done (Ok s)
  | a :: l' => let! s := body a s in for_each l' body s
  end.

(** [retries.domains.entry(domain).or_default()] *)
Definition domain_retry (domain : string) (r : Retries) : Retry :=
  default Retry_default (r_domains r !! domain).
Definition set_domain_retry (domain : string) (x : Retry) (r : Retries) : Retries :=
  {| r_account := r_account r; r_domains := <[domain := x]> (r_domains r) |}.
Definition set_account_retry (x : Retry) (r : Retries) : Retries :=
  {| r_account := x; r_domains := r_domains r |}.

Definition domain_failed (domain : string) (s : Loop) : step Loop :=
  let! now := perform Now in
  let! random := perform Random in
  Done (Ok (set_retries (set_domain_retry domain
    (failed now (expiry s domain) random (domain_retry domain (retries s))) (retries s)) s)).

(** [Workers::remove] *)
Definition remove_worker (id : nat) (s : Loop) : option (string * Loop) :=
  match List.find (λ kv : string * nat, (kv.2 =? id)%nat) (map_to_list (active s)) with
  | Some (domain, _) => Some (domain, set_workers (jobs s) (delete domain (active s)) s)
  | None => None
  end.

(** [tokio::select!]: a tick, or a worker that ended. *)
Definition wake (s : Loop) : step Loop :=
  let! w := perform (Select (jobs s)) in
  match w with
  | Tick => Done (Ok s)
  | Joined id r =>
      let s := set_workers (jobs s ∖ {[id]}) (active s) s in
      let! s := match remove_worker id s with
                | None => Done (Ok s)
                | Some (domain, s) =>
                    match r with
                    | Finished (Ok cert) => Done (Ok (set_pending (<[domain := cert]> (pending s)) s))
                    | _ => domain_failed domain s
                    end
                end in
      let! _ := perform (WriteRetries (retries s)) in
      Done (Ok s)
  end.

(** [Workers::retain] *)
Definition retain_workers (domains : gset string) (s : Loop) : step Loop :=
  for_each (map_to_list (active s)) (λ '(domain, id) s,
    if decide (domain ∈ domains) then Done (Ok s)
    else let! _ := perform (AbortJob id) in
         Done (Ok (set_workers (jobs s) (delete domain (active s)) s))) s.
(** What is kept of the domains that are still configured. *)
Definition retain (domains : gset string) (s : Loop) : step Loop :=
  let! s := retain_workers domains s in
  let s := set_loaded (loaded s ∩ domains) s in
  let s := set_pending (filter (λ kv, kv.1 ∈ domains) (pending s)) s in
  Done (Ok (set_certificates (filter (λ kv, kv.1 ∈ domains) (certificates s)) s)).

(** [Storage::certificate], with what the read returned *)
Definition stored_certificate (domain : string) (read : result anyhow (option CertificatePem)) :
    option Certificate :=
  match read ≫= λ p, transpose (Certificate_parse domain <$> p) with
  | Ok cert => cert
  | Err _ => None
  end.
Definition load_certificates (domains : gset string) (s : Loop) : step Loop :=
  for_each (elements domains) (λ domain s,
    if decide (domain ∈ loaded s) then Done (Ok s)
    else
      let s := set_loaded ({[domain]} ∪ loaded s) s in
      if is_some (certificates s !! domain) then Done (Ok s)
      else
        let! read := perform (ReadCertificate domain) in
        Done (Ok (match stored_certificate domain read with
                  | Some cert => set_certificates (<[domain := cert]> (certificates s)) s
                  | None => s
                  end))) s.

(** Saving what was obtained; [install] of a pending certificate. *)
Definition save_account (s : Loop) : step Loop :=
  match credentials s with
  | None => Done (Ok s)
  | Some value =>
      let! w := perform (WriteAccount value) in
      Done (Ok (if saved w then set_account (account s) None s else s))
  end.
Definition install (domain : string) (cert : PendingCertificate) (s : Loop) :
    step (Loop * bool) :=
  let! w := perform (WriteCertificate domain (pem cert)) in
  if saved w then
    let s := set_certificates (<[domain := certificate cert]> (certificates s)) s in
    Done (Ok (s, true))
  else Done (Ok (s, false)).
Definition save_pending (domain : string) (cert : PendingCertificate) (s : Loop) : step (Loop * bool) :=
  let drop s := set_pending (delete domain (pending s)) s in
  let! now := perform Now in
  if negb (valid_at (certificate cert) now) then Done (Ok (drop s, false))
  else
    let! (s, installed) := install domain cert s in
    if installed
    then Done (Ok (drop (set_retries {| r_account := r_account (retries s);
                                        r_domains := delete domain (r_domains (retries s)) |} s), true))
    else Done (Ok (s, false)).
Fixpoint save_all (l : list (string * PendingCertificate)) (any : bool) (s : Loop) : step (Loop * bool) :=
  match l with
  | [] => Done (Ok (s, any))
  | (domain, cert) :: l' =>
      let! (s, installed) := save_pending domain cert s in
      save_all l' (any || installed) s
  end.
Definition save_stage (s : Loop) : step Loop :=
  let! now := perform Now in
  if now <? save_at s then Done (Ok s)
  else
    let! now := perform Now in
    let s := set_save_at (now + 5) s in
    let! s := save_account s in
    let! (s, any) := save_all (map_to_list (pending s)) false s in
    if any then let! _ := perform (WriteRetries (retries s)) in Done (Ok s)
    else Done (Ok s).

(** Whether anything may be requested now. *)
Definition gate (s : Loop) : step unit :=
  if is_some (credentials s) then next_pass s
  else
    let! ready_ := perform CooldownReady in
    if negb ready_ || (4 <=? Z.of_nat (size (jobs s))) then next_pass s
    else if is_none (account s) then
      let! now := perform Now in
      if ready (r_account (retries s)) now then Done (Ok tt) else next_pass s
    else Done (Ok tt).

Definition is_needed (s : Loop) (domain : string) : step bool :=
  if is_some (active s !! domain) || is_some (pending s !! domain) then Done (Ok false)
  else
    let! renew := match certificates s !! domain with
                  | None => Done (Ok true)
                  | Some cert => let! now := perform Now in Done (Ok (needs_renewal cert now))
                  end in
    if negb renew then Done (Ok false)
    else match r_domains (retries s) !! domain with
         | None => Done (Ok true)
         | Some retry => let! now := perform Now in Done (Ok (ready retry now))
         end.
Fixpoint collect_needed (s : Loop) (l : list string) : step (list string) :=
  match l with
  | [] => Done (Ok [])
  | domain :: l' =>
      let! needed := is_needed s domain in
      let! rest := collect_needed s l' in
      Done (Ok (if needed then domain :: rest else rest))
  end.
(** [sort_by_key(|domain| (expiry(domain).unwrap_or(0), domain.clone()))] *)
Definition urgency_le (s : Loop) (a b : string) : Prop :=
  let e d := default 0 (expiry s d) in
  e a < e b ∨ e a = e b ∧ str_leb a b = true.
#[export] Instance urgency_le_dec s a b : Decision (urgency_le s a b).
Proof. unfold urgency_le. apply _. Defined.
Definition by_urgency (s : Loop) (l : list string) : list string := merge_sort (urgency_le s) l.

Definition persist_stage (s : Loop) : step unit :=
  let! w := perform PersistCooldown in
  if negb (saved w) then next_pass s
  else
    let! w := perform (WriteRetries (retries s)) in
    if saved w then Done (Ok tt) else next_pass s.

(** [Automation::account], within its timeout *)
Definition get_account (s : Loop) : step (result anyhow (Account * option Credentials)) :=
  let! c := perform Connect in
  match c with
  | Err e => Done (Ok (Err e))
  | Ok _ =>
      let! stored := perform ReadAccount in
      match stored with
      | Err e => Done (Ok (Err e))
      | Ok (Some credentials) =>
          let! r := perform (FromCredentials credentials) in
          Done (Ok (match r with Ok a => Ok (a, None) | Err e => Err e end))
      | Ok None =>
          let! r := perform CreateAccount in
          Done (Ok (match r with Ok (a, c) => Ok (a, Some c) | Err e => Err e end))
      end
  end.
(** [needed.iter().filter_map(|domain| self.expiry(domain)).min()] *)
Definition earliest (s : Loop) (needed : list string) : option Z :=
  match omap (expiry s) needed with
  | [] => None
  | e :: l => Some (fold_left Z.min l e)
  end.
Definition register (needed : list string) (s : Loop) : step Loop :=
  let! now := perform Now in
  let! random := perform Random in
  let s := set_retries (set_account_retry
             (begin now (earliest s needed) 30 random (r_account (retries s))) (retries s)) s in
  let! w := perform (WriteRetries (retries s)) in
  if negb (saved w) then next_pass s
  else
    let! r := get_account s in
    let! s := match r with
              | Ok (created, saved) =>
                  Done (Ok (set_save_at 0 (set_retries (set_account_retry Retry_default (retries s))
                    (set_account (Some created) saved s))))
              | Err _ =>
                  let! now := perform Now in
                  let! random := perform Random in
                  Done (Ok (set_retries (set_account_retry
                    (failed now (earliest s needed) random (r_account (retries s))) (retries s)) s))
              end in
    let! _ := perform (WriteRetries (retries s)) in
    next_pass s.

(** [Workers::spawn] *)
Definition spawn_worker (a : Account) (domain : string) (s : Loop) : step Loop :=
  let! id := perform (SpawnJob a domain) in
  Done (Ok (set_workers ({[id]} ∪ jobs s) (<[domain := id]> (active s)) s)).

(** One order: the attempt is on disk before the authority hears of it. *)
Definition order (a : Account) (domain : string) (s : Loop) : step Loop :=
  let! now := perform Now in
  let! random := perform Random in
  let s := set_retries (set_domain_retry domain
             (begin now (expiry s domain) 180 random (domain_retry domain (retries s))) (retries s)) s in
  let! w := perform (WriteRetries (retries s)) in
  if negb (saved w) then next_pass s
  else spawn_worker a domain s.

Definition request_stage (needed : list string) (s : Loop) : step Loop :=
  match account s with
  | None =>
      let! now := perform Now in
      if ready (r_account (retries s)) now then register needed s else next_pass s
  | Some a => for_each (take (4 - size (jobs s)) needed) (order a) s
  end.

Definition body (s : Loop) : step Loop :=
  let! s := wake s in
  let! config := perform LoadConfig in
  let domains := list_to_set (Conf.https_domains config) : gset string in
  let! s := retain domains s in
  let! s := load_certificates domains s in
  let! s := save_stage s in
  let! _ := gate s in
  let! needed := collect_needed s (elements domains) in
  let needed := by_urgency s needed in
  if bool_decide (needed = []) then next_pass s
  else
    let! _ := persist_stage s in
    request_stage needed s.

(** [certificate_loop] for [n] passes, with the certificates already in memory, and
    what it ends with. *)
Definition load_retries : proc Cmd (result anyhow Retries) :=
  let! c := perform LoadCooldown in
  match c with
  | Err e => return_ e
  | Ok _ =>
      let! r := perform ReadRetries in
      match r with
      | Err e => return_ e
      | Ok r => Done (Ok (default Retries_default r))
      end
  end.
Definition first_state (certs : gmap string Certificate) (r : Retries) : Loop :=
  {| retries := r; account := None; credentials := None; loaded := ∅; jobs := ∅; active := ∅;
     pending := ∅; save_at := 0; certificates := certs |}.
Fixpoint passes_of (n : nat) (s : Loop) : proc Cmd Loop :=
  match n with
  | O => Done s
  | S n => proc_bind (body s) (λ r, passes_of n (match r with Ok s => s | Err s => s end))
  end.
Definition certificate_loop (n : nat) (certs : gmap string Certificate) : proc Cmd (result anyhow Loop) :=
  let! r := load_retries in
  proc_bind (passes_of n (first_state certs r)) (λ s, Done (Ok s)).

(** The task of a worker: what [issue] returned, parsed at some time. *)
Definition worker (domain : string) (issued : result anyhow CertificatePem) (now : Z) :
    result anyhow PendingCertificate :=
  issued ≫= λ p, PendingCertificate_parse domain p now.
End loop.
End Certs.
