(* ===== verification/Orders.v ===== *)
(** * Orders to the certificate authority

    The theorems about [certificate_loop] over the whole life of an installation:
    any number of processes one after the other, each stopped at any call, on the
    same disk.  A monitor follows the calls: it knows what the disk holds, which
    attempts were made when and whether their outcome was recorded, and which jobs
    run. *)
From stdpp Require Import sorting.
From S2P Require Import Prelude Text Sweep Net Extern Flow RateLimit Capacity Ledger Cdk Terms LnPolicy Payout Config Retry Certs.
#[local] Open Scope string_scope.
#[local] Open Scope list_scope.
#[local] Open Scope Z_scope.

Module Orders.
Import Wait Certs.

(** ** The monitor *)

(** An attempt: when it was made, the job that makes it (orders only), and whether
    its failure or success is known to the process that made it. *)
Record Attempt := { at_ : Z; job : option nat; settled : bool }.
(** Whom an attempt is for: the account, or a domain. *)
Abbreviation Target := (option string).
Definition patience (t : Target) : Z := match t with None => 30 | Some _ => 180 end.
(** The earliest time of the next attempt. *)
Definition due (t : Target) (a : Attempt) : Z := at_ a + if settled a then 5 else patience t.

Record Ghost := {
  g_now : Z;                                (** the last clock reading *)
  g_disk : option Retries;                  (** [retries.json] *)
  g_last : gmap Target Attempt;             (** the last attempts, success apart *)
  g_running : gmap nat (string * bool)      (** jobs not joined: domain, aborted *)
}.
Definition g_begin : Ghost := {| g_now := 0; g_disk := None; g_last := ∅; g_running := ∅ |}.
Definition set_now t g := {| g_now := t; g_disk := g_disk g; g_last := g_last g; g_running := g_running g |}.
Definition set_disk r g := {| g_now := g_now g; g_disk := r; g_last := g_last g; g_running := g_running g |}.
Definition set_last l g := {| g_now := g_now g; g_disk := g_disk g; g_last := l; g_running := g_running g |}.
Definition set_running r g := {| g_now := g_now g; g_disk := g_disk g; g_last := g_last g; g_running := r |}.

Definition settle_attempt (a : Attempt) : Attempt := {| at_ := at_ a; job := job a; settled := true |}.
Definition settle (t : Target) (g : Ghost) : Ghost := set_last (alter settle_attempt t (g_last g)) g.
Definition attempted (t : Target) (j : option nat) (b : bool) (g : Ghost) : Ghost :=
  set_last (<[t := {| at_ := g_now g; job := j; settled := b |}]> (g_last g)) g.
Definition forget (t : Target) (g : Ghost) : Ghost := set_last (delete t (g_last g)) g.
(** The outcome of a job counts for its own order only. *)
Definition settle_job (id : nat) (g : Ghost) : Ghost :=
  match g_running g !! id with
  | Some (d, _) =>
      if is_some_and (λ a, bool_decide (job a = Some id)) (g_last g !! Some d) then settle (Some d) g else g
  | None => g
  end.

Section orders.
Context `{TlsLib} {Account Credentials : Type}.
Abbreviation Cmd := (@Certs.Cmd _ Account Credentials).
Abbreviation Loop := (@Certs.Loop _ Account Credentials).

Definition observe (g : Ghost) (e : event Cmd) : Ghost :=
  match e with
  | Ev c x =>
      match c in Certs.Cmd X return X → Ghost with
      | Now => λ t, set_now t g
      | LoadCooldown => λ _, set_running ∅ g                 (* a process starts *)
      | WriteRetries r => λ w, match w with NotSaved => g | _ => set_disk (Some r) g end
      | Select _ => λ w, match w with
                         | Tick => g
                         | Joined id _ => let g := settle_job id g in
                                          set_running (delete id (g_running g)) g
                         end
      | AbortJob id => λ _, set_running (alter (λ j, (j.1, true)) id (g_running g)) g
      | WriteCertificate d _ => λ w, if saved w then forget (Some d) g else g
      | Connect => λ r, attempted None None (negb (is_ok r)) g
      | ReadAccount => λ r, if is_ok r then g else settle None g
      | FromCredentials _ => λ r, if is_ok r then forget None g else settle None g
      | CreateAccount => λ r, if is_ok r then forget None g else settle None g
      | SpawnJob _ d => λ id, set_running (<[id := (d, false)]> (g_running g))
                                (attempted (Some d) (Some id) false g)
      | _ => λ _, g
      end x
  end.

(** The environment: the clock does not go back, the disk holds what was written, a
    joined task is one of the set with the result of its worker, a new task has an
    id of its own. *)
Definition expect (g : Ghost) (e : event Cmd) : Prop :=
  match e with
  | Ev c x =>
      match c in Certs.Cmd X return X → Prop with
      | Now => λ t, g_now g ≤ t ≤ 2 ^ 62
      | Random => λ n, 0 ≤ n ≤ u16_max
      | ReadRetries => λ r, ∀ o, r = Ok o → o = g_disk g
      | Select jobs => λ w, ∀ id r, w = Joined id r → id ∈ jobs ∧
          ∀ d b, g_running g !! id = Some (d, b) →
            r = Stopped ∨ ∃ issued now, r = Finished (worker d issued now)
      | SpawnJob _ _ => λ id, g_running g !! id = None
      | _ => λ _, True
      end x
  end.

(** [retries] keeps target [t] waiting until [b]. *)
Definition holds_back (r : Retries) (t : Target) (b : Z) : Prop :=
  match t with
  | None => b ≤ next (r_account r)
  | Some d => ∃ x, r_domains r !! d = Some x ∧ b ≤ next x
  end.
Definition backed (g : Ghost) (r : Retries) : Prop :=
  ∀ t a, g_last g !! t = Some a → holds_back r t (due t a).
Definition on_disk (g : Ghost) (t : Target) (b : Z) : Prop :=
  ∃ r, g_disk g = Some r ∧ holds_back r t b.
(** No attempt for [t] is too recent. *)
Definition clear (g : Ghost) (t : Target) : Prop := ∀ a, g_last g !! t = Some a → due t a ≤ g_now g.

Definition allow (g : Ghost) (X : Type) (c : Cmd X) : Prop :=
  match c with
  | WriteRetries r => backed g r
  | Connect => clear g None ∧ on_disk g None (g_now g + 30)
  | SpawnJob _ d =>
      clear g (Some d) ∧ on_disk g (Some d) (g_now g + 180) ∧
      (size (g_running g) < 4)%nat ∧ ∀ id, g_running g !! id ≠ Some (d, false)
  | _ => True
  end.

(** ** What the disk promises *)

(** The wait of every recent attempt is on disk. *)
Definition durable (g : Ghost) : Prop :=
  (∀ t a, g_last g !! t = Some a → on_disk g t (due t a) ∧ at_ a ≤ g_now g) ∧ 0 ≤ g_now g ≤ 2 ^ 62.

Lemma holds_back_mono r t b b' : b' ≤ b → holds_back r t b → holds_back r t b'.
Proof. destruct t; simpl; [|lia]. intros Hb (x & Hx & ?). exists x. split; [done|lia]. Qed.
Lemma on_disk_mono g t b b' : b' ≤ b → on_disk g t b → on_disk g t b'.
Proof. intros Hb (r & Hd & Hr). exists r. split; [done|]. by eapply holds_back_mono. Qed.
Lemma due_settle t a : due t (settle_attempt a) ≤ due t a.
Proof. unfold due, patience. simpl. destruct (settled a), t; lia. Qed.

Lemma settle_last t g t' a :
  g_last (settle t g) !! t' = Some a →
  ∃ a', g_last g !! t' = Some a' ∧ at_ a = at_ a' ∧ job a = job a' ∧ due t' a ≤ due t' a'.
Proof.
  simpl. destruct (decide (t = t')) as [->|Hne].
  - rewrite lookup_alter_eq. destruct (g_last g !! t') as [a'|]; [|done]. intros [= <-].
    exists a'. split_and!; [done..|apply due_settle].
  - rewrite lookup_alter_ne by done. intros Ha. exists a. split_and!; try done; lia.
Qed.
Lemma settle_job_last id g t a :
  g_last (settle_job id g) !! t = Some a →
  ∃ a', g_last g !! t = Some a' ∧ at_ a = at_ a' ∧ job a = job a' ∧ due t a ≤ due t a'.
Proof.
  unfold settle_job. destruct (g_running g !! id) as [[d b]|]; [|by exists a].
  destruct (is_some_and _ _); [apply settle_last|by exists a].
Qed.
Lemma settle_job_same id g :
  g_now (settle_job id g) = g_now g ∧ g_disk (settle_job id g) = g_disk g ∧
  g_running (settle_job id g) = g_running g.
Proof. unfold settle_job. destruct (g_running g !! id) as [[d b]|]; [|done]. by destruct (is_some_and _ _). Qed.

(** Attempts may be settled or forgotten, and time may pass. *)
Lemma durable_weaken g g' :
  durable g → g_disk g' = g_disk g → g_now g ≤ g_now g' ≤ 2 ^ 62 →
  (∀ t a, g_last g' !! t = Some a →
     ∃ a', g_last g !! t = Some a' ∧ at_ a = at_ a' ∧ job a = job a' ∧ due t a ≤ due t a') →
  durable g'.
Proof.
  intros [Hd Hn] Hdisk Hnow Hl. split; [|lia]. intros t a Ha.
  destruct (Hl t a Ha) as (a' & Ha' & Hat & _ & Hdue). destruct (Hd t a' Ha') as [(r & Hr & Hb) ?].
  split; [|lia]. exists r. rewrite Hdisk. split; [done|]. by eapply holds_back_mono.
Qed.

Lemma durable_step g X (c : Cmd X) x :
  durable g → allow g X c → expect g (Ev c x) → durable (observe g (Ev c x)).
Proof.
  intros Hd Ha He.
  destruct c as [| | | |r|js| |id|d|d p|cr| | | | |cr| |acc d]; cbn [observe expect allow] in *;
    try exact Hd; try (apply (durable_weaken g); [done|done|destruct Hd; simpl; lia|];
      intros t a Hl; simpl in Hl; exists a; split_and!; [done..|lia]).
  - destruct x; [|done|]; (split; [|apply Hd]; intros t a Hl; split; [|by apply (proj1 Hd t a)];
      exists r; split; [done|by apply Ha]).
  - destruct x as [|id r]; [done|]. destruct (settle_job_same id g) as (Hn & Hdk & _).
    apply (durable_weaken g); simpl; [done|done|rewrite Hn; destruct Hd; lia|apply settle_job_last].
  - destruct (saved x); [|done]. apply (durable_weaken g); [done|done|destruct Hd; simpl; lia|].
    intros t a. simpl. rewrite lookup_delete_Some. intros [_ Hl]. exists a. split_and!; [done..|lia].
  - destruct Hd as [Hd Hn], Ha as [_ Ha]. split; [|done]. intros t a. simpl. rewrite lookup_insert_Some.
    intros [[<- <-]|[_ Hl]]; [|by apply Hd]. simpl. split; [|lia].
    eapply on_disk_mono; [|exact Ha]. unfold due. simpl. destruct (negb _); lia.
  - destruct (is_ok x); [done|]. apply (durable_weaken g); [done|done|destruct Hd; simpl; lia|apply settle_last].
  - destruct (is_ok x); apply (durable_weaken g); try done; try (destruct Hd; simpl; lia); [|apply settle_last].
    intros t a. simpl. rewrite lookup_delete_Some. intros [_ Hl]. exists a. split_and!; [done..|lia].
  - destruct (is_ok x); apply (durable_weaken g); try done; try (destruct Hd; simpl; lia); [|apply settle_last].
    intros t a. simpl. rewrite lookup_delete_Some. intros [_ Hl]. exists a. split_and!; [done..|lia].
  - destruct Hd as [Hd Hn], Ha as (_ & Ha & _). split; [|done]. intros t a. simpl. rewrite lookup_insert_Some.
    intros [[<- <-]|[_ Hl]]; [|by apply Hd]. simpl. split; [|lia]. done.
Qed.

Lemma Certificate_parse_Ok d p c :
  Certificate_parse d p = Ok c →
  ∃ leaf, head (c_chain c) = Some leaf ∧ public_matches leaf (c_key c) = Ok true ∧ covers d leaf = true.
Proof.
  unfold Certificate_parse. intros Hp.
  apply bind_Ok in Hp as (chain & _ & Hp). apply bind_Ok in Hp as (leaf & Hl & Hp).
  apply bind_Ok in Hp as (key & _ & Hp). apply bind_Ok in Hp as (m & Hm & Hp).
  apply bind_Ok in Hp as (u & ->%ensure_Ok & Hp). apply bind_Ok in Hp as (u' & Hcov%ensure_Ok & Hp).
  apply bind_Ok in Hp as (b & _ & Hp). apply bind_Ok in Hp as (a & _ & Hp).
  apply bind_Ok in Hp as (_ & _ & [= <-]). exists leaf. split_and!; try done.
  simpl. by destruct (head chain); [injection Hl as ->|].
Qed.

(** ** What memory promises *)

Definition fit (d : string) (c : Certificate) : Prop := ∃ p, Certificate_parse d p = Ok c.
Record tied (g : Ghost) (s : Loop) : Prop := {
  t_durable : durable g;
  t_backed : backed g (retries s);
  t_active : ∀ d id, active s !! d = Some id ↔ g_running g !! id = Some (d, false);
  t_job : ∀ d id a, active s !! d = Some id → g_last g !! Some d = Some a → job a = Some id;
  t_jobs : jobs s = dom (g_running g);
  t_four : (size (jobs s) ≤ 4)%nat;
  t_certificates : ∀ d c, certificates s !! d = Some c → fit d c;
  t_pending : ∀ d p, pending s !! d = Some p → fit d (certificate p)
}.

Abbreviation step A := (proc Cmd (result Loop A)).
Abbreviation watched := (Flow.watched observe expect allow).
(** A stage keeps memory, monitor and disk together, also when it ends the pass. *)
Abbreviation keeps Φ := (ends tied Φ).

Lemma tied_now g s t :
  tied g s → g_now g ≤ t ≤ 2 ^ 62 → tied (set_now t g) s.
Proof.
  intros [Hd Hb Ha Hj Hjs H4 Hc Hp] Ht. split; try done.
  apply (durable_step g Z Now t Hd); [done|exact Ht].
Qed.
Lemma clear_now g t tgt : clear g tgt → g_now g ≤ t → clear (set_now t g) tgt.
Proof. intros Hc Ht a Ha. specialize (Hc a Ha). simpl. lia. Qed.

Lemma watched_now {A} g s (f : Z → step A) Ε Φ :
  tied g s →
  (∀ t, g_now g ≤ t ≤ 2 ^ 62 → tied (set_now t g) s → watched (f t) (set_now t g) (ends Ε Φ)) →
  watched (let! t := perform Now in f t) g (ends Ε Φ).
Proof.
  intros Hs Hf. apply watched_then, watched_perform; [done|]. intros t Ht. apply Hf; [done|].
  by apply tied_now.
Qed.
Lemma watched_random {A} g (f : Z → step A) Ε Φ :
  (∀ n, 0 ≤ n → watched (f n) g (ends Ε Φ)) → watched (let! n := perform Random in f n) g (ends Ε Φ).
Proof. intros Hf. apply watched_then, watched_perform; [done|]. intros n Hn. apply Hf. apply Hn. Qed.
(** A write of the retries as they are in memory. *)
Lemma watched_write {A} g s (f : Written → step A) Ε Φ :
  tied g s →
  (∀ w g', tied g' s → g_last g' = g_last g → g_now g' = g_now g → g_running g' = g_running g →
     (saved w = true → g_disk g' = Some (retries s)) → watched (f w) g' (ends Ε Φ)) →
  watched (let! w := perform (WriteRetries (retries s)) in f w) g (ends Ε Φ).
Proof.
  intros Hs Hf. apply watched_then, watched_perform; [apply Hs|]. intros w Hw.
  pose proof (durable_step g _ (WriteRetries (retries s)) w (t_durable _ _ Hs) (t_backed _ _ Hs) Hw) as Hd.
  apply Hf; destruct w; try done; destruct Hs; by split.
Qed.
Lemma watched_quiet {A X} (c : Cmd X) g (f : X → step A) Ε Φ :
  allow g X c → (∀ x, observe g (Ev c x) = g) →
  (∀ x, watched (f x) g (ends Ε Φ)) → watched (let! x := perform c in f x) g (ends Ε Φ).
Proof. intros Ha Ho Hf. apply watched_then, watched_perform; [done|]. intros x _. by rewrite Ho. Qed.

(** *** The stages *)

Lemma watched_seq {A B} (p : step A) (f : A → step B) g (Q : Ghost → A → Prop) Φ :
  watched p g (keeps Q) → (∀ g a, Q g a → watched (f a) g (keeps Φ)) →
  watched (let! a := p in f a) g (keeps Φ).
Proof.
  intros Hp Hf. apply watched_then. eapply watched_mono; [|exact Hp]. intros g' [a|e]; [apply Hf|done].
Qed.

Lemma watched_for_each {A} (l : list A) (body : A → Loop → step Loop) g s (I : list A → Ghost → Loop → Prop) :
  (∀ a l g s, I (a :: l) g s → watched (body a s) g (keeps (I l))) →
  I l g s → watched (for_each l body s) g (keeps (I [])).
Proof.
  intros Hb. revert g s. induction l as [|a l IH]; intros g s Hi; [done|].
  cbn [for_each]. eapply watched_seq; [by apply Hb|apply IH].
Qed.

Lemma tied_retries g s r : tied g s → backed g r → tied g (set_retries r s).
Proof. intros [] ?. by split. Qed.
Lemma backed_domain g r d x :
  backed g r → (∀ a, g_last g !! Some d = Some a → due (Some d) a ≤ next x) →
  backed g (set_domain_retry d x r).
Proof.
  intros Hb Hd t a Ha. specialize (Hb t a Ha). destruct t as [d'|]; [|done]. simpl in *.
  destruct (decide (d = d')) as [->|Hne].
  - exists x. rewrite lookup_insert_eq. auto.
  - by rewrite lookup_insert_ne by done.
Qed.
Lemma backed_account g r x :
  backed g r → (∀ a, g_last g !! None = Some a → due None a ≤ next x) → backed g (set_account_retry x r).
Proof. intros Hb Hd t a Ha. specialize (Hb t a Ha). destruct t as [d'|]; [done|]. by apply Hd. Qed.
Lemma due_unsettled g t a : durable g → g_last g !! t = Some a → due t a ≤ g_now g + patience t.
Proof. intros [Hd _] Ha. destruct (Hd t a Ha). unfold due, patience. destruct (settled a), t; lia. Qed.
Lemma tied_sane g s : tied g s → sane (g_now g).
Proof. intros Hs. apply Hs. Qed.

(** The job of [d] ended: its attempt, if it still counts, is settled. *)
Lemma domain_failed_stage g s d :
  tied g s → active s !! d = None →
  (∀ a, g_last g !! Some d = Some a → settled a = true) →
  watched (domain_failed d s) g (keeps tied).
Proof.
  intros Hs Hact Hset. apply (watched_now g s); [done|]. intros t Ht Hs'. apply watched_random. intros n Hn.
  apply tied_retries; [done|]. apply backed_domain; [apply Hs'|]. intros a Ha. simpl in Ha.
  pose proof (failed_waits t (expiry s d) n (domain_retry d (retries s)) (tied_sane _ _ Hs') Hn) as Hw.
  destruct (t_durable _ _ Hs) as [Hd _]. destruct (Hd _ _ Ha) as [_ Hat].
  unfold due. rewrite (Hset a Ha). lia.
Qed.

Lemma remove_worker_Some id (s : Loop) d s' :
  remove_worker id s = Some (d, s') →
  active s !! d = Some id ∧ s' = set_workers (jobs s) (delete d (active s)) s.
Proof.
  unfold remove_worker. destruct (List.find _ _) as [[d' i]|] eqn:Ef; [|done]. intros [= -> <-].
  apply List.find_some in Ef as [Hin Hi]. simpl in Hi. apply Nat.eqb_eq in Hi as ->.
  apply list_elem_of_In, elem_of_map_to_list in Hin. done.
Qed.
Lemma remove_worker_None id (s : Loop) : remove_worker id s = None → ∀ d, active s !! d ≠ Some id.
Proof.
  unfold remove_worker. destruct (List.find _ _) as [[d' i]|] eqn:Ef; [done|]. intros _ d Hd.
  apply elem_of_map_to_list, list_elem_of_In in Hd.
  apply (List.find_none _ _ Ef (d, id)) in Hd. simpl in Hd. by rewrite Nat.eqb_refl in Hd.
Qed.

(** The join of task [id]. *)
Definition joined (id : nat) (g : Ghost) : Ghost :=
  let g := settle_job id g in set_running (delete id (g_running g)) g.
Lemma tied_joined g s id d :
  tied g s → id ∈ jobs s →
  active s !! d = Some id ∨ (active s !! d = None ∧ ∀ d', active s !! d' ≠ Some id) →
  tied (joined id g) (set_workers (jobs s ∖ {[id]}) (delete d (active s)) s).
Proof.
  intros Hs Hin Hd. destruct (settle_job_same id g) as (Hn & Hdk & Hr).
  destruct Hs as [Hdur Hb Ha Hj Hjs H4 Hc Hp]. unfold joined. split; simpl; try done.
  - apply (durable_weaken g); simpl; [done|done|rewrite Hn; destruct Hdur; lia|apply settle_job_last].
  - intros t a Hl. destruct (settle_job_last _ _ _ _ Hl) as (a' & Ha' & _ & _ & Hdue).
    eapply holds_back_mono; [exact Hdue|]. by apply Hb.
  - intros d' id'. rewrite Hr, lookup_delete_Some, lookup_delete_Some, Ha.
    destruct Hd as [Hd|[Hd Hno]].
    + pose proof (proj1 (Ha _ _) Hd) as Hd'.
      split; intros [Hne Hl]; (split; [|done]); intros ->; apply Ha in Hl; apply Ha in Hl as Hl'; congruence.
    + split; intros [Hne Hl]; (split; [|done]).
      * intros ->. apply Ha in Hl. by eapply Hno.
      * intros ->. apply Ha in Hl. congruence.
  - intros d' id' a [_ Hl]%lookup_delete_Some Hla.
    destruct (settle_job_last _ _ _ _ Hla) as (a' & Ha' & _ & -> & _). by eapply Hj.
  - rewrite Hr, dom_delete_L. by rewrite Hjs.
  - etrans; [|exact H4]. apply subseteq_size. set_solver.
Qed.

Lemma wake_stage g s : tied g s → watched (wake s) g (keeps tied).
Proof.
  intros Hs. unfold wake. apply watched_then, watched_perform; [done|].
  intros [|id r] He; [exact Hs|]. destruct (He id r eq_refl) as [Hin Hr].
  change (observe g _) with (joined id g). apply (watched_seq _ _ _ tied);
    [|intros g' s' Hs'; by apply (watched_write g' s')].
  set (s0 := set_workers (jobs s ∖ {[id]}) (active s) s).
  destruct (remove_worker id s0) as [[d s']|] eqn:Er.
  - apply remove_worker_Some in Er as [Hact ->]. simpl in Hact.
    pose proof (tied_joined g s id d Hs Hin (or_introl Hact)) as Hj.
    assert (active (set_workers (jobs s ∖ {[id]}) (delete d (active s)) s) !! d = None) as Hnone
      by apply lookup_delete_eq.
    assert (∀ a, g_last (joined id g) !! Some d = Some a → settled a = true) as Hset.
    { intros a Ha. unfold joined, settle_job in Ha. rewrite (proj1 (t_active _ _ Hs d id) Hact) in Ha.
      destruct (g_last g !! Some d) as [a0|] eqn:Hl.
      - simpl in Ha. rewrite (t_job _ _ Hs d id a0 Hact Hl), bool_decide_eq_true_2 in Ha by done.
        simpl in Ha. rewrite lookup_alter_eq, Hl in Ha. by injection Ha as <-.
      - simpl in Ha. congruence. }
    pose proof (domain_failed_stage _ _ d Hj Hnone Hset) as Hf.
    destruct r as [[cert|e]|]; [|exact Hf..]. simpl. destruct Hj as [? ? ? ? ? ? ? Hp]. split; try done.
    intros d' p. simpl. rewrite lookup_insert_Some. intros [[<- <-]|[_ Hl]]; [|by apply (Hp d' p)].
    destruct (Hr d false (proj1 (t_active _ _ Hs d id) Hact)) as [?|(issued & now & [= Hw])]; [done|].
    symmetry in Hw. unfold worker in Hw. apply bind_Ok in Hw as (p0 & _ & Hw).
    unfold PendingCertificate_parse in Hw. apply bind_Ok in Hw as (c & Hc & Hw).
    apply bind_Ok in Hw as (_ & _ & [= <-]). by exists p0.
  - pose proof (remove_worker_None _ _ Er) as Hno. simpl in Hno.
    assert (tied (joined id g) (set_workers (jobs s ∖ {[id]}) (active s) s)) as Hj; [|exact Hj].
    assert (∃ d, active s !! d = None) as [d Hd].
    { exists (fresh (dom (active s))). apply not_elem_of_dom, is_fresh. }
    pose proof (tied_joined g s id d Hs Hin (or_intror (conj Hd Hno))) as Hj.
    by rewrite delete_id in Hj by done.
Qed.

Lemma tied_tables g s l p c :
  tied g s → p ⊆ pending s → c ⊆ certificates s →
  tied g (set_certificates c (set_pending p (set_loaded l s))).
Proof.
  intros [Hd Hb Ha Hj Hjs H4 Hc Hp] Hsp Hsc. split; try done; simpl.
  - intros d c' Hl. eapply Hc, lookup_weaken; [exact Hl|done].
  - intros d p' Hl. eapply Hp, lookup_weaken; [exact Hl|done].
Qed.

Lemma tied_abort g s d id :
  tied g s → active s !! d = Some id →
  tied (set_running (alter (λ j, (j.1, true)) id (g_running g)) g)
    (set_workers (jobs s) (delete d (active s)) s).
Proof.
  intros [Hd Hb Ha Hj Hjs H4 Hc Hp] Hl. split; try done; simpl.
  - intros d' id'. rewrite lookup_delete_Some. apply Ha in Hl as Hr. split.
    + intros [Hne Hl']. apply Ha in Hl' as Hr'. rewrite lookup_alter_ne; [done|congruence].
    + destruct (decide (id = id')) as [->|Hne]; [by rewrite lookup_alter_eq, Hr|].
      rewrite lookup_alter_ne by done. rewrite <- Ha. intros Hl'. split; [congruence|done].
  - intros d' id' a [_ Hl']%lookup_delete_Some. by eapply Hj.
  - by rewrite dom_alter_L.
Qed.

Lemma retain_stage g s domains : tied g s → watched (retain domains s) g (keeps tied).
Proof.
  intros Hs. unfold retain, retain_workers.
  apply (watched_seq _ _ _ (λ g s, tied g s ∧ NoDup (@nil (string * nat)).*1 ∧
    ∀ d id, (d, id) ∈ @nil (string * nat) → active s !! d = Some id)).
  - apply (watched_for_each _ _ g s (λ l g s, tied g s ∧ NoDup l.*1 ∧
      ∀ d id, (d, id) ∈ l → active s !! d = Some id)).
    + intros [d id] l g' s' (Hs' & Hnd & Hl). apply NoDup_cons in Hnd as [Hni Hnd].
      case_decide as Hdom; [split_and!; [done..|]; intros; apply Hl; by constructor|].
      apply watched_then, watched_perform; [done|]. intros [] _.
      assert (active s' !! d = Some id) as Ha by (apply Hl; constructor).
      split_and!; [by apply tied_abort|done|]. intros d' id' Hin. simpl.
      rewrite lookup_delete_ne; [apply Hl; by constructor|]. intros ->.
      apply Hni, list_elem_of_fmap. by exists (d', id').
    + split_and!; [done|apply NoDup_fst_map_to_list|]. intros d id. by rewrite elem_of_map_to_list.
  - intros g' s' (Hs' & _). apply (tied_tables g' s'); [done|apply map_filter_subseteq..].
Qed.

Lemma stored_certificate_fit d r c : stored_certificate d r = Some c → fit d c.
Proof.
  unfold stored_certificate. destruct r as [[p|]|]; simpl; [|done..]. intros Hc. exists p.
  destruct (Certificate_parse d p); simpl in *; congruence.
Qed.
Lemma load_stage g s domains : tied g s → watched (load_certificates domains s) g (keeps tied).
Proof.
  intros Hs. apply (watched_for_each _ _ g s (λ _, tied)); [|done]. clear. intros d l g s Hs.
  case_decide; [done|].
  assert (tied g (set_loaded ({[d]} ∪ loaded s) s)) as Hs'.
  { apply (tied_tables g s _ (pending s) (certificates s)); [done|reflexivity..]. }
  cbv zeta. destruct (is_some (certificates (set_loaded ({[d]} ∪ loaded s) s) !! d)); [done|].
  apply watched_quiet; [done..|]. intros r. cbn.
  destruct (stored_certificate d r) as [c|] eqn:Hst; [|done]. destruct Hs' as [? ? ? ? ? ? Hc ?].
  split; try done. simpl. intros d' c'. rewrite lookup_insert_Some.
  intros [[<- <-]|[_ Hl]]; [by eapply stored_certificate_fit|by apply Hc].
Qed.

Lemma tied_account g s a cr t : tied g s → tied g (set_save_at t (set_account a cr s)).
Proof. intros []. by split. Qed.
Lemma save_account_stage g s : tied g s → watched (save_account s) g (keeps tied).
Proof.
  intros Hs. unfold save_account. destruct (credentials s); [|done].
  apply watched_quiet; [done..|]. intros w. cbn. destruct (saved w); [|done]. by apply (tied_account g s _ _ (save_at s)).
Qed.

(** A saved certificate ends the attempts for its domain. *)
Lemma tied_installed g s d cert :
  tied g s → fit d (certificate cert) →
  let s1 := set_certificates (<[d := certificate cert]> (certificates s)) s in
  tied (forget (Some d) g)
    (set_pending (delete d (pending s1))
      (set_retries {| r_account := r_account (retries s); r_domains := delete d (r_domains (retries s)) |} s1)).
Proof.
  intros [Hd Hb Ha Hj Hjs H4 Hc Hp] Hfit. split; try done; simpl.
  - apply (durable_step g _ (WriteCertificate d (pem cert)) Saved Hd); done.
  - intros t a. simpl. rewrite lookup_delete_Some. intros [Hne Hl]. specialize (Hb t a Hl).
    destruct t as [d'|]; [|done]. simpl in *. rewrite lookup_delete_ne by congruence. done.
  - intros d' id a Hact. rewrite lookup_delete_Some. intros [_ Hl]. by eapply Hj.
  - intros d' c'. rewrite lookup_insert_Some. intros [[<- <-]|[_ Hl]]; [done|by apply Hc].
  - intros d' p. rewrite lookup_delete_Some. intros [_ Hl]. by apply Hp.
Qed.
Lemma tied_dropped g s d : tied g s → tied g (set_pending (delete d (pending s)) s).
Proof.
  intros [Hd Hb Ha Hj Hjs H4 Hc Hp]. split; try done. simpl. intros d' p.
  rewrite lookup_delete_Some. intros [_ Hl]. by apply Hp.
Qed.
Lemma save_pending_stage g s d cert :
  tied g s → fit d (certificate cert) → watched (save_pending d cert s) g (keeps (λ g r, tied g r.1)).
Proof.
  intros Hs Hfit. apply (watched_now g s); [done|]. intros t Ht Hs'.
  destruct (negb _); [by apply tied_dropped|]. unfold install.
  apply watched_then, watched_then, watched_perform; [done|]. intros w _. cbn [observe].
  destruct (saved w) eqn:Hw; [|done]. by apply (tied_installed _ s d cert).
Qed.
Lemma save_all_stage l any g s :
  tied g s → Forall (λ x, fit x.1 (certificate x.2)) l →
  watched (save_all l any s) g (keeps (λ g r, tied g r.1)).
Proof.
  intros Hs Hl. revert any g s Hs. induction Hl as [|[d cert] l Hd Hl IH]; intros any g s Hs; [done|].
  cbn [save_all]. eapply watched_seq; [by apply save_pending_stage|]. intros g' [s' i] Hs'. by apply IH.
Qed.
Lemma save_stage_keeps g s : tied g s → watched (save_stage s) g (keeps tied).
Proof.
  intros Hs. apply (watched_now g s); [done|]. intros t Ht Hs'. destruct (t <? save_at s); [done|].
  apply (watched_now (set_now t g) s); [done|]. intros t' Ht' Hs''.
  eapply watched_seq; [apply save_account_stage; by apply (tied_account _ s (account s) (credentials s))|].
  clear. intros g s Hs. eapply watched_seq; [apply save_all_stage; [done|]|].
  - apply Forall_forall. intros [d cert] Hin. apply elem_of_map_to_list in Hin. by apply (t_pending _ _ Hs).
  - intros g' [s' any] Hs'. destruct any; [|done]. by apply (watched_write g' s').
Qed.

Lemma gate_stage g s :
  tied g s → watched (gate s) g (keeps (λ g _, tied g s ∧ (size (jobs s) < 4)%nat)).
Proof.
  intros Hs. unfold gate. destruct (is_some (credentials s)); [done|].
  apply watched_quiet; [done..|]. intros r. destruct (negb r || (4 <=? _)) eqn:E; [done|].
  apply orb_false_iff in E as [_ E]. assert (size (jobs s) < 4)%nat by lia.
  destruct (is_none (account s)); [|done]. apply (watched_now g s); [done|]. intros t Ht Hs'.
  by destruct (ready _ t).
Qed.

(** A domain that may be ordered now. *)
Definition wanted (g : Ghost) (s : Loop) (d : string) : Prop :=
  active s !! d = None ∧ clear g (Some d).
Lemma wanted_now g s d t : wanted g s d → g_now g ≤ t → wanted (set_now t g) s d.
Proof. intros [? ?] ?. split; [done|]. by apply clear_now. Qed.
Lemma ready_clear g s d x :
  tied g s → r_domains (retries s) !! d = Some x → ready x (g_now g) = true → clear g (Some d).
Proof.
  intros Hs Hx Hr a Ha. destruct (t_backed _ _ Hs _ _ Ha) as (x' & Hx' & Hn).
  unfold ready in Hr. assert (x' = x) as -> by congruence. lia.
Qed.
Lemma is_needed_stage g s d :
  tied g s → watched (is_needed s d) g (keeps (λ g' b,
    tied g' s ∧ g_now g ≤ g_now g' ∧ g_last g' = g_last g ∧ (b = true → wanted g' s d))).
Proof.
  intros Hs. unfold is_needed.
  destruct (active s !! d) eqn:Ha; [split_and!; simpl; try done; lia|].
  destruct (pending s !! d); [split_and!; simpl; try done; lia|]. cbn [is_some orb].
  apply (watched_seq _ _ _ (λ g' _, tied g' s ∧ g_now g ≤ g_now g' ∧ g_last g' = g_last g)).
  - destruct (certificates s !! d); [|split_and!; simpl; try done; lia].
    apply (watched_now g s); [done|]. intros t Ht Hs'. split_and!; simpl; try done; lia.
  - intros g' renew (Hs' & Hn & Hl). destruct renew; [|by split_and!]. cbn [negb].
    destruct (r_domains (retries s) !! d) as [x|] eqn:Hx.
    + apply (watched_now g' s); [done|]. intros t Ht Hs''. split_and!; simpl; [done|lia|done|].
      intros Hr. split; [done|]. by apply (ready_clear _ s d x).
    + split_and!; simpl; try done. intros _. split; [done|]. intros a Hla.
      destruct (t_backed _ _ Hs' _ _ Hla) as (x & Hx' & _). congruence.
Qed.
Lemma collect_needed_stage l g s :
  tied g s → watched (collect_needed s l) g (keeps (λ g' r,
    tied g' s ∧ g_now g ≤ g_now g' ∧ g_last g' = g_last g ∧ r `sublist_of` l ∧ Forall (wanted g' s) r)).
Proof.
  revert g. induction l as [|d l IH]; intros g Hs; [by split_and!|].
  cbn [collect_needed]. eapply watched_seq; [by apply is_needed_stage|].
  intros g1 b (Hs1 & Hn1 & Hl1 & Hb). eapply watched_seq; [by apply IH|].
  intros g2 r (Hs2 & Hn2 & Hl2 & Hsub & Hw). cbn. split_and!; [done|lia|congruence|..].
  - destruct b; by constructor.
  - destruct b; [|done]. constructor; [|done]. destruct (Hb eq_refl) as [Ha Hc]. split; [done|].
    intros a Hla. rewrite Hl2 in Hla. specialize (Hc a Hla). lia.
Qed.

Lemma persist_stage_keeps g s :
  tied g s → watched (persist_stage s) g (keeps (λ g' _, tied g' s ∧ g_last g' = g_last g ∧ g_now g' = g_now g)).
Proof.
  intros Hs. apply watched_quiet; [done..|]. intros w. destruct (negb (saved w)); [done|].
  apply (watched_write g s); [done|]. intros w' g' Hs' Hl Hn _ _. by destruct (saved w').
Qed.

(** *** Registration *)

Lemma tied_last g g' s :
  tied g s → durable g' → g_running g' = g_running g →
  (∀ t a, g_last g' !! t = Some a → holds_back (retries s) t (due t a) ∧
     (∀ d, t = Some d → ∃ a', g_last g !! t = Some a' ∧ job a = job a')) →
  tied g' s.
Proof.
  intros [Hd Hb Ha Hj Hjs H4 Hc Hp] Hd' Hr Hl. split; try done; rewrite ?Hr; try done.
  - intros t a Hla. by apply Hl.
  - intros d id a Hact Hla. destruct (Hl _ _ Hla) as [_ Hj']. destruct (Hj' d eq_refl) as (a' & Ha' & ->).
    by eapply Hj.
Qed.
Lemma tied_connect g s b :
  tied g s → on_disk g None (g_now g + 30) → holds_back (retries s) None (g_now g + 30) →
  tied (attempted None None b g) s.
Proof.
  intros Hs Hdisk Hmem. apply (tied_last g); [done| |done|].
  - destruct (t_durable _ _ Hs) as [Hd Hn]. split; [|done]. intros t a. simpl. rewrite lookup_insert_Some.
    intros [[<- <-]|[_ Hl]]; [|by apply Hd]. simpl. split; [|lia]. eapply on_disk_mono; [|exact Hdisk].
    unfold due. simpl. destruct b; lia.
  - intros t a. simpl. rewrite lookup_insert_Some. intros [[<- <-]|[Hne Hl]].
    + split; [|done]. eapply holds_back_mono; [|exact Hmem]. unfold due. simpl. destruct b; lia.
    + split; [by apply (t_backed _ _ Hs)|]. eauto.
Qed.
Lemma tied_settle g s : tied g s → tied (settle None g) s.
Proof.
  intros Hs. apply (tied_last g); [done| |done|].
  - apply (durable_weaken g); try done; [apply Hs|destruct (t_durable _ _ Hs); simpl; lia|apply settle_last].
  - intros t a Hl. destruct (settle_last _ _ _ _ Hl) as (a' & Hl' & _ & Hj & Hdue). split; [|eauto].
    eapply holds_back_mono; [exact Hdue|]. by apply (t_backed _ _ Hs).
Qed.
Lemma tied_forget g s : tied g s → tied (forget None g) s.
Proof.
  intros Hs. apply (tied_last g); [done| |done|].
  - apply (durable_weaken g); try done; [apply Hs|destruct (t_durable _ _ Hs); simpl; lia|].
    intros t a. simpl. rewrite lookup_delete_Some. intros [_ Hl]. exists a. split_and!; [done..|lia].
  - intros t a. simpl. rewrite lookup_delete_Some. intros [_ Hl]. split; [by apply (t_backed _ _ Hs)|eauto].
Qed.
Lemma settle_settled t g a : g_last (settle t g) !! t = Some a → settled a = true.
Proof. simpl. rewrite lookup_alter_eq. destruct (g_last g !! t); [|done]. by intros [= <-]. Qed.

(** What is left of the attempt when it returns. *)
Definition outcome {A} (s : Loop) (g : Ghost) (r : result anyhow A) : Prop :=
  tied g s ∧ match r with
             | Ok _ => g_last g !! None = None
             | Err _ => ∀ a, g_last g !! None = Some a → settled a = true
             end.
Lemma get_account_stage g s :
  tied g s → clear g None → on_disk g None (g_now g + 30) → holds_back (retries s) None (g_now g + 30) →
  watched (get_account s) g (keeps (outcome s)).
Proof.
  intros Hs Hc Hdisk Hmem. unfold get_account. apply watched_then, watched_perform; [done|].
  intros r _. cbn [observe]. pose proof (tied_connect g s (negb (is_ok r)) Hs Hdisk Hmem) as Hs1.
  destruct r as [[]|e].
  2: { split; [done|]. intros a. simpl. rewrite lookup_insert_eq. by intros [= <-]. }
  apply watched_then, watched_perform; [done|]. intros r _. cbn [observe].
  assert (∀ A (r : result anyhow A), outcome s (if is_ok r then forget None (attempted None None false g)
    else settle None (attempted None None false g)) r) as Hend.
  { intros A [x|e']; simpl; (split; [|try done]).
    - by apply tied_forget.
    - simpl. apply lookup_delete_eq.
    - by apply tied_settle.
    - apply settle_settled. }
  destruct r as [[cr|]|e]; simpl is_ok; cbv iota.
  - apply watched_then, watched_perform; [done|]. intros r _. cbn [observe].
    specialize (Hend _ r). by destruct r.
  - apply watched_then, watched_perform; [done|]. intros r _. cbn [observe].
    specialize (Hend _ r). by destruct r as [[]|].
  - exact (Hend _ (Err e)).
Qed.

Lemma register_stage needed g s : tied g s → clear g None → watched (register needed s) g (keeps tied).
Proof.
  intros Hs Hc. apply (watched_now g s); [done|]. intros t Ht Hs'. apply watched_random. intros n Hn.
  set (s1 := set_retries _ s).
  pose proof (begin_waits t (earliest s needed) 30 n (r_account (retries s)) (tied_sane _ _ Hs') Hn ltac:(lia)) as Hb.
  assert (tied (set_now t g) s1) as Hs1.
  { apply tied_retries; [done|]. apply backed_account; [apply Hs'|]. intros a Ha.
    pose proof (due_unsettled _ _ _ (t_durable _ _ Hs') Ha). simpl in *. lia. }
  apply (watched_write _ s1); [done|]. intros w g' Hs2 Hl Hnow _ Hdisk.
  destruct (saved w); [|done]. specialize (Hdisk eq_refl). cbn [negb].
  apply (watched_seq _ _ _ (outcome s1)).
  - apply get_account_stage; [done| |exists (retries s1); split; [done|]|]; rewrite ?Hnow; try exact Hb.
    intros a Ha. rewrite Hl in Ha. rewrite Hnow. specialize (Hc a Ha). simpl. lia.
  - clear -Hn. intros g r [Hs Hr]. apply (watched_seq _ _ _ tied).
    + destruct r as [[created cr]|e].
      * apply (tied_account g (set_retries (set_account_retry Retry_default (retries s1)) s1)).
        apply tied_retries; [done|]. apply backed_account; [apply Hs|]. congruence.
      * apply (watched_now g s1); [done|]. intros t' Ht Hs'. apply watched_random. intros n' Hn'.
        apply tied_retries; [done|]. apply backed_account; [apply Hs'|]. intros a Ha. simpl in Ha.
        pose proof (failed_waits t' (earliest s1 needed) n' (r_account (retries s1)) (tied_sane _ _ Hs') Hn').
        destruct (proj1 (t_durable _ _ Hs) _ _ Ha). unfold due. rewrite (Hr a Ha). lia.
    + intros g' s' Hs'. by apply (watched_write g' s').
Qed.

(** *** Orders *)

Lemma tied_spawned g s d id :
  tied g s → active s !! d = None → g_running g !! id = None → (size (jobs s) < 4)%nat →
  on_disk g (Some d) (g_now g + 180) → holds_back (retries s) (Some d) (g_now g + 180) →
  tied (set_running (<[id := (d, false)]> (g_running g)) (attempted (Some d) (Some id) false g))
    (set_workers ({[id]} ∪ jobs s) (<[d := id]> (active s)) s).
Proof.
  intros [Hd Hb Ha Hj Hjs H4 Hc Hp] Hnone Hfresh H3 Hdisk Hmem. split; try done; simpl.
  - destruct Hd as [Hd Hn]. split; [|done]. intros t a. simpl. rewrite lookup_insert_Some.
    intros [[<- <-]|[_ Hl]]; [|by apply Hd]. simpl. split; [done|lia].
  - intros t a. simpl. rewrite lookup_insert_Some. intros [[<- <-]|[Hne Hl]]; [done|by apply Hb].
  - intros d' id'. rewrite !lookup_insert_Some, Ha. split.
    + intros [[<- <-]|[Hne Hl]]; [by left|]. right. split; [congruence|done].
    + intros [[<- [= <-]]|[Hne Hl]]; [by left|]. right. split; [|done]. intros <-. apply Ha in Hl. congruence.
  - intros d' id' a. rewrite !lookup_insert_Some. intros [[<- <-]|[Hne Hl]] [[Heq <-]|[Hne' Hla]]; try done.
    + congruence.
    + by eapply Hj.
  - rewrite dom_insert_L. by rewrite Hjs.
  - rewrite size_union, size_singleton; [lia|]. rewrite Hjs, disjoint_singleton_l, not_elem_of_dom. done.
Qed.

(** The domains still to be ordered in this pass. *)
Definition to_order (l : list string) (g : Ghost) (s : Loop) : Prop :=
  tied g s ∧ NoDup l ∧ Forall (wanted g s) l ∧ (size (jobs s) + length l ≤ 4)%nat.
Lemma order_stage acc d l g s :
  to_order (d :: l) g s → watched (order acc d s) g (keeps (to_order l)).
Proof.
  intros (Hs & [Hni Hnd]%NoDup_cons & [[Hact Hc] Hw]%Forall_cons & Hsize). simpl in Hsize.
  apply (watched_now g s); [done|]. intros t Ht Hs'. apply watched_random. intros n Hn.
  set (s1 := set_retries _ s).
  pose proof (begin_waits t (expiry s d) 180 n (domain_retry d (retries s)) (tied_sane _ _ Hs') Hn ltac:(lia)) as Hb.
  assert (tied (set_now t g) s1) as Hs1.
  { apply tied_retries; [done|]. apply backed_domain; [apply Hs'|]. intros a Ha.
    pose proof (due_unsettled _ _ _ (t_durable _ _ Hs') Ha). simpl in *. lia. }
  assert (holds_back (retries s1) (Some d) (t + 180)) as Hmem.
  { eexists. split; [apply lookup_insert_eq|]. exact Hb. }
  apply (watched_write _ s1); [done|]. intros w g' Hs2 Hl Hnow Hrun Hdisk.
  destruct (saved w); [|done]. specialize (Hdisk eq_refl). cbn [negb].
  assert (on_disk g' (Some d) (g_now g' + 180)) as Hd by (rewrite Hnow; by exists (retries s1)).
  apply watched_then, watched_perform.
  - split_and!; [|done|rewrite <- size_dom, <- (t_jobs _ _ Hs2); simpl; lia|].
    + intros a Ha. rewrite Hl in Ha. rewrite Hnow. specialize (Hc a Ha). simpl. lia.
    + intros id Hid. apply (t_active _ _ Hs2) in Hid. simpl in Hid. congruence.
  - intros id Hid. cbn [observe]. split_and!; [|done| |].
    + apply (tied_spawned g' s1); try done; [simpl; lia|]. by rewrite Hnow.
    + rewrite Forall_forall in Hw |- *. intros d' Hin. destruct (Hw d' Hin) as [Ha' Hc'].
      assert (d' ≠ d) by (by intros ->). split; simpl; [by rewrite lookup_insert_ne|].
      intros a. simpl. rewrite lookup_insert_ne by congruence. rewrite Hl, Hnow. intros Hla.
      specialize (Hc' a Hla). simpl. lia.
    + simpl. rewrite size_union, size_singleton; [lia|].
      rewrite (t_jobs _ _ Hs2 : jobs s = _), disjoint_singleton_l, not_elem_of_dom. done.
Qed.

Lemma request_stage_keeps needed g s :
  tied g s → NoDup needed → Forall (wanted g s) needed → (size (jobs s) < 4)%nat →
  watched (request_stage needed s) g (keeps tied).
Proof.
  intros Hs Hnd Hw H4. unfold request_stage. destruct (account s) as [acc|].
  - eapply watched_mono; [|apply (watched_for_each _ _ g s to_order);
      [intros; by apply order_stage|split_and!; try done]].
    + by intros g' [s'|s']; [intros []|].
    + eapply sublist_NoDup; [done|apply sublist_take].
    + by apply Forall_take.
    + rewrite length_take. lia.
  - apply (watched_now g s); [done|]. intros t Ht Hs'. destruct (ready _ t) eqn:Hr; [|done].
    apply register_stage; [done|]. intros a Ha. pose proof (t_backed _ _ Hs' _ _ Ha) as Hb.
    unfold ready in Hr. simpl in *. lia.
Qed.

Lemma body_keeps g s : tied g s → watched (body s) g (keeps tied).
Proof.
  intros Hs. unfold body. eapply watched_seq; [by apply wake_stage|]. clear. intros g s Hs.
  apply watched_quiet; [done..|]. intros config.
  eapply watched_seq; [by apply retain_stage|]. clear -config. intros g s Hs.
  eapply watched_seq; [by apply load_stage|]. clear -config. intros g s Hs.
  eapply watched_seq; [by apply save_stage_keeps|]. clear -config. intros g s Hs.
  eapply watched_seq; [by apply gate_stage|]. clear. intros g [] [Hs H4].
  eapply watched_seq; [by apply collect_needed_stage|]. intros g' needed (Hs' & _ & _ & Hsub & Hw).
  case_bool_decide; [done|]. eapply watched_seq; [by apply persist_stage_keeps|].
  intros g'' [] (Hs'' & Hl & Hn).
  assert (by_urgency s needed ≡ₚ needed) as Hperm by apply merge_sort_Permutation.
  apply request_stage_keeps; [done| | |done].
  - rewrite Hperm. eapply sublist_NoDup; [|exact Hsub]. apply (NoDup_elements (C := gset string)).
  - rewrite Hperm. eapply Forall_impl; [exact Hw|]. intros d [Ha Hc]. split; [done|].
    intros a. rewrite Hl, Hn. apply Hc.
Qed.

(** ** Whole lives *)

Lemma passes_keep n g s : tied g s → watched (passes_of n s) g tied.
Proof.
  revert g s. induction n as [|n IH]; intros g s Hs; [done|]. cbn [passes_of]. apply watched_bind.
  eapply watched_mono; [|by apply body_keeps]. intros g' [s'|s'] Hs'; by apply IH.
Qed.
Lemma load_stage_retries g :
  durable g →
  watched load_retries g (ends (λ _ _, True) (λ g r, durable g ∧ g_running g = ∅ ∧
    r = default Retries_default (g_disk g))).
Proof.
  intros Hd. unfold load_retries. apply watched_then, watched_perform; [done|]. intros r Hr.
  pose proof (durable_step g _ LoadCooldown r Hd I Hr) as Hd1. destruct r as [[]|e]; [|done].
  apply watched_then, watched_perform; [done|]. intros [o|e] Ho; [|done].
  specialize (Ho o eq_refl) as ->. done.
Qed.
Lemma loop_keeps n certs g :
  durable g → (∀ d c, certs !! d = Some c → fit d c) →
  watched (certificate_loop n certs) g (ends (λ _ _, True) tied).
Proof.
  intros Hd Hc. apply watched_then. eapply watched_mono; [|by apply load_stage_retries].
  intros g1 [r|e]; [|done]. intros (Hd1 & Hrun & ->). apply watched_bind.
  eapply watched_mono; [|apply passes_keep]; [done|].
  split; simpl; rewrite ?Hrun; try done.
  - intros t a Ha. destruct (proj1 Hd1 t a Ha) as [(r & Hr1 & Hb) _]. by rewrite Hr1.
  - change (size (∅ : gset nat) ≤ 4)%nat. rewrite size_empty. lia.
Qed.

(** Processes one after the other, each ended after any of its calls.  A process
    starts without certificates in memory; [manage_certificates] can start the loop
    again with those it has. *)
Inductive lived : list (event Cmd) → Prop :=
| lived_new : lived []
| lived_on tr n certs tr' q :
    lived tr → (∀ d c, certs !! d = Some c → fit d c) →
    steps (certificate_loop n certs) tr' q → lived (tr ++ tr').
Abbreviation expected := (Flow.expected observe expect g_begin).
Definition history (tr : list (event Cmd)) : Ghost := monitor observe g_begin tr.

Lemma lived_durable tr : lived tr → expected tr → durable (history tr).
Proof.
  intros Hl. induction Hl as [|tr n certs tr' q Hl IH Hc Hs]; intros He.
  { split; [|simpl; lia]. intros t a. simpl. by rewrite lookup_empty. }
  apply expected_app in He as [He He']. specialize (IH He). unfold history. rewrite monitor_app.
  eapply (monitor_inv observe expect allow durable); [|by apply loop_keeps|exact Hs|done|done].
  intros. by apply durable_step.
Qed.
Lemma lived_allowed tr tr1 X (c : Cmd X) x tr2 :
  lived tr → expected tr → tr = tr1 ++ Ev c x :: tr2 → allow (history tr1) X c.
Proof.
  intros Hl. revert tr1 x tr2. induction Hl as [|tr n certs tr' q Hl IH Hc Hs]; intros tr1 x tr2 He Ht.
  { by destruct tr1. }
  apply expected_app in He as [He He']. pose proof (lived_durable tr Hl He) as Hd.
  apply app_eq_inv in Ht as [(k & Htr & Hk)|(k & Htr & Hk)].
  - destruct k as [|e k].
    + rewrite app_nil_r in Htr. subst tr1. simpl in Hk. symmetry in Hk.
      exact (watched_calls observe expect allow _ _ _ _ _ (loop_keeps n certs _ Hd Hc) Hs He' [] _ tr2 Hk).
    + injection Hk as <- ->. by eapply IH.
  - subst tr1. unfold history. rewrite monitor_app.
    exact (watched_calls observe expect allow _ _ _ _ _ (loop_keeps n certs _ Hd Hc) Hs He' k _ tr2 Hk).
Qed.

(** C10: the authority is not flooded.  Over all lives of the program on one disk,
    whatever fails and whenever a process ends: when a certificate for a domain is
    ordered, fewer than four jobs run and none of them is for this domain; an
    earlier order for it, unless its certificate was saved, was made at least five
    seconds before, and at least 180 seconds before if its outcome never became
    known, as when the process crashed; and this order is already on disk with a
    wait of 180 seconds.  Attempts to open the account are spaced likewise, with 30
    seconds. *)
Theorem orders_spaced tr :
  lived tr → expected tr →
  (∀ tr1 acc d id tr2, tr = tr1 ++ Ev (SpawnJob acc d) id :: tr2 →
     let g := history tr1 in
     (size (g_running g) < 4)%nat ∧ (∀ id', g_running g !! id' ≠ Some (d, false)) ∧
     (∀ a, g_last g !! Some d = Some a → at_ a + (if settled a then 5 else 180) ≤ g_now g) ∧
     ∃ r x, g_disk g = Some r ∧ r_domains r !! d = Some x ∧ g_now g + 180 ≤ next x) ∧
  (∀ tr1 res tr2, tr = tr1 ++ Ev Connect res :: tr2 →
     let g := history tr1 in
     (∀ a, g_last g !! None = Some a → at_ a + (if settled a then 5 else 30) ≤ g_now g) ∧
     ∃ r, g_disk g = Some r ∧ g_now g + 30 ≤ next (r_account r)).
Proof.
  intros Hl He. split.
  - intros tr1 acc d id tr2 Ht. destruct (lived_allowed tr tr1 _ _ id tr2 Hl He Ht) as (Hc & Hd & H4 & Hno).
    destruct Hd as (r & Hr & x & Hx & Hn). split_and!; [done..|]. by exists r, x.
  - intros tr1 res tr2 Ht. destruct (lived_allowed tr tr1 _ _ res tr2 Hl He Ht) as [Hc (r & Hr & Hn)].
    split; [done|]. by exists r.
Qed.

(** C26: clients get certificates that fit.  After any pass in any life, the
    certificate presented for a server name is for a configured HTTPS site of that
    name, valid at the time, and its leaf covers the name and belongs to the
    private key presented with it. *)
Theorem certificates_fit tr n certs tr' s config name now c :
  lived tr → (∀ d c, certs !! d = Some c → fit d c) →
  steps (certificate_loop n certs) tr' (Done (Ok s)) → expected (tr ++ tr') →
  certificate_callback config (certificates s) name now = Some c →
  ∃ server site leaf, name = Some server ∧
    Conf.sites config !! to_ascii_lowercase server = Some site ∧ Conf.https site = true ∧
    not_before c ≤ now < not_after c ∧ head (c_chain c) = Some leaf ∧
    covers (to_ascii_lowercase server) leaf = true ∧ public_matches leaf (c_key c) = Ok true.
Proof.
  intros Hl Hc Hs He Hcb. apply expected_app in He as [He He'].
  pose proof (watched_done observe expect allow _ _ _ _ _
    (loop_keeps n certs _ (lived_durable tr Hl He) Hc) Hs He') as Ht. simpl in Ht.
  destruct name as [server|]; [|done]. unfold certificate_callback in Hcb. simpl in Hcb.
  destruct (Conf.sites config !! to_ascii_lowercase server) as [site|] eqn:Hsite; [|done]. simpl in Hcb.
  destruct (Conf.https site) eqn:Hh; [|done]. apply opt_filter_Some in Hcb as [Hcert Hv].
  destruct (t_certificates _ _ Ht _ _ Hcert) as [p Hp]. unfold valid_at in Hv.
  destruct (Certificate_parse_Ok _ _ _ Hp) as (leaf & Hlf & Hm & Hcov). exists server, site, leaf.
  split_and!; try done; lia.
Qed.
End orders.

(** ** Two lives of an installation with one site *)

Module Examples.
Import Conf.
(** Certificates that are their own text: the name, the key and the dates. *)
#[export] Instance toy_tls : TlsLib :=
  {| X509 := string * Z * Z; PKey := string;
     stack_from_pem s := Ok [(s, 0, 1200000)]; private_key_from_pem s := Ok s;
     public_matches x k := Ok true; subject_alt_names x := Some [Some x.1.1];
     x_not_before x := Ok x.1.2; x_not_after x := Ok x.2 |}.
Definition home : Site :=
  {| domain := "a.example"; https := true; handler := Respond "hello" 200; rate_limit := None;
     payment := None; lightning := None; capacity := None; controls := RequestControls_default;
     payment_verification := {| lr_id := 0; lr_limit := {| Rate.per_second := 2; Rate.burst := 8 |};
                                lr_prefix := 64 |} |}.
Definition config : Config := {| sites := {["a.example" := home]}; payouts := [] |}.

(** The clock moves 20 seconds a reading; the disk works and holds a certificate of
    the site that has not long to live; the account is opened; jobs are stopped
    once [done_] says so. *)
Record Env := { e_clock : Z; e_disk : option Retries; e_next : nat; done_ : bool }.
Definition answer (X : Type) (c : @Cmd toy_tls unit unit X) (e : Env) : Env * X :=
  match c in Cmd X return Env * X with
  | Now => ({| e_clock := e_clock e + 20; e_disk := e_disk e; e_next := e_next e; done_ := done_ e |},
            e_clock e + 20)
  | Random => (e, 7)
  | LoadCooldown => (e, Ok tt)
  | ReadRetries => (e, Ok (e_disk e))
  | WriteRetries r =>
      ({| e_clock := e_clock e; e_disk := Some r; e_next := e_next e; done_ := done_ e |}, Saved)
  | Select jobs =>
      (e, match elements jobs with
          | id :: _ => if done_ e then Joined id Stopped else Tick
          | [] => Tick
          end)
  | LoadConfig => (e, config)
  | AbortJob _ => (e, tt)
  | ReadCertificate d => (e, Ok (Some {| pem_chain := d; pem_private_key := "key" |}))
  | WriteCertificate _ _ => (e, Saved)
  | WriteAccount _ => (e, Saved)
  | CooldownReady => (e, true)
  | PersistCooldown => (e, Saved)
  | Connect => (e, Ok tt)
  | ReadAccount => (e, Ok None)
  | FromCredentials _ => (e, Ok tt)
  | CreateAccount => (e, Ok (tt, tt))
  | SpawnJob _ _ =>
      ({| e_clock := e_clock e; e_disk := e_disk e; e_next := S (e_next e); done_ := done_ e |}, e_next e)
  end.
Definition env0 : Env := {| e_clock := 1000000; e_disk := None; e_next := 0; done_ := false |}.
Definition life (n : nat) (e : Env) := run_on answer (certificate_loop n ∅) e.
Definition finishing (e : Env) : Env :=
  {| e_clock := e_clock e; e_disk := e_disk e; e_next := e_next e; done_ := true |}.
(** Three passes, a crash with the order under way, then ten passes. *)
Definition first_life := life 3 env0.
Definition second_life := life 10 (finishing first_life.2).
Definition both : list (event (@Cmd toy_tls unit unit)) := first_life.1.1 ++ second_life.1.1.
Definition order_times : list (event (@Cmd toy_tls unit unit)) → list Z :=
  (fix go g tr := match tr with
                  | [] => []
                  | e :: tr' => (match e with
                                 | Ev c _ => match c with SpawnJob _ _ => [g_now g] | _ => [] end
                                 end) ++ go (observe g e) tr'
                  end) g_begin.

Lemma lived_both : lived both.
Proof.
  unfold both. rewrite <- (app_nil_l first_life.1.1).
  eapply (lived_on _ 10 ∅); [|done|apply run_on_steps].
  eapply (lived_on [] 3 ∅); [constructor|done|apply run_on_steps].
Qed.
#[local] Instance Retry_eq_dec : EqDecision Retry.
Proof. solve_decision. Defined.
#[local] Instance Retries_eq_dec : EqDecision Retries.
Proof. solve_decision. Defined.
(** [expect], computed, for answers of this environment. *)
Definition expect_ok (g : Ghost) (e : event (@Cmd toy_tls unit unit)) : bool :=
  match e with
  | Ev c x =>
      match c in Cmd X return X → bool with
      | Now => λ t, (g_now g <=? t) && (t <=? 2 ^ 62)
      | Random => λ n, (0 <=? n) && (n <=? u16_max)
      | ReadRetries => λ r, match r with Ok o => bool_decide (o = g_disk g) | Err _ => true end
      | Select jobs => λ w, match w with
                            | Joined id Stopped => bool_decide (id ∈ jobs)
                            | Joined _ _ => false
                            | Tick => true
                            end
      | SpawnJob _ _ => λ id, bool_decide (g_running g !! id = None)
      | _ => λ _, true
      end x
  end.
Lemma expect_ok_sound g e : expect_ok g e = true → expect g e.
Proof.
  destruct e as [X c x]. destruct c; simpl; try done; try lia.
  - destruct x; [|done]. rewrite bool_decide_eq_true. by intros -> o [= <-].
  - destruct x as [|id []]; [done..|]. rewrite bool_decide_eq_true. intros Hin id' r [= <- <-]. auto.
  - by rewrite bool_decide_eq_true.
Qed.
Fixpoint expected_ok (g : Ghost) (tr : list (event (@Cmd toy_tls unit unit))) : bool :=
  match tr with [] => true | e :: tr' => expect_ok g e && expected_ok (observe g e) tr' end.
Lemma expected_ok_sound g tr : expected_ok g tr = true → Flow.expected observe expect g tr.
Proof.
  revert g. induction tr as [|e tr IH]; intros g; simpl; [done|]. rewrite andb_true_iff.
  intros [He Ht]. split; [by apply expect_ok_sound|by apply IH].
Qed.
Lemma expected_both : Flow.expected observe expect g_begin both.
Proof. apply expected_ok_sound. vm_compute. reflexivity. Qed.

Lemma orders_spaced_witness :
  order_times both = [1000200; 1000580; 1000700; 1000900; 1001260] ∧
  ∀ tr1 acc d id tr2, both = tr1 ++ Ev (SpawnJob acc d) id :: tr2 →
    (size (g_running (history tr1)) < 4)%nat ∧
    ∀ a, g_last (history tr1) !! Some d = Some a →
      at_ a + (if settled a then 5 else 180) ≤ g_now (history tr1).
Proof.
  split; [vm_compute; reflexivity|]. intros tr1 acc d id tr2 Ht.
  destruct (orders_spaced both lived_both expected_both) as [Ho _].
  destruct (Ho tr1 acc d id tr2 Ht) as (H1 & _ & H3 & _). exact (conj H1 H3).
Defined.

Definition final_state : Loop :=
  match second_life.1.2 with Ok s => s | Err _ => first_state ∅ Retries_default end.
Definition certificate_of_home : Certificate :=
  {| c_chain := [("a.example", 0, 1200000)]; c_key := "key"; not_before := 0; not_after := 1200000 |}.
Lemma second_life_steps : steps (certificate_loop 10 ∅) second_life.1.1 (Done (Ok final_state)).
Proof.
  assert (second_life.1.2 = Ok final_state) as Hf by (vm_compute; reflexivity). rewrite <- Hf.
  exact (run_on_steps answer (certificate_loop 10 ∅) (finishing first_life.2)).
Qed.
Lemma first_life_lived : lived first_life.1.1.
Proof. apply (lived_on [] 3 ∅ first_life.1.1 (Done first_life.1.2)); [constructor|done|apply run_on_steps]. Qed.
Lemma certificates_fit_witness :
  certificate_callback config (certificates final_state) (Some "A.example") 1100000 = Some certificate_of_home ∧
  ∃ leaf, head (c_chain certificate_of_home) = Some leaf ∧ covers "a.example" leaf = true.
Proof.
  assert (certificate_callback config (certificates final_state) (Some "A.example") 1100000
          = Some certificate_of_home) as Hc by (vm_compute; reflexivity).
  split; [exact Hc|].
  destruct (certificates_fit first_life.1.1 10 ∅ second_life.1.1 final_state config (Some "A.example")
    1100000 certificate_of_home first_life_lived) as (server & site & leaf & Hs & _ & _ & _ & Hl & Hcov & _).
  - intros d c'. rewrite lookup_empty. discriminate.
  - exact second_life_steps.
  - exact expected_both.
  - exact Hc.
  - exists leaf. split; [exact Hl|]. injection Hs as <-. exact Hcov.
Defined.
End Examples.
End Orders.
