(* ===== verification/Issuance.v ===== *)
(** * Permits for issuing challenges ([payments/lightning/issuance.rs])

    A challenge asks a receiver (an LDK node or a mint) for an invoice.  [Issuance]
    bounds how many do at once, over all receivers and per receiver.  The table of
    receivers holds weak references: the capacity of a receiver lives only while
    permits of it are out, and is made anew afterwards.

    Threads are tasks that advance one step at a time in any order; the locked
    section of [acquire] is one step, and so is each part of the drop of a
    [Permit], in the order of its fields.  [Kept] is the same with a capacity per
    receiver that is kept for ever. *)
From S2P Require Import Prelude Text Net RateLimit Capacity Extern Terms LnPolicy.
#[local] Open Scope string_scope.
#[local] Open Scope list_scope.
#[local] Open Scope Z_scope.

Module Issuance.
Import Ln.

Section issuance.
Context `{UrlLib}.

(** ** The implementation *)

Definition global_capacity : Cap.Capacity :=
  {| Cap.max := 64; Cap.ipv6_prefix := Cap.ipv6_prefix (Cap.new 64).1; Cap.per_client := 8 |}.
Definition receiver_capacity : Cap.Capacity :=
  {| Cap.max := 8; Cap.ipv6_prefix := Cap.ipv6_prefix (Cap.new 8).1; Cap.per_client := 2 |}.

(** [global] and the table, with the objects the weak references point to. *)
Record Issuance := {
  global : Cap.Shared;
  receivers : gmap string nat;
  objects : gmap nat Cap.Shared;
  next_object : nat
}.
Definition Issuance_default : Issuance :=
  {| global := (Cap.new 64).2; receivers := ∅; objects := ∅; next_object := 0 |}.

(** Configuration aliases and credential rotation share the endpoint's budget. *)
Definition receiver_key (receiver : ReceiverConfig) : result anyhow string :=
  match receiver with
  | Ldk node => url ← url_parse (endpoint node); mret ("ldk:" +:+ url_as_str url)
  | Cashu mint _ => mret ("cashu:" +:+ mint)
  end.

(** A thread in [acquire] or with a [Permit].  [object] is the capacity of the
    receiver with key [key]: an [Arc] of it is held in the first three of the last
    five. *)
Inductive Phase :=
| Entering (receiver : ReceiverConfig) (client : IpAddr)  (** has the global permit *)
| Holding (key : string) (object : nat) (counted : IpAddr)
| Counted (key : string) (object : nat)      (** receiver permit: counter dropped *)
| Released (key : string) (object : nat)     (** receiver permit dropped *)
| Leaving                                    (** [Arc] dropped *)
| Freed                                      (** global permit: counter dropped *)
| Gone.
Record Thread := { g_client : IpAddr; phase : Phase }.
Definition strong (p : Phase) : option nat :=
  match p with Holding _ o _ | Counted _ o | Released _ o => Some o | _ => None end.
Definition strong_count (o : nat) (ts : list Thread) : nat :=
  length (List.filter (λ t, bool_decide (strong (phase t) = Some o)) ts).

Definition set_global g s : Issuance :=
  {| global := g; receivers := receivers s; objects := objects s; next_object := next_object s |}.
Definition set_object o c s : Issuance :=
  {| global := global s; receivers := receivers s; objects := <[o := c]> (objects s);
     next_object := next_object s |}.
(** [receivers.retain], [get] with [Weak::upgrade], and a new entry otherwise *)
Definition lookup_receiver (key : string) (ts : list Thread) (s : Issuance) : nat * Issuance :=
  let live := filter (λ kv, strong_count kv.2 ts ≠ 0%nat) (receivers s) in
  match live !! key with
  | Some o => (o, {| global := global s; receivers := live; objects := objects s;
                     next_object := next_object s |})
  | None =>
      (next_object s,
       {| global := global s; receivers := <[key := next_object s]> live;
          objects := <[next_object s := (Cap.new 8).2]> (objects s);
          next_object := S (next_object s) |})
  end.
(** The rest of [acquire], under the lock: a permit, or the way out. *)
Definition enter (receiver : ReceiverConfig) (client : IpAddr) (ts : list Thread) (s : Issuance) :
    Issuance * Phase :=
  match receiver_key receiver with
  | Err _ => (s, Leaving)
  | Ok key =>
      let '(o, s) := lookup_receiver key ts s in
      match Cap.try_acquire receiver_capacity (default (Cap.new 8).2 (objects s !! o)) client with
      | (Some counted, c) => (set_object o c s, Holding key o counted)
      | (None, c) => (set_object o c s, Leaving)
      end
  end.
Definition advance (ts : list Thread) (t : Thread) (s : Issuance) : Issuance * Phase :=
  let object o := default (Cap.new 8).2 (objects s !! o) in
  match phase t with
  | Entering receiver client => enter receiver client ts s
  | Holding key o counted => (set_object o (Cap.drop_counter (object o) counted) s, Counted key o)
  | Counted key o => (set_object o (Cap.release_slot (object o)) s, Released key o)
  | Released _ _ => (s, Leaving)
  | Leaving => (set_global (Cap.drop_counter (global s) (g_client t)) s, Freed)
  | Freed => (set_global (Cap.release_slot (global s)) s, Gone)
  | Gone => (s, Gone)
  end.

Inductive Action := Acquire (receiver : ReceiverConfig) (client : IpAddr) | Step (i : nat).
Definition act (st : list Thread * Issuance) (a : Action) : list Thread * Issuance :=
  let '(ts, s) := st in
  match a with
  | Acquire receiver client =>
      match Cap.try_acquire global_capacity (global s) client with
      | (Some k, g) => (ts ++ [{| g_client := k; phase := Entering receiver client |}], set_global g s)
      | (None, g) => (ts ++ [{| g_client := client; phase := Gone |}], set_global g s)
      end
  | Step i =>
      match ts !! i with
      | Some t => let '(s, p) := advance ts t s in
                  (<[i := {| g_client := g_client t; phase := p |}]> ts, s)
      | None => (ts, s)
      end
  end.
Definition run (l : list Action) : list Thread * Issuance := fold_left act l ([], Issuance_default).

(** ** A capacity per receiver, kept for ever *)

Record Kept := { k_global : Cap.Shared; capacities : gmap string Cap.Shared }.
Definition capacity_of (key : string) (s : Kept) : Cap.Shared :=
  default (Cap.new 8).2 (capacities s !! key).
Definition set_k_global g s : Kept := {| k_global := g; capacities := capacities s |}.
Definition set_capacity key c s : Kept :=
  {| k_global := k_global s; capacities := <[key := c]> (capacities s) |}.
(** Its threads do not have objects; 0 stands in their place. *)
Definition k_enter (receiver : ReceiverConfig) (client : IpAddr) (s : Kept) : Kept * Phase :=
  match receiver_key receiver with
  | Err _ => (s, Leaving)
  | Ok key =>
      match Cap.try_acquire receiver_capacity (capacity_of key s) client with
      | (Some counted, c) => (set_capacity key c s, Holding key 0 counted)
      | (None, c) => (set_capacity key c s, Leaving)
      end
  end.
Definition k_advance (t : Thread) (s : Kept) : Kept * Phase :=
  match phase t with
  | Entering receiver client => k_enter receiver client s
  | Holding key _ counted => (set_capacity key (Cap.drop_counter (capacity_of key s) counted) s, Counted key 0)
  | Counted key _ => (set_capacity key (Cap.release_slot (capacity_of key s)) s, Released key 0)
  | Released _ _ => (s, Leaving)
  | Leaving => (set_k_global (Cap.drop_counter (k_global s) (g_client t)) s, Freed)
  | Freed => (set_k_global (Cap.release_slot (k_global s)) s, Gone)
  | Gone => (s, Gone)
  end.
Definition k_act (st : list Thread * Kept) (a : Action) : list Thread * Kept :=
  let '(ts, s) := st in
  match a with
  | Acquire receiver client =>
      match Cap.try_acquire global_capacity (k_global s) client with
      | (Some k, g) => (ts ++ [{| g_client := k; phase := Entering receiver client |}], set_k_global g s)
      | (None, g) => (ts ++ [{| g_client := client; phase := Gone |}], set_k_global g s)
      end
  | Step i =>
      match ts !! i with
      | Some t => let '(s, p) := k_advance t s in
                  (<[i := {| g_client := g_client t; phase := p |}]> ts, s)
      | None => (ts, s)
      end
  end.
Definition k_run (l : list Action) : list Thread * Kept :=
  fold_left k_act l ([], {| k_global := (Cap.new 64).2; capacities := ∅ |}).

(** What a caller sees of a thread. *)
Definition no_object (p : Phase) : Phase :=
  match p with
  | Holding k _ c => Holding k 0 c
  | Counted k _ => Counted k 0
  | Released k _ => Released k 0
  | p => p
  end.
Definition seen (t : Thread) : Thread := {| g_client := g_client t; phase := no_object (phase t) |}.

(** ** What is out *)

Definition global_held (t : Thread) : option IpAddr :=
  match phase t with Freed | Gone => None | _ => Some (g_client t) end.
Definition global_dropping (t : Thread) : bool := match phase t with Freed => true | _ => false end.
Definition held_of (key : string) (t : Thread) : option IpAddr :=
  match phase t with Holding k _ c => if bool_decide (k = key) then Some c else None | _ => None end.
Definition dropping_of (key : string) (t : Thread) : bool :=
  match phase t with Counted k _ => bool_decide (k = key) | _ => false end.

Definition k_inv (st : list Thread * Kept) : Prop :=
  Cap.balanced global_capacity (k_global st.2) global_held global_dropping st.1 ∧
  ∀ key, Cap.balanced receiver_capacity (capacity_of key st.2) (held_of key) (dropping_of key) st.1.

Lemma global_wf : Cap.cap_wf global_capacity.
Proof. repeat split; vm_compute; discriminate. Qed.
Lemma receiver_wf : Cap.cap_wf receiver_capacity.
Proof. repeat split; vm_compute; discriminate. Qed.
Lemma capacity_set key key' c s :
  capacity_of key (set_capacity key' c s) = if bool_decide (key' = key) then c else capacity_of key s.
Proof.
  unfold capacity_of, set_capacity. simpl. case_bool_decide as E; [by rewrite E, lookup_insert_eq|].
  by rewrite lookup_insert_ne.
Qed.
Lemma set_capacity_same key c s : c = capacity_of key s → ∀ k, capacity_of k (set_capacity key c s) = capacity_of k s.
Proof. intros -> k. rewrite capacity_set. by case_bool_decide; subst. Qed.

Ltac unchanged := eapply Cap.balanced_same; [| |eassumption]; unfold held_of, dropping_of, global_held, global_dropping;
  simpl; try done; try (by rewrite bool_decide_eq_false_2 by done).

Lemma k_advance_inv l1 t l2 s s' p :
  k_advance t s = (s', p) → k_inv (l1 ++ t :: l2, s) →
  k_inv (l1 ++ {| g_client := g_client t; phase := p |} :: l2, s').
Proof.
  intros Ha [Hg Hk]. destruct t as [g ph]. unfold k_advance in Ha. cbn [phase g_client fst snd] in *.
  destruct ph as [receiver client|k o c|k o|k o| | |]; [|injection Ha as <- <-..].
  - unfold k_enter in Ha. destruct (receiver_key receiver) as [key|];
      [|injection Ha as <- <-; split; [unchanged|intros key; specialize (Hk key); unchanged]].
    destruct (Cap.try_acquire _ _ _) as [[counted|] c'] eqn:Et; injection Ha as <- <-;
      (split; [unchanged|]); intros key'; cbn [snd]; rewrite capacity_set; specialize (Hk key').
    + case_bool_decide as Ek; subst; [|unchanged].
      eapply Cap.balanced_acquire; [..|exact Et|exact Hk]; try done. unfold held_of. simpl.
      by rewrite bool_decide_eq_true_2.
    + apply Cap.rejected in Et as ->. case_bool_decide; subst; unchanged.
  - split; [unchanged|]. intros key'. cbn [snd]. rewrite capacity_set. specialize (Hk key').
    case_bool_decide as Ek; subst; [|unchanged].
    eapply Cap.balanced_drop; [apply receiver_wf| | | | |exact Hk]; unfold held_of, dropping_of; simpl;
      rewrite ?bool_decide_eq_true_2; done.
  - split; [unchanged|]. intros key'. cbn [snd]. rewrite capacity_set. specialize (Hk key').
    case_bool_decide as Ek; subst; [|unchanged].
    eapply Cap.balanced_release; [apply receiver_wf| | | | |exact Hk]; unfold held_of, dropping_of; simpl;
      rewrite ?bool_decide_eq_true_2; done.
  - split; [unchanged|]. intros key'. specialize (Hk key'). unchanged.
  - split; [|intros key'; specialize (Hk key'); unchanged].
    eapply Cap.balanced_drop; [apply global_wf| | | | |exact Hg]; done.
  - split; [|intros key'; specialize (Hk key'); unchanged].
    eapply Cap.balanced_release; [apply global_wf| | | | |exact Hg]; done.
  - split; [unchanged|]. intros key'. specialize (Hk key'). unchanged.
Qed.

Lemma k_act_inv st a : k_inv st → k_inv (k_act st a).
Proof.
  destruct st as [ts s]. intros Hi. destruct a as [receiver client|i]; simpl.
  - destruct Hi as [Hg Hk]. destruct (Cap.try_acquire _ _ _) as [[k|] g] eqn:Et;
      (split; [|intros key; apply Cap.balanced_snoc; [done..|apply Hk]]); cbn [fst snd k_global set_k_global] in *.
    + rewrite Cap.balanced_split. simpl. rewrite app_nil_r. by eapply Cap.inv_acquire.
    + apply Cap.rejected in Et as ->. by apply Cap.balanced_snoc.
  - destruct (ts !! i) as [t|] eqn:Hi'; [|done]. destruct (lookup_split _ _ _ Hi') as (l1 & l2 & -> & Hins).
    destruct (k_advance t s) as [s' p] eqn:Ha. rewrite Hins. by eapply k_advance_inv.
Qed.
Lemma k_run_inv l : k_inv (k_run l).
Proof.
  unfold k_run. assert (k_inv ([], {| k_global := (Cap.new 64).2; capacities := ∅ |})) as H0.
  { split; [apply (Cap.inv_initial _ global_wf)|]. intros key. apply (Cap.inv_initial _ receiver_wf). }
  revert H0. generalize (@nil Thread, {| k_global := (Cap.new 64).2; capacities := ∅ |}).
  induction l as [|a l IH]; simpl; [done|]. intros st Hst. by apply IH, k_act_inv.
Qed.

(** A capacity without permits out is as good as new. *)
Lemma idle_is_new c :
  Cap.inv receiver_capacity {| Cap.shared := c; Cap.held := []; Cap.dropping := 0 |} → c = (Cap.new 8).2.
Proof.
  intros (Hs & _ & Hc & Hp & _). destruct c as [permits clients]. simpl in *.
  assert (clients = ∅) as ->.
  { apply map_eq. intros k. rewrite lookup_empty. specialize (Hc k). specialize (Hp k).
    destruct (clients !! k) as [n|]; [|done]. specialize (Hp n eq_refl). simpl in Hc.
    unfold Cap.holds in Hc. simpl in Hc. lia. }
  by replace permits with 8 by lia.
Qed.

(** ** The simulation *)

Definition object_of (p : Phase) : option (string * nat) :=
  match p with Holding k o _ | Counted k o | Released k o => Some (k, o) | _ => None end.
Lemma strong_object p o : strong p = Some o ↔ ∃ k, object_of p = Some (k, o).
Proof. destruct p; simpl; naive_solver. Qed.
Lemma strong_count_pos o ts : strong_count o ts ≠ 0%nat ↔ ∃ t, t ∈ ts ∧ strong (phase t) = Some o.
Proof.
  unfold strong_count. split.
  - intros Hn. destruct (List.filter _ ts) as [|t l] eqn:E; [done|].
    assert (In t (List.filter (λ t, bool_decide (strong (phase t) = Some o)) ts)) as Hin
      by (rewrite E; by left).
    apply filter_In in Hin as [Hin Hs]. apply bool_decide_eq_true in Hs. exists t.
    by rewrite list_elem_of_In.
  - intros (t & Hin & Hs) Hz. apply length_zero_iff_nil in Hz.
    assert (In t []) as Hf; [|done]. rewrite <- Hz. apply filter_In.
    rewrite <- list_elem_of_In, bool_decide_eq_true. done.
Qed.

Record sim (st : list Thread * Issuance) (ks : list Thread * Kept) : Prop := {
  sm_seen : map seen st.1 = ks.1;
  sm_global : global st.2 = k_global ks.2;
  sm_held : ∀ t k o, t ∈ st.1 → object_of (phase t) = Some (k, o) → receivers st.2 !! k = Some o;
  sm_caps : ∀ k o, receivers st.2 !! k = Some o → strong_count o st.1 ≠ 0%nat →
    objects st.2 !! o = Some (capacity_of k ks.2);
  sm_inj : ∀ k k' o, receivers st.2 !! k = Some o → receivers st.2 !! k' = Some o → k = k';
  sm_next : ∀ k o, receivers st.2 !! k = Some o → (o < next_object st.2)%nat
}.

(** A thread uses the object of its receiver, or gives it up. *)
Lemma sim_use l1 t l2 s ks k o c t' :
  sim (l1 ++ t :: l2, s) ks → receivers s !! k = Some o → objects s !! o = Some (capacity_of k ks.2) →
  (object_of (phase t') = None ∨ object_of (phase t') = Some (k, o)) →
  sim (l1 ++ t' :: l2, set_object o c s) (map seen (l1 ++ t' :: l2), set_capacity k c ks.2).
Proof.
  intros [Hseen Hg Hh Hc Hi Hn] Hr Ho Ht'. cbn [fst snd] in *. split; cbn [fst snd]; try done.
  - intros t0 k0 o0 Hin Hob. apply elem_of_app in Hin as [Hin|[->|Hin]%elem_of_cons].
    + apply (Hh t0); [set_solver|done].
    + destruct Ht' as [Hx|Hx]; rewrite Hx in Hob; [done|]. by injection Hob as <- <-.
    + apply (Hh t0); [set_solver|done].
  - intros k0 o0 Hr0 Hs. simpl in *. rewrite capacity_set. case_bool_decide as E; subst.
    + assert (o0 = o) as -> by congruence. by rewrite lookup_insert_eq.
    + rewrite lookup_insert_ne by (intros ->; by apply E, (Hi _ _ o0)).
      apply Hc; [done|]. apply strong_count_pos in Hs as (t0 & Hin & Hst). apply strong_count_pos.
      apply elem_of_app in Hin as [Hin|[->|Hin]%elem_of_cons]; [exists t0; set_solver| |exists t0; set_solver].
      apply strong_object in Hst as [k1 Hst]. destruct Ht' as [?|Ht']; [congruence|].
      rewrite Ht' in Hst. injection Hst as <- <-. exfalso. by apply E, (Hi _ _ o).
Qed.
(** A thread without an object, or that gives it up, and no capacity changes. *)
Lemma sim_leave l1 t l2 s ks t' g :
  sim (l1 ++ t :: l2, s) ks → object_of (phase t') = None →
  sim (l1 ++ t' :: l2, set_global g s) (map seen (l1 ++ t' :: l2), set_k_global g ks.2).
Proof.
  intros [Hseen Hg Hh Hc Hi Hn] Ht'. cbn [fst snd] in *. split; cbn [fst snd]; try done.
  - intros t0 k0 o0 Hin Hob. apply elem_of_app in Hin as [Hin|[->|Hin]%elem_of_cons];
      [apply (Hh t0); [set_solver|done]|congruence|apply (Hh t0); [set_solver|done]].
  - intros k0 o0 Hr0 Hs. apply Hc; [done|]. apply strong_count_pos in Hs as (t0 & Hin & Hst).
    apply strong_count_pos.
    apply elem_of_app in Hin as [Hin|[->|Hin]%elem_of_cons]; [exists t0; set_solver| |exists t0; set_solver].
    apply strong_object in Hst as [k1 Hst]. congruence.
Qed.

Lemma omap_none {A B} (f : A → option B) l : (∀ a, a ∈ l → f a = None) → omap f l = [].
Proof.
  induction l as [|a l IH]; simpl; [done|]. intros Hf. rewrite (Hf a) by constructor.
  apply IH. intros. apply Hf. by constructor.
Qed.
(** The object found for a key is in the state of the capacity kept for it. *)
Lemma lookup_receiver_sim ts s ks key o s' :
  sim (ts, s) ks → k_inv ks → lookup_receiver key ts s = (o, s') →
  sim (ts, s') ks ∧ receivers s' !! key = Some o ∧ objects s' !! o = Some (capacity_of key ks.2).
Proof.
  intros [Hseen Hg Hh Hc Hi Hn] [_ Hk] Hl. cbn [fst snd] in *. unfold lookup_receiver in Hl.
  set (live := filter _ (receivers s)) in Hl.
  assert (∀ k o, live !! k = Some o ↔ receivers s !! k = Some o ∧ strong_count o ts ≠ 0%nat) as Hlive.
  { intros k o'. unfold live. by rewrite map_lookup_filter_Some. }
  assert (∀ t k o, t ∈ ts → object_of (phase t) = Some (k, o) → live !! k = Some o) as Hall.
  { intros t k o' Hin Hob. apply Hlive. split; [by apply (Hh t)|]. apply strong_count_pos.
    exists t. rewrite strong_object. eauto. }
  destruct (live !! key) as [o0|] eqn:Hkey; injection Hl as <- <-.
  - apply Hlive in Hkey as Hk0. split; [|split; [done|by apply Hc; apply Hk0]].
    split; cbn [fst snd receivers objects global next_object]; try done.
    + intros k o' Hl _. apply Hlive in Hl as [? ?]. by apply Hc.
    + intros k k' o' [? _]%Hlive [? _]%Hlive. by eapply Hi.
    + intros k o' [? _]%Hlive. by eapply Hn.
  - assert (capacity_of key ks.2 = (Cap.new 8).2) as Hnew.
    { apply idle_is_new. specialize (Hk key). unfold Cap.balanced in Hk. rewrite <- Hseen in Hk.
      rewrite omap_none, Cap.count_none in Hk; [exact Hk|..];
        intros t' (t & -> & Hin)%list_elem_of_fmap; unfold dropping_of, held_of; simpl;
        specialize (Hall t); destruct (phase t) as [|k o c|k o|k o| | |]; simpl in *; try done;
        (case_bool_decide as E; [|done]); subst; specialize (Hall key o Hin eq_refl); congruence. }
    split; [|split; simpl; [apply lookup_insert_eq|by rewrite lookup_insert_eq, Hnew]].
    split; cbn [fst snd receivers objects global next_object]; try done.
    + intros t k o' Hin Hob. pose proof (Hall t k o' Hin Hob). rewrite lookup_insert_ne; [done|congruence].
    + intros k o'. rewrite lookup_insert_Some. intros [[<- <-]|[Hne [Hl Hs]%Hlive]] Hpos.
      * by rewrite lookup_insert_eq, Hnew.
      * apply Hn in Hl as Hlt. rewrite lookup_insert_ne by lia. by apply Hc.
    + intros k k' o'. rewrite !lookup_insert_Some.
      intros [[<- <-]|[Hne [Hl Hs]%Hlive]] [[<- E]|[Hne' [Hl' Hs']%Hlive]]; [done| | |by eapply Hi].
      * apply Hn in Hl'. lia.
      * apply Hn in Hl. lia.
    + intros k o'. rewrite lookup_insert_Some. intros [[<- <-]|[_ [Hl _]%Hlive]]; [lia|].
      apply Hn in Hl. lia.
Qed.

Lemma sim_snoc ts s ks t g :
  sim (ts, s) ks → object_of (phase t) = None →
  sim (ts ++ [t], set_global g s) (ks.1 ++ [seen t], set_k_global g ks.2).
Proof.
  intros Hs Ht. pose proof (sm_seen _ _ Hs) as Hseen. simpl in Hseen. rewrite <- Hseen.
  replace (map seen ts ++ [seen t]) with (map seen (ts ++ [t])) by apply map_app.
  destruct Hs as [_ Hg Hh Hc Hi Hn]. cbn [fst snd] in *. split; cbn [fst snd]; try done.
  - intros t0 k0 o0 Hin Hob. apply elem_of_app in Hin as [Hin|Hin]; [by apply (Hh t0)|].
    apply list_elem_of_singleton in Hin as ->. congruence.
  - intros k0 o0 Hr Hp. apply Hc; [done|]. apply strong_count_pos in Hp as (t0 & Hin & Hst).
    apply strong_count_pos. exists t0. split; [|done].
    apply elem_of_app in Hin as [Hin|Hin]; [done|]. apply list_elem_of_singleton in Hin as ->.
    apply strong_object in Hst as [k1 Hst]. congruence.
Qed.

Lemma sim_advance l1 t l2 s ks s' p :
  sim (l1 ++ t :: l2, s) ks → k_inv ks → advance (l1 ++ t :: l2) t s = (s', p) →
  ∃ ks', k_advance (seen t) ks.2 = (ks', no_object p) ∧
    sim (l1 ++ {| g_client := g_client t; phase := p |} :: l2, s')
        (map seen (l1 ++ {| g_client := g_client t; phase := p |} :: l2), ks').
Proof.
  intros Hs Hk Ha. destruct t as [g ph]. unfold advance in Ha. cbn [phase g_client] in *.
  assert (∀ k o, object_of ph = Some (k, o) → receivers s !! k = Some o ∧
    objects s !! o = Some (capacity_of k ks.2)) as Hown.
  { intros k o Hob. assert (receivers s !! k = Some o) as Hr.
    { apply (sm_held _ _ Hs {| g_client := g; phase := ph |}); [simpl; set_solver|done]. }
    split; [done|]. apply (sm_caps _ _ Hs); [done|]. apply strong_count_pos.
    exists {| g_client := g; phase := ph |}. split; [simpl; set_solver|]. apply strong_object. eauto. }
  assert (∀ t' g', object_of (phase t') = None → sim (l1 ++ t' :: l2, set_global g' s)
    (map seen (l1 ++ t' :: l2), set_k_global g' ks.2)) as Hleave by (intros; by eapply sim_leave).
  assert (∀ t', object_of (phase t') = None → sim (l1 ++ t' :: l2, s) (map seen (l1 ++ t' :: l2), ks.2)) as Hgone.
  { intros t' Ht'. specialize (Hleave t' (global s) Ht'). destruct s. rewrite (sm_global _ _ Hs) in Hleave at 2.
    by destruct ks as [? []]. }
  destruct ph as [receiver client|k o c|k o|k o| | |]; unfold k_advance, seen; cbn [phase no_object g_client].
  - unfold enter in Ha. unfold k_enter. destruct (receiver_key receiver) as [key|e].
    2: { injection Ha as <- <-. eexists. split; [reflexivity|]. by apply Hgone. }
    destruct (lookup_receiver key _ s) as [o s1] eqn:Hl.
    destruct (lookup_receiver_sim _ _ _ _ _ _ Hs Hk Hl) as (Hs1 & Hr & Ho). rewrite Ho in Ha. simpl in Ha.
    destruct (Cap.try_acquire _ _ _) as [[counted|] c]; injection Ha as <- <-;
      (eexists; split; [reflexivity|]); eapply sim_use; eauto.
  - destruct (Hown k o eq_refl) as [Hr Ho]. rewrite Ho in Ha. injection Ha as <- <-.
    eexists. split; [reflexivity|]. eapply sim_use; eauto.
  - destruct (Hown k o eq_refl) as [Hr Ho]. rewrite Ho in Ha. injection Ha as <- <-.
    eexists. split; [reflexivity|]. eapply sim_use; eauto.
  - injection Ha as <- <-. eexists. split; [reflexivity|]. by apply Hgone.
  - injection Ha as <- <-. eexists. rewrite <- (sm_global _ _ Hs). split; [reflexivity|]. by apply Hleave.
  - injection Ha as <- <-. eexists. rewrite <- (sm_global _ _ Hs). split; [reflexivity|]. by apply Hleave.
  - injection Ha as <- <-. eexists. split; [reflexivity|]. by apply Hgone.
Qed.

Lemma sim_act st ks a : sim st ks → k_inv ks → sim (act st a) (k_act ks a).
Proof.
  destruct st as [ts s], ks as [kts ks]. intros Hs Hk. destruct a as [receiver client|i]; cbn [act k_act].
  - rewrite <- (sm_global _ _ Hs : global s = k_global ks).
    destruct (Cap.try_acquire _ _ _) as [[k|] g].
    + by apply (sim_snoc ts s (kts, ks) {| g_client := k; phase := Entering receiver client |}).
    + by apply (sim_snoc ts s (kts, ks) {| g_client := client; phase := Gone |}).
  - pose proof (sm_seen _ _ Hs : map seen ts = kts) as Hseen. rewrite <- Hseen.
    assert (map seen ts !! i = seen <$> ts !! i) as -> by apply list_lookup_fmap.
    destruct (ts !! i) as [t|] eqn:Hi; cbn [fmap option_fmap option_map]; [|by rewrite Hseen].
    destruct (lookup_split _ _ _ Hi) as (l1 & l2 & -> & Hins).
    destruct (advance _ t s) as [s' p] eqn:Ha.
    destruct (sim_advance l1 t l2 s (kts, ks) s' p Hs Hk Ha) as (ks' & Hks & Hsim).
    cbn [snd] in Hks. rewrite Hks, Hins.
    assert (<[i := {| g_client := g_client (seen t); phase := no_object p |}]> (map seen (l1 ++ t :: l2))
            = map seen (l1 ++ {| g_client := g_client t; phase := p |} :: l2)) as ->; [|done].
    rewrite <- (Hins {| g_client := g_client t; phase := p |}). symmetry. apply (list_fmap_insert seen (l1 ++ t :: l2) i {| g_client := g_client t; phase := p |}).
Qed.

Lemma sim_run l : sim (run l) (k_run l).
Proof.
  unfold run, k_run.
  assert (sim ([], Issuance_default) ([], {| k_global := (Cap.new 64).2; capacities := ∅ |})) as H0.
  { split; simpl; try done; intros *; rewrite ?lookup_empty; try done. by intros ?%elem_of_nil. }
  pose proof (k_run_inv [] : k_inv ([], {| k_global := (Cap.new 64).2; capacities := ∅ |})) as Hk0.
  revert H0 Hk0. generalize ([] : list Thread, Issuance_default).
  generalize ([] : list Thread, {| k_global := (Cap.new 64).2; capacities := ∅ |}).
  induction l as [|a l IH]; intros ks st Hs Hk; simpl; [done|].
  apply IH; [by apply sim_act|by apply k_act_inv].
Qed.

(** C16: pruning the table of receivers is invisible.  Whatever threads ask for
    permits and in whatever order they advance, every request gets the same answer
    as if each receiver had one capacity for ever; and so at most eight challenges
    use a receiver at once, at most two of them for one client, and at most 64 are
    made in all. *)
Theorem weak_table_equivalent l :
  map seen (run l).1 = (k_run l).1 ∧
  (∀ key, (length (omap (held_of key) (run l).1) + Cap.count (dropping_of key) (run l).1 ≤ 8)%nat ∧
          ∀ k, Cap.holds k (omap (held_of key) (run l).1) ≤ 2) ∧
  (length (omap global_held (run l).1) + Cap.count global_dropping (run l).1 ≤ 64)%nat.
Proof.
  destruct (sim_run l) as [Hseen _ _ _ _ _]. destruct (k_run_inv l) as [Hg Hk].
  assert (∀ A (f : Thread → option A), (∀ t, f (seen t) = f t) → omap f (run l).1 = omap f (k_run l).1) as Ho.
  { intros A f Hf. rewrite <- Hseen. clear Hseen. induction (run l).1 as [|t ts IH]; simpl; [done|]. rewrite Hf.
    destruct (f t); [f_equal|]; exact IH. }
  assert (∀ p, (∀ t, p (seen t) = p t) → Cap.count p (run l).1 = Cap.count p (k_run l).1) as Hp.
  { intros p Hp. rewrite <- Hseen. clear Hseen Ho. unfold Cap.count. induction (run l).1 as [|t ts IH]; simpl; [done|].
    rewrite Hp. destruct (p t); simpl; [f_equal|]; exact IH. }
  split; [done|]. split.
  - intros key. destruct (Hk key) as (Hs & Hpos & _ & _ & Hper). simpl in *.
    rewrite Ho, Hp by (intros [? []]; done). split; [lia|done].
  - destruct Hg as (Hs & Hpos & _). simpl in *. rewrite Ho, Hp by (intros [? []]; done). lia.
Qed.
End issuance.
End Issuance.
