(* ===== verification/Connections.v ===== *)
(** * Connections ([connections.rs])

    Every connection takes one permit of a process-wide capacity before a byte of it
    is read: a TLS connection before its handshake, where the permit becomes part of
    the stream, a plain one when the proxy gets it.  The theorems are about every
    order in which connections arrive, finish their handshakes and end. *)
From S2P Require Import Prelude Text Net RateLimit Capacity.
#[local] Open Scope string_scope.
#[local] Open Scope list_scope.
#[local] Open Scope Z_scope.

Module Connections.

(** [Connections::default] *)
Definition connections : Cap.Capacity :=
  {| Cap.max := 1024; Cap.ipv6_prefix := Cap.ipv6_prefix (Cap.new 1024).1; Cap.per_client := 64 |}.
Definition CAPACITY_ERROR : string := "connection capacity exhausted".

(** A stream as [acquire] sees it: the peer's address, whether TLS was negotiated,
    and the guard in its tracer. *)
Record Stream := { peer : option IpAddr; ssl_digest : bool; tracer : option IpAddr }.
Inductive Phase :=
| Handshake (s : Stream)                        (** TLS, being negotiated *)
| Served (s : Stream) (permit : option IpAddr)  (** with [_permit] of [process_new] *)
| Dropping                                      (** a permit between its two steps *)
| Closed.
(** The capacity, and the rejections recorded. *)
Record State := { shared : Cap.Shared; rejections : Z }.

(** [Connections::acquire] *)
Definition acquire (s : Stream) (st : State) : State * result string IpAddr :=
  match (match peer s with
         | None => (None, shared st)
         | Some ip => Cap.try_acquire connections (shared st) ip
         end) with
  | (Some permit, c) => ({| shared := c; rejections := rejections st |}, Ok permit)
  | (None, c) => ({| shared := c; rejections := rejections st + 1 |}, Err CAPACITY_ERROR)
  end.
(** [PreTlsProcess::process]: the guard goes into the stream. *)
Definition process (s : Stream) (st : State) : State * result string Stream :=
  let '(st, r) := acquire s st in
  (st, permit ← r; mret {| peer := peer s; ssl_digest := ssl_digest s; tracer := Some permit |}).
(** [ServerApp::process_new], up to the handling of the connection. *)
Definition process_new (s : Stream) (st : State) : State * option Phase :=
  if negb (ssl_digest s) then
    match acquire s st with
    | (st, Ok permit) => (st, Some (Served s (Some permit)))
    | (st, Err _) => (st, None)
    end
  else (st, Some (Served s None)).

(** ** Connections over time *)

Inductive Action :=
| Accept (tls : bool) (ip : option IpAddr)
| Negotiated (i : nat) (ok : bool)
| Step (i : nat).                              (** a connection ends, in two steps *)
(** The permit a connection holds, in its stream or its task. *)
Definition held (p : Phase) : option IpAddr :=
  match p with
  | Handshake s => tracer s
  | Served s permit => match permit with Some k => Some k | None => tracer s end
  | Dropping | Closed => None
  end.
Definition dropping (p : Phase) : bool := match p with Dropping => true | _ => false end.
Definition drop_counter (p : Phase) (st : State) : State * Phase :=
  match held p with
  | Some k => ({| shared := Cap.drop_counter (shared st) k; rejections := rejections st |}, Dropping)
  | None => (st, Closed)
  end.
Definition act (sys : list Phase * State) (a : Action) : list Phase * State :=
  let '(ps, st) := sys in
  match a with
  | Accept true ip =>
      match process {| peer := ip; ssl_digest := false; tracer := None |} st with
      | (st, Ok s) => (ps ++ [Handshake s], st)
      | (st, Err _) => (ps ++ [Closed], st)
      end
  | Accept false ip =>
      match process_new {| peer := ip; ssl_digest := false; tracer := None |} st with
      | (st, Some p) => (ps ++ [p], st)
      | (st, None) => (ps ++ [Closed], st)
      end
  | Negotiated i ok =>
      match ps !! i with
      | Some (Handshake s) =>
          if ok : bool then
            match process_new {| peer := peer s; ssl_digest := true; tracer := tracer s |} st with
            | (st, Some p) => (<[i := p]> ps, st)
            | (st, None) => (<[i := Closed]> ps, st)
            end
          else let '(st, p) := drop_counter (Handshake s) st in (<[i := p]> ps, st)
      | _ => (ps, st)
      end
  | Step i =>
      match ps !! i with
      | Some Dropping => (<[i := Closed]> ps,
                          {| shared := Cap.release_slot (shared st); rejections := rejections st |})
      | Some Closed | None => (ps, st)
      | Some p => let '(st, p) := drop_counter p st in (<[i := p]> ps, st)
      end
  end.
Definition run (l : list Action) : list Phase * State :=
  fold_left act l ([], {| shared := (Cap.new 1024).2; rejections := 0 |}).

(** ** Properties *)

(** A connection that is open holds a permit. *)
Definition inv (sys : list Phase * State) : Prop :=
  Cap.balanced connections (shared sys.2) held dropping sys.1 ∧
  ∀ p, p ∈ sys.1 → held p = None → p = Dropping ∨ p = Closed.

Lemma connections_wf : Cap.cap_wf connections.
Proof. repeat split; vm_compute; discriminate. Qed.
Lemma acquire_spec s st st' r :
  acquire s st = (st', r) →
  match r with
  | Ok k => ∃ ip, Cap.try_acquire connections (shared st) ip = (Some k, shared st')
  | Err _ => shared st' = shared st
  end.
Proof.
  unfold acquire. destruct (peer s) as [ip|]; [|by intros [= <- <-]].
  destruct (Cap.try_acquire connections (shared st) ip) as [[k|] c] eqn:E; intros [= <- <-]; [by exists ip|].
  by apply Cap.rejected in E.
Qed.
Lemma inv_accept ps st st' s r p :
  inv (ps, st) → acquire s st = (st', r) →
  match r with Ok k => held p = Some k ∧ dropping p = false | Err _ => p = Closed end →
  inv (ps ++ [p], st').
Proof.
  intros [Hb Hp] Ha Hr. apply acquire_spec in Ha. split; cbn [fst snd] in *.
  - destruct r as [k|].
    + destruct Ha as [ip Ha], Hr as [Hk Hd]. rewrite Cap.balanced_split, Hk, Hd. simpl. rewrite app_nil_r.
      by eapply Cap.inv_acquire.
    + subst p. rewrite Ha. by apply Cap.balanced_snoc.
  - intros q Hq. apply elem_of_app in Hq as [Hq|Hq]; [by apply Hp|]. apply list_elem_of_singleton in Hq as ->.
    destruct r; [|subst; auto]. destruct Hr as [-> _]. done.
Qed.
Lemma inv_change l1 p l2 q st st' :
  inv (l1 ++ p :: l2, st) → (held q = None → q = Dropping ∨ q = Closed) →
  (Cap.balanced connections (shared st) held dropping (l1 ++ p :: l2) →
   Cap.balanced connections (shared st') held dropping (l1 ++ q :: l2)) →
  inv (l1 ++ q :: l2, st').
Proof.
  intros [Hb Hp] Hq Hc. split; [by apply Hc|]. cbn [fst] in *. intros x Hx.
  apply elem_of_app in Hx as [Hx|[->|Hx]%elem_of_cons]; [apply Hp; set_solver|done|apply Hp; set_solver].
Qed.
Lemma conn_drop l1 p l2 st st' q :
  inv (l1 ++ p :: l2, st) → dropping p = false → p ≠ Closed → drop_counter p st = (st', q) →
  inv (l1 ++ q :: l2, st').
Proof.
  intros Hi Hd Hc Hq. unfold drop_counter in Hq. destruct (held p) as [k|] eqn:Hk.
  - injection Hq as <- <-. eapply inv_change; [exact Hi|auto|]. intros Hb. simpl.
    apply (Cap.balanced_drop _ _ _ _ _ p); auto using connections_wf.
  - destruct Hi as [_ Hp]. destruct (Hp p) as [->| ->]; [simpl; set_solver|done..].
Qed.
Lemma act_inv sys a : inv sys → inv (act sys a).
Proof.
  destruct sys as [ps st]. intros Hi. destruct a as [[] ip|i ok|i]; cbn [act].
  - unfold process. destruct (acquire _ st) as [st' r] eqn:Ha. destruct r as [k|e]; cbn;
      by eapply inv_accept.
  - unfold process_new. cbn [ssl_digest negb]. destruct (acquire _ st) as [st' r] eqn:Ha.
    destruct r as [k|e]; cbn; by eapply inv_accept.
  - destruct (ps !! i) as [[s|s permit| |]|] eqn:Hl; try done.
    destruct (lookup_split _ _ _ Hl) as (l1 & l2 & -> & Hins).
    destruct ok.
    + cbn [process_new ssl_digest negb]. rewrite Hins. eapply inv_change; [exact Hi| |].
      * intros Hn. destruct Hi as [_ Hp]. destruct (Hp (Handshake s)) as [?|?]; [simpl; set_solver|done..].
      * by apply Cap.balanced_same.
    + destruct (drop_counter (Handshake s) st) as [st' q] eqn:Hd. rewrite Hins. by eapply conn_drop.
  - destruct (ps !! i) as [p|] eqn:Hl; [|done]. destruct (lookup_split _ _ _ Hl) as (l1 & l2 & -> & Hins).
    destruct p as [s|s permit| |]; try done; rewrite ?Hins.
    + destruct (drop_counter (Handshake s) st) as [st' q] eqn:Hd. rewrite Hins. by eapply conn_drop.
    + destruct (drop_counter (Served s permit) st) as [st' q] eqn:Hd. rewrite Hins. by eapply conn_drop.
    + eapply inv_change; [exact Hi|auto|]. intros Hb. simpl.
      apply (Cap.balanced_release _ _ _ _ _ Dropping); auto using connections_wf.
Qed.

(** Connections that are open, handshakes included. *)
Definition is_open (p : Phase) : bool := match p with Handshake _ | Served _ _ => true | _ => false end.
Lemma open_held ps :
  (∀ p, p ∈ ps → held p = None → p = Dropping ∨ p = Closed) →
  length (List.filter is_open ps) = length (omap held ps).
Proof.
  intros Hp. induction ps as [|p ps IH]; [done|]. specialize (IH ltac:(intros; apply Hp; [by constructor|done])).
  specialize (Hp p ltac:(constructor)).
  assert (is_open p = is_some (held p)) as Ho.
  { destruct (held p) eqn:Hh; [by destruct p|]. by destruct (Hp eq_refl) as [->| ->]. }
  simpl. rewrite Ho. destruct (held p); simpl; [f_equal|]; exact IH.
Qed.
(** Each open connection holds one permit, so that at most 1024 are open, 64 of one
    client. *)
Theorem connections_bounded l :
  (length (List.filter is_open (run l).1) + Cap.count dropping (run l).1 ≤ 1024)%nat ∧
  length (List.filter is_open (run l).1) = length (omap held (run l).1) ∧
  ∀ k, Cap.holds k (omap held (run l).1) ≤ 64.
Proof.
  assert (inv (run l)) as [Hb Hp].
  { unfold run. assert (inv ([], {| shared := (Cap.new 1024).2; rejections := 0 |})) as H0.
    { split; [apply (Cap.inv_initial _ connections_wf)|]. by intros p ?%elem_of_nil. }
    revert H0. generalize ([] : list Phase, {| shared := (Cap.new 1024).2; rejections := 0 |}).
    induction l as [|a l IH]; simpl; [done|]. intros sys Hs. by apply IH, act_inv. }
  assert (length (List.filter is_open (run l).1) = length (omap held (run l).1)) as Hl.
  { by apply open_held. }
  destruct Hb as (Hs & Hpos & _ & _ & Hper). simpl in *. split_and!; [lia|done|done].
Qed.

(** ** The startup of an HTTP/2 connection

    [process_new] gives an HTTP/2 connection ten seconds for the negotiation and its
    first request; [startup_deadline] polls the connection, the sleep and the channel
    of that request in an order that is random each time. *)

Inductive Fate := Negotiating | Serving | Finished | Cut.
#[export] Instance Fate_eq_dec : EqDecision Fate.
Proof. solve_decision. Defined.
Inductive Future := Connection | Deadline | Receiver.
(** [ready] is the value in the channel; the sender is alive as long as the connection. *)
Record Startup := { deadline : Z; ready : bool; fate : Fate }.
(** A poll: the time, the order of the futures, whether the connection, if it is polled,
    sees its first request and whether it completes. *)
Record Poll := { now : Z; order : list Future; requests : bool; completes : bool }.

Definition set_fate (f : Fate) (s : Startup) : Startup := {| deadline := deadline s; ready := ready s; fate := f |}.
Definition poll_connection (p : Poll) (s : Startup) : Startup :=
  let s := {| deadline := deadline s; ready := ready s || requests p; fate := fate s |} in
  if completes p then set_fate Finished s else s.
Definition poll_future (p : Poll) (s : Startup) (f : Future) : Startup :=
  match fate s with
  | Negotiating =>
      match f with
      | Connection => poll_connection p s
      | Deadline => if deadline s <=? now p then set_fate Cut s else s
      | Receiver => if ready s then set_fate Serving s else s
      end
  | _ => s
  end.
(** [startup_deadline]: the [select!], and then [connection.await]. *)
Definition startup_deadline (s : Startup) (p : Poll) : Startup :=
  match fate s with
  | Negotiating => fold_left (poll_future p) (order p) s
  | Serving => poll_connection p s
  | Finished | Cut => s
  end.
(** The rest of [process_new]: [true] for [is_h2]. *)
Definition connection_run (is_h2 : bool) (t0 : Z) (l : list Poll) : Startup :=
  fold_left startup_deadline l
    {| deadline := t0 + 10 * 1000000000; ready := false; fate := if is_h2 then Negotiating else Serving |}.

Definition fair (p : Poll) : Prop := order p ≡ₚ [Connection; Deadline; Receiver].

Lemma poll_future_deadline p s f : deadline (poll_future p s f) = deadline s.
Proof. unfold poll_future, poll_connection. destruct (fate s), f; repeat case_match; done. Qed.
Lemma poll_futures_deadline p s l : deadline (fold_left (poll_future p) l s) = deadline s.
Proof. revert s. induction l as [|f l IH]; intros s; simpl; [done|]. by rewrite IH, poll_future_deadline. Qed.
Lemma poll_futures_over p s l : fate s ≠ Negotiating → fold_left (poll_future p) l s = s.
Proof.
  revert s. induction l as [|f l IH]; intros s Hs; simpl; [done|].
  assert (poll_future p s f = s) as -> by (unfold poll_future; by destruct (fate s)). auto.
Qed.
(** A poll cuts only what is due, and what was not ready before it. *)
Lemma poll_futures_cut p s l :
  fate s = Negotiating → fate (fold_left (poll_future p) l s) = Cut → deadline s <= now p.
Proof.
  revert s. induction l as [|f l IH]; intros s Hs Hc; simpl in Hc; [congruence|].
  destruct (decide (fate (poll_future p s f) = Negotiating)) as [Hn|Hn].
  { rewrite <- (poll_future_deadline p s f). by apply IH. }
  rewrite poll_futures_over in Hc by done. unfold poll_future in Hc. rewrite Hs in Hc.
  destruct f; [|by destruct (Z.leb_spec (deadline s) (now p)); [|congruence]|by destruct (ready s); simpl in *; congruence].
  unfold poll_connection in Hc. destruct (completes p); simpl in Hc; congruence.
Qed.
(** A poll at the deadline ends the negotiation, one way or another. *)
Lemma poll_futures_due p s l :
  Deadline ∈ l → deadline s <= now p → fate (fold_left (poll_future p) l s) ≠ Negotiating.
Proof.
  revert s. induction l as [|f l IH]; intros s Hin Hd; [by apply not_elem_of_nil in Hin|]. simpl.
  destruct (decide (fate (poll_future p s f) = Negotiating)) as [Hn|Hn]; [|by rewrite poll_futures_over].
  apply elem_of_cons in Hin as [<-|Hin]; [|apply IH; [done|by rewrite poll_future_deadline]].
  unfold poll_future in Hn. destruct (fate s) eqn:Hs; try congruence.
  rewrite (proj2 (Z.leb_le _ _) Hd) in Hn. done.
Qed.
Lemma poll_futures_ready p s l :
  Receiver ∈ l → ready s = true → fate (fold_left (poll_future p) l s) ≠ Negotiating.
Proof.
  revert s. induction l as [|f l IH]; intros s Hin Hr; [by apply not_elem_of_nil in Hin|]. simpl.
  destruct (decide (fate (poll_future p s f) = Negotiating)) as [Hn|Hn]; [|by rewrite poll_futures_over].
  apply elem_of_cons in Hin as [<-|Hin].
  - unfold poll_future in Hn. rewrite Hr in Hn. destruct (fate s) eqn:Hs; simpl in Hn; congruence.
  - apply IH; [done|]. unfold poll_future, poll_connection. destruct (fate s), f; repeat case_match; simpl; by rewrite ?Hr.
Qed.

Definition safe_fate (f : Fate) : bool := match f with Serving | Finished => true | _ => false end.
Lemma startup_safe s l : safe_fate (fate s) = true → safe_fate (fate (fold_left startup_deadline l s)) = true.
Proof.
  revert s. induction l as [|p l IH]; intros s Hs; [done|]. apply IH. unfold startup_deadline, poll_connection.
  destruct (fate s) eqn:E; simpl in Hs; try done; [destruct (completes p)|]; simpl; by rewrite ?E.
Qed.
Lemma startup_over s l : fate s ≠ Negotiating → fate (fold_left startup_deadline l s) ≠ Negotiating.
Proof.
  revert s. induction l as [|p l IH]; intros s Hs; [done|]. apply IH. unfold startup_deadline, poll_connection.
  destruct (fate s) eqn:E; try done; [destruct (completes p)|..]; simpl; congruence.
Qed.
Lemma startup_keeps_deadline s p : deadline (startup_deadline s p) = deadline s.
Proof.
  unfold startup_deadline, poll_connection. destruct (fate s); [apply poll_futures_deadline|..]; by repeat case_match.
Qed.
Lemma connection_deadline h t0 l : deadline (connection_run h t0 l) = t0 + 10 * 1000000000.
Proof.
  induction l as [|p l IH] using rev_ind; [done|]. unfold connection_run in *. rewrite fold_left_app. simpl.
  by rewrite startup_keeps_deadline.
Qed.
Lemma connection_app h t0 l l' :
  connection_run h t0 (l ++ l') = fold_left startup_deadline l' (connection_run h t0 l).
Proof. apply fold_left_app. Qed.

(** A connection has ten seconds to make its first request, and is not cut for its
    age afterwards.  In every sequence of polls: an HTTP/2 connection is cut only by a
    poll ten seconds after its start, while it was negotiating; such a poll ends the
    negotiation in any case; a connection whose first request was seen by a poll before
    the deadline is never cut, and neither is one that is not HTTP/2. *)
Theorem startup_bounded t0 l :
  Forall fair l →
  (fate (connection_run true t0 l) = Cut →
   ∃ l1 p l2, l = l1 ++ p :: l2 ∧ t0 + 10 * 1000000000 <= now p ∧ fate (connection_run true t0 l1) = Negotiating) ∧
  (∀ p, p ∈ l → t0 + 10 * 1000000000 <= now p → fate (connection_run true t0 l) ≠ Negotiating) ∧
  (∀ l1 p l2, l = l1 ++ p :: l2 → ready (connection_run true t0 l1) = true → fate (connection_run true t0 l1) ≠ Cut →
   now p < t0 + 10 * 1000000000 → fate (connection_run true t0 l) ≠ Cut) ∧
  fate (connection_run false t0 l) ≠ Cut.
Proof.
  intros Hf. split_and!.
  - induction l as [|p l IH] using rev_ind; intros Hc; [done|]. apply Forall_app in Hf as [Hf _].
    rewrite connection_app in Hc. simpl in Hc. unfold startup_deadline in Hc.
    destruct (fate (connection_run true t0 l)) eqn:Hs.
    + exists l, p, []. rewrite <- (connection_deadline true t0 l). by apply poll_futures_cut in Hc.
    + unfold poll_connection in Hc. destruct (completes p); simpl in Hc; congruence.
    + congruence.
    + destruct (IH Hf eq_refl) as (l1 & p' & l2 & -> & Hd). exists l1, p', (l2 ++ [p]). by rewrite <- app_assoc.
  - intros p (l1 & l2 & ->)%list_elem_of_split Hd. rewrite connection_app. cbn [fold_left]. apply startup_over.
    unfold startup_deadline. destruct (fate (connection_run true t0 l1)) eqn:Hs; try congruence.
    + apply poll_futures_due; [|by rewrite connection_deadline].
      apply Forall_app in Hf as [_ Hf]. apply Forall_cons in Hf as [Hp _]. unfold fair in Hp. rewrite Hp. set_solver.
    + unfold poll_connection. destruct (completes p); simpl; congruence.
  - intros l1 p l2 -> Hr Hc Hd. rewrite connection_app.
    assert (safe_fate (fate (startup_deadline (connection_run true t0 l1) p)) = true) as Hs.
    { unfold startup_deadline. destruct (fate (connection_run true t0 l1)) eqn:Hs; try done.
      - assert (fate (fold_left (poll_future p) (order p) (connection_run true t0 l1)) ≠ Negotiating) as Hn.
        { apply poll_futures_ready; [|done]. apply Forall_app in Hf as [_ Hf]. apply Forall_cons in Hf as [Hp _].
          unfold fair in Hp. rewrite Hp. set_solver. }
        destruct (fate (fold_left _ _ _)) eqn:Hx; try done.
        apply poll_futures_cut in Hx; [|done]. rewrite connection_deadline in Hx. lia.
      - unfold poll_connection. destruct (completes p); simpl; [done|]. by rewrite Hs.
      - by rewrite Hs. }
    pose proof (startup_safe _ l2 Hs) as Hl. simpl. by destruct (fate (fold_left startup_deadline l2 _)).
  - pose proof (startup_safe {| deadline := t0 + 10 * 1000000000; ready := false; fate := Serving |} l eq_refl) as Hl.
    unfold connection_run. by destruct (fate (fold_left startup_deadline l _)).
Qed.
End Connections.
