(* ===== verification/Files.v ===== *)
(** * Files that survive crashes ([storage.rs], [prepare_storage] of [payments/mod.rs])

    A directory of private files, seen through the system calls the program makes
    on it.  Each call can fail, with or without having happened, and the process
    can end at each ([M] of [Effects]).  After a crash, an entry is the one of the
    last directory sync or any it had since, and a file that was not synced can
    hold anything: that is all POSIX promises, and [Storage::write] and the
    creation of a wallet's seed are correct on it. *)
From S2P Require Import Prelude Text Effects.
#[local] Open Scope string_scope.
#[local] Open Scope list_scope.
#[local] Open Scope Z_scope.

Module Files.

(** ** Directories *)

(** A regular file, or a symbolic link, directory or the like; [resolves] says
    whether following it finds something. *)
Inductive Kind := Regular | Special (resolves : bool).
Record Inode := { kind : Kind; mode : Z; data : string; flushed : bool }.
Record Dir := {
  entries : gmap string nat;
  synced : gmap string nat;                  (** as of the last sync of the directory *)
  log : list (string * option nat);          (** changes since *)
  inodes : gmap nat Inode;
  next_inode : nat
}.
Definition node (d : Dir) (name : string) : option Inode :=
  match entries d !! name with Some i => inodes d !! i | None => None end.
Definition read_file (d : Dir) (name : string) : option string := data <$> node d name.
(** [mode & 0o077 == 0] *)
Definition private (m : Z) : bool := Z.land m 63 =? 0.

Definition set_entry (name : string) (v : option nat) (d : Dir) : Dir :=
  {| entries := match v with Some i => <[name := i]> (entries d) | None => delete name (entries d) end;
     synced := synced d; log := (name, v) :: log d; inodes := inodes d; next_inode := next_inode d |}.
Definition set_inode (i : nat) (x : Inode) (d : Dir) : Dir :=
  {| entries := entries d; synced := synced d; log := log d; inodes := <[i := x]> (inodes d);
     next_inode := next_inode d |}.

(** ** System calls *)

Abbreviation op := (M Dir anyhow).
(** A call that decides its own result, unless it fails or the process ends. *)
Definition call {A} (f : Dir → Dir * result anyhow A) : op A :=
  remote "I/O error" (λ applied d, if applied then (f d).1 else d) f.

(** [create_new], an exclusive creation; the result is the open file. *)
Definition create_new (name : string) (m : Z) (d : Dir) : Dir * result anyhow nat :=
  match entries d !! name with
  | Some _ => (d, Err "file exists")
  | None =>
      let i := next_inode d in
      (set_entry name (Some i)
         {| entries := entries d; synced := synced d; log := log d;
            inodes := <[i := {| kind := Regular; mode := m; data := ""; flushed := true |}]> (inodes d);
            next_inode := S i |}, Ok i)
  end.
(** On an open file. *)
Definition with_inode (i : nat) (f : Inode → Inode) (d : Dir) : Dir * result anyhow unit :=
  match inodes d !! i with
  | Some x => (set_inode i (f x) d, Ok tt)
  | None => (d, Err "bad file")
  end.
Definition set_permissions (i : nat) (m : Z) : Dir → Dir * result anyhow unit :=
  with_inode i (λ x, {| kind := kind x; mode := m; data := data x; flushed := flushed x |}).
Definition write_all (i : nat) (bytes : string) : Dir → Dir * result anyhow unit :=
  with_inode i (λ x, {| kind := kind x; mode := mode x; data := data x +:+ bytes; flushed := false |}).
Definition sync_all (i : nat) : Dir → Dir * result anyhow unit :=
  with_inode i (λ x, {| kind := kind x; mode := mode x; data := data x; flushed := true |}).
Definition rename (from to : string) (d : Dir) : Dir * result anyhow unit :=
  match entries d !! from with
  | Some i => (set_entry from None (set_entry to (Some i) d), Ok tt)
  | None => (d, Err "no such file")
  end.
Definition rename_noclobber (from to : string) (d : Dir) : Dir * result anyhow unit :=
  match entries d !! to with Some _ => (d, Err "file exists") | None => rename from to d end.
Definition unlink (name : string) (d : Dir) : Dir * result anyhow unit := (set_entry name None d, Ok tt).
Definition sync_directory (d : Dir) : Dir * result anyhow unit :=
  ({| entries := entries d; synced := entries d; log := []; inodes := inodes d;
      next_inode := next_inode d |}, Ok tt).
Definition try_exists (name : string) (d : Dir) : Dir * result anyhow bool :=
  (d, Ok (is_some_and (λ x, match kind x with Regular => true | Special b => b end) (node d name))).
Definition symlink_metadata (name : string) (d : Dir) : Dir * result anyhow (option (Kind * Z)) :=
  (d, Ok ((λ x, (kind x, mode x)) <$> node d name)).
Definition read_all (name : string) (d : Dir) : Dir * result anyhow string :=
  (d, ok_or "not found" (read_file d name)).

(** ** The program *)

(** [NamedTempFile]: unless it was persisted, it is removed when it goes away. *)
Definition or_remove {A} (tmp : string) (m : op A) : op A :=
  r ← attempt m;
  match r with
  | Ok a => mret a
  | Err e => _ ← attempt (F := anyhow) (call (unlink tmp)); fail e
  end.
(** A temporary file with this content, persisted by [persist]; [tmp] is the name
    [tempfile] chose. *)
Definition write_temporary (tmp bytes : string) (persist : Dir → Dir * result anyhow unit) : op unit :=
  i ← call (create_new tmp 384);
  _ ← or_remove tmp
        (_ ← call (set_permissions i 384);
         _ ← call (write_all i bytes);
         _ ← call (sync_all i);
         call persist);
  call sync_directory.

(** [Storage::write], with the bytes [serde_json] makes of the value *)
Definition write (name bytes tmp : string) : op unit := write_temporary tmp bytes (rename tmp name).
(** [Storage::read] *)
Definition read {T} (from_slice : string → option T) (name : string) : op (option T) :=
  bytes ← call (λ d, (d, Ok (read_file d name)));
  match bytes with
  | None => mret None
  | Some bytes => v ← lift (ok_or ("invalid stored " +:+ name) (from_slice bytes)); mret (Some v)
  end.

Definition private_file (name : string) : op unit :=
  found ← call (symlink_metadata name);
  match found with
  | Some (k, m) =>
      check (match k with Regular => true | Special _ => false end && private m)
        "payment file must be a real private file (0600)"
  | None => _ ← call (create_new name 384); mret tt
  end.
(** [prepare_storage], inside the directory; [fresh_seed] are the random bytes.
    The ledger is opened by the caller. *)
Definition private_if_exists (name : string) : op unit :=
  found ← call (try_exists name);
  if found : bool then private_file name else mret tt.
Definition make_seed (fresh_seed tmp : string) : op unit :=
  wallet ← call (try_exists "wallet.sqlite");
  ledger ← (if wallet : bool then mret true else call (try_exists "ledger.redb"));
  _ ← check (negb ledger) "payment seed is missing; restore it from backup";
  write_temporary tmp fresh_seed (rename_noclobber tmp "seed").
Definition check_storage : op string :=
  _ ← private_file "seed";
  seed ← call (read_all "seed");
  _ ← check (slen seed =? 64)%nat "invalid payment seed";
  _ ← private_file "ledger.redb";
  _ ← private_file "wallet.sqlite";
  _ ← private_if_exists "wallet.sqlite-wal";
  _ ← private_if_exists "wallet.sqlite-shm";
  mret seed.
Definition prepare_storage (fresh_seed tmp : string) : op string :=
  found ← call (try_exists "seed");
  _ ← (if found : bool then mret tt else make_seed fresh_seed tmp);
  check_storage.

(** ** Crashes *)

(** An entry that [name] can have after a crash, and what can be read there. *)
Definition survives (d : Dir) (name : string) (v : option nat) : Prop :=
  v = synced d !! name ∨ (name, v) ∈ log d.
Definition after_crash (d : Dir) (name : string) (content : option string) : Prop :=
  ∃ v, survives d name v ∧
    match v with
    | None => content = None
    | Some i => ∃ x c, inodes d !! i = Some x ∧ content = Some c ∧ (flushed x = true → c = data x)
    end.
Definition crashed (d d' : Dir) : Prop :=
  (∀ n, survives d n (entries d' !! n)) ∧ synced d' = entries d' ∧ log d' = [] ∧
  next_inode d' = next_inode d ∧
  ∀ i, match inodes d !! i, inodes d' !! i with
       | Some x, Some x' => kind x' = kind x ∧ mode x' = mode x ∧ flushed x' = true ∧
                            (flushed x = true → data x' = data x)
       | None, None => True
       | _, _ => False
       end.
Definition wf (d : Dir) : Prop :=
  (∀ n, survives d n (entries d !! n)) ∧
  (∀ n i, survives d n (Some i) → is_Some (inodes d !! i)) ∧
  (∀ i, is_Some (inodes d !! i) → (i < next_inode d)%nat).

Lemma crashed_read d d' n : wf d → crashed d d' → after_crash d n (read_file d' n).
Proof.
  intros (_ & Hin & _) (He & _ & _ & _ & Hi). exists (entries d' !! n). split; [done|].
  unfold read_file, node. specialize (He n). destruct (entries d' !! n) as [i|]; [|done].
  destruct (Hin n i He) as [x Hx]. specialize (Hi i). rewrite Hx in Hi.
  destruct (inodes d' !! i) as [x'|]; [|done]. exists x, (data x'). split_and!; try done.
  intros Hf. by apply Hi.
Qed.

(** ** Writing a temporary file and renaming it *)

Lemma wp_call {A} (f : Dir → Dir * result anyhow A) Q d :
  match (f d).2 with Ok a => Q (Done a) (f d).1 | Err e => Q (Fail e) (f d).1 end →
  (∀ d', d' = d ∨ d' = (f d).1 → ∀ e, Q (Fail e) d' ∧ Q Gone d') → wp (call f) Q d.
Proof. intros H1 H2. apply wp_remote; [done|]. intros []; apply H2; auto. Qed.

Lemma survives_set d name v n u :
  survives (set_entry name v d) n u ↔ (n = name ∧ u = v) ∨ survives d n u.
Proof. unfold survives. simpl. rewrite elem_of_cons. naive_solver. Qed.
Lemma entries_set d name v n :
  entries (set_entry name v d) !! n = if bool_decide (n = name) then v else entries d !! n.
Proof.
  simpl. case_bool_decide as E; subst; destruct v; by simplify_map_eq.
Qed.
Lemma wf_set_entry d name v :
  wf d → (∀ i, v = Some i → is_Some (inodes d !! i)) → wf (set_entry name v d).
Proof.
  intros (H1 & H2 & H3) Hv. split_and!; [| |done].
  - intros n. rewrite entries_set, survives_set. case_bool_decide; auto.
  - intros n i [[_ ?]|?]%survives_set; [by apply Hv|by eapply H2].
Qed.

Section writing.
Context (d : Dir) (name tmp bytes : string).
Hypothesis Hname : name ≠ tmp.
Hypothesis Hd : wf d.
Let i := next_inode d.
Definition finished (d' : Dir) : Prop :=
  inodes d' !! i = Some {| kind := Regular; mode := 384; data := bytes; flushed := true |}.

(** While the file is being written: nothing but [tmp] and its inode changes. *)
Record before (d' : Dir) : Prop := {
  b_wf : wf d';
  b_old : ∀ j, (j < i)%nat → inodes d' !! j = inodes d !! j;
  b_other : ∀ n, n ≠ tmp → entries d' !! n = entries d !! n ∧ ∀ v, survives d' n v → survives d n v;
  b_tmp : entries d' !! tmp = Some i
}.
(** From then on: [name] may also be the finished file. *)
Record writing (d' : Dir) : Prop := {
  w_wf : wf d';
  w_old : ∀ j, (j < i)%nat → inodes d' !! j = inodes d !! j;
  w_other : ∀ n, n ≠ tmp → n ≠ name →
    entries d' !! n = entries d !! n ∧ ∀ v, survives d' n v → survives d n v;
  w_survives : ∀ v, survives d' name v → survives d name v ∨ v = Some i ∧ finished d';
  w_entry : entries d' !! name = entries d !! name ∨ entries d' !! name = Some i ∧ finished d'
}.

Lemma writing_refl : writing d.
Proof. split; auto. Qed.
Lemma before_writing d' : before d' → writing d'.
Proof.
  intros [Hw Ho Hoth Ht]. split; auto.
  - intros v Hv. left. by apply (Hoth name Hname).
  - left. by apply (Hoth name Hname).
Qed.
Lemma create_before d' j : create_new tmp 384 d = (d', Ok j) →
  j = i ∧ before d' ∧ inodes d' !! i = Some {| kind := Regular; mode := 384; data := ""; flushed := true |}.
Proof.
  destruct Hd as (H1 & H2 & H3). unfold create_new. destruct (entries d !! tmp) as [j'|] eqn:Et; [done|].
  intros [= <- <-]. fold i. split; [done|]. split; [|simpl; apply lookup_insert_eq]. split.
  - apply wf_set_entry; [|intros ? [= <-]; simpl; by rewrite lookup_insert_eq]. split_and!; simpl; [done| |].
    + intros n j Hj. destruct (H2 n j Hj) as [x Hx]. destruct (decide (j = i)) as [->|Hne].
      * rewrite lookup_insert_eq. eauto.
      * rewrite lookup_insert_ne by done. eauto.
    + intros j. destruct (decide (j = i)) as [->|Hne]; [lia|].
      rewrite lookup_insert_ne by done. intros Hj. specialize (H3 j Hj). lia.
  - intros j Hj. simpl. by rewrite lookup_insert_ne by lia.
  - intros n Hn. rewrite entries_set. simpl. rewrite bool_decide_eq_false_2 by done. split; [done|].
    intros v. rewrite survives_set. by intros [[? _]|?].
  - rewrite entries_set. by rewrite bool_decide_eq_true_2.
Qed.
Lemma with_inode_before f d' d'' r : before d' → with_inode i f d' = (d'', r) → before d''.
Proof.
  intros Hb. unfold with_inode. destruct (inodes d' !! i) as [x|] eqn:Hx; [|by intros [= <- _]].
  intros [= <- _]. destruct Hb as [(H1 & H2 & H3) Ho Hoth Ht]. split; try done.
  - split_and!; simpl; [done| |].
    + intros n j Hj. destruct (H2 n j Hj) as [y Hy]. rewrite lookup_insert. case_decide; eauto.
    + intros j. rewrite lookup_insert. case_decide as E; [|apply H3]. intros _. subst j. apply H3. eauto.
  - intros j Hj. simpl. rewrite lookup_insert_ne by lia. by apply Ho.
Qed.
Lemma rename_writing d' : before d' → finished d' → writing (rename tmp name d').1.
Proof.
  intros [Hw Ho Hoth Ht] Hf. unfold rename. rewrite Ht. simpl fst.
  assert (wf (set_entry tmp None (set_entry name (Some i) d'))) as Hwf.
  { apply wf_set_entry; [|done]. apply wf_set_entry; [done|]. intros ? [= <-]. eexists. exact Hf. }
  split; try done.
  - intros n Hn Hn'. rewrite !entries_set, !bool_decide_eq_false_2 by done.
    destruct (Hoth n Hn) as [? Hs]. split; [done|]. intros v. rewrite !survives_set. naive_solver.
  - intros v. rewrite !survives_set. intros [[? _]|[[_ ->]|Hv]]; [done|by right|].
    left. by apply (Hoth name Hname).
  - right. rewrite !entries_set, bool_decide_eq_false_2, bool_decide_eq_true_2 by done. done.
Qed.
Lemma unlink_writing d' : writing d' → writing (set_entry tmp None d').
Proof.
  intros [Hw Ho Hoth Hs He]. split; try done.
  - by apply wf_set_entry.
  - intros n Hn Hn'. rewrite entries_set, bool_decide_eq_false_2 by done. destruct (Hoth n Hn Hn') as [? Hs'].
    split; [done|]. intros v. rewrite survives_set. naive_solver.
  - intros v. rewrite survives_set. intros [[? _]|Hv]; [done|by apply Hs].
  - by rewrite entries_set, bool_decide_eq_false_2.
Qed.
Lemma sync_writing d' :
  writing d' → writing (sync_directory d').1 ∧
  ∀ v, survives (sync_directory d').1 name v → v = entries d' !! name.
Proof.
  intros [(H1 & H2 & H3) Ho Hoth Hs He].
  assert (∀ n v, survives (sync_directory d').1 n v → v = entries d' !! n) as Hsv.
  { intros n v [->|Hv]; [done|]. simpl in Hv. by apply elem_of_nil in Hv. }
  split; [|apply Hsv]. split; try done.
  - split_and!; simpl; [by left| |done]. intros n j Hj%Hsv. apply (H2 n). by rewrite Hj.
  - intros n Hn Hn'. destruct (Hoth n Hn Hn') as [Heq Hs']. split; [done|]. intros v ->%Hsv. apply Hs', H1.
  - intros v ->%Hsv. destruct He as [->|[-> Hf]]; [|by right]. left. apply Hd.
Qed.

(** A call on the open file. *)
Lemma wp_with_inode {B} f x d' (k : unit → op B) (Q : outcome anyhow B → Dir → Prop) :
  before d' → inodes d' !! i = Some x → (∀ e d'', writing d'' → Q (Fail e) d'' ∧ Q Gone d'') →
  (∀ d'', before d'' → inodes d'' !! i = Some (f x) → wp (k tt) Q d'') →
  wp (call (with_inode i f) ≫= k) Q d'.
Proof.
  intros Hb Hx HQ Hk. apply wp_bind, wp_call.
  - destruct (with_inode i f d') as [d'' r] eqn:E. pose proof (with_inode_before f d' d'' r Hb E) as Hb'.
    unfold with_inode in E. rewrite Hx in E. injection E as <- <-. apply Hk; [done|]. simpl. apply lookup_insert_eq.
  - intros d'' Hd'' e. apply HQ, before_writing. destruct Hd'' as [->| ->]; [done|].
    destruct (with_inode i f d') as [d'' r] eqn:E. by eapply with_inode_before.
Qed.

(** [persist] renames, or finds that it must not. *)
Lemma wp_write_temporary (persist : Dir → Dir * result anyhow unit) :
  (∀ d', before d' → persist d' = rename tmp name d' ∨ ∃ e, persist d' = (d', Err e)) →
  wp (write_temporary tmp bytes persist) (λ o d', writing d' ∧
    (o = Done tt → entries d' !! name = Some i ∧ finished d' ∧ ∀ v, survives d' name v → v = Some i)) d.
Proof.
  intros Hp. unfold write_temporary. apply wp_bind, wp_call.
  2: { intros d' Hd' e. assert (writing d') as Hw; [|done]. destruct Hd' as [->| ->]; [apply writing_refl|].
       destruct (create_new tmp 384 d) as [d' [j|e']] eqn:Ec.
       - by apply before_writing, (create_before d' j).
       - unfold create_new in Ec. destruct (entries d !! tmp); simplify_eq. apply writing_refl. }
  destruct (create_new tmp 384 d) as [d1 [j|e']] eqn:Ec; cbn [fst snd].
  2: { unfold create_new in Ec. destruct (entries d !! tmp); simplify_eq. split; [apply writing_refl|done]. }
  destruct (create_before d1 j Ec) as (-> & Hb1 & Hi1). clear Ec.
  apply wp_bind. unfold or_remove. apply wp_bind, wp_attempt.
  eapply wp_mono with (Q := λ o d', match o with
    | Done _ => writing d' ∧ entries d' !! name = Some i ∧ finished d'
    | _ => writing d' end).
  { intros [[]|e|] d' Hw; cbn beta iota; [|apply wp_bind, wp_attempt, wp_call|by split].
    - apply wp_ret. destruct Hw as (Hw & He & Hf). destruct (sync_writing d' Hw) as [Hs1 Hs2].
      apply wp_call; cbn [sync_directory fst snd].
      + split; [done|]. intros _. split_and!; [done..|]. intros v ->%Hs2. done.
      + intros d'' [->| ->] e; done.
    - cbn. apply wp_fail. split; [by apply unlink_writing|done].
    - intros d'' [->| ->] e'; cbn [unlink fst]; (split; [apply wp_fail|]; split; try done; by apply unlink_writing). }
  eapply wp_with_inode; [done|exact Hi1|done|]. intros d2 Hb2 Hi2.
  eapply wp_with_inode; [done|exact Hi2|done|]. intros d3 Hb3 Hi3.
  eapply wp_with_inode; [done|exact Hi3|done|]. intros d4 Hb4 Hi4.
  assert (finished d4) as Hf by exact Hi4.
  pose proof (rename_writing d4 Hb4 Hf) as Hr. pose proof (before_writing d4 Hb4) as Hw4.
  destruct (Hp d4 Hb4) as [E|[e E]]; apply wp_call; rewrite E.
  - unfold rename in *. rewrite (b_tmp _ Hb4) in *. cbn [fst snd] in *. split_and!; [done| |done].
    rewrite !entries_set, bool_decide_eq_false_2, bool_decide_eq_true_2 by done. done.
  - intros d' [->| ->] e; done.
  - done.
  - intros d' [->| ->] e'; done.
Qed.
End writing.

(** ** Untouched names *)

Record quiet (n : string) (d d' : Dir) : Prop := {
  q_wf : wf d';
  q_inodes : inodes d ⊆ inodes d';
  q_entry : entries d' !! n = entries d !! n;
  q_survives : ∀ v, survives d' n v → survives d n v
}.
Lemma quiet_refl n d : wf d → quiet n d d.
Proof. by split. Qed.
Lemma quiet_trans n d1 d2 d3 : quiet n d1 d2 → quiet n d2 d3 → quiet n d1 d3.
Proof. intros [] []. split; [done|by etrans|congruence|auto]. Qed.
Lemma entry_inode d n i : wf d → entries d !! n = Some i → is_Some (inodes d !! i).
Proof. intros (H1 & H2 & _) He. apply (H2 n). rewrite <- He. apply H1. Qed.
Lemma quiet_node n d d' : wf d → quiet n d d' → node d' n = node d n.
Proof.
  intros Hwf [_ Hi He _]. unfold node. rewrite He. destruct (entries d !! n) as [i|] eqn:E; [|done].
  destruct (entry_inode d n i Hwf E) as [x Hx]. rewrite Hx. by apply (lookup_weaken _ _ _ _ Hx).
Qed.
Lemma quiet_read n d d' : wf d → quiet n d d' → read_file d' n = read_file d n.
Proof. intros. unfold read_file. by rewrite (quiet_node n d d'). Qed.
Lemma quiet_crash n d d' c : wf d → quiet n d d' → after_crash d' n c → after_crash d n c.
Proof.
  intros (_ & H2 & _) [_ Hi _ Hs] (v & Hv & Hc). apply Hs in Hv. exists v. split; [done|].
  destruct v as [i|]; [|done]. destruct Hc as (x & c' & Hx & Hc). destruct (H2 n i Hv) as [y Hy].
  exists y, c'. pose proof (lookup_weaken _ _ _ _ Hy Hi). assert (x = y) as -> by congruence. done.
Qed.
Lemma writing_quiet d name tmp bytes d' n :
  wf d → writing d name tmp bytes d' → n ≠ tmp → n ≠ name → quiet n d d'.
Proof.
  intros (_ & _ & H3) [Hw Ho Hoth _ _] Ht Hn. destruct (Hoth n Ht Hn) as [He Hs]. split; try done.
  apply map_subseteq_spec. intros j x Hj. rewrite Ho; [done|]. apply H3. eauto.
Qed.
(** The name itself: as before, or the finished file. *)
Lemma writing_name d name tmp bytes d' :
  wf d → writing d name tmp bytes d' →
  (read_file d' name = read_file d name ∨ read_file d' name = Some bytes) ∧
  ∀ c, after_crash d' name c → after_crash d name c ∨ c = Some bytes.
Proof.
  intros Hwf [Hw Ho Hoth Hs He]. destruct Hwf as (H1 & H2 & H3). split.
  - unfold read_file, node. destruct He as [->|[-> Hf]]; [|right; by rewrite Hf].
    left. destruct (entries d !! name) as [j|] eqn:E; [|done]. rewrite Ho; [done|]. apply H3, (H2 name).
    rewrite <- E. apply H1.
  - intros c (v & Hv & Hc). apply Hs in Hv as [Hv|[-> Hf]].
    + left. exists v. split; [done|]. destruct v as [j|]; [|done]. destruct Hc as (x & c' & Hx & Hc).
      exists x, c'. rewrite Ho in Hx; [done|]. by apply H3, (H2 name).
    + right. destruct Hc as (x & c' & Hx & -> & Hc). unfold finished in Hf. rewrite Hf in Hx.
      injection Hx as <-. by rewrite Hc.
Qed.
Lemma finished_name d name bytes d' :
  entries d' !! name = Some (next_inode d) → finished d bytes d' →
  (∀ v, survives d' name v → v = Some (next_inode d)) →
  read_file d' name = Some bytes ∧ ∀ c, after_crash d' name c → c = Some bytes.
Proof.
  intros He Hf Hs. unfold finished in Hf. split.
  - unfold read_file, node. by rewrite He, Hf.
  - intros c (v & ->%Hs & x & c' & Hx & -> & Hc). rewrite Hf in Hx. injection Hx as <-. by rewrite Hc.
Qed.

(** C17: writing a file is atomic and, when it reports success, durable.  Whatever
    step of [Storage::write] fails and wherever the process ends: the file reads as
    before or as the whole new content, after a crash as well; if the write
    returned without an error, as the new content for certain, after a crash as
    well; and no other file changes. *)
Theorem write_atomic d name bytes tmp :
  wf d → name ≠ tmp →
  wp (write name bytes tmp) (λ o d', wf d' ∧
    (∀ n, n ≠ tmp → n ≠ name →
       read_file d' n = read_file d n ∧ ∀ c, after_crash d' n c → after_crash d n c) ∧
    (read_file d' name = read_file d name ∨ read_file d' name = Some bytes) ∧
    (∀ c, after_crash d' name c → after_crash d name c ∨ c = Some bytes) ∧
    (o = Done tt → read_file d' name = Some bytes ∧ ∀ c, after_crash d' name c → c = Some bytes)) d.
Proof.
  intros Hwf Hne. eapply wp_mono; [|apply (wp_write_temporary d name tmp bytes); auto].
  intros o d' [Hw Hdone]. destruct (writing_name d name tmp bytes d' Hwf Hw) as [Hr Hc].
  split_and!; [by apply Hw| |done|done|].
  - intros n Hn Hn'. pose proof (writing_quiet _ _ _ _ _ n Hwf Hw Hn Hn') as Hq.
    split; [by apply quiet_read|]. intros c. by apply quiet_crash.
  - intros Ho. destruct (Hdone Ho) as (He & Hf & Hs). by apply (finished_name d name bytes d').
Qed.

(** ** The seed of a wallet *)

Lemma wp_query {A} (f : Dir → result anyhow A) Q d :
  match f d with Ok a => Q (Done a) d | Err e => Q (Fail e) d end →
  (∀ e, Q (Fail e) d ∧ Q Gone d) → wp (call (λ d, (d, f d))) Q d.
Proof. intros H1 H2. apply wp_call; [exact H1|]. by intros d' [->| ->] e. Qed.

Definition exists_ (d : Dir) (name : string) : bool :=
  is_some_and (λ x, match kind x with Regular => true | Special b => b end) (node d name).
Definition is_private (d : Dir) (name : string) : Prop :=
  ∃ x, node d name = Some x ∧ kind x = Regular ∧ private (mode x) = true.

Lemma create_quiet n name m d : wf d → n ≠ name → quiet n d (create_new name m d).1.
Proof.
  intros Hwf Hn. unfold create_new. destruct (entries d !! name) as [j|] eqn:E; [by apply quiet_refl|].
  destruct Hwf as (H1 & H2 & H3). set (i := next_inode d).
  assert (inodes d !! i = None) as Hi.
  { destruct (inodes d !! i) eqn:Ei; [|done]. assert (is_Some (inodes d !! i)) as Hs by eauto.
    specialize (H3 i Hs). unfold i in H3. lia. }
  cbn [fst]. split.
  - apply wf_set_entry; [|intros ? [= <-]; simpl; by rewrite lookup_insert_eq]. split_and!; simpl; [done| |].
    + intros n' j Hj. destruct (H2 n' j Hj) as [x Hx]. rewrite lookup_insert. case_decide; eauto.
    + intros j. rewrite lookup_insert. case_decide; [lia|]. intros Hj. specialize (H3 j Hj). lia.
  - simpl. by apply insert_subseteq.
  - rewrite entries_set. by rewrite bool_decide_eq_false_2.
  - intros v. rewrite survives_set. by intros [[? _]|?].
Qed.

(** Anything else in the directory leaves the seed alone. *)
Lemma private_file_quiet n name d :
  wf d → n ≠ name → wp (private_file name) (λ _ d', quiet n d d') d.
Proof.
  intros Hwf Hn. pose proof (quiet_refl n d Hwf) as Hq. pose proof (create_quiet n name 384 d Hwf Hn) as Hc.
  unfold private_file. apply wp_bind, wp_query; [|done].
  destruct ((λ x, (kind x, mode x)) <$> node d name) as [[k m]|].
  - apply wp_check. by destruct (_ && _).
  - apply wp_bind, wp_call; [|by intros d' [->| ->] e].
    destruct (create_new name 384 d) as [d' [j|e]]; cbn [fst snd] in *; [by apply wp_ret|done].
Qed.
Lemma private_if_exists_quiet n name d :
  wf d → n ≠ name → wp (private_if_exists name) (λ _ d', quiet n d d') d.
Proof.
  intros Hwf Hn. pose proof (quiet_refl n d Hwf) as Hq. unfold private_if_exists.
  apply wp_bind, wp_query; [|done]. destruct (is_some_and _ _); [by apply private_file_quiet|by apply wp_ret].
Qed.
(** Of an existing file it is a check. *)
Lemma private_file_check name d x :
  node d name = Some x →
  wp (private_file name) (λ o d', d' = d ∧ (o = Done tt → is_private d name)) d.
Proof.
  intros Hx. unfold private_file. apply wp_bind, wp_query; [|done]. rewrite Hx. cbn. apply wp_check.
  destruct (kind x) eqn:Hk; cbn; [|done]. destruct (private (mode x)) eqn:Hm; [|done].
  split; [done|]. intros _. by exists x.
Qed.

(** Nothing in the directory needs an older seed. *)
Definition no_wallet (d : Dir) : Prop :=
  exists_ d "wallet.sqlite" = false ∧ exists_ d "ledger.redb" = false.
(** Where the seed of [d'] comes from, now and after a crash. *)
Definition seed_origin (d : Dir) (fresh_seed : string) (d' : Dir) : Prop :=
  (∀ s, read_file d' "seed" = Some s → read_file d "seed" = Some s ∨ s = fresh_seed ∧ no_wallet d) ∧
  (∀ c, after_crash d' "seed" c → after_crash d "seed" c ∨ c = Some fresh_seed ∧ no_wallet d).
Lemma quiet_origin d fresh_seed d1 d2 :
  wf d1 → quiet "seed" d1 d2 → seed_origin d fresh_seed d1 → seed_origin d fresh_seed d2.
Proof.
  intros Hwf Hq [Hr Hc]. split.
  - intros s. rewrite (quiet_read "seed" d1 d2) by done. apply Hr.
  - intros c Hc2. eapply Hc, quiet_crash; done.
Qed.
Lemma seed_origin_refl d fresh_seed : seed_origin d fresh_seed d.
Proof. split; auto. Qed.

(** What is known when the first stage is over. *)
Definition has_seed (d : Dir) (fresh_seed : string) (d' : Dir) : Prop :=
  wf d' ∧ (is_Some (entries d !! "seed") → quiet "seed" d d') ∧
  (entries d !! "seed" = None →
     read_file d' "seed" = Some fresh_seed ∧ (∀ c, after_crash d' "seed" c → c = Some fresh_seed) ∧
     no_wallet d).
Lemma make_seed_spec d fresh_seed tmp :
  wf d → tmp ≠ "seed" → tmp ≠ "ledger.redb" →
  wp (make_seed fresh_seed tmp) (λ o d', wf d' ∧ (is_Some (entries d !! "seed") → quiet "seed" d d') ∧
    seed_origin d fresh_seed d' ∧ (o = Done tt → has_seed d fresh_seed d')) d.
Proof.
  intros Hwf Hs Hl. pose proof (quiet_refl "seed" d Hwf) as Hq.
  pose proof (seed_origin_refl d fresh_seed) as Hso. unfold make_seed.
  apply wp_bind, wp_query; [|done]. fold (exists_ d "wallet.sqlite"). apply wp_bind.
  eapply wp_mono with (Q := λ o d', d' = d ∧ (∀ b, o = Done b →
    b = exists_ d "wallet.sqlite" || exists_ d "ledger.redb")).
  2: { destruct (exists_ d "wallet.sqlite") eqn:E; [apply wp_ret|apply wp_query; [|done]]; (split; [done|]);
       by intros b [= <-]. }
  intros [b|e|] d' [-> Hb]; [|done..]. specialize (Hb b eq_refl). apply wp_bind, wp_check.
  destruct b; [done|]. cbn [negb]. symmetry in Hb. apply orb_false_iff in Hb as [Hw Hr].
  destruct (entries d !! "seed") as [j|] eqn:Es.
  - eapply wp_mono; [|apply (wp_write_temporary d "ledger.redb" tmp fresh_seed)]; try done.
    + intros o d' [Hwr _]. pose proof (writing_quiet _ _ _ _ _ "seed" Hwf Hwr ltac:(done) ltac:(done)) as Hq'.
      split_and!; [by apply Hwr|done|by eapply quiet_origin|].
      intros _. split_and!; [by apply Hwr|done|congruence].
    + intros d' Hb. right. unfold rename_noclobber. rewrite (proj1 (b_other _ _ _ Hb "seed" ltac:(done))), Es. eauto.
  - eapply wp_mono; [|apply (wp_write_temporary d "seed" tmp fresh_seed)]; try done.
    + intros o d' [Hwr Hd]. split_and!; [by apply Hwr|by intros []| |].
      { destruct (writing_name _ _ _ _ _ Hwf Hwr) as [Hn Hc]. split.
        - intros s Hs'. destruct Hn as [E|E]; rewrite E in Hs'; [by left|right]. by injection Hs' as <-.
        - intros c [?| ->]%Hc; [by left|by right]. }
      intros Ho.
      destruct (Hd Ho) as (He & Hf & Hsv). destruct (finished_name d "seed" fresh_seed d' He Hf Hsv).
      split_and!; [by apply Hwr|by rewrite Es; intros []|]. done.
    + intros d' _. unfold rename_noclobber. destruct (entries d' !! "seed"); eauto.
Qed.

Lemma wp_quiet_bind {A B} n (m : op A) (k : A → op B) d (Q : outcome anyhow B → Dir → Prop) :
  wp m (λ _ d', quiet n d d') d →
  (∀ d' e, quiet n d d' → Q (Fail e) d' ∧ Q Gone d') → (∀ a d', quiet n d d' → wp (k a) Q d') →
  wp (m ≫= k) Q d.
Proof.
  intros Hm HQ Hk. apply wp_bind. eapply wp_mono; [|exact Hm]. intros [a|e|] d' Hq; [auto| |].
  - by apply (HQ d' e).
  - by apply (HQ d' "").
Qed.
Lemma check_storage_spec d x :
  wf d → node d "seed" = Some x →
  wp check_storage (λ o d', quiet "seed" d d' ∧
    ∀ s, o = Done s → read_file d "seed" = Some s ∧ slen s = 64%nat ∧ is_private d "seed") d.
Proof.
  intros Hwf Hx. pose proof (quiet_refl "seed" d Hwf) as Hq. unfold check_storage.
  apply wp_bind. eapply wp_mono; [|by apply (private_file_check "seed" d x)].
  intros [[]|e|] d' [-> Hp]; [|done..]. specialize (Hp eq_refl).
  apply wp_bind, wp_query; [|done]. unfold read_file. rewrite Hx. cbn.
  apply wp_bind, wp_check. destruct (slen (data x) =? 64)%nat eqn:Hl; [|done]. apply Nat.eqb_eq in Hl.
  assert (∀ d1 d2, quiet "seed" d d1 → quiet "seed" d1 d2 → quiet "seed" d d2) as Htr
    by (intros; by eapply quiet_trans).
  apply (wp_quiet_bind "seed"); [by apply private_file_quiet|by intros; split|]. intros [] d1 H1.
  apply (wp_quiet_bind "seed"); [apply private_file_quiet; [apply H1|done]|by intros; split; split; eauto|].
  intros [] d2 H2. assert (quiet "seed" d d2) as H2' by eauto.
  apply (wp_quiet_bind "seed"); [apply private_if_exists_quiet; [apply H2|done]|by intros; split; split; eauto|].
  intros [] d3 H3. assert (quiet "seed" d d3) as H3' by eauto.
  apply (wp_quiet_bind "seed"); [apply private_if_exists_quiet; [apply H3|done]|by intros; split; split; eauto|].
  intros [] d4 H4. apply wp_ret. split; [eauto|]. by intros s [= <-].
Qed.

(** The seed that is there, or a new one. *)
Lemma first_stage d fresh_seed tmp :
  wf d → tmp ≠ "seed" → tmp ≠ "ledger.redb" →
  wp (if exists_ d "seed" then mret tt else make_seed fresh_seed tmp) (λ o d',
    wf d' ∧ (is_Some (entries d !! "seed") → quiet "seed" d d') ∧ seed_origin d fresh_seed d' ∧
    (o = Done tt → has_seed d fresh_seed d' ∧ ∃ x, node d' "seed" = Some x)) d.
Proof.
  intros Hwf Hs Hl. pose proof (quiet_refl "seed" d Hwf) as Hq. destruct (exists_ d "seed") eqn:Ex.
  - unfold exists_, node in Ex. destruct (entries d !! "seed") as [j|] eqn:Ej; [|done].
    apply wp_ret. split_and!; [done..|apply seed_origin_refl|].
    intros _. split; [split_and!; [done..|congruence]|].
    unfold node. rewrite Ej. destruct (inodes d !! j); [eauto|done].
  - eapply wp_mono; [|by apply make_seed_spec]. intros o d' (H1 & H2 & H3 & H4). split_and!; [done..|].
    intros Ho. specialize (H4 Ho). split; [done|]. destruct H4 as (_ & Hk & Hn).
    destruct (entries d !! "seed") as [j|] eqn:Ej.
    + specialize (Hk ltac:(eauto)). destruct (entry_inode d "seed" j Hwf Ej) as [x Hx].
      rewrite (quiet_node "seed" d d' Hwf Hk). unfold node. rewrite Ej, Hx. eauto.
    + destruct (Hn eq_refl) as [Hr _]. unfold read_file in Hr. destruct (node d' "seed"); [eauto|done].
Qed.

(** C29: a wallet's seed is never replaced and never lost.  Whatever fails and
    wherever the process ends, a seed that is there stays as it is; whatever the
    outcome, success, error or a process that ended, the file holds a new seed, now
    or after a crash, only when before there was neither a wallet nor a ledger that
    would need the old one.  A seed that [prepare_storage] returns is the one in the
    file, of 64 bytes, and the file is a real one that others cannot read; when it is
    a new one, it is on disk for good before it is returned. *)
Theorem seed_is_kept d fresh_seed tmp :
  wf d → tmp ≠ "seed" → tmp ≠ "ledger.redb" →
  wp (prepare_storage fresh_seed tmp) (λ o d', wf d' ∧
    (∀ s, read_file d "seed" = Some s → read_file d' "seed" = Some s) ∧
    (∀ s, read_file d' "seed" = Some s → read_file d "seed" = Some s ∨
       s = fresh_seed ∧ exists_ d "wallet.sqlite" = false ∧ exists_ d "ledger.redb" = false) ∧
    (∀ c, after_crash d' "seed" c → after_crash d "seed" c ∨
       c = Some fresh_seed ∧ exists_ d "wallet.sqlite" = false ∧ exists_ d "ledger.redb" = false) ∧
    ∀ s, o = Done s →
      read_file d' "seed" = Some s ∧ slen s = 64%nat ∧ is_private d' "seed" ∧
      (entries d !! "seed" = None →
         s = fresh_seed ∧ (∀ c, after_crash d' "seed" c → c = Some s) ∧
         exists_ d "wallet.sqlite" = false ∧ exists_ d "ledger.redb" = false)) d.
Proof.
  intros Hwf Hs Hl. pose proof (quiet_refl "seed" d Hwf) as Hq.
  pose proof (seed_origin_refl d fresh_seed) as Hso.
  assert (∀ d', (is_Some (entries d !! "seed") → quiet "seed" d d') →
    ∀ s, read_file d "seed" = Some s → read_file d' "seed" = Some s) as Hkeep.
  { intros d' Hk s Hr. rewrite (quiet_read "seed" d d'); [done|done|]. apply Hk.
    unfold read_file, node in Hr. destruct (entries d !! "seed"); [eauto|done]. }
  unfold prepare_storage. apply wp_bind, wp_query; [|by intros e; split; split_and!; try done; apply Hso].
  fold (exists_ d "seed"). apply wp_bind. eapply wp_mono; [|by apply first_stage].
  intros [[]|e|] d1 (Hwf1 & Hk1 & Ho1 & Hd1); [|split_and!; try done; try apply Ho1; eauto..].
  destruct (Hd1 eq_refl) as [(_ & _ & Hnew) [x Hx]].
  eapply wp_mono; [|by apply (check_storage_spec d1 x)]. intros o d' [Hq' Hdone].
  destruct (quiet_origin d fresh_seed d1 d' Hwf1 Hq' Ho1) as [Hor Hoc]. split_and!; [apply Hq'| |done|done|].
  - intros s Hr. rewrite (quiet_read _ _ _ Hwf1 Hq'). by apply (Hkeep d1 Hk1).
  - intros s Ho. destruct (Hdone s Ho) as (Hr & Hlen & Hp).
    split_and!; [by rewrite (quiet_read _ _ _ Hwf1 Hq')|done| |].
    + unfold is_private. by rewrite (quiet_node _ _ _ Hwf1 Hq').
    + intros He. destruct (Hnew He) as (Hr1 & Hc & Hno). assert (s = fresh_seed) as -> by congruence.
      split_and!; [done| |apply Hno..]. intros c Hc'. apply Hc. by eapply quiet_crash.
Qed.

Module Examples.
Definition empty : Dir :=
  {| entries := ∅; synced := ∅; log := []; inodes := ∅; next_inode := 0 |}.
Definition old_file : Inode := {| kind := Regular; mode := 384; data := "old"; flushed := true |}.
Definition with_file : Dir :=
  {| entries := {["retries.json" := 0%nat]}; synced := {["retries.json" := 0%nat]}; log := [];
     inodes := {[0%nat := old_file]}; next_inode := 1 |}.
Lemma empty_wf : wf empty.
Proof.
  split_and!; [by left| |]; intros *; simpl.
  - intros [Hv|Hv]; simpl in Hv; [by rewrite lookup_empty in Hv|by apply elem_of_nil in Hv].
  - by intros [x ?].
Qed.
Lemma with_file_wf : wf with_file.
Proof.
  split_and!; [by left| |]; intros *; simpl.
  - intros [Hv|Hv]; simpl in Hv; [|by apply elem_of_nil in Hv].
    symmetry in Hv. apply lookup_singleton_Some in Hv as [_ <-]. by exists old_file.
  - intros [x Hx]. apply lookup_singleton_Some in Hx as [<- _]. lia.
Qed.

(** The process ends at the rename, which happened. *)
Definition cut_off := write "retries.json" "new" ".tmpA" with_file
  [Proceed; Proceed; Proceed; Proceed; Dropped true].
Lemma write_atomic_witness :
  cut_off.1.1 = Gone ∧ read_file cut_off.1.2 "retries.json" = Some "new" ∧
  ∀ c, after_crash cut_off.1.2 "retries.json" c → after_crash with_file "retries.json" c ∨ c = Some "new".
Proof.
  destruct (write_atomic with_file "retries.json" "new" ".tmpA" with_file_wf ltac:(discriminate)
    [Proceed; Proceed; Proceed; Proceed; Dropped true]) as (_ & _ & _ & Hc & _).
  split; [vm_compute; reflexivity|]. split; [vm_compute; reflexivity|]. exact Hc.
Defined.

Definition the_seed : string := "0123456789abcdef0123456789abcdef0123456789abcdef0123456789abcdef".
Definition prepared := prepare_storage the_seed ".tmpA" empty [].
Lemma seed_is_kept_witness :
  prepared.1.1 = Done the_seed ∧ ∀ c, after_crash prepared.1.2 "seed" c → c = Some the_seed.
Proof.
  destruct (seed_is_kept empty the_seed ".tmpA" empty_wf ltac:(discriminate) ltac:(discriminate) [])
    as (_ & _ & _ & _ & Hd).
  assert (prepared.1.1 = Done the_seed) as Ho by (vm_compute; reflexivity). split; [exact Ho|].
  destruct (Hd the_seed Ho) as (_ & _ & _ & Hn). destruct (Hn eq_refl) as (_ & Hc & _). exact Hc.
Defined.

(** The gap in this: when only the last step of making the seed fails, the sync of
    the directory, the next call finds the seed and returns it without syncing, and
    a crash can still lose it. *)
Definition sync_failed := prepare_storage the_seed ".tmpA" empty
  [Proceed; Proceed; Proceed; Proceed; Proceed; Proceed; Proceed; Proceed; Fails false].
Definition second_call := prepare_storage the_seed ".tmpB" sync_failed.1.2 [].
Theorem unsynced_seed_is_used :
  sync_failed.1.1 = Fail "I/O error" ∧ second_call.1.1 = Done the_seed ∧
  after_crash second_call.1.2 "seed" None.
Proof.
  split; [vm_compute; reflexivity|]. split; [vm_compute; reflexivity|].
  exists None. split; [left; vm_compute; reflexivity|reflexivity].
Qed.
End Examples.
End Files.
