(* ===== verification/Dirs.v ===== *)
(** * Private directories ([private_directory] of [payments/mod.rs], [Storage::open])

    The directories above the files of [Files]: who can enter them, and the lock
    that keeps a second process out.  A path is the list of its components, the
    last one first; the empty list is the root. *)
From S2P Require Import Prelude Text Effects Extern LnPolicy Files.
#[local] Open Scope string_scope.
#[local] Open Scope list_scope.
#[local] Open Scope Z_scope.

Module Dirs.
Import Files.

Abbreviation Path := (list string).
(** A directory with its mode, or something else; [enters] says whether following
    it leads to a directory. *)
Inductive Node := Directory (m : Z) | Other (enters : bool).
Record Tree := { nodes : gmap Path Node; locks : gset Path }.

Definition exists_path (p : Path) (t : Tree) : bool :=
  match p with [] => true | _ => is_some_and (λ n, match n with Directory _ => true | Other b => b end)
                                  (nodes t !! p) end.
Abbreviation op := (M Tree anyhow).
Definition call {A} (f : Tree → Tree * result anyhow A) : op A :=
  remote "I/O error" (λ applied t, if applied then (f t).1 else t) f.

(** [mkdir], with the mode; the answer says whether it was there already. *)
Definition mkdir (p : Path) (m : Z) (t : Tree) : Tree * result anyhow bool :=
  match p with
  | [] => (t, Ok false)
  | _ :: parent =>
      match nodes t !! p with
      | Some _ => (t, Ok false)
      | None => if exists_path parent t
                then ({| nodes := <[p := Directory m]> (nodes t); locks := locks t |}, Ok true)
                else (t, Err "no such directory")
      end
  end.
(** [symlink_metadata] followed by the check for a real private directory *)
Definition is_private_dir (p : Path) (t : Tree) : bool :=
  match nodes t !! p with Some (Directory m) => private m | _ => false end.
Definition stat_private (p : Path) (t : Tree) : Tree * result anyhow bool := (t, Ok (is_private_dir p t)).

Fixpoint private_directory (p : Path) : op unit :=
  _ ← match p with
      | [] => mret tt
      | _ :: parent =>
          found ← call (λ t, (t, Ok (exists_path parent t)));
          if found : bool then mret tt else private_directory parent
      end;
  _ ← call (mkdir p 448);
  ok ← call (stat_private p);
  check ok "payment directory must be a real private directory (0700)".

(** [DirBuilder::recursive(true)]: nothing if it is there, else the parents first *)
Fixpoint create_all (p : Path) : op unit :=
  found ← call (λ t, (t, Ok (exists_path p t)));
  if found : bool then mret tt
  else
    match p with
    | [] => mret tt
    | _ :: parent => _ ← create_all parent; _ ← call (mkdir p 448); mret tt
    end.
(** [File::try_lock] on [proxy.lock]; the lock goes when the process ends. *)
Definition try_lock (p : Path) (t : Tree) : Tree * result anyhow unit :=
  if decide (p ∈ locks t) then (t, Err "another proxy is using this data directory")
  else ({| nodes := nodes t; locks := {[p]} ∪ locks t |}, Ok tt).
Section open.
Context `{Sha256}.
Definition open (root : Path) (directory_url : string) : op Path :=
  _ ← create_all root;
  ok ← call (stat_private root);
  _ ← check ok "data directory must be a real directory with permissions 0700";
  _ ← call (try_lock ("proxy.lock" :: root));
  let directory := Ln.hex (sha256 directory_url) :: root in
  _ ← call (mkdir directory 448);
  ok ← call (stat_private directory);
  _ ← check ok "CA storage directory must have permissions 0700";
  mret directory.
End open.

(** ** Properties *)

(** Every directory that appears is private, and no lock is lost. *)
Definition grows (t t' : Tree) : Prop :=
  (∀ p n, nodes t !! p = Some n → nodes t' !! p = Some n) ∧
  (∀ p n, nodes t !! p = None → nodes t' !! p = Some n → n = Directory 448) ∧ locks t ⊆ locks t'.
#[export] Instance grows_preorder : PreOrder grows.
Proof.
  split.
  - intros t. split_and!; [done| |done]. congruence.
  - intros t1 t2 t3 (A1 & B1 & C1) (A2 & B2 & C2). split_and!; [by auto| |by etrans].
    intros p n H1 H3. destruct (nodes t2 !! p) as [n2|] eqn:E; [|by eapply B2].
    rewrite (A2 p n2 E) in H3. injection H3 as <-. by eapply B1.
Qed.
Lemma mkdir_grows p t : grows t (mkdir p 448 t).1.
Proof.
  destruct p as [|c parent]; simpl; [done|]. destruct (nodes t !! (c :: parent)) as [n|] eqn:E; [done|].
  destruct (exists_path parent t); [|done]. split_and!; simpl; [| |done].
  - intros p n Hp. rewrite lookup_insert_ne by congruence. done.
  - intros p n Hp. rewrite lookup_insert_Some. intros [[_ <-]|[_ ?]]; congruence.
Qed.

Lemma wp_grow {A} (f : Tree → Tree * result anyhow A) t0 t :
  grows t0 t → (∀ t, grows t (f t).1) → wp (call f) (λ _ t', grows t0 t') t.
Proof.
  intros Ht Hf. assert (grows t0 (f t).1) as Ht' by (etrans; [exact Ht|apply Hf]).
  apply wp_remote; [by destruct (f t).2|]. by intros [].
Qed.
Lemma inv_grow {A} t0 (f : Tree → Tree * result anyhow A) :
  (∀ t, grows t (f t).1) → inv (grows t0) (call f).
Proof. intros Hf t Ht. by apply wp_grow. Qed.
Lemma private_directory_grows t0 p : inv (grows t0) (private_directory p).
Proof.
  induction p as [|c p IH]; cbn [private_directory]; repeat (inv_step || apply inv_grow || done);
    try apply mkdir_grows; by intros.
Qed.
Lemma create_all_grows t0 p : inv (grows t0) (create_all p).
Proof.
  induction p as [|c p IH]; cbn [create_all]; repeat (inv_step || apply inv_grow || done);
    try apply mkdir_grows; by intros.
Qed.
Lemma try_lock_grows p t : grows t (try_lock p t).1.
Proof. unfold try_lock. case_decide; [done|]. split_and!; simpl; [done|congruence|set_solver]. Qed.

Lemma wp_stat p Q t :
  Q (Done (is_private_dir p t)) t → (∀ e, Q (Fail e) t ∧ Q Gone t) → wp (call (stat_private p)) Q t.
Proof. intros H1 H2. apply wp_remote; [done|]. intros []; apply H2. Qed.
Lemma is_private_grows p t t' : grows t t' → is_private_dir p t = true → is_private_dir p t' = true.
Proof.
  intros (Hn & _) Hp. unfold is_private_dir in *. destruct (nodes t !! p) as [n|] eqn:E; [|done].
  by rewrite (Hn p n E).
Qed.
(** After [inv_grow] steps: the outcome keeps what was there. *)
Lemma wp_keep {A B} (m : op A) (k : A → op B) t (Q : outcome anyhow B → Tree → Prop) :
  inv (grows t) m → (∀ t' e, grows t t' → Q (Fail e) t' ∧ Q Gone t') →
  (∀ a t', grows t t' → wp (k a) Q t') → wp (m ≫= k) Q t.
Proof.
  intros Hm HQ Hk. apply wp_bind. eapply wp_mono; [|by apply (Hm t)]. intros [a|e|] t' Ht; [auto| |].
  - by apply (HQ t' e).
  - by apply (HQ t' "").
Qed.

Lemma private_directory_private p t :
  wp (private_directory p) (λ o t', grows t t' ∧ (o = Done tt → is_private_dir p t' = true)) t.
Proof.
  destruct p as [|c p]; cbn [private_directory];
    (apply wp_keep; [repeat (inv_step || apply inv_grow || apply private_directory_grows); by intros
                    |by intros; split; split|]); intros [] t1 H1;
    set (Q := λ o t', grows t t' ∧ (o = Done tt → is_private_dir _ t' = true));
    assert (∀ t', grows t t' → ∀ e, Q (Fail e) t' ∧ Q Gone t') as HQ by (intros; split; by split);
    fold Q.
  all: match goal with |- wp (call (mkdir ?q 448) ≫= _) _ _ => pose proof (mkdir_grows q t1) as Hm;
         destruct (mkdir q 448 t1) as [t2 r] eqn:E end.
  all: apply wp_bind, wp_remote; rewrite E; cbn [fst snd] in *;
    assert (grows t t2) as H2 by (by etrans); [|intros []; by apply HQ].
  all: destruct r; [|by apply HQ]; apply wp_bind, wp_stat; [|by apply HQ]; apply wp_check;
    case_match; [by split|by apply HQ].
Qed.

Section theorems.
Context `{Sha256}.
(** The data directory is private and exclusive.  If [Storage::open] succeeds, the
    data directory and the directory of the certificate authority in it are real
    directories that only the owner can enter, and the lock was free and is now
    held; whatever happens, every directory that was made is private, and none
    that was there is changed. *)
Theorem open_is_private root directory_url t :
  wp (open root directory_url) (λ o t', grows t t' ∧ ∀ directory, o = Done directory →
    directory = (Ln.hex (sha256 directory_url) :: root) ∧
    is_private_dir root t' = true ∧ is_private_dir directory t' = true ∧
    ¬ ("proxy.lock" :: root) ∈ locks t ∧ ("proxy.lock" :: root) ∈ locks t') t.
Proof.
  set (Q := λ (o : outcome anyhow Path) t', grows t t' ∧ ∀ directory, o = Done directory →
    directory = (Ln.hex (sha256 directory_url) :: root) ∧
    is_private_dir root t' = true ∧ is_private_dir directory t' = true ∧
    ¬ ("proxy.lock" :: root) ∈ locks t ∧ ("proxy.lock" :: root) ∈ locks t').
  assert (∀ t', grows t t' → ∀ e, Q (Fail e) t' ∧ Q Gone t') as HQ by (intros; split; by split).
  fold Q. apply wp_keep; [apply create_all_grows|intros t' e Ht; by apply HQ|]. intros [] t1 H1.
  apply wp_bind, wp_stat; [|by apply HQ]. apply wp_bind, wp_check.
  destruct (is_private_dir root t1) eqn:Hroot; [|by apply (HQ t1)].
  pose proof (try_lock_grows ("proxy.lock" :: root) t1) as Hl.
  assert (grows t (try_lock ("proxy.lock" :: root) t1).1) as Hl' by (by etrans).
  apply wp_bind, wp_remote; [|intros []; by apply HQ].
  unfold try_lock in *. case_decide as Hin; cbn [fst snd] in *; [by apply HQ|].
  set (t2 := {| nodes := nodes t1; locks := _ |}) in *. set (directory := _ :: root).
  pose proof (mkdir_grows directory t2) as Hm. assert (grows t (mkdir directory 448 t2).1) as Hm' by (by etrans).
  apply wp_bind, wp_remote; [|intros []; by apply HQ].
  destruct (mkdir directory 448 t2) as [t3 [b|e]]; cbn [fst snd] in *; [|by apply HQ].
  apply wp_bind, wp_stat; [|by apply HQ]. apply wp_bind, wp_check.
  destruct (is_private_dir directory t3) eqn:Hd; [|by apply (HQ t3)]. apply wp_ret. split; [done|].
  intros ? [= <-]. split_and!; [done| |done| |].
  - apply (is_private_grows root t2 t3 Hm). exact Hroot.
  - intros Hx. apply Hin. destruct H1 as (_ & _ & H1). by apply H1.
  - destruct Hm as (_ & _ & Hm). apply Hm. simpl. set_solver.
Qed.
End theorems.
End Dirs.
