(* ===== verification/Background.v ===== *)
(** * Issuing a certificate ([automation.rs])

    The job that gets one certificate: the exchange with the authority, and the
    challenges it publishes for the proxy to answer from. *)
From S2P Require Import Prelude Text Net Effects Extern Flow Models RateLimit Capacity Ledger Cdk Terms LnPolicy Payout Config State Retry Certs.
#[local] Open Scope string_scope.
#[local] Open Scope list_scope.
#[local] Open Scope Z_scope.

Module Background.
Import Certs.

(** ** Issuing a certificate *)

Inductive AuthorizationStatus := AuthorizationValid | AuthorizationPending | AuthorizationOther.
Record Authorization := {
  status : AuthorizationStatus;
  (** the HTTP-01 challenge: its token and key authorization *)
  http01 : option (string * string)
}.
(** The requests to the authority, the table of challenges the proxy answers from
    ([State::challenges]), and the list of the guard that removes them
    ([cleanup.keys]). *)
Inductive Cmd : Type → Type :=
| NewOrder (domain : string) : Cmd (result anyhow nat)       (** how many authorizations *)
| NextAuthorization : Cmd (result anyhow Authorization)
| InsertChallenge (key : string * string) (answer : string) : Cmd unit
| PushKey (key : string * string) : Cmd unit
| SetReady (token : string) : Cmd (result anyhow unit)
| PollReady : Cmd (result anyhow bool)                       (** whether the order is ready *)
| Finalize : Cmd (result anyhow string)
| PollCertificate : Cmd (result anyhow string).

Abbreviation step A := (proc Cmd (result anyhow A)).
Definition authorize (domain : string) : step unit :=
  let! authorization := try_ NextAuthorization in
  match status authorization with
  | AuthorizationValid => Done (Ok tt)
  | AuthorizationOther => return_ "unexpected authorization status"
  | AuthorizationPending =>
      match http01 authorization with
      | None => return_ "CA did not offer an HTTP-01 challenge"
      | Some (token, key_authorization) =>
          let key := (domain, token) in
          let! _ := perform (InsertChallenge key key_authorization) in
          let! _ := perform (PushKey key) in
          try_ (SetReady token)
      end
  end.
Fixpoint authorize_all (domain : string) (n : nat) : step unit :=
  match n with
  | O => Done (Ok tt)
  | S n => let! _ := authorize domain in authorize_all domain n
  end.
Definition issue (domain : string) : step CertificatePem :=
  let! n := try_ (NewOrder domain) in
  let! _ := authorize_all domain n in
  let! ready := try_ PollReady in
  if negb ready then return_ "certificate order was not approved"
  else
    let! private_key := try_ Finalize in
    let! chain := try_ PollCertificate in
    Done (Ok {| pem_chain := chain; pem_private_key := private_key |}).

(** ** What a job changes *)

Abbreviation Table := (gmap (string * string) string).
(** The table and the guard's list. *)
Record Job := { challenges : Table; keys : list (string * string) }.
Definition effect (j : Job) (e : event Cmd) : Job :=
  match e with
  | Ev c _ =>
      match c with
      | InsertChallenge key answer => {| challenges := <[key := answer]> (challenges j); keys := keys j |}
      | PushKey key => {| challenges := challenges j; keys := keys j ++ [key] |}
      | _ => j
      end
  end.
Definition after (t : Table) (tr : list (event Cmd)) : Job :=
  fold_left effect tr {| challenges := t; keys := [] |}.
(** [Drop for Challenges] *)
Definition drop_challenges (j : Job) : Table := fold_left (λ t k, delete k t) (keys j) (challenges j).

(** The job can be dropped where it awaits an answer, and when it has returned. *)
Definition awaits {X} (c : Cmd X) : bool :=
  match c with InsertChallenge _ _ | PushKey _ => false | _ => true end.
Definition droppable {A} (q : step A) : Prop :=
  match q with Flow.Done _ => True | Flow.Do c _ => awaits c = true end.

(** The challenges a job has put into the table. *)
Definition inserted_key (e : event Cmd) : option (string * string) :=
  match e with Ev c _ => match c with InsertChallenge key _ => Some key | _ => None end end.
Definition inserted (tr : list (event Cmd)) : list (string * string) := omap inserted_key tr.

Lemma drop_lookup t ks k :
  fold_left (λ t k, delete k t) ks t !! k = if bool_decide (k ∈ ks) then None else (t : Table) !! k.
Proof.
  revert t. induction ks as [|k' ks IH]; intros t; simpl; [done|].
  rewrite IH. repeat case_bool_decide; try done.
  - set_solver.
  - assert (k = k') as -> by set_solver. apply lookup_delete_eq.
  - apply lookup_delete_ne. set_solver.
Qed.
Lemma after_snoc t tr e : after t (tr ++ [e]) = effect (after t tr) e.
Proof. unfold after. by rewrite fold_left_app. Qed.
Lemma inserted_snoc tr e : inserted (tr ++ [e]) = inserted tr ++ inserted [e].
Proof. unfold inserted. by rewrite omap_app. Qed.
Lemma after_other t tr k : k ∉ inserted tr → challenges (after t tr) !! k = t !! k.
Proof.
  induction tr as [|e tr IH] using rev_ind; [done|]. rewrite after_snoc, inserted_snoc, not_elem_of_app.
  intros [Hk He]. destruct e as [X [] x]; simpl in *; try by apply IH.
  rewrite lookup_insert_ne; [by apply IH|set_solver].
Qed.

(** The guard's list has exactly the challenges that were put into the table. *)
Definition covered (tr : list (event Cmd)) : Prop :=
  ∀ t k, k ∈ keys (after t tr) ↔ k ∈ inserted tr.
(** Where the job may be dropped, the list is complete; before the authority is told
    to look, the answer it will ask for is in the table; what is put there is for
    this domain. *)
Definition guard (domain : string) (tr : list (event Cmd)) (X : Type) (c : Cmd X) : Prop :=
  (awaits c = true → covered tr) ∧
  match c with
  | SetReady token => ∀ t, ∃ a, challenges (after t tr) !! (domain, token) = Some a
  | InsertChallenge key _ => key.1 = domain
  | _ => True
  end.
Abbreviation post domain := (Flow.post (guard domain)).

Lemma covered_snoc tr {X} (c : Cmd X) x : awaits c = true → covered tr → covered (tr ++ [Ev c x]).
Proof.
  intros Ha Hc t k. rewrite after_snoc, inserted_snoc. destruct c; try done; simpl; rewrite app_nil_r; apply Hc.
Qed.
Lemma covered_pushed tr key a u v :
  covered tr → covered ((tr ++ [Ev (InsertChallenge key a) u]) ++ [Ev (PushKey key) v]).
Proof.
  intros Hc t k. rewrite !after_snoc, !inserted_snoc. simpl. rewrite app_nil_r, !elem_of_app, (Hc t k). done.
Qed.
#[local] Hint Resolve covered_snoc covered_pushed : core.

Lemma authorize_post domain tr (Φ : list (event Cmd) → result anyhow unit → Prop) :
  covered tr → (∀ tr' r, covered tr' → Φ tr' r) → post domain (authorize domain) tr Φ.
Proof.
  intros Hc HΦ. unfold authorize. apply post_try; [by split|]. intros [a|e]; [|auto].
  assert (covered (tr ++ [Ev NextAuthorization (Ok a)])) as Hc1 by auto.
  destruct (status a); try by apply HΦ. destruct (http01 a) as [[token ka]|]; [|by apply HΦ].
  apply post_then, post_perform; [by split|]. intros []. apply post_then, post_perform; [by split|]. intros [].
  unfold try_. apply post_then, post_perform; [|intros []; simpl; auto].
  split; [auto|]. intros t. rewrite !after_snoc. simpl. rewrite lookup_insert_eq. eauto.
Qed.
Lemma authorize_all_post domain n tr (Φ : list (event Cmd) → result anyhow unit → Prop) :
  covered tr → (∀ tr' r, covered tr' → Φ tr' r) → post domain (authorize_all domain n) tr Φ.
Proof.
  intros Hc HΦ. revert tr Hc. induction n as [|n IH]; intros tr Hc; [by apply HΦ|]. cbn [authorize_all].
  apply post_then, authorize_post; [done|]. intros tr' [[]|e] Hc'; [by apply IH|by apply HΦ].
Qed.
Lemma issue_post domain tr : covered tr → post domain (issue domain) tr (λ tr' _, covered tr').
Proof.
  intros Hc. unfold issue. apply post_try; [by split|]. intros [n|e]; [|auto].
  apply post_then, authorize_all_post; [auto|]. intros tr' [[]|e] Hc'; [|done].
  apply post_try; [by split|]. intros [[]|e]; simpl; [|auto..]. split; [split; auto|]. intros [k|e]; simpl; [|auto].
  split; [split; auto|]. intros [chain|e]; simpl; auto.
Qed.

(** C30: challenges are there when they are needed and gone afterwards.  However far
    [issue] gets and however it ends, by itself, or by its timeout or an abort, which
    drop it where it awaits an answer: dropping its guard leaves the table of
    challenges as it was, less the challenges this job had put there, and all of
    them; the job publishes challenges of its own domain only; and the authority is
    never told that a challenge is ready before its answer is in the table. *)
Theorem challenges_cleaned domain tr q t :
  steps (issue domain) tr q →
  (droppable q → ∀ k, drop_challenges (after t tr) !! k =
     if bool_decide (k ∈ inserted tr) then None else t !! k) ∧
  (∀ k, k ∈ inserted tr → k.1 = domain) ∧
  (∀ tr1 token r tr2, tr = tr1 ++ Ev (SetReady token) r :: tr2 →
     ∃ a, challenges (after t tr1) !! (domain, token) = Some a).
Proof.
  intros Hs. assert (post domain (issue domain) [] (λ tr' _, covered tr')) as Hp by (by apply issue_post).
  pose proof (post_calls _ _ _ [] _ _ Hp Hs) as Hc. simpl in Hc.
  split_and!.
  - intros Hq k. assert (covered tr) as Hcov.
    { destruct q as [r|X c f]; [by apply (post_steps _ _ [] _ _ _ Hp Hs)|].
      by apply (post_next _ _ _ _ [] _ _ Hp Hs). }
    unfold drop_challenges. rewrite drop_lookup, (bool_decide_ext _ _ (Hcov t k)).
    case_bool_decide; [done|]. by apply after_other.
  - intros k Hk. apply list_elem_of_omap in Hk as (e & He & Hin).
    apply list_elem_of_split in He as (tr1 & tr2 & ->). specialize (Hc tr1 e tr2 eq_refl).
    destruct e as [X [] x]; simpl in Hin; try done. injection Hin as <-. apply Hc.
  - intros tr1 token r tr2 Ht. destruct (Hc tr1 _ tr2 Ht) as [_ Hr]. apply Hr.
Qed.

Module Examples.
(** One pending authorization, all accepted. *)
Definition answer (X : Type) (c : Cmd X) : X :=
  match c with
  | NewOrder _ => Ok 1%nat
  | NextAuthorization => Ok {| status := AuthorizationPending; http01 := Some ("token", "answer") |}
  | InsertChallenge _ _ | PushKey _ => tt
  | SetReady _ => Ok tt
  | PollReady => Ok true
  | Finalize => Ok "key"
  | PollCertificate => Ok "chain"
  end.
(** The whole job. *)
Definition trace : list (event Cmd) := (follow answer (issue "example.com")).1.
Definition table : Table := {[("other.com", "token") := "kept"]}.
Lemma challenges_cleaned_witness :
  keys (after table trace) = [("example.com", "token")] ∧
  challenges (after table trace) !! ("example.com", "token") = Some "answer" ∧
  drop_challenges (after table trace) !! ("example.com", "token") = None ∧
  drop_challenges (after table trace) !! ("other.com", "token") = Some "kept".
Proof.
  split; [reflexivity|]. split; [reflexivity|].
  pose proof (challenges_cleaned "example.com" trace _ table (follow_steps answer (issue "example.com"))) as (H & _).
  split; [exact (H I ("example.com", "token"))|exact (H I ("other.com", "token"))].
Defined.
End Examples.
End Background.
