(* ===== verification/Watch.v ===== *)
(** * Configuration watch and payout loop ([automation.rs])

    [watch_config] rereads the configuration file and puts a new configuration in
    force; [manage_payouts] goes through the payout policies of the configuration
    that is in force while it runs. *)
From S2P Require Import Prelude Text Net Effects Extern Models Flow RateLimit Capacity Ledger Cdk Terms LnPolicy Payout Config State.
#[local] Open Scope string_scope.
#[local] Open Scope list_scope.
#[local] Open Scope Z_scope.

Module Watch.
Import Conf State.
#[local] Existing Instance Rate.Limit_eq_dec.

(** ** Equal settings

    Two configurations that differ in the identity of their objects only. *)
Definition same_settings (c c' : Config) : Prop :=
  payouts c = payouts c' ∧ ∀ d, settings <$> sites c !! d = settings <$> sites c' !! d.
#[export] Instance same_settings_equiv : Equivalence same_settings.
Proof.
  split.
  - by intros c.
  - intros c c' [Hp Hs]. by split.
  - intros c c' c'' [Hp Hs] [Hp' Hs']. split; [congruence|]. intros d. by rewrite Hs.
Qed.
#[export] Instance replace_config_proper :
  Proper (same_settings ==> same_settings ==> same_settings) replace_config.
Proof.
  intros c1 c1' _ c2 c2' [Hp Hs]. split; [done|]. intros d. rewrite !replace_config_lookup.
  specialize (Hs d). destruct (sites c2 !! d), (sites c2' !! d); try done; simpl in *.
  repeat case_match; rewrite ?inherit_settings; done.
Qed.
Lemma replace_config_same c c' : same_settings (replace_config c c') c'.
Proof.
  split; [done|]. intros d. rewrite replace_config_lookup.
  destruct (sites c' !! d); simpl; [|done]. case_match; by rewrite ?inherit_settings.
Qed.

Lemma same_settings_insert c c' d s s' :
  same_settings c c' → settings s = settings s' →
  same_settings {| sites := <[d := s]> (sites c); payouts := payouts c |}
                {| sites := <[d := s']> (sites c'); payouts := payouts c' |}.
Proof.
  intros [Hp Hs] He. split; [done|]. intros d'. simpl.
  destruct (decide (d = d')) as [->|Hd]; [rewrite !lookup_insert_eq; simpl; by f_equal|].
  by rewrite !lookup_insert_ne.
Qed.
Lemma same_settings_none c c' d : same_settings c c' → is_none (sites c !! d) = is_none (sites c' !! d).
Proof. intros [_ Hs]. specialize (Hs d). by destruct (sites c !! d), (sites c' !! d). Qed.
Lemma same_settings_empty c c' : same_settings c c' → sites c = ∅ ↔ sites c' = ∅.
Proof.
  assert (∀ c c', same_settings c c' → sites c = ∅ → sites c' = ∅) as H.
  { clear. intros c c' [_ Hs] He. apply map_eq. intros d. specialize (Hs d). rewrite He in Hs.
    rewrite lookup_empty in *. by destruct (sites c' !! d). }
  intros Hc. split; [by apply H|]. apply H. by symmetry.
Qed.

(** Both fail, in the same way, or both succeed with related results. *)
Definition alike {E A} (R : A → A → Prop) (r r' : result E A) : Prop :=
  match r, r' with Ok a, Ok a' => R a a' | Err e, Err e' => e = e' | _, _ => False end.
Lemma alike_bind {E A B} (R : A → A → Prop) (Q : B → B → Prop) (r r' : result E A) f f' :
  alike R r r' → (∀ a a', R a a' → alike Q (f a) (f' a')) → alike Q (r ≫= f) (r' ≫= f').
Proof. intros Hr Hf. destruct r, r'; simpl in *; try done. by apply Hf. Qed.
Lemma alike_same {E A B} (Q : B → B → Prop) (r : result E A) f f' :
  (∀ a, alike Q (f a) (f' a)) → alike Q (r ≫= f) (r ≫= f').
Proof. intros Hf. apply (alike_bind eq); [by destruct r|]. by intros a ? <-. Qed.

Section watch.
Context `{UrlLib, MintUrlLib, Secp, HttpLib, JsonString} {W : Type} `{Cdk.Lib W}.

(** *** Keeping well-formed sites *)

Lemma site_wf_inherit key old site :
  site_wf key old → site_wf key site → site_wf key (inherit old site).
Proof.
  intros Ho Hs. pose proof (inherit_settings old site) as Hi. unfold settings in Hi.
  injection Hi as Hr Hc Hv1 Hv2.
  destruct Hs as [Hd Hval Hh Hct Hrl [Hpv Hpp] Hp Hl Hcap].
  assert (∀ r, keep_rate_limit old site = Some r →
            ∃ r', rate_limit site = Some r' ∧ limiter_settings r' = limiter_settings r) as Hkr.
  { intros r Ek. rewrite Ek in Hr. destruct (rate_limit site); [|done]. injection Hr as ??.
    eexists; split; [done|]. unfold limiter_settings. congruence. }
  split; simpl; try done.
  - intros r Ek. destruct (Hkr r Ek) as (r' & E' & He). injection He as <- <-. by apply Hrl.
  - rewrite Hv1, Hv2. by split.
  - intros c Ek. rewrite Ek in Hc. destruct (capacity site) as [c0|] eqn:Es; [|done].
    injection Hc as Hm Hx. destruct (Hcap c0 eq_refl) as (Hb & Hpc & Hix). rewrite Hm, Hx.
    split; [exact Hb|]. split; [|exact Hix]. unfold keep_capacity in Ek. rewrite Es in Ek.
    destruct (capacity old) as [co|] eqn:Eo; [|injection Ek as <-; congruence].
    destruct (same_capacity c0 co); injection Ek as <-; [|congruence].
    destruct (swf_capacity _ _ Ho co Eo) as (_ & Hpo & _). congruence.
Qed.
Lemma replace_config_wf c c' :
  map_Forall site_wf (sites c) → map_Forall site_wf (sites c') →
  map_Forall site_wf (sites (replace_config c c')).
Proof.
  intros Hc Hc' d s Hs. rewrite replace_config_lookup in Hs.
  destruct (sites c' !! d) as [s'|] eqn:E'; [|done]. injection Hs as <-.
  destruct (sites c !! d) as [old|] eqn:E; [apply site_wf_inherit|]; eauto.
Qed.

Lemma parse_sites_alike id id' receivers c c' blocks :
  same_settings c c' →
  alike same_settings (parse_sites id receivers c blocks) (parse_sites id' receivers c' blocks).
Proof.
  revert id id' c c'. induction blocks as [|b blocks IH]; intros id id' c c' Hc; simpl; [done|].
  apply alike_same. intros _. case_bool_decide.
  - rewrite (proj1 Hc). apply alike_same. intros ps. apply IH. by destruct Hc.
  - apply (alike_bind (λ s s', settings s = settings s')).
    + unfold parse_site. apply alike_same. intros [[[[[h rl] p] l] m] ct]. apply alike_same.
      intros _. simpl. unfold settings, make_site. simpl. by destruct rl, m as [z|]; simpl; try case_match.
    + intros s s' Hs. rewrite (same_settings_none c c') by done. apply alike_same. intros _.
      by apply IH, same_settings_insert.
Qed.
(** What is accepted, and with which settings, depends on the text only. *)
Lemma Config_parse_alike id id' input :
  alike same_settings (Config_parse id input) (Config_parse id' input).
Proof.
  unfold Config_parse. do 2 (apply alike_same; intros ?). apply alike_same. intros [rs bs].
  eapply alike_bind; [by apply parse_sites_alike|]. intros c c' Hc.
  replace (bool_decide (sites c' = ∅)) with (bool_decide (sites c = ∅))
    by (apply bool_decide_ext, same_settings_empty, Hc).
  apply alike_same. by intros _.
Qed.

(** ** [watch_config] *)

(** [previous] and the configuration in force; [objects] counts the sites that were
    ever built, for the identity of their objects. *)
Record Watcher := { previous : list char; current : Config; objects : nat }.

(** An iteration, given what reading the file returned. *)
Definition watch_step (w : Watcher) (read : result anyhow (list char)) : Watcher :=
  match read with
  | Ok text =>
      if bool_decide (text ≠ previous w) then
        match Config_parse (objects w) text with
        | Ok config => {| previous := text; current := replace_config (current w) config;
                          objects := objects w + size (sites config) |}
        | Err _ => {| previous := text; current := current w; objects := objects w |}
        end
      else w
  | Err _ => w
  end.
Definition watch_config (initial : list char) (config : Config) (reads : list (result anyhow (list char))) : Watcher :=
  fold_left watch_step reads
    {| previous := initial; current := config; objects := size (sites config) |}.

(** The last text that is a valid configuration. *)
Definition accepted (text : list char) : bool :=
  match Config_parse 0 text with Ok _ => true | Err _ => false end.
Definition last_accepted (initial : list char) (reads : list (result anyhow (list char))) : list char :=
  fold_left (λ last r, match r with Ok text => if accepted text then text else last | Err _ => last end)
    reads initial.

Definition in_force (w : Watcher) (text : list char) : Prop :=
  sites (current w) ≠ ∅ ∧ map_Forall site_wf (sites (current w)) ∧ payouts_wf (payouts (current w)) ∧
  (∃ c, Config_parse 0 text = Ok c ∧ same_settings (current w) c) ∧
  (** what was read last is in force or not acceptable *)
  (accepted (previous w) = true → previous w = text).

Lemma watch_step_in_force w text r :
  in_force w text →
  in_force (watch_step w r)
    (match r with Ok t => if accepted t then t else text | Err _ => text end).
Proof.
  intros (He & Hw & Hp & (c & Hc & Hs) & Hv). unfold watch_step. destruct r as [t|e]; [|by split_and!; eauto].
  case_bool_decide as Ht.
  - pose proof (Config_parse_alike (objects w) 0 t) as Ha. unfold accepted.
    destruct (Config_parse (objects w) t) as [c1|e1] eqn:E1, (Config_parse 0 t) as [c2|e2] eqn:E2; try done.
    + destruct (Config_parse_wf _ _ _ E1) as (He1 & Hw1 & Hp1).
      pose proof (replace_config_same (current w) c1) as Hr. split_and!; simpl.
      * by rewrite (same_settings_empty _ _ Hr).
      * by apply replace_config_wf.
      * done.
      * exists c2. split; [done|]. by transitivity c1.
      * done.
    + split_and!; simpl; eauto. unfold accepted. by rewrite E2.
  - subst t. destruct (accepted (previous w)) eqn:Ea; [|by split_and!; eauto].
    rewrite Hv by done. by split_and!; eauto.
Qed.

Lemma watch_in_force initial config reads :
  Config_parse 0 initial = Ok config →
  in_force (watch_config initial config reads) (last_accepted initial reads).
Proof.
  intros Hi. unfold watch_config, last_accepted.
  assert (in_force {| previous := initial; current := config; objects := size (sites config) |} initial)
    as Hf by (destruct (Config_parse_wf _ _ _ Hi) as (? & ? & ?); split_and!; eauto; by exists config).
  revert Hf. generalize ({| previous := initial; current := config; objects := size (sites config) |}).
  clear Hi. revert initial. induction reads as [|r reads IH]; intros text w Hf; simpl; [done|].
  apply IH. by apply watch_step_in_force.
Qed.

(** C18: a running proxy always has a usable configuration, the last good one.
    Whatever the file holds each time it is read, and however often reading it fails:
    the configuration in force has at least one site, its sites and payouts are well
    formed, and its settings are those of the last text that was a valid
    configuration.  Reading the same thing again changes nothing. *)
Theorem last_good_configuration initial config reads :
  Config_parse 0 initial = Ok config →
  let w := watch_config initial config reads in
  (sites (current w) ≠ ∅ ∧ map_Forall site_wf (sites (current w)) ∧ payouts_wf (payouts (current w))) ∧
  (∃ c, Config_parse 0 (last_accepted initial reads) = Ok c ∧ same_settings (current w) c) ∧
  (∀ r, watch_step (watch_step w r) r = watch_step w r).
Proof.
  intros Hi w. destruct (watch_in_force initial config reads Hi) as (He & Hw & Hp & Hc & _).
  split_and!; [done..|]. intros [t|e]; [|done]. unfold watch_step at 2 3. case_bool_decide as Ht; simpl.
  - destruct (Config_parse (objects w) t); simpl; by case_bool_decide.
  - subst t. by case_bool_decide.
Qed.
End watch.

(** ** [manage_payouts] *)

(** What the loops of the background service do to what they share; the answer of a
    payout that runs into its 30 seconds is an error. *)
Inductive Cmd : Type → Type :=
| LoadPayouts : Cmd (list Payout.PayoutPolicy)
| AutomaticPayout (policy : Payout.PayoutPolicy) : Cmd (result anyhow unit)
| Sleep (seconds : Z) : Cmd unit
(** reads the file and puts a new configuration in force, without an await between *)
| Reread : Cmd (result anyhow (list char))
| CertificateLoop : Cmd (result anyhow unit)
| RecoverCashuDeposits : Cmd (result anyhow unit)
| PruneExpired : Cmd (result anyhow unit).

Section payouts.
(** [PayoutPolicy]'s derived equality, which compares more of the request than the
    fields that are modelled. *)
Context (same : Payout.PayoutPolicy → Payout.PayoutPolicy → bool).

Definition contains (ps : list Payout.PayoutPolicy) (p : Payout.PayoutPolicy) : bool := existsb (same p) ps.
Fixpoint payout_each (policies : list Payout.PayoutPolicy) : proc Cmd unit :=
  match policies with
  | [] => Done tt
  | policy :: policies' =>
      Do LoadPayouts (λ current,
        if negb (contains current policy) then payout_each policies'
        else Do (AutomaticPayout policy) (λ _, payout_each policies'))
  end.
(** [n] rounds of the loop of a proxy with payments. *)
Fixpoint manage_payouts (n : nat) : proc Cmd unit :=
  match n with
  | O => Done tt
  | S n => Do LoadPayouts (λ policies,
             proc_bind (payout_each policies) (λ _, Do (Sleep 5) (λ _, manage_payouts n)))
  end.

Definition just_loaded (tr : list (event Cmd)) (p : Payout.PayoutPolicy) : Prop :=
  ∃ tr' current, tr = tr' ++ [Ev LoadPayouts current] ∧ contains current p = true.
Definition payout_guard (tr : list (event Cmd)) (X : Type) (c : Cmd X) : Prop :=
  match c with AutomaticPayout p => just_loaded tr p | _ => True end.

Lemma payout_each_post policies tr (Φ : list (event Cmd) → unit → Prop) :
  (∀ tr' r, Φ tr' r) → post payout_guard (payout_each policies) tr Φ.
Proof.
  intros HΦ. revert tr. induction policies as [|p ps IH]; intros tr; [apply HΦ|]. cbn.
  split; [done|]. intros current. destruct (contains current p) eqn:E; cbn; [|apply IH].
  split; [by exists tr, current|]. intros r. apply IH.
Qed.
Lemma manage_payouts_post n tr : post payout_guard (manage_payouts n) tr (λ _ _, True).
Proof.
  revert tr. induction n as [|n IH]; intros tr; [done|]. cbn. split; [done|]. intros ps.
  apply post_bind, payout_each_post. intros tr' []. by split.
Qed.

(** A payout is attempted under a policy only if the configuration loaded right
    before holds that policy, however often the configuration was replaced since
    the round began. *)
Theorem payouts_under_current_policy n tr q tr1 p r tr2 :
  steps (manage_payouts n) tr q → tr = tr1 ++ Ev (AutomaticPayout p) r :: tr2 → just_loaded tr1 p.
Proof.
  intros Hs Ht. exact (post_calls _ _ _ [] _ _ (manage_payouts_post n []) Hs _ _ _ Ht).
Qed.

(** With a configuration that stays, a round attempts each of its policies once, in
    order. *)
Definition attempts (tr : list (event Cmd)) : list Payout.PayoutPolicy :=
  omap (λ e, match e with Ev c _ => match c with AutomaticPayout p => Some p | _ => None end end) tr.
Theorem round_attempts_all (answer : ∀ X, Cmd X → X) ps :
  (∀ p, same p p = true) → answer _ LoadPayouts = ps →
  attempts (follow answer (manage_payouts 1)).1 = ps.
Proof.
  intros Hsame Hps. cbn. rewrite Hps.
  assert (∀ p, p ∈ ps → contains ps p = true) as Hin.
  { intros p Hp. apply existsb_exists. exists p. split; [by apply list_elem_of_In|done]. }
  match goal with |- context [proc_bind _ ?f] => set (k := f) end.
  assert (attempts (follow answer (proc_bind (payout_each ps) k)).1 = ps) as H.
  { revert Hin. generalize ps at 1 3 4. intros l. induction l as [|p l IH]; intros Hin; [done|]. cbn.
    rewrite Hps, (Hin p) by constructor. cbn. fold (proc_bind (payout_each l) k).
    specialize (IH ltac:(intros; apply Hin; by constructor)).
    destruct (follow answer (proc_bind (payout_each l) k)). cbn in *. by rewrite IH. }
  destruct (follow answer _). exact H.
Qed.
End payouts.

(** ** A concrete run *)

Module Examples.
Import Toy Conf.Examples.
Definition better_file : list char :=
  chars ("example.com {" +:+ nl +:+ "reverse_proxy localhost:3000" +:+ nl +:+ "max_inflight 9" +:+ nl +:+ "}").
(** A good file, a broken one, an unreadable one, and the broken one again. *)
Definition example_reads : list (result anyhow (list char)) :=
  [Ok better_file; Ok bad_file; Err "gone"; Ok bad_file].

Lemma last_good_configuration_witness :
  ∃ config, Config_parse 0 example_file = Ok config ∧
    last_accepted example_file example_reads = better_file ∧
    (∃ c, Config_parse 0 better_file = Ok c ∧
       same_settings (current (watch_config example_file config example_reads)) c).
Proof.
  destruct (Config_parse 0 example_file) as [config|e] eqn:Hc; [|vm_compute in Hc; discriminate Hc].
  exists config. split; [reflexivity|].
  assert (last_accepted example_file example_reads = better_file) as Hl by (vm_compute; reflexivity).
  split; [exact Hl|].
  pose proof (last_good_configuration example_file config example_reads Hc) as (_ & H & _).
  rewrite Hl in H. exact H.
Defined.
End Examples.
End Watch.
