(* ===== verification/Chores.v ===== *)
(** * The background service ([automation.rs])

    [Automation::start] runs five loops at once on the state they share with the
    proxy, until the process shuts down: [watch_config] puts configurations in force,
    [manage_payouts] follows them, and three more loops renew certificates, recover
    deposits and clean up records.  The theorems are about every interleaving of the
    loops, whatever the file holds at what time and whatever fails. *)
From S2P Require Import Prelude Text Net Effects Extern Models Flow RateLimit Capacity Ledger Cdk Terms LnPolicy Payout Config State Watch.
#[local] Open Scope string_scope.
#[local] Open Scope list_scope.
#[local] Open Scope Z_scope.

Module Chores.
Import Conf State Watch.

Inductive Branch := WatchConfig | ManageCertificates | ManagePayouts | ManageCashuDeposits | ManageLightningRecords.

Section chores.
Context `{UrlLib, MintUrlLib, Secp, HttpLib, JsonString} {W : Type} `{Cdk.Lib W}.
Context (same : Payout.PayoutPolicy → Payout.PayoutPolicy → bool).
(** [state.payments] and [state.lightning] are there. *)
Context (has_payments has_lightning : bool).

(** ** The loops *)

(** [loop { body; sleep(pause) }], the first [n] rounds. *)
Fixpoint rounds (body : proc Cmd unit) (pause : Z) (n : nat) : proc Cmd unit :=
  match n with
  | O => Done tt
  | S n => proc_bind body (λ _, Do (Sleep pause) (λ _, rounds body pause n))
  end.
(** The error of a chore is logged only. *)
Definition chore (present : bool) (c : Cmd (result anyhow unit)) : proc Cmd unit :=
  if present then Do c (λ _, Done tt) else Done tt.
Definition manage_lightning_records : nat → proc Cmd unit := rounds (chore has_lightning PruneExpired) 30.
Definition manage_cashu_deposits : nat → proc Cmd unit := rounds (chore has_lightning RecoverCashuDeposits) 30.
Definition manage_certificates : nat → proc Cmd unit := rounds (chore true CertificateLoop) 10.
Definition payout_loop (n : nat) : proc Cmd unit :=
  if has_payments then manage_payouts same n else rounds (Done tt) 5 n.
Fixpoint watch_loop (n : nat) : proc Cmd unit :=
  match n with
  | O => Done tt
  | S n => Do (Sleep 2) (λ _, Do Reread (λ _, watch_loop n))
  end.

(** ** All at once *)

(** What reading the file returns now, the state of [watch_config], and how calls
    to others are answered. *)
Record World := { file : result anyhow (list char); watcher : Watcher; others : ∀ X, Cmd X → X }.
Definition answer (X : Type) (c : Cmd X) (w : World) : World * X :=
  match c in Cmd X return World * X with
  | Reread => ({| file := file w; watcher := watch_step (watcher w) (file w); others := others w |}, file w)
  | LoadPayouts => (w, payouts (current (watcher w)))
  | c => (w, others w _ c)
  end.
(** [n] rounds of a branch. *)
Definition branch (b : Branch * nat) : proc Cmd unit :=
  match b.1 with
  | WatchConfig => watch_loop b.2
  | ManageCertificates => manage_certificates b.2
  | ManagePayouts => payout_loop b.2
  | ManageCashuDeposits => manage_cashu_deposits b.2
  | ManageLightningRecords => manage_lightning_records b.2
  end.
Abbreviation sys := (@system Cmd World (Branch * nat) unit).
(** Between two steps the file is written and the others change their minds. *)
Inductive turn := Turn (i : nat) | Outside (f : result anyhow (list char)) (o : ∀ X, Cmd X → X).
Definition turn_action (t : turn) : @action World (Branch * nat) :=
  match t with
  | Turn i => Advance i
  | Outside f o => Elapse (λ w, {| file := f; watcher := watcher w; others := o |})
  end.
(** [Automation::start], until [shutdown.changed()]: the branches of [select!], each
    [n] rounds of its loop at most. *)
Definition branches (n : nat) : list (Branch * nat) :=
  [(WatchConfig, n); (ManageCertificates, n); (ManagePayouts, n); (ManageCashuDeposits, n); (ManageLightningRecords, n)].
Definition start (n : nat) (initial : list char) (config : Config) (w : World) (l : list turn) : sys :=
  play branch answer (λ _, 0)
    (begin {| file := file w; others := others w;
              watcher := {| previous := initial; current := config; objects := size (sites config) |} |})
    (map Arrive (branches n) ++ map turn_action l).

(** ** Payouts follow the file *)

(** What reading the file returned, in the order of a history. *)
Definition reads (h : list (Z * nat * event Cmd)) : list (result anyhow (list char)) :=
  omap (λ e : Z * nat * event Cmd,
    match e.2 with Ev c x => match c in Cmd X return X → _ with Reread => λ x, Some x | _ => λ _, None end x end) h.
Definition loaded (e : event Cmd) : option (list Payout.PayoutPolicy) :=
  match e with Ev c x => match c in Cmd X return X → _ with LoadPayouts => λ x, Some x | _ => λ _, None end x end.
(** The watcher has read what the history says, and the payouts that were loaded are
    those it had put in force by then. *)
Definition informed (initial : list char) (config : Config) (s : sys) : Prop :=
  watcher (world s) = watch_config initial config (reads (history s)) ∧
  ∀ h1 e h2 ps, history s = h1 ++ e :: h2 → loaded e.2 = Some ps →
    ps = payouts (current (watch_config initial config (reads h1))).

Lemma informed_advance initial config s i t :
  informed initial config s → informed initial config (advance answer (λ _, 0) s i t).
Proof.
  intros [Hw Hp]. unfold advance. destruct (t_rest t) as [|X c k]; [done|].
  destruct (answer X c (world s)) as [w x] eqn:Ha. split; cbn [world history].
  - unfold reads. rewrite omap_app. fold (reads (history s)). unfold watch_config. rewrite fold_left_app.
    fold (watch_config initial config (reads (history s))). rewrite <- Hw.
    destruct c; injection Ha as <- <-; done.
  - intros h1 e h2 ps [(-> & <- & <-)|(h2' & -> & E)]%snoc_split Hl; [|by eapply Hp].
    rewrite <- Hw. destruct c; try discriminate Hl. injection Hl as <-. injection Ha as _ <-. done.
Qed.
Lemma informed_act initial config s a :
  (∀ f, a = Elapse f → ∀ w, watcher (f w) = watcher w) →
  informed initial config s → informed initial config (act branch answer (λ _, 0) s a).
Proof.
  intros Hf Hs. destruct a as [r|i|f]; simpl; [exact Hs| |].
  - destruct (tasks s !! i); [by apply informed_advance|done].
  - destruct Hs as [Hw Hp]. split; [|exact Hp]. cbn [world history]. by rewrite (Hf f eq_refl).
Qed.
Lemma informed_start n initial config w l : informed initial config (start n initial config w l).
Proof.
  unfold start, play. rewrite fold_left_app.
  assert (∀ l s, informed initial config s →
    informed initial config (fold_left (act branch answer (λ _, 0)) (map turn_action l) s)) as Hturns.
  { clear. induction l as [|t l IH]; intros s Hs; simpl; [done|]. apply IH, informed_act; [|done].
    intros f Hf w. destruct t; [done|]. injection Hf as <-. done. }
  apply Hturns. split; [done|]. intros h1 e h2 ps Hh. by destruct h1.
Qed.

Lemma quiet_post {R} (p : proc Cmd R) tr :
  post (λ _ X (c : Cmd X), match c with AutomaticPayout _ => False | _ => True end) p tr (λ _ _, True) →
  post (payout_guard same) p tr (λ _ _, True).
Proof.
  revert tr. induction p as [r|X c k IH]; intros tr; [done|]. intros [Hc Hk]. split; [by destruct c|]. auto.
Qed.
Lemma rounds_quiet G body pause n tr :
  (∀ tr X (c : Cmd X), match c with Sleep _ => True | _ => False end → G tr X c) →
  (∀ tr, post G body tr (λ _ _, True)) → post G (rounds body pause n) tr (λ _ _, True).
Proof.
  intros Hs Hb. revert tr. induction n as [|n IH]; intros tr; [done|]. apply post_bind.
  eapply post_mono; [|apply Hb]. intros tr' _ _. split; [by apply Hs|]. intros []. apply IH.
Qed.
Lemma branch_post b : post (payout_guard same) (branch b) [] (λ _ _, True).
Proof.
  destruct b as [[] n]; unfold branch; cbn [fst snd].
  - apply quiet_post. generalize (@nil (event Cmd)). induction n as [|n IH]; intros tr; [done|].
    split; [done|]. intros []. split; [done|]. intros r. apply IH.
  - apply rounds_quiet; [by intros ?? []|]. by intros tr.
  - unfold payout_loop. destruct has_payments; [apply manage_payouts_post|].
    apply rounds_quiet; [by intros ?? []|]. by intros tr.
  - apply rounds_quiet; [by intros ?? []|]. intros tr. by destruct has_lightning.
  - apply rounds_quiet; [by intros ?? []|]. intros tr. by destruct has_lightning.
Qed.

(** C19: payouts follow the file.  However the loops of the background service interleave,
    whatever the configuration file holds each time it is read and whatever fails: a
    payout is attempted only under a policy that was in the last good configuration
    when the loop looked, and its loop did nothing in between. *)
Theorem payouts_follow_file n initial config w l h1 t i p r h2 :
  Config_parse 0 initial = Ok config →
  history (start n initial config w l) = h1 ++ (t, i, Ev (AutomaticPayout p) r) :: h2 →
  ∃ before look after c, h1 = before ++ look :: after ∧ look.1.2 = i ∧ Forall (λ e, e.1.2 ≠ i) after ∧
    Config_parse 0 (last_accepted initial (reads before)) = Ok c ∧ contains same (payouts c) p = true.
Proof.
  intros Hi Hh.
  assert (recorded (start n initial config w l)) as Hrec by apply recorded_play, recorded_begin.
  assert (coherent branch (start n initial config w l)) as [Hcoh _] by apply coherent_play, coherent_begin.
  destruct (recorded_event _ _ _ _ _ _ Hrec Hh) as (task & Ht & rest & Hpast).
  eapply Forall_lookup in Hcoh; [|exact Ht]. rewrite Hpast in Hcoh.
  pose proof (post_calls _ _ _ [] _ _ (branch_post _) Hcoh _ _ _ eq_refl) as (tr & ps & Hown & Hin).
  destruct (omap_snoc_inv _ _ _ _ Hown) as (before & look & after & -> & Hlook & Hafter).
  unfold own in Hlook. destruct (decide (look.1.2 = i)) as [Hl|]; [|done]. injection Hlook as Hlook.
  destruct (informed_start n initial config w l) as [_ Hinf].
  rewrite <- app_assoc in Hh. specialize (Hinf _ _ _ ps Hh). rewrite Hlook in Hinf. specialize (Hinf eq_refl).
  destruct (watch_in_force initial config (reads before) Hi) as (_ & _ & _ & (c & Hc & [Hpay _]) & _).
  exists before, look, after, c. split_and!; [done|done|by apply own_none|done|]. by rewrite <- Hpay, <- Hinf.
Qed.

(** ** The loops go on *)

Definition is_sleep (e : event Cmd) : bool := match e with Ev c _ => match c with Sleep _ => true | _ => false end end.
Definition sleeps (tr : list (event Cmd)) : nat := tally is_sleep tr.
Lemma sleeps_grow {R} (p : proc Cmd R) tr (Φ : list (event Cmd) → R → Prop) :
  (∀ tr' r, (sleeps tr ≤ sleeps tr')%nat → Φ tr' r) → post (λ _ _ _, True) p tr Φ.
Proof.
  revert tr. induction p as [r|X c k IH]; intros tr HΦ; [by apply HΦ|]. split; [done|]. intros x. apply IH.
  intros tr' r Hr. apply HΦ. unfold sleeps in *. rewrite tally_snoc in Hr. lia.
Qed.
(** A pause, and what comes after it. *)
Lemma sleep_counts (p : unit → proc Cmd unit) s n tr :
  (∀ tr, post (λ _ _ _, True) (p tt) tr (λ tr' _, (sleeps tr + n ≤ sleeps tr')%nat)) →
  post (λ _ _ _, True) (Do (Sleep s) p) tr (λ tr' _, (sleeps tr + S n ≤ sleeps tr')%nat).
Proof.
  intros Hp. split; [done|]. intros []. eapply post_mono; [|apply Hp]. intros tr' [].
  unfold sleeps. rewrite tally_snoc. cbn [is_sleep]. lia.
Qed.
Lemma round_counts (body : proc Cmd unit) (p : unit → proc Cmd unit) s n tr :
  (∀ tr, post (λ _ _ _, True) (p tt) tr (λ tr' _, (sleeps tr + n ≤ sleeps tr')%nat)) →
  post (λ _ _ _, True) (proc_bind body (λ _, Do (Sleep s) p)) tr (λ tr' _, (sleeps tr + S n ≤ sleeps tr')%nat).
Proof.
  intros Hp. apply post_bind, sleeps_grow. intros tr' [] Hle.
  eapply post_mono; [|by apply sleep_counts]. intros tr'' [] ?. lia.
Qed.
Lemma rounds_count body pause n tr :
  post (λ _ _ _, True) (rounds body pause n) tr (λ tr' _, (sleeps tr + n ≤ sleeps tr')%nat).
Proof. revert tr. induction n as [|n IH]; intros tr; [simpl; lia|]. by apply round_counts. Qed.
(** [n] rounds are not over before [n] pauses. *)
Lemma branch_counts b n tr :
  post (λ _ _ _, True) (branch (b, n)) tr (λ tr' _, (sleeps tr + n ≤ sleeps tr')%nat).
Proof.
  destruct b; try apply rounds_count; unfold branch; cbn [fst snd].
  - revert tr. induction n as [|n IH]; intros tr; [simpl; lia|]. apply sleep_counts. intros tr'.
    split; [done|]. intros r. eapply post_mono; [|apply IH]. intros tr'' []. unfold sleeps. rewrite tally_snoc. simpl. lia.
  - unfold payout_loop. destruct has_payments; [|apply rounds_count].
    revert tr. induction n as [|n IH]; intros tr; [simpl; lia|]. split; [done|]. intros ps.
    eapply post_mono; [|by apply round_counts]. intros tr' []. unfold sleeps. rewrite tally_snoc. simpl. lia.
Qed.

Lemma tasks_requests n initial config w l :
  map t_req (tasks (start n initial config w l)) = branches n.
Proof.
  unfold start, play. rewrite fold_left_app. cbn.
  assert (∀ l s, map t_req (tasks (fold_left (act branch answer (λ _, 0)) (map turn_action l) s)) = map t_req (tasks s))
    as ->; [|done].
  clear. induction l as [|[i|f o] l IH]; intros s; [done| |]; cbn; rewrite IH; [|done].
  destruct (tasks s !! i) as [t|] eqn:Hi; [|done]. unfold advance. destruct (t_rest t) as [|X c k]; [done|].
  destruct (answer X c (world s)). cbn. rewrite list_fmap_insert. apply list_insert_id. by rewrite list_lookup_fmap, Hi.
Qed.
Lemma history_length n initial config w l : (length (history (start n initial config w l)) ≤ length l)%nat.
Proof.
  unfold start, play. rewrite fold_left_app. cbn.
  match goal with |- (_ (_ (fold_left _ _ ?s)) ≤ _)%nat => change (length l) with (length (history s) + length l)%nat; generalize s end.
  induction l as [|[i|f o] l IH]; intros s; cbn [map fold_left turn_action]; [simpl; lia| |];
    (etrans; [apply IH|]); cbn [act history length]; [|lia].
  destruct (tasks s !! i) as [t|]; [|simpl; lia]. unfold advance. destruct (t_rest t) as [|X c k]; [simpl; lia|].
  destruct (answer X c (world s)). cbn [history]. rewrite length_app. simpl. lia.
Qed.
Lemma omap_length {A B} (f : A → option B) l : (length (omap f l) ≤ length l)%nat.
Proof. induction l as [|a l IH]; cbn; [lia|]. destruct (f a); simpl; lia. Qed.

(** The service runs until it is told to stop: no branch of the [select!] ever ends,
    whatever fails. *)
Theorem start_goes_on n initial config w l i t :
  (length l < n)%nat → tasks (start n initial config w l) !! i = Some t → ∀ r, t_rest t ≠ Done r.
Proof.
  intros Hn Ht r Hr.
  assert (recorded (start n initial config w l)) as [Hrec _] by apply recorded_play, recorded_begin.
  assert (coherent branch (start n initial config w l)) as [Hcoh _] by apply coherent_play, coherent_begin.
  eapply Forall_lookup in Hcoh; [|exact Ht]. rewrite Hr in Hcoh.
  assert (t_req t ∈ branches n) as Hb.
  { rewrite <- (tasks_requests n initial config w l). apply list_elem_of_fmap. exists t. split; [done|]. by eapply list_elem_of_lookup_2. }
  assert ((t_req t).2 = n) as Hreq by (apply list_elem_of_In in Hb; cbn in Hb; destruct_or! Hb; try done; by rewrite <- Hb).
  destruct (t_req t) as [b m]. cbn in Hreq. subst m.
  pose proof (post_steps _ _ [] _ _ _ (branch_counts b n []) Hcoh) as Hs. simpl in Hs.
  assert (sleeps (t_past t) ≤ length l)%nat; [|lia].
  etrans; [|apply (history_length n initial config w l)]. rewrite <- (Hrec _ _ Ht). unfold sleeps, tally.
  etrans; [apply List.filter_length_le|]. apply omap_length.
Qed.

(** A chore is done before every pause of its loop, however often it failed. *)
Theorem chore_each_round c pause n tr q (is_c : event Cmd → bool) :
  (∀ r, is_c (Ev c r) = true) → (∀ s r, is_c (Ev (Sleep s) r) = false) → is_sleep (Ev c (Ok tt)) = false →
  steps (rounds (chore true c) pause n) tr q →
  (sleeps tr ≤ tally is_c tr ≤ sleeps tr + 1)%nat.
Proof.
  intros Hc Hs Hnot. assert (∀ r, is_sleep (Ev c r) = false) as Hnot' by (intros r; exact Hnot).
  revert tr. induction n as [|n IH]; intros tr Hst; [inversion Hst; subst; unfold sleeps, tally; simpl; lia|].
  destruct tr as [|e tr]; [unfold sleeps, tally; simpl; lia|].
  apply steps_do_inv in Hst as (r & -> & Hst).
  destruct tr as [|e tr]; [unfold sleeps, tally; cbn [List.filter]; rewrite Hc, Hnot'; simpl; lia|].
  apply steps_do_inv in Hst as (u & -> & Hst). specialize (IH tr Hst).
  unfold sleeps, tally in *. cbn [List.filter]. rewrite Hc, Hnot', Hs. cbn [is_sleep length]. lia.
Qed.
End chores.

(** ** A file that gains a payout *)

Module Examples.
Import Toy.
#[local] Existing Instances Conf.Examples.plain_json Conf.Examples.no_keys.
#[local] Instance payout_urls : UrlLib := λ s,
  Ok {| url_scheme := "https"; url_host_str := Some "host.example"; url_username := "";
        url_password := None; url_port := None; url_port_or_known_default := Some 443;
        url_path := "/"; url_query := None; url_fragment := None; url_origin := s; url_as_str := s |}.
#[local] Instance payout_mints : MintUrlLib := λ s, Ok s.
Definition payee : Cdk.PaymentRequest :=
  {| Cdk.pr_unit := Some Cdk.Sat; Cdk.pr_amount := None; Cdk.pr_single_use := None; Cdk.pr_mints := [];
     Cdk.pr_mint_preferred := None; Cdk.pr_supported_methods := [];
     Cdk.pr_transports := [{| Cdk.t_type := Cdk.Nostr; Cdk.t_target := "nprofile" |}] |}.
#[local] Instance payout_wallet : Cdk.Lib unit :=
  {| Cdk.wallet_call X c w := (w, Err Cdk.OtherError); Cdk.wallet_cut X c b w := w;
     Cdk.token_from_str _ := None; Cdk.request_from_str s := if bool_decide (s = "creq") then Some payee else None;
     Cdk.operation_ok _ := false |}.

Definition nl : string := Conf.Examples.nl.
Definition plain_file : string := "example.com {" +:+ nl +:+ "reverse_proxy localhost:3000" +:+ nl +:+ "}" +:+ nl.
Definition payout_file : string :=
  plain_file +:+ "cashu_payout {" +:+ nl +:+ "mint https://mint.example" +:+ nl +:+ "request creq" +:+ nl +:+
  "amount 5" +:+ nl +:+ "max_fee 1" +:+ nl +:+ "threshold 20" +:+ nl +:+ "}" +:+ nl.
Definition owed : Payout.PayoutPolicy :=
  {| Payout.po_mint := "https://mint.example"; Payout.po_request := payee; Payout.po_amount := 5;
     Payout.po_max_fee := 1; Payout.po_interval := None; Payout.po_threshold := Some 20 |}.
Definition same_payout (a b : Payout.PayoutPolicy) : bool :=
  bool_decide (Payout.po_mint a = Payout.po_mint b) && (Payout.po_amount a =? Payout.po_amount b).
Definition failing (X : Type) (c : Cmd X) : X :=
  match c with
  | LoadPayouts => [] | Sleep _ => tt | AutomaticPayout _ => Err "mint" | Reread => Err "unused"
  | CertificateLoop => Err "disk" | RecoverCashuDeposits => Err "mint" | PruneExpired => Err "disk"
  end.
(** The file gets a payout, is read, and is broken before the payout is tried. *)
Definition turns : list turn :=
  [Turn 4; Turn 0; Outside (Ok (chars payout_file)) failing; Turn 1; Turn 0; Turn 2; Outside (Err "gone") failing;
   Turn 0; Turn 2; Turn 0; Turn 4; Turn 2; Turn 2].
Definition plain_config : Config :=
  match Config_parse 0 (chars plain_file) with Ok c => c | Err _ => {| sites := ∅; payouts := [] |} end.
Definition morning : World :=
  {| file := Err "unused"; watcher := {| previous := []; current := plain_config; objects := 0 |}; others := failing |}.
Definition day : @system Cmd World (Branch * nat) unit :=
  start same_payout true true 3 (chars plain_file) plain_config morning turns.

Lemma payouts_follow_file_witness :
  ∃ before look after c,
    take 9 (history day) = before ++ look :: after ∧ look.1.2 = 2%nat ∧ Forall (λ e, e.1.2 ≠ 2%nat) after ∧
    Config_parse 0 (last_accepted (chars plain_file) (reads before)) = Ok c ∧
    contains same_payout (payouts c) owed = true.
Proof.
  refine (payouts_follow_file same_payout true true 3 (chars plain_file) plain_config morning turns
    (take 9 (history day)) 0 2 owed (Err "mint") (drop 10 (history day)) _ _).
  - vm_compute. reflexivity.
  - vm_compute. reflexivity.
Defined.
End Examples.
End Chores.
