(* ===== verification/Acme.v ===== *)
(** * Requests to the certificate authority ([acme_http.rs])

    [AcmeHttp::request] is what every request to the authority goes through, from
    the workers of all domains at once.  It asks the shared [Cooldown] first, and
    tells it when a response asks for a pause. *)
From S2P Require Import Prelude Text Net Effects Extern Models Flow LnPolicy Http Retry.
#[local] Open Scope string_scope.
#[local] Open Scope list_scope.
#[local] Open Scope Z_scope.

Module Acme.
Import Http Wait.

Definition Response : Type := Z * HeaderMap.

Inductive Cmd : Type → Type :=
| Ready : Cmd bool                             (** [cooldown.ready()] *)
| Send : Cmd (result anyhow Response)          (** with its timeout of 30 seconds *)
| Now : Cmd Z
| Defer (deadline : Z) : Cmd (result anyhow unit).

Section acme.
Context `{HttpLib, HttpDate}.

Definition request : proc Cmd (result anyhow Response) :=
  let! ready := perform Ready in
  if negb ready then return_ "CA Retry-After cooldown is active"
  else
    let! sent := perform Send in
    match sent with
    | Err error => return_ error
    | Ok response =>
        let! now := perform Now in
        match retry_deadline response.1 response.2 (i64_sat_add now 1) with
        | Some deadline =>
            (* the error of [defer] is logged only *)
            let! _ := perform (Defer deadline) in Done (Ok response)
        | None => Done (Ok response)
        end
    end.

(** ** Many requests, the clock, the disk and restarts *)

(** What a write to the store does: a failed one may have happened. *)
Inductive Disk := Works | Broken (happened : bool).
Definition written (k : Disk) : bool := match k with Works => true | Broken happened => happened end.
Record World := {
  clock : Z;
  cooldown : Cooldown;
  (** the next write to the store, and what the authority answers *)
  disk : Disk;
  reply : result anyhow Response
}.
Definition set_cooldown (c : Cooldown) (w : World) : World :=
  {| clock := clock w; cooldown := c; disk := disk w; reply := reply w |}.
Definition answer (X : Type) (c : Cmd X) (w : World) : World * X :=
  match c with
  | Ready => (w, cooldown_ready (cooldown w) (clock w))
  | Send => (w, reply w)
  | Now => (w, clock w)
  | Defer deadline =>
      (set_cooldown (defer deadline (written (disk w)) (cooldown w)) w,
       match disk w with Works => Ok tt | Broken _ => Err "write" end)
  end.

(** [Persist]: [certificate_loop] calls [persist] before it orders.  [Restart]: the
    process ends, at any moment, and the next one [load]s what was stored; requests
    of the old process are not needed any more, but are left in. *)
Inductive action := Arrive | Advance (i : nat) | Pass (now : Z) (disk : Disk) (reply : result anyhow Response)
| Persist | Restart.
Definition change (a : action) (w : World) : World :=
  match a with
  | Pass now disk reply => {| clock := now; cooldown := cooldown w; disk := disk; reply := reply |}
  | Persist => set_cooldown (persist (written (disk w)) (cooldown w)) w
  | Restart => set_cooldown (load (cooldown w)) w
  | Arrive | Advance _ => w
  end.
Abbreviation System := (Flow.system (Cmd := Cmd) (World := World) (Req := unit) (R := result anyhow Response)).
Definition act (s : System) (a : action) : System :=
  Flow.act (λ _, request) answer clock s
    match a with Arrive => Flow.Arrive tt | Advance i => Flow.Advance i | _ => Flow.Elapse (change a) end.
Definition acts (s : System) (l : list action) : System := fold_left act l s.
Definition play (w : World) (l : list action) : System := acts (Flow.begin w) l.

(** What a call says about the pauses: one that was recorded, one that was recorded
    and reported as saved, a check that let a request through, a request sent. *)
Definition deferred (e : event Cmd) : option Z :=
  match e with Ev c _ => match c with Defer deadline => Some deadline | _ => None end end.
Definition saved (e : event Cmd) : option Z :=
  match e with
  | Ev c x =>
      match c in Cmd X return X → option Z with
      | Defer deadline => λ r, if is_ok r then Some deadline else None
      | _ => λ _, None
      end x
  end.
Definition passed (e : event Cmd) : bool :=
  match e with
  | Ev c x => match c in Cmd X return X → bool with Ready => λ ready, ready | _ => λ _, false end x
  end.
Definition sent (e : event Cmd) : bool :=
  match e with Ev c _ => match c with Send => true | _ => false end end.
Abbreviation entry := (Z * nat * event Cmd)%type.

(** *** Barriers *)

(** The pause is in force, and it is in the file as well. *)
Definition held (d : Z) (s : System) : Prop := d ≤ until (cooldown (world s)).
Definition secured (d : Z) (s : System) : Prop := held d s ∧ d ≤ stored (cooldown (world s)).

(** An action adds at most one call to the history, and what that call says is so. *)
Lemma act_history s a :
  history (act s a) = history s ∨
  ∃ z, history (act s a) = history s ++ [z] ∧
    (passed z.2 = true → ∀ d, held d s → d ≤ z.1.1) ∧
    (∀ d, deferred z.2 = Some d → held d (act s a)) ∧ (∀ d, saved z.2 = Some d → secured d (act s a)).
Proof.
  unfold act. destruct a as [|i|now d r| |]; simpl; auto. destruct (tasks s !! i) as [t|]; [|by left].
  unfold Flow.advance. destruct (t_rest t) as [r|X c k]; [by left|]. right.
  unfold held, secured. destruct c; simpl; eexists; (split; [done|]); simpl; split_and!; try done.
  - intros Hr d Hd. unfold cooldown_ready in Hr. apply Z.leb_le in Hr. unfold held in Hd. lia.
  - intros d [= <-]. lia.
  - intros d. unfold secured, held. destruct (disk (world s)); simpl; [|done]. intros [= <-]. lia.
Qed.
Lemma act_held d s a : a ≠ Restart → held d s → held d (act s a).
Proof.
  intros Ha. unfold act, held. destruct a as [|i|now k r| |]; simpl; try done.
  destruct (tasks s !! i) as [t|]; [|done]. unfold Flow.advance. destruct (t_rest t) as [r|X c k]; [done|].
  destruct c; simpl; try done. lia.
Qed.
Lemma act_secured d s a : secured d s → secured d (act s a).
Proof.
  unfold act, secured, held. destruct a as [|i|now k r| |]; simpl; try done.
  - destruct (tasks s !! i) as [t|]; [|done]. unfold Flow.advance. destruct (t_rest t) as [r|X c k]; [done|].
    destruct c; simpl; try done. intros []. destruct (written _); lia.
  - intros []. by destruct (written _).
  - tauto.
Qed.

Lemma acts_app s l1 l2 : acts s (l1 ++ l2) = acts (acts s l1) l2.
Proof. unfold acts. by rewrite fold_left_app. Qed.
Lemma acts_cons s a l : acts s (a :: l) = acts (act s a) l.
Proof. done. Qed.
Lemma acts_history s l : ∃ h, history (acts s l) = history s ++ h.
Proof.
  induction l as [|a l [h Hh]] using rev_ind; [exists []; by rewrite app_nil_r|].
  rewrite acts_app. cbn. destruct (act_history (acts s l) a) as [->|(z & -> & _)]; rewrite Hh; [eauto|].
  rewrite <- app_assoc. eauto.
Qed.

(** While a pause is in force nothing is let through before it is over. *)
Section barrier.
Context (d : Z) (P : System → Prop) (A : action → Prop).
Hypothesis P_held : ∀ s, P s → held d s.
Hypothesis P_act : ∀ s a, A a → P s → P (act s a).
Lemma barrier_holds s l : P s → Forall A l → P (acts s l).
Proof.
  revert s. induction l as [|a l IH]; intros s Hs Hl; [done|]. apply Forall_cons in Hl as [Ha Hl]. apply IH; auto.
Qed.
Lemma barrier_passed s l h y :
  P s → Forall A l → history (acts s l) = history s ++ h → y ∈ h → passed y.2 = true → d ≤ y.1.1.
Proof.
  revert s h. induction l as [|a l IH]; intros s h Hs Hl Hh Hy Hp.
  - cbn in Hh. assert (h = []) as -> by (by apply (app_inv_head (history s)); rewrite app_nil_r). set_solver.
  - apply Forall_cons in Hl as [Ha Hl]. cbn [acts fold_left] in Hh. fold (acts (act s a) l) in Hh.
    destruct (act_history s a) as [E|(z & E & Hz & _)].
    + rewrite <- E in Hh. eapply (IH (act s a)); eauto.
    + destruct (acts_history (act s a) l) as [h' Hh']. rewrite Hh, E, <- app_assoc in Hh'.
      apply app_inv_head in Hh'. subst h. apply elem_of_cons in Hy as [->|Hy]; [eauto|].
      eapply (IH (act s a)); eauto. rewrite Hh, E. by rewrite <- app_assoc.
Qed.
End barrier.

Definition no_restart (l : list action) : Prop := Forall (λ a, a ≠ Restart) l.
Lemma held_passed d s l h y :
  held d s → no_restart l → history (acts s l) = history s ++ h → y ∈ h → passed y.2 = true → d ≤ y.1.1.
Proof. apply (barrier_passed d (held d)); [done|]. intros s' a Ha. by apply act_held. Qed.
Lemma secured_passed d s l h y :
  secured d s → history (acts s l) = history s ++ h → y ∈ h → passed y.2 = true → d ≤ y.1.1.
Proof.
  intros Hs. apply (barrier_passed d (secured d) (λ _, True)); try done.
  - by intros s' [].
  - intros s' a _. apply act_secured.
  - by apply Forall_forall.
Qed.

(** The moment at which a call was made. *)
Lemma history_split s l h1 x h2 :
  history (acts s l) = history s ++ h1 ++ x :: h2 →
  ∃ l1 a l2, l = l1 ++ a :: l2 ∧ history (act (acts s l1) a) = history s ++ h1 ++ [x] ∧
    (∀ d, deferred x.2 = Some d → held d (act (acts s l1) a)) ∧
    (∀ d, saved x.2 = Some d → secured d (act (acts s l1) a)).
Proof.
  revert h2. induction l as [|a l IH] using rev_ind; intros h2 Hh.
  { cbn in Hh. rewrite <- (app_nil_r (history s)) in Hh at 1. apply app_inv_head in Hh. by destruct h1. }
  rewrite acts_app in Hh. cbn in Hh.
  match goal with |- ?G => assert (∀ h, history (acts s l) = history s ++ h1 ++ x :: h → G) as IH' end.
  { intros h E. destruct (IH h E) as (l1 & b & l2 & -> & Hrest). exists l1, b, (l2 ++ [a]).
    rewrite <- app_assoc. exact (conj eq_refl Hrest). }
  destruct (act_history (acts s l) a) as [E|(z & E & _ & Hz1 & Hz2)]; rewrite E in Hh; [by apply (IH' h2)|].
  destruct h2 as [|u h2 _] using rev_ind.
  - rewrite app_assoc in Hh. pose proof Hh as [_ <-]%app_inj_tail.
    exists l, a, []. split_and!; [done| |done|done]. by rewrite E, Hh, <- app_assoc.
  - apply (IH' h2). assert (history s ++ h1 ++ x :: h2 ++ [u] = (history s ++ h1 ++ x :: h2) ++ [u]) as Eu
      by (by simplify_list_eq). rewrite Eu in Hh. by apply app_inj_tail in Hh as [-> _].
Qed.

(** *** What one request does *)

(** It is sent only when the cooldown was over. *)
Definition send_guard (tr : list (event Cmd)) (X : Type) (c : Cmd X) : Prop :=
  match c with Send => ∃ e, e ∈ tr ∧ passed e = true | _ => True end.
(** A response that asks for a pause is handed on after the pause is recorded. *)
Definition recorded (tr : list (event Cmd)) (r : result anyhow Response) : Prop :=
  match r with
  | Ok response =>
      ∃ now, Ev Now now ∈ tr ∧
        ∀ d, retry_deadline response.1 response.2 (i64_sat_add now 1) = Some d →
             ∃ e, e ∈ tr ∧ deferred e = Some d
  | Err _ => True
  end.
Lemma request_post : post send_guard request [] recorded.
Proof.
  unfold request. apply post_then, post_perform; [done|]. intros [|]; simpl; [|done].
  split; [eexists; split; [by constructor|done]|]. intros [response|e]; simpl; [|done].
  split; [done|]. intros now. destruct (retry_deadline _ _ _) as [deadline|] eqn:E; simpl.
  - split; [done|]. intros r. exists now. rewrite E. split; [set_solver|].
    intros d [= <-]. exists (Ev (Defer deadline) r). split; [set_solver|done].
  - exists now. rewrite E. split; [set_solver|done].
Qed.
Lemma coherent_acts w l : Flow.coherent (λ _, request) (play w l).
Proof.
  unfold play. assert (Flow.coherent (λ _, request) (Flow.begin w : System)) as Hc by apply coherent_begin.
  revert Hc. generalize (Flow.begin w : System). induction l as [|a l IH]; intros s Hc; [done|].
  apply IH. by apply coherent_act.
Qed.

(** C27: the authority's pauses are kept by everything that talks to it.  Whatever the
    authority answers, however the requests of many workers interleave, however the
    clock is set and whichever writes to the store fail: once a pause until [d] is
    recorded, no later check of the cooldown in the same process succeeds at a time
    before [d]; across any restarts no later check does so either, if the write of the
    pause was reported to have succeeded, or if a [persist] succeeded after it in the
    same process; each request is sent only after its own successful check; and a
    response that asks for a pause is returned only after that pause is recorded. *)
Theorem pauses_respected w l :
  let s := play w l in
  (∀ l1 l2 h1 x h2 y h3 d, l = l1 ++ l2 → no_restart l2 →
     history s = history (play w l1) ++ h1 ++ x :: h2 ++ y :: h3 →
     deferred x.2 = Some d → passed y.2 = true → d ≤ y.1.1) ∧
  (∀ h1 x h2 y h3 d, history s = h1 ++ x :: h2 ++ y :: h3 →
     saved x.2 = Some d → passed y.2 = true → d ≤ y.1.1) ∧
  (∀ l1 l2 l3 h1 x h2 h3 y d, l = l1 ++ l2 ++ Persist :: l3 → no_restart l2 →
     history (play w (l1 ++ l2)) = history (play w l1) ++ h1 ++ x :: h2 →
     disk (world (play w (l1 ++ l2))) = Works →
     history s = history (play w (l1 ++ l2)) ++ h3 → y ∈ h3 →
     deferred x.2 = Some d → passed y.2 = true → d ≤ y.1.1) ∧
  (∀ t tr1 e tr2, t ∈ tasks s → t_past t = tr1 ++ e :: tr2 → sent e = true →
     ∃ e', e' ∈ tr1 ∧ passed e' = true) ∧
  (∀ t r, t ∈ tasks s → t_rest t = Done r → recorded (t_past t) r).
Proof.
  intros s. destruct (coherent_acts w l) as [Hc _]. rewrite Forall_forall in Hc. split_and!.
  - intros l1 l2 h1 x h2 y h3 d -> Hl Hh Hx Hy. unfold s, play in Hh. rewrite acts_app in Hh.
    pose proof Hh as (k1 & a & k2 & -> & Ha & Hd & _)%history_split. rewrite acts_app, acts_cons in Hh.
    eapply (held_passed d _ k2 (h2 ++ y :: h3)); [by apply Hd| | |set_solver|done].
    + apply Forall_app in Hl as [_ Hl]. by apply Forall_cons in Hl as [_ Hl].
    + rewrite Hh, Ha. by simplify_list_eq.
  - intros h1 x h2 y h3 d Hh Hx Hy. unfold s, play in Hh.
    pose proof (history_split (Flow.begin w) l h1 x (h2 ++ y :: h3) Hh) as (k1 & a & k2 & -> & Ha & _ & Hd).
    rewrite acts_app, acts_cons in Hh.
    eapply (secured_passed d _ k2 (h2 ++ y :: h3)); [by apply Hd| |set_solver|done].
    rewrite Hh, Ha. by simplify_list_eq.
  - intros l1 l2 l3 h1 x h2 h3 y d -> Hl Hh Hk Hs Hin Hx Hy. unfold s, play in *. rewrite app_assoc, acts_app, acts_cons in Hs.
    assert (held d (acts (Flow.begin w) (l1 ++ l2))) as Hd.
    { rewrite acts_app in Hh |- *. pose proof Hh as (k1 & a & k2 & -> & _ & Hd & _)%history_split.
      rewrite acts_app, acts_cons. apply (barrier_holds (held d) (λ a, a ≠ Restart)); [|by apply Hd|].
      - intros s' b Hb. by apply act_held.
      - apply Forall_app in Hl as [_ Hl]. by apply Forall_cons in Hl as [_ Hl]. }
    eapply (secured_passed d (act (acts (Flow.begin w) (l1 ++ l2)) Persist) l3); [|exact Hs|done|done].
    unfold secured, held in *. simpl. by rewrite Hk.
  - intros t tr1 e tr2 Ht Hp He.
    pose proof (post_calls _ _ _ [] _ _ request_post (Hc t Ht) tr1 e tr2 Hp) as Hg.
    by destruct e as [X [] x].
  - intros t r Ht Hr. specialize (Hc t Ht). rewrite Hr in Hc.
    exact (post_steps _ _ [] _ _ _ request_post Hc).
Qed.
End acme.

(** ** A concrete run *)

Module Examples.
Import Toy.
#[local] Instance no_dates : HttpDate := λ _, None.
Definition busy (k : Disk) : World :=
  {| clock := 100; cooldown := {| until := 0; stored := 0 |}; disk := k; reply := Ok (429, []) |}.
(** A request is told to wait, the process restarts, another is refused, a third is sent. *)
Definition example_actions : list action :=
  [Arrive; Advance 0; Advance 0; Advance 0; Advance 0; Restart; Arrive; Advance 1;
   Pass 200 Works (Ok (200, [])); Arrive; Advance 2; Advance 2].
Lemma pauses_respected_witness :
  (λ x, passed x.2) <$> history (play (busy Works) example_actions) = [true; false; false; false; false; true; false] ∧
  (∃ x y, history (play (busy Works) example_actions) !! 3%nat = Some x ∧ saved x.2 = Some 161 ∧
          history (play (busy Works) example_actions) !! 5%nat = Some y ∧ 161 ≤ y.1.1).
Proof.
  split; [vm_compute; reflexivity|].
  destruct (pauses_respected (busy Works) example_actions) as (_ & H & _).
  eexists _, _. split; [vm_compute; reflexivity|]. split; [reflexivity|]. split; [vm_compute; reflexivity|].
  refine (H (take 3 (history (play (busy Works) example_actions))) _
            (take 1 (drop 4 (history (play (busy Works) example_actions)))) _
            (drop 6 (history (play (busy Works) example_actions))) 161 _ _ _); vm_compute; reflexivity.
Defined.
(** When the write fails and the process ends before the pause is persisted, the
    next one does not know of it. *)
Example unsaved_pause_is_lost :
  (λ x, (saved x.2, passed x.2)) <$>
    history (play (busy (Broken false)) [Arrive; Advance 0; Advance 0; Advance 0; Advance 0; Restart; Arrive; Advance 1]) =
  [(None, true); (None, false); (None, false); (None, false); (None, true)].
Proof. vm_compute. reflexivity. Qed.
End Examples.
End Acme.
