(* ===== verification/Logging.v ===== *)
(** * Log filter ([logging.rs])

    The filter on the listener's error messages, and the layer [main] builds with
    it. *)
From S2P Require Import Prelude Text Net RateLimit Capacity Connections.
#[local] Open Scope string_scope.
#[local] Open Scope list_scope.
#[local] Open Scope Z_scope.

Module Logging.

(** ** The filter *)

(** The time of the last failure shown, in nanoseconds of the monotonic clock;
    [duration_since] of a later instant is zero. *)
Definition HandshakeSample : Type := option Z.
Definition allow (now : Z) (s : HandshakeSample) : bool * HandshakeSample :=
  if is_some_and (λ last, Z.max (now - last) 0 <? 10 * 1000000000) s then (false, s)
  else (true, Some now).

Inductive Level := ERROR | WARN | INFO | DEBUG | TRACE.
(** A recorded value: a string, or what [{:?}] prints for another type. *)
Inductive FieldValue := StrValue (text : string) | DebugValue (text : string).
(** The normalized target and level, and the fields in the order they are recorded. *)
Record Event := { target : string; level : Level; fields : list (string * FieldValue) }.

(** The visitor [Message]. *)
Definition record_debug (m : string) (field text : string) : string := if (field =? "message")%string then text else m.
Definition record_str (m : string) (field text : string) : string := if (field =? "message")%string then text else m.
Definition record_field (m : string) (f : string * FieldValue) : string :=
  match f.2 with StrValue text => record_str m f.1 text | DebugValue text => record_debug m f.1 text end.
Definition message (e : Event) : string := fold_left record_field (fields e) "".

Definition listener_error (e : Event) : bool :=
  (target e =? "pingora_core::services::listening")%string && match level e with ERROR => true | _ => false end.
Definition capacity_failure (e : Event) : bool :=
  starts_with "Downstream handshake error" (message e)
  && ends_with Connections.CAPACITY_ERROR (message e).
Definition client_failure (e : Event) : bool :=
  (message e =? "Downstream handshake timeout")%string
  || (starts_with "Downstream handshake error" (message e)
      && contains "TLSHandshakeFailure" (message e)
      && contains "TLS accept() failed:" (message e)).
Definition event_enabled (now : Z) (e : Event) (s : HandshakeSample) : bool * HandshakeSample :=
  if negb (listener_error e) then (true, s)
  else if capacity_failure e then (false, s)
  else if negb (client_failure e) then (true, s)
  else allow now s.

(** A log: each event with its time and whether it was shown. *)
Fixpoint filtered (s : HandshakeSample) (l : list (Z * Event)) : list (Z * Event * bool) :=
  match l with
  | [] => []
  | (now, e) :: l' => let '(shown, s') := event_enabled now e s in (now, e, shown) :: filtered s' l'
  end.

Definition sampled (x : Z * Event * bool) : bool :=
  let '(_, e, _) := x in listener_error e && negb (capacity_failure e) && client_failure e.
Definition shown_sample (x : Z * Event * bool) : bool := sampled x && x.2.

(** [spaced s l]: the samples shown in [l] are ten seconds apart, and each sample that
    is hidden follows one shown within ten seconds. *)
Fixpoint spaced (s : HandshakeSample) (l : list (Z * Event * bool)) : Prop :=
  match l with
  | [] => True
  | x :: l' =>
      if sampled x then
        if x.2 then (∀ last, s = Some last → 10 * 1000000000 ≤ x.1.1 - last) ∧ spaced (Some x.1.1) l'
        else (∃ last, s = Some last ∧ x.1.1 - last < 10 * 1000000000) ∧ spaced s l'
      else x.2 = negb (listener_error x.1.2 && capacity_failure x.1.2) ∧ spaced s l'
  end.

(** Everything is shown but the rejections that are counted elsewhere and client
    failures that follow another one within ten seconds; of those, one in ten seconds
    is shown. *)
Theorem log_filtered s l : spaced s (filtered s l).
Proof.
  revert s. induction l as [|[now e] l IH]; intros s; [done|]. cbn [filtered].
  unfold event_enabled. destruct (listener_error e) eqn:El; cbn [negb].
  2: { cbn [spaced sampled]. rewrite El. cbn. rewrite El. by split. }
  destruct (capacity_failure e) eqn:Ec.
  { cbn [spaced sampled]. rewrite El, Ec. cbn. rewrite El, Ec. by split. }
  destruct (client_failure e) eqn:Ef; cbn [negb].
  2: { cbn [spaced sampled]. rewrite El, Ec, Ef. cbn. rewrite El, Ec. by split. }
  unfold allow. destruct s as [last|]; cbn [is_some_and].
  - destruct (Z.ltb_spec (Z.max (now - last) 0) (10 * 1000000000)); cbn [spaced sampled];
      rewrite El, Ec, Ef; cbn [negb andb fst snd].
    + split; [exists last; split; [done|lia]|apply IH].
    + split; [intros ? [= <-]; lia|apply IH].
  - cbn [spaced sampled]. rewrite El, Ec, Ef. cbn [negb andb fst snd]. split; [done|apply IH].
Qed.

(** ** The layer

    [main] writes an event when the filter the operator asked for, the filter on
    dependencies and the filter above agree; the last one sees only events that
    passed the others. *)

Definition safe_dependencies (e : Event) : bool :=
  negb (starts_with "cdk" (target e))
  && negb (starts_with "cashu" (target e))
  && (negb (match level e with TRACE => true | _ => false end)
      || negb (starts_with "pingora_proxy" (target e))).

Section layer.
Context (requested : Event → bool).

Definition passes (e : Event) : bool := requested e && safe_dependencies e.
Definition layer_enabled (now : Z) (e : Event) (s : HandshakeSample) : bool * HandshakeSample :=
  if passes e then event_enabled now e s else (false, s).
Fixpoint written (s : HandshakeSample) (l : list (Z * Event)) : list (Z * Event * bool) :=
  match l with
  | [] => []
  | (now, e) :: l' => let '(shown, s') := layer_enabled now e s in (now, e, shown) :: written s' l'
  end.

(** Whatever the operator asks for, nothing of the wallet libraries is written, nor
    the trace events of the proxy library, which have the headers of requests; and
    hidden events leave the sampling of the others as it is. *)
Theorem secrets_not_written s l :
  Forall (λ x, x.2 = true → passes x.1.2 = true) (written s l) ∧
  List.filter (λ x, passes x.1.2) (written s l) = filtered s (List.filter (λ x, passes x.2) l).
Proof.
  revert s. induction l as [|[now e] l IH]; intros s; [by split|]. cbn [written List.filter fst snd].
  unfold layer_enabled. destruct (passes e) eqn:Ep.
  - cbn [filtered]. destruct (event_enabled now e s) as [shown s']. destruct (IH s') as [Hs Hf].
    split; [by constructor|]. cbn [List.filter fst snd]. by rewrite Ep, Hf.
  - destruct (IH s) as [Hs Hf]. split; [by constructor|]. cbn [List.filter fst snd]. by rewrite Ep.
Qed.
End layer.
End Logging.
