(* ===== verification/Client.v ===== *)
(** * A paying client ([examples/lightning_client.rs])

    The client that ships with the proxy: it asks for a URL, takes the invoice out
    of a 402 answer, waits for the user to pay it, and asks again with the proof.
    It reads the challenges of [LnStore] and writes the headers that [Proxy] and
    [LnProof] read, so its theorems say that the two sides of the protocols fit. *)
From S2P Require Import Prelude Text Net Effects Extern Models Flow Terms LnPolicy Http LnProof LnStore Config State Proxy.
#[local] Open Scope string_scope.
#[local] Open Scope list_scope.
#[local] Open Scope Z_scope.

#[local] Set Warnings "-register-all".

Module Client.
Import Ln Http Proofs.

(** ** JSON values *)

(** [serde_json::Value]; an object is its members, a number an integer or the text
    of something else. *)
Inductive Value :=
| Null
| Bool (b : bool)
| Number (n : Z)
| Float (text : string)
| Str (s : string)
| Array (l : list Value)
| Object (m : list (string * Value)).

Fixpoint member (k : string) (m : list (string * Value)) : option Value :=
  match m with
  | [] => None
  | (k', v) :: m' => if bool_decide (k' = k) then Some v else member k m'
  end.
(** [value[k]]: null when there is no such member *)
Definition index (k : string) (v : Value) : Value :=
  match v with Object m => default Null (member k m) | _ => Null end.
Definition as_str (v : Value) : option string := match v with Str s => Some s | _ => None end.
Definition as_array (v : Value) : option (list Value) := match v with Array l => Some l | _ => None end.
(** [value == "text"], [value == 2] *)
Definition is_str (s : string) (v : Value) : bool :=
  match v with Str s' => bool_decide (s' = s) | _ => false end.
Definition is_number (n : Z) (v : Value) : bool := match v with Number n' => n' =? n | _ => false end.

(** The order of the members of an object does not matter. *)
Inductive same_value : Value → Value → Prop :=
| same_refl v : same_value v v
| same_array l l' : Forall2 same_value l l' → same_value (Array l) (Array l')
| same_object m m' :
    (∀ k, option_Forall2 same_value (member k m) (member k m')) → same_value (Object m) (Object m').
Infix "≈" := same_value (at level 70).

(** ** The structures of the protocol as values *)

(** [Serialize] of [Requirements], with [rename_all = "camelCase"] *)
Definition requirements_value (r : Requirements) : Value :=
  Object [("scheme", Str (scheme r)); ("network", Str (req_network r)); ("amount", Str (amount r));
          ("asset", Str (asset r)); ("payTo", Str (req_pay_to r));
          ("maxTimeoutSeconds", Number (max_timeout_seconds r));
          ("extra", Object
             [("assetTransferMethod", match asset_transfer_method (extra r) with
                                      | Some s => Str s | None => Null end);
              ("paymentFlow", Str (payment_flow (extra r)));
              ("requestHash", Str (extra_request_hash (extra r)));
              ("requestBindingProfile", Str (request_binding_profile (extra r)));
              ("requestBindingParams", Object
                 [("headers", Array (Str <$> bound_names (request_binding_params (extra r))))]);
              ("invoice", Str (invoice (extra r)))])].
(** The [json!] of [Lightning::challenge] *)
Definition challenge_value (url : string) (r : Requirements) : Value :=
  Object [("x402Version", Number 2); ("resource", Object [("url", Str url)]);
          ("accepts", Array [requirements_value r])].
(** The [json!] of the client *)
Definition payment_value (accepted : Value) (preimage : string) : Value :=
  Object [("x402Version", Number 2); ("accepted", accepted);
          ("payload", Object [("preimage", Str preimage)])].

(** [serde_json]'s text of a value, and the laws that tie the derived
    (de)serializers of the server to it. *)
Class JsonText := { json_parse : string → result anyhow Value; json_print : Value → string }.
Class JsonTextLaws `{JsonText, LnJson, Service.StoreJson} := {
  json_parse_print : ∀ v, ∃ v', json_parse (json_print v) = Ok v' ∧ v ≈ v';
  json_challenge_print : ∀ url r, Service.json_challenge url r = json_print (challenge_value url r);
  json_payment_print : ∀ r v preimage, requirements_value r ≈ v →
    json_payment (json_print (payment_value v preimage)) =
    Ok {| x402_version := 2; accepted := r; payload := {| Proofs.preimage := preimage |} |}
}.

(** ** The client *)

Inductive Protocol := L402 | X402.
Record Response := { status : Z; resp_headers : HeaderMap; body : string }.

Inductive Cmd : Type → Type :=
| Connector : Cmd (result anyhow unit)            (** the certificates of the platform *)
(** a GET with an extra header: status, headers and at most a MiB of body, within the
    timeouts *)
| Get (url : string) (extra : option (string * string)) : Cmd (result anyhow Response)
| ShowStatus (status : Z) : Cmd unit
| ShowText (text : string) : Cmd unit
| Flush : Cmd (result anyhow unit)
| WriteAll (bytes : string) : Cmd (result anyhow unit)
| ShowInvoice (invoice : string) (amount : Z) (currency : Currency) : Cmd unit
| IsExpired (inv : Invoice) : Cmd bool            (** by the clock of the client *)
| ReadLine : Cmd (result anyhow (list char)).
Abbreviation step A := (proc Cmd (result anyhow A)).
Definition lift {A} (r : result anyhow A) : step A := Done r.

Section client.
Context `{UrlLib, HttpLib, Sha256, InvoiceLib, Base64, JsonText}.

Definition missing_challenge (headers : HeaderMap) (expected : string) : string :=
  let advertised := List.filter (λ name, contains_key name headers)
                      ["www-authenticate"; "payment-required"; "x-cashu"] in
  let advertised := if bool_decide (advertised = []) then "none" else String.concat ", " advertised in
  "402 response is missing " +:+ expected +:+ ". Payment-related headers present: " +:+ advertised +:+
  ". The client --protocol flag does not enable server support. Check the site's lightning_pay and lightning_protocols settings. Geata can return a Cashu-only challenge when Lightning invoice creation or request binding is unavailable.".

(** An [.. exact Lightning BOLT11 offer] *)
Definition lightning_offer (offer : Value) : bool :=
  is_str "exact" (index "scheme" offer)
  && is_str "BTC" (index "asset" offer)
  && is_some_and (starts_with "lnbtc:") (as_str (index "network" offer))
  && is_str "bolt11" (index "assetTransferMethod" (index "extra" offer))
  && is_str "upfront" (index "paymentFlow" (index "extra" offer)).

(** The invoice, the macaroon and the accepted offer of a challenge. *)
Definition read_challenge (protocol : Protocol) (headers : HeaderMap) :
    result anyhow (string * string * Value) :=
  match protocol with
  | L402 =>
      value ← ok_or (missing_challenge headers "WWW-Authenticate (L402)") (get "www-authenticate" headers);
      header ← ok_or "failed to convert header to a str" (header_to_str value);
      '(macaroon, invoice) ← ok_or "Expected Geata's L402 macaroon/invoice challenge"
        (v ← strip_prefix ("L402 macaroon=" +:+ Service.quote_char) header;
         v ← strip_suffix Service.quote_char v;
         split_once_str (Service.quote_char +:+ ", invoice=" +:+ Service.quote_char) v);
      mret (invoice, macaroon, Null)
  | X402 =>
      value ← ok_or (missing_challenge headers "PAYMENT-REQUIRED (x402)") (get "payment-required" headers);
      header ← ok_or "failed to convert header to a str" (header_to_str value);
      bytes ← std_decode header;
      required ← json_parse bytes;
      _ ← ensure (is_number 2 (index "x402Version" required)) "Expected x402 v2";
      offers ← ok_or "Missing accepts" (as_array (index "accepts" required));
      accepted ← ok_or "No exact Lightning BOLT11 offer" (List.find lightning_offer offers);
      invoice ← ok_or "Missing invoice" (as_str (index "invoice" (index "extra" accepted)));
      mret (invoice, "", accepted)
  end.

Definition is_ascii_hexdigit (c : ascii) : bool :=
  is_ascii_digit c || in_range 97 102 (byte_val c) || in_range 65 70 (byte_val c).

(** The preimage in the user's answer: its text, checked against the invoice. *)
Definition read_preimage (input : list char) (inv : Invoice) : result anyhow string :=
  let preimage := to_ascii_lowercase (utf8 (trim input)) in
  _ ← ensure ((slen preimage =? 64)%nat && bytes_all is_ascii_hexdigit preimage) "Expected 32 bytes of hex";
  bytes ← decode_pairs preimage;
  _ ← ensure (bool_decide (sha256 bytes = inv_payment_hash inv)) "Preimage does not match invoice";
  mret preimage.

(** The header that carries the proof. *)
Definition credential (protocol : Protocol) (macaroon : string) (accepted : Value) (preimage : string) :
    string * string :=
  match protocol with
  | L402 => ("authorization", "L402 " +:+ macaroon +:+ ":" +:+ preimage)
  | X402 => ("payment-signature", std_encode (json_print (payment_value accepted preimage)))
  end.

Definition success (status : Z) : bool := in_range 200 299 status.

(** The requests until the first 402; its headers. *)
Fixpoint ask (url : string) (requests : nat) : step (option HeaderMap) :=
  match requests with
  | O => Done (Ok None)
  | S requests =>
      let! response := try_ (Get url None) in
      let! _ := perform (ShowStatus (status response)) in
      if status response =? 402 then Done (Ok (Some (resp_headers response)))
      else
        let! _ := perform (ShowText (body response)) in
        let! _ := (if negb (bool_decide (body response = "")) && negb (ends_with (String "010" "") (body response))
                   then perform (ShowText (String "010" "")) else Done (Ok tt)) in
        let! _ := lift (ensure (success (status response)) "Expected success or 402; redirects are not followed") in
        ask url requests
  end.

Definition check_url (url : Url) : result anyhow unit :=
  _ ← ensure (bool_decide (url_username url = "") && is_none (url_password url)) "URL credentials are unsupported";
  _ ← ensure (is_none (url_fragment url)) "URL fragments are unsupported";
  ensure (bool_decide (url_scheme url = "https")
          || (bool_decide (url_scheme url = "http") && Terms.url_loopback url))
    "Use HTTPS or loopback HTTP".

(** From the challenge to the retry. *)
Definition pay (protocol : Protocol) (url : string) (headers : HeaderMap) : step unit :=
  let! challenge := lift (read_challenge protocol headers) in
  let '(invoice, macaroon, accepted) := challenge in
  let! parsed := lift (ok_or "Invalid BOLT11 invoice" (parse_invoice invoice)) in
  let! expired := perform (IsExpired parsed) in
  let! _ := lift (ensure (negb expired) "Invoice expired") in
  let! amount := lift (ok_or "Invoice has no amount" (inv_amount_msat parsed)) in
  let! _ := perform (ShowInvoice invoice amount (inv_currency parsed)) in
  let! _ := perform (ShowText "Review and pay this invoice in your Lightning wallet, then paste its 64-character hex payment preimage.") in
  let! _ := perform (ShowText "Preimage: ") in
  let! _ := try_ Flush in
  let! input := try_ ReadLine in
  let! preimage := lift (read_preimage input parsed) in
  let! response := try_ (Get url (Some (credential protocol macaroon accepted preimage))) in
  let! _ := perform (ShowStatus (status response)) in
  let! _ := try_ (WriteAll (body response)) in
  lift (ensure (success (status response)) "Paid retry returned an error").

Definition main (protocol : Protocol) (url : string) (requests : nat) : step unit :=
  let! url := lift (url_parse url) in
  let! _ := lift (check_url url) in
  let! _ := try_ Connector in
  let! challenge := ask (url_as_str url) requests in
  match challenge with
  | Some headers => pay protocol (url_as_str url) headers
  | None => let! _ := perform (ShowText (String "010" "No payment needed. Use --requests to exhaust a free allowance on your test endpoint.")) in
            Done (Ok tt)
  end.

(** ** The values *)

Lemma same_str s v : Str s ≈ v → v = Str s.
Proof. by inversion 1. Qed.
Lemma same_number n v : Number n ≈ v → v = Number n.
Proof. by inversion 1. Qed.
Lemma index_same k v v' : v ≈ v' → index k v ≈ index k v'.
Proof.
  destruct 1 as [v|l l' Hl|m m' Hm]; simpl; [constructor..|].
  destruct (Hm k); simpl; [done|constructor].
Qed.
Lemma index_str k v v' s : v ≈ v' → index k v = Str s → index k v' = Str s.
Proof. intros Hv Hs. apply same_str. rewrite <- Hs. by apply index_same. Qed.
Lemma index_array k v v' x :
  v ≈ v' → index k v = Array [x] → ∃ x', index k v' = Array [x'] ∧ x ≈ x'.
Proof.
  intros Hv Ha. pose proof (index_same k v v' Hv) as Hs. rewrite Ha in Hs.
  inversion Hs as [|l l' Hl|]; subst; [by exists x; split; [|constructor]|].
  apply Forall2_cons_inv_l in Hl as (x' & l'' & Hx & Hl & ->). apply Forall2_nil_inv_l in Hl as ->.
  by exists x'.
Qed.

(** The client accepts the offer of a policy and finds its invoice. *)
Lemma offer_accepted p hash inv v :
  is_network (network (receiver p)) = true → requirements_value (requirements p hash inv) ≈ v →
  lightning_offer v = true ∧ as_str (index "invoice" (index "extra" v)) = Some inv.
Proof.
  intros Hn Hv. pose proof (index_same "extra" _ _ Hv) as He.
  assert (starts_with "lnbtc:" (network (receiver p)) = true) as Hp.
  { unfold is_network in Hn. apply orb_true_iff in Hn as [->%bool_decide_eq_true| ->%bool_decide_eq_true]; reflexivity. }
  unfold lightning_offer.
  rewrite (index_str "scheme" _ _ "exact" Hv), (index_str "asset" _ _ "BTC" Hv),
    (index_str "network" _ _ (network (receiver p)) Hv), (index_str "assetTransferMethod" _ _ "bolt11" He),
    (index_str "paymentFlow" _ _ "upfront" He), (index_str "invoice" _ _ inv He) by reflexivity.
  simpl. by rewrite Hp.
Qed.

Lemma read_preimage_hex input inv pre :
  to_ascii_lowercase (utf8 (trim input)) = hex pre → slen pre = 32%nat → sha256 pre = inv_payment_hash inv →
  read_preimage input inv = Ok (hex pre).
Proof.
  intros Hi Hl Hs. unfold read_preimage. rewrite Hi, slen_hex, Hl. simpl.
  assert (bytes_all is_ascii_hexdigit (hex pre) = true) as ->.
  { eapply bytes_all_impl; [|apply lowercase_hex_hex]. intros c. unfold is_ascii_hexdigit.
    rewrite !orb_true_iff. tauto. }
  simpl. rewrite decode_pairs_hex. simpl. by rewrite bool_decide_eq_true_2.
Qed.

(** ** Runs that pay *)

(** The answers of a run in which the proxy asks for payment at once, the invoice is
    still valid, and the user pastes the preimage. *)
Record paying (answer : ∀ X, Cmd X → X) (url : string) (u : Url) (hs : HeaderMap) (inv : Invoice)
    (pre : string) : Prop := {
  py_url : url_parse url = Ok u;
  py_check : check_url u = Ok tt;
  py_connector : answer _ Connector = Ok tt;
  py_first : ∃ text, answer _ (Get (url_as_str u) None) = Ok {| status := 402; resp_headers := hs; body := text |};
  py_valid : answer _ (IsExpired inv) = false;
  py_amount : is_Some (inv_amount_msat inv);
  py_flush : answer _ Flush = Ok tt;
  py_input : ∃ input, answer _ ReadLine = Ok input ∧ to_ascii_lowercase (utf8 (trim input)) = hex pre;
  py_length : slen pre = 32%nat;
  py_proof : sha256 pre = inv_payment_hash inv
}.

(** The retry is made with the credential for the challenge. *)
Lemma main_sends answer protocol url u hs invoice macaroon accepted inv pre requests :
  paying answer url u hs inv pre → (1 ≤ requests)%nat →
  read_challenge protocol hs = Ok (invoice, macaroon, accepted) → parse_invoice invoice = Some inv →
  let retry := Get (url_as_str u) (Some (credential protocol macaroon accepted (hex pre))) in
  calls answer (main protocol url requests) (Ev retry (answer _ retry)).
Proof.
  intros [Hu Hc Hco [text Hf] Hv [amount Ha] Hfl (input & Hi & Hx) Hl Hp] Hn Hr Hinv retry.
  unfold main. do 2 (eapply calls_then; [cbn; eassumption|]). eapply calls_then; [cbn; by rewrite Hco|].
  destruct requests as [|requests]; [lia|].
  eapply (calls_then _ _ _ (Some hs)); [cbn; by rewrite Hf|].
  unfold pay. eapply calls_then; [cbn; eassumption|]. cbv beta iota.
  eapply calls_then; [cbn; by rewrite Hinv|]. eapply calls_then; [reflexivity|]. rewrite Hv.
  eapply calls_then; [reflexivity|]. eapply calls_then; [cbn; by rewrite Ha|].
  do 3 (eapply calls_then; [reflexivity|]).
  eapply calls_then; [cbn; by rewrite Hfl|]. eapply calls_then; [cbn; by rewrite Hi|].
  eapply calls_then; [by apply read_preimage_hex|]. apply calls_try_first.
Qed.

Context `{!HttpVisible, !Base64Laws}.

Lemma base64_visible s : bytes_all visible (std_encode s) = true.
Proof.
  eapply bytes_all_impl; [|apply std_encode_alphabet]. intros c. unfold base64_char, visible.
  unfold is_ascii_alphanumeric, is_ascii_digit, is_ascii_lower, is_ascii_upper, in_range.
  rewrite !orb_true_iff, !andb_true_iff, !bool_decide_eq_true, !Z.leb_le.
  intros [[[[[?|?]|?]| ->]| ->]| ->]; right; try (vm_compute; split; discriminate); lia.
Qed.
Lemma hex_visible s : bytes_all visible (hex s) = true.
Proof.
  eapply bytes_all_impl; [|apply lowercase_hex_hex]. intros c. unfold visible, is_ascii_digit, in_range.
  rewrite !orb_true_iff, !andb_true_iff, !Z.leb_le. lia.
Qed.

(** *** L402 *)

Lemma read_l402 hs bin invoice :
  get "www-authenticate" hs = Some (Service.l402_header (std_encode bin) invoice) →
  bytes_all visible invoice = true →
  read_challenge L402 hs = Ok (invoice, std_encode bin, Null).
Proof.
  intros Hg Hi. unfold read_challenge. rewrite Hg. cbn [ok_or mbind result_bind].
  rewrite header_to_str_visible.
  2: { unfold Service.l402_header. rewrite !bytes_all_app, base64_visible, Hi. reflexivity. }
  cbn [ok_or mbind result_bind].
  assert (Service.l402_header (std_encode bin) invoice =
    ("L402 macaroon=" +:+ Service.quote_char) +:+
    ((std_encode bin +:+ (Service.quote_char +:+ ", invoice=" +:+ Service.quote_char) +:+ invoice)
     +:+ Service.quote_char)) as ->.
  { unfold Service.l402_header. by rewrite <- !str_app_assoc. }
  rewrite strip_prefix_app. cbn [mbind option_bind]. rewrite strip_suffix_app. cbn [mbind option_bind].
  change (Service.quote_char +:+ ", invoice=" +:+ Service.quote_char)
    with (String "034" (", invoice=" +:+ Service.quote_char)).
  rewrite split_once_str_app; [done|]. by apply std_encode_without.
Qed.
Lemma l402_mint_encoded `{LnJson, HmacSha256, MacaroonLib} p hash inv root nonce key vb encoded :
  l402_mint p hash inv root nonce = Ok (key, vb, encoded) → ∃ bin, encoded = std_encode bin.
Proof. unfold l402_mint. intros Hm. inv_ok. simplify_eq. eauto. Qed.

(** What the proxy reads in the header of the client. *)
Lemma credential_read bin pre :
  (slen (std_encode bin) + 65 ≤ MAX_PAYMENT_HEADER)%nat → slen pre = 32%nat →
  Front.l402_credential ("L402 " +:+ std_encode bin +:+ ":" +:+ hex pre) =
  Some (std_encode bin +:+ ":" +:+ hex pre).
Proof.
  intros Hs Hp. unfold Front.l402_credential. rewrite header_to_str_visible.
  2: { rewrite !bytes_all_app, base64_visible, hex_visible. reflexivity. }
  cbn [mbind option_bind]. change ("L402 " +:+ ?s) with ("L402" +:+ String " " s).
  rewrite split_once_app by reflexivity. cbn [mbind option_bind].
  rewrite !slen_app, slen_hex, Hp, (proj2 (Nat.leb_le _ _)) by (simpl in *; lia).
  rewrite bool_decide_eq_false_2; [reflexivity|]. by destruct (std_encode bin).
Qed.

(** The bundled client can pay a proxy by L402.  The proxy minted a credential for
    a request and advertised it with a valid invoice; the client, run on that answer
    by a user who pays and pastes the preimage, repeats its request with an
    [Authorization] header from which the proxy reads a credential that it parses,
    finds the journal record of, and accepts for that request until it expires. *)
Theorem client_pays_l402 `{LnJson, HmacSha256, MacaroonLib, !Sha256Laws, !MacaroonLaws, !InvoiceLaws}
    answer url u hs invoice inv pre requests p hash root nonce key vb encoded time :
  paying answer url u hs inv pre → (1 ≤ requests)%nat →
  l402_mint p hash inv root nonce = Ok (key, vb, encoded) → slen nonce = 32%nat →
  get "www-authenticate" hs = Some (Service.l402_header encoded invoice) →
  parse_invoice invoice = Some inv → bytes_all visible invoice = true → str_is_ascii hash = true →
  (slen encoded + 65 ≤ MAX_PAYMENT_HEADER)%nat → time < vb →
  ∃ value credential macaroon,
    let retry := Get (url_as_str u) (Some ("authorization", value)) in
    calls answer (main L402 url requests) (Ev retry (answer _ retry)) ∧
    Front.l402_credential value = Some credential ∧
    parse_credential credential = Ok (macaroon, pre) ∧
    digest (mac_identifier macaroon) = key ∧
    id_payment_hash (mac_identifier macaroon) = inv_payment_hash inv ∧
    l402_verify p hash macaroon pre root vb time = Ok tt.
Proof.
  intros Hpay Hn Hm Hnonce Hg Hinv Hi Hh Hs Ht.
  destruct (l402_mint_encoded _ _ _ _ _ _ _ _ Hm) as [bin ->].
  pose proof (py_length _ _ _ _ _ _ Hpay) as Hl.
  destruct (l402_mint_verify p hash inv root nonce key vb _ pre time Hm
              (inv_created_u64 _ _ Hinv) (inv_expiry_u64 _ _ Hinv) Hnonce Hl (py_proof _ _ _ _ _ _ Hpay) Hh Hs Ht)
    as (macaroon & Hparse & Hkey & Hid & Hv).
  exists ("L402 " +:+ std_encode bin +:+ ":" +:+ hex pre), (std_encode bin +:+ ":" +:+ hex pre), macaroon.
  split; [|by rewrite credential_read].
  by apply (main_sends _ L402 _ _ hs invoice (std_encode bin) Null inv pre requests Hpay Hn), Hinv; apply read_l402.
Qed.

(** *** x402 *)

Context `{LnJson, Service.StoreJson, !JsonTextLaws}.

Lemma read_x402 hs resource p hash invoice :
  is_network (network (receiver p)) = true →
  get "payment-required" hs =
    Some (std_encode (Service.json_challenge resource (requirements p hash invoice))) →
  ∃ offer, read_challenge X402 hs = Ok (invoice, "", offer) ∧
    requirements_value (requirements p hash invoice) ≈ offer.
Proof.
  intros Hn Hg. unfold read_challenge. rewrite Hg. cbn [ok_or mbind result_bind].
  rewrite header_to_str_visible by apply base64_visible. cbn [ok_or mbind result_bind].
  rewrite std_decode_encode, json_challenge_print. cbn [mbind result_bind].
  destruct (json_parse_print (challenge_value resource (requirements p hash invoice))) as (v & Hv & Hs).
  rewrite Hv. cbn [mbind result_bind].
  assert (index "x402Version" v = Number 2) as ->.
  { apply same_number. apply (index_same "x402Version" _ _ Hs). }
  destruct (index_array "accepts" _ _ (requirements_value (requirements p hash invoice)) Hs eq_refl) as (offer & -> & Ho).
  destruct (offer_accepted _ _ _ _ Hn Ho) as [Hoff Hinv]. exists offer. split; [|done].
  cbn. rewrite Hoff. cbn. by rewrite Hinv.
Qed.

(** The bundled client can pay a proxy by x402.  The proxy advertised the
    requirements of a policy with an LDK receiver and a valid invoice, in base64 of a
    JSON text; the client finds the offer in it, and, run by a user who pays and
    pastes the preimage, repeats its request with a [Payment-Signature] header that,
    unless it is too long to be read, the proxy accepts for that request while the
    invoice is valid there, under the key of that invoice. *)
Theorem client_pays_x402 `{MintUrlLib, Secp}
    answer url u hs resource invoice inv pre requests p node hash time :
  paying answer url u hs inv pre → (1 ≤ requests)%nat →
  receiver p = Ldk node → ReceiverConfig_validate (receiver p) = Ok tt →
  get "payment-required" hs =
    Some (std_encode (Service.json_challenge resource (requirements p hash invoice))) →
  validate_invoice p hash invoice time SKEW = Ok inv →
  ∃ value,
    let retry := Get (url_as_str u) (Some ("payment-signature", value)) in
    calls answer (main X402 url requests) (Ev retry (answer _ retry)) ∧
    header_to_str value = Some value ∧
    ((slen value ≤ MAX_PAYMENT_HEADER)%nat →
     x402_verify p hash value time =
       Ok (spent_key p (inv_payment_hash inv), hex (inv_payment_hash inv), retention inv)).
Proof.
  intros Hpay Hn Hnode Hval Hg Hinv.
  assert (is_network (network (receiver p)) = true) as Hnet.
  { rewrite Hnode in Hval |- *. cbn in Hval. unfold LdkReceiverConfig_validate in Hval. by inv_ok. }
  destruct (read_x402 hs resource p hash invoice Hnet Hg) as (offer & Hread & Ho).
  destruct (validate_invoice_good _ _ _ _ _ _ Hinv) as [Hparse _].
  exists (std_encode (json_print (payment_value offer (hex pre)))). split.
  { by apply (main_sends _ X402 _ _ hs invoice "" offer inv pre requests Hpay Hn). }
  split; [by apply header_to_str_visible, base64_visible|].
  intros Hsize. unfold x402_verify. rewrite Hnode. cbn [ldk is_some ensure mbind result_bind].
  rewrite (proj2 (Nat.leb_le _ _) Hsize). cbn [ensure mbind result_bind].
  rewrite std_decode_encode. cbn [mbind result_bind]. rewrite (json_payment_print _ _ _ Ho).
  cbn [mbind result_bind x402_version accepted payload preimage].
  cbn [Z.eqb ensure mbind result_bind]. rewrite bool_decide_eq_true_2 by done.
  cbn [ensure mbind result_bind requirements extra Ln.invoice]. rewrite Hinv. cbn [mbind result_bind].
  rewrite decode_hash_hex by apply (py_length _ _ _ _ _ _ Hpay). cbn [mbind result_bind].
  rewrite bool_decide_eq_true_2 by apply (py_proof _ _ _ _ _ _ Hpay). reflexivity.
Qed.
End client.
(** ** A concrete run *)

Module Examples.
Import Toy Proofs.Examples.

(** *** A text for values *)

Fixpoint bits (p : positive) : string :=
  match p with xH => "" | xO p => String "0" (bits p) | xI p => String "1" (bits p) end.
Fixpoint of_bits (s : string) : positive :=
  match s with
  | "" => xH
  | String c s' => if bool_decide (c = "0"%char) then xO (of_bits s') else xI (of_bits s')
  end.
Definition number_text (n : Z) : string :=
  match n with Z0 => "z" | Zpos p => String "+" (bits p) | Zneg p => String "-" (bits p) end.
Definition text_number (s : string) : Z :=
  match s with
  | String c s' => if bool_decide (c = "+"%char) then Zpos (of_bits s')
                   else if bool_decide (c = "-"%char) then Zneg (of_bits s') else 0
  | "" => 0
  end.
Lemma text_number_text n : text_number (number_text n) = n.
Proof.
  assert (∀ p, of_bits (bits p) = p) as Hb by (induction p; simpl; by f_equal).
  destruct n; simpl; by rewrite ?Hb.
Qed.

(** One frame of the front. *)
Fixpoint unframe (s : string) : option (string * string) :=
  match s with
  | String c s' =>
      if bool_decide (c = "0"%char) then Some ("", s')
      else match s' with
           | String d s'' => match unframe s'' with Some (w, r) => Some (String d w, r) | None => None end
           | "" => None
           end
  | "" => None
  end.
Lemma unframe_frame s rest : unframe (frame s rest) = Some (s, rest).
Proof. induction s as [|c s IH]; simpl; [done|]. by rewrite IH. Qed.

Fixpoint print (v : Value) (rest : string) : string :=
  match v with
  | Null => String "n" rest
  | Bool b => String "b" (frame (if b then "1" else "") rest)
  | Number n => String "i" (frame (number_text n) rest)
  | Float s => String "d" (frame s rest)
  | Str s => String "s" (frame s rest)
  | Array l => String "a" (foldr (λ v r, String "," (print v r)) (String "." rest) l)
  | Object m => String "o" (foldr (λ kv r, String "," (frame kv.1 (print kv.2 r))) (String "." rest) m)
  end.

(** A list of what [item] reads, each after a comma. *)
Fixpoint items {A} (item : string → option (A * string)) (fuel : nat) (s : string) : option (list A * string) :=
  match fuel, s with
  | S fuel, String c s' =>
      if bool_decide (c = "."%char) then Some ([], s')
      else '(a, r) ← item s'; '(l, r) ← items item fuel r; Some (a :: l, r)
  | _, _ => None
  end.
Fixpoint parse (fuel : nat) (s : string) : option (Value * string) :=
  match fuel, s with
  | S fuel, String c s' =>
      if bool_decide (c = "n"%char) then Some (Null, s')
      else if bool_decide (c = "a"%char) then '(l, r) ← items (parse fuel) fuel s'; Some (Array l, r)
      else if bool_decide (c = "o"%char) then
        '(m, r) ← items (λ s, '(k, r) ← unframe s; '(v, r) ← parse fuel r; Some ((k, v), r)) fuel s';
        Some (Object m, r)
      else
        '(w, r) ← unframe s';
        Some (if bool_decide (c = "b"%char) then Bool (bool_decide (w = "1"))
              else if bool_decide (c = "i"%char) then Number (text_number w)
              else if bool_decide (c = "d"%char) then Float w else Str w, r)
  | _, _ => None
  end.

(** Fuel that is enough. *)
Fixpoint size (v : Value) : nat :=
  match v with
  | Array l => S (foldr (λ v n, S (size v + n)) 1 l)%nat
  | Object m => S (foldr (λ kv n, S (size kv.2 + n)) 1 m)%nat
  | _ => 1%nat
  end.
Section induction.
Context (P : Value → Prop) (Hatom : ∀ v, match v with Array _ | Object _ => True | _ => P v end)
  (Harray : ∀ l, Forall P l → P (Array l)) (Hobject : ∀ m, Forall (λ kv, P kv.2) m → P (Object m)).
Fixpoint Value_nested (v : Value) : P v :=
  match v with
  | Array l => Harray l ((fix go l : Forall P l := match l with
      | [] => Forall_nil_2 _ | v :: l' => Forall_cons_2 _ _ _ (Value_nested v) (go l') end) l)
  | Object m => Hobject m ((fix go m : Forall (λ kv, P kv.2) m := match m with
      | [] => Forall_nil_2 _ | kv :: m' => Forall_cons_2 _ _ _ (Value_nested kv.2) (go m') end) m)
  | Null => Hatom Null | Bool b => Hatom (Bool b) | Number n => Hatom (Number n)
  | Float s => Hatom (Float s) | Str s => Hatom (Str s)
  end.
End induction.

Lemma item_fuel {A} (sz : A → nat) l a fuel :
  a ∈ l → (foldr (λ a n, S (sz a + n)) 1 l ≤ fuel)%nat → (sz a ≤ fuel)%nat.
Proof.
  induction l as [|b l IH]; intros Ha Hf; [by apply not_elem_of_nil in Ha|]. simpl in Hf.
  apply elem_of_cons in Ha as [->|Ha]; [lia|]. apply IH; [done|lia].
Qed.
Lemma items_read {A} (item : string → option (A * string)) (enc : A → string → string) sz l rest fuel :
  Forall (λ a, ∀ r, item (enc a r) = Some (a, r)) l →
  (foldr (λ a n, S (sz a + n)) 1 l ≤ fuel)%nat →
  items item fuel (foldr (λ a r, String "," (enc a r)) (String "." rest) l) = Some (l, rest).
Proof.
  intros Hl. revert fuel. induction Hl as [|a l Ha Hl IH]; intros [|fuel] Hf; simpl in *; try lia; [done|].
  rewrite Ha. simpl. rewrite IH by lia. done.
Qed.
Lemma parse_print : ∀ v rest fuel, (size v ≤ fuel)%nat → parse fuel (print v rest) = Some (v, rest).
Proof.
  apply (Value_nested (λ v, ∀ rest fuel, (size v ≤ fuel)%nat → parse fuel (print v rest) = Some (v, rest))).
  - intros v. destruct v; try done; intros rest [|fuel] Hf; simpl in *; try lia; try done; rewrite unframe_frame; simpl.
    + by destruct b.
    + by rewrite text_number_text.
    + done.
    + done.
  - intros l IH rest [|fuel] Hf; [simpl in Hf; lia|]. simpl in *.
    rewrite (items_read _ print size); [done| |lia].
    apply Forall_forall. intros v Hv r. rewrite Forall_forall in IH. apply (IH v Hv).
    apply (item_fuel size l); [done|lia].
  - intros m IH rest [|fuel] Hf; [simpl in Hf; lia|]. simpl in *.
    rewrite (items_read _ (λ kv r, frame kv.1 (print kv.2 r)) (λ kv, size kv.2)); [done| |lia].
    apply Forall_forall. intros [k v] Hv r. cbn [fst snd]. rewrite unframe_frame. simpl.
    rewrite Forall_forall in IH. rewrite (IH (k, v) Hv); [done|].
    apply (item_fuel (λ kv, size kv.2) m (k, v)); [done|lia].
Qed.

Lemma print_size : ∀ v rest, (size v + slen rest ≤ slen (print v rest))%nat.
Proof.
  assert (∀ s r, slen r < slen (frame s r))%nat as Hf.
  { intros s r. induction s; simpl; lia. }
  apply (Value_nested (λ v, ∀ rest, (size v + slen rest ≤ slen (print v rest))%nat)).
  - intros v. destruct v; try done; intros rest; simpl; try lia;
      match goal with |- context [frame ?s ?r] => specialize (Hf s r) end; lia.
  - intros l IH rest. simpl. induction IH as [|v l Hv _ IHl]; simpl; [lia|].
    specialize (Hv (foldr (λ v r, String "," (print v r)) (String "." rest) l)). lia.
  - intros m IH rest. simpl. induction IH as [|[k v] m Hv _ IHm]; simpl; [lia|]. cbn [snd] in *.
    specialize (Hv (foldr (λ kv r, String "," (frame kv.1 (print kv.2 r))) (String "." rest) m)).
    match goal with |- context [frame k ?r] => specialize (Hf k r) end. lia.
Qed.

#[export] Instance json_text : JsonText :=
  {| json_parse s := match parse (slen s) s with Some (v, "") => Ok v | _ => Err "json" end;
     json_print v := print v "" |}.

(** *** The structures of the server read from values *)

Definition text_of (v : Value) : string := default "" (as_str v).
Definition number_of (v : Value) : Z := match v with Number n => n | _ => 0 end.
Definition requirements_of (v : Value) : Requirements :=
  let e := index "extra" v in
  {| scheme := text_of (index "scheme" v); req_network := text_of (index "network" v);
     amount := text_of (index "amount" v); asset := text_of (index "asset" v);
     req_pay_to := text_of (index "payTo" v); max_timeout_seconds := number_of (index "maxTimeoutSeconds" v);
     extra := {| asset_transfer_method := as_str (index "assetTransferMethod" e);
                 payment_flow := text_of (index "paymentFlow" e);
                 extra_request_hash := text_of (index "requestHash" e);
                 request_binding_profile := text_of (index "requestBindingProfile" e);
                 request_binding_params := {| bound_names :=
                   text_of <$> default [] (as_array (index "headers" (index "requestBindingParams" e))) |};
                 invoice := text_of (index "invoice" e) |} |}.
Lemma same_text v v' : v ≈ v' → as_str v' = as_str v.
Proof. by destruct 1. Qed.
Lemma same_num v v' : v ≈ v' → number_of v' = number_of v.
Proof. by destruct 1. Qed.
Lemma same_texts l v : Array (Str <$> l) ≈ v → text_of <$> default [] (as_array v) = l.
Proof.
  assert (∀ l' : list Value, Forall2 same_value (Str <$> l) l' → text_of <$> l' = l) as Hl.
  { induction l as [|s l IH]; intros l' Hl; simpl in Hl.
    - by apply Forall2_nil_inv_l in Hl as ->.
    - apply Forall2_cons_inv_l in Hl as (v' & l'' & Hs & Hl & ->). apply same_str in Hs as ->. simpl. by rewrite IH. }
  inversion 1 as [|? l' Hl'|]; subst; [|by apply Hl]. simpl. apply Hl. clear.
  induction l; constructor; [constructor|done].
Qed.
Lemma requirements_read r v : requirements_value r ≈ v → requirements_of v = r.
Proof.
  intros Hv. pose proof (index_same "extra" _ _ Hv) as He.
  pose proof (index_same "requestBindingParams" _ _ He) as Hb.
  unfold requirements_of, text_of. rewrite (same_num _ _ (index_same "maxTimeoutSeconds" _ _ Hv)).
  change (λ v0, default "" (as_str v0)) with text_of.
  rewrite (same_texts (bound_names (request_binding_params (extra r))) _ (index_same "headers" _ _ Hb)).
  rewrite (same_text _ _ (index_same "scheme" _ _ Hv)), (same_text _ _ (index_same "network" _ _ Hv)),
    (same_text _ _ (index_same "amount" _ _ Hv)), (same_text _ _ (index_same "asset" _ _ Hv)),
    (same_text _ _ (index_same "payTo" _ _ Hv)), (same_text _ _ (index_same "assetTransferMethod" _ _ He)),
    (same_text _ _ (index_same "paymentFlow" _ _ He)), (same_text _ _ (index_same "requestHash" _ _ He)),
    (same_text _ _ (index_same "requestBindingProfile" _ _ He)), (same_text _ _ (index_same "invoice" _ _ He)).
  destruct r as [? ? ? ? ? ? [[] ? ? ? [] ?]]; reflexivity.
Qed.

#[export] Instance client_lnjson : LnJson :=
  {| json_payment s :=
       v ← json_parse s;
       mret {| x402_version := number_of (index "x402Version" v); accepted := requirements_of (index "accepted" v);
               payload := {| preimage := text_of (index "preimage" (index "payload" v)) |} |};
     json_requirements r := json_print (requirements_value r);
     json_terms_mint r m := json_print (Array [Str m; requirements_value r]) |}.
#[export] Instance client_store_json : Service.StoreJson :=
  {| Service.json_receipt h n := frames [h; n];
     Service.json_challenge url r := json_print (challenge_value url r) |}.
#[export] Instance json_text_laws : JsonTextLaws.
Proof.
  assert (∀ v, json_parse (json_print v) = Ok v) as Hp.
  { intros v. cbn [json_parse json_print json_text]. rewrite parse_print; [done|].
    pose proof (print_size v ""). simpl in *. lia. }
  split.
  - intros v. exists v. split; [apply Hp|constructor].
  - done.
  - intros r v pre Hv. cbn [json_payment client_lnjson]. rewrite Hp. cbn [mbind result_bind].
    simpl index. by rewrite (requirements_read r v Hv).
Qed.

(** *** A proxy and a user *)

#[export] Instance visible_http : HttpVisible.
Proof.
  intros v Hv. cbn [header_to_str http]. assert (str_is_ascii v = true) as ->; [|done].
  eapply bytes_all_impl; [|exact Hv]. intros c. unfold visible, in_range.
  rewrite orb_true_iff, andb_true_iff, Z.eqb_eq, !Z.leb_le. lia.
Qed.
Definition https_origin (s : string) : Url :=
  {| url_scheme := "https"; url_host_str := Some "example.com"; url_username := ""; url_password := None;
     url_port := None; url_port_or_known_default := Some 443; url_path := "/"; url_query := None;
     url_fragment := None; url_origin := s; url_as_str := s |}.
#[export] Instance client_urls : UrlLib := λ s, Ok (https_origin s).
#[export] Instance client_mints : MintUrlLib := λ s, Ok s.
#[export] Instance client_keys : Secp := λ _, true.

Definition node_key : string := "02" +:+ hex (sha "key").
Definition client_policy : Policy :=
  {| amount_msat := 21000;
     receiver := Ldk {| endpoint := "https://node.example.com"; macaroon_file := "/m"; tls_cert_file := "/c";
                        pay_to := node_key; ldk_network := MAINNET; expiry_seconds := 300 |};
     origin := "https://example.com"; headers := []; protocols := {| x402 := true; l402 := true |} |}.
Definition client_invoice : Invoice :=
  {| inv_signature_ok := true; inv_payee := node_key; inv_currency := Bitcoin;
     inv_amount_msat := Some 21000; inv_description := DescriptionHash (sha "request");
     inv_created := 1000; inv_expiry := 300; inv_payment_hash := sha example_preimage |}.
#[local] Instance client_invoices : InvoiceLib := λ s,
  if bool_decide (s = "lnbc2") then Some client_invoice else None.
#[local] Instance client_invoice_laws : InvoiceLaws.
Proof.
  split; intros e inv; unfold parse_invoice, client_invoices; case_bool_decide; intros [= <-];
    vm_compute; try done; by split.
Qed.

Definition example_credential : string * Z * string :=
  match l402_mint client_policy example_hash client_invoice (sha "root") (sha "nonce") with
  | Ok r => r | Err _ => ("", 0, "")
  end.
Definition challenge_headers : HeaderMap :=
  [("payment-required", std_encode (Service.json_challenge "https://example.com/a"
                                      (requirements client_policy example_hash "lnbc2")));
   ("www-authenticate", Service.l402_header example_credential.2 "lnbc2")].
(** The preimage, with a newline. *)
Definition pasted : list char := chars (hex example_preimage +:+ String "010" "").
Definition answer (X : Type) (c : Cmd X) : X :=
  match c with
  | Connector => Ok tt
  | Get _ None => Ok {| status := 402; resp_headers := challenge_headers; body := "" |}
  | Get _ (Some _) => Ok {| status := 200; resp_headers := []; body := "paid" |}
  | ShowStatus _ | ShowText _ | ShowInvoice _ _ _ => tt
  | IsExpired _ => false
  | Flush | WriteAll _ => Ok tt
  | ReadLine => Ok pasted
  end.
Lemma example_paying :
  paying answer "https://example.com/a" (https_origin "https://example.com/a") challenge_headers
    client_invoice example_preimage.
Proof.
  split; try reflexivity.
  - by eexists.
  - by eexists.
  - exists pasted. split; [reflexivity|]. vm_compute. reflexivity.
Qed.

Lemma client_pays_l402_witness :
  ∃ value credential macaroon,
    calls answer (main L402 "https://example.com/a" 1)
      (Ev (Get "https://example.com/a" (Some ("authorization", value))) (Ok {| status := 200; resp_headers := []; body := "paid" |})) ∧
    Front.l402_credential value = Some credential ∧
    parse_credential credential = Ok (macaroon, example_preimage) ∧
    digest (mac_identifier macaroon) = example_credential.1.1 ∧
    id_payment_hash (mac_identifier macaroon) = inv_payment_hash client_invoice ∧
    l402_verify client_policy example_hash macaroon example_preimage (sha "root") example_credential.1.2 1200 = Ok tt.
Proof.
  refine (client_pays_l402 answer "https://example.com/a" (https_origin "https://example.com/a") challenge_headers
    "lnbc2" client_invoice example_preimage 1 client_policy example_hash (sha "root") (sha "nonce")
    example_credential.1.1 example_credential.1.2 example_credential.2 1200 example_paying _ _ _ _ _ _ _ _ _);
    try (vm_compute; reflexivity).
  apply Nat.leb_le. vm_compute. reflexivity.
Defined.

Lemma client_pays_x402_witness :
  ∃ value,
    calls answer (main X402 "https://example.com/a" 1)
      (Ev (Get "https://example.com/a" (Some ("payment-signature", value))) (Ok {| status := 200; resp_headers := []; body := "paid" |})) ∧
    header_to_str value = Some value ∧
    ((slen value ≤ MAX_PAYMENT_HEADER)%nat →
     x402_verify client_policy example_hash value 1200 =
       Ok (spent_key client_policy (sha example_preimage), hex (sha example_preimage), retention client_invoice)).
Proof.
  refine (client_pays_x402 answer "https://example.com/a" (https_origin "https://example.com/a") challenge_headers
    "https://example.com/a" "lnbc2" client_invoice example_preimage 1 client_policy _ example_hash 1200
    example_paying _ eq_refl _ _ _); vm_compute; reflexivity.
Defined.
(** The header of that run is short enough. *)
Definition example_payment : string :=
  match read_challenge X402 challenge_headers with
  | Ok (_, m, offer) => (credential X402 m offer (hex example_preimage)).2
  | Err _ => ""
  end.
Example payment_fits : (slen example_payment <=? MAX_PAYMENT_HEADER)%nat && (1000 <? slen example_payment)%nat = true.
Proof. vm_compute. reflexivity. Qed.
End Examples.
End Client.
