(* ===== verification/Visit.v ===== *)
(** * A visit of a paying client

    The proxy, the Lightning service and the client together, from the first request
    to the paid one: the proxy asks for payment with a challenge the service made, the
    client makes a credential of it and of the preimage, and the proxy, asking the
    service about that credential, serves the request. *)
From S2P Require Import Prelude Text Net Effects Conc Extern Flow RateLimit Capacity Ledger Cdk Terms LnPolicy Http Payments Minting Payout Wallets Config State LnProof LnStore Proxy Admission Complete Client Models.
#[local] Open Scope string_scope.
#[local] Open Scope list_scope.
#[local] Open Scope Z_scope.

Module Visit.
Import Conf Http Front Admission Complete.

(** ** The service by itself *)

Section service.
Context `{UrlLib, MintUrlLib, Sha256, HmacSha256, InvoiceLib, Proofs.LnJson, Service.StoreJson, Base64, MacaroonLib}.
Context (env : ∀ X, Service.LnCmd X → X) (t : Z).
Abbreviation exec := (Conc.exec env t).

Lemma exec_database st :
  ∃ st', exec Service.database st = (st', Ok tt) ∧
    Service.roots st' = (if Service.opened st then Service.roots st else Service.roots (Service.prune t st)) ∧
    Service.spent st' = (if Service.opened st then Service.spent st else Service.spent (Service.prune t st)).
Proof. unfold Service.database. cbn. destruct (Service.opened st); cbn; eauto. Qed.
Lemma exec_lift {E A} (r : result E A) st : exec (Service.lift r) st = (st, r).
Proof. done. Qed.
Lemma exec_on_err {E F A} (f : E → F) (p : prog Service.Store Service.LnCmd (result E A)) st st' r :
  exec p st = (st', r) → exec (on_err f p) st = (st', map_err f r).
Proof. intros Hp. unfold on_err. by rewrite exec_bind, Hp. Qed.

(** A challenge offers the invoice, by each protocol of the policy; what it needs for
    L402 is in the journal. *)
Lemma challenge_made p node url hash client st st' ch :
  exec (Service.challenge p url hash client) st = (st', Ok ch) → Ln.receiver p = Ln.Ldk node →
  ∃ invoice inv,
    Proofs.validate_invoice p hash invoice t 0 = Ok inv ∧
    (Ln.x402 (Ln.protocols p) = true →
     Service.ch_x402 ch = Some (std_encode (Service.json_challenge url (Ln.requirements p hash invoice)))) ∧
    (Ln.l402 (Ln.protocols p) = true → (∀ n s, env _ (Service.Random n) = Ok s → slen s = n) →
     ∃ root nonce key vb encoded,
       Proofs.l402_mint p hash inv root nonce = Ok (key, vb, encoded) ∧
       slen root = 32%nat ∧ slen nonce = 32%nat ∧
       Service.roots st' !! key = Some (root, vb) ∧
       Service.ch_l402 ch = Some (Service.l402_header encoded invoice)).
Proof.
  intros Hc Hr. unfold Service.challenge in Hc. rewrite Hr in Hc.
  apply exec_ok_inv in Hc as (st1 & [] & _ & Hc). apply exec_ok_inv in Hc as (st2 & [] & _ & Hc).
  apply exec_ok_inv in Hc as (st3 & invoice & _ & Hc). apply exec_ok_inv in Hc as (st4 & time & Ht & Hc).
  injection Ht as <- <-. apply exec_ok_inv in Hc as (st5 & inv & Hv & Hc). injection Hv as <- Hv.
  apply exec_ok_inv in Hc as (st6 & header & Hm & Hc). injection Hc as <- <-.
  exists invoice, inv. split; [done|]. cbn [Service.ch_x402 Service.ch_l402].
  split; [by intros ->|]. intros Hl Hrandom. rewrite Hl in Hm.
  apply exec_ok_inv in Hm as (st7 & text & Hm & Ht). injection Ht as <- <-.
  unfold Service.mint_l402 in Hm.
  apply exec_ok_inv in Hm as (st8 & root & Hroot & Hm). injection Hroot as <- Hroot.
  apply exec_ok_inv in Hm as (st9 & nonce & Hnonce & Hm). injection Hnonce as <- Hnonce.
  apply exec_ok_inv in Hm as (st10 & [[key vb] encoded] & Hmint & Hm). injection Hmint as <- Hmint.
  apply exec_ok_inv in Hm as (st11 & [] & _ & Hm). apply exec_ok_inv in Hm as (st12 & [] & Htx & Hm).
  injection Hm as <- <-.
  exists root, nonce, key, vb, encoded. split_and!; eauto.
  cbn in Htx. unfold Service.root_tx in Htx. destruct (Service.check_capacity st11 1); [|done].
  destruct (is_some _); [done|]. injection Htx as <-. cbn. apply lookup_insert_eq.
Qed.

(** What is not recorded as spent can be claimed. *)
Lemma claim_accepts key retain st :
  Service.spent st !! key = None → t < retain → (exec (Service.claim key retain) st).2 = Ok tt.
Proof.
  intros Hs Ht. unfold Service.claim. destruct (exec_database st) as (st1 & Hdb & _ & Hspent).
  erewrite exec_ok by (by apply (exec_on_err _ _ _ _ (Ok tt))).
  assert (Service.spent st1 !! key = None) as Hs1.
  { rewrite Hspent. destruct (Service.opened st); [done|]. cbn. apply map_lookup_filter_None. by left. }
  erewrite exec_ok; [|apply (exec_on_err _ _ _ _ (Ok true)); cbn; unfold Service.claim_tx; rewrite Hs1;
    rewrite (proj2 (Z.ltb_lt _ _)) by done; reflexivity]. reflexivity.
Qed.
(** A payment that verifies is accepted once. *)
Lemma settle_accepts_x402 p hash value key payment_hash retain st :
  Proofs.x402_verify p hash value t = Ok (key, payment_hash, retain) →
  Service.spent st !! key = None → t < retain → ∃ receipt, (exec (Service.settle p hash value) st).2 = Ok receipt.
Proof.
  intros Hv Hs Ht. unfold Service.settle. erewrite exec_ok by reflexivity.
  erewrite (exec_ok _ _ _ _ _ st (key, payment_hash, retain)) by (rewrite exec_lift, Hv; reflexivity).
  pose proof (claim_accepts key retain st Hs Ht) as Hc.
  destruct (exec (Service.claim key retain) st) as [st1 r] eqn:Hcl. cbn [snd] in Hc. subst r.
  erewrite exec_ok by exact Hcl. by eexists.
Qed.
(** Receipts are base64. *)
Lemma settle_receipt p hash value st receipt :
  (exec (Service.settle p hash value) st).2 = Ok receipt → ∃ text, receipt = std_encode text.
Proof.
  destruct (exec (Service.settle p hash value) st) as [st' r] eqn:E. cbn [snd]. intros ->.
  unfold Service.settle in E. apply exec_ok_inv in E as (st1 & time & _ & E).
  apply exec_ok_inv in E as (st2 & [[key payment_hash] retain] & _ & E).
  apply exec_ok_inv in E as (st3 & [] & _ & E). injection E as _ <-. by eexists.
Qed.
(** A credential that verifies against its record is accepted once. *)
Lemma settle_accepts p node hash credential macaroon pre root vb st :
  Ln.receiver p = Ln.Ldk node →
  Proofs.parse_credential credential = Ok (macaroon, pre) →
  Service.roots st !! Ln.digest (mac_identifier macaroon) = Some (root, vb) → slen root = 32%nat →
  Proofs.l402_verify p hash macaroon pre root vb t = Ok tt →
  Service.spent st !! Proofs.spent_key p (Proofs.id_payment_hash (mac_identifier macaroon)) = None →
  vb ≤ u64_max → (exec (Service.settle_l402 p hash credential) st).2 = Ok tt.
Proof.
  intros Hr Hp Hroot Hlen Hv Hs Hvb.
  assert (t < vb) as Ht by (unfold Proofs.l402_verify in Hv; inv_ok; by apply Z.ltb_lt).
  unfold Service.settle_l402.
  erewrite (exec_ok _ _ _ _ _ st (macaroon, pre)) by (rewrite exec_lift; by rewrite Hp).
  destruct (exec_database st) as (st1 & Hdb & Hroots & Hspent).
  assert (Service.roots st1 !! Ln.digest (mac_identifier macaroon) = Some (root, vb)) as Hroot1.
  { rewrite Hroots. destruct (Service.opened st); [done|]. cbn. by apply map_lookup_filter_Some. }
  assert (Service.spent st1 !! Proofs.spent_key p (Proofs.id_payment_hash (mac_identifier macaroon)) = None) as Hs1.
  { rewrite Hspent. destruct (Service.opened st); [done|]. cbn. apply map_lookup_filter_None. by left. }
  erewrite exec_ok by (by apply (exec_on_err _ _ _ _ (Ok tt))).
  erewrite exec_ok by (apply (exec_on_err _ _ _ st1 (Ok (Some (root, vb)))); cbn; unfold Service.read_root;
    rewrite Hroot1, Hlen; reflexivity).
  erewrite exec_ok by reflexivity. cbv beta iota. erewrite exec_ok by reflexivity.
  erewrite exec_ok by (rewrite exec_lift, Hv; reflexivity).
  rewrite Hr. cbn [Ln.mint_of]. erewrite exec_ok by reflexivity. apply claim_accepts; [done|]. solve_width.
Qed.
End service.

(** ** Requests *)

(** The same request with one more header. *)
Definition with_field (name value : string) (req : Request) : Request :=
  {| method := method req; uri_scheme := uri_scheme req; uri_authority := uri_authority req;
     uri_path := uri_path req; path_and_query := path_and_query req;
     req_headers := req_headers req ++ [(name, value)]; client_ip := client_ip req; body := body req;
     retry_buffer_truncated := retry_buffer_truncated req |}.

Lemma get_all_field name value other req :
  get_all other (req_headers (with_field name value req)) =
  get_all other (req_headers req) ++ if decide (name = other) then [value] else [].
Proof.
  unfold with_field. cbn [req_headers]. rewrite get_all_app. f_equal. unfold get_all. cbn. by destruct (decide (name = other)) as [->|];
    [rewrite bool_decide_eq_true_2|rewrite bool_decide_eq_false_2].
Qed.
Lemma get_all_other name value other req :
  name ≠ other → get_all other (req_headers (with_field name value req)) = get_all other (req_headers req).
Proof. intros Hn. by rewrite get_all_field, decide_False, app_nil_r. Qed.
Lemma contains_key_other name value other req :
  name ≠ other →
  contains_key other (req_headers (with_field name value req)) = contains_key other (req_headers req).
Proof. intros Hn. by rewrite !contains_key_get_all, get_all_other. Qed.
Lemma get_other name value other req :
  name ≠ other → get other (req_headers (with_field name value req)) = get other (req_headers req).
Proof. intros Hn. unfold get. by rewrite get_all_other. Qed.

Section visit.
Context `{HeaderValues, HttpLib, Sha256, JsonLib, PaymentRequests}.

Lemma authority_field name value req :
  name ≠ "host" → authority_of (with_field name value req) = authority_of req.
Proof. intros Hn. unfold authority_of. by rewrite get_other. Qed.
Lemma content_length_field name value req :
  name ≠ "content-length" → content_length (with_field name value req) = content_length req.
Proof. intros Hn. unfold content_length. by rewrite get_other. Qed.

Lemma bound_headers_field name value req names :
  name ∉ names →
  Ln.bound_headers names (req_headers (with_field name value req)) = Ln.bound_headers names (req_headers req).
Proof.
  induction names as [|n names IH]; intros Hn; [done|]. apply not_elem_of_cons in Hn as [Hne Hn].
  cbn [Ln.bound_headers]. by rewrite (get_all_other _ _ _ _ Hne), IH.
Qed.
(** A header that is not bound does not change what the request is bound to. *)
Lemma binding_field name value req p tls max :
  name ∉ ["host"; "trailer"; "upgrade"] → name ∉ Ln.headers p →
  lightning_binding (with_field name value req) p tls max = lightning_binding req p tls max.
Proof.
  rewrite !not_elem_of_cons. intros (Hh & Ht & Hu & _) Hn. unfold lightning_binding.
  rewrite (contains_key_other _ _ _ _ Ht), (contains_key_other _ _ _ _ Hu), (authority_field _ _ _ Hh).
  unfold Ln.request_hash. by rewrite (bound_headers_field _ _ _ _ Hn).
Qed.

(** What both visits find: the site sells for Lightning payments to this node, there is
    room, and the request, without any payment, suits the site. *)
Record door (answer : ∀ X, Cmd X → X) (srv : Server) (req : Request) (domain : string) (site : Site)
    (p : Ln.Policy) (ip : IpAddr) : Prop := {
  dr_domain : authority_of req ≫= request_domain = Some domain;
  dr_site : sites (answer _ LoadConfig) !! domain = Some site;
  dr_scheme : srv_tls srv = https site;
  dr_acme : srv_tls srv = false → strip_prefix "/.well-known/acme-challenge/" (uri_path req) = None;
  dr_fits : fits req site;
  dr_room : ∀ c, capacity site = Some c → ∃ key, answer _ (TryAcquire c ip) = Some key;
  dr_client : client_ip req = Some ip;
  dr_policy : lightning site = Some p;
  dr_service : has_lightning srv = true;
  dr_secure : secure srv req = true;
  dr_plain : Forall (λ name, get_all name (req_headers req) = []) ["authorization"; "payment-signature"; "x-cashu"]
}.

Lemma follow_then {E A B} answer (q : proc Cmd (result E A)) (f : A → proc Cmd (result E B)) :
  (follow answer (then_ok q f)).2 =
  match (follow answer q).2 with Ok a => (follow answer (f a)).2 | Err e => Err e end.
Proof. unfold then_ok. rewrite follow_bind. cbn. by destruct (follow answer q).2. Qed.

Lemma insert_headers_keep l field acc h :
  Forall (λ h : string * string, field ≠ to_ascii_lowercase h.1) l →
  insert_headers l acc = Ok h → get_all field h = get_all field acc.
Proof.
  revert acc. induction l as [|[n v] l IH]; intros acc Hl Hi; cbn in Hi; inv_ok; [by simplify_eq|].
  apply Forall_cons in Hl as [Hn Hl]. erewrite IH by eauto. by eapply get_all_insert_ne.
Qed.
Lemma insert_headers_value l name value l' acc h :
  Forall (λ h : string * string, to_ascii_lowercase name ≠ to_ascii_lowercase h.1) l' →
  insert_headers (l ++ (name, value) :: l') acc = Ok h → get_all (to_ascii_lowercase name) h = [value].
Proof.
  intros Hl'. revert acc. induction l as [|[n v] l IH]; intros acc Hi; cbn in Hi; inv_ok.
  - erewrite insert_headers_keep by eauto. by eapply get_all_insert.
  - by eapply IH.
Qed.

(** An answer with a challenge in a header. *)
Definition asks (field header : string) (o : result Exit RequestContext) : Prop :=
  match o with
  | Ok _ => False
  | Err e => ∀ r, e.2 = Answer Gate r → status r = 402 ∧ get field (resp_headers r) = Some header
  end.
Definition offers (ch : Service.Challenge) (field header : string) : Prop :=
  field = "payment-required" ∧ Service.ch_x402 ch = Some header ∨
  field = "www-authenticate" ∧ Service.ch_l402 ch = Some header.
Lemma answer_header req ctx text l name value l' r :
  Forall (λ h : string * string, to_ascii_lowercase name ≠ to_ascii_lowercase h.1) l' →
  (Front.answer Gate req ctx 402 text (l ++ (name, value) :: l')).2 = Answer Gate r →
  status r = 402 ∧ get (to_ascii_lowercase name) (resp_headers r) = Some value.
Proof.
  intros Hl'. unfold Front.answer. cbn [snd]. destruct (respond_with_headers _ _ _ _) as [r'|] eqn:Hr; [|done].
  intros [= <-]. unfold respond_with_headers in Hr. inv_ok. simplify_eq. split; [done|].
  unfold get. by erewrite insert_headers_value.
Qed.
Lemma payment_required_asks (answer : ∀ X, Cmd X → X) srv req ctx site p ip url hash ch field header retry :
  lightning site = Some p → has_lightning srv = true →
  lightning_binding req p (srv_tls srv) (max_body_bytes (controls site)) = Ok (url, hash) →
  answer _ (MakeChallenge p url hash ip) = Ok ch → offers ch field header →
  asks field header (follow answer (payment_required srv req ctx site ip retry)).2.
Proof.
  intros Hp Hsv Hb Hch Hhd. unfold payment_required, lightning_challenge. rewrite follow_then, Hp, Hsv, Hb.
  cbn [follow then_ok perform proc_bind]. rewrite Hch. cbn [follow snd ok is_none is_some negb].
  rewrite andb_false_r. cbn [mbind option_bind follow refuse return_ snd asks].
  destruct Hhd as [[-> Hhd]|[-> Hhd]]; rewrite Hhd; cbn [opt_header]; intros r Hr; rewrite app_comm_cons, !app_assoc in Hr.
  - rewrite <- (app_assoc _ [_]) in Hr.
    eapply (answer_header _ _ _ _ "PAYMENT-REQUIRED") in Hr; [exact Hr|].
    destruct (Service.ch_l402 ch); repeat constructor. by apply (bool_decide_unpack _).
  - eapply (answer_header _ _ _ _ "WWW-Authenticate" _ []) in Hr; [exact Hr|constructor].
Qed.
Lemma free_asks (answer : ∀ X, Cmd X → X) srv req ctx site p ip url hash ch field header :
  client_ip req = Some ip → lightning site = Some p → has_lightning srv = true →
  (∀ l, rate_limit site = Some l → ∃ w, answer _ (CheckLimiter l ip) = Err w) →
  lightning_binding req p (srv_tls srv) (max_body_bytes (controls site)) = Ok (url, hash) →
  answer _ (MakeChallenge p url hash ip) = Ok ch → offers ch field header →
  asks field header (follow answer (free_allowance srv req ctx site)).2.
Proof.
  intros Hip Hp Hsv Hgone Hb Hch Hhd. unfold free_allowance. rewrite Hp. cbn [is_none is_some negb].
  rewrite andb_false_r. unfold need_client. rewrite Hip, follow_then, orb_true_r.
  destruct (rate_limit site) as [l|] eqn:Hl.
  - destruct (Hgone l eq_refl) as [w Hw]. cbn [follow then_ok perform proc_bind]. rewrite Hw.
    cbn [follow snd is_some orb]. by eapply payment_required_asks.
  - cbn [follow snd is_some orb]. by eapply payment_required_asks.
Qed.

(** The first visit, with the free allowance used up: the challenge of the service is in
    the answer. *)
Lemma first_visit (answer : ∀ X, Cmd X → X) srv req ctx domain site p ip url hash ch field header r :
  door answer srv req domain site p ip →
  (∀ l, rate_limit site = Some l → ∃ w, answer _ (CheckLimiter l ip) = Err w) →
  lightning_binding req p (srv_tls srv) (max_body_bytes (controls site)) = Ok (url, hash) →
  answer _ (MakeChallenge p url hash ip) = Ok ch → offers ch field header →
  (follow answer (request_filter srv req ctx)).2.2 = Answer Gate r →
  status r = 402 ∧ get field (resp_headers r) = Some header.
Proof.
  intros [Hd Hs Ht Hac Hf Hroom Hip Hp Hsv Hsec Hplain] Hgone Hb Hch Hhd Hr.
  rewrite !Forall_cons in Hplain. destruct Hplain as (Hau & Hps & Hxc & _).
  destruct (route_found answer req ctx domain site Hd Hs) as [ctx1 Hroute].
  assert (goes_on answer (check_scheme srv req ctx1 domain site)) as Hsch by (by apply scheme_exact).
  assert (payment_attempt req site = false) as Hna.
  { unfold payment_attempt. rewrite !contains_key_get_all, Hau, Hps, Hxc. cbn. by rewrite !andb_false_r. }
  assert (goes_on answer (controlled req ctx1 site)) as Hctl.
  { apply controlled_exact. split; [done|]. split; [by rewrite Hna|]. intros c Hc.
    destruct (Hroom c Hc) as [key Hkey]. eauto. }
  unfold goes_on in Hsch, Hctl. unfold request_filter in Hr. rewrite follow_bind in Hr. cbn [snd follow] in Hr.
  unfold filter_stages in Hr. rewrite follow_then, Hroute in Hr. cbv beta iota in Hr. rewrite follow_then in Hr.
  destruct (follow answer (check_scheme srv req ctx1 domain site)).2 as [[]|]; [|done].
  rewrite follow_then in Hr. destruct (follow answer (controlled req ctx1 site)).2 as [ctx2|]; [|done].
  rewrite follow_then, (proj2 (l402_header_exact answer req ctx2 site None)) in Hr by (by intros _).
  rewrite follow_then in Hr.
  assert (goes_on answer (check_methods req ctx2 site None)) as Hm by (by apply methods_exact).
  unfold goes_on in Hm. destruct (follow answer (check_methods req ctx2 site None)).2 as [[]|]; [|done].
  rewrite follow_then, (proj2 (lightning_header_exact answer req ctx2 site None)) in Hr by (by intros _).
  rewrite follow_then in Hr. unfold let_in in Hr.
  assert (asks field header (follow answer (free_allowance srv req ctx2 site)).2) as Hasks by (by eapply free_asks).
  rewrite Hxc in Hr. destruct (payment site); cbn [head] in Hr;
    (destruct (follow answer (free_allowance srv req ctx2 site)).2 as [c|e]; [done|]); by apply Hasks.
Qed.

(** The second visit, with a payment in a header that the service accepts. *)
Lemma second_visit `{!HeaderValueLaws} (answer : ∀ X, Cmd X → X) srv req now domain site p ip name value :
  door answer srv req domain site p ip →
  answer _ (CheckLimiter (payment_verification site) ip) = Ok tt →
  name ≠ "host" → name ≠ "content-length" →
  grounds answer srv (with_field name value req) domain site →
  (∀ url h e v, name = "payment-signature" →
     lightning_binding (with_field name value req) p (srv_tls srv) (max_body_bytes (controls site)) = Ok (url, h) →
     answer _ (Settle p h e) = Ok v → bytes_all visible v = true) →
  let e := (follow answer (request_filter srv (with_field name value req) (new_ctx now))).2 in
  served e.2 = true ∧ handed (with_field name value req) site e.
Proof.
  intros [Hd Hs Ht Hac Hf Hroom Hip Hp Hsv Hsec Hplain] Hlim Hh Hcl Hg Hv e.
  assert (handed (with_field name value req) site e) as Hhd; [|by split; [eapply handed_served|]].
  apply (allowed_handed answer srv _ now domain site).
  { split; try done.
    - by rewrite authority_field.
    - intros max len Hmax Hlen. rewrite content_length_field in Hlen by done. by eapply Hf.
    - eauto.
    - intros c Hcap. destruct (Hroom c Hcap) as [key Hkey]. eauto. }
  rewrite !Forall_cons in Hplain. destruct Hplain as (_ & Hps & _).
  intros p' url h en v Hp' Hin Hb Ha. simplify_eq. destruct (decide (name = "payment-signature")); [by eapply Hv|].
  by rewrite get_all_other in Hin.
Qed.
Lemma l402_grounds (answer : ∀ X, Cmd X → X) srv req domain site p ip url hash value credential :
  door answer srv req domain site p ip →
  Ln.l402 (Ln.protocols p) = true → "authorization" ∉ Ln.headers p →
  lightning_binding req p (srv_tls srv) (max_body_bytes (controls site)) = Ok (url, hash) →
  l402_credential value = Some credential → answer _ (SettleL402 p hash credential) = Ok tt →
  grounds answer srv (with_field "authorization" value req) domain site.
Proof.
  intros [_ _ _ _ _ _ _ Hp Hsv Hsec Hplain] Hl Hn Hb Hc Ha.
  rewrite !Forall_cons in Hplain. destruct Hplain as (Hau & Hps & Hxc & _). eapply gr_l402; try done.
  - rewrite get_all_field, Hau, decide_True by done. done.
  - by rewrite get_all_other.
  - intros _. by rewrite get_all_other.
  - rewrite binding_field; [exact Hb| |done]. by apply (bool_decide_unpack _).
Qed.
Lemma x402_grounds (answer : ∀ X, Cmd X → X) srv req domain site p ip url hash value receipt :
  door answer srv req domain site p ip →
  Ln.x402 (Ln.protocols p) = true → "payment-signature" ∉ Ln.headers p →
  lightning_binding req p (srv_tls srv) (max_body_bytes (controls site)) = Ok (url, hash) →
  header_to_str value = Some value → (slen value ≤ Ln.MAX_PAYMENT_HEADER)%nat →
  answer _ (Settle p hash value) = Ok receipt →
  grounds answer srv (with_field "payment-signature" value req) domain site.
Proof.
  intros [_ _ _ _ _ _ _ Hp Hsv Hsec Hplain] Hx Hn Hb Hv Hlen Ha.
  rewrite !Forall_cons in Hplain. destruct Hplain as (Hau & Hps & Hxc & _). eapply gr_x402; try done.
  - rewrite get_all_field, Hps, decide_True by done. done.
  - by rewrite get_all_other.
  - intros _. by rewrite get_all_other.
  - rewrite binding_field; [exact Hb| |done]. by apply (bool_decide_unpack _).
Qed.
End visit.

(** ** The whole visit *)

Section whole.
Context `{UrlLib, MintUrlLib, Sha256, HmacSha256, InvoiceLib, Proofs.LnJson, Service.StoreJson, Base64, MacaroonLib}.
Context `{HeaderValues, HttpLib, JsonLib, PaymentRequests, Client.JsonText}.
Context `{!HeaderValueLaws, !HttpVisible, !Base64Laws, !Sha256Laws, !MacaroonLaws, !InvoiceLaws}.

Lemma binding_hash_ascii req p tls max url hash :
  lightning_binding req p tls max = Ok (url, hash) → str_is_ascii hash = true.
Proof.
  intros Hb. unfold lightning_binding in Hb. inv_ok. simplify_eq.
  match goal with Hh : Ln.request_hash _ _ _ _ _ = Ok _ |- _ => unfold Ln.request_hash in Hh; inv_ok; simplify_eq end.
  unfold Ln.digest, str_is_ascii. eapply bytes_all_impl; [|apply Ln.lowercase_hex_hex]. intros c.
  unfold is_ascii_digit, in_range. rewrite orb_true_iff, !andb_true_iff, !Z.leb_le. lia.
Qed.
Lemma minted_until p hash inv root nonce key vb encoded :
  Proofs.l402_mint p hash inv root nonce = Ok (key, vb, encoded) →
  vb = inv_created inv + inv_expiry inv + Ln.SKEW + 1 ∧ vb ≤ u64_max.
Proof.
  unfold Proofs.l402_mint. intros Hm. inv_ok. simplify_eq. by apply Proofs.valid_before_of_spec.
Qed.
Lemma header_parts encoded invoice n :
  bytes_all visible (Service.l402_header encoded invoice) = true → (slen (Service.l402_header encoded invoice) ≤ n)%nat →
  bytes_all visible invoice = true ∧ (slen encoded ≤ n)%nat.
Proof.
  unfold Service.l402_header. rewrite !bytes_all_app, !andb_true_iff, !slen_app. intros Hv Hl. split; [tauto|lia].
Qed.

Lemma authorization_unbound p :
  Ln.validate_binding p = Ok tt → Ln.l402 (Ln.protocols p) = true → "authorization" ∉ Ln.headers p.
Proof.
  intros Hval Hl. unfold Ln.validate_binding in Hval. inv_ok. rewrite Hl in *. cbn in *.
  match goal with Hau : negb (bool_decide _) = true |- _ => by apply negb_true_iff, bool_decide_eq_false in Hau end.
Qed.
Lemma signature_unbound p : Ln.validate_binding p = Ok tt → "payment-signature" ∉ Ln.headers p.
Proof.
  intros Hval Hin. unfold Ln.validate_binding in Hval. inv_ok.
  rewrite forallb_forall in Hval. specialize (Hval _ (proj1 (list_elem_of_In _ _) Hin)). cbn beta in Hval.
  change (Ln.reserved_header "payment-signature") with true in Hval. by rewrite andb_false_r in Hval.
Qed.
(** An invoice that was good when it was made is good until it and its grace are over. *)
Lemma validate_later p hash invoice t1 t2 inv :
  Proofs.validate_invoice p hash invoice t1 0 = Ok inv → t1 ≤ t2 ≤ inv_created inv + inv_expiry inv + Ln.SKEW →
  t2 < u64_max → Proofs.validate_invoice p hash invoice t2 Ln.SKEW = Ok inv.
Proof.
  intros Hv Ht Hmax. destruct (Proofs.validate_invoice_good _ _ _ _ _ _ Hv) as [_ Hg].
  destruct Hg as [_ _ _ _ Hcreated _ _ Hu64]. unfold Proofs.validate_invoice in *. inv_ok. subst.
  repeat match goal with Hx : _ = _ |- _ => rewrite Hx; cbn [ok_or ensure mbind result_bind] end.
  match goal with Hc : u64_checked_add _ _ = Some _ |- _ => apply Proofs.u64_checked_add_Some in Hc as [-> _] end.
  match goal with Hc : (_ <=? u64_sat_add t1 _) = true |- _ => apply Z.leb_le in Hc end.
  unfold Ln.SKEW in *. rewrite (proj2 (Z.leb_le t2 _)), orb_true_r by solve_width.
  by rewrite (proj2 (Z.leb_le _ _)) by solve_width.
Qed.

(** C6: a client that pays is served.  A site sells for Lightning payments to a node; a
    request without payment comes when the free allowance is used up, and the service
    makes a challenge for it.  Then the answer is a 402 with an invoice that is valid
    for the request, and whoever runs the client of this repository on that answer and
    pays the invoice will have the request repeated with a credential with which the
    proxy, asking the service, serves it: the site's backend gets the request, or the
    client gets the site's own answer; until the invoice and its grace
    are over, if the journal has kept its records and the payment was not used. *)
Theorem paying_client_served
    env1 t1 st0 st1 ch env2 t2 st2 a1 a2 srv req ctx1 now2 domain site p node ip url hash r :
  door a1 srv req domain site p ip → door a2 srv req domain site p ip →
  Ln.receiver p = Ln.Ldk node → Ln.validate_binding p = Ok tt → Ln.l402 (Ln.protocols p) = true →
  lightning_binding req p (srv_tls srv) (max_body_bytes (controls site)) = Ok (url, hash) →
  (∀ l, rate_limit site = Some l → ∃ w, a1 _ (CheckLimiter l ip) = Err w) →
  exec env1 t1 (Service.challenge p url hash ip) st0 = (st1, Ok ch) →
  (∀ n s, env1 _ (Service.Random n) = Ok s → slen s = n) →
  a1 _ (MakeChallenge p url hash ip) = Ok ch →
  (follow a1 (request_filter srv req ctx1)).2.2 = Answer Gate r →
  a2 _ (CheckLimiter (payment_verification site) ip) = Ok tt →
  (∀ credential, a2 _ (SettleL402 p hash credential) =
     (exec env2 t2 (Service.settle_l402 p hash credential) st2).2) →
  Service.roots st1 ⊆ Service.roots st2 →
  status r = 402 ∧
  ∃ header invoice inv,
    get "www-authenticate" (resp_headers r) = Some header ∧
    Proofs.validate_invoice p hash invoice t1 0 = Ok inv ∧
    (bytes_all visible header = true → (slen header + 65 ≤ Ln.MAX_PAYMENT_HEADER)%nat →
     ∀ client client_url u pre requests,
       Client.paying client client_url u (resp_headers r) inv pre → (1 ≤ requests)%nat →
       t2 ≤ inv_created inv + inv_expiry inv + Ln.SKEW →
       Service.spent st2 !! Proofs.spent_key p (inv_payment_hash inv) = None →
       ∃ value, let retry := Client.Get (url_as_str u) (Some ("authorization", value)) in
         calls client (Client.main Client.L402 client_url requests) (Ev retry (client _ retry)) ∧
         let e := (follow a2 (request_filter srv (with_field "authorization" value req) (new_ctx now2))).2 in
         served e.2 = true ∧ handed (with_field "authorization" value req) site e).
Proof.
  intros Hd1 Hd2 Hnode Hval Hl Hb Hgone Hch Hrandom Ha1 Hr Hlim Ha2 Hsub.
  destruct (challenge_made env1 t1 p node url hash ip st0 st1 ch Hch Hnode) as (invoice & inv & Hinv & _ & Hmade).
  destruct (Hmade Hl Hrandom) as (root & nonce & key & vb & encoded & Hmint & Hroot & Hnonce & Hrec & Hhd).
  destruct (first_visit a1 srv req ctx1 domain site p ip url hash ch "www-authenticate" _ r Hd1 Hgone Hb Ha1
    (or_intror (conj eq_refl Hhd)) Hr) as [Hst Hget].
  split; [done|]. exists (Service.l402_header encoded invoice), invoice, inv. split; [done|]. split; [done|].
  intros Hvis Hlen client client_url u pre requests Hpay Hn Ht Hspent.
  destruct (header_parts encoded invoice _ Hvis ltac:(apply Nat.le_add_le_sub_r, Hlen)) as [Hivis Helen].
  destruct (minted_until _ _ _ _ _ _ _ _ Hmint) as [Hvb Hmax].
  destruct (Proofs.validate_invoice_good _ _ _ _ _ _ Hinv) as [Hparse _].
  destruct (Client.client_pays_l402 client client_url u (resp_headers r) invoice inv pre requests p hash root nonce
    key vb encoded t2 Hpay Hn Hmint Hnonce Hget Hparse Hivis (binding_hash_ascii _ _ _ _ _ _ Hb) ltac:(lia) ltac:(lia))
    as (value & credential & macaroon & Hcall & Hcred & Hpc & Hkey & Hid & Hver).
  exists value. split; [done|]. subst key.
  apply (second_visit a2 srv req now2 domain site p ip); try done. eapply l402_grounds; try done.
  - by apply authorization_unbound.
  - rewrite Ha2. eapply (settle_accepts env2 t2 p node hash credential macaroon pre root vb); try done.
    + by eapply lookup_weaken.
    + by rewrite Hid.
Qed.

Lemma retention_after inv t2 :
  t2 ≤ inv_created inv + inv_expiry inv + Ln.SKEW → t2 < u64_max → t2 < Proofs.retention inv.
Proof. unfold Proofs.retention, Ln.SKEW. solve_width. Qed.

(** C7: a client that pays by x402 is served.  As for L402: a site sells for Lightning
    payments to a node, the free allowance is used up, and the service makes a
    challenge for the request.  Then the answer is a 402 whose [PAYMENT-REQUIRED] header
    holds an invoice that is valid for the request; whoever runs the client of this
    repository on that answer and pays the invoice will have the request repeated with
    a [PAYMENT-SIGNATURE] header with which the proxy, asking the service, serves it:
    the site's backend gets the request, or the client gets the site's own answer; until the invoice and its grace are over, if the payment was not used and
    unless the header is longer than what the proxy reads. *)
Theorem paying_x402_client_served `{!Secp, !Client.JsonTextLaws}
    env1 t1 st0 st1 ch env2 t2 st2 a1 a2 srv req ctx1 now2 domain site p node ip url hash r :
  door a1 srv req domain site p ip → door a2 srv req domain site p ip →
  Ln.receiver p = Ln.Ldk node → Ln.ReceiverConfig_validate (Ln.receiver p) = Ok tt →
  Ln.validate_binding p = Ok tt → Ln.x402 (Ln.protocols p) = true →
  lightning_binding req p (srv_tls srv) (max_body_bytes (controls site)) = Ok (url, hash) →
  (∀ l, rate_limit site = Some l → ∃ w, a1 _ (CheckLimiter l ip) = Err w) →
  exec env1 t1 (Service.challenge p url hash ip) st0 = (st1, Ok ch) →
  a1 _ (MakeChallenge p url hash ip) = Ok ch →
  (follow a1 (request_filter srv req ctx1)).2.2 = Answer Gate r →
  a2 _ (CheckLimiter (payment_verification site) ip) = Ok tt →
  (∀ encoded, a2 _ (Settle p hash encoded) = (exec env2 t2 (Service.settle p hash encoded) st2).2) →
  status r = 402 ∧
  ∃ header invoice inv,
    get "payment-required" (resp_headers r) = Some header ∧
    Proofs.validate_invoice p hash invoice t1 0 = Ok inv ∧
    (∀ client client_url u pre requests,
       Client.paying client client_url u (resp_headers r) inv pre → (1 ≤ requests)%nat →
       t1 ≤ t2 ≤ inv_created inv + inv_expiry inv + Ln.SKEW → t2 < u64_max →
       Service.spent st2 !! Proofs.spent_key p (inv_payment_hash inv) = None →
       ∃ value, let retry := Client.Get (url_as_str u) (Some ("payment-signature", value)) in
         calls client (Client.main Client.X402 client_url requests) (Ev retry (client _ retry)) ∧
         ((slen value ≤ Ln.MAX_PAYMENT_HEADER)%nat →
          let e := (follow a2 (request_filter srv (with_field "payment-signature" value req) (new_ctx now2))).2 in
          served e.2 = true ∧ handed (with_field "payment-signature" value req) site e)).
Proof.
  intros Hd1 Hd2 Hnode Hrec Hval Hx Hb Hgone Hch Ha1 Hr Hlim Ha2.
  destruct (challenge_made env1 t1 p node url hash ip st0 st1 ch Hch Hnode) as (invoice & inv & Hinv & Hmade & _).
  pose proof (Hmade Hx) as Hhd.
  destruct (first_visit a1 srv req ctx1 domain site p ip url hash ch "payment-required" _ r Hd1 Hgone Hb Ha1
    (or_introl (conj eq_refl Hhd)) Hr) as [Hst Hget].
  split; [done|]. eexists _, invoice, inv. split; [exact Hget|]. split; [done|].
  intros client client_url u pre requests Hpay Hn Ht Hmax Hspent.
  destruct (Client.client_pays_x402 client client_url u (resp_headers r) url invoice inv pre requests p node hash t2
    Hpay Hn Hnode Hrec Hget (validate_later _ _ _ _ _ _ Hinv Ht Hmax)) as (value & Hcall & Hstr & Hver).
  exists value. split; [done|]. intros Hlen.
  destruct (settle_accepts_x402 env2 t2 p hash value _ _ _ st2 (Hver Hlen) Hspent
    (retention_after inv t2 (proj2 Ht) Hmax)) as [receipt Hset].
  assert ("payment-signature" ∉ Ln.headers p) as Hunb by (by apply signature_unbound).
  apply (second_visit a2 srv req now2 domain site p ip); try done.
  - eapply x402_grounds; try done. by rewrite Ha2.
  - intros url' h e v _ Hb'. rewrite binding_field in Hb' by (done || by apply (bool_decide_unpack _)).
    assert (h = hash) as -> by congruence. rewrite Ha2. intros [text ->]%settle_receipt. apply Client.base64_visible.
Qed.
End whole.

(** ** A visit to a shop *)

Module Examples.
Import Toy Proofs.Examples Admission.Examples Client.Examples.

Definition shop : Site :=
  {| domain := "example.com"; https := true; handler := Proxy example_upstream; rate_limit := None;
     payment := None; lightning := Some client_policy; capacity := None;
     controls := RequestControls_default; payment_verification := example_limiter 0 |}.
Definition request : Request :=
  {| method := "GET"; uri_scheme := None; uri_authority := None; uri_path := "/a"; path_and_query := Some "/a";
     req_headers := [("host", "example.com"); ("accept", "*/*")]; client_ip := Some (V4 3221226001);
     body := []; retry_buffer_truncated := false |}.
Definition bound : string * string :=
  default ("", "") (ok (lightning_binding request client_policy true None)).
(** The invoice of the node for that request. *)
Definition bill : Invoice :=
  {| inv_signature_ok := true; inv_payee := node_key; inv_currency := Bitcoin;
     inv_amount_msat := Some 21000; inv_description := DescriptionHash (default "" (ok (Ln.decode_pairs bound.2)));
     inv_created := 1000; inv_expiry := 300; inv_payment_hash := sha example_preimage |}.
#[local] Instance bills : InvoiceLib := λ s, if bool_decide (s = "lnbc3") then Some bill else None.
#[local] Instance bill_laws : InvoiceLaws.
Proof.
  split; intros e inv; unfold parse_invoice, bills; case_bool_decide; intros [= <-];
    vm_compute; try done; by split.
Qed.

Definition node_env (X : Type) (c : Service.LnCmd X) : X :=
  match c with
  | Service.Admit _ _ => Ok tt
  | Service.Random n => Ok (take_pad n "nonce")
  | Service.NodeInvoice _ _ _ => Ok "lnbc3"
  | Service.MintInvoice _ _ => Err "mint"
  | Service.CollectMintInvoice _ _ _ _ => Err "mint"
  | Service.CanPruneMintDeposit _ _ _ _ => Err "mint"
  | Service.RemoveRetiredMintQuote _ _ => Err "mint"
  | Service.RecoverMintDeposits _ _ => Err "mint"
  | Service.CleanupLock => true
  | Service.Elapsed => false
  end.
Definition issued : Service.Store * result anyhow Service.Challenge :=
  exec node_env 1100 (Service.challenge client_policy bound.1 bound.2 (V4 3221226001)) Service.empty.
Definition gate_answer (X : Type) (c : Cmd X) : X :=
  match c in Cmd X return X with
  | LoadConfig => {| sites := {["example.com" := shop]}; payouts := [] |}
  | ReadChallenge _ _ => None
  | CheckRedirect _ => Ok tt
  | SetDeadline _ => tt
  | CheckLimiter _ _ => Ok tt
  | TryAcquire _ ip => Some ip
  | Settle p h e => (exec node_env 1300 (Service.settle p h e) issued.1).2
  | SettleL402 p h e => (exec node_env 1300 (Service.settle_l402 p h e) issued.1).2
  | Collect _ _ _ => Err Pay.Unavailable
  | MakeChallenge p u h ip => (exec node_env 1100 (Service.challenge p u h ip) Service.empty).2
  end.
Definition demand : Response :=
  match (follow gate_answer (request_filter example_server request (new_ctx 0))).2.2 with
  | Answer Gate r => r
  | _ => {| status := 0; resp_headers := []; resp_body := None |}
  end.
Definition user (X : Type) (c : Client.Cmd X) : X :=
  match c with
  | Client.Connector => Ok tt
  | Client.Get _ None => Ok {| Client.status := 402; Client.resp_headers := resp_headers demand; Client.body := "" |}
  | Client.Get _ (Some _) => Ok {| Client.status := 200; Client.resp_headers := []; Client.body := "paid" |}
  | Client.ShowStatus _ | Client.ShowText _ | Client.ShowInvoice _ _ _ => tt
  | Client.Flush | Client.WriteAll _ => Ok tt
  | Client.IsExpired _ => false
  | Client.ReadLine => Ok pasted
  end.

Lemma shop_door : door gate_answer example_server request "example.com" shop client_policy (V4 3221226001).
Proof. split; try reflexivity; try done. repeat constructor. Qed.
Lemma user_pays :
  Client.paying user "https://example.com/a" (https_origin "https://example.com/a") (resp_headers demand) bill example_preimage.
Proof.
  split; try reflexivity.
  - by eexists.
  - by eexists.
  - exists pasted. split; [reflexivity|]. vm_compute. reflexivity.
Qed.

Lemma paying_client_served_witness :
  status demand = 402 ∧
  ∃ value, calls user (Client.main Client.L402 "https://example.com/a" 1)
      (Ev (Client.Get "https://example.com/a" (Some ("authorization", value)))
          (Ok {| Client.status := 200; Client.resp_headers := []; Client.body := "paid" |})) ∧
    let e := (follow gate_answer (request_filter example_server (with_field "authorization" value request) (new_ctx 0))).2 in
    served e.2 = true ∧ handed (with_field "authorization" value request) shop e.
Proof.
  edestruct (paying_client_served node_env 1100 Service.empty issued.1 (default {| Service.ch_x402 := None; Service.ch_l402 := None |} (ok issued.2))
    node_env 1300 issued.1 gate_answer gate_answer example_server request (new_ctx 0) 0 "example.com" shop
    client_policy _ (V4 3221226001) bound.1 bound.2 demand shop_door shop_door eq_refl)
    as (Hst & header & invoice & inv & Hget & Hinv & Hgo);
    [vm_compute; reflexivity|reflexivity|vm_compute; reflexivity|discriminate|vm_compute; reflexivity| |
     vm_compute; reflexivity|vm_compute; reflexivity|reflexivity|reflexivity|reflexivity|].
  - intros n s [= <-]. apply take_pad_len.
  - split; [exact Hst|].
    assert (inv = bill) as ->.
    { apply Proofs.validate_invoice_good in Hinv as [Hp _]. unfold parse_invoice, bills in Hp.
      case_bool_decide; [by injection Hp as <-|done]. }
    assert (Some header = get "www-authenticate" (resp_headers demand)) as Hh by (by rewrite Hget).
    vm_compute in Hh. injection Hh as ->.
    apply (Hgo ltac:(vm_compute; reflexivity) ltac:(apply Nat.leb_le; vm_compute; reflexivity)
      user _ _ _ 1%nat user_pays); [lia|vm_compute; discriminate|vm_compute; reflexivity].
Defined.

Lemma paying_x402_client_served_witness :
  status demand = 402 ∧
  ∃ value, calls user (Client.main Client.X402 "https://example.com/a" 1)
      (Ev (Client.Get "https://example.com/a" (Some ("payment-signature", value)))
          (Ok {| Client.status := 200; Client.resp_headers := []; Client.body := "paid" |})) ∧
    ((slen value ≤ Ln.MAX_PAYMENT_HEADER)%nat →
     let e := (follow gate_answer (request_filter example_server (with_field "payment-signature" value request) (new_ctx 0))).2 in
     served e.2 = true ∧ handed (with_field "payment-signature" value request) shop e).
Proof.
  edestruct (paying_x402_client_served node_env 1100 Service.empty issued.1 (default {| Service.ch_x402 := None; Service.ch_l402 := None |} (ok issued.2))
    node_env 1300 issued.1 gate_answer gate_answer example_server request (new_ctx 0) 0 "example.com" shop
    client_policy _ (V4 3221226001) bound.1 bound.2 demand shop_door shop_door eq_refl)
    as (Hst & header & invoice & inv & Hget & Hinv & Hgo);
    [vm_compute; reflexivity|vm_compute; reflexivity|reflexivity|vm_compute; reflexivity|discriminate|
     vm_compute; reflexivity|vm_compute; reflexivity|vm_compute; reflexivity|reflexivity|reflexivity|].
  split; [exact Hst|].
  assert (inv = bill) as ->.
  { apply Proofs.validate_invoice_good in Hinv as [Hp _]. unfold parse_invoice, bills in Hp.
    case_bool_decide; [by injection Hp as <-|done]. }
  apply (Hgo user _ _ _ 1%nat user_pays); [lia|split; vm_compute; discriminate|reflexivity|vm_compute; reflexivity].
Defined.
(** In that run the header is short enough. *)
Definition sent_payment : string :=
  match Client.read_challenge Client.X402 (resp_headers demand) with
  | Ok (_, m, offer) => (Client.credential Client.X402 m offer (Ln.hex example_preimage)).2
  | Err _ => ""
  end.
Example sent_fits : (slen sent_payment <=? Ln.MAX_PAYMENT_HEADER)%nat && (1000 <? slen sent_payment)%nat = true.
Proof. vm_compute. reflexivity. Qed.
End Examples.
End Visit.
