(* ===== verification/Deadline.v ===== *)
(** * The deadline of a request ([BoundedProxy] of [proxy.rs])

    [process_new_http] runs pingora's handling of a request against a deadline: 60
    seconds until the request is routed, then what its site says
    ([SetDeadline] of [Proxy]).  The deadline is in a watch channel; a second future
    sleeps until it, and goes back to sleep when it is replaced.

    A poll of the task is one step.  Which futures a [select!] polls first is random,
    so it is part of the step, and so are the time and what the polled handling does. *)
From S2P Require Import Prelude Text Net Flow RateLimit Capacity Config Proxy.
#[local] Open Scope list_scope.
#[local] Open Scope Z_scope.

Module Deadline.

Inductive Phase := Running | Finished | Expired.
#[export] Instance Phase_eq_dec : EqDecision Phase.
Proof. solve_decision. Defined.
Record Session := {
  (** the value in the channel, and whether the receiver has not seen it *)
  channel : option Z;
  unseen : bool;
  (** [deadline] of the loop in [expiration] *)
  sleeping : option Z;
  phase : Phase;
  (** calls of [record_rejection(408)] *)
  timeouts : nat
}.
(** The loop has not looked at the channel before its first poll. *)
Definition start (now : Z) : Session :=
  {| channel := Some (now + 60 * 1000000000); unseen := true; sleeping := None; phase := Running;
     timeouts := 0 |}.

(** A poll: the time, the deadlines [request_filter] sets while the handling is polled
    and whether it completes, which of the two futures is polled first, and whether
    the sleep is polled before the channel. *)
Record Poll := {
  now : Z; sends : list (option Z); completes : bool; inner_first : bool; sleep_first : bool
}.

Definition due (deadline : option Z) (now : Z) : bool := is_some_and (λ d, d <=? now) deadline.

(** [expiration] polled: whether it is over. *)
Definition poll_expiration (p : Poll) (s : Session) : bool * Session :=
  let woken := {| channel := channel s; unseen := false; sleeping := channel s; phase := phase s;
                  timeouts := timeouts s |} in
  if due (sleeping s) (now p) && (sleep_first p || negb (unseen s)) then (true, s)
  else if unseen s then (due (channel s) (now p), woken)
  else (false, s).
(** The handling polled: [send_replace] marks the value as unseen. *)
Definition poll_inner (p : Poll) (s : Session) : bool * Session :=
  (completes p,
   fold_left (λ s d, {| channel := d; unseen := true; sleeping := sleeping s; phase := phase s;
                        timeouts := timeouts s |}) (sends p) s).
Definition finish (ph : Phase) (s : Session) : Session :=
  {| channel := channel s; unseen := unseen s; sleeping := sleeping s; phase := ph;
     timeouts := timeouts s + (match ph with Expired => 1 | _ => 0 end) |}.

(** The [select!] of [process_new_http]. *)
Definition poll (s : Session) (p : Poll) : Session :=
  match phase s with
  | Running =>
      if inner_first p then
        let '(done, s) := poll_inner p s in
        if done then finish Finished s
        else let '(over, s) := poll_expiration p s in if over then finish Expired s else s
      else
        let '(over, s) := poll_expiration p s in
        if over then finish Expired s
        else let '(done, s) := poll_inner p s in if done then finish Finished s else s
  | _ => s
  end.
Definition run (now : Z) (l : list Poll) : Session := fold_left poll l (start now).

(** ** Properties *)

Definition poll_inv (s : Session) : Prop :=
  (unseen s = false → sleeping s = channel s) ∧
  timeouts s = (match phase s with Expired => 1 | _ => 0 end)%nat.

Lemma poll_inner_spec p s :
  let s' := (poll_inner p s).2 in
  sleeping s' = sleeping s ∧ phase s' = phase s ∧ timeouts s' = timeouts s ∧
  (sends p = [] → s' = s) ∧ (sends p ≠ [] → unseen s' = true).
Proof.
  unfold poll_inner. simpl. induction (sends p) as [|d l IH] using rev_ind; [split_and!; try done; by intros Hn; destruct Hn|].
  rewrite fold_left_app. simpl. destruct IH as (? & ? & ? & _). split_and!; try done. by destruct l.
Qed.
Lemma poll_expiration_spec p s over s' :
  poll_expiration p s = (over, s') → (unseen s = false → sleeping s = channel s) →
  channel s' = channel s ∧ phase s' = phase s ∧ timeouts s' = timeouts s ∧
  (unseen s' = false → sleeping s' = channel s') ∧
  (if over then due (channel s) (now p) = true ∨ due (sleeping s) (now p) = true ∧ unseen s = true
   else due (channel s) (now p) = false).
Proof.
  unfold poll_expiration. intros He Hs. destruct (due (sleeping s) (now p)) eqn:Ed, (unseen s) eqn:Eu; simpl in He.
  - destruct (sleep_first p); simpl in He; injection He as <- <-; simpl; [by split_and!; try congruence; auto|].
    destruct (due (channel s) (now p)); by split_and!; try congruence; auto.
  - rewrite orb_true_r in He. injection He as <- <-. rewrite Hs in Ed by done. by split_and!; try congruence; auto.
  - injection He as <- <-. simpl. destruct (due (channel s) (now p)); by split_and!; try congruence; auto.
  - injection He as <- <-. rewrite Hs in Ed by done. by split_and!; try congruence; auto.
Qed.

Lemma finish_inv ph s :
  (unseen s = false → sleeping s = channel s) → timeouts s = 0%nat → poll_inv (finish ph s).
Proof. intros Hs Ht. split; [done|]. simpl. rewrite Ht. by destruct ph. Qed.
Lemma running_inv s :
  (unseen s = false → sleeping s = channel s) → timeouts s = 0%nat → phase s = Running → poll_inv s.
Proof. intros Hs Ht Hr. split; [done|]. by rewrite Hr. Qed.

(** What one poll of a running request can do. *)
Lemma poll_spec s p :
  poll_inv s → phase s = Running →
  poll_inv (poll s p) ∧
  (phase (poll s p) = Running → sends p = [] → due (channel s) (now p) = false ∧ channel (poll s p) = channel s) ∧
  (phase (poll s p) = Expired → due (channel s) (now p) = true ∨ due (channel (poll s p)) (now p) = true ∨
     due (sleeping s) (now p) = true ∧ (unseen s = true ∨ sends p ≠ [])).
Proof.
  intros [Hs Ht] Hr. unfold poll. rewrite Hr in Ht |- *.
  destruct (poll_inner_spec p s) as (Hsl & Hph & Hti & Hno & Hyes). destruct (inner_first p).
  - destruct (poll_inner p s) as [done s1] eqn:Ei. cbn [snd] in *.
    assert (unseen s1 = false → sleeping s1 = channel s1) as Hs1.
    { intros Hu. destruct (sends p) as [|d l]; [by rewrite Hno in *; auto|]. rewrite Hyes in Hu; done. }
    assert (timeouts s1 = 0%nat) as H1 by congruence.
    destruct done; [split; [by apply finish_inv|done]|].
    destruct (poll_expiration p s1) as [over s2] eqn:Ee.
    destruct (poll_expiration_spec _ _ _ _ Ee Hs1) as (Hc & Hp2 & Ht2 & Hu2 & Ho). destruct over.
    + split; [apply finish_inv; [done|congruence]|]. split; [done|]. intros _. simpl. rewrite Hc.
      destruct (sends p) as [|d l]; [rewrite Hno in Ho |- * by done|]; destruct Ho as [?|[? ?]]; auto.
      right. right. rewrite <- Hsl. auto.
    + assert (phase s2 = Running) as Hr2 by congruence.
      split; [apply running_inv; [done|congruence|done]|]. split; [|congruence].
      intros _ Hn. rewrite Hno in Ho, Hc by done. auto.
  - clear Hsl Hph Hti Hno Hyes. destruct (poll_expiration p s) as [over s1] eqn:Ee.
    destruct (poll_expiration_spec _ _ _ _ Ee Hs) as (Hc & Hp1 & Ht1 & Hu1 & Ho). destruct over.
    { split; [apply finish_inv; [done|congruence]|]. split; [done|]. intros _. destruct Ho as [?|[? ?]]; auto. }
    destruct (poll_inner_spec p s1) as (Hsl & Hph & Hti & Hno & Hyes).
    destruct (poll_inner p s1) as [done s2] eqn:Ei. cbn [snd] in *.
    assert (unseen s2 = false → sleeping s2 = channel s2) as Hs2.
    { intros Hu. destruct (sends p) as [|d l]; [by rewrite Hno in *; auto|]. rewrite Hyes in Hu; done. }
    assert (timeouts s2 = 0%nat) as H2 by congruence.
    destruct done; [split; [by apply finish_inv|done]|]. assert (phase s2 = Running) as Hr2 by congruence.
    split; [by apply running_inv|]. split; [|congruence]. intros _ Hn. rewrite Hno by done. auto.
Qed.
Lemma poll_stopped s p : phase s ≠ Running → poll s p = s.
Proof. unfold poll. by destruct (phase s). Qed.
Lemma session_inv t0 l : poll_inv (run t0 l).
Proof.
  unfold run. assert (poll_inv (start t0)) as Hi by done. revert Hi. generalize (start t0).
  induction l as [|p l IH]; intros s Hs; [done|]. apply IH.
  destruct (phase s) eqn:E; [by apply poll_spec|by rewrite poll_stopped; rewrite ?E..].
Qed.

(** A poll in which the handling does not replace the deadline. *)
Lemma quiet_poll s p :
  sends p = [] → phase s = Running → channel (poll s p) = channel s ∧
  (phase (poll s p) = Running → unseen (poll s p) = false) ∧
  (completes p = false → phase (poll s p) ≠ Finished).
Proof.
  intros Hn Hr. unfold poll, poll_inner, poll_expiration. rewrite Hn, Hr. simpl.
  destruct (inner_first p), (completes p), (due (sleeping s) (now p)), (sleep_first p), (unseen s) eqn:Hu,
    (due (channel s) (now p)); simpl; rewrite ?Hr, ?Hu; split_and!; done || congruence.
Qed.

(** The last of these polls did not replace the deadline, or there was none yet: the
    deadline in the channel has been in force for a whole poll. *)
Definition settled (l : list Poll) : Prop := l = [] ∨ ∃ l' q, l = l' ++ [q] ∧ sends q = [].
Lemma run_snoc t0 l p : run t0 (l ++ [p]) = poll (run t0 l) p.
Proof. unfold run. by rewrite fold_left_app. Qed.
Lemma settled_seen t0 l :
  settled l → phase (run t0 l) = Running → unseen (run t0 l) = false ∨ sleeping (run t0 l) = None.
Proof.
  intros [->|(l' & q & -> & Hq)] Hr; [by right|]. left. rewrite run_snoc in *.
  destruct (phase (run t0 l')) eqn:E; [|by rewrite poll_stopped in Hr; congruence..].
  by apply (quiet_poll _ _ Hq E).
Qed.

(** C11: requests are cut at their deadline.  Whatever the order in which the futures
    of a request are polled: a poll that does not replace the deadline leaves the
    request running only if its deadline is still to come, so that none outlives its
    deadline; once a deadline is in force for a whole poll, the polls that follow cut
    the request if and only if that deadline has passed (a handling that completes in
    the same poll may win); around a replacement, a request that is cut had passed the
    old deadline or the new one: the old one counts until the loop has seen the new
    one, also in the poll that replaces it.  A rejection with 408 is recorded once for
    a request that is cut, and never for another. *)
Theorem cut_at_deadline t0 l p :
  let s := run t0 l in
  let s' := run t0 (l ++ [p]) in
  (phase s' = Running → sends p = [] → ∀ d, channel s' = Some d → now p < d) ∧
  (phase s = Running → settled l → sends p = [] →
     (phase s' = Expired → ∃ d, channel s' = Some d ∧ d ≤ now p) ∧
     (completes p = false → (∃ d, channel s' = Some d ∧ d ≤ now p) → phase s' = Expired)) ∧
  (phase s = Running → phase s' = Expired → ∃ d, d ≤ now p ∧
     (channel s = Some d ∨ channel s' = Some d ∨
      sleeping s = Some d ∧ (unseen s = true ∨ sends p ≠ []))) ∧
  timeouts s' = (if bool_decide (phase s' = Expired) then 1 else 0)%nat.
Proof.
  intros s s'. pose proof (session_inv t0 l) as Hi. pose proof (session_inv t0 (l ++ [p])) as [_ Ht].
  assert (s' = poll s p) as Hs by apply run_snoc.
  fold s in Hi. fold s' in Ht.
  assert (∀ o, due o (now p) = true → ∃ d, o = Some d ∧ d ≤ now p) as Hdue.
  { intros [d|] Hd; [|done]. exists d. split; [done|]. by apply Z.leb_le. }
  assert (phase s' = Running → sends p = [] → due (channel s') (now p) = false) as Hon.
  { intros Hr Hn. destruct (phase s) eqn:E; [|rewrite Hs, poll_stopped in Hr by (by rewrite E); congruence..].
    destruct (poll_spec s p Hi E) as (_ & Hrun & _). rewrite <- Hs in Hrun.
    destruct (Hrun Hr Hn) as [Hd Hc]. by rewrite Hc. }
  split_and!.
  - intros Hr Hn d Hd. specialize (Hon Hr Hn). rewrite Hd in Hon. by apply Z.leb_gt.
  - intros E Hset Hn. destruct (quiet_poll s p Hn E) as (Hc & _ & Hf). rewrite <- Hs in Hc, Hf.
    destruct (poll_spec s p Hi E) as (_ & _ & Hexp). rewrite <- Hs in Hexp. split.
    + intros Hx. apply Hdue. destruct (Hexp Hx) as [Hd|[Hd|[Hd Hu]]]; [congruence|done|].
      destruct (settled_seen t0 l Hset E) as [Hsn|Hsn]; fold s in Hsn; [|by rewrite Hsn in Hd].
      destruct Hu; congruence.
    + intros Hcm (d & Hd & Hle). specialize (Hf Hcm). destruct (phase s') eqn:E'; [|done|done].
      specialize (Hon eq_refl Hn). rewrite Hd in Hon. apply Z.leb_gt in Hon. lia.
  - intros E Hx. destruct (poll_spec s p Hi E) as (_ & _ & Hexp). rewrite <- Hs in Hexp.
    destruct (Hexp Hx) as [Hd|[Hd|[Hd Hu]]]; apply Hdue in Hd as (d & Hd & Hle); exists d; auto.
  - rewrite Ht. by destruct (phase s').
Qed.

(** ** A replacement that comes too late *)

Module Examples.
Definition second (n : Z) : Z := n * 1000000000.
Definition first_poll : Poll :=
  {| now := second 0; sends := []; completes := false; inner_first := true; sleep_first := false |}.
(** After 61 seconds the request is routed, to a site that allows 200; the sleep until
    the 60 seconds is over too, and is polled before the channel. *)
Definition late_routing (sleep_first_ : bool) : Poll :=
  {| now := second 61; sends := [Some (second 200)]; completes := false; inner_first := true;
     sleep_first := sleep_first_ |}.
Example old_deadline_counts :
  phase (run 0 [first_poll; late_routing true]) = Expired ∧
  channel (run 0 [first_poll; late_routing true]) = Some (second 200) ∧
  phase (run 0 [first_poll; late_routing false]) = Running.
Proof. by vm_compute. Qed.
(** With the new deadline in force the request is cut when it has passed. *)
Definition waiting (t : Z) : Poll :=
  {| now := second t; sends := []; completes := false; inner_first := false; sleep_first := true |}.
Lemma cut_at_deadline_witness :
  phase (run 0 [first_poll; late_routing false; waiting 199]) = Running ∧
  phase (run 0 [first_poll; late_routing false; waiting 199; waiting 200]) = Expired.
Proof.
  split; [vm_compute; reflexivity|].
  destruct (cut_at_deadline 0 [first_poll; late_routing false; waiting 199] (waiting 200)) as (_ & Hcut & _).
  destruct Hcut as [_ Hcut]; [vm_compute; reflexivity|right; exists [first_poll; late_routing false], (waiting 199);
    split; reflexivity|reflexivity|]. apply Hcut; [reflexivity|]. exists (second 200). split; [vm_compute; reflexivity|].
  vm_compute. discriminate.
Defined.
End Examples.
End Deadline.
