(* ===== verification/Start.v ===== *)
(** * Commands and start ([main.rs])

    What the commands of the program do, in order: the wallet commands, [validate],
    and [run] up to the moment the services are started.  Processes are run side by
    side on one machine, and can be killed; the lock of a data directory is a file
    lock, which the system gives to one process at a time until it closes the file,
    when its [Storage] goes out of scope, or ends. *)
From S2P Require Import Prelude Text Net Effects Extern Flow Models RateLimit Capacity Ledger Cdk Terms LnPolicy Payout Config State Retry Certs.
#[local] Open Scope string_scope.
#[local] Open Scope list_scope.
#[local] Open Scope Z_scope.

Module Start.
Import Conf.

Record SocketAddr := { ip : IpAddr; port : Z }.
#[export] Instance SocketAddr_eq_dec : EqDecision SocketAddr.
Proof. solve_decision. Defined.

Inductive WalletAction :=
| Pay (request : string) (amount : option Z) (max_total : Z)
| Pending
| Reclaim (operation : string)
| Balance
| Export (amount : Z).
Inductive Command :=
| Wallet (mint : string) (data_dir : option string) (action : WalletAction)
| Run (config : string) (data_dir : option string) (http_listen https_listen : SocketAddr)
    (staging : bool) (acme_directory acme_root email : option string)
| Validate (config : string).

Section start.
Context `{Certs.TlsLib}.

(** What is handed to the services. *)
Record Server := {
  sv_config : Config;
  sv_certificates : gmap string Certs.Certificate;
  sv_http : SocketAddr; sv_https : SocketAddr;
  sv_path : string; sv_directory_url : string; sv_initial : list char;
  sv_acme_root : option string; sv_email : option string
}.

Inductive Cmd : Type → Type :=
| VarOs (name : string) : Cmd (option string)
| TryExists (path : string) : Cmd (result anyhow bool)
| ReadToString (path : string) : Cmd (result anyhow (list char))
| Absolute (path : string) : Cmd (result anyhow string)
| OpenStorage (root directory_url : string) : Cmd (result anyhow unit)     (** [Storage::open] *)
| DropStorage : Cmd unit                       (** the guard of the lock goes out of scope *)
| ReadCertificate (domain : string) : Cmd (result anyhow (option Certs.CertificatePem))
| MakeRuntime : Cmd (result anyhow unit)
| MakeTls : Cmd (result anyhow unit)
(** on the wallets and services of a data directory *)
| WalletPay (root mint request : string) (amount : option Z) (max_total : Z) : Cmd (result anyhow unit)
| WalletPending (root mint : string) (reclaim : option string) : Cmd (result anyhow (list string))
| WalletBalance (root mint : string) : Cmd (result anyhow Z)
| WalletExport (root mint : string) (amount : Z) : Cmd (result anyhow string)
| Serve (root : string) (server : Server) : Cmd unit
| Println (line : string) : Cmd unit.
Abbreviation step A := (proc Cmd (result anyhow A)).
Definition lift {A} (r : result anyhow A) : step A := Done r.

(** ** The data directory *)

(** [Path::join] with a relative path *)
Definition join (base name : string) : string :=
  if bool_decide (base = "") then name
  else if ends_with "/" base then base +:+ name else base +:+ "/" +:+ name.
Definition data_dir_under (base : string) : step string :=
  let current := join base "geata" in
  let legacy := join base "pingora-proxy" in
  let! current_exists := try_ (TryExists current) in
  if current_exists : bool then Done (Ok current)
  else
    let! legacy_exists := try_ (TryExists legacy) in
    Done (Ok (if legacy_exists : bool then legacy else current)).
Definition default_data_dir : step string :=
  let! data := perform (VarOs "XDG_DATA_HOME") in
  match data with
  | Some path => data_dir_under path
  | None =>
      let! home := perform (VarOs "HOME") in
      match home with
      | None => return_ "set --data-dir or PROXY_DATA_DIR when HOME is unavailable"
      | Some home => data_dir_under (join home ".local/share")
      end
  end.

(** A machine: its variables and which paths exist. *)
Definition on_machine (other : ∀ X, Cmd X → X) (vars : string → option string) (exists_ : string → bool)
    (X : Type) (c : Cmd X) : X :=
  match c with VarOs name => vars name | TryExists path => Ok (exists_ path) | c => other _ c end.

(** The choice is stable: it is the same once the chosen directory has been made, so
    a restart finds the data of the first run. *)
Theorem data_dir_stable other vars exists_ dir :
  (follow (on_machine other vars exists_) default_data_dir).2 = Ok dir →
  (follow (on_machine other vars (λ p, exists_ p || (p =? dir)%string)) default_data_dir).2 = Ok dir.
Proof.
  assert (∀ base,
    (follow (on_machine other vars exists_) (data_dir_under base)).2 = Ok dir →
    (follow (on_machine other vars (λ p, exists_ p || (p =? dir)%string)) (data_dir_under base)).2 = Ok dir) as Hb.
  { intros base. unfold data_dir_under, try_. cbn.
    assert (join base "geata" ≠ join base "pingora-proxy") as Hne.
    { unfold join. repeat case_match; try done; intros E; simplify_eq. }
    destruct (exists_ (join base "geata")) eqn:E1; cbn; [by intros [= ->]|].
    destruct (exists_ (join base "pingora-proxy")) eqn:E2; cbn; intros [= Hd]; subst dir.
    - destruct (String.eqb_spec (join base "geata") (join base "pingora-proxy")); [done|].
      cbn. by rewrite E2.
    - by rewrite String.eqb_refl. }
  unfold default_data_dir, perform, then_ok at 1 3. cbn [proc_bind]. rewrite !follow_do.
  cbn [on_machine]. destruct (vars "XDG_DATA_HOME") as [p|]; [apply Hb|].
  unfold then_ok. cbn [proc_bind]. rewrite !follow_do. cbn [on_machine].
  destruct (vars "HOME") as [h|]; [apply Hb|done].
Qed.
(** ** The commands *)

Section commands.
Context `{UrlLib, MintUrlLib, Secp, HttpLib, JsonString} {W : Type} `{Cdk.Lib W}.
(** [LetsEncrypt::Production.url()], [LetsEncrypt::Staging.url()], and the text of a
    configuration error *)
Context (production_url staging_url : string) (error_text : ConfigError → string).

Definition data_dir_or_default (data_dir : option string) : step string :=
  match data_dir with Some d => Done (Ok d) | None => default_data_dir end.

Definition run_action (root mint : string) (action : WalletAction) : step unit :=
  match action with
  | Pay request amount max_total =>
      let! _ := try_ (WalletPay root mint request amount max_total) in
      perform (Println "Payout delivered")
  | Pending | Reclaim _ =>
      let reclaim := match action with Reclaim operation => Some operation | _ => None end in
      let! pending := try_ (WalletPending root mint reclaim) in
      let! _ := (if bool_decide (pending = []) then perform (Println "No pending sends") else Done (Ok tt)) in
      (fix lines l := match l with
       | [] => Done (Ok tt)
       | line :: l' => let! _ := perform (Println line) in lines l'
       end) pending
  | Balance =>
      let! balance := try_ (WalletBalance root mint) in perform (Println (show balance +:+ " sat"))
  | Export amount =>
      let! _ := lift (ensure (0 <? amount) "export amount must be positive") in
      let! token := try_ (WalletExport root mint amount) in perform (Println token)
  end.
(** What runs in the scope of a [Storage]: the lock is given back when it returns,
    with or without an error. *)
Definition with_storage {A} (p : step A) : step A :=
  proc_bind p (λ r, let! _ := perform DropStorage in Done r).
Definition wallet_command (mint : string) (data_dir : option string) (action : WalletAction) : step unit :=
  let! mint := lift (Terms.parse_mint mint) in
  let! data_dir := data_dir_or_default data_dir in
  let! _ := try_ (OpenStorage data_dir "geata-cashu-wallet") in
  with_storage (let! _ := try_ MakeRuntime in run_action data_dir mint action).

(** [Config::read] *)
Definition parse_text (text : list char) : result anyhow Config := map_err error_text (Config_parse 0 text).
Definition validate_command (config : string) : step unit :=
  let! text := try_ (ReadToString config) in
  let! parsed := lift (parse_text text) in
  perform (Println (config +:+ " is valid (" +:+ show (Z.of_nat (size (sites parsed))) +:+ " sites)")).

(** The loop that loads the saved certificates. *)
Fixpoint load_all (domains : list string) (certs : gmap string Certs.Certificate) :
    step (gmap string Certs.Certificate) :=
  match domains with
  | [] => Done (Ok certs)
  | domain :: domains' =>
      let! read := perform (ReadCertificate domain) in
      load_all domains' (match Certs.stored_certificate domain read with
                         | Some cert => <[domain := cert]> certs
                         | None => certs
                         end)
  end.
Definition directory_url_of (staging : bool) (acme_directory : option string) : string :=
  match acme_directory with Some url => url | None => if staging then staging_url else production_url end.
Definition run_command (config : string) (data_dir : option string) (http_listen https_listen : SocketAddr)
    (staging : bool) (acme_directory acme_root email : option string) : step unit :=
  let! _ := lift (ensure (negb (port http_listen =? 0) && negb (port https_listen =? 0))
                    "listener ports must be nonzero") in
  let! _ := lift (ensure (negb (bool_decide (http_listen = https_listen)))
                    "HTTP and HTTPS listeners must use different addresses") in
  let! initial_config := try_ (ReadToString config) in
  let! parsed := lift (parse_text initial_config) in
  let! config_path := try_ (Absolute config) in
  let! data_dir := data_dir_or_default data_dir in
  let directory_url := directory_url_of staging acme_directory in
  let! ca_url := lift (map_err (λ _, "invalid ACME directory URL") (url_parse directory_url)) in
  let! _ := lift (ensure (bool_decide (url_scheme ca_url = "https") && is_some (url_host_str ca_url))
                    "ACME directory must be an HTTPS URL") in
  let! _ := try_ (OpenStorage data_dir directory_url) in
  with_storage
    (let! certs := load_all (https_domains parsed) ∅ in
     let! _ := try_ MakeTls in
     perform (Serve data_dir {| sv_config := parsed; sv_certificates := certs; sv_http := http_listen;
                                sv_https := https_listen; sv_path := config_path;
                                sv_directory_url := directory_url; sv_initial := initial_config;
                                sv_acme_root := acme_root; sv_email := email |})).

Definition main (c : Command) : step unit :=
  match c with
  | Wallet mint data_dir action => wallet_command mint data_dir action
  | Run config data_dir http_listen https_listen staging acme_directory acme_root email =>
      run_command config data_dir http_listen https_listen staging acme_directory acme_root email
  | Validate config => validate_command config
  end.

(** ** Processes on one machine *)

(** Which file a data directory's [proxy.lock] is, whatever the path is called. *)
Context (ident : string → nat).

Record Process := {
  command : Command;
  past : list (event Cmd);
  rest : option (step unit);             (** [None]: the process is gone *)
  lock : option nat                      (** the file lock the system has granted it *)
}.
Inductive action :=
| Launch (c : Command)
(** process [i] makes its next call, answered so, or ends *)
| Advance (i : nat) (answer : ∀ X, Cmd X → X)
| Kill (i : nat).

Definition held_elsewhere (ps : list Process) (i : nat) (d : nat) : bool :=
  existsb (λ jp, negb (jp.1 =? i)%nat && bool_decide (lock jp.2 = Some d)) (zip (seq 0 (length ps)) ps).
(** [try_lock] fails while another process has the lock. *)
Definition granted (ps : list Process) (i : nat) {X} (c : Cmd X) (x : X) : X :=
  match c in Cmd X return X → X with
  | OpenStorage root _ => λ r,
      if held_elsewhere ps i (ident root)
      then _ ← r; Err "another proxy is using this data directory" else r
  | _ => λ x, x
  end x.
Definition lock_after {X} (c : Cmd X) (x : X) (old : option nat) : option nat :=
  match c in Cmd X return X → option nat with
  | OpenStorage root _ => λ r, match r with Ok _ => Some (ident root) | Err _ => old end
  | DropStorage => λ _, None
  | _ => λ _, old
  end x.
(** The system takes the locks of a process that is gone. *)
Definition gone (p : Process) : Process := {| command := command p; past := past p; rest := None; lock := None |}.
Definition advance (ps : list Process) (i : nat) (p : Process) (answer : ∀ X, Cmd X → X) : Process :=
  match rest p with
  | Some (Do c k) =>
      let x := granted ps i c (answer _ c) in
      {| command := command p; past := past p ++ [Ev c x]; rest := Some (k x); lock := lock_after c x (lock p) |}
  | Some (Done _) => gone p
  | None => p
  end.
Definition act (ps : list Process) (a : action) : list Process :=
  match a with
  | Launch c => ps ++ [{| command := c; past := []; rest := Some (main c); lock := None |}]
  | Advance i answer => match ps !! i with Some p => <[i := advance ps i p answer]> ps | None => ps end
  | Kill i => alter gone i ps
  end.
Definition play (l : list action) : list Process := fold_left act l [].

(** The data directory a process has open, and the one a call is about. *)
Definition open_after (old : option string) (e : event Cmd) : option string :=
  match e with
  | Ev c x => match c in Cmd X return X → option string with
              | OpenStorage root _ => λ r, match r with Ok _ => Some root | Err _ => old end
              | DropStorage => λ _, None
              | _ => λ _, old
              end x
  end.
Definition opened (tr : list (event Cmd)) : option string := fold_left open_after tr None.
Definition about {X} (c : Cmd X) : option string :=
  match c with
  | WalletPay root _ _ _ _ | WalletPending root _ _ | WalletBalance root _ | WalletExport root _ _
  | Serve root _ => Some root
  | _ => None
  end.
Definition uses_opened (tr : list (event Cmd)) (X : Type) (c : Cmd X) : Prop :=
  ∀ root, about c = Some root → opened tr = Some root.

Lemma opened_snoc tr e : opened (tr ++ [e]) = open_after (opened tr) e.
Proof. unfold opened. by rewrite fold_left_app. Qed.
Abbreviation anything := (λ _ _, True).
Lemma data_dir_post data_dir tr (Φ : list (event Cmd) → result anyhow string → Prop) :
  (∀ tr' r, opened tr' = opened tr → Φ tr' r) → post uses_opened (data_dir_or_default data_dir) tr Φ.
Proof.
  intros HΦ. destruct data_dir as [d|]; [by apply HΦ|]. unfold data_dir_or_default, default_data_dir.
  assert (∀ base tr', opened tr' = opened tr → post uses_opened (data_dir_under base) tr' Φ) as Hb.
  { intros base tr' Ht. unfold data_dir_under. apply post_try; [done|].
    intros [[]|e]; try (apply HΦ; by rewrite opened_snoc). apply post_then.
    apply post_then, post_perform; [done|]. intros [b|e]; apply HΦ; by rewrite !opened_snoc. }
  apply post_then, post_perform; [done|]. intros [p|]; [apply Hb; by rewrite opened_snoc|].
  apply post_then, post_perform; [done|]. intros [h|]; [apply Hb|apply HΦ]; by rewrite !opened_snoc.
Qed.
Lemma used tr X (c : Cmd X) root : about c = Some root → opened tr = Some root → uses_opened tr X c.
Proof. unfold uses_opened. congruence. Qed.
Lemma run_action_post root mint action tr :
  opened tr = Some root → post uses_opened (run_action root mint action) tr anything.
Proof.
  intros Ho. destruct action as [request amount total| |operation| |amount]; unfold run_action.
  1,4: apply post_try; [by apply (used _ _ _ root)|]; intros []; [by apply post_perform|done].
  3: { apply post_lift; [|done]. intros [] _. apply post_try; [by apply (used _ _ _ root)|].
       intros []; [by apply post_perform|done]. }
  all: apply post_try; [by apply (used _ _ _ root)|]; intros [pending|]; [|done]; apply post_then.
  all: destruct (bool_decide _); [apply post_perform; [done|]; intros []|simpl].
  all: match goal with |- context [post _ _ ?tr' _] => generalize tr' end.
  all: induction pending as [|line pending IH]; intros tr'; [done|].
  all: apply post_then, post_perform; [done|]; intros []; apply IH.
Qed.
Lemma load_all_post domains certs tr (Φ : list (event Cmd) → result anyhow (gmap string Certs.Certificate) → Prop) :
  (∀ tr' r, opened tr' = opened tr → Φ tr' r) → post uses_opened (load_all domains certs) tr Φ.
Proof.
  intros HΦ. assert (opened tr = opened tr) as Ht by done. revert Ht. generalize tr at 1 3. revert certs.
  induction domains as [|d domains IH]; intros certs tr' Ht; [by apply HΦ|]. cbn [load_all].
  apply post_then, post_perform; [done|]. intros read. apply IH. by rewrite opened_snoc.
Qed.
(** The lock is given back after everything that needs it. *)
Lemma with_storage_post {A} (p : step A) tr :
  post uses_opened p tr anything → post uses_opened (with_storage p) tr anything.
Proof. intros Hp. apply post_bind. eapply post_mono; [|exact Hp]. done. Qed.
Lemma main_post c : post uses_opened (main c) [] anything.
Proof.
  destruct c as [mint data_dir action|config data_dir http https staging acme|config]; unfold main.
  - unfold wallet_command. apply post_lift; [|done]. intros mint' _. apply post_then, data_dir_post.
    intros tr [dir|e] _; [|done]. apply post_try; [done|]. intros [[]|e]; [|done].
    apply with_storage_post, post_try; [done|]. intros [[]|e]; [|done].
    apply run_action_post. by rewrite !opened_snoc.
  - unfold run_command. do 2 (apply post_lift; [|done]; intros [] _). apply post_try; [done|].
    intros [text|e]; [|done]. apply post_lift; [|done]. intros parsed _. apply post_try; [done|].
    intros [path|e]; [|done]. apply post_then, data_dir_post. intros tr [dir|e] _; [|done].
    apply post_lift; [|done]. intros url _. apply post_lift; [|done]. intros [] _.
    apply post_try; [done|]. intros [[]|e]; [|done]. apply with_storage_post, post_then, load_all_post.
    intros tr' [certs|e] Ht; [|done]. rewrite opened_snoc in Ht. simpl in Ht.
    apply post_try; [done|]. intros [[]|e]; [|done]. apply post_perform; [|done].
    apply (used _ _ _ dir); [done|]. by rewrite opened_snoc.
  - unfold validate_command. apply post_try; [done|]. intros [text|e]; [|done].
    apply post_lift; [|done]. intros parsed _. by apply post_perform.
Qed.

(** Each process has made the calls of its command and has the lock of what it has
    open; no lock is granted twice. *)
Definition process_ok (p : Process) : Prop :=
  match rest p with
  | Some q => steps (main (command p)) (past p) q ∧ lock p = ident <$> opened (past p)
  | None => lock p = None
  end.
Record machine_ok (ps : list Process) : Prop := {
  m_each : Forall process_ok ps;
  m_once : ∀ i j p q d, ps !! i = Some p → ps !! j = Some q → lock p = Some d → lock q = Some d → i = j
}.

Lemma held_elsewhere_spec ps i j p d :
  ps !! j = Some p → lock p = Some d → j ≠ i → held_elsewhere ps i d = true.
Proof.
  intros Hj Hl Hn. apply existsb_exists. exists (j, p). split.
  - apply list_elem_of_In, list_elem_of_lookup. exists j. apply lookup_zip_Some.
    split; [|done]. rewrite lookup_seq. split; [lia|]. by eapply lookup_lt_Some.
  - simpl. rewrite (proj2 (Nat.eqb_neq _ _)) by done. simpl. by apply bool_decide_eq_true.
Qed.
Lemma advance_ok ps i p answer : process_ok p → process_ok (advance ps i p answer).
Proof.
  unfold process_ok, advance. destruct (rest p) as [[r|X c k]|] eqn:E; [done| |by rewrite E].
  intros [Hs Hl]. simpl. split; [by apply steps_snoc|]. rewrite opened_snoc.
  destruct c; simpl; try done. by destruct (held_elsewhere _ _ _), (answer _ _).
Qed.
Lemma advance_lock ps i p answer d :
  lock (advance ps i p answer) = Some d → lock p = Some d ∨ held_elsewhere ps i d = false.
Proof.
  unfold advance. destruct (rest p) as [[r|X c k]|]; [done| |by left]. simpl.
  destruct c; simpl; auto; [|done]. destruct (held_elsewhere _ _ _) eqn:Eh, (answer _ _); simpl; auto. intros [= <-]. auto.
Qed.
Lemma insert_once ps i p p' :
  machine_ok ps → ps !! i = Some p → process_ok p' →
  (∀ d, lock p' = Some d → lock p = Some d ∨ held_elsewhere ps i d = false) → machine_ok (<[i := p']> ps).
Proof.
  intros [He Ho] Hi Hp Hl. split; [by apply Forall_insert|].
  assert (∀ j q d, j ≠ i → ps !! j = Some q → lock q = Some d → lock p' = Some d → False) as Hx.
  { intros j q d Hn Hj Hq Hd. destruct (Hl d Hd) as [Hd'|Hd'].
    - apply Hn. by eapply Ho.
    - rewrite (held_elsewhere_spec ps i j q d) in Hd'; done. }
  intros j k q r d Hj Hk Hq Hr. apply list_lookup_insert_Some in Hj as [(<- & <- & _)|[Hn Hj]],
    Hk as [(<- & <- & _)|[Hn' Hk]]; try done.
  - exfalso. by apply (Hx k r d).
  - exfalso. by apply (Hx j q d).
  - by eapply Ho.
Qed.

Lemma act_ok ps a : machine_ok ps → machine_ok (act ps a).
Proof.
  intros Hok. pose proof Hok as [He Ho]. destruct a as [c|i answer|i]; simpl.
  - split; [apply Forall_app; split; [done|]; repeat constructor|].
    intros i j p q d Hi Hj Hp Hq. apply lookup_app_Some in Hi as [Hi|[_ Hi]], Hj as [Hj|[_ Hj]];
      [by eapply Ho|apply list_lookup_singleton_Some in Hj as [_ <-]|apply list_lookup_singleton_Some in Hi as [_ <-]..];
      done.
  - destruct (ps !! i) as [p|] eqn:E; [|done]. eapply insert_once; [done..| |apply advance_lock].
    apply advance_ok. by eapply Forall_lookup_1.
  - assert (alter gone i ps = match ps !! i with Some p => <[i := gone p]> ps | None => ps end) as ->.
    { apply list_eq. intros j. destruct (decide (i = j)) as [<-|Hn].
      - rewrite list_lookup_alter_eq. destruct (ps !! i) eqn:E; [|by rewrite E].
        by rewrite list_lookup_insert_eq by (by eapply lookup_lt_Some).
      - rewrite list_lookup_alter_ne by done. case_match; by rewrite ?list_lookup_insert_ne. }
    destruct (ps !! i) as [p|] eqn:E; [|done]. by eapply insert_once.
Qed.
Lemma play_ok l : machine_ok (play l).
Proof.
  unfold play. assert (machine_ok []) as Hok by (split; [constructor|done]). revert Hok.
  generalize (@nil Process). induction l as [|a l IH]; intros ps Hok; [done|]. by apply IH, act_ok.
Qed.

(** C28: a data directory is used by one process at a time.  Processes run any of the
    commands side by side, are interrupted anywhere and killed at any time: a process
    that is about to work on a wallet or to start the services of a data directory
    has that directory open and has its lock, which it gives back only when it is done
    with them; and of two running processes that have data directories open, whatever
    the paths are called, the directories are different. *)
Theorem data_directory_exclusive l i j p q :
  play l !! i = Some p → play l !! j = Some q →
  (∀ X (c : Cmd X) k root, rest p = Some (Do c k) → about c = Some root →
     opened (past p) = Some root ∧ lock p = Some (ident root)) ∧
  (i ≠ j → is_Some (rest p) → is_Some (rest q) →
   ∀ root root', opened (past p) = Some root → opened (past q) = Some root' → ident root ≠ ident root').
Proof.
  intros Hi Hj. destruct (play_ok l) as [He Ho].
  assert (process_ok p ∧ process_ok q) as [Hp Hq] by (split; by eapply Forall_lookup_1).
  unfold process_ok in Hp, Hq. split.
  - intros X c k root Hr Ha. rewrite Hr in Hp. destruct Hp as [Hs Hl].
    assert (opened (past p) = Some root) as Hop; [|by rewrite Hl, Hop].
    apply (post_next _ _ _ _ [] _ _ (main_post (command p)) Hs root Ha).
  - intros Hn [qp Hrp] [qq Hrq] root root' Hop Hoq E. rewrite Hrp in Hp. rewrite Hrq in Hq.
    destruct Hp as [_ Hlp], Hq as [_ Hlq]. rewrite Hop in Hlp. rewrite Hoq in Hlq. simpl in Hlq. rewrite <- E in Hlq.
    by apply Hn, (Ho i j p q (ident root)).
Qed.

(** *** [validate] only looks *)

(** [validate] reads its file and prints, and makes no other call. *)
Theorem validate_only_looks config tr q X (c : Cmd X) x :
  steps (main (Validate config)) tr q → Ev c x ∈ tr →
  match c with ReadToString path => path = config | Println _ => True | _ => False end.
Proof.
  intros Hs Hin. apply list_elem_of_split in Hin as (tr1 & tr2 & ->).
  assert (post (λ _ X (c : Cmd X), match c with ReadToString path => path = config | Println _ => True | _ => False end)
            (main (Validate config)) [] anything) as Hp.
  { cbn [main]. unfold validate_command. apply post_try; [done|]. intros [text|e]; [|done].
    destruct (parse_text text); cbn; done. }
  exact (post_calls _ _ _ [] _ _ Hp Hs tr1 _ tr2 eq_refl).
Qed.
End commands.
End start.

(** ** Two processes *)

Module Examples.
Import Toy Conf.Examples.
#[local] Instance no_tls : Certs.TlsLib :=
  {| Certs.X509 := unit; Certs.PKey := unit; Certs.stack_from_pem _ := Err "pem";
     Certs.private_key_from_pem _ := Err "pem"; Certs.public_matches _ _ := Ok true;
     Certs.subject_alt_names _ := None; Certs.x_not_before _ := Ok 0; Certs.x_not_after _ := Ok 0 |}.
#[local] Instance any_mint : MintUrlLib := λ s, Ok s.
Definition answers (X : Type) (c : Cmd X) : X :=
  match c with
  | VarOs _ => None
  | TryExists _ => Ok false
  | ReadToString _ => Err "read"
  | Absolute p => Ok p
  | OpenStorage _ _ => Ok tt
  | DropStorage => tt
  | ReadCertificate _ => Ok None
  | MakeRuntime => Ok tt
  | MakeTls => Ok tt
  | WalletPay _ _ _ _ _ => Ok tt
  | WalletPending _ _ _ => Ok []
  | WalletBalance _ _ => Ok 0
  | WalletExport _ _ _ => Ok "token"
  | Serve _ _ => tt
  | Println _ => tt
  end.
Definition balance (path : string) : Command := Wallet "http://localhost:3000" (Some path) Balance.
(** Two names of one directory: the second process is refused. *)
Definition example_run : list action :=
  [Launch (balance "/data"); Launch (balance "/link"); Advance 0 answers; Advance 1 answers; Advance 0 answers].
Definition one_directory (path : string) : nat := 0.
Definition machine : list Process := play "" "" Conf.message one_directory example_run.
Definition first_process : Process :=
  default {| command := Validate ""; past := []; rest := None; lock := None |} (machine !! 0%nat).
Definition second_process : Process :=
  default {| command := Validate ""; past := []; rest := None; lock := None |} (machine !! 1%nat).

Lemma data_directory_exclusive_witness :
  opened (past first_process) = Some "/data" ∧ lock first_process = Some 0%nat ∧
  opened (past second_process) = None ∧ is_Some (rest second_process).
Proof.
  assert (machine !! 0%nat = Some first_process) as H0 by (vm_compute; reflexivity).
  assert (machine !! 1%nat = Some second_process) as H1 by (vm_compute; reflexivity).
  destruct (data_directory_exclusive "" "" Conf.message one_directory example_run 0 1 first_process second_process H0 H1)
    as [Hu _].
  assert (∃ k, rest first_process = Some (Do (WalletBalance "/data" "http://localhost:3000") k)) as [k Hr]
    by (vm_compute; eexists; reflexivity).
  destruct (Hu _ _ k "/data" Hr eq_refl) as [Ho Hl].
  split; [exact Ho|]. split; [exact Hl|]. split; [vm_compute; reflexivity|]. vm_compute. eexists. reflexivity.
Defined.
End Examples.
End Start.
