(* ===== verification/Receiver.v ===== *)
(** * Invoices from a Lightning node ([payments/lightning/receiver.rs])

    The call that gets an invoice from an LDK server: it reads the credentials, makes a
    client for the node's authority, and asks once. *)
From S2P Require Import Prelude Text Net Effects Extern Flow Terms LnPolicy Http.
#[local] Open Scope string_scope.
#[local] Open Scope list_scope.
#[local] Open Scope Z_scope.

Module Receiver.
Import Ln.

(** [ldk_server_client::macaroon::MAX_MACAROON_BYTES] *)
Class LdkClient := max_macaroon_bytes : Z.

Inductive Cmd : Type → Type :=
(** [File::open], and at most so many bytes of the file *)
| ReadFile (path : string) (limit : Z) : Cmd (result anyhow string)
(** [LdkServerClient::new] *)
| NewClient (authority token cert : string) : Cmd (result anyhow unit)
(** [bolt11_receive] with its ten seconds: amount, description hash, expiry *)
| Bolt11Receive (amount_msat : Z) (hash : string) (expiry_secs : Z) : Cmd (result anyhow string).
Abbreviation step A := (proc Cmd (result anyhow A)).

Section receiver.
Context `{UrlLib, LdkClient}.

Definition read_bounded (path : string) (max : Z) : step string :=
  let! bytes := try_ (ReadFile path (max + 1)) in
  Done (_ ← ensure (Z.of_nat (slen bytes) <=? max) "receiver credential file too large"; mret bytes).

(** [url[BeforeHost..AfterPort]]: the host, and the port when it is written *)
Definition authority (url : Url) : string :=
  default "" (url_host_str url) +:+
  match url_port url with Some p => ":" +:+ show p | None => "" end.

Definition invoice (config : LdkReceiverConfig) (amount : Z) (hash : string) : step string :=
  let! bytes := read_bounded (macaroon_file config) (max_macaroon_bytes * 2 + 2) in
  let! token := Done (ok_or "ldk-server macaroon file must contain UTF-8 hex" (utf8_decode bytes)) in
  let! cert := read_bounded (tls_cert_file config) (1024 * 1024) in
  let! endpoint := Done (url_parse (endpoint config)) in
  let! _ := try_ (NewClient (authority endpoint) (utf8 (trim token)) cert) in
  let! invoice := try_ (Bolt11Receive amount hash (expiry_seconds config)) in
  Done (_ ← ensure (negb (bool_decide (invoice = ""))) "receiver omitted invoice"; mret invoice).

(** A file system: what is read of a file is its front. *)
Definition front (limit : Z) (content : string) : string := String.substring 0 (Z.to_nat limit) content.
Definition honest_files (content : string → option string) (tr : list (event Cmd)) : Prop :=
  ∀ path limit r, Ev (ReadFile path limit) r ∈ tr →
    ∀ bytes, r = Ok bytes → ∃ text, content path = Some text ∧ bytes = front limit text.

Definition calls_made (tr : list (event Cmd)) : list (Z * string * Z) :=
  omap (λ e, match e with Ev c _ => match c with Bolt11Receive a h e => Some (a, h, e) | _ => None end end) tr.

(** What is asked of the node: at most once, exactly this invoice, at its authority. *)
Definition asked (config : LdkReceiverConfig) (amount : Z) (hash : string) (tr : list (event Cmd)) (X : Type) (c : Cmd X) : Prop :=
  match c with
  | Bolt11Receive a h e => calls_made tr = [] ∧ a = amount ∧ h = hash ∧ e = expiry_seconds config
  | NewClient at_ _ _ => ∃ url, url_parse (endpoint config) = Ok url ∧ at_ = authority url
  | ReadFile path limit => path = macaroon_file config ∨ path = tls_cert_file config
  end.

Lemma calls_made_snoc tr e : calls_made (tr ++ [e]) = calls_made tr ++ calls_made [e].
Proof. unfold calls_made. by rewrite omap_app. Qed.

Lemma read_bounded_post config amount hash path max tr (Φ : list (event Cmd) → result anyhow string → Prop) :
  path = macaroon_file config ∨ path = tls_cert_file config →
  (∀ r, Φ (tr ++ [Ev (ReadFile path (max + 1)) r]) (b ← r; _ ← ensure (Z.of_nat (slen b) <=? max) "receiver credential file too large"; mret b)) →
  post (asked config amount hash) (read_bounded path max) tr Φ.
Proof. intros Hp HΦ. apply post_try; [done|]. intros [b|e]; [apply (HΦ (Ok b))|apply (HΦ (Err e))]. Qed.

(** A receiver is asked for the invoice of the policy and for nothing else: one call at
    most, at the authority of its endpoint, with the amount, the request hash and the
    configured expiry; and an invoice that is returned is not empty. *)
Theorem receiver_asked_once config amount hash tr q :
  steps (invoice config amount hash) tr q →
  (∀ tr1 X (c : Cmd X) x tr2, tr = tr1 ++ Ev c x :: tr2 → asked config amount hash tr1 X c) ∧
  (∀ text, q = Done (Ok text) → text ≠ "" ∧ calls_made tr = [(amount, hash, expiry_seconds config)]).
Proof.
  intros Hs.
  assert (post (asked config amount hash) (invoice config amount hash) []
            (λ tr r, ∀ text, r = Ok text → text ≠ "" ∧ calls_made tr = [(amount, hash, expiry_seconds config)])) as Hp.
  { unfold invoice. apply post_then, read_bounded_post; [by left|]. intros r.
    destruct (b ← r; _) as [bytes|e]; [|done]. apply post_lift; [|done]. intros token _.
    apply post_then, read_bounded_post; [by right|]. intros r'.
    destruct (b ← r'; _) as [cert|e]; [|done]. apply post_lift; [|done]. intros url Hu.
    apply post_try; [by exists url|]. intros [[]|e]; [|done]. apply post_try; [done|].
    intros [text|e]; [|done]. cbn. case_bool_decide; [done|]. by intros ? [= <-]. }
  split.
  - intros tr1 X c x tr2 Ht. exact (post_calls _ _ _ [] _ _ Hp Hs tr1 _ tr2 Ht).
  - intros text ->. exact (post_steps _ _ [] _ _ _ Hp Hs text eq_refl).
Qed.

(** A credential file is used whole or not at all. *)
Theorem credentials_whole content path max tr bytes :
  honest_files content tr → steps (read_bounded path max) tr (Done (Ok bytes)) → content path = Some bytes.
Proof.
  intros Hh Hs.
  assert (post (λ _ _ _, True) (read_bounded path max) []
    (λ tr r, ∀ b, r = Ok b → Z.of_nat (slen b) ≤ max ∧ Ev (ReadFile path (max + 1)) (Ok b) ∈ tr)) as Hp.
  { apply post_try; [done|]. intros [b|e]; [|done]. simpl. destruct (Z.leb_spec (Z.of_nat (slen b)) max); [|done].
    intros b' [= <-]. split; [done|]. set_solver. }
  destruct (post_steps _ _ [] _ _ _ Hp Hs bytes eq_refl) as [Hl Hin].
  destruct (Hh _ _ _ Hin bytes eq_refl) as (text & Ht & Hb). rewrite Ht. f_equal. subst bytes.
  unfold front in *. clear -Hl. assert (slen (String.substring 0 (Z.to_nat (max + 1)) text) < Z.to_nat (max + 1))%nat as H by lia.
  revert H. generalize (Z.to_nat (max + 1)). clear. induction text as [|c text IH]; intros [|n] Hl; simpl in *; try lia; [done|].
  f_equal. apply IH. lia.
Qed.
End receiver.
End Receiver.
